(* ===== verification/_CoqProject ===== *)
-Q . S2P
Prelude.v
CommitModel.v
BTree.v
Cbor.v
Exact.v
Codec.v
Coverage.v
Units.v
Resume.v
Gf.v
FecLinear.v
Fec.v
FecPlan.v
FecReceiver.v
FecSender.v
FecTransfer.v
Digest.v
MerkleLog.v
LogNote.v
Registry.v
FrameCbor.v
FramesSession.v
FramesTransfer.v
FramesFec.v
Frames.v
SessionError.v
Negotiation.v
NegotiationSafety.v
Handshake.v
SessionPolicy.v
Session.v
SessionSafety.v
SessionTheorems.v
SessionLink.v
Crc32c.v
Journal.v
JournalWriter.v
JournalCrash.v
Permit.v
Framing.v
FramingTheorems.v
Readers.v
Text.v
ManifestPath.v
Manifest.v
ManifestCodec.v
ManifestIngest.v
Receipt.v
ReceiptCodec.v
ReceiptChain.v
Capability.v
CapabilityCodec.v
CapabilityAuth.v
Formats.v
HashTree.v
Verifier.v
VerifierRoot.v
ProofSha256.v
ProofSha256Tree.v
ProofSha256Complete.v
ProofSha256Range.v
