(* ===== verification/Prelude.v ===== *)
(** * VOT: a verification development of the verified object transfer protocol

    VOT moves large objects between machines.  A sender and a receiver open a
    session over a carrier (QUIC or TCP), negotiate settings and authenticate,
    exchange manifests, proofs and data records as typed frames, optionally send
    data as erasure-coded datagrams, and commit what arrived under a named
    assurance level; receipts and heads of receipt chains are witnessed by an
    append-only log.  The sources are the Rust crates under [src/crates].  This
    development models the crates below; each file names the sources it
    translates, and a definition keeps the name of the function or type it
    models wherever the two languages allow it.

    ** Files and what they show

    - [Prelude], [BTree], [Exact], [Digest], [Registry]: shared vocabulary.
      [Prelude] holds Rust's [Result] and [?], the error-state monad the codecs
      are written in, machine integers, slices and big-endian words.  [BTree]
      holds the ordered maps of the standard library.  [Exact] holds the
      combinators with which a record codec is shown exact from its fields
      alone.  [Digest] makes the digests and signatures parameters, with
      collision freedom stated on the strings a proof hashes.  [Registry] holds
      the registered numbers.
    - [CommitModel] ([vot-commit-model/src/lib.rs]): the commit machine, its
      transition function [apply] and the conformance walk.  A machine that
      published has performed the predecessor its profile requires; observed
      assurance never goes down; terminal states absorb; the walk lists exactly
      the reachable machine shapes.
    - [Cbor] ([vot-cbor/src/lib.rs]) and [Codec] ([vot-codec/src/lib.rs] and its
      generated registries): the deterministic CBOR subset with UTF-8, varints,
      envelopes, batches, SETTINGS and HELLO.  Readers accept exactly what the
      writers emit, never move past their input, terminate on every input, and
      report errors in the documented order.
    - [FrameCbor], [FramesSession], [FramesTransfer], [FramesFec], [Frames]
      ([vot-codec/src/frames/]): the twenty-four typed frames.  Every frame the
      encoder accepts decodes to itself.  The decoder accepts exactly the
      spellings of such frames: the type and length, and the varint a GOAWAY or
      an ERROR opens with, may take more bytes than needed; the rest is byte for
      byte what the encoder writes.
    - [Coverage] ([vot-coverage/src/lib.rs]): accepted byte ranges with bookings
      and reservations, as a refinement of sets of bytes.
    - [Units], [Resume] ([vot-resume-core/src/units.rs], [tracker.rs]): run-length
      sets of units and the checkpoint tracker; a crash costs at most the
      checkpoint window and the units in flight.
    - [Gf], [FecLinear], [Fec], [FecPlan], [FecReceiver], [FecSender],
      [FecTransfer] ([vot-fec/src/]): GF(256) and its tables, the Cauchy
      Reed-Solomon code, epoch plans, the receiver, the sender, and the two ends
      together.  Any k symbols of a generation decode to its sources; no call
      sequence panics either end or passes the credit; what a receiver decodes
      from an honest sender is the object's bytes, and enough distinct symbols
      do make it decode.
    - [MerkleLog], [LogNote] ([vot-log/src/]): the RFC 6962 tree with inclusion
      and consistency proofs, sound and complete; checkpoint notes, which parse
      exactly when they are a serialization; the witness policy.
    - [Permit], [Framing], [FramingTheorems] ([vot-transport-api/src/permit.rs],
      [vot-transport-framing/src/lib.rs]): the permit ledger, and the reassembly
      of frames from a byte stream against a budget.  The budget is the class
      [AssemblyBudget] with its laws [BudgetLaws], discharged by the ledger.
      How a stream is cut into reads changes neither the frames nor the fault;
      what is buffered is bounded, and is exactly what the budget carries; the
      loop's fuel is two turns per byte and two more, and is never used up.
      [bare_frame_is_withheld] shows every frame with an empty payload kept
      back, complete, when it arrives in several reads.
    - [Crc32c], [Journal], [JournalWriter], [JournalCrash] ([vot-journal/src/]):
      the checksum and its combination; the record format and replay; the
      writer over a model of files, a directory and power loss, in which every
      system call may fail and a failed write may have landed in part.  A log
      cut anywhere replays to the records whole in it; replay accepts nothing
      but records.  [account] keeps the books of what calls told the caller is
      durable; after any run and any power loss the recovered log covers it, by
      the record or by a later checkpoint, but for records vouched for in a file
      whose name was not yet on disk.  Replay's fuel is one more than the file
      has bytes.  A power loss keeps a prefix
      of a file that covers what was synchronized; reordered or zeroed blocks
      are outside the model.  [reopening_leaves_rename_unsynchronized] shows
      an acknowledged record lost when a restart finds a rename that was never
      synchronized.
    - [Readers], [Text]: what the decoders of pages, receipts and capabilities
      share, and the strings and byte order of the standard library.
    - [ManifestPath], [Manifest], [ManifestCodec], [ManifestIngest]
      ([vot-manifest/src/]): package paths and their canonical keys, pages and
      seals with their codecs, progressive ingest and the path index.  Pages and
      seals have one encoding; accepting pages one by one is accepting the whole
      entry list; an accepted package is a tree; a seal determines the pages; a
      refusal poisons; the index finds exactly the pushed paths.  A file's
      ancestry is checked in the source only against the entry just before it,
      and the order of keys makes that enough.
    - [Receipt], [ReceiptCodec], [ReceiptChain] ([vot-receipt/src/]): receipts,
      their timestamps, codec, authenticators, chains and witness statements.
      Envelopes have one encoding and transcripts bind them; a verified chain is
      one account that only advances; its head determines all of it; and a chain
      that reports a run of [CommitModel] verifies.
    - [Capability], [CapabilityCodec], [CapabilityAuth] ([vot-capability/src/]):
      capabilities, their codec and signature, and the decision to believe one.
      [authorize_iff] states the decision as a condition; refusals about trust
      name their cause; an honest holder is believed; a scope allows a read
      exactly when it covers every byte of it.
    - [Formats]: the interface [PageFormats] of [Frames] implemented by the
      decoders of pages, seals and receipts, so that a frame that carries one is
      described end to end.  A seal may be a megabyte and its frame a quarter of
      that: seals of up to 6718 pages travel.
    - [HashTree], [Verifier], [VerifierRoot] ([vot-verifier/src/lib.rs]): chunks
      and binary hash trees, the streaming verifier of both suites, and that it
      computes the root of the whole however the bytes arrive.  The carry of the
      counter has 65 turns and the padding 64: the count is a [u64].
    - [ProofSha256], [ProofSha256Tree], [ProofSha256Complete],
      [ProofSha256Range] ([vot-proof-sha256/src/lib.rs]): range proofs over the
      SHA-256 piece tree.  What a proof decodes to is the hash of an explicit
      tree; a proof made from an object or from its piece hashes verifies; bytes
      and piece hashes that verify are the object's.  The loops over levels have
      64 turns, and a tree of [u64] pieces has at most 63 levels.
    - [SessionError], [Negotiation], [NegotiationSafety], [Handshake]
      ([vot-session/src/error.rs], [negotiation.rs], [authentication.rs]): the
      handshake and authentication of both roles.  The record [Negotiation] is
      the struct, one definition per method.  Every call, in or out of
      turn, is a step of a small protocol relation ([transition]), and one that
      fails changes no attempt, request or grant.  A session is ready only under
      a challenge that asks for nothing or with a grant, whose making is in its
      past: its own caller's decision on a request the challenge allows or, on a
      client, an acceptance it read.  Application frames wait for that; two ends
      that follow the code always complete, and every attempt is answered.
      [grant_reopens_closed] shows a grant made too late reopening a closed
      exchange.
    - [SessionPolicy], [Session], [SessionSafety], [SessionTheorems],
      [SessionLink] ([vot-session/src/session.rs], [frame_policy.rs],
      [pending.rs], and the events and errors of [vot-transport-api]): the
      session that owns a carrier.  The carrier is the class
      [TransportAdapter], the trait of the source; theorems that need more of
      it say so ([delivers]: it delivers bytes; [control_log]: it keeps what it
      takes), and [SessionLink] gives a backend on which both hold.  A relation
      that every primitive step respects is respected by every call ([Steps],
      [Discipline]); from that come the books, the order of the control stream
      and the termination of [poll].  The fuel of [poll] is the number of times
      it may poll its carrier: it runs out only when the carrier hands out that
      many events of data within the call.  What one end may send the other
      accepts; what [poll] returns the application may see; a peer fault
      is final.  [refusal_hides_control_frame] shows a report lost after a
      refusal.

    ** How code becomes definitions

    Unsigned integers are [Z] with their range as a predicate ([is_u8], [is_u64]
    and so on); saturating, checked and wrapping operations are written out, and
    [usize] is 64 bits wide.  Bytes are [list Z] under [byte_list].  A function
    that returns [Result] returns [result]; one that can panic returns [option],
    [None] being the panic, and its totality is proved where the code relies on
    it.  A [&mut] receiver is state passed and returned; an output vector or a
    reader is the state of the monad [M].

    Loops are folds or structural recursion.  Where the recursion is bounded by
    a machine width ([USIZE_BITS] steps up a Merkle tree, the number of frames
    in a batch by its length) the bound is the definition's fuel and the
    theorems cover every input, so running out of fuel is never an excuse.

    Third-party code is a parameter: SHA-256, BLAKE3 and Ed25519 ([Digest]),
    HMAC ([Receipt]), base64 ([LogNote]), Unicode normalization
    ([ManifestPath]), the SIMD vector unit ([Gf]).  Each comes with the laws
    used and a concrete instance on which the theorems' witnesses run.

    ** Not modelled

    - Crates that are mostly operating system, network or foreign calls: the
      platform crates, the commit providers, the proof and object stores, the
      transports, the SDKs, the command line, the WebAssembly bindings and the
      benchmark driver.  What they do is outside what a pure function can say.
    - The builder of [vot-proof-sha256] that keeps its nodes in a proof store
      ([StoredPieceHashes], [SealedPieceHashes]).
    - [vot-proof-blake3], [vot-verified-range], [vot-proof-catalog], [vot-pack],
      [vot-scheduler] and [vot-transport-queue]: pure enough to model in part,
      not modelled.  The first needs the subtree interface of the BLAKE3 crate
      as a parameter, the second needs the first.
    - Capacities, allocation failure, logging and the [Debug] and [Display]
      implementations of the modelled crates. *)

From stdpp Require Export prelude list.
From Stdlib Require Export ZArith Lia Sorted.

#[global] Open Scope Z_scope.

(** ** Notation, results and the error-state monad *)

Declare Scope vot_scope.
Delimit Scope vot_scope with vot.

(** Rust's [Result<T, E>]. *)
Inductive result (A E : Type) : Type :=
| Ok (a : A)
| Err (e : E).
Arguments Ok {A E} a.
Arguments Err {A E} e.

(** [let? p := c in k] is Rust's [let p = c?; k]. *)
Notation "'let?' p := c 'in' k" :=
  (match c with Ok p => k | Err e => Err e end)
  (at level 10, p pattern, c at level 100, k at level 200) : vot_scope.
#[global] Open Scope vot_scope.

Definition ok_or {A E} (o : option A) (e : E) : result A E :=
  match o with Some a => Ok a | None => Err e end.

Definition map_err {A E F} (f : E -> F) (r : result A E) : result A F :=
  match r with Ok a => Ok a | Err e => Err (f e) end.

Definition is_ok {A E} (r : result A E) : bool :=
  match r with Ok _ => true | Err _ => false end.

#[global] Instance result_eq_dec {A E} `{EqDecision A, EqDecision E} :
  EqDecision (result A E).
Proof. solve_decision. Defined.

(** Operations on [&mut self] returning a [Result]: the state survives an
    error, as a mutated Rust receiver does. *)
Definition M (S E A : Type) : Type := S -> result A E * S.

Definition ret {S E A} (a : A) : M S E A := fun s => (Ok a, s).
Definition fail {S E A} (e : E) : M S E A := fun s => (Err e, s).
Definition bind {S E A B} (m : M S E A) (k : A -> M S E B) : M S E B :=
  fun s => match m s with (Ok a, s') => k a s' | (Err e, s') => (Err e, s') end.
Definition lift {S E A} (r : result A E) : M S E A := fun s => (r, s).

(** [let! p := m in k] is the same inside a method on [&mut self]. *)
Notation "'let!' p := m 'in' k" := (bind m (fun p => k))
  (at level 10, p pattern, m at level 100, k at level 200) : vot_scope.

Definition mmap_err {S A E F} (f : E -> F) (m : M S E A) : M S F A := fun s =>
  match m s with (Ok a, s') => (Ok a, s') | (Err e, s') => (Err (f e), s') end.

Notation "m ';!' k" := (bind m (fun _ => k)) (at level 60, right associativity) : vot_scope.

Lemma bind_ok {S E A B} (m : M S E A) (k : A -> M S E B) s a s' :
  m s = (Ok a, s') -> bind m k s = k a s'.
Proof. unfold bind. by intros ->. Qed.

Lemma bind_ok_inv {S E A B} (m : M S E A) (k : A -> M S E B) s b s' :
  bind m k s = (Ok b, s') -> exists a s1, m s = (Ok a, s1) /\ k a s1 = (Ok b, s').
Proof. unfold bind. destruct (m s) as [[a | e] s1]; intros H; [by eauto | done]. Qed.

(** ** Machine integers *)

Definition u8_max : Z := 255.
Definition u16_max : Z := 65535.
Definition u32_max : Z := 4294967295.
Definition u64_max : Z := 18446744073709551615.
Definition i64_max : Z := 9223372036854775807.
Definition i64_min : Z := -9223372036854775808.

Definition is_u8 (z : Z) : Prop := 0 <= z <= u8_max.
Definition is_u32 (z : Z) : Prop := 0 <= z <= u32_max.
Definition is_u64 (z : Z) : Prop := 0 <= z <= u64_max.

(** [u8::try_from], [u16::try_from] and [u32::try_from] of an unsigned value. *)
Definition try_from (max value : Z) : option Z := if value <=? max then Some value else None.

Lemma try_from_ok {E} max value (e : E) v : ok_or (try_from max value) e = Ok v <-> v = value /\ value <= max.
Proof. unfold try_from. destruct (Z.leb_spec value max); simpl; split; naive_solver lia. Qed.

(** [u64::checked_add], [u64::saturating_add], [u64::saturating_sub]. *)
Definition checked_add (a b : Z) : option Z :=
  if a + b <=? u64_max then Some (a + b) else None.
Definition saturating_add (a b : Z) : Z := Z.min (a + b) u64_max.
Definition saturating_sub (a b : Z) : Z := Z.max (a - b) 0.

Lemma checked_add_Some a b c :
  checked_add a b = Some c <-> c = a + b /\ a + b <= u64_max.
Proof. unfold checked_add. destruct (Z.leb_spec (a + b) u64_max); split; [by intros [= <-] | by intros [-> ?] | done | lia]. Qed.

Lemma checked_add_None a b : checked_add a b = None <-> u64_max < a + b.
Proof. unfold checked_add. destruct (Z.leb_spec (a + b) u64_max); split; [done | lia | lia | done]. Qed.

(** [u64::div_ceil]. *)
Definition div_ceil (a b : Z) : Z := (a + b - 1) / b.

Lemma div_ceil_spec a b : 0 < b -> div_ceil a b * b - b < a <= div_ceil a b * b.
Proof.
  intros Hb. unfold div_ceil.
  pose proof (Z.div_mod (a + b - 1) b ltac:(lia)).
  pose proof (Z.mod_pos_bound (a + b - 1) b Hb). nia.
Qed.

(** ** Slices, with [Z] offsets as the source has [usize] ones *)

Definition zlen {A} (l : list A) : Z := Z.of_nat (length l).
Definition ztake {A} (n : Z) (l : list A) : list A := take (Z.to_nat n) l.
Definition zdrop {A} (n : Z) (l : list A) : list A := drop (Z.to_nat n) l.
(** [&l[a..b]]. *)
Definition slice {A} (l : list A) (a b : Z) : list A := ztake (b - a) (zdrop a l).
(** [l.get(a..b)]. *)
Definition get_range {A} (l : list A) (a b : Z) : option (list A) :=
  if (a <=? b) && (b <=? zlen l) then Some (slice l a b) else None.
(** [l.get(i)]. *)
Definition zget {A} (l : list A) (i : Z) : option A :=
  if 0 <=? i then l !! Z.to_nat i else None.

Section slices.
Context {A : Type}.
Implicit Types l k : list A.

Lemma zlen_nonneg l : 0 <= zlen l.
Proof. unfold zlen. lia. Qed.

Lemma zlen_nil : zlen (@nil A) = 0.
Proof. done. Qed.

Lemma zlen_cons x l : zlen (x :: l) = 1 + zlen l.
Proof. unfold zlen. simpl. lia. Qed.

Lemma zlen_app l k : zlen (l ++ k) = zlen l + zlen k.
Proof. unfold zlen. rewrite length_app. lia. Qed.

Lemma zlen_ztake n l : 0 <= n <= zlen l -> zlen (ztake n l) = n.
Proof. unfold zlen, ztake. rewrite length_take. lia. Qed.

Lemma zlen_zdrop n l : 0 <= n <= zlen l -> zlen (zdrop n l) = zlen l - n.
Proof. unfold zlen, zdrop. rewrite length_drop. lia. Qed.

Lemma ztake_zdrop n l : ztake n l ++ zdrop n l = l.
Proof. apply take_drop. Qed.

Lemma ztake_app l k : ztake (zlen l) (l ++ k) = l.
Proof. unfold ztake, zlen. rewrite Nat2Z.id. by apply take_app_length. Qed.

Lemma zdrop_app l k : zdrop (zlen l) (l ++ k) = k.
Proof. unfold zdrop, zlen. rewrite Nat2Z.id. by apply drop_app_length. Qed.

Lemma zdrop_0 l : zdrop 0 l = l.
Proof. done. Qed.

Lemma ztake_all n l : zlen l <= n -> ztake n l = l.
Proof. unfold ztake, zlen. intros. apply take_ge. lia. Qed.

Lemma zdrop_zdrop a b l : 0 <= a -> 0 <= b -> zdrop a (zdrop b l) = zdrop (a + b) l.
Proof. intros. unfold zdrop. rewrite drop_drop. f_equal. lia. Qed.

Lemma zlen_slice a b l : 0 <= a <= b -> b <= zlen l -> zlen (slice l a b) = b - a.
Proof.
  intros. unfold slice. apply zlen_ztake. rewrite zlen_zdrop; lia.
Qed.

(** A slice that starts where a prefix ends. *)
Lemma slice_app_mid l k m : slice (l ++ k ++ m) (zlen l) (zlen l + zlen k) = k.
Proof.
  unfold slice. rewrite zdrop_app.
  replace (zlen l + zlen k - zlen l) with (zlen k) by lia. apply ztake_app.
Qed.

Lemma get_range_app_mid l k m :
  get_range (l ++ k ++ m) (zlen l) (zlen l + zlen k) = Some k.
Proof.
  unfold get_range. rewrite slice_app_mid, !zlen_app.
  pose proof (zlen_nonneg k). pose proof (zlen_nonneg m).
  destruct (Z.leb_spec (zlen l) (zlen l + zlen k)); [|lia].
  destruct (Z.leb_spec (zlen l + zlen k) (zlen l + (zlen k + zlen m))); [done | lia].
Qed.

Lemma get_range_Some a b l s :
  0 <= a -> get_range l a b = Some s ->
  a <= b <= zlen l /\ s = slice l a b /\ zlen s = b - a.
Proof.
  intros Ha. unfold get_range.
  destruct (Z.leb_spec a b); [|done]. destruct (Z.leb_spec b (zlen l)); [|done].
  intros [= <-]. split_and!; try done || lia. by apply zlen_slice.
Qed.

Lemma zget_Some l i x : zget l i = Some x -> 0 <= i < zlen l.
Proof.
  unfold zget, zlen. destruct (Z.leb_spec 0 i); [|done].
  intros Hl%lookup_lt_Some. lia.
Qed.
End slices.

Lemma slice_shift {A} (l k : list A) a b : 0 <= a -> slice (l ++ k) (zlen l + a) (zlen l + b) = slice k a b.
Proof.
  intros Ha. unfold slice. replace (zlen l + b - (zlen l + a)) with (b - a) by lia. f_equal.
  rewrite (Z.add_comm _ a), <- (zdrop_zdrop a (zlen l)) by (try apply zlen_nonneg; lia). by rewrite zdrop_app.
Qed.

Lemma slice_app_l {A} (l k : list A) a b : 0 <= a <= b -> b <= zlen l -> slice (l ++ k) a b = slice l a b.
Proof.
  intros Ha Hb. unfold slice, ztake, zdrop, zlen in *. rewrite drop_app_le by lia. apply take_app_le. rewrite length_drop. lia.
Qed.

Lemma slice_cat {A} (l : list A) a b c : 0 <= a <= b -> b <= c -> slice l a b ++ slice l b c = slice l a c.
Proof.
  intros Hab Hbc. unfold slice, ztake, zdrop. replace (drop (Z.to_nat b) l) with (drop (Z.to_nat (b - a)) (drop (Z.to_nat a) l))
    by (rewrite drop_drop; f_equal; lia).
  rewrite take_take_drop. f_equal. lia.
Qed.

Lemma slice_all {A} (l : list A) n : zlen l = n -> slice l 0 n = l.
Proof. intros <-. unfold slice. rewrite zdrop_0, Z.sub_0_r. by apply ztake_all. Qed.

Lemma prefix_split {A} (c a b : list A) : c `prefix_of` a ++ b -> zlen a <= zlen c -> exists c', c = a ++ c' /\ c' `prefix_of` b.
Proof.
  intros [k Hk] Hl. unfold zlen in Hl. exists (drop (length a) c).
  assert (a = take (length a) c) as Ha.
  { apply (f_equal (take (length a))) in Hk. rewrite take_app_length, take_app_le in Hk by lia. done. }
  split; [rewrite Ha at 1; by rewrite take_drop|]. exists k. apply (f_equal (drop (length a))) in Hk.
  rewrite drop_app_length, drop_app_le in Hk by lia. done.
Qed.

Lemma prefix_short {A} (c a b : list A) : c `prefix_of` a ++ b -> zlen c < zlen a -> c `prefix_of` a.
Proof.
  intros [k Hk] Hl. unfold zlen in Hl. exists (drop (length c) a).
  apply (f_equal (take (length a))) in Hk. rewrite take_app_length, take_app_ge in Hk by lia. set (x := take _ k) in Hk. clearbody x. subst a. by rewrite drop_app_length.
Qed.

Create Rewrite HintDb vot.
#[export] Hint Rewrite @zlen_nil @zlen_cons @zlen_app : vot.

(** ** Sorted lists *)

Lemma list_insert_middle {A} (l1 l2 : list A) x y :
  <[length l1 := y]> (l1 ++ x :: l2) = l1 ++ y :: l2.
Proof. induction l1 as [|z l1 IH]; simpl; [done|by rewrite IH]. Qed.

Lemma mapM_map {A B} (f : A -> option B) (g : A -> B) l :
  (forall x, x ∈ l -> f x = Some (g x)) -> mapM f l = Some (map g l).
Proof.
  induction l as [|x l IH]; intros H; [done|]. simpl. rewrite (H x) by set_solver. simpl.
  rewrite IH; [done|]. intros. apply H. set_solver.
Qed.

Lemma StronglySorted_filter {A} (R : A -> A -> Prop) (P : A -> Prop) `{!forall x, Decision (P x)} l :
  StronglySorted R l -> StronglySorted R (filter P l).
Proof.
  induction 1 as [|x l Hl IH Hx]; [constructor|].
  rewrite filter_cons. case_decide; [|done]. constructor; [done|].
  apply Forall_forall. intros y [_ Hy]%list_elem_of_filter. rewrite Forall_forall in Hx. auto.
Qed.

Lemma StronglySorted_last {A} (R : A -> A -> Prop) l x :
  StronglySorted R l -> last l = Some x -> forall y, y ∈ l -> y = x \/ R y x.
Proof.
  induction 1 as [|z l Hl IH Hz]; [done|]. rewrite last_cons.
  destruct (last l) as [w|] eqn:Hw.
  - intros [= ->] y [->|Hin]%elem_of_cons; [|by apply IH].
    right. rewrite Forall_forall in Hz. apply Hz. apply last_Some in Hw as [l' ->]. set_solver.
  - intros [= ->]. apply last_None in Hw as ->. intros y Hy. set_solver.
Qed.

(** ** Bytes and big-endian integers *)

Definition byte_list (l : list Z) : Prop := Forall is_u8 l.

(** [uN::to_be_bytes] for a width of [w] bytes. *)
Fixpoint to_be_bytes (w : nat) (v : Z) : list Z :=
  match w with
  | O => []
  | S w' => to_be_bytes w' (v / 256) ++ [v mod 256]
  end.

(** [uN::from_be_bytes]. *)
Definition from_be_bytes (l : list Z) : Z := foldl (fun acc b => acc * 256 + b) 0 l.

Lemma length_to_be_bytes w v : length (to_be_bytes w v) = w.
Proof. revert v. induction w; intros v; simpl; [done|]. rewrite length_app, IHw. simpl. lia. Qed.

Lemma zlen_to_be_bytes w v : zlen (to_be_bytes w v) = Z.of_nat w.
Proof. unfold zlen. by rewrite length_to_be_bytes. Qed.

Lemma from_be_bytes_snoc l b : from_be_bytes (l ++ [b]) = from_be_bytes l * 256 + b.
Proof. unfold from_be_bytes. by rewrite foldl_app. Qed.

Lemma to_be_bytes_byte_list w v : byte_list (to_be_bytes w v).
Proof.
  revert v. induction w; intros v; simpl; [constructor|].
  apply Forall_app. split; [apply IHw|]. constructor; [|constructor].
  unfold is_u8, u8_max. pose proof (Z.mod_pos_bound v 256). lia.
Qed.

Lemma from_to_be_bytes w v :
  0 <= v < 256 ^ Z.of_nat w -> from_be_bytes (to_be_bytes w v) = v.
Proof.
  revert v. induction w as [|w IH]; intros v Hv; simpl.
  - simpl in Hv. unfold from_be_bytes. simpl. lia.
  - rewrite from_be_bytes_snoc, IH.
    + pose proof (Z.div_mod v 256). lia.
    + rewrite Nat2Z.inj_succ, Z.pow_succ_r in Hv by lia.
      split; [apply Z.div_pos; lia | apply Z.div_lt_upper_bound; lia].
Qed.

Lemma from_be_bytes_bound l :
  byte_list l -> 0 <= from_be_bytes l < 256 ^ zlen l.
Proof.
  induction l as [|b l IH] using rev_ind; intros Hl.
  - unfold zlen, from_be_bytes. simpl. lia.
  - apply Forall_app in Hl as [Hl Hb]. rewrite Forall_singleton in Hb.
    unfold is_u8, u8_max in Hb. specialize (IH Hl).
    pose proof (zlen_nonneg l).
    rewrite from_be_bytes_snoc, zlen_app. change (zlen [b]) with 1.
    rewrite Z.pow_add_r, Z.pow_1_r by lia. lia.
Qed.

Lemma to_from_be_bytes l : byte_list l -> to_be_bytes (length l) (from_be_bytes l) = l.
Proof.
  induction l as [|b l IH] using rev_ind; intros Hl; [done|].
  apply Forall_app in Hl as [Hl Hb]. rewrite Forall_singleton in Hb.
  unfold is_u8, u8_max in Hb.
  rewrite length_app. replace (length l + length [b])%nat with (S (length l)) by (simpl; lia).
  simpl. rewrite from_be_bytes_snoc.
  replace ((from_be_bytes l * 256 + b) / 256) with (from_be_bytes l)
    by (apply Z.div_unique with b; lia).
  replace ((from_be_bytes l * 256 + b) mod 256) with b
    by (apply Z.mod_unique with (from_be_bytes l); lia).
  by rewrite IH.
Qed.

Lemma from_be_bytes_cons b l : from_be_bytes (b :: l) = b * 256 ^ zlen l + from_be_bytes l.
Proof.
  induction l as [|c l IH] using rev_ind.
  - unfold from_be_bytes, zlen. simpl. lia.
  - rewrite app_comm_cons, !from_be_bytes_snoc, IH, zlen_app. change (zlen [c]) with 1.
    pose proof (zlen_nonneg l). rewrite Z.pow_add_r, Z.pow_1_r by lia. lia.
Qed.

Lemma to_be_bytes_cons w v :
  to_be_bytes (S w) v = (v / 256 ^ Z.of_nat w) mod 256 :: to_be_bytes w v.
Proof.
  revert v. induction w as [|w IH]; intros v.
  - simpl. by rewrite Z.div_1_r.
  - change (to_be_bytes (S (S w)) v) with (to_be_bytes (S w) (v / 256) ++ [v mod 256]).
    rewrite IH, <- app_comm_cons. f_equal.
    by rewrite Z.div_div, Nat2Z.inj_succ, Z.pow_succ_r by lia.
Qed.

Lemma from_to_be_bytes_mod w v : from_be_bytes (to_be_bytes w v) = v mod 256 ^ Z.of_nat w.
Proof.
  revert v. induction w as [|w IH]; intros v; [by rewrite Z.mod_1_r|].
  simpl to_be_bytes. rewrite from_be_bytes_snoc, IH, Nat2Z.inj_succ, Z.pow_succ_r by lia.
  rewrite (Z.rem_mul_r v 256) by lia. lia.
Qed.

(** ** Appending computations

    [writes m bs]: [m] succeeds on every output vector and appends [bs]. *)
Definition writes {E} (m : M (list Z) E unit) (bs : list Z) : Prop :=
  forall out, m out = (Ok tt, out ++ bs).

Lemma writes_ret {E} : writes (@ret _ E _ tt) [].
Proof. intros out. unfold ret. by rewrite app_nil_r. Qed.

Lemma writes_bind {E} (m : M (list Z) E unit) (k : unit -> M (list Z) E unit) b1 b2 :
  writes m b1 -> writes (k tt) b2 -> writes (bind m k) (b1 ++ b2).
Proof. intros Hm Hk out. rewrite (bind_ok _ _ _ _ _ (Hm out)), Hk. by rewrite app_assoc. Qed.

(** ** Bit sets in a machine word *)

Lemma bit_test s e : 0 <= e -> negb (Z.land s (Z.shiftl 1 e) =? 0) = Z.testbit s e.
Proof.
  intros He. rewrite Z.shiftl_1_l. destruct (Z.testbit s e) eqn:Hb.
  - apply negb_true_iff, Z.eqb_neq. intros H0. apply (f_equal (fun z => Z.testbit z e)) in H0.
    by rewrite Z.land_spec, Hb, Z.pow2_bits_true, Z.bits_0 in H0.
  - apply negb_false_iff, Z.eqb_eq, Z.bits_inj_0. intros i. rewrite Z.land_spec.
    destruct (Z.eq_dec e i) as [<-|Hne]; [by rewrite Hb|].
    by rewrite Z.pow2_bits_false, andb_false_r.
Qed.

Lemma bit_set s e i : 0 <= e -> Z.testbit (Z.lor s (Z.shiftl 1 e)) i = (e =? i) || Z.testbit s i.
Proof. intros He. by rewrite Z.lor_spec, Z.shiftl_1_l, Z.pow2_bits_eqb, orb_comm. Qed.

(** ** Counting with a predicate *)

Lemma filter_add (p : Z -> bool) x l :
  NoDup l -> p x = false ->
  zlen (List.filter (fun e => (x =? e) || p e) l) =
    zlen (List.filter p l) + (if bool_decide (x ∈ l) then 1 else 0).
Proof.
  intros Hnd Hp. induction Hnd as [|y l Hy Hnd IH]; [done|]. simpl.
  destruct (Z.eqb_spec x y) as [->|Hne]; simpl.
  - rewrite bool_decide_eq_false_2 in IH by done. rewrite Hp, zlen_cons, IH.
    rewrite bool_decide_eq_true_2 by set_solver. lia.
  - rewrite (bool_decide_ext (x ∈ y :: l) (x ∈ l)) by set_solver.
    destruct (p y); rewrite ?zlen_cons, IH; lia.
Qed.

Lemma filter_none (f : Z -> bool) l : (forall x, x ∈ l -> f x = false) -> List.filter f l = [].
Proof.
  induction l as [|x l IH]; simpl; intros Hf; [done|]. rewrite Hf by set_solver. apply IH. set_solver.
Qed.

Lemma filter_all (f : Z -> bool) l : (forall x, x ∈ l -> f x = true) -> List.filter f l = l.
Proof.
  induction l as [|x l IH]; simpl; intros Hf; [done|]. rewrite Hf by set_solver. f_equal. apply IH. set_solver.
Qed.

(** ** Tactics *)

(** Splits every boolean comparison of [Z] in the goal into its two cases. *)
Ltac zcases :=
  repeat match goal with
  | |- context [Z.ltb ?a ?b] => destruct (Z.ltb_spec a b)
  | |- context [Z.leb ?a ?b] => destruct (Z.leb_spec a b)
  | |- context [Z.eqb ?a ?b] => destruct (Z.eqb_spec a b)
  end.

(** The same for one hypothesis. *)
Ltac zcases_in H :=
  repeat match type of H with
  | context [Z.ltb ?a ?b] => destruct (Z.ltb_spec a b)
  | context [Z.leb ?a ?b] => destruct (Z.leb_spec a b)
  | context [Z.eqb ?a ?b] => destruct (Z.eqb_spec a b)
  end.

(** Unfolds the machine bounds and calls [lia]. *)
Ltac mlia :=
  unfold is_u8, is_u32, is_u64, u8_max, u16_max, u32_max, u64_max, i64_max, i64_min in *;
  lia.
