(* ===== verification/CommitModel.v ===== *)
(** * The commit and assurance machine ([crates/vot-commit-model/src/lib.rs])

    [Machine] is the per-incarnation state machine every commit provider
    drives: [plan] computes a guarded transition, [commit] applies it, and
    [apply] composes the two.  The second half of the source, the exhaustive
    walk that produces the conformance corpus ([reachable_machines],
    [corpus_machines], [transition_corpus]), is modelled as executable code and
    shown to be exhaustive.  Constructors carry a two-letter prefix because the
    source reuses variant names across its enums. *)

From S2P Require Import Prelude.

(** ** Data *)

Inductive Profile := Pr_Fast | Pr_Balanced | Pr_Strict.

Inductive Assurance :=
| As_Admitted | As_TransitVerified | As_Durable | As_AtRestVerified | As_Published.

Inductive State :=
| St_New | St_Admitted | St_TransitVerified | St_DataFlushed | St_Durable
| St_AtRestVerified | St_NamespaceLinked | St_Published | St_RecoveryRequired
| St_Poisoned | St_Aborted.

Inductive Event :=
| Ev_Admit | Ev_TransitVerified | Ev_DataFlushSucceeded | Ev_DataFlushFailed
| Ev_JournalFlushSucceeded | Ev_JournalFlushFailed | Ev_AtRestVerified
| Ev_AtRestVerificationFailed | Ev_NamespaceLinked | Ev_NamespaceLinkAmbiguous
| Ev_NamespaceDurable | Ev_NamespaceFlushFailed | Ev_Crash | Ev_Recover | Ev_Abort.

Inductive Error :=
| Er_StaleIncarnation | Er_Terminal | Er_InvalidTransition | Er_MissingPredecessor.

#[export] Instance Profile_eq_dec : EqDecision Profile.
Proof. solve_decision. Defined.
#[export] Instance Assurance_eq_dec : EqDecision Assurance.
Proof. solve_decision. Defined.
#[export] Instance State_eq_dec : EqDecision State.
Proof. solve_decision. Defined.
#[export] Instance Event_eq_dec : EqDecision Event.
Proof. solve_decision. Defined.
#[export] Instance Error_eq_dec : EqDecision Error.
Proof. solve_decision. Defined.

(** [Profile::ALL] and [Event::ALL], in declaration order. *)
Definition Profile_ALL : list Profile := [Pr_Fast; Pr_Balanced; Pr_Strict].
Definition Event_ALL : list Event :=
  [Ev_Admit; Ev_TransitVerified; Ev_DataFlushSucceeded; Ev_DataFlushFailed;
   Ev_JournalFlushSucceeded; Ev_JournalFlushFailed; Ev_AtRestVerified;
   Ev_AtRestVerificationFailed; Ev_NamespaceLinked; Ev_NamespaceLinkAmbiguous;
   Ev_NamespaceDurable; Ev_NamespaceFlushFailed; Ev_Crash; Ev_Recover; Ev_Abort].

(** The derived order of [Assurance]: declaration order. *)
Definition Assurance_ord (a : Assurance) : Z :=
  match a with
  | As_Admitted => 0 | As_TransitVerified => 1 | As_Durable => 2
  | As_AtRestVerified => 3 | As_Published => 4
  end.

Record Observation := mkObservation { level : Assurance; obs_sequence : Z }.

Record Transition := mkTransition {
  t_next : State;
  t_sequence : Z;
  t_recovery_state : option State;
  t_observation : option Assurance
}.

Record Machine := mkMachine {
  profile : Profile;
  state : State;
  current_incarnation : bool;
  recovery_state : option State;
  sequence : Z;
  performed : list Assurance
}.

#[export] Instance Machine_eq_dec : EqDecision Machine.
Proof. solve_decision. Defined.

(** ** Operations *)

Definition new (p : Profile) : Machine := mkMachine p St_New true None 0 [].

(** [Machine::performed]. *)
Definition has_performed (m : Machine) (a : Assurance) : bool :=
  bool_decide (a ∈ performed m).

Definition mark_stale (m : Machine) : Machine :=
  mkMachine (profile m) (state m) false (recovery_state m) (sequence m) (performed m).

Definition required_predecessor (p : Profile) : Assurance :=
  match p with
  | Pr_Fast => As_TransitVerified
  | Pr_Balanced => As_Durable
  | Pr_Strict => As_AtRestVerified
  end.

(** [Assurance::state]. *)
Definition assurance_state (a : Assurance) : State :=
  match a with
  | As_Admitted => St_Admitted
  | As_TransitVerified => St_TransitVerified
  | As_Durable => St_Durable
  | As_AtRestVerified => St_AtRestVerified
  | As_Published => St_Published
  end.

Definition can_publish_from (m : Machine) (s : State) : bool :=
  bool_decide (s = assurance_state (required_predecessor (profile m))).

Definition required_predecessor_performed (m : Machine) : bool :=
  has_performed m (required_predecessor (profile m)).

(** The [match (self.state, event)] of [Machine::plan]; [None] is its
    [InvalidTransition] arm. *)
Definition transition_arm (m : Machine) (ev : Event) : option (State * option Assurance) :=
  match state m, ev with
  | St_New, Ev_Admit => Some (St_Admitted, Some As_Admitted)
  | St_Admitted, Ev_TransitVerified => Some (St_TransitVerified, Some As_TransitVerified)
  | St_TransitVerified, Ev_DataFlushSucceeded => Some (St_DataFlushed, None)
  | St_DataFlushed, Ev_JournalFlushSucceeded => Some (St_Durable, Some As_Durable)
  | St_Durable, Ev_AtRestVerified => Some (St_AtRestVerified, Some As_AtRestVerified)
  | s, Ev_NamespaceLinked =>
      if can_publish_from m s then Some (St_NamespaceLinked, None) else None
  | St_NamespaceLinked, Ev_NamespaceDurable => Some (St_Published, Some As_Published)
  | (St_New | St_Admitted | St_TransitVerified | St_DataFlushed | St_Durable
    | St_AtRestVerified), Ev_Abort => Some (St_Aborted, None)
  | _, (Ev_DataFlushFailed | Ev_JournalFlushFailed | Ev_AtRestVerificationFailed) =>
      Some (St_Poisoned, None)
  | s, (Ev_NamespaceLinkAmbiguous | Ev_NamespaceFlushFailed | Ev_Crash) =>
      if bool_decide (s <> St_RecoveryRequired) then Some (St_RecoveryRequired, None) else None
  | _, _ => None
  end.

Definition is_terminal (s : State) : bool :=
  match s with St_Published | St_Poisoned | St_Aborted => true | _ => false end.

Definition plan (m : Machine) (ev : Event) : result Transition Error :=
  if negb (current_incarnation m) then Err Er_StaleIncarnation else
  if is_terminal (state m) then Err Er_Terminal else
  let? seq := ok_or (checked_add (sequence m) 1) Er_InvalidTransition in
  if bool_decide (ev = Ev_Recover) then
    if negb (bool_decide (state m = St_RecoveryRequired)) then Err Er_InvalidTransition else
    let? recovered := ok_or (recovery_state m) Er_InvalidTransition in
    Ok (mkTransition recovered seq None None)
  else
  let? (next, observation) := ok_or (transition_arm m ev) Er_InvalidTransition in
  if bool_decide (observation = Some As_Published) && negb (required_predecessor_performed m)
  then Err Er_MissingPredecessor else
  let recovery := if bool_decide (next = St_RecoveryRequired)
                  then Some (state m) else recovery_state m in
  Ok (mkTransition next seq recovery observation).

Definition commit (m : Machine) (t : Transition) : option Observation * Machine :=
  let pushed := match t_observation t with
                | Some lvl => performed m ++ [lvl]
                | None => performed m
                end in
  (match t_observation t with
   | Some lvl => Some (mkObservation lvl (t_sequence t))
   | None => None
   end,
   mkMachine (profile m) (t_next t) (current_incarnation m) (t_recovery_state t)
             (t_sequence t) pushed).

Definition apply (m : Machine) (ev : Event) : result (option Observation) Error * Machine :=
  match plan m ev with
  | Ok t => let '(obs, m') := commit m t in (Ok obs, m')
  | Err e => (Err e, m)
  end.

(** ** The conformance corpus *)

Record TransitionRow := mkRow {
  row_machine : Machine;
  row_event : Event;
  row_error : option Error;
  row_next_state : State;
  row_next_recovery_state : option State;
  row_observation : option Assurance;
  row_next_performed : list Assurance
}.

Definition Shape : Type := Profile * State * bool * option State * list Assurance.
Definition shape (m : Machine) : Shape :=
  (profile m, state m, current_incarnation m, recovery_state m, performed m).

Definition MAX_MACHINES : Z := 2048.

(** The walk's locals: the [seen] set, [found], and the next frontier. *)
Record Walk := mkWalk { seen : list Shape; found : list Machine; next : list Machine }.

(** The two inner loops of the walk, flattened to the (machine, event) pairs
    they visit; the boolean is [break 'walk]. *)
Fixpoint walk_pairs (pairs : list (Machine * Event)) (w : Walk) : bool * Walk :=
  match pairs with
  | [] => (false, w)
  | (machine, event) :: rest =>
      if MAX_MACHINES <=? zlen (found w) then (true, w) else
      match apply machine event with
      | (Err _, _) => walk_pairs rest w
      | (Ok _, candidate) =>
          if bool_decide (shape candidate ∈ seen w) then walk_pairs rest w
          else walk_pairs rest
                 (mkWalk (shape candidate :: seen w) (found w ++ [candidate])
                         (next w ++ [candidate]))
      end
  end.

Definition frontier_pairs (frontier : list Machine) : list (Machine * Event) :=
  m ← frontier; ev ← Event_ALL; mret (m, ev).

(** The outer loop, [Event::ALL.len()] rounds. *)
Fixpoint walk (rounds : nat) (frontier : list Machine) (w : Walk) : Walk :=
  match rounds with
  | O => w
  | S rounds' =>
      match walk_pairs (frontier_pairs frontier) (mkWalk (seen w) (found w) []) with
      | (true, w') => w'
      | (false, w') => walk rounds' (next w') w'
      end
  end.

Definition reachable_machines : list Machine :=
  let starts := map new Profile_ALL in
  let w := walk (length Event_ALL) starts (mkWalk (rev (map shape starts)) starts []) in
  found w ++ map mark_stale (found w).

(** [Vec::remove]. *)
Definition remove_at {A} (i : nat) (l : list A) : list A := take i l ++ drop (S i) l.

Definition weakened_of (m : Machine) : list Machine :=
  map (fun dropped => mkMachine (profile m) (state m) (current_incarnation m)
                        (recovery_state m) (sequence m) (remove_at dropped (performed m)))
      (seq 0 (length (performed m)))
  ++ if bool_decide (state m = St_RecoveryRequired) && bool_decide (is_Some (recovery_state m))
     then [mkMachine (profile m) (state m) (current_incarnation m) None (sequence m) (performed m)]
     else [].

Definition corpus_machines : list Machine :=
  reachable_machines ++ concat (map weakened_of reachable_machines).

Definition transition_row (m : Machine) (ev : Event) : TransitionRow :=
  let '(outcome, candidate) := apply m ev in
  mkRow m ev (match outcome with Err e => Some e | Ok _ => None end)
    (state candidate) (recovery_state candidate)
    (match outcome with Ok (Some o) => Some (level o) | _ => None end)
    (performed candidate).

Definition transition_corpus : list TransitionRow :=
  m ← corpus_machines; ev ← Event_ALL; mret (transition_row m ev).

(** The source's own test pins the corpus at 648 machines. *)
Example corpus_machines_len : length corpus_machines = 648%nat.
Proof. vm_compute. reflexivity. Qed.

(** ** Runs

    A run is any sequence of calls on one machine: events, accepted or
    refused, and [mark_stale].  It collects the observations the calls
    returned, oldest first. *)
Definition emitted (r : result (option Observation) Error) : list Observation :=
  match r with Ok (Some o) => [o] | _ => [] end.

Inductive run : Machine -> list Observation -> Machine -> Prop :=
| run_nil m : run m [] m
| run_apply m ev r m1 obs m2 :
    apply m ev = (r, m1) -> run m1 obs m2 -> run m (emitted r ++ obs) m2
| run_stale m obs m2 : run (mark_stale m) obs m2 -> run m obs m2.

(** What a machine standing in a state has performed.  [NamespaceLinked] is
    only entered from the state the profile requires, so its history is that
    state's. *)
Definition base_history (s : State) : list Assurance :=
  match s with
  | St_Admitted => [As_Admitted]
  | St_TransitVerified | St_DataFlushed => [As_Admitted; As_TransitVerified]
  | St_Durable => [As_Admitted; As_TransitVerified; As_Durable]
  | St_AtRestVerified => [As_Admitted; As_TransitVerified; As_Durable; As_AtRestVerified]
  | _ => []
  end.

Definition history (p : Profile) (s : State) : list Assurance :=
  match s with
  | St_NamespaceLinked => base_history (assurance_state (required_predecessor p))
  | St_Published => base_history (assurance_state (required_predecessor p)) ++ [As_Published]
  | _ => base_history s
  end.

Definition resumable (s : State) : bool :=
  negb (is_terminal s) && negb (bool_decide (s = St_RecoveryRequired)).

(** The invariant of every machine a run from [new] reaches. *)
Definition machine_inv (m : Machine) : Prop :=
  0 <= sequence m <= u64_max /\
  match state m with
  | St_Poisoned | St_Aborted =>
      exists s, resumable s = true /\ performed m = history (profile m) s
  | St_RecoveryRequired =>
      exists s, recovery_state m = Some s /\ resumable s = true /\
                performed m = history (profile m) s
  | s => recovery_state m = None /\ performed m = history (profile m) s
  end.

Lemma new_inv p : machine_inv (new p).
Proof. by split; [simpl; mlia|]. Qed.

Lemma mark_stale_inv m : machine_inv m -> machine_inv (mark_stale m).
Proof. done. Qed.

(** [plan] accepts only from a current, live machine and advances the sequence
    by exactly one. *)
Lemma plan_ok_inv m ev t :
  plan m ev = Ok t ->
  current_incarnation m = true /\ is_terminal (state m) = false /\
  t_sequence t = sequence m + 1 /\ sequence m + 1 <= u64_max /\
  ((ev = Ev_Recover /\ state m = St_RecoveryRequired /\ recovery_state m = Some (t_next t) /\
    t_recovery_state t = None /\ t_observation t = None) \/
   (ev <> Ev_Recover /\ transition_arm m ev = Some (t_next t, t_observation t) /\
    (t_observation t = Some As_Published -> required_predecessor_performed m = true) /\
    t_recovery_state t = if bool_decide (t_next t = St_RecoveryRequired)
                         then Some (state m) else recovery_state m)).
Proof.
  unfold plan, ok_or.
  destruct (current_incarnation m); simpl; [|done].
  destruct (is_terminal (state m)); [done|].
  destruct (checked_add (sequence m) 1) as [q|] eqn:Hq; [|done].
  apply checked_add_Some in Hq as [-> Hq].
  case_bool_decide as He.
  - case_bool_decide as Hs; simpl; [|done].
    destruct (recovery_state m) as [s|] eqn:Hr; [|done].
    intros [= <-]. simpl. split_and!; try done. left. done.
  - destruct (transition_arm m ev) as [[s o]|] eqn:Ha; [|done].
    destruct (bool_decide (o = Some As_Published) && negb (required_predecessor_performed m)) eqn:Hp;
      [done|].
    intros [= <-]. simpl. split_and!; try done. right. split_and!; try done.
    intros ->. rewrite bool_decide_eq_true_2 in Hp by done.
    by destruct (required_predecessor_performed m).
Qed.

Lemma apply_cases m ev r m' :
  apply m ev = (r, m') ->
  (exists e, r = Err e /\ m' = m /\ plan m ev = Err e) \/
  (exists t, plan m ev = Ok t /\ r = Ok (fst (commit m t)) /\ m' = snd (commit m t)).
Proof.
  unfold apply. destruct (plan m ev) as [t|e]; intros [= <- <-]; [right | left]; eauto.
Qed.

(** Closes [exists s, resumable s = true /\ l = history p s] for a literal [l]. *)
Ltac pick_state :=
  first [ by exists St_New | by exists St_Admitted | by exists St_TransitVerified
        | by exists St_Durable | by exists St_AtRestVerified | by exists St_NamespaceLinked ].

(** Every operation preserves the invariant. *)
Lemma apply_inv m ev r m' : machine_inv m -> apply m ev = (r, m') -> machine_inv m'.
Proof.
  intros Hm [(e & _ & -> & _)|(t & Hp & _ & ->)]%apply_cases; [done|].
  apply plan_ok_inv in Hp as (Hc & Ht & Hseq & Hmax & Hp).
  destruct m as [p s c rs q pf], t as [tn ts tr to]. simpl in *. subst ts.
  destruct Hm as [Hq Hm]. split; [simpl in *; lia|]. simpl in *.
  destruct Hp as [(-> & -> & -> & -> & ->) | (Hne & Ha & _ & ->)].
  - destruct Hm as (s' & [= <-] & Hres & ->). by destruct tn.
  - unfold transition_arm, can_publish_from in Ha; simpl in Ha.
    destruct s, ev; simplify_eq/=; try done;
      repeat case_bool_decide; simplify_eq/=;
      try (destruct Hm as [-> ->]); try (destruct Hm as (s' & -> & ? & ->));
      first [ by eauto | by destruct p | pick_state ].
Qed.

Lemma run_inv m obs m' : run m obs m' -> machine_inv m -> machine_inv m'.
Proof. induction 1; eauto using apply_inv, mark_stale_inv. Qed.

(** What one call does to the profile, the sequence and the performed list. *)
Lemma apply_effect m ev r m' :
  apply m ev = (r, m') ->
  profile m' = profile m /\
  performed m' = performed m ++ map level (emitted r) /\
  sequence m <= sequence m' /\
  Forall (fun o => obs_sequence o = sequence m') (emitted r) /\
  (emitted r <> [] -> sequence m < sequence m').
Proof.
  intros [(e & -> & -> & _)|(t & Hp & -> & ->)]%apply_cases.
  { simpl. rewrite app_nil_r. split_and!; first [done | lia | by destruct 1]. }
  apply plan_ok_inv in Hp as (_ & _ & Hseq & _ & _).
  destruct t as [tn ts tr [a|]]; simpl in *; subst ts;
    split_and!; first [done | lia | by rewrite app_nil_r | by repeat constructor | by destruct 1].
Qed.

Lemma run_performed m obs m' :
  run m obs m' -> profile m' = profile m /\ performed m' = performed m ++ map level obs.
Proof.
  induction 1 as [m|m ev r m1 obs m2 Ha _ IH|m obs m2 _ IH].
  - by rewrite app_nil_r.
  - apply apply_effect in Ha as (Hp & Hf & _). destruct IH as [-> ->].
    by rewrite Hp, Hf, map_app, app_assoc.
  - done.
Qed.

Lemma run_sequences m obs m' :
  run m obs m' ->
  Forall (fun o => sequence m < obs_sequence o) obs /\
  StronglySorted Z.lt (map obs_sequence obs).
Proof.
  induction 1 as [m|m ev r m1 obs m2 Ha _ IH|m obs m2 _ IH]; [split; constructor| |done].
  apply apply_effect in Ha as (_ & _ & Hle & Hall & Hlt). destruct IH as [IH1 IH2].
  destruct r as [[o|]|e]; simpl in *.
  - specialize (Hlt ltac:(done)). inversion_clear Hall as [|? ? Ho _].
    split.
    + constructor; [lia|]. eapply Forall_impl; [exact IH1|]. simpl. lia.
    + constructor; [done|]. apply Forall_fmap. eapply Forall_impl; [exact IH1|].
      simpl. unfold compose. lia.
  - split; [|done]. eapply Forall_impl; [exact IH1|]. simpl. lia.
  - split; [|done]. eapply Forall_impl; [exact IH1|]. simpl. lia.
Qed.

(** ** The walk is sound and exhaustive *)

Definition reached (m : Machine) : Prop := exists p obs, run (new p) obs m.

Lemma run_snoc_apply m obs m1 ev r m2 :
  run m obs m1 -> apply m1 ev = (r, m2) -> run m (obs ++ emitted r) m2.
Proof.
  induction 1 as [m|m ev' r' m1 obs m3 Ha _ IH|m obs m3 _ IH]; intros H.
  - simpl. rewrite <- (app_nil_r (emitted r)). eapply run_apply; [done | constructor].
  - rewrite <- app_assoc. eapply run_apply; eauto.
  - eapply run_stale; eauto.
Qed.

Lemma run_snoc_stale m obs m1 : run m obs m1 -> run m obs (mark_stale m1).
Proof. induction 1; eauto using run. Qed.

Lemma reached_new p : reached (new p).
Proof. exists p, []. constructor. Qed.

Lemma reached_apply m ev r m' : reached m -> apply m ev = (r, m') -> reached m'.
Proof. intros (p & obs & Hr) Ha. exists p, (obs ++ emitted r). eauto using run_snoc_apply. Qed.

Lemma reached_stale m : reached m -> reached (mark_stale m).
Proof. intros (p & obs & Hr). exists p, obs. by apply run_snoc_stale. Qed.

Lemma walk_pairs_sound pairs w b w' :
  Forall (fun x => reached x.1) pairs -> Forall reached (found w) -> Forall reached (next w) ->
  walk_pairs pairs w = (b, w') -> Forall reached (found w') /\ Forall reached (next w').
Proof.
  revert w. induction pairs as [|[m ev] pairs IH]; intros w Hps Hf Hn; simpl.
  - by intros [= <- <-].
  - inversion_clear Hps as [|? ? Hm Hps']. simpl in Hm.
    destruct (MAX_MACHINES <=? zlen (found w)); [by intros [= <- <-]|].
    destruct (apply m ev) as [[o|e] m1] eqn:Ha; [|by apply IH].
    assert (reached m1) by eauto using reached_apply.
    case_bool_decide; [by apply IH|].
    apply IH; simpl; try done; apply Forall_app; split; auto.
Qed.

Lemma frontier_pairs_sound frontier :
  Forall reached frontier -> Forall (fun x : Machine * Event => reached x.1) (frontier_pairs frontier).
Proof.
  intros Hf. apply Forall_forall. intros [m ev]. unfold frontier_pairs.
  rewrite list_elem_of_bind. intros (m' & Hin & Hm').
  apply list_elem_of_bind in Hin as (ev' & Hin & _).
  apply list_elem_of_ret in Hin as [= <- <-]. rewrite Forall_forall in Hf. by apply Hf.
Qed.

Lemma walk_sound rounds frontier w :
  Forall reached frontier -> Forall reached (found w) ->
  Forall reached (found (walk rounds frontier w)).
Proof.
  revert frontier w. induction rounds as [|rounds IH]; intros frontier w Hfr Hf; simpl; [done|].
  destruct (walk_pairs _ _) as [b w'] eqn:Hw.
  apply walk_pairs_sound in Hw as [Hf' Hn']; simpl; auto using frontier_pairs_sound.
  destruct b; [done|]. by apply IH.
Qed.

Lemma reachable_machines_sound m : m ∈ reachable_machines -> reached m.
Proof.
  unfold reachable_machines.
  assert (Hs : Forall reached (map new Profile_ALL)) by (repeat constructor; apply reached_new).
  set (w := walk _ _ _).
  assert (Hw : Forall reached (found w)) by (apply walk_sound; done).
  rewrite Forall_forall in Hw. rewrite elem_of_app. intros [Hin|Hin]; [by apply Hw|].
  apply list_elem_of_fmap in Hin as (m' & -> & Hin). by apply reached_stale, Hw.
Qed.

(** Acceptance and the resulting shape do not depend on the sequence number. *)
Lemma apply_shape m1 m2 ev o m1' :
  shape m1 = shape m2 -> sequence m2 < u64_max -> apply m1 ev = (Ok o, m1') ->
  exists o' m2', apply m2 ev = (Ok o', m2') /\ shape m1' = shape m2'.
Proof.
  destruct m1 as [p s c rs q1 pf], m2 as [p2 s2 c2 rs2 q2 pf2].
  intros [= <- <- <- <- <-] Hq. simpl in Hq.
  unfold apply. destruct (plan (mkMachine p s c rs q1 pf) ev) as [t|] eqn:Hp1; [|done].
  intros [= <- <-].
  assert (exists t2, plan (mkMachine p s c rs q2 pf) ev = Ok t2 /\ t_next t2 = t_next t /\
    t_recovery_state t2 = t_recovery_state t /\ t_observation t2 = t_observation t)
    as (t2 & -> & Hn & Hr & Ho).
  { revert Hp1. unfold plan, ok_or. simpl.
    destruct c; simpl; [|done]. destruct (is_terminal s); [done|].
    destruct (checked_add q1 1) as [q|]; [|done].
    destruct (checked_add q2 1) as [q'|] eqn:Hq2;
      [|rewrite checked_add_None in Hq2; lia].
    unfold transition_arm, can_publish_from, required_predecessor_performed, has_performed.
    simpl. repeat case_match; intros; simplify_eq; eauto. }
  eexists _, _. split; [done|]. unfold shape, commit. simpl. by rewrite Hn, Hr, Ho.
Qed.

Definition corpus_shapes : list Shape := map shape reachable_machines.

(** The closure check: from every machine found, every call stays inside. *)
Definition shapes_closed : bool :=
  forallb (fun m =>
    (sequence m <? u64_max) &&
    bool_decide (shape (mark_stale m) ∈ corpus_shapes) &&
    forallb (fun ev => bool_decide (shape (snd (apply m ev)) ∈ corpus_shapes)) Event_ALL)
  reachable_machines.

Lemma shapes_closed_true : shapes_closed = true.
Proof. vm_compute. reflexivity. Qed.

Lemma Event_ALL_complete ev : ev ∈ Event_ALL.
Proof. apply (bool_decide_unpack _). by destruct ev. Qed.

Lemma closed_at m :
  m ∈ reachable_machines ->
  sequence m < u64_max /\ shape (mark_stale m) ∈ corpus_shapes /\
  forall ev, shape (snd (apply m ev)) ∈ corpus_shapes.
Proof.
  intros Hm. pose proof shapes_closed_true as Hc. unfold shapes_closed in Hc.
  rewrite forallb_forall in Hc. specialize (Hc m). rewrite <- list_elem_of_In in Hc.
  specialize (Hc Hm). apply andb_true_iff in Hc as [[Hq Hs]%andb_true_iff He].
  apply Z.ltb_lt in Hq. apply bool_decide_eq_true in Hs. split_and!; [done|done|].
  intros ev. rewrite forallb_forall in He. specialize (He ev).
  rewrite <- list_elem_of_In in He. specialize (He (Event_ALL_complete ev)).
  by apply bool_decide_eq_true in He.
Qed.

Lemma run_shapes m obs m' : run m obs m' -> shape m ∈ corpus_shapes -> shape m' ∈ corpus_shapes.
Proof.
  induction 1 as [m|m ev r m1 obs m2 Ha _ IH|m obs m2 _ IH]; intros Hm; [done| |];
    apply IH; apply list_elem_of_fmap in Hm as (m0 & Hsh & Hm0);
    destruct (closed_at _ Hm0) as (Hq & Hs & He).
  - destruct r as [o|e].
    + destruct (apply_shape m m0 ev o m1 Hsh Hq Ha) as (o' & m0' & Ha' & ->).
      specialize (He ev). by rewrite Ha' in He.
    + apply apply_cases in Ha as [(e' & _ & -> & _)|(t & _ & [=] & _)].
      rewrite Hsh. apply list_elem_of_fmap. eauto.
  - replace (shape (mark_stale m)) with (shape (mark_stale m0)); [done|].
    unfold shape in *. simpl. congruence.
Qed.

(** ** Properties *)

(** C35: publication always stands on the assurance its profile requires.  In
    every machine any sequence of calls reaches from [Machine::new], the
    performed list of a [Published] machine is exactly the chain up to the
    profile's required predecessor followed by [Published]; in particular the
    required predecessor was performed, whatever crashes, recoveries, aborts
    and refused events lie in between. *)
Theorem published_has_required_predecessor p obs m :
  run (new p) obs m -> state m = St_Published ->
  performed m = history p St_Published /\ required_predecessor p ∈ performed m.
Proof.
  intros Hr Hs. pose proof (run_inv _ _ _ Hr (new_inv p)) as [_ Hinv].
  apply run_performed in Hr as [Hp _]. simpl in Hp.
  rewrite Hs, Hp in Hinv. destruct Hinv as [_ ->]. split; [done|].
  apply (bool_decide_unpack _). by destruct p.
Qed.

Definition strict_publication : list Event :=
  [Ev_Admit; Ev_TransitVerified; Ev_Crash; Ev_Recover; Ev_DataFlushSucceeded;
   Ev_JournalFlushSucceeded; Ev_AtRestVerified; Ev_NamespaceLinked; Ev_NamespaceDurable].

(** Applies a list of events, collecting observations. *)
Fixpoint apply_all (m : Machine) (evs : list Event) : list Observation * Machine :=
  match evs with
  | [] => ([], m)
  | ev :: evs' => let '(r, m1) := apply m ev in
                  let '(obs, m2) := apply_all m1 evs' in (emitted r ++ obs, m2)
  end.

Lemma apply_all_run evs m : run m (fst (apply_all m evs)) (snd (apply_all m evs)).
Proof.
  revert m. induction evs as [|ev evs IH]; intros m; simpl; [constructor|].
  destruct (apply m ev) as [r m1] eqn:Ha. specialize (IH m1).
  destruct (apply_all m1 evs) as [obs m2]. simpl in *. eauto using run.
Qed.

Lemma published_has_required_predecessor_witness :
  exists obs m, run (new Pr_Strict) obs m /\ state m = St_Published /\
    performed m = history Pr_Strict St_Published /\ As_AtRestVerified ∈ performed m.
Proof.
  exists (fst (apply_all (new Pr_Strict) strict_publication)),
         (snd (apply_all (new Pr_Strict) strict_publication)).
  split; [apply apply_all_run|]. split; [reflexivity|].
  apply (published_has_required_predecessor Pr_Strict
           (fst (apply_all (new Pr_Strict) strict_publication)));
    [apply apply_all_run | reflexivity].
Defined.

(** assurance observations are monotonic.  Along any sequence of calls
    from [Machine::new], the observations returned are exactly the performed
    list in order, their levels strictly increase in the order of
    [Assurance], and their sequence numbers strictly increase: no level is
    reported twice and none moves backward, across crashes included. *)
Theorem observations_monotonic p obs m :
  run (new p) obs m ->
  map level obs = performed m /\
  StronglySorted Z.lt (map Assurance_ord (map level obs)) /\
  StronglySorted Z.lt (map obs_sequence obs).
Proof.
  intros Hr. pose proof (run_inv _ _ _ Hr (new_inv p)) as [_ Hinv].
  pose proof (run_sequences _ _ _ Hr) as [_ Hseq].
  apply run_performed in Hr as [Hp Hperf]. simpl in Hperf.
  split_and!; [done| |done]. rewrite <- Hperf.
  assert (exists s, performed m = history p s) as [s ->].
  { rewrite Hp in Hinv. change (profile (new p)) with p in Hinv. destruct (state m);
      first [ destruct Hinv as (? & ? & ? & ?); by eauto | destruct Hinv as (? & ? & ?); by eauto
            | destruct Hinv as (? & ?); by eauto ]. }
  destruct s, p; simpl; repeat constructor; lia.
Qed.

Lemma observations_monotonic_witness :
  exists obs m, run (new Pr_Strict) obs m /\
    map level obs = [As_Admitted; As_TransitVerified; As_Durable; As_AtRestVerified; As_Published] /\
    StronglySorted Z.lt (map obs_sequence obs).
Proof.
  exists (fst (apply_all (new Pr_Strict) strict_publication)),
         (snd (apply_all (new Pr_Strict) strict_publication)).
  pose proof (observations_monotonic Pr_Strict
    (fst (apply_all (new Pr_Strict) strict_publication))
    (snd (apply_all (new Pr_Strict) strict_publication)) (apply_all_run _ _)) as (_ & _ & H).
  split_and!; [apply apply_all_run | reflexivity | exact H].
Defined.

(** the conformance walk is exact.  [reachable_machines] lists, up to the
    sequence number, precisely the machines reachable by calls from
    [Machine::new] under the three profiles, so the corpus a second
    implementation is checked against misses no reachable machine and its
    bounds (15 rounds, 2048 machines) cut nothing off. *)
Theorem reachable_machines_exact sh :
  sh ∈ map shape reachable_machines <-> exists p obs m, run (new p) obs m /\ shape m = sh.
Proof.
  split.
  - intros (m & -> & Hm)%list_elem_of_fmap. destruct (reachable_machines_sound m Hm) as (p & obs & Hr).
    eauto.
  - intros (p & obs & m & Hr & <-). apply (run_shapes _ _ _ Hr).
    apply (bool_decide_unpack _). by destruct p; vm_compute.
Qed.

(** terminal outcomes are absorbing and failures poison.  A failed flush or
    failed at-rest verification accepted by any live current machine leaves it
    [Poisoned]; and from a terminal machine every further sequence of calls
    keeps the state and emits nothing. *)
Theorem failures_poison_forever m ev r m1 obs m2 :
  ev ∈ [Ev_DataFlushFailed; Ev_JournalFlushFailed; Ev_AtRestVerificationFailed] ->
  apply m ev = (r, m1) -> is_ok r = true -> run m1 obs m2 ->
  state m1 = St_Poisoned /\ state m2 = St_Poisoned /\ obs = [].
Proof.
  intros Hev Ha Hok Hr.
  assert (H1 : state m1 = St_Poisoned).
  { apply apply_cases in Ha as [(e & -> & _)|(t & Hp & _ & ->)]; [done|].
    apply plan_ok_inv in Hp as (_ & Ht & _ & _ & [(-> & _)|(_ & Harm & _)]).
    { set_solver. }
    simpl. unfold transition_arm in Harm.
    repeat (apply elem_of_cons in Hev as [-> | Hev]); [..|set_solver];
      destruct (state m); simplify_eq/=; done. }
  split; [done|]. clear Ha Hok. revert H1.
  induction Hr as [m'|m' ev' r' m3 obs m4 Ha _ IH|m' obs m4 _ IH]; intros H1; [done| |auto].
  apply apply_cases in Ha as [(e & -> & -> & _)|(t & Hp & _)]; [by apply IH|].
  apply plan_ok_inv in Hp as (_ & Ht & _). by rewrite H1 in Ht.
Qed.

Lemma failures_poison_forever_witness :
  let m := snd (apply_all (new Pr_Fast) [Ev_Admit; Ev_TransitVerified]) in
  let m1 := snd (apply m Ev_DataFlushFailed) in
  state m1 = St_Poisoned /\
  state (snd (apply_all m1 [Ev_DataFlushSucceeded; Ev_Recover])) = St_Poisoned /\
  fst (apply_all m1 [Ev_DataFlushSucceeded; Ev_Recover]) = [].
Proof.
  intros m m1.
  refine (failures_poison_forever m Ev_DataFlushFailed (fst (apply m Ev_DataFlushFailed)) m1
            (fst (apply_all m1 [Ev_DataFlushSucceeded; Ev_Recover]))
            (snd (apply_all m1 [Ev_DataFlushSucceeded; Ev_Recover])) _ _ _ _);
    [apply (bool_decide_unpack _); reflexivity | reflexivity | reflexivity | apply apply_all_run].
Defined.

(** a crash loses nothing the machine performed.  From any reachable live
    machine (with sequence room), [Crash] is accepted without an observation,
    every event but the failure events and [Recover] is then refused without
    effect, and [Recover] returns to the same state with the same performed
    list and no saved recovery state. *)
Theorem crash_then_recover p obs m :
  run (new p) obs m -> current_incarnation m = true -> resumable (state m) = true ->
  sequence m + 2 <= u64_max ->
  exists m1 m2,
    apply m Ev_Crash = (Ok None, m1) /\ state m1 = St_RecoveryRequired /\
    (forall ev, ev ∉ [Ev_DataFlushFailed; Ev_JournalFlushFailed; Ev_AtRestVerificationFailed;
                      Ev_Recover] ->
                apply m1 ev = (Err Er_InvalidTransition, m1)) /\
    apply m1 Ev_Recover = (Ok None, m2) /\
    m2 = mkMachine (profile m) (state m) true None (sequence m + 2) (performed m).
Proof.
  intros Hr Hc Hs Hq. pose proof (run_inv _ _ _ Hr (new_inv p)) as [Hseq Hinv]. clear Hr.
  destruct m as [pr s c rs q pf]. simpl in *. subst c.
  assert (Hca : forall a, 0 <= a -> a + 1 <= u64_max -> checked_add a 1 = Some (a + 1)).
  { intros a ? ?. by apply checked_add_Some. }
  exists (mkMachine pr St_RecoveryRequired true (Some s) (q + 1) pf),
         (mkMachine pr s true None (q + 2) pf).
  split_and!; try done.
  - unfold apply, plan, ok_or. simpl. rewrite Hca by lia.
    by destruct s.
  - intros ev Hev. unfold apply, plan, ok_or. simpl. rewrite Hca by lia.
    destruct ev; simpl; try (exfalso; set_solver); try done; by destruct pr.
  - unfold apply, plan, ok_or. simpl. rewrite Hca by lia. simpl.
    unfold commit. simpl. by replace (q + 1 + 1) with (q + 2) by lia.
Qed.

Lemma crash_then_recover_witness :
  let m := snd (apply_all (new Pr_Balanced) [Ev_Admit; Ev_TransitVerified]) in
  exists m1 m2, apply m Ev_Crash = (Ok None, m1) /\ apply m1 Ev_Recover = (Ok None, m2) /\
    state m2 = St_TransitVerified /\ sequence m2 = 4.
Proof.
  intros m.
  destruct (crash_then_recover Pr_Balanced
              (fst (apply_all (new Pr_Balanced) [Ev_Admit; Ev_TransitVerified])) m
              (apply_all_run _ _) eq_refl eq_refl)
    as (m1 & m2 & H1 & _ & _ & H2 & H3); [vm_compute; discriminate|].
  exists m1, m2. split_and!; [exact H1 | exact H2 | rewrite H3; reflexivity | rewrite H3; reflexivity].
Defined.
