(* ===== verification/BTree.v ===== *)
(** * [BTreeMap] and [BTreeSet] with integer keys

    The ordered collections of the Rust standard library the sources use,
    as strictly sorted lists: iteration order is list order, and
    [map.range(..k).next_back()] and friends are the last and first entries
    of a filtered list. *)

From S2P Require Import Prelude.

(** ** Ordered sets *)

Section btree_set.
Implicit Types (x y : Z) (s : list Z).

Definition set_sorted (s : list Z) : Prop := StronglySorted Z.lt s.

Definition set_contains (x : Z) (s : list Z) : bool := bool_decide (x ∈ s).

(** [BTreeSet::insert]; whether the element was new is
    [negb (set_contains x s)]. *)
Fixpoint set_insert (x : Z) (s : list Z) : list Z :=
  match s with
  | [] => [x]
  | y :: t => if x <? y then x :: s else if x =? y then s else y :: set_insert x t
  end.

Definition set_remove (x : Z) (s : list Z) : list Z :=
  filter (fun y => negb (y =? x) = true) s.

Lemma elem_of_set_insert x y s : y ∈ set_insert x s <-> y = x \/ y ∈ s.
Proof.
  induction s as [|z s IH]; simpl; [set_solver|].
  destruct (Z.ltb_spec x z); [set_solver|].
  destruct (Z.eqb_spec x z) as [->|]; set_solver.
Qed.

Lemma set_insert_sorted x s : set_sorted s -> set_sorted (set_insert x s).
Proof.
  unfold set_sorted. induction s as [|z s IH]; simpl; intros Hs; [by repeat constructor|].
  apply StronglySorted_inv in Hs as [Hs Hz].
  destruct (Z.ltb_spec x z).
  { constructor; [by constructor|]. constructor; [done|].
    eapply Forall_impl; [exact Hz|]. simpl. lia. }
  destruct (Z.eqb_spec x z) as [->|]; [by constructor|].
  constructor; [by apply IH|]. apply Forall_forall. intros y Hy.
  apply elem_of_set_insert in Hy as [-> | Hy]; [lia|]. rewrite Forall_forall in Hz. auto.
Qed.

Lemma length_set_insert_new x s : x ∉ s -> length (set_insert x s) = S (length s).
Proof.
  induction s as [|z s IH]; simpl; intros Hx; [done|].
  destruct (Z.ltb_spec x z); [done|].
  destruct (Z.eqb_spec x z) as [->|]; [set_solver|]. simpl. f_equal. apply IH. set_solver.
Qed.

Lemma set_insert_old x s : set_sorted s -> x ∈ s -> set_insert x s = s.
Proof.
  unfold set_sorted. induction s as [|z s IH]; simpl; intros Hs Hx; [set_solver|].
  apply StronglySorted_inv in Hs as [Hs Hz].
  destruct (Z.eqb_spec x z) as [->|].
  { by destruct (Z.ltb_spec z z); [lia|]. }
  assert (x ∈ s) as Hx' by set_solver. rewrite Forall_forall in Hz. specialize (Hz _ Hx').
  destruct (Z.ltb_spec x z); [lia|]. f_equal. by apply IH.
Qed.

Lemma elem_of_set_remove x y s : y ∈ set_remove x s <-> y <> x /\ y ∈ s.
Proof.
  unfold set_remove. rewrite list_elem_of_filter, negb_true_iff, Z.eqb_neq. done.
Qed.

Lemma set_remove_sorted x s : set_sorted s -> set_sorted (set_remove x s).
Proof. apply StronglySorted_filter. Qed.

Lemma set_sorted_NoDup s : set_sorted s -> NoDup s.
Proof.
  induction 1 as [|x l Hl IH Hx]; constructor; [|done].
  intros Hin. rewrite Forall_forall in Hx. specialize (Hx _ Hin). lia.
Qed.

(** Sorted lists with the same elements are equal. *)
Lemma set_sorted_ext s1 s2 :
  set_sorted s1 -> set_sorted s2 -> (forall x, x ∈ s1 <-> x ∈ s2) -> s1 = s2.
Proof.
  unfold set_sorted. revert s2. induction s1 as [|x s1 IH]; intros [|y s2] H1 H2 Hext.
  - done.
  - exfalso. specialize (Hext y). set_solver.
  - exfalso. specialize (Hext x). set_solver.
  - apply StronglySorted_inv in H1 as [H1 Hx]. apply StronglySorted_inv in H2 as [H2 Hy].
    rewrite Forall_forall in Hx. rewrite Forall_forall in Hy.
    assert (x = y) as ->.
    { pose proof (proj1 (Hext x) ltac:(set_solver)) as [->|Ha]%elem_of_cons; [done|].
      pose proof (proj2 (Hext y) ltac:(set_solver)) as [->|Hb]%elem_of_cons; [done|].
      specialize (Hy _ Ha). specialize (Hx _ Hb). lia. }
    f_equal. apply IH; try done. intros z. split; intros Hz.
    + assert (z ∈ y :: s2) as [->|?]%elem_of_cons by (apply Hext; set_solver); [|done].
      specialize (Hx _ Hz). lia.
    + assert (z ∈ y :: s1) as [->|?]%elem_of_cons by (apply Hext; set_solver); [|done].
      specialize (Hy _ Hz). lia.
Qed.
End btree_set.

(** ** Ordered maps *)

Section btree_map.
Context {V : Type}.
Implicit Types (k : Z) (v : V) (m : list (Z * V)).

Definition map_sorted (m : list (Z * V)) : Prop := StronglySorted (fun a b => a.1 < b.1) m.

Fixpoint map_get (k : Z) (m : list (Z * V)) : option V :=
  match m with
  | [] => None
  | (j, v) :: t => if k =? j then Some v else map_get k t
  end.

Fixpoint map_insert (k : Z) (v : V) (m : list (Z * V)) : list (Z * V) :=
  match m with
  | [] => [(k, v)]
  | (j, w) :: t =>
      if k <? j then (k, v) :: m else if k =? j then (k, v) :: t else (j, w) :: map_insert k v t
  end.

Definition map_remove (k : Z) (m : list (Z * V)) : list (Z * V) :=
  filter (fun e => negb (e.1 =? k) = true) m.

(** [range(..=k)], [range(..k)] and [range(k..)]. *)
Definition range_to_inclusive (k : Z) (m : list (Z * V)) : list (Z * V) :=
  filter (fun e => (e.1 <=? k) = true) m.
Definition range_to (k : Z) (m : list (Z * V)) : list (Z * V) :=
  filter (fun e => (e.1 <? k) = true) m.
Definition range_from (k : Z) (m : list (Z * V)) : list (Z * V) :=
  filter (fun e => (k <=? e.1) = true) m.

Lemma elem_of_range_to_inclusive k m e :
  e ∈ range_to_inclusive k m <-> e.1 <= k /\ e ∈ m.
Proof. unfold range_to_inclusive. rewrite list_elem_of_filter, Z.leb_le. done. Qed.
Lemma elem_of_range_to k m e : e ∈ range_to k m <-> e.1 < k /\ e ∈ m.
Proof. unfold range_to. rewrite list_elem_of_filter, Z.ltb_lt. done. Qed.
Lemma elem_of_range_from k m e : e ∈ range_from k m <-> k <= e.1 /\ e ∈ m.
Proof. unfold range_from. rewrite list_elem_of_filter, Z.leb_le. done. Qed.

Lemma elem_of_map_remove k m e : e ∈ map_remove k m <-> e.1 <> k /\ e ∈ m.
Proof. unfold map_remove. rewrite list_elem_of_filter, negb_true_iff, Z.eqb_neq. done. Qed.

Lemma map_remove_sorted k m : map_sorted m -> map_sorted (map_remove k m).
Proof. apply StronglySorted_filter. Qed.

Lemma map_sorted_cons k v m :
  map_sorted ((k, v) :: m) <-> map_sorted m /\ forall e, e ∈ m -> k < e.1.
Proof.
  unfold map_sorted. split.
  - intros [Hs Hf]%StronglySorted_inv. split; [done|]. rewrite Forall_forall in Hf. auto.
  - intros [Hs Hf]. constructor; [done|]. apply Forall_forall. auto.
Qed.

Lemma map_get_Some k v m : map_sorted m -> map_get k m = Some v <-> (k, v) ∈ m.
Proof.
  induction m as [|[j w] m IH]; simpl; intros Hs; [set_solver|].
  apply map_sorted_cons in Hs as [Hs Hlt]. rewrite elem_of_cons.
  destruct (Z.eqb_spec k j) as [->|Hne].
  - split; [intros [= ->]; by left|]. intros [[= ->]|Hin]; [done|].
    specialize (Hlt _ Hin). simpl in Hlt. lia.
  - rewrite (IH Hs). split; [by right|]. by intros [[= -> ->]|].
Qed.

Lemma map_sorted_key_inj m k v w : map_sorted m -> (k, v) ∈ m -> (k, w) ∈ m -> v = w.
Proof. intros Hs Hv Hw. apply map_get_Some in Hv, Hw; try done. congruence. Qed.

Lemma map_get_None k m : map_get k m = None <-> forall e, e ∈ m -> e.1 <> k.
Proof.
  induction m as [|[j w] m IH]; simpl; [set_solver|].
  destruct (Z.eqb_spec k j) as [->|Hne].
  - split; [done|]. intros H. by specialize (H (j, w) ltac:(set_solver)).
  - rewrite IH. set_solver.
Qed.

Lemma elem_of_map_insert k v m e :
  map_sorted m -> e ∈ map_insert k v m <-> e = (k, v) \/ (e.1 <> k /\ e ∈ m).
Proof.
  induction m as [|[j w] m IH]; simpl; intros Hs; [set_solver|].
  apply map_sorted_cons in Hs as [Hs Hlt].
  destruct (Z.ltb_spec k j); [|destruct (Z.eqb_spec k j) as [->|]].
  - rewrite !elem_of_cons. split; [|naive_solver]. intros [->|[->|Hin]]; [by left|right; simpl; split; [lia|by left]|].
    right. specialize (Hlt _ Hin). split; [lia|by right].
  - rewrite !elem_of_cons. split.
    + intros [->|Hin]; [by left|]. right. specialize (Hlt _ Hin). split; [lia|by right].
    + intros [->|[Hne [->|Hin]]]; [by left|done|by right].
  - rewrite !elem_of_cons, (IH Hs). split.
    + intros [->|[->|[? ?]]]; [right; simpl; split; [lia|by left]|by left|right; split; [done|by right]].
    + intros [->|[Hne [->|Hin]]]; [right; by left|by left|right; right; done].
Qed.

Lemma map_insert_sorted k v m : map_sorted m -> map_sorted (map_insert k v m).
Proof.
  induction m as [|[j w] m IH]; simpl; intros Hs.
  { apply map_sorted_cons. split; [constructor | set_solver]. }
  pose proof Hs as [Hs' Hlt]%map_sorted_cons.
  destruct (Z.ltb_spec k j); [|destruct (Z.eqb_spec k j) as [->|]].
  - apply map_sorted_cons. split; [done|]. intros e [->|Hin]%elem_of_cons; simpl; [lia|].
    specialize (Hlt _ Hin). lia.
  - by apply map_sorted_cons.
  - apply map_sorted_cons. split; [by apply IH|].
    intros e [->|[_ Hin]]%elem_of_map_insert; simpl; auto; lia.
Qed.

Lemma length_map_insert_new k v m :
  (forall e, e ∈ m -> e.1 <> k) -> length (map_insert k v m) = S (length m).
Proof.
  induction m as [|[j w] m IH]; simpl; intros Hk; [done|].
  destruct (Z.ltb_spec k j); [done|].
  destruct (Z.eqb_spec k j) as [->|]; [by specialize (Hk (j, w) ltac:(set_solver))|].
  simpl. f_equal. apply IH. intros e He. apply Hk. set_solver.
Qed.

Lemma map_remove_absent k m : (forall e, e ∈ m -> e.1 <> k) -> map_remove k m = m.
Proof.
  unfold map_remove. induction m as [|e m IH]; intros Hk; [done|].
  rewrite filter_cons, decide_True, IH; [done|set_solver|].
  rewrite negb_true_iff, Z.eqb_neq. apply Hk. set_solver.
Qed.

Lemma length_map_remove k v m :
  map_sorted m -> (k, v) ∈ m -> S (length (map_remove k m)) = length m.
Proof.
  induction m as [|[j w] m IH]; intros Hs Hin; [set_solver|].
  apply map_sorted_cons in Hs as [Hs Hlt]. unfold map_remove in *.
  rewrite filter_cons. cbn [fst]. destruct (Z.eqb_spec j k) as [->|Hne].
  - rewrite decide_False by done. simpl. do 2 f_equal. apply (map_remove_absent k m).
    intros e He. specialize (Hlt _ He). lia.
  - rewrite decide_True by done. simpl. f_equal. apply IH; [done|].
    apply elem_of_cons in Hin as [[= -> ->]|]; done.
Qed.

(** [range(..).next_back()] and [range(..).next()] on a sorted map. *)
Lemma last_map_Some m e :
  map_sorted m -> last m = Some e -> e ∈ m /\ forall e', e' ∈ m -> e' = e \/ e'.1 < e.1.
Proof.
  intros Hs Hl. split.
  - apply last_Some in Hl as [l ->]. set_solver.
  - intros e' He'. by apply (StronglySorted_last _ _ _ Hs Hl).
Qed.

Lemma head_map_Some m e :
  map_sorted m -> head m = Some e -> e ∈ m /\ forall e', e' ∈ m -> e' = e \/ e.1 < e'.1.
Proof.
  destruct m as [|x m]; simpl; [done|]. intros Hs [= ->]. split; [set_solver|].
  apply StronglySorted_inv in Hs as [_ Hf]. rewrite Forall_forall in Hf.
  intros e' [->|Hin]%elem_of_cons; auto.
Qed.

Lemma range_to_inclusive_sorted k m : map_sorted m -> map_sorted (range_to_inclusive k m).
Proof. apply StronglySorted_filter. Qed.
Lemma range_to_sorted k m : map_sorted m -> map_sorted (range_to k m).
Proof. apply StronglySorted_filter. Qed.
Lemma range_from_sorted k m : map_sorted m -> map_sorted (range_from k m).
Proof. apply StronglySorted_filter. Qed.

(** A removed key and a fresh key, as permutations: every sum or count over a
    map changes by exactly that entry. *)
Lemma map_remove_perm k v m : map_sorted m -> (k, v) ∈ m -> m ≡ₚ (k, v) :: map_remove k m.
Proof.
  induction m as [|[j w] m IH]; intros Hs Hin; [set_solver|].
  apply map_sorted_cons in Hs as [Hs Hlt]. unfold map_remove in *.
  rewrite filter_cons. cbn [fst]. destruct (Z.eqb_spec j k) as [->|Hne].
  - rewrite decide_False by done. apply elem_of_cons in Hin as [[= ->]|Hin].
    + fold (map_remove k m). rewrite (map_remove_absent k m); [done|].
      intros e He. specialize (Hlt _ He). lia.
    + specialize (Hlt _ Hin). simpl in Hlt. lia.
  - rewrite decide_True by done. apply elem_of_cons in Hin as [[= -> ->]|Hin]; [done|].
    rewrite (IH Hs Hin) at 1. apply Permutation_swap.
Qed.

Lemma map_insert_perm k v m : (forall e, e ∈ m -> e.1 <> k) -> map_insert k v m ≡ₚ (k, v) :: m.
Proof.
  induction m as [|[j w] m IH]; simpl; intros Hk; [done|].
  destruct (Z.ltb_spec k j); [done|].
  destruct (Z.eqb_spec k j) as [->|]; [by specialize (Hk (j, w) ltac:(set_solver))|].
  rewrite IH by (intros e He; apply Hk; set_solver). apply Permutation_swap.
Qed.

Lemma map_get_insert k v j m : map_get j (map_insert k v m) = if j =? k then Some v else map_get j m.
Proof.
  induction m as [|[i w] m IH]; simpl.
  - done.
  - destruct (Z.ltb_spec k i); [done|]. destruct (Z.eqb_spec k i) as [->|Hne]; simpl.
    + by destruct (Z.eqb_spec j i).
    + rewrite IH. destruct (Z.eqb_spec j i) as [->|]; [|done]. by destruct (Z.eqb_spec i k).
Qed.

Lemma map_get_remove k j m : map_get j (map_remove k m) = if j =? k then None else map_get j m.
Proof.
  unfold map_remove. induction m as [|[i w] m IH]; simpl; [by destruct (j =? k)|].
  rewrite filter_cons. cbn [fst]. destruct (Z.eqb_spec i k) as [->|Hne].
  - rewrite decide_False by done. rewrite IH. by destruct (Z.eqb_spec j k).
  - rewrite decide_True by done. simpl. rewrite IH.
    destruct (Z.eqb_spec j i) as [->|]; [|done]. by destruct (Z.eqb_spec i k).
Qed.

(** Replacing an entry, as a permutation. *)
Lemma map_insert_replace_perm k v m :
  map_sorted m -> map_insert k v m ≡ₚ (k, v) :: map_remove k m.
Proof.
  induction m as [|[j w] m IH]; simpl; intros Hs; [done|].
  pose proof Hs as [Hs' Hlt]%map_sorted_cons. unfold map_remove in *.
  destruct (Z.ltb_spec k j).
  - fold (map_remove k ((j, w) :: m)). rewrite map_remove_absent; [done|].
    intros e [->|He]%elem_of_cons; simpl; [lia|]. specialize (Hlt _ He). lia.
  - rewrite filter_cons. cbn [fst]. destruct (Z.eqb_spec k j) as [->|Hne].
    + rewrite decide_False by (by rewrite Z.eqb_refl). fold (map_remove j m).
      rewrite map_remove_absent; [done|]. intros e He. specialize (Hlt _ He). lia.
    + rewrite decide_True by (by rewrite (proj2 (Z.eqb_neq j k)) by lia).
      rewrite IH by done. apply Permutation_swap.
Qed.

(** The sum of a weight over the values of a map. *)
Definition map_total (f : V -> Z) (m : list (Z * V)) : Z := foldr (fun e acc => f e.2 + acc) 0 m.

Lemma map_total_perm f m m' : m ≡ₚ m' -> map_total f m = map_total f m'.
Proof. unfold map_total. induction 1; simpl; lia. Qed.

Lemma map_total_remove f k v m :
  map_sorted m -> map_get k m = Some v -> map_total f (map_remove k m) = map_total f m - f v.
Proof.
  intros Hs Hk. rewrite (map_get_Some _ _ _ Hs) in Hk.
  rewrite (map_total_perm f m _ (map_remove_perm k v m Hs Hk)). simpl. lia.
Qed.

Lemma map_total_insert_new f k v m :
  map_get k m = None -> map_total f (map_insert k v m) = map_total f m + f v.
Proof.
  intros Hk. rewrite map_get_None in Hk. rewrite (map_total_perm f _ _ (map_insert_perm k v m Hk)). simpl. lia.
Qed.

Lemma map_total_insert_old f k v w m :
  map_sorted m -> map_get k m = Some w -> map_total f (map_insert k v m) = map_total f m - f w + f v.
Proof.
  intros Hs Hk. rewrite (map_total_perm f _ _ (map_insert_replace_perm k v m Hs)). simpl.
  pose proof (map_total_remove f k w m Hs Hk) as H. unfold map_total in *. lia.
Qed.

Lemma map_total_nonneg f m : (forall e, e ∈ m -> 0 <= f e.2) -> 0 <= map_total f m.
Proof.
  unfold map_total. induction m as [|e m IH]; simpl; intros Hf; [lia|].
  pose proof (Hf e ltac:(set_solver)). pose proof (IH ltac:(set_solver)). lia.
Qed.

Lemma map_total_get f k v m :
  map_sorted m -> (forall e, e ∈ m -> 0 <= f e.2) -> map_get k m = Some v -> f v <= map_total f m.
Proof.
  intros Hs Hf Hk. pose proof (map_total_remove f k v m Hs Hk) as Hr.
  pose proof (map_total_nonneg f (map_remove k m)) as Hn. rewrite Hr in Hn.
  assert (0 <= map_total f m - f v); [|lia]. apply Hn. intros e [_ He]%elem_of_map_remove. by apply Hf.
Qed.

Lemma map_total_le f h m : (forall e, e ∈ m -> f e.2 <= h e.2) -> map_total f m <= map_total h m.
Proof.
  unfold map_total. induction m as [|e m IH]; simpl; intros Hf; [lia|].
  pose proof (Hf e ltac:(set_solver)). pose proof (IH ltac:(set_solver)). lia.
Qed.

Lemma zlen_map_insert k v m : map_sorted m -> zlen (map_insert k v m) = zlen (map_remove k m) + 1.
Proof.
  intros Hs. pose proof (Permutation_length (map_insert_replace_perm k v m Hs)) as H. unfold zlen.
  rewrite H. simpl. lia.
Qed.

Lemma zlen_map_remove k m :
  map_sorted m -> zlen (map_remove k m) = zlen m - (match map_get k m with Some _ => 1 | None => 0 end).
Proof.
  intros Hs. destruct (map_get k m) as [v|] eqn:Hk.
  - rewrite (map_get_Some _ _ _ Hs) in Hk. pose proof (Permutation_length (map_remove_perm k v m Hs Hk)) as H.
    unfold zlen. rewrite H. simpl. lia.
  - rewrite map_get_None in Hk. rewrite map_remove_absent by done. lia.
Qed.
End btree_map.
