(* ===== verification/Cbor.v ===== *)
(** * Deterministic CBOR ([crates/vot-cbor/src/lib.rs])

    The writer functions append one item to an output vector; the [Reader]
    methods consume one item from a borrowed input.  Methods on [&mut self]
    are [M Reader Error] computations, so the offset an error leaves behind is
    the offset the Rust value would have.  [core::str::from_utf8] is modelled
    by [utf8_valid], the well-formedness table of Unicode. *)

From S2P Require Import Prelude.

Inductive Error :=
| Truncated | Malformed | NonCanonical | WrongType | TooLarge | Trailing | NotUtf8.

#[export] Instance Error_eq_dec : EqDecision Error.
Proof. solve_decision. Defined.

(** ** Major types *)

Definition UNSIGNED : Z := 0.
Definition NEGATIVE : Z := 1.
Definition BYTES : Z := 2.
Definition TEXT : Z := 3.
Definition ARRAY : Z := 4.
Definition MAP : Z := 5.
Definition SIMPLE : Z := 7.
Definition NULL : Z := 246.

(** ** Writer *)

(** [uN::try_from(value).unwrap_or(0)] for a maximum of [max]. *)
Definition try_from_or_0 (max value : Z) : Z := if value <=? max then value else 0.

Definition head_len (value : Z) : Z :=
  if value <=? 23 then 1 else
  if value <=? 255 then 2 else
  if value <=? 65535 then 3 else
  if value <=? 4294967295 then 5 else 9.

(** [i64::unsigned_abs] is [Z.abs]. *)
Definition int_len (value : Z) : Z :=
  if value <? 0 then head_len (Z.abs value - 1) else head_len (Z.abs value).

Definition payload_len (len : Z) : Z := saturating_add (head_len len) len.

Definition head (out : list Z) (major value : Z) : list Z :=
  let tag := (major * 32) mod 256 in
  if value <=? 23 then out ++ [tag + try_from_or_0 u8_max value] else
  if value <=? 255 then out ++ [tag + 24] ++ [try_from_or_0 u8_max value] else
  if value <=? 65535 then out ++ [tag + 25] ++ to_be_bytes 2 (try_from_or_0 u16_max value) else
  if value <=? 4294967295 then
    out ++ [tag + 26] ++ to_be_bytes 4 (try_from_or_0 u32_max value)
  else out ++ [tag + 27] ++ to_be_bytes 8 value.

Definition uint (out : list Z) (value : Z) : list Z := head out UNSIGNED value.

Definition int (out : list Z) (value : Z) : list Z :=
  if value <? 0 then head out NEGATIVE (Z.abs value - 1)
  else head out UNSIGNED (Z.abs value).

Definition bytes (out : list Z) (value : list Z) : list Z :=
  head out BYTES (zlen value) ++ value.

Definition text (out : list Z) (value : list Z) : list Z :=
  head out TEXT (zlen value) ++ value.

Definition array (out : list Z) (length : Z) : list Z := head out ARRAY length.
Definition map_head (out : list Z) (length : Z) : list Z := head out MAP length.
Definition null (out : list Z) : list Z := out ++ [NULL].

(** ** UTF-8 well-formedness *)

Definition in_range (lo hi b : Z) : bool := (lo <=? b) && (b <=? hi).
Definition cont (b : Z) : bool := in_range 128 191 b.

Fixpoint utf8_valid (l : list Z) : bool :=
  match l with
  | [] => true
  | b :: l1 =>
      if in_range 0 127 b then utf8_valid l1 else
      match l1 with
      | [] => false
      | c :: l2 =>
          if in_range 194 223 b then cont c && utf8_valid l2 else
          match l2 with
          | [] => false
          | d :: l3 =>
              if b =? 224 then in_range 160 191 c && cont d && utf8_valid l3 else
              if in_range 225 236 b || in_range 238 239 b then
                cont c && cont d && utf8_valid l3 else
              if b =? 237 then in_range 128 159 c && cont d && utf8_valid l3 else
              match l3 with
              | [] => false
              | e :: l4 =>
                  if b =? 240 then in_range 144 191 c && cont d && cont e && utf8_valid l4 else
                  if in_range 241 243 b then cont c && cont d && cont e && utf8_valid l4 else
                  if b =? 244 then in_range 128 143 c && cont d && cont e && utf8_valid l4
                  else false
              end
          end
      end
  end.

(** ** Reader *)

Record Reader := mkReader { input : list Z; offset : Z }.

Abbreviation RM := (M Reader Error).

Definition reader_new (i : list Z) : Reader := mkReader i 0.
Definition remaining (r : Reader) : list Z :=
  match get_range (input r) (offset r) (zlen (input r)) with Some s => s | None => [] end.
Definition is_empty (r : Reader) : bool := zlen (input r) <=? offset r.

Definition take_bytes (length : Z) : RM (list Z) := fun r =>
  match checked_add (offset r) length with
  | None => (Err Truncated, r)
  | Some stop =>
      match get_range (input r) (offset r) stop with
      | None => (Err Truncated, r)
      | Some bs => (Ok bs, mkReader (input r) stop)
      end
  end.

Definition read_byte : RM Z :=
  let! bs := take_bytes 1 in lift (ok_or (bs !! 0%nat) Truncated).

(** [fixed::<N>]: the [try_into] of a slice [take] returned always has [N] bytes. *)
Definition fixed (n : Z) : RM (list Z) :=
  let! bs := take_bytes n in
  if zlen bs =? n then ret bs else fail Truncated.

Definition reader_head : RM (Z * Z) :=
  let! bs := take_bytes 1 in
  let! first := lift (ok_or (bs !! 0%nat) Truncated) in
  let major := Z.shiftr first 5 in
  let additional := Z.land first 31 in
  let! (value, floor) :=
    (if additional <=? 23 then ret (additional, 0) else
     if additional =? 24 then let! b := read_byte in ret (b, 24) else
     if additional =? 25 then let! b := fixed 2 in ret (from_be_bytes b, 256) else
     if additional =? 26 then let! b := fixed 4 in ret (from_be_bytes b, 65536) else
     if additional =? 27 then let! b := fixed 8 in ret (from_be_bytes b, 4294967296) else
     fail Malformed) in
  if value <? floor then fail NonCanonical else ret (major, value).

Definition typed_head (expected : Z) : RM Z :=
  let! (major, value) := reader_head in
  if major =? expected then ret value else fail WrongType.

Definition reader_uint : RM Z := typed_head UNSIGNED.

Definition key (expected : Z) : RM unit :=
  let! v := reader_uint in if v =? expected then ret tt else fail WrongType.

Definition i64_try_from (v : Z) : option Z := if v <=? i64_max then Some v else None.

Definition reader_int : RM Z :=
  let! (major, value) := reader_head in
  if major =? UNSIGNED then lift (ok_or (i64_try_from value) TooLarge) else
  if major =? NEGATIVE then
    lift (ok_or (match i64_try_from value with Some m => Some (-1 - m) | None => None end) TooLarge)
  else fail WrongType.

(** [length]: [usize] is 64 bits, so [usize::try_from] of a [u64] succeeds. *)
Definition reader_length (expected maximum : Z) : RM Z :=
  let! length := typed_head expected in
  if maximum <? length then fail TooLarge else ret length.

Definition reader_bytes (maximum : Z) : RM (list Z) :=
  let! length := reader_length BYTES maximum in take_bytes length.

Definition fixed_bytes (n : Z) : RM (list Z) :=
  let! length := reader_length BYTES n in
  if negb (length =? n) then fail TooLarge else fixed n.

Definition reader_text (maximum : Z) : RM (list Z) :=
  let! length := reader_length TEXT maximum in
  let! bs := take_bytes length in
  if utf8_valid bs then ret bs else fail NotUtf8.

Definition array_len (maximum : Z) : RM Z :=
  let! length := typed_head ARRAY in
  if maximum <? length then fail TooLarge else ret length.

Definition reader_array (expected : Z) : RM unit :=
  let! v := typed_head ARRAY in if v =? expected then ret tt else fail WrongType.

Definition map_len (maximum : Z) : RM Z :=
  let! length := typed_head MAP in
  if maximum <? length then fail TooLarge else ret length.

Definition reader_map (expected : Z) : RM unit :=
  let! v := typed_head MAP in if v =? expected then ret tt else fail WrongType.

Definition reader_null : RM unit :=
  let! b := read_byte in if b =? NULL then ret tt else fail WrongType.

Definition peek_null (r : Reader) : bool :=
  bool_decide (zget (input r) (offset r) = Some NULL).

Definition finish (r : Reader) : result unit Error :=
  if offset r =? zlen (input r) then Ok tt else Err Trailing.

(** ** Reading what was written

    [reads m enc a]: wherever [enc] stands in an input of legal size (a Rust
    slice has at most [isize::MAX] bytes), [m] consumes exactly [enc] and
    returns [a]. *)
Definition reads {E A} (m : M Reader E A) (enc : list Z) (a : A) : Prop :=
  forall pre post, zlen (pre ++ enc ++ post) <= i64_max ->
  m (mkReader (pre ++ enc ++ post) (zlen pre)) =
  (Ok a, mkReader (pre ++ enc ++ post) (zlen pre + zlen enc)).

Lemma reads_ret {E A} (a : A) : reads (E := E) (ret a) [] a.
Proof. intros pre post _. unfold ret. by rewrite zlen_nil, Z.add_0_r. Qed.

Lemma reads_bind {E A B} (m : M Reader E A) (k : A -> M Reader E B) e1 e2 a b :
  reads m e1 a -> reads (k a) e2 b -> reads (bind m k) (e1 ++ e2) b.
Proof.
  intros Hm Hk pre post Hlen. specialize (Hm pre (e2 ++ post)).
  specialize (Hk (pre ++ e1) post).
  rewrite <- !app_assoc in *. rewrite (bind_ok _ _ _ _ _ (Hm Hlen)).
  specialize (Hk Hlen). rewrite (zlen_app pre e1) in Hk.
  rewrite Hk, zlen_app. do 2 f_equal. lia.
Qed.

(** The continuation only needs to be read at the value bound. *)
Lemma reads_bind_nil {E A B} (m : M Reader E A) (k : A -> M Reader E B) e a b :
  reads m e a -> reads (k a) [] b -> reads (bind m k) e b.
Proof. intros. rewrite <- (app_nil_r e). by eapply reads_bind. Qed.

Lemma reads_take k : reads (take_bytes (zlen k)) k k.
Proof.
  intros pre post Hlen. unfold take_bytes. simpl.
  destruct (checked_add (zlen pre) (zlen k)) as [stop|] eqn:Hc.
  - apply checked_add_Some in Hc as [-> _]. by rewrite get_range_app_mid.
  - apply checked_add_None in Hc. rewrite !zlen_app in Hlen.
    pose proof (zlen_nonneg post). mlia.
Qed.

Lemma reads_byte b : reads read_byte [b] b.
Proof. eapply reads_bind_nil; [apply (reads_take [b]) | apply reads_ret]. Qed.

Lemma reads_fixed k : reads (fixed (zlen k)) k k.
Proof.
  eapply reads_bind_nil; [apply reads_take|].
  rewrite Z.eqb_refl. apply reads_ret.
Qed.

Lemma reads_fixed_be w v :
  0 <= v < 256 ^ Z.of_nat w ->
  forall A (k : list Z -> RM A) a, reads (k (to_be_bytes w v)) [] a ->
  reads (bind (fixed (Z.of_nat w)) k) (to_be_bytes w v) a.
Proof.
  intros Hv A k a Hk. eapply reads_bind_nil; [|exact Hk].
  rewrite <- (zlen_to_be_bytes w v). apply reads_fixed.
Qed.

(** A head is appended, whatever is already in the output. *)
Lemma head_app out major value : head out major value = out ++ head [] major value.
Proof. unfold head. by zcases. Qed.

Lemma zlen_head major value : zlen (head [] major value) = head_len value.
Proof.
  unfold head, head_len. zcases; simpl; autorewrite with vot; rewrite ?zlen_to_be_bytes; lia.
Qed.

Lemma shiftr5 first : Z.shiftr first 5 = first / 32.
Proof. by rewrite Z.shiftr_div_pow2 by lia. Qed.

Lemma land31 first : Z.land first 31 = first mod 32.
Proof. change 31 with (Z.ones 5). by rewrite Z.land_ones by lia. Qed.

(** The tag byte splits back into its major type and additional value. *)
Lemma tag_split major a :
  0 <= major <= 7 -> 0 <= a < 32 ->
  Z.shiftr ((major * 32) mod 256 + a) 5 = major /\ Z.land ((major * 32) mod 256 + a) 31 = a.
Proof.
  intros Hm Ha. rewrite Z.mod_small, shiftr5, land31 by lia. split.
  - rewrite Z.div_add_l, Z.div_small by lia. lia.
  - rewrite Z.add_comm, Z.mod_add, Z.mod_small by lia. lia.
Qed.

(** The bytes a head writes after its tag byte, and the additional value. *)
Definition head_additional (value : Z) : Z :=
  if value <=? 23 then value else
  if value <=? 255 then 24 else
  if value <=? 65535 then 25 else
  if value <=? 4294967295 then 26 else 27.

Definition head_rest (value : Z) : list Z :=
  if value <=? 23 then [] else
  if value <=? 255 then [value] else
  if value <=? 65535 then to_be_bytes 2 value else
  if value <=? 4294967295 then to_be_bytes 4 value else to_be_bytes 8 value.

Lemma head_split major value :
  head [] major value = [(major * 32) mod 256 + head_additional value] ++ head_rest value.
Proof.
  unfold head, head_additional, head_rest, try_from_or_0, u8_max, u16_max, u32_max.
  zcases; simpl; try done; lia.
Qed.

Lemma head_additional_range value : 0 <= value -> 0 <= head_additional value < 28.
Proof. unfold head_additional. zcases; lia. Qed.

Lemma reads_head major value :
  0 <= major <= 7 -> is_u64 value -> reads reader_head (head [] major value) (major, value).
Proof.
  intros Hm Hv. rewrite head_split.
  pose proof (head_additional_range value ltac:(mlia)) as Ha.
  eapply reads_bind; [apply (reads_take [_])|]. simpl.
  destruct (tag_split major (head_additional value) Hm ltac:(lia)) as [H1 H2].
  change (head_rest value) with ([] ++ head_rest value).
  eapply reads_bind; [apply reads_ret|]. cbv beta zeta. rewrite H1, H2.
  unfold head_additional, head_rest.
  destruct (Z.leb_spec value 23); [|destruct (Z.leb_spec value 255);
    [|destruct (Z.leb_spec value 65535); [|destruct (Z.leb_spec value 4294967295)]]].
  - change (@nil Z) with (@nil Z ++ []). eapply reads_bind;
      [destruct (Z.leb_spec value 23); [apply reads_ret|lia] |].
    cbv beta iota. destruct (Z.ltb_spec value 0); [mlia|]. apply reads_ret.
  - eapply reads_bind_nil; [eapply reads_bind_nil; [apply reads_byte | apply reads_ret]|].
    cbv beta iota. destruct (Z.ltb_spec value 24); [lia|]. apply reads_ret.
  - eapply reads_bind_nil; [apply (reads_fixed_be 2); [lia | apply reads_ret]|].
    cbv beta iota. rewrite from_to_be_bytes by lia.
    destruct (Z.ltb_spec value 256); [lia|]. apply reads_ret.
  - eapply reads_bind_nil; [apply (reads_fixed_be 4); [lia | apply reads_ret]|].
    cbv beta iota. rewrite from_to_be_bytes by lia.
    destruct (Z.ltb_spec value 65536); [lia|]. apply reads_ret.
  - eapply reads_bind_nil; [apply (reads_fixed_be 8); [mlia | apply reads_ret]|].
    cbv beta iota. rewrite from_to_be_bytes by mlia.
    destruct (Z.ltb_spec value 4294967296); [lia|]. apply reads_ret.
Qed.

Lemma reads_typed_head major value :
  0 <= major <= 7 -> is_u64 value -> reads (typed_head major) (head [] major value) value.
Proof.
  intros. eapply reads_bind_nil; [by apply reads_head|]. cbv beta iota.
  rewrite Z.eqb_refl. apply reads_ret.
Qed.

Lemma reads_length major value maximum :
  0 <= major <= 7 -> is_u64 value -> value <= maximum ->
  reads (reader_length major maximum) (head [] major value) value.
Proof.
  intros. eapply reads_bind_nil; [by apply reads_typed_head|].
  destruct (Z.ltb_spec maximum value); [lia|]. apply reads_ret.
Qed.

(** ** What a reader does to its cursor *)

(** A reader over a Rust slice of bytes, with its offset inside the input. *)
Definition reader_wf (r : Reader) : Prop :=
  byte_list (input r) /\ zlen (input r) <= i64_max /\ 0 <= offset r <= zlen (input r).

(** [safe m]: whatever [m] returns, it keeps the input, never moves the offset
    backward and never moves it past the end. *)
Definition safe {E A} (m : M Reader E A) : Prop :=
  forall r res r', reader_wf r -> m r = (res, r') ->
  input r' = input r /\ offset r <= offset r' <= zlen (input r).

Lemma safe_wf {E A} (m : M Reader E A) r res r' :
  safe m -> reader_wf r -> m r = (res, r') -> reader_wf r'.
Proof.
  intros Hs Hr Hm. destruct (Hs _ _ _ Hr Hm) as [Hi Ho].
  destruct Hr as (Hb & Hl & Hof). split_and!; rewrite ?Hi; try done; lia.
Qed.

Lemma safe_ret {E A} (a : A) : safe (E := E) (ret a).
Proof. intros r res r' (_ & _ & Ho) [= <- <-]. split; [done | lia]. Qed.

Lemma safe_lift {E A} (x : result A E) : safe (lift x).
Proof. intros r res r' (_ & _ & Ho) [= <- <-]. split; [done | lia]. Qed.

Lemma safe_fail {E A} (e : E) : safe (@fail _ _ A e).
Proof. intros r res r' (_ & _ & Ho) [= <- <-]. split; [done | lia]. Qed.

Lemma safe_bind {E A B} (m : M Reader E A) (k : A -> M Reader E B) :
  safe m -> (forall a, safe (k a)) -> safe (bind m k).
Proof.
  intros Hm Hk r res r' Hr. unfold bind.
  destruct (m r) as [[a|e] r1] eqn:Hr1; [|intros [= <- <-]; by eapply Hm].
  intros Hk1. pose proof (safe_wf _ _ _ _ Hm Hr Hr1) as Hw.
  destruct (Hm _ _ _ Hr Hr1) as [Hi1 Ho1]. destruct (Hk a _ _ _ Hw Hk1) as [Hi2 Ho2].
  rewrite Hi1 in *. split; [done | lia].
Qed.

Lemma safe_if {E A} (b : bool) (m1 m2 : M Reader E A) : safe m1 -> safe m2 -> safe (if b then m1 else m2).
Proof. by destruct b. Qed.

Lemma take_bytes_cases n r res r' :
  0 <= n -> reader_wf r -> take_bytes n r = (res, r') ->
  (res = Err Truncated /\ r' = r /\ zlen (input r) < offset r + n) \/
  (exists bs, res = Ok bs /\ zlen bs = n /\ byte_list bs /\
     r' = mkReader (input r) (offset r + n) /\ offset r + n <= zlen (input r) /\
     zdrop (offset r) (input r) = bs ++ zdrop (offset r + n) (input r)).
Proof.
  intros Hn (Hb & Hl & Ho). unfold take_bytes.
  destruct (checked_add (offset r) n) as [stop|] eqn:Hc; cycle 1.
  { apply checked_add_None in Hc. intros [= <- <-]. left. split_and!; try done. mlia. }
  apply checked_add_Some in Hc as [-> _].
  destruct (get_range (input r) (offset r) (offset r + n)) as [bs|] eqn:Hg; intros [= <- <-].
  - right. apply get_range_Some in Hg as (Hle & -> & Hz); [|lia].
    exists (slice (input r) (offset r) (offset r + n)).
    assert (zdrop (offset r) (input r) =
      slice (input r) (offset r) (offset r + n) ++ zdrop (offset r + n) (input r)) as He.
    { unfold slice. replace (offset r + n - offset r) with n by lia.
      rewrite (Z.add_comm (offset r) n), <- zdrop_zdrop by lia. by rewrite ztake_zdrop. }
    split_and!; try done; try lia.
    unfold slice, ztake, zdrop. by apply Forall_take, Forall_drop.
  - left. split_and!; try done. unfold get_range in Hg.
    destruct (Z.leb_spec (offset r) (offset r + n)); [|lia].
    destruct (Z.leb_spec (offset r + n) (zlen (input r))); [done | lia].
Qed.

Lemma safe_take n : 0 <= n -> safe (take_bytes n).
Proof.
  intros Hn r res r' Hr Ht. pose proof Hr as (_ & _ & Ho).
  apply take_bytes_cases in Ht as [(-> & -> & _)|(bs & -> & _ & _ & -> & Hle & _)]; try done;
    split; simpl; try done; lia.
Qed.

Lemma safe_read_byte : safe read_byte.
Proof. apply safe_bind; [apply safe_take; lia | intros; apply safe_lift]. Qed.

Lemma safe_fixed n : 0 <= n -> safe (fixed n).
Proof. intros. apply safe_bind; [by apply safe_take | intros; apply safe_if; [apply safe_ret | apply safe_fail]]. Qed.

Create HintDb cbor_safe.
#[export] Hint Resolve safe_ret safe_lift safe_fail safe_read_byte : cbor_safe.

(** Walks the monadic structure of a reader method. *)
Ltac solve_safe :=
  repeat first
    [ apply safe_bind; [|intros] | apply safe_if
    | apply safe_take; mlia | apply safe_fixed; mlia | solve [auto with cbor_safe]
    | match goal with |- safe (let '_ := ?x in _) => destruct x end ].

Lemma safe_reader_head : safe reader_head.
Proof. unfold reader_head. solve_safe. Qed.
#[export] Hint Resolve safe_reader_head : cbor_safe.

(** [parses m enc P]: when [m] succeeds, the bytes it consumed are exactly the
    encoding of the value it returns, which satisfies [P]. *)
Definition parses {E A} (m : M Reader E A) (enc : A -> list Z) (P : A -> Prop) : Prop :=
  forall r a r', reader_wf r -> m r = (Ok a, r') ->
  P a /\ r' = mkReader (input r) (offset r + zlen (enc a)) /\
  offset r' <= zlen (input r) /\
  zdrop (offset r) (input r) = enc a ++ zdrop (offset r') (input r).

Lemma read_byte_inv r b r' :
  reader_wf r -> read_byte r = (Ok b, r') ->
  is_u8 b /\ r' = mkReader (input r) (offset r + 1) /\
  offset r + 1 <= zlen (input r) /\
  zdrop (offset r) (input r) = [b] ++ zdrop (offset r + 1) (input r).
Proof.
  intros Hr (bs & r1 & Ht & Hb)%bind_ok_inv.
  apply take_bytes_cases in Ht as [([=] & _)|(bs' & [= <-] & Hz & Hbl & -> & Hle & He)]; [|lia|done].
  destruct bs as [|c [|]]; unfold zlen in Hz; simpl in Hz; try lia.
  unfold lift, ok_or in Hb. simpl in Hb. injection Hb as <- <-.
  inversion_clear Hbl. done.
Qed.

Lemma fixed_inv n r bs r' :
  0 <= n -> reader_wf r -> fixed n r = (Ok bs, r') ->
  zlen bs = n /\ byte_list bs /\ r' = mkReader (input r) (offset r + n) /\
  offset r + n <= zlen (input r) /\
  zdrop (offset r) (input r) = bs ++ zdrop (offset r + n) (input r).
Proof.
  intros Hn Hr (bs' & r1 & Ht & Hb)%bind_ok_inv.
  apply take_bytes_cases in Ht as [([=] & _)|(bs'' & [= <-] & Hz & Hbl & -> & Hle & He)]; try done.
  rewrite Hz, Z.eqb_refl in Hb. injection Hb as <- <-. done.
Qed.

(** [reader_head] is one byte read followed by this continuation. *)
Definition head_argument (first : Z) : RM (Z * Z) :=
  let major := Z.shiftr first 5 in
  let additional := Z.land first 31 in
  let! (value, floor) :=
    (if additional <=? 23 then ret (additional, 0) else
     if additional =? 24 then let! b := read_byte in ret (b, 24) else
     if additional =? 25 then let! b := fixed 2 in ret (from_be_bytes b, 256) else
     if additional =? 26 then let! b := fixed 4 in ret (from_be_bytes b, 65536) else
     if additional =? 27 then let! b := fixed 8 in ret (from_be_bytes b, 4294967296) else
     fail Malformed) in
  if value <? floor then fail NonCanonical else ret (major, value).

Lemma reader_head_unfold r : reader_head r = bind read_byte head_argument r.
Proof.
  unfold reader_head, read_byte, bind, lift.
  destruct (take_bytes 1 r) as [[bs|e] r1]; [|done].
  by destruct (ok_or (bs !! 0%nat) Truncated).
Qed.

Lemma head_of_byte b v :
  is_u8 b -> head_additional v = b mod 32 -> head [] (b / 32) v = [b] ++ head_rest v.
Proof.
  intros Hb Ha.
  pose proof (Z.div_mod b 32 ltac:(lia)). pose proof (Z.mod_pos_bound b 32 ltac:(lia)).
  rewrite head_split, Ha, Z.mod_small by mlia. do 2 f_equal. lia.
Qed.

Lemma head_argument_wide w floor b bs rest :
  is_u8 b -> byte_list bs -> length bs = w -> floor <= from_be_bytes bs ->
  (w, b mod 32, floor) ∈ [(2%nat, 25, 256); (4%nat, 26, 65536); (8%nat, 27, 4294967296)] ->
  is_u64 (from_be_bytes bs) /\
  zlen (head [] (b / 32) (from_be_bytes bs)) = 1 + Z.of_nat w /\
  [b] ++ bs ++ rest = head [] (b / 32) (from_be_bytes bs) ++ rest.
Proof.
  intros Hb Hbs Hw Hf Hin.
  pose proof (from_be_bytes_bound bs Hbs) as Hbd. unfold zlen in Hbd. rewrite Hw in Hbd.
  pose proof (to_from_be_bytes bs Hbs) as Hto. rewrite Hw in Hto.
  rewrite zlen_head.
  assert (is_u64 (from_be_bytes bs) /\ head_len (from_be_bytes bs) = 1 + Z.of_nat w /\
          head_additional (from_be_bytes bs) = b mod 32 /\ head_rest (from_be_bytes bs) = bs)
    as (H1 & H2 & H3 & H4).
  { set (v := from_be_bytes bs) in *. clearbody v.
    unfold head_len, head_additional, head_rest.
    repeat (apply elem_of_cons in Hin as [[= -> -> ->] | Hin]); [..|set_solver];
      zcases; split_and!; try done; mlia. }
  split_and!; try done. by rewrite head_of_byte, H4, app_assoc.
Qed.

(** A head read succeeds only on the shortest encoding. *)
Lemma reader_head_parses :
  parses reader_head (fun '(major, v) => head [] major v)
         (fun '(major, v) => 0 <= major <= 7 /\ is_u64 v).
Proof.
  intros r [major v] r' Hr. rewrite reader_head_unfold.
  intros (b & r1 & Hb & H)%bind_ok_inv. pose proof (safe_wf _ _ _ _ safe_read_byte Hr Hb) as Hr1.
  apply read_byte_inv in Hb as (Hb & -> & Hle & He); [|done].
  assert (0 <= b / 32 <= 7) as Hmaj.
  { pose proof (Z.div_mod b 32 ltac:(lia)). pose proof (Z.mod_pos_bound b 32 ltac:(lia)). mlia. }
  pose proof (Z.mod_pos_bound b 32 ltac:(lia)) as Hmod.
  unfold head_argument in H. rewrite shiftr5, land31 in H. cbv zeta in H.
  apply bind_ok_inv in H as ([v' floor] & r2 & Hv & H). cbv beta iota in H.
  destruct (Z.ltb_spec v' floor); [done|]. injection H as <- <- <-.
  destruct (Z.leb_spec (b mod 32) 23).
  { injection Hv as <- <- <-. simpl in *.
    assert (head_additional (b mod 32) = b mod 32) by (unfold head_additional; zcases; lia).
    rewrite zlen_head, (head_of_byte b) by done.
    assert (head_rest (b mod 32) = []) as -> by (unfold head_rest; zcases; try done; lia).
    assert (head_len (b mod 32) = 1) as -> by (unfold head_len; zcases; lia).
    split_and!; try done; mlia. }
  destruct (Z.eqb_spec (b mod 32) 24).
  { apply bind_ok_inv in Hv as (c & r3 & Hc & [= <- <- <-]).
    apply read_byte_inv in Hc as (Hc & -> & Hle2 & He2); [|done]. simpl in *.
    assert (head_additional c = 24) as Ha by (unfold head_additional; zcases; mlia).
    rewrite zlen_head, (head_of_byte b) by (done || congruence).
    assert (head_rest c = [c]) as -> by (unfold head_rest; zcases; try done; mlia).
    assert (head_len c = 2) as -> by (unfold head_len; zcases; mlia).
    replace (offset r + 2) with (offset r + 1 + 1) by lia.
    split_and!; try done; try mlia. by rewrite He, He2. }
  assert (exists w bs, from_be_bytes bs = v' /\ fixed (Z.of_nat w) (mkReader (input r) (offset r + 1)) = (Ok bs, r2) /\
    (w, b mod 32, floor) ∈ [(2%nat, 25, 256); (4%nat, 26, 65536); (8%nat, 27, 4294967296)])
    as (w & bs & <- & Hfx & Hin).
  { destruct (Z.eqb_spec (b mod 32) 25) as [->|]; [|destruct (Z.eqb_spec (b mod 32) 26) as [->|];
      [|destruct (Z.eqb_spec (b mod 32) 27) as [->|]; [|done]]];
      apply bind_ok_inv in Hv as (bs & r3 & Hf & [= <- <- <-]);
      first [ exists 2%nat, bs; split_and!; [done | exact Hf | set_solver]
            | exists 4%nat, bs; split_and!; [done | exact Hf | set_solver]
            | exists 8%nat, bs; split_and!; [done | exact Hf | set_solver] ]. }
  apply fixed_inv in Hfx as (Hz & Hbl & -> & Hle2 & He2); [|lia|done]. simpl in *.
  destruct (head_argument_wide w floor b bs (zdrop (offset r + 1 + Z.of_nat w) (input r)) Hb Hbl)
    as (H1 & H2 & H3); [unfold zlen in Hz; lia | lia | done |].
  rewrite H2, He, He2. replace (offset r + (1 + Z.of_nat w)) with (offset r + 1 + Z.of_nat w) by lia.
  split_and!; done || lia.
Qed.

(** ** Exactness

    [exact_codec m enc P]: [m] returns [a] with [P a] exactly when the cursor
    stands at [enc a], and it then consumes exactly those bytes.  Decoding is
    therefore a partial inverse of encoding in both directions, and no value
    has a second accepted encoding. *)
Definition exact_codec {E A} (m : M Reader E A) (enc : A -> list Z) (P : A -> Prop) : Prop :=
  (forall a, P a -> reads m (enc a) a) /\ parses m enc P.

Lemma typed_head_parses expected :
  parses (typed_head expected) (head [] expected) is_u64.
Proof.
  intros r v r' Hr ([major v'] & r1 & Hh & H)%bind_ok_inv. cbv beta iota in H.
  destruct (Z.eqb_spec major expected) as [->|]; [|done]. injection H as <- <-.
  apply (reader_head_parses r (expected, v')) in Hh as ((_ & ?) & H2); [|done]. done.
Qed.

Lemma safe_typed_head expected : safe (typed_head expected).
Proof. unfold typed_head. solve_safe. Qed.
#[export] Hint Resolve safe_typed_head : cbor_safe.

Lemma reader_length_parses expected maximum :
  parses (reader_length expected maximum) (head [] expected)
         (fun v => is_u64 v /\ v <= maximum).
Proof.
  intros r v r' Hr (v' & r1 & Hh & H)%bind_ok_inv.
  destruct (Z.ltb_spec maximum v'); [done|]. injection H as <- <-.
  apply typed_head_parses in Hh as (Hu & H2); [|done]. done.
Qed.

Lemma safe_reader_length expected maximum : safe (reader_length expected maximum).
Proof. unfold reader_length. solve_safe. Qed.
#[export] Hint Resolve safe_reader_length : cbor_safe.

(** A bounded string read: a length head of type [major], then its bytes. *)
Lemma payload_parses major maximum r n r1 bs r' :
  reader_wf r -> reader_length major maximum r = (Ok n, r1) -> take_bytes n r1 = (Ok bs, r') ->
  byte_list bs /\ zlen bs = n /\ n <= maximum /\
  r' = mkReader (input r) (offset r + zlen (head [] major n ++ bs)) /\
  offset r' <= zlen (input r) /\
  zdrop (offset r) (input r) = (head [] major n ++ bs) ++ zdrop (offset r') (input r).
Proof.
  intros Hr Hn Ht. pose proof (safe_wf _ _ _ _ (safe_reader_length _ _) Hr Hn) as Hr1.
  apply reader_length_parses in Hn as ((Hu & Hmax) & -> & Hle & He); [|done].
  apply take_bytes_cases in Ht as [([=] & _)|(bs' & [= <-] & Hz & Hbl & -> & Hle2 & He2)];
    [|mlia|done].
  simpl in *. rewrite zlen_app, Hz, Z.add_assoc. split_and!; try done.
  by rewrite He, He2, app_assoc.
Qed.

Lemma reads_payload major maximum bs :
  0 <= major <= 7 -> zlen bs <= maximum -> maximum <= u64_max ->
  reads (let! n := reader_length major maximum in take_bytes n) (head [] major (zlen bs) ++ bs) bs.
Proof.
  intros. pose proof (zlen_nonneg bs). eapply reads_bind; [|apply reads_take].
  apply reads_length; mlia.
Qed.

Lemma reader_bytes_exact maximum : 0 <= maximum <= u64_max ->
  exact_codec (reader_bytes maximum) (bytes []) (fun bs => byte_list bs /\ zlen bs <= maximum).
Proof.
  intros Hmax. split.
  - intros bs [_ Hz]. apply reads_payload; unfold BYTES; lia.
  - intros r bs r' Hr (n & r1 & Hn & Ht)%bind_ok_inv.
    destruct (payload_parses _ _ _ _ _ _ _ Hr Hn Ht) as (Hb & Hz & Hle & H).
    unfold bytes. subst n. split; [done|exact H].
Qed.

Lemma reader_text_exact maximum : 0 <= maximum <= u64_max ->
  exact_codec (reader_text maximum) (text [])
              (fun bs => byte_list bs /\ zlen bs <= maximum /\ utf8_valid bs = true).
Proof.
  intros Hmax. split.
  - intros bs (_ & Hz & Hu) pre post Hlen. unfold reader_text.
    pose proof (reads_payload TEXT maximum bs ltac:(unfold TEXT; lia) Hz ltac:(lia) pre post Hlen)
      as Hp.
    apply bind_ok_inv in Hp as (n & r1 & Hn & Ht).
    rewrite (bind_ok _ _ _ _ _ Hn), (bind_ok _ _ _ _ _ Ht). by rewrite Hu.
  - intros r bs r' Hr (n & r1 & Hn & (bs' & r2 & Ht & H)%bind_ok_inv)%bind_ok_inv.
    destruct (utf8_valid bs') eqn:Hu; [|done]. injection H as <- <-.
    destruct (payload_parses _ _ _ _ _ _ _ Hr Hn Ht) as (Hb & Hz & Hle & H).
    unfold text. subst n. split; [done|exact H].
Qed.

Lemma zlen_bytes bs : zlen bs <= i64_max -> zlen (bytes [] bs) = payload_len (zlen bs).
Proof.
  intros Hz. pose proof (zlen_nonneg bs). unfold bytes, payload_len, saturating_add.
  rewrite !zlen_app, !zlen_head. unfold head_len. zcases; mlia.
Qed.

Lemma zlen_text bs : zlen bs <= i64_max -> zlen (text [] bs) = payload_len (zlen bs).
Proof.
  intros Hz. pose proof (zlen_nonneg bs). unfold text, payload_len, saturating_add.
  rewrite !zlen_app, !zlen_head. unfold head_len. zcases; mlia.
Qed.

(** heads are exact.  [Reader::head] accepts precisely what [head] writes
    for a major type 0..7 and a [u64] argument, consuming exactly [head_len]
    bytes: every head round-trips at any position of an input, and a longer
    than shortest, reserved or truncated head is never accepted. *)
Theorem head_exact :
  exact_codec reader_head (fun '(major, v) => head [] major v)
              (fun '(major, v) => 0 <= major <= 7 /\ is_u64 v) /\
  (forall out major v, head out major v = out ++ head [] major v /\
                       zlen (head [] major v) = head_len v).
Proof.
  split; [split; [|apply reader_head_parses]|].
  - intros [major v] [? ?]. by apply reads_head.
  - intros out major v. split; [apply head_app | apply zlen_head].
Qed.

(** integers are exact over the whole of [i64], [i64::MIN] included, with
    the length [int_len] announces. *)
Theorem int_exact :
  exact_codec reader_int (int []) (fun v => i64_min <= v <= i64_max) /\
  (forall v, zlen (int [] v) = int_len v).
Proof.
  split; [split|].
  - intros v Hv. unfold int, reader_int. destruct (Z.ltb_spec v 0).
    + eapply reads_bind_nil; [apply reads_head; unfold NEGATIVE; mlia|]. cbv beta iota.
      change (NEGATIVE =? UNSIGNED) with false. rewrite Z.eqb_refl. cbv beta iota.
      unfold i64_try_from. destruct (Z.leb_spec (Z.abs v - 1) i64_max); [|mlia].
      simpl. replace (-1 - (Z.abs v - 1)) with v by lia. apply reads_ret.
    + eapply reads_bind_nil; [apply reads_head; unfold UNSIGNED; mlia|]. cbv beta iota.
      rewrite Z.eqb_refl. unfold i64_try_from. rewrite Z.abs_eq by lia.
      destruct (Z.leb_spec v i64_max); [|mlia]. apply reads_ret.
  - intros r v r' Hr ([major n] & r1 & Hh & H)%bind_ok_inv. cbv beta iota in H.
    apply (reader_head_parses r (major, n)) in Hh as ((_ & Hn) & H2); [|done].
    unfold i64_try_from in H.
    destruct (Z.eqb_spec major UNSIGNED) as [->|];
      [|destruct (Z.eqb_spec major NEGATIVE) as [->|]; [|done]];
      destruct (Z.leb_spec n i64_max); try done; injection H as <- <-; unfold int.
    + destruct (Z.ltb_spec n 0); [mlia|]. rewrite Z.abs_eq by mlia. split; [mlia|done].
    + destruct (Z.ltb_spec (-1 - n) 0); [|mlia].
      replace (Z.abs (-1 - n) - 1) with n by mlia. split; [mlia|done].
  - intros v. unfold int, int_len. by destruct (v <? 0); rewrite zlen_head.
Qed.

(** byte and text strings are exact under the caller's bound.  For any
    bound a [usize] can hold, [Reader::bytes] accepts precisely the encodings
    of strings no longer than the bound, and [Reader::text] those that are
    also UTF-8; nothing longer is ever returned. *)
Theorem strings_exact maximum :
  0 <= maximum <= u64_max ->
  exact_codec (reader_bytes maximum) (bytes [])
              (fun bs => byte_list bs /\ zlen bs <= maximum) /\
  exact_codec (reader_text maximum) (text [])
              (fun bs => byte_list bs /\ zlen bs <= maximum /\ utf8_valid bs = true) /\
  (forall bs, zlen bs <= i64_max -> zlen (bytes [] bs) = payload_len (zlen bs) /\
                                    zlen (text [] bs) = payload_len (zlen bs)).
Proof.
  intros Hmax. split_and!; [by apply reader_bytes_exact|by apply reader_text_exact|].
  intros bs Hz. split; [by apply zlen_bytes|by apply zlen_text].
Qed.

Lemma strings_exact_witness :
  0 <= 4 <= u64_max /\ reads (reader_text 4) (text [] [86; 79; 84]) [86; 79; 84].
Proof.
  split; [vm_compute; split; discriminate|].
  apply (strings_exact 4); [vm_compute; split; discriminate|].
  split; [|split; [vm_compute; discriminate | reflexivity]].
  repeat constructor; vm_compute; discriminate.
Defined.

(** The length a bounded string head announces is never negative, so the
    payload read is safe as well. *)
Lemma strings_safe maximum : safe (reader_bytes maximum) /\ safe (reader_text maximum).
Proof.
  assert (H : forall major A (k : list Z -> RM A), (forall bs, safe (k bs)) ->
    safe (let! n := reader_length major maximum in let! bs := take_bytes n in k bs)).
  { intros major A k Hk r res r' Hr. unfold bind at 1.
    destruct (reader_length major maximum r) as [[n|e] r1] eqn:Hn;
      [|intros [= <- <-]; by eapply safe_reader_length].
    pose proof (safe_wf _ _ _ _ (safe_reader_length _ _) Hr Hn) as Hr1.
    destruct (safe_reader_length _ _ _ _ _ Hr Hn) as [Hi Ho].
    apply reader_length_parses in Hn as ((Hu & _) & _); [|done].
    intros Hm. assert (safe (let! bs := take_bytes n in k bs)) as Hs
      by (apply safe_bind; [apply safe_take; mlia | done]).
    destruct (Hs _ _ _ Hr1 Hm) as [Hi2 Ho2]. rewrite Hi in *. split; [done | lia]. }
  split.
  - intros r res r' Hr Hm. apply (H BYTES _ ret (fun bs => safe_ret bs) r res r' Hr).
    revert Hm. unfold reader_bytes, bind, ret. repeat case_match; congruence.
  - apply H. intros bs. solve_safe.
Qed.

(** no read runs past the input.  Every method of [Reader], on success and
    on every error path, leaves the input unchanged, never moves the offset
    backward, and never moves it past the end; so a decoder built from these
    methods stays in bounds whatever bytes a peer supplies. *)
Theorem reader_methods_safe :
  safe reader_head /\ safe reader_uint /\ safe reader_int /\ safe reader_null /\
  (forall n, 0 <= n -> safe (take_bytes n) /\ safe (fixed_bytes n)) /\
  (forall expected, safe (typed_head expected) /\ safe (key expected) /\
                    safe (reader_array expected) /\ safe (reader_map expected)) /\
  (forall maximum, safe (array_len maximum) /\ safe (map_len maximum) /\
                   safe (reader_bytes maximum) /\ safe (reader_text maximum)).
Proof.
  split_and!; try (intros; split_and!); try apply strings_safe; auto with cbor_safe;
    unfold reader_uint, reader_int, reader_null, fixed_bytes, key, reader_array, reader_map,
      array_len, map_len; try solve_safe.
Qed.
