(* ===== verification/Exact.v ===== *)
(** * Exact codecs

    Combinators for the record codecs of the repository: each decoder reads a
    fixed sequence of CBOR items, checks that nothing is left, builds its value
    and validates it; each encoder validates and writes the same items.  An
    exact codec accepts precisely what its encoder writes, so the two are
    inverse and no value has a second accepted encoding. *)

From S2P Require Import Prelude Cbor.

(** ** Writers: the calls [vot_cbor::uint(output, v)] and the like *)

Section writers.
Context {E : Type}.

Definition put (w : list Z -> list Z) : M (list Z) E unit := fun output => (Ok tt, w output).
Definition put_map (n : Z) : M (list Z) E unit := put (fun output => map_head output n).
Definition put_array (n : Z) : M (list Z) E unit := put (fun output => array output n).
Definition put_uint (v : Z) : M (list Z) E unit := put (fun output => uint output v).
Definition put_bytes (v : list Z) : M (list Z) E unit := put (fun output => bytes output v).
Definition put_text (v : list Z) : M (list Z) E unit := put (fun output => text output v).
Definition extend (v : list Z) : M (list Z) E unit := put (fun output => output ++ v).

(** [for x in l { body }]. *)
Fixpoint put_each {A} (f : A -> M (list Z) E unit) (l : list A) : M (list Z) E unit :=
  match l with
  | [] => ret tt
  | x :: rest => f x ;! put_each f rest
  end.

(** [emits m bs]: [m] succeeds and appends exactly [bs]. *)
Definition emits (m : M (list Z) E unit) (bs : list Z) : Prop :=
  forall output, m output = (Ok tt, output ++ bs).

Lemma emits_ret : emits (ret tt) [].
Proof. intros o. by rewrite app_nil_r. Qed.

Lemma emits_bind m k b1 b2 : emits m b1 -> emits k b2 -> emits (m ;! k) (b1 ++ b2).
Proof. intros Hm Hk o. rewrite (bind_ok _ _ _ _ _ (Hm o)), (Hk (o ++ b1)). by rewrite app_assoc. Qed.

Lemma emits_map n : emits (put_map n) (map_head [] n).
Proof. intros o. unfold put_map, put, map_head. by rewrite head_app. Qed.
Lemma emits_array n : emits (put_array n) (array [] n).
Proof. intros o. unfold put_array, put, array. by rewrite head_app. Qed.
Lemma emits_uint v : emits (put_uint v) (uint [] v).
Proof. intros o. unfold put_uint, put, uint. by rewrite head_app. Qed.
Lemma emits_bytes v : emits (put_bytes v) (bytes [] v).
Proof. intros o. unfold put_bytes, put, bytes. by rewrite head_app, app_assoc. Qed.
Lemma emits_text v : emits (put_text v) (text [] v).
Proof. intros o. unfold put_text, put, text. by rewrite head_app, app_assoc. Qed.
Lemma emits_extend v : emits (extend v) v.
Proof. intros o. done. Qed.

Lemma emits_each {A} (f : A -> M (list Z) E unit) enc l :
  (forall x, emits (f x) (enc x)) -> emits (put_each f l) (concat (map enc l)).
Proof. intros Hf. induction l as [|x l IH]; [apply emits_ret|]. by apply emits_bind. Qed.

(** An encoder that validates, then writes. *)
Lemma emits_checked (c : result unit E) m bs output input :
  emits m bs -> (lift c ;! m) output = (Ok tt, input) <-> c = Ok tt /\ input = output ++ bs.
Proof.
  intros Hm. unfold bind, lift. destruct c as [[]|e]; [rewrite (Hm output)|]; naive_solver.
Qed.
End writers.

Create HintDb emit discriminated.
#[export] Hint Constants Opaque : emit.
#[export] Hint Resolve emits_ret emits_map emits_array emits_uint emits_bytes emits_text emits_extend emits_each : emit.

(** Proves [emits m ?bs] for a sequence of writes, finding the bytes. *)
Ltac solve_emits := repeat first [eapply emits_bind; [solve [eauto with emit]|] | solve [eauto with emit]].

(** ** Exact readers *)

(** [exact_at final m enc P]: [m] returns [a] with [P a] exactly when the cursor
    stands at [enc a], and consumes just those bytes; with [final], also exactly
    when nothing follows them. *)
Definition exact_at {E A} (final : bool) (m : M Reader E A) (enc : A -> list Z) (P : A -> Prop) : Prop :=
  (forall a, P a -> forall pre post, (final = true -> post = []) -> zlen (pre ++ enc a ++ post) <= i64_max ->
    m (mkReader (pre ++ enc a ++ post) (zlen pre)) =
      (Ok a, mkReader (pre ++ enc a ++ post) (zlen pre + zlen (enc a)))) /\
  (forall r a r', reader_wf r -> m r = (Ok a, r') ->
    P a /\ r' = mkReader (input r) (offset r + zlen (enc a)) /\ offset r' <= zlen (input r) /\
    zdrop (offset r) (input r) = enc a ++ zdrop (offset r') (input r) /\
    (final = true -> offset r' = zlen (input r))).

(** A whole payload: what [decode] accepts is exactly what [enc] writes. *)
Definition exact_decode {E A} (decode : list Z -> result A E) (enc : A -> list Z) (P : A -> Prop) : Prop :=
  (forall input v, byte_list input -> zlen input <= i64_max -> decode input = Ok v -> P v /\ input = enc v) /\
  (forall v, P v -> zlen (enc v) <= i64_max -> decode (enc v) = Ok v).

(** [Reader::finish] inside a computation on the reader. *)
Definition finished {E} (f : Error -> E) : M Reader E unit := fun r => (map_err f (finish r), r).

Section exact.
Context {E : Type}.

Lemma exact_codec_at {A} (m : M Reader E A) enc P : exact_codec m enc P <-> exact_at false m enc P.
Proof.
  unfold exact_codec, exact_at, reads, parses. split; intros [H1 H2]; split.
  - intros a Ha pre post _. by apply H1.
  - intros r a r' Hr Hm. destruct (H2 _ _ _ Hr Hm) as (? & ? & ? & ?). done.
  - intros a Ha pre post. by apply H1.
  - intros r a r' Hr Hm. destruct (H2 _ _ _ Hr Hm) as (? & ? & ? & ? & _). done.
Qed.

Lemma exact_bind {A B} final (m : M Reader E A) (k : A -> M Reader E B) (pa : B -> A) encA PA encB PB :
  exact_codec m encA PA -> (forall a, PA a -> exact_at final (k a) (encB a) (PB a)) ->
  (forall a b, PA a -> PB a b -> pa b = a) ->
  exact_at final (bind m k) (fun b => encA (pa b) ++ encB (pa b) b) (fun b => PA (pa b) /\ PB (pa b) b).
Proof.
  intros [Hm1 Hm2] Hk Hpa. split.
  - intros b [Ha Hb] pre post Hpost Hlen. rewrite <- app_assoc in *.
    rewrite (bind_ok _ _ _ _ _ (Hm1 _ Ha pre (encB (pa b) b ++ post) Hlen)).
    destruct (Hk _ Ha) as [Hk1 _]. specialize (Hk1 _ Hb (pre ++ encA (pa b)) post Hpost).
    rewrite <- !app_assoc, (zlen_app pre (encA (pa b))) in Hk1. rewrite (Hk1 Hlen), (zlen_app (encA _)). do 2 f_equal. lia.
  - intros r b r' Hr (a & r1 & Hm & Hk')%bind_ok_inv.
    destruct (Hm2 _ _ _ Hr Hm) as (Ha & -> & Hle & He). destruct (Hk _ Ha) as [_ Hk2].
    assert (reader_wf (mkReader (input r) (offset r + zlen (encA a)))) as Hr1.
    { destruct Hr as (? & ? & ?). split_and!; simpl in *; try done. pose proof (zlen_nonneg (encA a)). lia. }
    destruct (Hk2 _ _ _ Hr1 Hk') as (Hb & -> & Hle2 & He2 & Hf).
    rewrite (Hpa _ _ Ha Hb). simpl in *. rewrite zlen_app, Z.add_assoc. split_and!; try done.
    by rewrite He, He2, app_assoc.
Qed.

Lemma exact_skip {B} final (m : M Reader E unit) (k : M Reader E B) e encB PB :
  exact_codec m (fun _ => e) (fun _ => True) -> exact_at final k encB PB ->
  exact_at final (m ;! k) (fun b => e ++ encB b) PB.
Proof.
  intros Hm Hk. pose proof (exact_bind final m (fun _ => k) (fun _ => tt) _ _ _ _ Hm (fun _ _ => Hk)
    ltac:(by intros [])) as [H1 H2].
  split; [intros b Hb; by apply H1|]. intros r b r' Hr Hb. destruct (H2 _ _ _ Hr Hb) as ([_ ?] & ?). done.
Qed.

Lemma exact_iff {A} final (m : M Reader E A) enc enc' (P P' : A -> Prop) :
  exact_at final m enc P -> (forall a, P' a <-> P a) -> (forall a, P a -> enc a = enc' a) ->
  exact_at final m enc' P'.
Proof.
  intros [H1 H2] HP He. split.
  - intros a Ha%HP pre post. rewrite <- (He _ Ha). by apply H1.
  - intros r a r' Hr Hm. destruct (H2 _ _ _ Hr Hm) as (Ha & ?). rewrite HP, <- (He _ Ha). done.
Qed.

Lemma exact_lift {A} (x : result A E) : exact_at false (lift x) (fun _ => []) (fun a => x = Ok a).
Proof.
  split.
  - intros a -> pre post _ _. unfold lift. rewrite zlen_nil, Z.add_0_r. done.
  - intros r a r' (Hr1 & Hr2 & Hr3) [= -> <-]. rewrite zlen_nil, Z.add_0_r. destruct r. simpl in *. split_and!; try done. lia.
Qed.

Lemma exact_ret {A} (v : A) : exact_at (E := E) false (ret v) (fun _ => []) (fun a => a = v).
Proof.
  destruct (exact_lift (Ok v)) as [H1 H2]. split; [intros a ->; by apply H1|].
  intros r a r' Hr Ha. destruct (H2 r a r' Hr Ha) as ([= ->] & ?). done.
Qed.

Lemma exact_finished {A} f (x : result A E) :
  exact_at true (finished f ;! lift x) (fun _ => []) (fun a => x = Ok a).
Proof.
  split.
  - intros a -> pre post Hpost _. rewrite Hpost by done. unfold bind, finished, finish, lift. simpl.
    rewrite zlen_app, zlen_nil, !Z.add_0_r, Z.eqb_refl. done.
  - intros r a r' (Hr1 & Hr2 & Hr3). unfold bind, finished, finish, lift.
    destruct (Z.eqb_spec (offset r) (zlen (input r))); [|done]. intros [= -> <-].
    rewrite zlen_nil, Z.add_0_r. destruct r. simpl in *. split_and!; try done. lia.
Qed.

Lemma exact_checked {A} (c : result unit E) (v : A) :
  exact_at false (lift c ;! ret v) (fun _ => []) (fun a => c = Ok tt /\ a = v).
Proof.
  pose proof (exact_lift (let? _ := c in Ok v)) as H. unfold bind, lift in *. destruct c as [[]|e].
  - eapply exact_iff; [apply exact_ret| |done]. intros a. naive_solver.
  - split; [by intros a [[=] _]|by intros ? ? ? ? [=]].
Qed.

Lemma exact_finished_checked {A} f (c : result unit E) (v : A) :
  exact_at true (finished f ;! lift c ;! ret v) (fun _ => []) (fun a => c = Ok tt /\ a = v).
Proof.
  pose proof (exact_finished f (let? _ := c in Ok v)) as H. destruct c as [[]|e].
  - eapply exact_iff; [exact H| |done]. intros a. naive_solver.
  - split; [by intros a [[=] _]|]. intros r a r' _ H'. unfold bind, lift, finished in H'.
    by destruct (map_err f (finish r)).
Qed.

(** Checks of the value alone after the end of the payload. *)
Lemma exact_finished_then {A} f (k : M Reader E A) P :
  exact_at false k (fun _ => []) P -> exact_at true (finished f ;! k) (fun _ => []) P.
Proof.
  intros [H1 H2]. split.
  - intros a Ha pre post Hpost Hl. specialize (H1 a Ha pre post (fun H => False_ind _ (diff_false_true H)) Hl).
    rewrite Hpost in * by done. unfold bind, finished, finish. simpl in *.
    rewrite zlen_app, zlen_nil, !Z.add_0_r, Z.eqb_refl in *. exact H1.
  - intros r a r' Hr. unfold bind, finished, finish. destruct (Z.eqb_spec (offset r) (zlen (input r))) as [He|]; [|done].
    simpl. intros Hk. destruct (H2 r a r' Hr Hk) as (? & -> & ? & ? & _). simpl in *. rewrite zlen_nil in *.
    split_and!; try done. lia.
Qed.

Lemma exact_if {A} final (c : bool) e (k : M Reader E A) enc P :
  (c = false -> exact_at final k enc P) ->
  exact_at final (if c then fail e else k) enc (fun a => c = false /\ P a).
Proof.
  intros Hk. destruct c; [split|].
  - by intros a [? _].
  - by intros r a r' _ [=].
  - destruct (Hk eq_refl) as [H1 H2]. split; [intros a [_ ?]; by apply H1|].
    intros r a r' Hr Hm. destruct (H2 _ _ _ Hr Hm) as (? & ?). done.
Qed.

Lemma exact_lift_bind {A B} final (x : result A E) (k : A -> M Reader E B) enc (P : A -> B -> Prop) :
  (forall a, x = Ok a -> exact_at final (k a) enc (P a)) ->
  exact_at final (let! a := lift x in k a) enc (fun b => exists a, x = Ok a /\ P a b).
Proof.
  intros Hk. unfold bind, lift. destruct x as [a|e]; [|split; [by intros b (a & [=] & _)|by intros ? ? ? ? [=]]].
  destruct (Hk a eq_refl) as [H1 H2]. split.
  - intros b (a' & [= <-] & Hb). by apply H1.
  - intros r b r' Hr Hb. destruct (H2 r b r' Hr Hb) as (? & ?). eauto.
Qed.

Lemma exact_mmap_err {F A} (f : F -> E) final (m : M Reader F A) enc P :
  exact_at final m enc P -> exact_at final (mmap_err f m) enc P.
Proof.
  intros [H1 H2]. split.
  - intros a Ha pre post Hp Hl. unfold mmap_err. by rewrite (H1 a Ha pre post Hp Hl).
  - intros r a r' Hr. unfold mmap_err. destruct (m r) as [[x|e] r1] eqn:Hm; [|done].
    intros [= -> ->]. by apply H2.
Qed.

Lemma exact_to_decode {A} (m : M Reader E A) enc P :
  exact_at true m enc P -> exact_decode (fun i => fst (m (reader_new i))) enc P.
Proof.
  intros [H1 H2]. split.
  - intros i v Hb Hl Hm. destruct (m (reader_new i)) as [res r'] eqn:Hr. simpl in Hm. subst res.
    destruct (H2 (reader_new i) v r') as (Hv & _ & _ & He & Hf); [|done|].
    { split_and!; simpl; try done. pose proof (zlen_nonneg i). lia. }
    split; [done|]. rewrite Hf in He by done. unfold reader_new in He. simpl in He.
    change (zdrop 0 i) with i in He. rewrite He. unfold zdrop at 1, zlen. rewrite Nat2Z.id, drop_all. by rewrite app_nil_r.
  - intros v Hv Hl. specialize (H1 v Hv [] [] (fun _ => eq_refl)). simpl in H1. rewrite app_nil_r in H1.
    unfold reader_new. change 0 with (zlen (@nil Z)). by rewrite H1.
Qed.
End exact.

(** [for _ in 0..count { items.push(read()?) }]. *)
Fixpoint read_each {E A} (count : nat) (m : M Reader E A) : M Reader E (list A) :=
  match count with
  | O => ret []
  | S n => let! x := m in let! rest := read_each n m in ret (x :: rest)
  end.

Lemma exact_each {E A} (count : nat) (m : M Reader E A) enc P `{Inhabited A} :
  exact_codec m enc P ->
  exact_codec (read_each count m) (fun l => concat (map enc l)) (fun l => length l = count /\ Forall P l).
Proof.
  intros Hm. apply exact_codec_at. induction count as [|n IH]; simpl.
  - eapply exact_iff; [apply (exact_ret [])| |by intros l ->].
    intros l. split; [intros [Hl _]; by destruct l|by intros ->].
  - eapply exact_iff.
    + apply (exact_bind false m _ (fun l => match l with x :: _ => x | [] => inhabitant end) enc P
        (fun _ l => concat (map enc (tl l))) (fun x l => exists rest, l = x :: rest /\ length rest = n /\ Forall P rest) Hm).
      * intros x Hx. eapply exact_iff.
        -- apply (exact_bind false _ _ (fun l => tl l) _ _ (fun _ _ => []) (fun rest l => l = x :: rest)
             (proj2 (exact_codec_at _ _ _) IH)); [|by intros rest l _ ->].
           intros rest Hrest. apply exact_ret.
        -- intros l. simpl. split.
           ++ intros (rest & -> & ? & ?). done.
           ++ intros ((? & ?) & ->). by eexists.
        -- intros l _. simpl. by rewrite app_nil_r.
      * by intros x l _ (rest & -> & _).
    + intros l. split.
      * intros [Hl Hf]. destruct l as [|x rest]; [done|]. apply Forall_cons in Hf as [Hx Hf]. simpl in *.
        split; [done|]. exists rest. split_and!; [done|lia|done].
      * intros [Hx (rest & -> & Hl & Hf)]. simpl in *. split; [lia|]. by constructor.
    + by intros l (Hx & rest & -> & _).
Qed.

(** ** Heads *)

Lemma exact_typed_head major : 0 <= major <= 7 -> exact_codec (typed_head major) (head [] major) is_u64.
Proof. intros Hm. split; [intros v Hv; by apply reads_typed_head|apply typed_head_parses]. Qed.

(** A head that must carry one value. *)
Lemma exact_head_is major n : 0 <= major <= 7 -> is_u64 n ->
  exact_at false (let! v := typed_head major in if v =? n then ret tt else fail WrongType)
    (fun _ => head [] major n) (fun _ => True).
Proof.
  intros Hm Hn. split.
  - intros [] _ pre post _ Hl. rewrite (bind_ok _ _ _ _ _ (reads_typed_head _ _ Hm Hn pre post Hl)). by rewrite Z.eqb_refl.
  - intros r [] r' Hr (v & r1 & Hv & H)%bind_ok_inv. destruct (Z.eqb_spec v n) as [->|]; [|done].
    injection H as <-. apply typed_head_parses in Hv as (_ & ? & ? & ?); done.
Qed.

Lemma exact_fixed_bytes n : is_u64 n -> n <= i64_max ->
  exact_codec (fixed_bytes n) (bytes []) (fun bs => byte_list bs /\ zlen bs = n).
Proof.
  intros Hn Hmax. split.
  - intros bs [Hb <-]. unfold fixed_bytes, bytes. eapply reads_bind; [apply reads_length; [unfold BYTES; lia|done|lia]|].
    rewrite Z.eqb_refl. apply reads_fixed.
  - intros r bs r' Hr (m & r1 & Hm & H)%bind_ok_inv. destruct (Z.eqb_spec m n) as [->|]; [|done]. simpl in H.
    apply bind_ok_inv in H as (bs' & r2 & Ht & H).
    destruct (payload_parses _ _ _ _ _ _ _ Hr Hm Ht) as (Hb & Hz & Hle & Hp).
    rewrite Hz, Z.eqb_refl in H. injection H as <- <-. unfold bytes. by rewrite Hz.
Qed.

(** An optional item, [null] standing for its absence. *)
Definition optional {E A} (f : Error -> E) (m : M Reader E A) : M Reader E (option A) := fun r =>
  if peek_null r then (mmap_err f reader_null ;! ret None) r else (let! v := m in ret (Some v)) r.

Definition optional_bytes {A} (enc : A -> list Z) (o : option A) : list Z :=
  match o with Some v => enc v | None => [NULL] end.

Lemma exact_optional {E A} f (m : M Reader E A) enc P :
  exact_codec m enc P -> (forall v, P v -> exists b rest, enc v = b :: rest /\ b <> NULL) ->
  exact_codec (optional f m) (optional_bytes enc) (fun o => match o with Some v => P v | None => True end).
Proof.
  intros [H1 H2] Hh. split.
  - intros [v|] Hv pre post Hl; unfold optional, peek_null; simpl in *.
    + destruct (Hh v Hv) as (b & rest & He & Hb). rewrite bool_decide_eq_false_2.
      * rewrite (bind_ok _ _ _ _ _ (H1 v Hv pre post Hl)). done.
      * unfold zget, zlen. rewrite (proj2 (Z.leb_le 0 _)) by lia. rewrite Nat2Z.id, lookup_app_r, Nat.sub_diag, He by done.
        intros [= ->]. done.
    + rewrite bool_decide_eq_true_2.
      * rewrite (bind_ok _ _ _ tt (mkReader (pre ++ NULL :: post) (zlen pre + 1))); [done|].
        unfold mmap_err, reader_null. change (NULL :: post) with ([NULL] ++ post).
        rewrite (bind_ok _ _ _ _ _ (reads_byte NULL pre post Hl)). done.
      * unfold zget, zlen. rewrite (proj2 (Z.leb_le 0 _)) by lia. by rewrite Nat2Z.id, lookup_app_r, Nat.sub_diag.
  - intros r o r' Hr. unfold optional. destruct (peek_null r) eqn:Hp.
    + intros (u & r1 & H & [= <- <-])%bind_ok_inv. unfold mmap_err in H.
      destruct (reader_null r) as [[[]|] r2] eqn:Hn; [|done]. injection H as _ <-.
      unfold reader_null in Hn. apply bind_ok_inv in Hn as (b & r3 & Hb & Hn).
      destruct (Z.eqb_spec b NULL) as [->|]; [|done]. injection Hn as <-.
      apply read_byte_inv in Hb as (_ & -> & Hle & Hd); [|done]. done.
    + intros (v & r1 & H & [= <- <-])%bind_ok_inv. by apply H2.
Qed.

(** ** Walking a record decoder

    [codec_field f] reads the next item into field [f] of the record; the item's
    own exactness comes from the database [exact]. *)
Create HintDb exact discriminated.
#[export] Hint Constants Opaque : exact.

Lemma exact_codec_lift {E A} (x : result A E) : exact_codec (lift x) (fun _ => []) (fun a => x = Ok a).
Proof. apply exact_codec_at, exact_lift. Qed.
#[export] Hint Resolve exact_codec_lift : exact.
#[export] Hint Extern 3 (exact_codec (read_each _ _) _ _) => eapply exact_each; [apply _|solve [eauto with exact]] : exact.

Create Rewrite HintDb codec.
#[export] Hint Rewrite negb_false_iff Z.eqb_eq @try_from_ok : codec.

Ltac codec_skip := eapply exact_skip; [solve [eauto with exact]|].
Ltac codec_field f := eapply (exact_bind _ _ _ f); [solve [eauto with exact]|intros ? ?|].
(** A field that must hold the constant [c], in a decoder of [R]. *)
Ltac codec_const R c := codec_field (fun _ : R => c); [apply exact_if; intros _|].
Ltac codec_end := first [apply exact_finished_checked | apply exact_finished | apply exact_checked | apply exact_ret].
Ltac codec_simpl :=
  cbn beta in *; simpl in *; destruct_and?; autorewrite with codec in *; destruct_and?; simplify_eq/=;
  try match goal with H : _ = _ |- _ => injection H; clear H; intros; subst end.
Ltac codec_arith := first [done | progress unfold zlen in *; mlia | mlia].
Ltac codec_fields :=
  let b := fresh in intros ? b ? ?; destruct b; codec_simpl; codec_arith.
(** The conditions a walk collected against the ones wanted, where [bounds]
    gives what the validation function implies. *)
Ltac codec_conditions bounds :=
  let v := fresh in intros v; destruct v; split; intros; codec_simpl;
  repeat match goal with H : _ = Ok tt |- _ => let Hb := fresh in pose proof (bounds _ H) as Hb; revert H end;
  intros; codec_simpl; split_and?; try codec_arith.
Ltac codec_bytes :=
  let v := fresh in intros v ?; destruct v; codec_simpl; rewrite ?app_nil_r; done.
