(* ===== verification/Codec.v ===== *)
(** * Varints, frame envelopes, SETTINGS and HELLO
    ([crates/vot-codec/src/lib.rs] and its generated registries)

    Encoders append to an output vector and are [M (list Z) E] computations;
    decoders are pure functions of the input slice.  The registry the macro
    [frame_registry!] expands is one list of rows, and the generated lookups
    are searches in it. *)

From S2P Require Import Prelude BTree.

(** ** Constants and generated registries *)

Definition MAX_QUIC_VARINT : Z := 2 ^ 62 - 1.
Definition HARD_MAX_FRAME_PAYLOAD : Z := 16 * 1024 * 1024.
Definition DEFAULT_MAX_UNKNOWN_PAYLOAD : Z := 1024 * 1024.
Definition DEFAULT_MAX_FRAMES_PER_BATCH : Z := 4096.
Definition MAX_SETTINGS_PER_FRAME : Z := 128.
Definition MAX_EXTENSIONS_PER_HELLO : Z := 256.
Definition DRAFT_REVISION : Z := 5.

(** [setting_id], with the registered defaults and inclusive bounds. *)
Record SettingRow := mkSettingRow { sr_id : Z; sr_default : Z; sr_low : Z; sr_high : Z }.
Definition MAX_CONTROL_FRAME_PAYLOAD := mkSettingRow 1 1048576 1024 16777216.
Definition MAX_DATA_RECORD_PAYLOAD := mkSettingRow 3 262144 65536 262144.
Definition MAX_MANIFEST_PAGE_PAYLOAD := mkSettingRow 5 1048576 65536 1048576.
Definition RELIABLE_LANE_LIMIT := mkSettingRow 7 16 1 256.
Definition IDLE_TIMEOUT_MS := mkSettingRow 9 90000 1000 600000.

Definition DATAGRAM_FEC : Z := 1.

(** One registered frame: identifier, payload ceiling, whether it needs an
    authenticated session, and the extension it needs. *)
Record FrameRow := mkFrameRow {
  fr_type : Z; fr_limit : Z; fr_auth : bool; fr_extension : option Z }.

Definition frame_registry : list FrameRow :=
  [ mkFrameRow 0x01 (4 * 1024) false None;
    mkFrameRow 0x03 (16 * 1024) false None;
    mkFrameRow 0x05 0 false None;
    mkFrameRow 0x07 (64 * 1024) false None;
    mkFrameRow 0x09 (64 * 1024) false None;
    mkFrameRow 0x0b (64 * 1024) false None;
    mkFrameRow 0x0d (64 * 1024) false None;
    mkFrameRow 0x21 (1024 * 1024) true None;
    mkFrameRow 0x23 (64 * 1024) true None;
    mkFrameRow 0x25 (1024 * 1024) true None;
    mkFrameRow 0x27 (1024 * 1024) true None;
    mkFrameRow 0x29 (256 * 1024) true None;
    mkFrameRow 0x2b (4 * 1024 * 1024) true None;
    mkFrameRow 0x2d (1024 * 1024) true None;
    mkFrameRow 0x2f HARD_MAX_FRAME_PAYLOAD true None;
    mkFrameRow 0x31 (256 * 1024) true None;
    mkFrameRow 0x33 (64 * 1024) true None;
    mkFrameRow 0x40 (4 * 1024) true None;
    mkFrameRow 0x43 (64 * 1024) true None;
    mkFrameRow 0x45 (64 * 1024) true None;
    mkFrameRow 0x47 (64 * 1024) true None;
    mkFrameRow 0x49 (64 * 1024) true None;
    mkFrameRow 0x60 (4 * 1024) true (Some DATAGRAM_FEC);
    mkFrameRow 0x62 (64 * 1024) true (Some DATAGRAM_FEC);
    mkFrameRow 0x64 (64 * 1024) true (Some DATAGRAM_FEC);
    mkFrameRow 0x66 (64 * 1024) true (Some DATAGRAM_FEC);
    mkFrameRow 0x68 (64 * 1024) true (Some DATAGRAM_FEC);
    mkFrameRow 0x80 0 false None;
    mkFrameRow 0x83 (4 * 1024) true None;
    mkFrameRow 0x85 (64 * 1024) false None;
    mkFrameRow 0x86 (64 * 1024) true None;
    mkFrameRow 0x89 (64 * 1024) true None ].

Definition frame_row (frame_type : Z) : option FrameRow :=
  List.find (fun row => fr_type row =? frame_type) frame_registry.

Definition registered_payload_limit (frame_type : Z) : option Z :=
  fr_limit <$> frame_row frame_type.
Definition required_extension (frame_type : Z) : option Z :=
  match frame_row frame_type with Some row => fr_extension row | None => None end.
Definition requires_authentication (frame_type : Z) : bool :=
  match frame_row frame_type with Some row => fr_auth row | None => true end.

(** ** Errors *)

Inductive DecodeError :=
| Incomplete (needed available : Z)
| ValueOutOfRange (value : Z)
| InvalidLimits
| LengthOverflow (length : Z)
| FrameTooLarge (frame_type length limit : Z)
| UnknownCritical (frame_type : Z)
| TooManyFrames (limit : Z).

Record DecodeLimits := mkLimits { max_unknown_payload : Z; max_frames : Z }.

Definition default_limits : DecodeLimits :=
  mkLimits DEFAULT_MAX_UNKNOWN_PAYLOAD DEFAULT_MAX_FRAMES_PER_BATCH.

(** [DecodeError::protocol_code], with the registered codes. *)
Definition protocol_code (e : DecodeError) : Z :=
  match e with
  | FrameTooLarge _ _ _ => 0x0103
  | UnknownCritical _ => 0x0101
  | TooManyFrames _ => 0x0502
  | Incomplete _ _ | ValueOutOfRange _ | InvalidLimits | LengthOverflow _ => 0x0102
  end.

(** ** Varints *)

Definition encode_varint (value : Z) : M (list Z) DecodeError unit := fun output =>
  if MAX_QUIC_VARINT <? value then (Err (ValueOutOfRange value), output) else
  if value <? 2 ^ 6 then (Ok tt, output ++ [value]) else
  if value <? 2 ^ 14 then (Ok tt, output ++ to_be_bytes 2 (value + 0x4000)) else
  if value <? 2 ^ 30 then (Ok tt, output ++ to_be_bytes 4 (value + 0x80000000)) else
  (Ok tt, output ++ to_be_bytes 8 (value + 0xc000000000000000)).

(** [1 << (first >> 6)]. *)
Definition varint_width (first : Z) : Z := Z.shiftl 1 (Z.shiftr first 6).

Definition decode_varint (input : list Z) : result (Z * Z) DecodeError :=
  match input with
  | [] => Err (Incomplete 1 0)
  | first :: _ =>
      let width := varint_width first in
      if zlen input <? width then Err (Incomplete width (zlen input)) else
      Ok (foldl (fun value b => Z.shiftl value 8 mod 2 ^ 64 + b) (Z.land first 0x3f)
            (slice input 1 width), width)
  end.

(** ** Frame envelopes *)

Definition is_critical (frame_type : Z) : bool := Z.land frame_type 1 =? 1.
Definition is_grease (frame_type : Z) : bool :=
  (0x1f00 <=? frame_type) && (frame_type <=? 0x1ffe) && (Z.land frame_type 1 =? 0).
Definition is_known (frame_type : Z) : bool :=
  match registered_payload_limit frame_type with Some _ => true | None => false end.

Definition unwrap_or {A} (o : option A) (d : A) : A := match o with Some a => a | None => d end.

Definition encode_frame (frame_type : Z) (payload : list Z) : M (list Z) DecodeError unit :=
  let length := zlen payload in
  let limit := Z.min (unwrap_or (registered_payload_limit frame_type) DEFAULT_MAX_UNKNOWN_PAYLOAD)
                     HARD_MAX_FRAME_PAYLOAD in
  if limit <? length then fail (FrameTooLarge frame_type length limit) else
  let! _ := encode_varint frame_type in
  let! _ := encode_varint length in
  fun output => (Ok tt, output ++ payload).

Record FrameEnvelope := mkEnvelope {
  frame_type : Z; payload_length : Z; header_length : Z; total_length : Z; skipped : bool }.

Definition validate_limits (limits : DecodeLimits) : result unit DecodeError :=
  if (HARD_MAX_FRAME_PAYLOAD <? max_unknown_payload limits) || (max_frames limits =? 0)
  then Err InvalidLimits else Ok tt.

Definition parse_envelope_prefix (input : list Z) (limits : DecodeLimits) :
    result FrameEnvelope DecodeError :=
  let? _ := validate_limits limits in
  let? (ft, type_width) := decode_varint input in
  let? (length, length_width) := decode_varint (zdrop type_width input) in
  let known_limit := registered_payload_limit ft in
  let limit := Z.min (unwrap_or known_limit (max_unknown_payload limits)) HARD_MAX_FRAME_PAYLOAD in
  if limit <? length then Err (FrameTooLarge ft length limit) else
  if negb (is_known ft) && is_critical ft then Err (UnknownCritical ft) else
  let? header := ok_or (checked_add type_width length_width) (LengthOverflow length) in
  let? total := ok_or (checked_add header length) (LengthOverflow length) in
  Ok (mkEnvelope ft length header total (negb (is_known ft) || is_grease ft)).

Definition peek_envelope (input : list Z) (limits : DecodeLimits) :
    result FrameEnvelope DecodeError := parse_envelope_prefix input limits.

Inductive DecodedFrame :=
| Known (frame_type : Z) (payload : list Z)
| SkippedOptional (frame_type : Z) (payload_length : Z).

Definition decode_one (input : list Z) (limits : DecodeLimits) :
    result (DecodedFrame * Z) DecodeError :=
  let? envelope := parse_envelope_prefix input limits in
  if zlen input <? total_length envelope
  then Err (Incomplete (total_length envelope) (zlen input)) else
  if skipped envelope
  then Ok (SkippedOptional (frame_type envelope) (payload_length envelope), total_length envelope)
  else Ok (Known (frame_type envelope)
             (slice input (header_length envelope) (total_length envelope)),
           total_length envelope).

(** The [while] loop of [decode_all], on what remains of the input; the fuel
    bounds its iterations, [None] only when it runs out. *)
Fixpoint decode_all_loop (fuel : nat) (input : list Z) (limits : DecodeLimits)
    (offset : Z) (frames : list DecodedFrame) : option (result (list DecodedFrame) DecodeError) :=
  match fuel with
  | O => None
  | S fuel' =>
      if offset <? zlen input then
        if zlen frames =? max_frames limits then Some (Err (TooManyFrames (max_frames limits))) else
        match decode_one (zdrop offset input) limits with
        | Err e => Some (Err e)
        | Ok (frame, consumed) =>
            match checked_add offset consumed with
            | None => Some (Err (LengthOverflow consumed))
            | Some offset' => decode_all_loop fuel' input limits offset' (frames ++ [frame])
            end
        end
      else Some (Ok frames)
  end.

Definition decode_all (input : list Z) (limits : DecodeLimits) :
    option (result (list DecodedFrame) DecodeError) :=
  match validate_limits limits with
  | Err e => Some (Err e)
  | Ok _ => decode_all_loop (S (length input)) input limits 0 []
  end.

(** ** SETTINGS *)

Record Settings := mkSettings {
  max_control_frame_payload : Z;
  max_data_record_payload : Z;
  max_manifest_page_payload : Z;
  reliable_lane_limit : Z;
  idle_timeout_ms : Z }.

Definition default_settings : Settings :=
  mkSettings (sr_default MAX_CONTROL_FRAME_PAYLOAD) (sr_default MAX_DATA_RECORD_PAYLOAD)
    (sr_default MAX_MANIFEST_PAGE_PAYLOAD) (sr_default RELIABLE_LANE_LIMIT)
    (sr_default IDLE_TIMEOUT_MS).

Definition advertised (s : Settings) : list (Z * Z) :=
  [ (sr_id MAX_CONTROL_FRAME_PAYLOAD, max_control_frame_payload s);
    (sr_id MAX_DATA_RECORD_PAYLOAD, max_data_record_payload s);
    (sr_id MAX_MANIFEST_PAGE_PAYLOAD, max_manifest_page_payload s);
    (sr_id RELIABLE_LANE_LIMIT, reliable_lane_limit s);
    (sr_id IDLE_TIMEOUT_MS, idle_timeout_ms s) ].

Inductive SettingsError :=
| SE_Malformed (e : DecodeError)
| SE_Duplicate (setting : Z)
| SE_UnknownCritical (setting : Z)
| SE_InvalidValue (setting value : Z)
| SE_TooMany (limit : Z).

(** [SettingsError::protocol_code]. *)
Definition settings_protocol_code (e : SettingsError) : Z :=
  match e with
  | SE_Duplicate _ => 0x0106
  | SE_InvalidValue _ _ | SE_UnknownCritical _ => 0x0105
  | SE_TooMany _ => 0x0502
  | SE_Malformed e => protocol_code e
  end.

Definition setting_range (identifier : Z) : option (Z * Z) :=
  let bounds row := Some (sr_low row, sr_high row) in
  if identifier =? sr_id MAX_CONTROL_FRAME_PAYLOAD then bounds MAX_CONTROL_FRAME_PAYLOAD else
  if identifier =? sr_id MAX_DATA_RECORD_PAYLOAD then bounds MAX_DATA_RECORD_PAYLOAD else
  if identifier =? sr_id MAX_MANIFEST_PAGE_PAYLOAD then bounds MAX_MANIFEST_PAGE_PAYLOAD else
  if identifier =? sr_id RELIABLE_LANE_LIMIT then bounds RELIABLE_LANE_LIMIT else
  if identifier =? sr_id IDLE_TIMEOUT_MS then bounds IDLE_TIMEOUT_MS else None.

(** [*setting_field(settings, identifier)? = value]. *)
Definition setting_field_set (s : Settings) (identifier value : Z) : Settings :=
  let '(mkSettings a b c d e) := s in
  if identifier =? sr_id MAX_CONTROL_FRAME_PAYLOAD then mkSettings value b c d e else
  if identifier =? sr_id MAX_DATA_RECORD_PAYLOAD then mkSettings a value c d e else
  if identifier =? sr_id MAX_MANIFEST_PAGE_PAYLOAD then mkSettings a b value d e else
  if identifier =? sr_id RELIABLE_LANE_LIMIT then mkSettings a b c value e else
  if identifier =? sr_id IDLE_TIMEOUT_MS then mkSettings a b c d value else s.

Definition setting_in_range (identifier value : Z) : bool :=
  match setting_range identifier with
  | Some (low, high) => (low <=? value) && (value <=? high)
  | None => false
  end.

Definition apply_setting (s : Settings) (identifier value : Z) : result Settings SettingsError :=
  if negb (setting_in_range identifier value) then
    match setting_range identifier with
    | Some _ => Err (SE_InvalidValue identifier value)
    | None => if is_critical identifier then Err (SE_UnknownCritical identifier) else Ok s
    end
  else Ok (setting_field_set s identifier value).

(** The [while] loop of [decode_settings]; [None] only when the fuel runs out. *)
Fixpoint decode_settings_loop (fuel : nat) (payload : list Z) (offset : Z)
    (seen : list Z) (s : Settings) : option (result Settings SettingsError) :=
  match fuel with
  | O => None
  | S fuel' =>
      if offset <? zlen payload then
        if zlen seen =? MAX_SETTINGS_PER_FRAME
        then Some (Err (SE_TooMany MAX_SETTINGS_PER_FRAME)) else
        match decode_varint (zdrop offset payload) with
        | Err e => Some (Err (SE_Malformed e))
        | Ok (identifier, identifier_width) =>
            match checked_add offset identifier_width with
            | None => Some (Err (SE_Malformed (LengthOverflow u64_max)))
            | Some offset1 =>
                match decode_varint (zdrop offset1 payload) with
                | Err e => Some (Err (SE_Malformed e))
                | Ok (value, value_width) =>
                    match checked_add offset1 value_width with
                    | None => Some (Err (SE_Malformed (LengthOverflow u64_max)))
                    | Some offset2 =>
                        if set_contains identifier seen
                        then Some (Err (SE_Duplicate identifier)) else
                        match apply_setting s identifier value with
                        | Err e => Some (Err e)
                        | Ok s' => decode_settings_loop fuel' payload offset2
                                     (set_insert identifier seen) s'
                        end
                    end
                end
            end
        end
      else Some (Ok s)
  end.

Definition decode_settings (payload : list Z) : option (result Settings SettingsError) :=
  decode_settings_loop (S (length payload)) payload 0 [] default_settings.

(** [encode_varint(..).map_err(f)]. *)

Fixpoint encode_settings_rows (rows : list (Z * Z)) : M (list Z) SettingsError unit :=
  match rows with
  | [] => ret tt
  | (identifier, value) :: rest =>
      if negb (setting_in_range identifier value) then fail (SE_InvalidValue identifier value) else
      let! _ := mmap_err SE_Malformed (encode_varint identifier) in
      let! _ := mmap_err SE_Malformed (encode_varint value) in
      encode_settings_rows rest
  end.

Definition encode_settings (s : Settings) : M (list Z) SettingsError unit :=
  encode_settings_rows (advertised s).

(** ** HELLO *)

Inductive EndpointRole := Client | Server.
#[export] Instance EndpointRole_eq_dec : EqDecision EndpointRole.
Proof. solve_decision. Defined.
Definition role_value (r : EndpointRole) : Z := match r with Client => 0 | Server => 1 end.

Record Hello := mkHello {
  draft_revision : Z; endpoint_role : EndpointRole; extensions : list Z }.

Inductive HelloError :=
| HE_Malformed (e : DecodeError)
| HE_UnsupportedRevision (revision : Z)
| HE_RoleMismatch (expected actual : EndpointRole)
| HE_DuplicateExtension (extension : Z)
| HE_TooManyExtensions (count : Z)
| HE_TrailingBytes.

(** [HelloError::protocol_code]. *)
Definition hello_protocol_code (e : HelloError) : Z :=
  match e with
  | HE_UnsupportedRevision _ => 0x0104
  | HE_TooManyExtensions _ => 0x0502
  | HE_Malformed _ | HE_RoleMismatch _ _ | HE_DuplicateExtension _ | HE_TrailingBytes => 0x0102
  end.

(** [payload.get(offset..).unwrap_or_default()]. *)
Definition tail_or_empty (payload : list Z) (offset : Z) : list Z :=
  if offset <=? zlen payload then zdrop offset payload else [].

Definition hello_varint (payload : list Z) (offset : Z) : result (Z * Z) HelloError :=
  let? (value, width) := map_err HE_Malformed (decode_varint (tail_or_empty payload offset)) in
  let? offset' := ok_or (checked_add offset width) (HE_Malformed (LengthOverflow u64_max)) in
  Ok (value, offset').

Fixpoint hello_extensions (count : nat) (payload : list Z) (offset : Z) (exts : list Z) :
    result (list Z * Z) HelloError :=
  match count with
  | O => Ok (exts, offset)
  | S count' =>
      let? (extension, offset') := hello_varint payload offset in
      if set_contains extension exts then Err (HE_DuplicateExtension extension) else
      hello_extensions count' payload offset' (set_insert extension exts)
  end.

Definition decode_hello (payload : list Z) (expected_role : EndpointRole) :
    result Hello HelloError :=
  let? (revision, offset) := hello_varint payload 0 in
  if negb (revision =? DRAFT_REVISION) then Err (HE_UnsupportedRevision revision) else
  let? (role_code, offset) := hello_varint payload offset in
  let? role := (if role_code =? 0 then Ok Client else if role_code =? 1 then Ok Server else
                Err (HE_Malformed (ValueOutOfRange u64_max))) in
  if negb (bool_decide (role = expected_role)) then Err (HE_RoleMismatch expected_role role) else
  let? (extension_count, offset) := hello_varint payload offset in
  if MAX_EXTENSIONS_PER_HELLO <? extension_count
  then Err (HE_TooManyExtensions extension_count) else
  let? (exts, offset) := hello_extensions (Z.to_nat extension_count) payload offset [] in
  if negb (offset =? zlen payload) then Err HE_TrailingBytes else
  Ok (mkHello revision role exts).

Fixpoint write_varints (values : list Z) : M (list Z) HelloError unit :=
  match values with
  | [] => ret tt
  | v :: rest => let! _ := mmap_err HE_Malformed (encode_varint v) in write_varints rest
  end.

Definition encode_hello (h : Hello) : M (list Z) HelloError unit :=
  let count := zlen (extensions h) in
  if MAX_EXTENSIONS_PER_HELLO <? count then fail (HE_TooManyExtensions count) else
  let! _ := mmap_err HE_Malformed (encode_varint (draft_revision h)) in
  let! _ := mmap_err HE_Malformed (encode_varint (role_value (endpoint_role h))) in
  let! _ := mmap_err HE_Malformed (encode_varint count) in
  write_varints (extensions h).

(** ** Operations a capability names *)

Inductive Operation := Publish | ReadManifest | ReadRanges.

Definition operation_identifier (o : Operation) : Z :=
  match o with Publish => 1 | ReadManifest => 2 | ReadRanges => 3 end.

Definition operation_try_from (identifier : Z) : option Operation :=
  if identifier =? 1 then Some Publish else
  if identifier =? 2 then Some ReadManifest else
  if identifier =? 3 then Some ReadRanges else None.

Definition REGISTERED_OPERATIONS : list Z := [1; 2; 3].
Definition REGISTERED_LIMITS : list Z := [1; 2; 3].
Definition is_registered_operation (identifier : Z) : bool :=
  bool_decide (identifier ∈ REGISTERED_OPERATIONS).
Definition is_registered_limit (identifier : Z) : bool :=
  bool_decide (identifier ∈ REGISTERED_LIMITS).

(** ** Varint lemmas *)

(** The bytes [encode_varint] appends. *)
Definition varint_bytes (value : Z) : list Z :=
  if value <? 2 ^ 6 then [value] else
  if value <? 2 ^ 14 then to_be_bytes 2 (value + 0x4000) else
  if value <? 2 ^ 30 then to_be_bytes 4 (value + 0x80000000) else
  to_be_bytes 8 (value + 0xc000000000000000).

Definition is_varint (value : Z) : Prop := 0 <= value <= MAX_QUIC_VARINT.

Lemma writes_varint value : is_varint value -> writes (encode_varint value) (varint_bytes value).
Proof.
  intros Hv out. unfold encode_varint, varint_bytes, is_varint in *.
  destruct (Z.ltb_spec MAX_QUIC_VARINT value); [lia|]. by zcases.
Qed.

Lemma varint_first tag first :
  0 <= tag -> 64 * tag <= first < 64 * tag + 64 ->
  varint_width first = 2 ^ tag /\ Z.land first 0x3f = first - 64 * tag.
Proof.
  intros Ht Hf. unfold varint_width. change 0x3f with (Z.ones 6).
  rewrite Z.shiftr_div_pow2, Z.shiftl_1_l, Z.land_ones by lia. change (2 ^ 6) with 64.
  assert (first / 64 = tag) as -> by (symmetry; apply Z.div_unique with (first - 64 * tag); lia).
  split; [done|]. symmetry. apply Z.mod_unique with tag; lia.
Qed.

(** The decoding loop does not overflow and is the big-endian value. *)
Lemma varint_fold bs a :
  byte_list bs -> 0 <= a -> (a + 1) * 256 ^ zlen bs <= 2 ^ 64 ->
  foldl (fun value b => Z.shiftl value 8 mod 2 ^ 64 + b) a bs = a * 256 ^ zlen bs + from_be_bytes bs.
Proof.
  revert a. induction bs as [|b bs IH]; intros a Hbs Ha Hov.
  - unfold zlen, from_be_bytes. simpl. lia.
  - inversion_clear Hbs as [|? ? Hb Hbs']. pose proof (zlen_nonneg bs) as Hn.
    rewrite zlen_cons, Z.pow_add_r, Z.pow_1_r in Hov by lia.
    assert (1 <= 256 ^ zlen bs) by (apply Z.pow_le_mono_r with (a := 256) in Hn; lia).
    simpl foldl. rewrite Z.shiftl_mul_pow2 by lia. change (2 ^ 8) with 256.
    rewrite Z.mod_small by nia.
    unfold is_u8, u8_max in Hb. rewrite IH; [|done|lia|nia].
    rewrite from_be_bytes_cons, zlen_cons, Z.pow_add_r, Z.pow_1_r by lia. lia.
Qed.

Lemma decode_tagged tag (w : nat) value post :
  0 <= tag -> Z.of_nat (S w) = 2 ^ tag -> Z.of_nat w <= 7 ->
  0 <= value < 64 * 256 ^ Z.of_nat w -> tag <= 3 ->
  decode_varint (to_be_bytes (S w) (value + tag * 64 * 256 ^ Z.of_nat w) ++ post) =
  Ok (value, 2 ^ tag).
Proof.
  intros Ht Hw Hw7 Hv Ht3. set (P := 256 ^ Z.of_nat w) in *.
  assert (0 < P) by (apply Z.pow_pos_nonneg; lia).
  rewrite to_be_bytes_cons. fold P.
  assert ((value + tag * 64 * P) / P = value / P + 64 * tag) as -> by (rewrite Z.div_add by lia; lia).
  assert (0 <= value / P < 64) as Hq
    by (split; [apply Z.div_pos; lia | apply Z.div_lt_upper_bound; lia]).
  rewrite (Z.mod_small (value / P + 64 * tag) 256) by lia.
  unfold decode_varint. rewrite <- app_comm_cons.
  destruct (varint_first tag (value / P + 64 * tag)) as [-> ->]; [lia..|].
  rewrite zlen_cons, zlen_app, zlen_to_be_bytes, <- Hw.
  pose proof (zlen_nonneg post).
  destruct (Z.ltb_spec (1 + (Z.of_nat w + zlen post)) (Z.of_nat (S w))); [lia|].
  do 2 f_equal.
  assert (slice (value / P + 64 * tag :: to_be_bytes w (value + tag * 64 * P) ++ post) 1
    (Z.of_nat (S w)) = to_be_bytes w (value + tag * 64 * P)) as ->.
  { pose proof (slice_app_mid [value / P + 64 * tag] (to_be_bytes w (value + tag * 64 * P)) post) as Hs.
    rewrite zlen_to_be_bytes in Hs. change (zlen [_]) with 1 in Hs.
    replace (Z.of_nat (S w)) with (1 + Z.of_nat w) by lia. exact Hs. }
  rewrite varint_fold, from_to_be_bytes_mod, zlen_to_be_bytes; fold P;
    [|apply to_be_bytes_byte_list|lia|].
  - rewrite Z.mod_add by lia. pose proof (Z.div_mod value P). lia.
  - rewrite zlen_to_be_bytes. fold P.
    assert (P <= 256 ^ 7) by (apply Z.pow_le_mono_r; lia). nia.
Qed.

Lemma decode_varint_bytes value post :
  is_varint value -> decode_varint (varint_bytes value ++ post) = Ok (value, zlen (varint_bytes value)).
Proof.
  unfold is_varint, MAX_QUIC_VARINT. intros Hv. unfold varint_bytes. zcases.
  - pose proof (decode_tagged 0 0 value post) as H1.
    assert (to_be_bytes 1 (value + 0 * 64 * 256 ^ Z.of_nat 0) = [value]) as He.
    { simpl. rewrite Z.add_0_r, Z.mod_small by lia. done. }
    rewrite He in H1. apply H1; lia.
  - rewrite zlen_to_be_bytes. apply (decode_tagged 1 1 value post); lia.
  - rewrite zlen_to_be_bytes. apply (decode_tagged 2 3 value post); lia.
  - rewrite zlen_to_be_bytes. apply (decode_tagged 3 7 value post); lia.
Qed.

Lemma varint_bytes_len value : 1 <= zlen (varint_bytes value) <= 8.
Proof. unfold varint_bytes. zcases; rewrite ?zlen_to_be_bytes; unfold zlen; simpl; lia. Qed.

Lemma varint_bytes_mono v w : v <= w -> zlen (varint_bytes v) <= zlen (varint_bytes w).
Proof. intros H. unfold varint_bytes. zcases; rewrite ?zlen_to_be_bytes; unfold zlen; simpl; lia. Qed.

(** Whatever [decode_varint] accepts is a legal varint inside its input. *)
Lemma decode_varint_inv input value width :
  byte_list input -> decode_varint input = Ok (value, width) ->
  is_varint value /\ 1 <= width <= 8 /\ width <= zlen input /\
  zlen (varint_bytes value) <= width.
Proof.
  unfold decode_varint. destruct input as [|first rest]; [done|]. intros Hb.
  inversion_clear Hb as [|? ? Hf Hrest]. unfold is_u8, u8_max in Hf.
  assert (exists tag, 0 <= tag <= 3 /\ 64 * tag <= first < 64 * tag + 64) as (tag & Ht & Hr).
  { exists (first / 64). pose proof (Z.div_mod first 64). pose proof (Z.mod_pos_bound first 64). lia. }
  destruct (varint_first tag first) as [-> ->]; [lia..|].
  assert (1 <= 2 ^ tag <= 8 /\ forall v, 0 <= v < 64 * 256 ^ (2 ^ tag - 1) ->
    zlen (varint_bytes v) <= 2 ^ tag) as [Hw Hshort].
  { unfold varint_bytes.
    assert (tag = 0 \/ tag = 1 \/ tag = 2 \/ tag = 3) as [->|[->|[->| ->]]] by lia;
      simpl Z.pow; (split; [lia|]); intros v Hv; zcases;
      rewrite ?zlen_to_be_bytes; unfold zlen; simpl; lia. }
  destruct (Z.ltb_spec (zlen (first :: rest)) (2 ^ tag)); [done|]. intros [= <- <-].
  set (bs := slice (first :: rest) 1 (2 ^ tag)).
  assert (zlen bs = 2 ^ tag - 1) as Hz by (apply zlen_slice; lia).
  assert (byte_list bs) as Hbs.
  { unfold bs, slice, ztake, zdrop. apply Forall_take, Forall_drop. by constructor. }
  pose proof (from_be_bytes_bound bs Hbs) as Hbd.
  assert (256 ^ zlen bs <= 256 ^ 7) by (apply Z.pow_le_mono_r; lia).
  rewrite varint_fold by (done || lia || nia).
  split_and!; try lia; [unfold is_varint, MAX_QUIC_VARINT; nia..|].
  apply Hshort. rewrite <- Hz. nia.
Qed.

Lemma width_bound first : is_u8 first -> 1 <= varint_width first <= 8.
Proof.
  intros H. destruct (varint_first (first / 64) first) as [-> _]; [apply Z.div_pos; mlia| |].
  - pose proof (Z.div_mod first 64). pose proof (Z.mod_pos_bound first 64). lia.
  - assert (0 <= first / 64 <= 3) as Hd by (split; [apply Z.div_pos; mlia|apply Z.lt_succ_r, Z.div_lt_upper_bound; mlia]).
    assert (first / 64 = 0 \/ first / 64 = 1 \/ first / 64 = 2 \/ first / 64 = 3) as [->|[->|[->| ->]]] by lia; simpl; lia.
Qed.

(** A varint is read from its own bytes, whatever follows them. *)
Lemma decode_varint_local a x w : byte_list (a ++ x) -> w <= zlen a ->
  (forall v, decode_varint a = Ok (v, w) <-> decode_varint (a ++ x) = Ok (v, w)).
Proof.
  intros Hb Hw v. unfold decode_varint. destruct a as [|first a].
  { split; [done|]. intros H. destruct (decode_varint_inv ([] ++ x) v w Hb H) as (_ & ? & _). unfold zlen in Hw. simpl in Hw. lia. }
  apply Forall_app in Hb as [Ha _]. inversion Ha as [|? ? Hf _]; subst. pose proof (width_bound first Hf). pose proof (zlen_nonneg x).
  assert (zlen (first :: a ++ x) = zlen (first :: a) + zlen x) as Hz by apply (zlen_app (first :: a) x).
  simpl app. cbv iota beta. rewrite Hz. destruct (Z.ltb_spec (zlen (first :: a)) (varint_width first)).
  - split; [done|]. destruct (zlen (first :: a) + zlen x <? varint_width first); [done|]. intros [= _ <-]. lia.
  - destruct (Z.ltb_spec (zlen (first :: a) + zlen x) (varint_width first)); [lia|].
    by rewrite (slice_app_l (first :: a) x) by lia.
Qed.

(** The bytes [b] spell the varint [v], perhaps in more of them than needed. *)
Definition spells (v : Z) (b : list Z) : Prop := decode_varint b = Ok (v, zlen b).

Lemma spells_app v b rest : byte_list (b ++ rest) -> spells v b -> decode_varint (b ++ rest) = Ok (v, zlen b).
Proof. intros Hb Hs. by apply decode_varint_local. Qed.

Lemma decode_varint_spelled input v w : byte_list input -> decode_varint input = Ok (v, w) ->
  exists b rest, input = b ++ rest /\ w = zlen b /\ spells v b.
Proof.
  intros Hb Hd. destruct (decode_varint_inv input v w Hb Hd) as (_ & Hw & Hl & _).
  assert (zlen (ztake w input) = w) as Hz by (apply zlen_ztake; lia).
  exists (ztake w input), (zdrop w input). assert (input = ztake w input ++ zdrop w input) as Hi by (symmetry; apply take_drop).
  split_and!; [done|done|]. unfold spells. rewrite Hz. rewrite Hi in Hb, Hd. by apply (decode_varint_local _ _ w Hb) in Hd; [|lia].
Qed.

(** ** Envelope lemmas *)

(** The bytes [encode_frame] appends. *)
Definition frame_bytes (ft : Z) (payload : list Z) : list Z :=
  varint_bytes ft ++ varint_bytes (zlen payload) ++ payload.

(** The bound both sides put on a payload, for an unknown-frame limit of [u]. *)
Definition payload_bound (u ft : Z) : Z :=
  Z.min (unwrap_or (registered_payload_limit ft) u) HARD_MAX_FRAME_PAYLOAD.

Definition is_skipped (ft : Z) : bool := negb (is_known ft) || is_grease ft.

(** What one sent frame decodes to. *)
Definition decoded_as (f : Z * list Z) : DecodedFrame :=
  if is_skipped f.1 then SkippedOptional f.1 (zlen f.2) else Known f.1 f.2.

Lemma payload_bound_le u ft : payload_bound u ft <= HARD_MAX_FRAME_PAYLOAD.
Proof. unfold payload_bound. lia. Qed.

Lemma writes_frame ft payload :
  is_varint ft -> zlen payload <= payload_bound DEFAULT_MAX_UNKNOWN_PAYLOAD ft ->
  writes (encode_frame ft payload) (frame_bytes ft payload).
Proof.
  intros Hft Hlen. pose proof (payload_bound_le DEFAULT_MAX_UNKNOWN_PAYLOAD ft) as Hb.
  pose proof (zlen_nonneg payload). unfold encode_frame. fold (payload_bound DEFAULT_MAX_UNKNOWN_PAYLOAD ft).
  destruct (Z.ltb_spec (payload_bound DEFAULT_MAX_UNKNOWN_PAYLOAD ft) (zlen payload)); [lia|].
  apply writes_bind; [by apply writes_varint|]. apply writes_bind; [|done].
  apply writes_varint. unfold is_varint, MAX_QUIC_VARINT, HARD_MAX_FRAME_PAYLOAD in *. lia.
Qed.

(** The envelope parser on a written header, every branch. *)
Lemma parse_envelope_written ft len rest limits :
  validate_limits limits = Ok tt -> is_varint ft -> is_varint len ->
  parse_envelope_prefix (varint_bytes ft ++ varint_bytes len ++ rest) limits =
  (let bound := payload_bound (max_unknown_payload limits) ft in
   let header := zlen (varint_bytes ft) + zlen (varint_bytes len) in
   if bound <? len then Err (FrameTooLarge ft len bound) else
   if negb (is_known ft) && is_critical ft then Err (UnknownCritical ft) else
   Ok (mkEnvelope ft len header (header + len) (is_skipped ft))).
Proof.
  intros Hl Hft Hlen. unfold parse_envelope_prefix. rewrite Hl.
  rewrite decode_varint_bytes by done. rewrite zdrop_app, decode_varint_bytes by done.
  cbv zeta. unfold payload_bound, is_skipped.
  pose proof (varint_bytes_len ft). pose proof (varint_bytes_len len).
  unfold is_varint, MAX_QUIC_VARINT in *.
  repeat (destruct (_ <? _) || destruct (negb _ && _); try done).
  assert (checked_add (zlen (varint_bytes ft)) (zlen (varint_bytes len)) =
          Some (zlen (varint_bytes ft) + zlen (varint_bytes len))) as ->
    by (apply checked_add_Some; split; [done | mlia]).
  simpl. assert (checked_add (zlen (varint_bytes ft) + zlen (varint_bytes len)) len =
          Some (zlen (varint_bytes ft) + zlen (varint_bytes len) + len)) as ->
    by (apply checked_add_Some; split; [done | mlia]).
  done.
Qed.

(** A frame both ends admit. *)
Definition receivable (limits : DecodeLimits) (f : Z * list Z) : Prop :=
  is_varint f.1 /\ zlen f.2 <= payload_bound (max_unknown_payload limits) f.1 /\
  (is_known f.1 = true \/ is_critical f.1 = false).

Lemma decode_one_written limits f rest :
  validate_limits limits = Ok tt -> receivable limits f ->
  decode_one (frame_bytes f.1 f.2 ++ rest) limits =
  Ok (decoded_as f, zlen (frame_bytes f.1 f.2)).
Proof.
  destruct f as [ft payload]. intros Hl (Hft & Hlen & Hcrit). simpl in *.
  pose proof (payload_bound_le (max_unknown_payload limits) ft) as Hb.
  pose proof (zlen_nonneg payload).
  unfold decode_one, frame_bytes. rewrite <- !app_assoc.
  rewrite parse_envelope_written;
    [|done|done|unfold is_varint, MAX_QUIC_VARINT, HARD_MAX_FRAME_PAYLOAD in *; lia].
  cbv zeta. destruct (Z.ltb_spec (payload_bound (max_unknown_payload limits) ft) (zlen payload)); [lia|].
  assert (negb (is_known ft) && is_critical ft = false) as ->
    by (destruct Hcrit as [-> | ->]; [done | by rewrite andb_false_r]).
  simpl. rewrite !zlen_app.
  pose proof (zlen_nonneg rest).
  destruct (Z.ltb_spec (zlen (varint_bytes ft) + (zlen (varint_bytes (zlen payload)) +
    (zlen payload + zlen rest))) (zlen (varint_bytes ft) + zlen (varint_bytes (zlen payload)) + zlen payload)); [lia|].
  unfold decoded_as. simpl. rewrite Z.add_assoc.
  destruct (is_skipped ft); [done|]. do 3 f_equal.
  pose proof (slice_app_mid (varint_bytes ft ++ varint_bytes (zlen payload)) payload rest) as Hs.
  rewrite <- app_assoc, zlen_app in Hs. exact Hs.
Qed.

(** Whatever [decode_one] accepts is bounded and inside the input. *)
Lemma decode_one_inv input limits f n :
  byte_list input -> decode_one input limits = Ok (f, n) ->
  2 <= n <= zlen input /\
  match f with
  | Known ft payload => is_known ft = true /\ zlen payload <= payload_bound (max_unknown_payload limits) ft
  | SkippedOptional ft len => is_critical ft = false /\ 0 <= len <= HARD_MAX_FRAME_PAYLOAD
  end.
Proof.
  intros Hb. unfold decode_one, parse_envelope_prefix, ok_or.
  destruct (validate_limits limits); [|done].
  destruct (decode_varint input) as [[ft tw]|] eqn:H1; [|done].
  destruct (decode_varint (zdrop tw input)) as [[len lw]|] eqn:H2; [|done].
  apply decode_varint_inv in H1 as (Hft & Htw & Hle & _); [|done].
  apply decode_varint_inv in H2 as (Hlen & Hlw & Hle2 & _); [|by apply Forall_drop].
  cbv zeta. fold (payload_bound (max_unknown_payload limits) ft).
  pose proof (payload_bound_le (max_unknown_payload limits) ft) as Hbd.
  destruct (Z.ltb_spec (payload_bound (max_unknown_payload limits) ft) len); [done|].
  destruct (negb (is_known ft) && is_critical ft) eqn:Hc; [done|].
  unfold is_varint in *.
  destruct (checked_add tw lw) as [h|] eqn:Hh; [|done]. apply checked_add_Some in Hh as [-> _].
  destruct (checked_add (tw + lw) len) as [t|] eqn:Ht; [|done].
  apply checked_add_Some in Ht as [-> _]. simpl.
  destruct (Z.ltb_spec (zlen input) (tw + lw + len)); [done|].
  destruct (negb (is_known ft) || is_grease ft) eqn:Hs; intros [= <- <-]; (split; [lia|]).
  - split; [|lia]. destruct (is_known ft) eqn:Hk; [|by simpl in Hc].
    simpl in Hs. unfold is_grease, is_critical in *.
    apply andb_true_iff in Hs as [_ Hs%Z.eqb_eq]. by rewrite Hs.
  - apply orb_false_iff in Hs as [Hs _]. rewrite negb_false_iff in Hs. split; [done|].
    rewrite zlen_slice by lia. lia.
Qed.

(** A batch of frames, written one after the other. *)
Fixpoint encode_frames (frames : list (Z * list Z)) : M (list Z) DecodeError unit :=
  match frames with
  | [] => ret tt
  | (ft, payload) :: rest => let! _ := encode_frame ft payload in encode_frames rest
  end.

Definition batch_bytes (frames : list (Z * list Z)) : list Z :=
  concat (map (fun f => frame_bytes f.1 f.2) frames).

Definition sendable (f : Z * list Z) : Prop :=
  is_varint f.1 /\ zlen f.2 <= payload_bound DEFAULT_MAX_UNKNOWN_PAYLOAD f.1.

Lemma writes_frames frames :
  Forall sendable frames -> writes (encode_frames frames) (batch_bytes frames).
Proof.
  unfold batch_bytes. induction 1 as [|[ft payload] frames [H1 H2] _ IH]; simpl;
    [apply writes_ret|]. apply writes_bind; [by apply writes_frame | exact IH].
Qed.

Lemma frame_bytes_len ft payload : 2 <= zlen (frame_bytes ft payload).
Proof.
  unfold frame_bytes. rewrite !zlen_app. pose proof (varint_bytes_len ft).
  pose proof (varint_bytes_len (zlen payload)). pose proof (zlen_nonneg payload). lia.
Qed.

Lemma decode_all_loop_written limits frames pre done fuel :
  validate_limits limits = Ok tt -> Forall (receivable limits) frames ->
  zlen done + zlen frames <= max_frames limits ->
  zlen (pre ++ batch_bytes frames) <= i64_max -> (length frames < fuel)%nat ->
  decode_all_loop fuel (pre ++ batch_bytes frames) limits (zlen pre) done =
  Some (Ok (done ++ map decoded_as frames)).
Proof.
  intros Hl. revert pre done fuel. induction frames as [|f frames IH]; intros pre done fuel Hf Hmax Hlen Hfuel.
  - destruct fuel; [simpl in Hfuel; lia|]. unfold batch_bytes. simpl.
    rewrite !app_nil_r. destruct (Z.ltb_spec (zlen pre) (zlen pre)); [lia|done].
  - destruct fuel as [|fuel]; [simpl in Hfuel; lia|].
    inversion_clear Hf as [|? ? Hf1 Hf2].
    change (batch_bytes (f :: frames)) with (frame_bytes f.1 f.2 ++ batch_bytes frames) in *.
    pose proof (frame_bytes_len f.1 f.2) as Hn.
    pose proof (zlen_nonneg (batch_bytes frames)). pose proof (zlen_nonneg frames).
    rewrite zlen_cons in Hmax. simpl. rewrite !zlen_app in *.
    destruct (Z.ltb_spec (zlen pre) (zlen pre + (zlen (frame_bytes f.1 f.2) + zlen (batch_bytes frames)))); [|lia].
    destruct (Z.eqb_spec (zlen done) (max_frames limits)); [lia|].
    rewrite zdrop_app, decode_one_written by done.
    assert (checked_add (zlen pre) (zlen (frame_bytes f.1 f.2)) =
            Some (zlen pre + zlen (frame_bytes f.1 f.2))) as ->
      by (apply checked_add_Some; split; [done|mlia]).
    rewrite app_assoc, <- zlen_app, IH; [by rewrite <- app_assoc|done|..].
    + rewrite zlen_app. change (zlen [_]) with 1. lia.
    + rewrite !zlen_app. lia.
    + simpl in Hfuel. lia.
Qed.

(** What an accepted frame satisfies under [limits]. *)
Definition frame_within (limits : DecodeLimits) (f : DecodedFrame) : Prop :=
  match f with
  | Known ft payload =>
      is_known ft = true /\ zlen payload <= payload_bound (max_unknown_payload limits) ft
  | SkippedOptional ft len => is_critical ft = false /\ 0 <= len <= HARD_MAX_FRAME_PAYLOAD
  end.

(** The loop always finishes: each round consumes at least two bytes. *)
Lemma decode_all_loop_total fuel input limits offset done :
  byte_list input -> 0 <= offset <= zlen input -> zlen input <= i64_max ->
  zlen input - offset < Z.of_nat fuel -> zlen done <= max_frames limits ->
  Forall (frame_within limits) done ->
  exists r, decode_all_loop fuel input limits offset done = Some r /\
    forall frames, r = Ok frames ->
      zlen frames <= max_frames limits /\ Forall (frame_within limits) frames.
Proof.
  revert offset done. induction fuel as [|fuel IH]; intros offset done Hb Ho Hlen Hfuel Hd Hw; [lia|].
  simpl. destruct (Z.ltb_spec offset (zlen input)); [|exists (Ok done); split; [done|by intros ? [= <-]]].
  destruct (Z.eqb_spec (zlen done) (max_frames limits)); [by eexists|].
  destruct (decode_one (zdrop offset input) limits) as [[f used]|e] eqn:Hd1; [|by eexists].
  apply decode_one_inv in Hd1 as [Hn Hf]; [|by apply Forall_drop].
  rewrite zlen_zdrop in Hn by lia.
  destruct (checked_add offset used) as [o'|] eqn:Hc; [|by eexists].
  apply checked_add_Some in Hc as [-> _]. apply IH; try done; try lia.
  - rewrite zlen_app. change (zlen [_]) with 1. lia.
  - apply Forall_app. split; [done|]. by constructor.
Qed.

(** ** Properties of varints and frames *)

(** varints round-trip and are shortest.  For every value up to 2^62-1
    [encode_varint] appends bytes that [decode_varint] reads back with their
    exact width wherever they stand, and no input decoding to the same value
    is narrower; every larger value is refused with the output untouched. *)
Theorem varint_roundtrip v :
  (is_varint v -> exists bs,
     (forall out, encode_varint v out = (Ok tt, out ++ bs)) /\
     (forall post, decode_varint (bs ++ post) = Ok (v, zlen bs)) /\
     (forall input w, byte_list input -> decode_varint input = Ok (v, w) -> zlen bs <= w)) /\
  (MAX_QUIC_VARINT < v -> forall out, encode_varint v out = (Err (ValueOutOfRange v), out)).
Proof.
  split.
  - intros Hv. exists (varint_bytes v). split_and!.
    + by apply writes_varint.
    + intros post. by apply decode_varint_bytes.
    + intros input w Hb Hd. by apply decode_varint_inv in Hd as (_ & _ & _ & H).
  - intros Hv out. unfold encode_varint. by destruct (Z.ltb_spec MAX_QUIC_VARINT v); [|lia].
Qed.

Lemma varint_roundtrip_witness :
  exists bs, (forall post, decode_varint (bs ++ post) = Ok (16384, zlen bs)).
Proof.
  destruct (proj1 (varint_roundtrip 16384) ltac:(vm_compute; split; discriminate)) as (bs & _ & H & _).
  exists bs. exact H.
Defined.

(** a batch of frames round-trips.  Frames an encoder accepts and a
    decoder admits (known, or unknown and optional, within both payload
    bounds, at most [max_frames]) come back from [decode_all] in order: known
    frames with their exact payload, unknown and grease frames as skipped with
    their length. *)
Theorem decode_all_roundtrip frames limits out :
  validate_limits limits = Ok tt -> Forall sendable frames -> Forall (receivable limits) frames ->
  zlen frames <= max_frames limits ->
  encode_frames frames [] = (Ok tt, out) -> zlen out <= i64_max ->
  decode_all out limits = Some (Ok (map decoded_as frames)).
Proof.
  intros Hl Hs Hr Hmax Henc Hlen. rewrite (writes_frames frames Hs []) in Henc.
  injection Henc as <-. simpl in *. unfold decode_all. rewrite Hl.
  apply (decode_all_loop_written limits frames [] []); try done.
  assert (forall fs, (length fs <= length (batch_bytes fs))%nat) as Hle.
  { clear. induction fs as [|f fs IH]; [done|].
    change (batch_bytes (f :: fs)) with (frame_bytes f.1 f.2 ++ batch_bytes fs).
    rewrite length_app. pose proof (frame_bytes_len f.1 f.2) as H2. unfold zlen in H2. simpl. lia. }
  specialize (Hle frames). lia.
Qed.

Lemma decode_all_roundtrip_witness :
  exists out, encode_frames [(0x31, [1; 2; 3]); (0x1f02, [9]); (0x05, [])] [] = (Ok tt, out) /\
  decode_all out default_limits =
    Some (Ok [Known 0x31 [1; 2; 3]; SkippedOptional 0x1f02 1; Known 0x05 []]).
Proof.
  exists (snd (encode_frames [(0x31, [1; 2; 3]); (0x1f02, [9]); (0x05, [])] [])).
  split; [vm_compute; reflexivity|].
  refine (decode_all_roundtrip [(0x31, [1; 2; 3]); (0x1f02, [9]); (0x05, [])] default_limits _ _ _ _ _ _ _).
  - reflexivity.
  - repeat constructor; vm_compute; discriminate.
  - repeat constructor; try (vm_compute; discriminate); first [left; reflexivity | right; reflexivity].
  - vm_compute. discriminate.
  - vm_compute. reflexivity.
  - vm_compute. discriminate.
Defined.

(** decoding arbitrary bytes terminates within bounds.  On any input of
    bytes [decode_all] returns: its loop never needs more rounds than the
    input has bytes.  An accepted batch holds at most [max_frames] frames,
    delivers only registered types within their payload ceiling, and skips
    only non-critical ones. *)
Theorem decode_all_total input limits :
  byte_list input -> zlen input <= i64_max -> 0 <= max_frames limits ->
  exists r, decode_all input limits = Some r /\
    forall frames, r = Ok frames ->
      zlen frames <= max_frames limits /\ Forall (frame_within limits) frames.
Proof.
  intros Hb Hlen Hm. unfold decode_all. destruct (validate_limits limits); [|by eexists].
  pose proof (zlen_nonneg input).
  apply decode_all_loop_total; try done; try lia. unfold zlen. lia.
Qed.

Lemma decode_all_total_witness :
  exists r, decode_all [0xff; 0; 7] default_limits = Some r.
Proof.
  destruct (decode_all_total [0xff; 0; 7] default_limits) as (r & Hr & _).
  - repeat constructor; vm_compute; discriminate.
  - vm_compute. discriminate.
  - vm_compute. discriminate.
  - exists r. exact Hr.
Defined.

(** the envelope check order is the contractual one.  Once both varints
    are readable, an oversized frame is refused as [FrameTooLarge] whatever
    its type and however little of it has arrived; only then is an unknown
    critical type refused; otherwise the envelope is reported without the
    payload, and [decode_one] waits for exactly the missing bytes. *)
Theorem envelope_check_order ft len rest limits :
  validate_limits limits = Ok tt -> is_varint ft -> is_varint len ->
  let input := varint_bytes ft ++ varint_bytes len ++ rest in
  let bound := payload_bound (max_unknown_payload limits) ft in
  let total := zlen (varint_bytes ft) + zlen (varint_bytes len) + len in
  (bound < len -> peek_envelope input limits = Err (FrameTooLarge ft len bound) /\
                  decode_one input limits = Err (FrameTooLarge ft len bound)) /\
  (len <= bound -> is_known ft = false -> is_critical ft = true ->
     peek_envelope input limits = Err (UnknownCritical ft) /\
     decode_one input limits = Err (UnknownCritical ft)) /\
  (len <= bound -> (is_known ft = true \/ is_critical ft = false) ->
     peek_envelope input limits =
       Ok (mkEnvelope ft len (zlen (varint_bytes ft) + zlen (varint_bytes len)) total (is_skipped ft)) /\
     (zlen input < total -> decode_one input limits = Err (Incomplete total (zlen input)))).
Proof.
  intros Hl Hft Hlen input bound total. unfold decode_one, peek_envelope, input.
  rewrite parse_envelope_written by done. fold bound. cbv zeta. split_and!.
  - intros Hgt. by destruct (Z.ltb_spec bound len); [|lia].
  - intros Hle Hk Hc. destruct (Z.ltb_spec bound len); [lia|]. by rewrite Hk, Hc.
  - intros Hle Hor. destruct (Z.ltb_spec bound len); [lia|].
    assert (negb (is_known ft) && is_critical ft = false) as ->
      by (destruct Hor as [-> | ->]; [done | by rewrite andb_false_r]).
    split; [done|]. intros Hshort. simpl. fold total.
    destruct (Z.ltb_spec (zlen (varint_bytes ft ++ varint_bytes len ++ rest)) total); [done|].
    unfold input in Hshort. lia.
Qed.

Lemma envelope_check_order_witness :
  peek_envelope (varint_bytes 0x31 ++ varint_bytes 262145 ++ []) default_limits =
    Err (FrameTooLarge 0x31 262145 262144).
Proof.
  apply (envelope_check_order 0x31 262145 [] default_limits); vm_compute;
    first [reflexivity | split; discriminate].
Defined.

(** ** SETTINGS lemmas *)

Definition rows_bytes (rows : list (Z * Z)) : list Z :=
  concat (map (fun r => varint_bytes r.1 ++ varint_bytes r.2) rows).

Lemma writes_map_err {E F} (f : E -> F) (m : M (list Z) E unit) bs :
  writes m bs -> writes (mmap_err f m) bs.
Proof. intros H out. unfold mmap_err. by rewrite H. Qed.

Definition settings_valid (s : Settings) : bool :=
  forallb (fun r => setting_in_range r.1 r.2) (advertised s).

Lemma setting_in_range_varint i v : setting_in_range i v = true -> is_varint i /\ is_varint v.
Proof.
  unfold setting_in_range, setting_range, is_varint, MAX_QUIC_VARINT. cbn.
  destruct (Z.eqb_spec i 1), (Z.eqb_spec i 3), (Z.eqb_spec i 5), (Z.eqb_spec i 7), (Z.eqb_spec i 9);
    try discriminate; intros [H1%Z.leb_le H2%Z.leb_le]%andb_true_iff; lia.
Qed.

Lemma writes_settings_rows rows :
  forallb (fun r => setting_in_range r.1 r.2) rows = true ->
  writes (encode_settings_rows rows) (rows_bytes rows).
Proof.
  induction rows as [|[i v] rows IH]; simpl; [intros _; apply writes_ret|].
  intros [Hr Hrs]%andb_true_iff. rewrite Hr. simpl.
  apply setting_in_range_varint in Hr as [Hi Hv].
  unfold rows_bytes. simpl. rewrite <- app_assoc.
  apply writes_bind; [by apply writes_map_err, writes_varint|].
  apply writes_bind; [by apply writes_map_err, writes_varint|]. by apply IH.
Qed.

Lemma encode_settings_rows_ok rows out out' :
  encode_settings_rows rows out = (Ok tt, out') ->
  forallb (fun r => setting_in_range r.1 r.2) rows = true.
Proof.
  revert out. induction rows as [|[i v] rows IH]; intros out; simpl; [done|].
  destruct (setting_in_range i v) eqn:Hr; [|done]. simpl.
  apply setting_in_range_varint in Hr as [Hi Hv].
  rewrite (bind_ok _ _ _ _ _ (writes_map_err SE_Malformed _ _ (writes_varint i Hi) out)).
  rewrite (bind_ok _ _ _ _ _ (writes_map_err SE_Malformed _ _ (writes_varint v Hv) _)).
  apply IH.
Qed.

(** A row [decode_settings] takes: a registered identifier with a value in its
    range, or an unknown one that is not critical. *)
Definition row_accepted (r : Z * Z) : Prop :=
  is_varint r.1 /\ is_varint r.2 /\
  (setting_in_range r.1 r.2 = true \/ (setting_range r.1 = None /\ is_critical r.1 = false)).

Definition row_apply (s : Settings) (r : Z * Z) : Settings :=
  if setting_in_range r.1 r.2 then setting_field_set s r.1 r.2 else s.

Lemma apply_setting_row s r : row_accepted r -> apply_setting s r.1 r.2 = Ok (row_apply s r).
Proof.
  intros (_ & _ & [Hr | [Hn Hc]]); unfold apply_setting, row_apply.
  - by rewrite Hr.
  - unfold setting_in_range. by rewrite Hn, Hc.
Qed.

Lemma apply_setting_valid s i v s' :
  settings_valid s = true -> apply_setting s i v = Ok s' -> settings_valid s' = true.
Proof.
  unfold apply_setting. destruct (setting_in_range i v) eqn:Hr; simpl.
  - intros Hv [= <-]. destruct s as [a b c d e].
    unfold settings_valid, setting_field_set, advertised in *. cbn [forallb fst snd] in *.
    cbn [sr_id MAX_CONTROL_FRAME_PAYLOAD MAX_DATA_RECORD_PAYLOAD MAX_MANIFEST_PAGE_PAYLOAD
         RELIABLE_LANE_LIMIT IDLE_TIMEOUT_MS] in *.
    cbn [max_control_frame_payload max_data_record_payload max_manifest_page_payload
         reliable_lane_limit idle_timeout_ms] in Hv.
    rewrite !andb_true_iff in Hv.
    destruct (Z.eqb_spec i 1), (Z.eqb_spec i 3), (Z.eqb_spec i 5), (Z.eqb_spec i 7),
      (Z.eqb_spec i 9); subst; try lia;
      cbn [max_control_frame_payload max_data_record_payload max_manifest_page_payload
           reliable_lane_limit idle_timeout_ms]; rewrite !andb_true_iff; tauto.
  - intros Hv. destruct (setting_range i); [done|]. destruct (is_critical i); [done|]. by intros [= <-].
Qed.

Definition seen_after (seen : list Z) (rows : list (Z * Z)) : list Z :=
  fold_left (fun acc r => set_insert r.1 acc) rows seen.

Lemma rows_bytes_cons r rows :
  rows_bytes (r :: rows) = varint_bytes r.1 ++ varint_bytes r.2 ++ rows_bytes rows.
Proof. unfold rows_bytes. simpl. by rewrite <- app_assoc. Qed.

(** One round of the loop, on a written row. *)
Lemma decode_settings_step fuel pre r rest seen s :
  is_varint r.1 -> is_varint r.2 -> zlen seen <> MAX_SETTINGS_PER_FRAME ->
  let payload := pre ++ varint_bytes r.1 ++ varint_bytes r.2 ++ rest in
  zlen payload <= i64_max ->
  decode_settings_loop (S fuel) payload (zlen pre) seen s =
  (if set_contains r.1 seen then Some (Err (SE_Duplicate r.1)) else
   match apply_setting s r.1 r.2 with
   | Err e => Some (Err e)
   | Ok s' => decode_settings_loop fuel payload
                (zlen (pre ++ varint_bytes r.1 ++ varint_bytes r.2)) (set_insert r.1 seen) s'
   end).
Proof.
  intros H1 H2 Hseen payload Hlen. simpl.
  pose proof (varint_bytes_len r.1). pose proof (varint_bytes_len r.2).
  pose proof (zlen_nonneg pre). pose proof (zlen_nonneg rest).
  unfold payload in *. rewrite !zlen_app in *.
  destruct (Z.ltb_spec (zlen pre) (zlen pre + (zlen (varint_bytes r.1) + (zlen (varint_bytes r.2) + zlen rest)))); [|lia].
  destruct (Z.eqb_spec (zlen seen) MAX_SETTINGS_PER_FRAME); [done|].
  rewrite zdrop_app, decode_varint_bytes by done.
  assert (checked_add (zlen pre) (zlen (varint_bytes r.1)) =
          Some (zlen pre + zlen (varint_bytes r.1))) as ->
    by (apply checked_add_Some; split; [done|mlia]).
  assert (zdrop (zlen pre + zlen (varint_bytes r.1))
            (pre ++ varint_bytes r.1 ++ varint_bytes r.2 ++ rest) = varint_bytes r.2 ++ rest) as ->
    by (rewrite <- zlen_app, app_assoc; apply zdrop_app).
  rewrite decode_varint_bytes by done.
  assert (checked_add (zlen pre + zlen (varint_bytes r.1)) (zlen (varint_bytes r.2)) =
          Some (zlen pre + (zlen (varint_bytes r.1) + zlen (varint_bytes r.2)))) as ->
    by (apply checked_add_Some; split; [lia|mlia]).
  done.
Qed.

Lemma decode_settings_loop_rows rows pre rest seen s fuel :
  Forall row_accepted rows -> NoDup (map fst rows) -> (forall r, r ∈ rows -> r.1 ∉ seen) ->
  zlen seen + zlen rows <= MAX_SETTINGS_PER_FRAME ->
  zlen (pre ++ rows_bytes rows ++ rest) <= i64_max ->
  decode_settings_loop (length rows + fuel) (pre ++ rows_bytes rows ++ rest) (zlen pre) seen s =
  decode_settings_loop fuel (pre ++ rows_bytes rows ++ rest) (zlen (pre ++ rows_bytes rows))
    (seen_after seen rows) (fold_left row_apply rows s).
Proof.
  revert pre seen s. induction rows as [|r rows IH]; intros pre seen s Hacc Hnd Hfresh Hmax Hlen.
  - by rewrite app_nil_r.
  - inversion_clear Hacc as [|? ? Hr Hrs]. simpl in Hnd. apply NoDup_cons in Hnd as [Hr1 Hnd].
    assert (r.1 ∉ seen) as Hrseen by (apply Hfresh; set_solver).
    rewrite rows_bytes_cons, <- !app_assoc in *. rewrite zlen_cons in Hmax.
    pose proof (zlen_nonneg rows).
    change (length (r :: rows) + fuel)%nat with (S (length rows + fuel)).
    rewrite decode_settings_step; [|apply Hr|apply Hr|lia|done].
    unfold set_contains. rewrite bool_decide_eq_false_2 by done.
    rewrite apply_setting_row by done.
    specialize (IH (pre ++ varint_bytes r.1 ++ varint_bytes r.2) (set_insert r.1 seen) (row_apply s r)).
    rewrite <- !app_assoc in IH. rewrite IH; [done|done|done|..|done].
    + intros r' Hr'. rewrite elem_of_set_insert. intros [Heq|Hs]; [|by apply (Hfresh r'); [set_solver|]].
      apply Hr1. rewrite <- Heq. apply list_elem_of_fmap. eauto.
    + unfold zlen in *. rewrite length_set_insert_new by done. lia.
Qed.

Lemma length_seen_after seen rows :
  NoDup (map fst rows) -> (forall r, r ∈ rows -> r.1 ∉ seen) ->
  length (seen_after seen rows) = (length seen + length rows)%nat.
Proof.
  revert seen. induction rows as [|r rows IH]; intros seen Hnd Hf; simpl; [lia|].
  simpl in Hnd. apply NoDup_cons in Hnd as [Hr Hnd].
  unfold seen_after in *. simpl. rewrite IH; [|done|].
  - rewrite length_set_insert_new by (apply Hf; set_solver). lia.
  - intros r' Hr'. rewrite elem_of_set_insert. intros [Heq|Hs]; [|by apply (Hf r'); [set_solver|]].
    apply Hr. rewrite <- Heq. apply list_elem_of_fmap. eauto.
Qed.

Lemma elem_of_seen_after seen rows x :
  x ∈ seen_after seen rows <-> x ∈ seen \/ x ∈ map fst rows.
Proof.
  revert seen. induction rows as [|r rows IH]; intros seen; simpl; [set_solver|].
  unfold seen_after in *. simpl. rewrite IH, elem_of_set_insert, elem_of_cons. tauto.
Qed.

Lemma length_rows_bytes rows : (length rows <= length (rows_bytes rows))%nat.
Proof.
  induction rows as [|r rows IH]; [done|]. rewrite rows_bytes_cons, !length_app. simpl.
  pose proof (varint_bytes_len r.1) as H. unfold zlen in H. lia.
Qed.

Lemma decode_settings_loop_total fuel payload offset seen s :
  byte_list payload -> 0 <= offset <= zlen payload -> zlen payload <= i64_max ->
  zlen payload - offset < Z.of_nat fuel -> settings_valid s = true ->
  exists r, decode_settings_loop fuel payload offset seen s = Some r /\
    forall s', r = Ok s' -> settings_valid s' = true.
Proof.
  revert offset seen s. induction fuel as [|fuel IH]; intros offset seen s Hb Ho Hlen Hfuel Hv; [lia|].
  simpl. destruct (Z.ltb_spec offset (zlen payload)); [|exists (Ok s); split; [done|by intros ? [= <-]]].
  destruct (zlen seen =? MAX_SETTINGS_PER_FRAME); [by eexists|].
  destruct (decode_varint (zdrop offset payload)) as [[i iw]|e] eqn:H1; [|by eexists].
  apply decode_varint_inv in H1 as (_ & Hiw & Hle & _); [|by apply Forall_drop].
  rewrite zlen_zdrop in Hle by lia.
  destruct (checked_add offset iw) as [o1|] eqn:Hc; [|by eexists].
  apply checked_add_Some in Hc as [-> _].
  destruct (decode_varint (zdrop (offset + iw) payload)) as [[v vw]|e] eqn:H2; [|by eexists].
  apply decode_varint_inv in H2 as (_ & Hvw & Hle2 & _); [|by apply Forall_drop].
  rewrite zlen_zdrop in Hle2 by lia.
  destruct (checked_add (offset + iw) vw) as [o2|] eqn:Hc2; [|by eexists].
  apply checked_add_Some in Hc2 as [-> _].
  destruct (set_contains i seen); [by eexists|].
  destruct (apply_setting s i v) as [s'|e] eqn:Ha; [|by eexists].
  apply IH; try done; try lia. by eapply apply_setting_valid.
Qed.

Lemma zlen_rows_bytes rows : zlen (rows_bytes rows) <= 16 * zlen rows.
Proof.
  induction rows as [|r rows IH]; [done|]. rewrite rows_bytes_cons, !zlen_app, zlen_cons.
  pose proof (varint_bytes_len r.1). pose proof (varint_bytes_len r.2). lia.
Qed.

Lemma decode_settings_written rows :
  Forall row_accepted rows -> NoDup (map fst rows) -> zlen rows <= MAX_SETTINGS_PER_FRAME ->
  decode_settings (rows_bytes rows) = Some (Ok (fold_left row_apply rows default_settings)).
Proof.
  intros Hacc Hnd Hmax. unfold decode_settings.
  pose proof (length_rows_bytes rows) as Hle. pose proof (zlen_rows_bytes rows).
  replace (S (length (rows_bytes rows))) with
    (length rows + S (length (rows_bytes rows) - length rows))%nat by lia.
  pose proof (decode_settings_loop_rows rows [] [] [] default_settings
    (S (length (rows_bytes rows) - length rows))) as Hloop.
  rewrite !app_nil_r, !app_nil_l in Hloop. change (zlen []) with 0 in Hloop.
  rewrite Hloop; [|done|done|set_solver|lia|].
  - cbn [decode_settings_loop]. by rewrite Z.ltb_irrefl.
  - unfold MAX_SETTINGS_PER_FRAME in *. mlia.
Qed.

Lemma rows_in_range_accepted rows :
  forallb (fun r => setting_in_range r.1 r.2) rows = true -> Forall row_accepted rows.
Proof.
  intros Hv. apply Forall_forall. intros r Hr. rewrite forallb_forall in Hv.
  specialize (Hv r ltac:(by apply list_elem_of_In)).
  pose proof (setting_in_range_varint _ _ Hv) as [].
  split; [done|split; [done|by left]].
Qed.

(** ** Properties of SETTINGS *)

(** settings round-trip.  Whatever [encode_settings] writes,
    [decode_settings] reads back as the same settings; it writes exactly when
    every field is inside its registered range. *)
Theorem settings_roundtrip s :
  (forall out, encode_settings s [] = (Ok tt, out) -> decode_settings out = Some (Ok s)) /\
  ((exists out, encode_settings s [] = (Ok tt, out)) <-> settings_valid s = true).
Proof.
  unfold encode_settings. split; [|split].
  - intros out Henc. pose proof (encode_settings_rows_ok _ _ _ Henc) as Hv.
    rewrite (writes_settings_rows _ Hv []) in Henc. injection Henc as <-.
    rewrite decode_settings_written; [|by apply rows_in_range_accepted|..].
    + do 2 f_equal. destruct s as [a b c d e]. cbn [forallb advertised] in Hv.
      rewrite !andb_true_iff in Hv. destruct Hv as (H1 & H2 & H3 & H4 & H5 & _).
      cbn [fold_left advertised]. unfold row_apply. rewrite H1, H2, H3, H4, H5. done.
    + change (map fst (advertised s)) with [1; 3; 5; 7; 9]. by apply (bool_decide_eq_true (NoDup _)).
    + vm_compute. discriminate.
  - intros [out Henc]. by apply encode_settings_rows_ok in Henc.
  - intros Hv. eexists. apply (writes_settings_rows _ Hv []).
Qed.

(** SETTINGS decoding is total and sound.  On any payload of bytes
    [decode_settings] returns, and settings it accepts hold only values inside
    the registered ranges; a payload that repeats an identifier after any
    acceptable rows is refused as a duplicate, whatever follows. *)
Theorem decode_settings_sound :
  (forall payload, byte_list payload -> zlen payload <= i64_max ->
     exists r, decode_settings payload = Some r /\
       forall s, r = Ok s -> settings_valid s = true) /\
  (forall rows i v rest, Forall row_accepted rows -> NoDup (map fst rows) ->
     zlen rows < MAX_SETTINGS_PER_FRAME -> i ∈ map fst rows -> is_varint i -> is_varint v ->
     zlen (rows_bytes (rows ++ [(i, v)]) ++ rest) <= i64_max ->
     decode_settings (rows_bytes (rows ++ [(i, v)]) ++ rest) = Some (Err (SE_Duplicate i))).
Proof.
  split.
  - intros payload Hb Hlen. pose proof (zlen_nonneg payload).
    apply decode_settings_loop_total; try done; try lia. unfold zlen. lia.
  - intros rows i v rest Hacc Hnd Hmax Hin Hi Hv Hlen.
    assert (rows_bytes (rows ++ [(i, v)]) ++ rest =
            rows_bytes rows ++ varint_bytes i ++ varint_bytes v ++ rest) as Heq.
    { unfold rows_bytes. rewrite map_app, concat_app. simpl. by rewrite app_nil_r, <- !app_assoc. }
    rewrite Heq in *. clear Heq. unfold decode_settings.
    set (tail := varint_bytes i ++ varint_bytes v ++ rest) in *.
    assert (length (rows_bytes rows ++ tail) = length (rows_bytes rows) + length tail)%nat as Hl
      by apply length_app.
    pose proof (length_rows_bytes rows).
    replace (S (length (rows_bytes rows ++ tail))) with
      (length rows + S (length (rows_bytes rows ++ tail) - length rows))%nat by lia.
    pose proof (decode_settings_loop_rows rows [] tail [] default_settings
      (S (length (rows_bytes rows ++ tail) - length rows))) as Hloop.
    rewrite !app_nil_l in Hloop. change (zlen []) with 0 in Hloop.
    rewrite Hloop; [|done|done|set_solver|lia|done].
    unfold tail. rewrite (decode_settings_step _ (rows_bytes rows) (i, v) rest); try done.
    + unfold set_contains. rewrite bool_decide_eq_true_2; [done|]. simpl.
      apply elem_of_seen_after. by right.
    + unfold zlen in *. rewrite length_seen_after by (done || set_solver). simpl. lia.
Qed.

(** ** HELLO lemmas *)

Lemma hello_varint_written pre v rest :
  is_varint v -> zlen (pre ++ varint_bytes v ++ rest) <= i64_max ->
  hello_varint (pre ++ varint_bytes v ++ rest) (zlen pre) =
  Ok (v, zlen (pre ++ varint_bytes v)).
Proof.
  intros Hv Hlen. unfold hello_varint, tail_or_empty. pose proof (varint_bytes_len v).
  pose proof (zlen_nonneg rest). pose proof (zlen_nonneg pre). rewrite !zlen_app in *.
  destruct (Z.leb_spec (zlen pre) (zlen pre + (zlen (varint_bytes v) + zlen rest))); [|lia].
  rewrite zdrop_app, decode_varint_bytes by done. simpl.
  assert (checked_add (zlen pre) (zlen (varint_bytes v)) = Some (zlen pre + zlen (varint_bytes v))) as ->
    by (apply checked_add_Some; split; [done|mlia]).
  done.
Qed.

Definition varints_bytes (values : list Z) : list Z := concat (map varint_bytes values).

Lemma writes_varints values :
  Forall is_varint values -> writes (write_varints values) (varints_bytes values).
Proof.
  induction 1 as [|v values Hv _ IH]; simpl; [apply writes_ret|].
  apply writes_bind; [by apply writes_map_err, writes_varint | done].
Qed.

Lemma hello_extensions_written values pre rest acc :
  Forall is_varint values -> NoDup values -> (forall v, v ∈ values -> v ∉ acc) ->
  zlen (pre ++ varints_bytes values ++ rest) <= i64_max ->
  hello_extensions (length values) (pre ++ varints_bytes values ++ rest) (zlen pre) acc =
  Ok (fold_left (fun a v => set_insert v a) values acc, zlen (pre ++ varints_bytes values)).
Proof.
  intros Hv. revert pre acc. induction Hv as [|v values Hv _ IH]; intros pre acc Hnd Hf Hlen.
  - simpl. by rewrite app_nil_r.
  - apply NoDup_cons in Hnd as [Hn Hnd]. simpl.
    change (varints_bytes (v :: values)) with (varint_bytes v ++ varints_bytes values) in *.
    rewrite <- !app_assoc in *. rewrite hello_varint_written by done. simpl.
    unfold set_contains. rewrite bool_decide_eq_false_2 by (apply Hf; set_solver).
    specialize (IH (pre ++ varint_bytes v) (set_insert v acc)). rewrite <- !app_assoc in IH.
    apply IH; [done| |done]. intros w Hw. rewrite elem_of_set_insert. intros [->|Ha]; [done|].
    apply (Hf w); [set_solver|done].
Qed.

Lemma fold_set_insert_spec values acc :
  set_sorted acc -> set_sorted (fold_left (fun a v => set_insert v a) values acc) /\
  forall x, x ∈ fold_left (fun a v => set_insert v a) values acc <-> x ∈ acc \/ x ∈ values.
Proof.
  revert acc. induction values as [|v values IH]; intros acc Hs; simpl; [set_solver|].
  destruct (IH (set_insert v acc) (set_insert_sorted v acc Hs)) as [H1 H2].
  split; [done|]. intros x. rewrite H2, elem_of_set_insert, elem_of_cons. tauto.
Qed.

Lemma fold_set_insert_sorted values :
  set_sorted values -> fold_left (fun a v => set_insert v a) values [] = values.
Proof.
  intros Hs. destruct (fold_set_insert_spec values [] ltac:(constructor)) as [H1 H2].
  apply set_sorted_ext; [done|done|]. intros x. rewrite H2. set_solver.
Qed.

Definition hello_bytes (h : Hello) : list Z :=
  varint_bytes (draft_revision h) ++ varint_bytes (role_value (endpoint_role h)) ++
  varint_bytes (zlen (extensions h)) ++ varints_bytes (extensions h).

(** A HELLO this revision sends. *)
Definition hello_valid (h : Hello) : Prop :=
  draft_revision h = DRAFT_REVISION /\ set_sorted (extensions h) /\
  Forall is_varint (extensions h) /\ zlen (extensions h) <= MAX_EXTENSIONS_PER_HELLO.

Lemma role_varint r : is_varint (role_value r).
Proof. destruct r; vm_compute; split; discriminate. Qed.
Lemma revision_varint : is_varint DRAFT_REVISION.
Proof. vm_compute. split; discriminate. Qed.
Lemma count_varint h : hello_valid h -> is_varint (zlen (extensions h)).
Proof.
  intros (_ & _ & _ & H). pose proof (zlen_nonneg (extensions h)).
  unfold is_varint, MAX_QUIC_VARINT, MAX_EXTENSIONS_PER_HELLO in *. lia.
Qed.

Lemma writes_hello h : hello_valid h -> writes (encode_hello h) (hello_bytes h).
Proof.
  intros Hh. pose proof (count_varint h Hh) as Hc. destruct Hh as (Hr & _ & Hv & Hn).
  unfold encode_hello, hello_bytes.
  destruct (Z.ltb_spec MAX_EXTENSIONS_PER_HELLO (zlen (extensions h))); [lia|].
  apply writes_bind; [apply writes_map_err, writes_varint; rewrite Hr; exact revision_varint|].
  apply writes_bind; [apply writes_map_err, writes_varint, role_varint|].
  apply writes_bind; [by apply writes_map_err, writes_varint|]. by apply writes_varints.
Qed.

Lemma zlen_varints_bytes values : zlen (varints_bytes values) <= 8 * zlen values.
Proof.
  induction values as [|v values IH]; [done|].
  change (varints_bytes (v :: values)) with (varint_bytes v ++ varints_bytes values).
  rewrite zlen_app, zlen_cons. pose proof (varint_bytes_len v). lia.
Qed.

Lemma hello_bytes_len h : hello_valid h -> zlen (hello_bytes h) <= i64_max.
Proof.
  intros (_ & _ & _ & Hn). unfold hello_bytes. rewrite !zlen_app.
  pose proof (zlen_varints_bytes (extensions h)). pose proof (varint_bytes_len (draft_revision h)).
  pose proof (varint_bytes_len (role_value (endpoint_role h))).
  pose proof (varint_bytes_len (zlen (extensions h))).
  unfold MAX_EXTENSIONS_PER_HELLO in *. mlia.
Qed.

Lemma decode_hello_written h role :
  hello_valid h ->
  decode_hello (hello_bytes h) role =
  if bool_decide (endpoint_role h = role) then Ok h
  else Err (HE_RoleMismatch role (endpoint_role h)).
Proof.
  intros Hh. pose proof (count_varint h Hh) as Hc. pose proof (hello_bytes_len h Hh) as Hlen.
  pose proof Hh as (Hr & Hs & Hv & Hn). unfold decode_hello, hello_bytes in *. rewrite Hr in *.
  set (ext := varints_bytes (extensions h)) in *.
  set (count := varint_bytes (zlen (extensions h))) in *.
  pose proof (hello_varint_written [] DRAFT_REVISION
    (varint_bytes (role_value (endpoint_role h)) ++ count ++ ext) revision_varint) as H1.
  rewrite !app_nil_l in H1. change (zlen []) with 0 in H1. rewrite H1 by done. clear H1. cbv beta iota. rewrite Z.eqb_refl.
  cbn [negb]. rewrite hello_varint_written by (apply role_varint || done). cbv beta iota.
  assert ((if role_value (endpoint_role h) =? 0 then Ok Client else
           if role_value (endpoint_role h) =? 1 then Ok Server
           else Err (HE_Malformed (ValueOutOfRange u64_max))) = Ok (endpoint_role h)) as ->
    by (destruct (endpoint_role h); done).
  destruct (bool_decide_reflect (endpoint_role h = role)) as [<-|]; [|done]. cbn [negb].
  set (pre := varint_bytes DRAFT_REVISION ++ varint_bytes (role_value (endpoint_role h))) in *.
  rewrite app_assoc in Hlen. fold pre in Hlen. rewrite app_assoc. fold pre.
  unfold count in *. rewrite hello_varint_written by done. fold count. cbv beta iota.
  destruct (Z.ltb_spec MAX_EXTENSIONS_PER_HELLO (zlen (extensions h))); [lia|].
  rewrite app_assoc. pose proof (hello_extensions_written (extensions h) (pre ++ count) [] [] Hv) as He.
  rewrite !app_nil_r in He. unfold zlen at 1. rewrite Nat2Z.id. unfold ext.
  rewrite He by (first [by apply set_sorted_NoDup | set_solver | by rewrite <- app_assoc]).
  rewrite fold_set_insert_sorted by done. cbv beta iota. rewrite Z.eqb_refl. cbn [negb]. by destruct h; simpl in *; subst.
Qed.

Lemma hello_varint_inv payload offset v offset' :
  byte_list payload -> hello_varint payload offset = Ok (v, offset') -> is_varint v.
Proof.
  intros Hb. unfold hello_varint.
  destruct (decode_varint (tail_or_empty payload offset)) as [[v' w]|] eqn:Hd; simpl; [|done].
  apply decode_varint_inv in Hd as (Hv & _);
    [|unfold tail_or_empty; destruct (_ <=? _); [by apply Forall_drop|constructor]].
  destruct (checked_add offset w); simpl; [|done]. by intros [= <- <-].
Qed.

Lemma hello_extensions_inv count payload offset acc exts offset' :
  byte_list payload -> set_sorted acc -> Forall is_varint acc ->
  hello_extensions count payload offset acc = Ok (exts, offset') ->
  set_sorted exts /\ Forall is_varint exts /\ length exts = (length acc + count)%nat.
Proof.
  intros Hb. revert offset acc. induction count as [|count IH]; intros offset acc Hs Hv; simpl.
  - intros [= <- <-]. split_and!; [done|done|lia].
  - destruct (hello_varint payload offset) as [[x o]|] eqn:Hx; simpl; [|done].
    apply hello_varint_inv in Hx; [|done]. unfold set_contains.
    case_bool_decide as Hin; [done|]. intros He. apply IH in He as (H1 & H2 & H3).
    + rewrite length_set_insert_new in H3 by done. split_and!; [done|done|lia].
    + by apply set_insert_sorted.
    + rewrite Forall_forall in *. intros y. rewrite elem_of_set_insert. naive_solver.
Qed.

(** ** Properties of HELLO *)

(** HELLO round-trips and is checked.  A valid HELLO (this revision, at
    most 256 distinct extension identifiers in order) is written and read back
    unchanged by a peer that expects its role, and refused as a role mismatch
    by any other. *)
Theorem hello_roundtrip h :
  hello_valid h -> exists out,
    encode_hello h [] = (Ok tt, out) /\ decode_hello out (endpoint_role h) = Ok h /\
    (forall role, role <> endpoint_role h ->
       decode_hello out role = Err (HE_RoleMismatch role (endpoint_role h))).
Proof.
  intros Hh. exists (hello_bytes h). split_and!.
  - apply (writes_hello h Hh []).
  - by rewrite decode_hello_written, bool_decide_eq_true_2.
  - intros role Hne. by rewrite decode_hello_written, bool_decide_eq_false_2.
Qed.

Lemma hello_roundtrip_witness : exists out,
  encode_hello (mkHello DRAFT_REVISION Server [1; 4; 77]) [] = (Ok tt, out) /\
  decode_hello out Server = Ok (mkHello DRAFT_REVISION Server [1; 4; 77]).
Proof.
  destruct (hello_roundtrip (mkHello DRAFT_REVISION Server [1; 4; 77])) as (out & H1 & H2 & _).
  - split; [reflexivity|]. split; [repeat constructor|]. split; [|vm_compute; discriminate].
    repeat constructor; vm_compute; discriminate.
  - exists out. split; [exact H1 | exact H2].
Defined.

Lemma decode_hello_valid payload role h :
  byte_list payload -> decode_hello payload role = Ok h ->
  hello_valid h /\ endpoint_role h = role.
Proof.
  intros Hb. unfold decode_hello.
  destruct (hello_varint payload 0) as [[rev o1]|]; simpl; [|done].
  destruct (Z.eqb_spec rev DRAFT_REVISION) as [->|]; simpl; [|done].
  destruct (hello_varint payload o1) as [[rc o2]|]; simpl; [|done].
  destruct (if rc =? 0 then _ else _) as [r|]; [|done].
  destruct (bool_decide_reflect (r = role)) as [->|]; simpl; [|done].
  destruct (hello_varint payload o2) as [[n o3]|] eqn:Hn; simpl; [|done].
  apply hello_varint_inv in Hn; [|done].
  destruct (Z.ltb_spec MAX_EXTENSIONS_PER_HELLO n); [done|].
  destruct (hello_extensions (Z.to_nat n) payload o3 []) as [[exts o4]|] eqn:He; simpl; [|done].
  apply hello_extensions_inv in He as (Hs & Hv & Hl); [|done|constructor|constructor].
  destruct (o4 =? zlen payload); simpl; [|done]. intros [= <-].
  unfold hello_valid. simpl. split_and!; try done. unfold zlen, is_varint in *. simpl in Hl. lia.
Qed.

(** an accepted HELLO is valid.  Whatever bytes [decode_hello] accepts
    carry this revision, the expected role, and at most 256 distinct extension
    identifiers, which the result holds in strictly increasing order. *)
Theorem decode_hello_sound payload role h :
  byte_list payload -> decode_hello payload role = Ok h ->
  hello_valid h /\ endpoint_role h = role.
Proof. apply decode_hello_valid. Qed.

Lemma decode_hello_sound_witness :
  hello_valid (mkHello DRAFT_REVISION Client [2; 5]) /\ endpoint_role (mkHello DRAFT_REVISION Client [2; 5]) = Client.
Proof.
  apply (decode_hello_sound (varint_bytes DRAFT_REVISION ++ [0; 2; 5; 2])).
  - repeat constructor; vm_compute; discriminate.
  - vm_compute. reflexivity.
Defined.

Lemma settings_roundtrip_witness : exists out,
  encode_settings default_settings [] = (Ok tt, out) /\ decode_settings out = Some (Ok default_settings).
Proof.
  destruct (settings_roundtrip default_settings) as [H1 H2].
  destruct (proj2 H2) as [out Hout]; [reflexivity|].
  exists out. split; [exact Hout | exact (H1 out Hout)].
Defined.

Lemma decode_settings_sound_witness :
  decode_settings (rows_bytes ([(7, 16)] ++ [(7, 17)]) ++ [0xff]) = Some (Err (SE_Duplicate 7)).
Proof.
  apply (proj2 decode_settings_sound [(7, 16)] 7 17 [0xff]).
  - constructor; [|constructor]. split; [vm_compute; split; discriminate|].
    split; [vm_compute; split; discriminate|]. left. reflexivity.
  - by apply (bool_decide_eq_true (NoDup _)).
  - reflexivity.
  - by apply (bool_decide_eq_true (7 ∈ _)).
  - vm_compute. split; discriminate.
  - vm_compute. split; discriminate.
  - vm_compute. discriminate.
Defined.
