(* ===== verification/Coverage.v ===== *)
(** * Coverage: accepted byte ranges (vot-coverage)

    [Coverage] keeps the accepted extents of an object as a map from start to
    exclusive end, coalesced on commit, together with ranges reserved for
    writes in flight.  The model keeps both maps as the sorted association
    lists of [BTree]; a [Booking], which exclusively borrows its coverage, is
    a record that carries it.

    The first half translates the crate; the second shows that the extents
    stay canonical, count every byte once, never outgrow the fragment limit
    under any interleaving of bookings and reservations, and that each
    operation implements its set-of-bytes specification. *)

From S2P Require Import Prelude BTree.

Definition MAX_FRAGMENTS : Z := 4096.
Definition FRAGMENT_PER_BYTES : Z := 8 * 1024 * 1024.

(** [usize] is 64 bits wide, so [usize::try_from] succeeds. *)
Definition fragment_limit (object_len : Z) : Z :=
  Z.max (object_len / FRAGMENT_PER_BYTES) MAX_FRAGMENTS.

Inductive Error :=
| EmptyRange
| LengthExceeded
| PartialOverlap
| ReservedOverlap
| FragmentsExhausted.

Record Coverage := mkCoverage {
  extents : list (Z * Z);
  reserved : list (Z * Z);
  bytes : Z;
  limit : Z }.

Record Booking := mkBooking {
  b_coverage : Coverage; b_offset : Z; b_end : Z; b_next_bytes : Z }.

Inductive Check := Replay | New (booking : Booking).

Record Reservation := mkReservation { r_offset : Z; r_end : Z }.

Inductive Reserve := ReserveReplay | ReserveNew (r : Reservation).

Definition new : Coverage := mkCoverage [] [] 0 MAX_FRAGMENTS.

Definition for_object (object_len : Z) : Coverage :=
  mkCoverage [] [] 0 (fragment_limit object_len).

(** [option.is_some_and(..)]. *)
Definition is_some_and {A} (o : option A) (f : A -> bool) : bool :=
  match o with Some a => f a | None => false end.

Definition overlaps (map : list (Z * Z)) (covered_offset covered_end : Z) : bool :=
  is_some_and (last (range_to covered_offset map)) (fun e => covered_offset <? e.2) ||
  is_some_and (head (range_from covered_offset map)) (fun e => e.1 <? covered_end).

Definition check (self : Coverage) (covered_offset n : Z) : result Check Error :=
  if n =? 0 then Err EmptyRange else
  let? covered_end := ok_or (checked_add covered_offset n) LengthExceeded in
  let earlier := last (range_to_inclusive covered_offset (extents self)) in
  if is_some_and earlier (fun e => covered_end <=? e.2) then Ok Replay else
  let later := head (range_from covered_offset (extents self)) in
  if is_some_and earlier (fun e => covered_offset <? e.2) ||
     is_some_and later (fun e => e.1 <? covered_end) then Err PartialOverlap else
  if overlaps (reserved self) covered_offset covered_end then Err ReservedOverlap else
  let? next_bytes := ok_or (checked_add (bytes self) n) LengthExceeded in
  let merges_earlier := is_some_and earlier (fun e => e.2 =? covered_offset) in
  let merges_later := is_some_and later (fun e => e.1 =? covered_end) in
  if negb merges_earlier && negb merges_later &&
     (limit self <=? zlen (extents self) + zlen (reserved self))
  then Err FragmentsExhausted else
  Ok (New (mkBooking self covered_offset covered_end next_bytes)).

Definition insert_coalesced (m : list (Z * Z)) (covered_offset covered_end : Z) : list (Z * Z) :=
  let '(m1, start) :=
    match last (range_to covered_offset m) with
    | Some (earlier_start, earlier_end) =>
        if earlier_end =? covered_offset then (map_remove earlier_start m, earlier_start)
        else (m, covered_offset)
    | None => (m, covered_offset)
    end in
  let '(m2, stop) :=
    match map_get covered_end m1 with
    | Some later_end => (map_remove covered_end m1, later_end)
    | None => (m1, covered_end)
    end in
  map_insert start stop m2.

(** [Booking::commit]. *)
Definition commit (self : Booking) : Coverage :=
  let coverage := b_coverage self in
  mkCoverage (insert_coalesced (extents coverage) (b_offset self) (b_end self))
    (reserved coverage) (b_next_bytes self) (limit coverage).

Definition covered_bytes (self : Coverage) : Z := bytes self.

Definition contiguous_prefix (self : Coverage) : Z :=
  match map_get 0 (extents self) with Some e => e | None => 0 end.

Definition is_complete (self : Coverage) (length : Z) : bool := bytes self =? length.

Definition fragment_count (self : Coverage) : Z := zlen (extents self).

Definition runs (self : Coverage) : list (Z * Z) :=
  map (fun e => (e.1, e.2 - e.1)) (extents self).

(** The [for] loop of [from_runs]. *)
Fixpoint from_runs_loop (object_len lim index : Z) (rs : list (Z * Z)) (exts : list (Z * Z))
    (total : Z) (previous_end : option Z) : result Coverage Error :=
  match rs with
  | [] => Ok (mkCoverage exts [] total lim)
  | (offset, len) :: rest =>
      if lim <=? index then Err FragmentsExhausted else
      if len =? 0 then Err EmptyRange else
      let? stop := ok_or (checked_add offset len) LengthExceeded in
      if object_len <? stop then Err LengthExceeded else
      if is_some_and previous_end (fun previous => offset <=? previous) then Err PartialOverlap else
      from_runs_loop object_len lim (index + 1) rest (map_insert offset stop exts)
        (total + len) (Some stop)
  end.

Definition from_runs (object_len : Z) (rs : list (Z * Z)) : result Coverage Error :=
  from_runs_loop object_len (fragment_limit object_len) 0 rs [] 0 None.

Definition reserve (self : Coverage) (covered_offset n : Z) : result Reserve Error * Coverage :=
  match check self covered_offset n with
  | Err e => (Err e, self)
  | Ok Replay => (Ok ReserveReplay, self)
  | Ok (New booking) =>
      let covered_end := b_end booking in
      let coverage := b_coverage booking in
      (Ok (ReserveNew (mkReservation covered_offset covered_end)),
       mkCoverage (extents coverage) (map_insert covered_offset covered_end (reserved coverage))
         (bytes coverage) (limit coverage))
  end.

(** The two operations that hand a reservation back.  The key they remove is
    present in every state a client reaches ([reached_inv] below), which is
    what their debug assertions test. *)
Definition commit_reservation (self : Coverage) (r : Reservation) : Coverage :=
  mkCoverage (insert_coalesced (extents self) (r_offset r) (r_end r))
    (map_remove (r_offset r) (reserved self))
    (saturating_add (bytes self) (r_end r - r_offset r)) (limit self).

Definition release_reservation (self : Coverage) (r : Reservation) : Coverage :=
  mkCoverage (extents self) (map_remove (r_offset r) (reserved self)) (bytes self) (limit self).

(** ** Sets of bytes and the invariant *)

Definition covers (m : list (Z * Z)) (x : Z) : Prop := exists s e, (s, e) ∈ m /\ s <= x < e.

(** Nonempty ranges inside the offset space, in order, at least [gap] apart. *)
Record apart (gap : Z) (m : list (Z * Z)) : Prop := {
  ap_sorted : map_sorted m;
  ap_range : forall s e, (s, e) ∈ m -> 0 <= s < e /\ e <= u64_max;
  ap_gap : forall s e s' e', (s, e) ∈ m -> (s', e') ∈ m -> s < s' -> e + gap <= s' }.

Definition clear_of (o e : Z) (m : list (Z * Z)) : Prop :=
  forall s e', (s, e') ∈ m -> e' <= o \/ e <= s.

Definition sum_lengths (m : list (Z * Z)) : Z := foldr (fun e acc => (e.2 - e.1) + acc) 0 m.

(** No extent ends where [r] starts or starts where it ends. *)
Definition isolated (exts : list (Z * Z)) (r : Z * Z) : bool :=
  forallb (fun e => negb (e.2 =? r.1) && negb (e.1 =? r.2)) exts.

Definition pending (exts res : list (Z * Z)) : Z :=
  zlen (filter (fun r => isolated exts r = true) res).

Record coverage_inv (c : Coverage) : Prop := {
  ci_extents : apart 1 (extents c);
  ci_reserved : apart 0 (reserved c);
  ci_disjoint : forall s e, (s, e) ∈ reserved c -> clear_of s e (extents c);
  ci_bytes : bytes c = sum_lengths (extents c);
  ci_limit : zlen (extents c) + pending (extents c) (reserved c) <= limit c }.

(** ** Neighbour queries *)

Section neighbours.
Context (o : Z) (m : list (Z * Z)) (Hs : map_sorted m).

Lemma earlier_inclusive_spec :
  match last (range_to_inclusive o m) with
  | Some (s, e) => (s, e) ∈ m /\ s <= o /\ forall s' e', (s', e') ∈ m -> s' <= o -> s' <= s
  | None => forall s' e', (s', e') ∈ m -> o < s'
  end.
Proof using Hs.
  destruct (last (range_to_inclusive o m)) as [[s e]|] eqn:Hl.
  - apply last_map_Some in Hl as [Hin Hmax]; [|by apply range_to_inclusive_sorted].
    apply elem_of_range_to_inclusive in Hin as [Ho Hin]. split_and!; [done|done|].
    intros s' e' Hin' Ho'. destruct (Hmax (s', e')) as [[= -> ->]|]; simpl in *; try lia.
    by apply elem_of_range_to_inclusive.
  - apply last_None in Hl. intros s' e' Hin. destruct (Z.lt_ge_cases o s'); [done|].
    assert ((s', e') ∈ range_to_inclusive o m) as H' by (by apply elem_of_range_to_inclusive).
    rewrite Hl in H'. set_solver.
Qed.

Lemma earlier_spec :
  match last (range_to o m) with
  | Some (s, e) => (s, e) ∈ m /\ s < o /\ forall s' e', (s', e') ∈ m -> s' < o -> s' <= s
  | None => forall s' e', (s', e') ∈ m -> o <= s'
  end.
Proof using Hs.
  destruct (last (range_to o m)) as [[s e]|] eqn:Hl.
  - apply last_map_Some in Hl as [Hin Hmax]; [|by apply range_to_sorted].
    apply elem_of_range_to in Hin as [Ho Hin]. split_and!; [done|done|].
    intros s' e' Hin' Ho'. destruct (Hmax (s', e')) as [[= -> ->]|]; simpl in *; try lia.
    by apply elem_of_range_to.
  - apply last_None in Hl. intros s' e' Hin. destruct (Z.lt_ge_cases s' o); [|done].
    assert ((s', e') ∈ range_to o m) as H' by (by apply elem_of_range_to).
    rewrite Hl in H'. set_solver.
Qed.

Lemma later_spec :
  match head (range_from o m) with
  | Some (s, e) => (s, e) ∈ m /\ o <= s /\ forall s' e', (s', e') ∈ m -> o <= s' -> s <= s'
  | None => forall s' e', (s', e') ∈ m -> s' < o
  end.
Proof using Hs.
  destruct (head (range_from o m)) as [[s e]|] eqn:Hl.
  - apply head_map_Some in Hl as [Hin Hmin]; [|by apply range_from_sorted].
    apply elem_of_range_from in Hin as [Ho Hin]. split_and!; [done|done|].
    intros s' e' Hin' Ho'. destruct (Hmin (s', e')) as [[= -> ->]|]; simpl in *; try lia.
    by apply elem_of_range_from.
  - intros s' e' Hin. destruct (Z.lt_ge_cases s' o); [done|].
    assert ((s', e') ∈ range_from o m) as H' by (by apply elem_of_range_from).
    destruct (range_from o m); [set_solver|done].
Qed.
End neighbours.

(** Distinct entries of an [apart] map are separated. *)
Lemma apart_either g m s e s' e' :
  apart g m -> (s, e) ∈ m -> (s', e') ∈ m -> (s = s' /\ e = e') \/ e + g <= s' \/ e' + g <= s.
Proof.
  intros [Hs Hr Hg] H1 H2. destruct (Z.lt_trichotomy s s') as [H|[->|H]].
  - right. left. eauto.
  - left. split; [done|]. by eapply map_sorted_key_inj.
  - right. right. eauto.
Qed.

(** Uses an [apart] fact on every pair of entries in the context. *)
Ltac apart_pairs :=
  repeat match goal with
  | Ha : apart ?g ?m, H1 : (?s, ?e) ∈ ?m |- _ =>
      lazymatch goal with
      | _ : 0 <= s < e /\ e <= u64_max |- _ => fail
      | _ => pose proof (ap_range _ _ Ha _ _ H1)
      end
  end;
  repeat match goal with
  | Ha : apart ?g ?m, H1 : (?s, ?e) ∈ ?m, H2 : (?s', ?e') ∈ ?m |- _ =>
      lazymatch goal with
      | _ : (s = s' /\ e = e') \/ e + g <= s' \/ e' + g <= s |- _ => fail
      | _ : (s' = s /\ e' = e) \/ e' + g <= s \/ e + g <= s' |- _ => fail
      | _ => lazymatch constr:((s, e)) with
             | (s', e') => fail
             | _ => pose proof (apart_either _ _ _ _ _ _ Ha H1 H2)
             end
      end
  end.

Lemma overlaps_false m o e :
  apart 0 m -> o < e -> overlaps m o e = false <-> clear_of o e m.
Proof.
  intros Ha Hoe. unfold overlaps, clear_of.
  pose proof (earlier_spec o m (ap_sorted _ _ Ha)) as He.
  pose proof (later_spec o m (ap_sorted _ _ Ha)) as Hl.
  rewrite orb_false_iff. split.
  - intros [H1 H2] s e' Hin. destruct (Z.lt_ge_cases s o).
    + destruct (last _) as [[s1 e1]|]; [|specialize (He _ _ Hin); lia].
      destruct He as (Hin1 & Hlt & Hmax). simpl in H1. apply Z.ltb_ge in H1.
      specialize (Hmax _ _ Hin ltac:(lia)). apart_pairs. lia.
    + destruct (head _) as [[s1 e1]|]; [|specialize (Hl _ _ Hin); lia].
      destruct Hl as (Hin1 & Hle & Hmin). simpl in H2. apply Z.ltb_ge in H2.
      specialize (Hmin _ _ Hin ltac:(lia)). lia.
  - intros Hc. split.
    + destruct (last _) as [[s1 e1]|]; [|done]. destruct He as (Hin & Hlt & _).
      simpl. apply Z.ltb_ge. destruct (Hc _ _ Hin); lia.
    + destruct (head _) as [[s1 e1]|]; [|done]. destruct Hl as (Hin & Hle & _).
      simpl. apply Z.ltb_ge. apart_pairs. destruct (Hc _ _ Hin); lia.
Qed.

Section check_queries.
Context (m : list (Z * Z)) (o e : Z) (Ha : apart 1 m) (Hoe : o < e).
Let earlier := last (range_to_inclusive o m).
Let later := head (range_from o m).

Lemma replay_query :
  is_some_and earlier (fun x => e <=? x.2) = true <->
  exists s e', (s, e') ∈ m /\ s <= o /\ e <= e'.
Proof using Ha Hoe.
  unfold earlier. pose proof (earlier_inclusive_spec o m (ap_sorted _ _ Ha)) as He. split.
  - destruct (last _) as [[s1 e1]|]; [|done]. simpl. rewrite Z.leb_le.
    destruct He as (? & ? & _). eauto.
  - intros (s & e' & Hin & Hs & He'). destruct (last _) as [[s1 e1]|].
    + destruct He as (Hin1 & Hlt & Hmax). specialize (Hmax _ _ Hin Hs). simpl. apply Z.leb_le.
      apart_pairs. lia.
    + specialize (He _ _ Hin). lia.
Qed.

Lemma partial_query :
  is_some_and earlier (fun x => o <? x.2) || is_some_and later (fun x => x.1 <? e) = false <->
  clear_of o e m.
Proof using Ha Hoe.
  unfold earlier, later, clear_of.
  pose proof (earlier_inclusive_spec o m (ap_sorted _ _ Ha)) as He.
  pose proof (later_spec o m (ap_sorted _ _ Ha)) as Hl.
  rewrite orb_false_iff. split.
  - intros [H1 H2] s e' Hin. destruct (Z.lt_ge_cases s o).
    + destruct (last _) as [[s1 e1]|]; [|specialize (He _ _ Hin); lia].
      destruct He as (Hin1 & Hlt & Hmax). simpl in H1. apply Z.ltb_ge in H1.
      specialize (Hmax _ _ Hin ltac:(lia)). apart_pairs. lia.
    + destruct (head _) as [[s1 e1]|]; [|specialize (Hl _ _ Hin); lia].
      destruct Hl as (Hin1 & Hle & Hmin). simpl in H2. apply Z.ltb_ge in H2.
      specialize (Hmin _ _ Hin ltac:(lia)). lia.
  - intros Hc. split.
    + destruct (last _) as [[s1 e1]|]; [|done]. destruct He as (Hin & Hlt & _).
      simpl. apply Z.ltb_ge. apart_pairs. destruct (Hc _ _ Hin); lia.
    + destruct (head _) as [[s1 e1]|]; [|done]. destruct Hl as (Hin & Hle & _).
      simpl. apply Z.ltb_ge. apart_pairs. destruct (Hc _ _ Hin); lia.
Qed.

Lemma merges_query :
  clear_of o e m ->
  negb (is_some_and earlier (fun x => x.2 =? o)) && negb (is_some_and later (fun x => x.1 =? e))
  = isolated m (o, e).
Proof using Ha Hoe.
  intros Hc. unfold earlier, later, isolated. simpl. apply eq_true_iff_eq.
  pose proof (earlier_inclusive_spec o m (ap_sorted _ _ Ha)) as He.
  pose proof (later_spec o m (ap_sorted _ _ Ha)) as Hl.
  rewrite forallb_forall, andb_true_iff, !negb_true_iff. split.
  - intros [H1 H2] [s e'] Hin%list_elem_of_In. simpl. rewrite andb_true_iff, !negb_true_iff, !Z.eqb_neq.
    split; intros ->; apart_pairs.
    + destruct (last _) as [[s1 e1]|]; [|specialize (He _ _ Hin); lia].
      destruct He as (Hin1 & Hlt & Hmax). simpl in H1. apply Z.eqb_neq in H1.
      specialize (Hmax _ _ Hin ltac:(lia)). apart_pairs. destruct (Hc _ _ Hin1); lia.
    + destruct (head _) as [[s1 e1]|]; [|specialize (Hl _ _ Hin); lia].
      destruct Hl as (Hin1 & Hle & Hmin). simpl in H2. apply Z.eqb_neq in H2.
      specialize (Hmin _ _ Hin ltac:(lia)). apart_pairs. destruct (Hc _ _ Hin1); lia.
  - intros Hall. split.
    + destruct (last _) as [[s1 e1]|]; [|done]. destruct He as (Hin & _).
      specialize (Hall (s1, e1) ltac:(by apply list_elem_of_In)).
      apply andb_true_iff in Hall as [H _]. by apply negb_true_iff in H.
    + destruct (head _) as [[s1 e1]|]; [|done]. destruct Hl as (Hin & _).
      specialize (Hall (s1, e1) ltac:(by apply list_elem_of_In)).
      apply andb_true_iff in Hall as [_ H]. by apply negb_true_iff in H.
Qed.
End check_queries.

(** ** Inserting and coalescing *)

Section insert.
Context (m : list (Z * Z)) (o e : Z) (Ha : apart 1 m) (Hoe : 0 <= o < e) (He : e <= u64_max)
  (Hc : clear_of o e m).

(** The merged range: [start] reaches back over an extent ending at [o],
    [stop] forward over one starting at [e]. *)
Definition is_start (start : Z) : Prop :=
  (start, o) ∈ m \/ (start = o /\ forall s, (s, o) ∉ m).
Definition is_stop (stop : Z) : Prop :=
  (e, stop) ∈ m \/ (stop = e /\ forall x, (e, x) ∉ m).

(** [m] without an optional entry. *)
Definition opt_entry (x : Z * Z) : list (Z * Z) := if bool_decide (x ∈ m) then [x] else [].

(** First step: the extent ending at [o] is taken out. *)
Lemma coalesce_earlier : exists start m1,
  is_start start /\
  match last (range_to o m) with
  | Some (es, ee) => if ee =? o then (map_remove es m, es) else (m, o)
  | None => (m, o)
  end = (m1, start) /\ map_sorted m1 /\ (forall x, x ∈ m1 <-> x ∈ m /\ x.2 <> o) /\
  m ≡ₚ opt_entry (start, o) ++ m1.
Proof using Ha Hoe.
  pose proof (ap_sorted _ _ Ha) as Hs. pose proof (earlier_spec o m Hs) as Hsp.
  assert ((forall s, (s, o) ∉ m) -> is_start o /\ (forall x, x ∈ m <-> x ∈ m /\ x.2 <> o) /\
    m ≡ₚ opt_entry (o, o) ++ m) as Hnone.
  { intros Hno. unfold opt_entry. split_and!; [by right| |by rewrite bool_decide_eq_false_2].
    intros [s x]. simpl. split; [|tauto]. intros Hin. split; [done|]. intros ->. by apply (Hno s). }
  destruct (last (range_to o m)) as [[es ee]|].
  - destruct Hsp as (Hin & Hlt & Hmax). destruct (Z.eqb_spec ee o) as [->|Hne].
    + exists es, (map_remove es m). split; [by left|]. split; [done|].
      split; [by apply map_remove_sorted|]. split.
      * intros [s x]. rewrite elem_of_map_remove. simpl. split; intros [H1 H2].
        -- split; [done|]. intros ->. apart_pairs. lia.
        -- split; [|done]. intros ->. apart_pairs. lia.
      * unfold opt_entry. rewrite bool_decide_eq_true_2 by done. by apply map_remove_perm.
    + exists o, m. destruct Hnone as (? & ? & ?); [|done].
      intros s Hin'. apart_pairs. specialize (Hmax _ _ Hin' ltac:(lia)). lia.
  - exists o, m. destruct Hnone as (? & ? & ?); [|done].
    intros s Hin'. specialize (Hsp _ _ Hin'). apart_pairs. lia.
Qed.

(** Second step: the extent starting at [e] is taken out of what is left. *)
Lemma coalesce_later m1 :
  map_sorted m1 -> (forall x, x ∈ m1 <-> x ∈ m /\ x.2 <> o) -> exists stop m2,
  is_stop stop /\
  match map_get e m1 with
  | Some later_end => (map_remove e m1, later_end)
  | None => (m1, e)
  end = (m2, stop) /\ map_sorted m2 /\ (forall x, x ∈ m2 <-> x ∈ m1 /\ x.1 <> e) /\
  m1 ≡ₚ opt_entry (e, stop) ++ m2.
Proof using Ha Hoe.
  intros Hs1 Hm1. unfold opt_entry. destruct (map_get e m1) as [le|] eqn:Hg.
  - apply map_get_Some in Hg; [|done]. pose proof Hg as Hin%Hm1. destruct Hin as [Hin _].
    exists le, (map_remove e m1). split; [by left|]. split; [done|].
    split; [by apply map_remove_sorted|]. split.
    + intros x. rewrite elem_of_map_remove. tauto.
    + rewrite bool_decide_eq_true_2 by done. by apply map_remove_perm.
  - rewrite map_get_None in Hg. assert (forall x, (e, x) ∉ m) as Hno.
    { intros x Hin. apply (Hg (e, x)); [|done]. apply Hm1. split; [done|]. simpl. apart_pairs. lia. }
    exists e, m1. split_and!; [by right|done|done| |by rewrite bool_decide_eq_false_2].
    intros [s x]. split; [|tauto]. intros Hin. split; [done|]. simpl. intros ->. by apply (Hg (e, x)).
Qed.

Lemma elem_of_insert_coalesced : exists start stop,
  is_start start /\ is_stop stop /\
  map_sorted (insert_coalesced m o e) /\
  (forall x, x ∈ insert_coalesced m o e <-> x = (start, stop) \/ (x ∈ m /\ x.2 <> o /\ x.1 <> e)) /\
  exists rest, insert_coalesced m o e ≡ₚ (start, stop) :: rest /\
    m ≡ₚ opt_entry (start, o) ++ opt_entry (e, stop) ++ rest.
Proof using Ha Hoe Hc.
  unfold insert_coalesced.
  destruct coalesce_earlier as (start & m1 & Hstart & -> & Hs1 & Hm1 & Hp1).
  destruct (coalesce_later m1 Hs1 Hm1) as (stop & m2 & Hstop & -> & Hs2 & Hm2 & Hp2).
  assert (forall x, x ∈ m2 -> x.1 <> start) as Hfresh.
  { intros [s x] Hin Heq. simpl in Heq. subst s. apply Hm2 in Hin as [[Hin Hx]%Hm1 Hxe]. simpl in *.
    destruct Hstart as [Hst|[-> Hno]].
    - apart_pairs. lia.
    - apart_pairs. destruct (Hc _ _ Hin); lia. }
  exists start, stop. split_and!; [done|done|by apply map_insert_sorted| |].
  - intros x. rewrite elem_of_map_insert by done. rewrite Hm2, Hm1. split.
    + intros [->|[_ ?]]; [by left | right; tauto].
    + intros [->|?]; [by left | right]. split; [|tauto]. apply Hfresh, Hm2. rewrite Hm1. tauto.
  - exists m2. split; [by apply map_insert_perm|]. rewrite Hp1 at 1. by rewrite Hp2.
Qed.

Lemma sum_lengths_perm m1 m2 : m1 ≡ₚ m2 -> sum_lengths m1 = sum_lengths m2.
Proof using.
  induction 1; unfold sum_lengths in *; simpl; try congruence; lia.
Qed.

Lemma sum_lengths_app m1 m2 : sum_lengths (m1 ++ m2) = sum_lengths m1 + sum_lengths m2.
Proof using. unfold sum_lengths. induction m1; simpl; lia. Qed.

Lemma insert_coalesced_sum : sum_lengths (insert_coalesced m o e) = sum_lengths m + (e - o).
Proof using Ha Hoe Hc.
  destruct elem_of_insert_coalesced as (start & stop & Hst & Hsp & _ & _ & rest & Hp1 & Hp2).
  rewrite (sum_lengths_perm _ _ Hp1), (sum_lengths_perm _ _ Hp2), !sum_lengths_app.
  unfold opt_entry. destruct Hst as [Hst|[-> Hno]], Hsp as [Hsp|[-> Hno']];
    repeat (first [rewrite bool_decide_eq_true_2 by done | rewrite bool_decide_eq_false_2 by done]);
    unfold sum_lengths; simpl; lia.
Qed.

Lemma isolated_spec (r : Z * Z) :
  isolated m r = true <-> (forall s, (s, r.1) ∉ m) /\ (forall x, (r.2, x) ∉ m).
Proof using.
  unfold isolated. rewrite forallb_forall. split.
  - intros Hall. split; intros x Hin%list_elem_of_In%Hall; simpl in Hin;
      rewrite Z.eqb_refl in Hin; [done|by rewrite andb_false_r in Hin].
  - intros [H1 H2] [s x] Hin%list_elem_of_In. simpl.
    rewrite andb_true_iff, !negb_true_iff, !Z.eqb_neq. split; intros ->; [by apply (H1 s)|by apply (H2 x)].
Qed.

(** A merged insert adds no fragment; an isolated one adds exactly one. *)
Lemma insert_coalesced_length :
  if isolated m (o, e) then zlen (insert_coalesced m o e) = zlen m + 1
  else zlen (insert_coalesced m o e) <= zlen m.
Proof using Ha Hoe Hc.
  destruct elem_of_insert_coalesced as (start & stop & Hst & Hsp & _ & _ & rest & Hp1 & Hp2).
  unfold zlen. rewrite (Permutation_length Hp1), (Permutation_length Hp2), !length_app.
  destruct (isolated m (o, e)) eqn:Hi.
  - apply isolated_spec in Hi as [H1 H2]. simpl in *. unfold opt_entry.
    rewrite !bool_decide_eq_false_2 by done. simpl. lia.
  - unfold opt_entry. destruct Hst as [Hst|[-> Hno]].
    { rewrite (bool_decide_eq_true_2 ((start, o) ∈ m)) by done. simpl. lia. }
    destruct Hsp as [Hsp|[-> Hno']].
    { rewrite (bool_decide_eq_true_2 ((e, stop) ∈ m)) by done. simpl. lia. }
    assert (isolated m (o, e) = true) by (by apply isolated_spec). congruence.
Qed.

Lemma insert_coalesced_apart : apart 1 (insert_coalesced m o e).
Proof using Ha Hoe He Hc.
  destruct elem_of_insert_coalesced as (start & stop & Hst & Hsp & Hs & Hin & _).
  assert (0 <= start <= o /\ e <= stop <= u64_max) as Hb.
  { unfold is_start, is_stop in *. destruct Hst, Hsp; apart_pairs; lia. }
  assert (forall s x, (s, x) ∈ m -> x <> o -> s <> e -> x + 1 <= start \/ stop + 1 <= s) as Hfar.
  { intros s x Hm Hx Hs'. destruct (Hc _ _ Hm); unfold is_start, is_stop in *;
      destruct Hst as [Hst|[-> ?]], Hsp as [Hsp|[-> ?]]; apart_pairs; lia. }
  split; [done|..].
  - intros s x. rewrite Hin. intros [[= -> ->]|(Hm & _)]; [lia|]. apart_pairs. lia.
  - intros s x s' x'. rewrite !Hin. intros [[= -> ->]|(Hm & Hx & Hs')] [[= -> ->]|(Hm' & Hx' & Hs'')] Hlt;
      simpl in *.
    + lia.
    + destruct (Hfar _ _ Hm' Hx' Hs''); apart_pairs; lia.
    + destruct (Hfar _ _ Hm Hx Hs'); apart_pairs; lia.
    + apart_pairs. lia.
Qed.

Lemma insert_coalesced_covers x : covers (insert_coalesced m o e) x <-> covers m x \/ o <= x < e.
Proof using Ha Hoe Hc.
  destruct elem_of_insert_coalesced as (start & stop & Hst & Hsp & _ & Hin & _).
  unfold covers. split.
  - intros (s & y & H & Hx). apply Hin in H as [[= -> ->]|(Hm & _)]; [|left; eauto].
    destruct (Z.lt_ge_cases x o), (Z.lt_ge_cases x e); unfold is_start, is_stop in *; try lia;
      destruct Hst as [Hst|[-> ?]], Hsp as [Hsp|[-> ?]]; try lia; left;
      first [exists start, o; split; [done|lia] | exists e, stop; split; [done|lia]].
  - assert (start <= o /\ e <= stop) as Hb.
    { unfold is_start, is_stop in *. destruct Hst, Hsp; apart_pairs; lia. }
    intros [(s & y & Hm & Hx)|Hx].
    + destruct (Z.eq_dec y o) as [->|Hy]; [|destruct (Z.eq_dec s e) as [->|Hs]].
      * exists start, stop. split; [apply Hin; by left|].
        destruct Hst as [Hst|[-> Hno]]; [apart_pairs; lia | by destruct (Hno s)].
      * exists start, stop. split; [apply Hin; by left|].
        destruct Hsp as [Hsp|[-> Hno]]; [apart_pairs; lia | by destruct (Hno y)].
      * exists s, y. split; [|done]. apply Hin. right. done.
    + exists start, stop. split; [apply Hin; by left|lia].
Qed.

(** Adjacency survives: a range clear of [o, e) that touched an extent before
    the insert touches one after it. *)
Lemma isolated_mono r :
  clear_of o e [r] -> r.1 < r.2 ->
  isolated (insert_coalesced m o e) r = true -> isolated m r = true.
Proof using Ha Hoe He Hc.
  destruct elem_of_insert_coalesced as (start & stop & Hst & Hsp & _ & Hin & _).
  destruct r as [rs re]. intros Hcr Hr Hi. simpl in Hr.
  specialize (Hcr rs re ltac:(set_solver)).
  unfold isolated in Hi. rewrite forallb_forall in Hi.
  assert (forall s y, (s, y) ∈ insert_coalesced m o e -> y <> rs /\ s <> re) as Hi'.
  { intros s y Hm%list_elem_of_In%Hi. simpl in Hm.
    rewrite andb_true_iff, !negb_true_iff, !Z.eqb_neq in Hm. done. }
  destruct (Hi' start stop) as [H1 H2]; [apply Hin; by left|].
  apply isolated_spec. simpl. split; intros x Hm.
  - destruct (Z.eq_dec x e) as [->|Hx].
    + destruct Hsp as [Hsp|[-> Hno]]; [apart_pairs; lia|by destruct (Hno rs)].
    + destruct (Hi' x rs) as [? _]; [|done]. apply Hin. right. split_and!; simpl; [done|lia|done].
  - destruct (Z.eq_dec x o) as [->|Hx].
    + destruct Hst as [Hst|[-> Hno]]; [apart_pairs; lia|by destruct (Hno re)].
    + destruct (Hi' re x) as [_ ?]; [|done]. apply Hin. right. split_and!; simpl; [done|done|lia].
Qed.

(** A range clear of the extents and of the inserted range stays clear. *)
Lemma insert_coalesced_clear s x :
  s < x -> clear_of s x m -> x <= o \/ e <= s -> clear_of s x (insert_coalesced m o e).
Proof using Ha Hoe He Hc.
  destruct elem_of_insert_coalesced as (start & stop & Hst & Hsp & _ & Hin & _).
  intros Hsx Hcl Hout s' x' [[= -> ->]|(Hm & _)]%Hin; [|by apply Hcl].
  unfold is_start, is_stop in *.
  destruct Hst as [Hst|[-> _]], Hsp as [Hsp|[-> _]];
    repeat match goal with H : (_, _) ∈ m |- _ => pose proof (Hcl _ _ H); revert H end;
    intros; apart_pairs; lia.
Qed.
End insert.

(** ** Sums and counts *)

Lemma sum_lengths_bound_from m lo hi :
  apart 1 m -> lo <= hi -> (forall s e, (s, e) ∈ m -> lo <= s /\ e <= hi) ->
  sum_lengths m <= hi - lo.
Proof.
  revert lo. induction m as [|[s e] m IH]; intros lo Ha Hle Hlo; unfold sum_lengths in *; simpl; [lia|].
  assert ((s, e) ∈ (s, e) :: m) as Hin by set_solver.
  assert (apart 1 m) as Ha'.
  { destruct Ha as [Hs Hr Hgap]. split.
    - by apply map_sorted_cons in Hs as [? _].
    - intros s' e' H. apply (Hr s' e'). set_solver.
    - intros s1 e1 s2 e2 H1 H2. apply (Hgap s1 e1 s2 e2); set_solver. }
  pose proof (ap_range _ _ Ha _ _ Hin). pose proof (Hlo _ _ Hin).
  assert (foldr (fun x acc => (x.2 - x.1) + acc) 0 m <= hi - e); [|lia].
  apply IH; [done|lia|]. intros s' e' Hin'. split; [|apply (Hlo s'); set_solver].
  assert (s < s') as Hlt.
  { destruct Ha as [Hs _ _]. apply map_sorted_cons in Hs as [_ Hs]. by apply (Hs (s', e')). }
  pose proof (ap_gap _ _ Ha s e s' e' Hin ltac:(set_solver) Hlt). lia.
Qed.

Lemma sum_lengths_bound m : apart 1 m -> sum_lengths m <= u64_max.
Proof.
  intros Ha. assert (sum_lengths m <= u64_max - 0); [|lia].
  apply sum_lengths_bound_from; [done|mlia|]. intros s e Hin. apart_pairs. lia.
Qed.

Lemma filter_length_mono {A} (P Q : A -> Prop) `{!forall x, Decision (P x), !forall x, Decision (Q x)} l :
  (forall x, x ∈ l -> P x -> Q x) -> zlen (filter P l) <= zlen (filter Q l).
Proof.
  unfold zlen. induction l as [|x l IH]; intros HPQ; [done|].
  assert (forall y, y ∈ l -> P y -> Q y) as HPQ' by (intros; apply HPQ; set_solver).
  specialize (IH HPQ'). rewrite !filter_cons.
  pose proof (HPQ x ltac:(set_solver)). destruct (decide (P x)), (decide (Q x)); simpl; try lia. tauto.
Qed.

Lemma pending_le m res : 0 <= pending m res <= zlen res.
Proof. unfold pending, zlen. pose proof (length_filter (fun r => isolated m r = true) res). lia. Qed.

Lemma pending_cons m r res res' :
  res' ≡ₚ r :: res -> pending m res' = (if isolated m r then 1 else 0) + pending m res.
Proof.
  intros Hp. unfold pending, zlen.
  rewrite (Permutation_length (filter_Permutation (fun r => isolated m r = true) _ _ Hp)), filter_cons.
  destruct (isolated m r); simpl; lia.
Qed.

Lemma pending_insert m o e res :
  apart 1 m -> 0 <= o < e -> e <= u64_max -> clear_of o e m -> clear_of o e res -> apart 0 res ->
  pending (insert_coalesced m o e) res <= pending m res.
Proof.
  intros Ha Ho He Hc Hcr Har. apply filter_length_mono. intros [s x] Hin.
  apply isolated_mono; try done.
  - intros s' x' [= -> ->]%list_elem_of_singleton. by apply Hcr.
  - apart_pairs. simpl. lia.
Qed.

Lemma apart_remove g k m : apart g m -> apart g (map_remove k m).
Proof.
  intros Ha. split.
  - by apply map_remove_sorted, Ha.
  - intros s e [_ H]%elem_of_map_remove. by apply (ap_range _ _ Ha).
  - intros s e s' e' [_ H1]%elem_of_map_remove [_ H2]%elem_of_map_remove.
    by apply (ap_gap _ _ Ha s e s' e').
Qed.

Lemma clear_of_fresh o e g m : apart g m -> o < e -> clear_of o e m -> forall x, x ∈ m -> x.1 <> o.
Proof. intros Ha Ho Hc [s x] Hin Heq. simpl in Heq. subst. apart_pairs. destruct (Hc _ _ Hin); lia. Qed.

(** ** The operations preserve the invariant *)

Lemma check_new c o n b :
  coverage_inv c -> 0 <= o -> 0 <= n -> check c o n = Ok (New b) ->
  b = mkBooking c o (o + n) (bytes c + n) /\ 0 < n /\ o + n <= u64_max /\
  clear_of o (o + n) (extents c) /\ clear_of o (o + n) (reserved c) /\
  (isolated (extents c) (o, o + n) = true -> zlen (extents c) + zlen (reserved c) < limit c).
Proof.
  intros [He Hr _ Hb _] Ho Hn. unfold check. destruct (Z.eqb_spec n 0); [done|].
  destruct (checked_add o n) as [stop|] eqn:Hadd; [|done]. apply checked_add_Some in Hadd as [-> Hstop].
  simpl. destruct (is_some_and _ _); [done|].
  destruct (_ || _) eqn:Hpart; [done|]. apply partial_query in Hpart; [|done|lia].
  destruct (overlaps _ _ _) eqn:Hover; [done|]. apply overlaps_false in Hover; [|done|lia].
  destruct (checked_add (bytes c) n) as [next|] eqn:Hadd2; [|done].
  apply checked_add_Some in Hadd2 as [-> _]. simpl.
  rewrite merges_query by (done || lia).
  destruct (isolated _ _) eqn:Hi; simpl.
  - destruct (Z.leb_spec (limit c) (zlen (extents c) + zlen (reserved c))); [done|].
    intros [= <-]. split_and!; try done; lia.
  - intros [= <-]. split_and!; try done; lia.
Qed.

Lemma commit_inv c o n b :
  coverage_inv c -> 0 <= o -> 0 <= n -> check c o n = Ok (New b) -> coverage_inv (commit b).
Proof.
  intros Hc Ho Hn (-> & Hpos & Hmax & Hce & Hcr & Hiso)%check_new; try done.
  destruct Hc as [He Hr Hd Hb Hl]. unfold commit. simpl.
  assert (0 <= o < o + n) as Hoe by lia. split; simpl.
  - by apply insert_coalesced_apart.
  - done.
  - intros s e Hin. pose proof (ap_range _ _ Hr _ _ Hin).
    apply insert_coalesced_clear; try done; [lia|by apply Hd|]. destruct (Hcr _ _ Hin); lia.
  - rewrite insert_coalesced_sum by done. lia.
  - pose proof (pending_insert (extents c) o (o + n) (reserved c) He Hoe Hmax Hce Hcr Hr).
    pose proof (insert_coalesced_length (extents c) o (o + n) He Hoe Hce).
    pose proof (pending_le (extents c) (reserved c)).
    destruct (isolated (extents c) (o, o + n)); [specialize (Hiso eq_refl)|]; lia.
Qed.

Lemma reserve_new c o n r c' :
  coverage_inv c -> 0 <= o -> 0 <= n -> reserve c o n = (Ok (ReserveNew r), c') ->
  r = mkReservation o (o + n) /\ 0 < n /\
  c' = mkCoverage (extents c) (map_insert o (o + n) (reserved c)) (bytes c) (limit c) /\
  (forall x, x ∈ reserved c -> x.1 <> o) /\ coverage_inv c'.
Proof.
  intros Hc Ho Hn. unfold reserve.
  destruct (check c o n) as [[|b]|e] eqn:Hck; [done| |done].
  apply check_new in Hck as (-> & Hpos & Hmax & Hce & Hcr & Hiso); [|done..]. simpl.
  intros [= <- <-]. destruct Hc as [He Hr Hd Hb Hl].
  pose proof (clear_of_fresh o (o + n) 0 (reserved c) Hr ltac:(lia) Hcr) as Hfresh.
  pose proof (fun x => elem_of_map_insert o (o + n) (reserved c) x (ap_sorted _ _ Hr)) as Hin.
  split_and!; try done. split; simpl; try done.
  - split.
    + by apply map_insert_sorted, Hr.
    + intros s e. rewrite Hin. intros [[= -> ->]|[_ Hm]]; [lia|by apply (ap_range _ _ Hr)].
    + intros s e s' e'. rewrite !Hin. intros [[= -> ->]|[_ Hm]] [[= -> ->]|[_ Hm']] Hlt; try lia.
      * destruct (Hcr _ _ Hm'); apart_pairs; lia.
      * destruct (Hcr _ _ Hm); apart_pairs; lia.
      * apart_pairs. lia.
  - intros s e. rewrite Hin. intros [[= -> ->]|[_ Hm]]; [done|by apply Hd].
  - rewrite (pending_cons _ _ _ _ (map_insert_perm o (o + n) _ Hfresh)).
    pose proof (pending_le (extents c) (reserved c)).
    destruct (isolated _ _); [specialize (Hiso eq_refl)|]; lia.
Qed.

Lemma release_inv c r :
  coverage_inv c -> (r_offset r, r_end r) ∈ reserved c -> coverage_inv (release_reservation c r).
Proof.
  intros [He Hr Hd Hb Hl] Hin. split; simpl; try done.
  - by apply apart_remove.
  - intros s e [_ Hm]%elem_of_map_remove. by apply Hd.
  - pose proof (pending_cons (extents c) _ _ _ (map_remove_perm _ _ _ (ap_sorted _ _ Hr) Hin)).
    destruct (isolated _ _); lia.
Qed.

Lemma commit_reservation_inv c r :
  coverage_inv c -> (r_offset r, r_end r) ∈ reserved c -> coverage_inv (commit_reservation c r).
Proof.
  destruct r as [o e]. simpl. intros [He Hr Hd Hb Hl] Hin.
  pose proof (ap_range _ _ Hr _ _ Hin) as [Hoe Hmax].
  pose proof (Hd _ _ Hin) as Hce.
  assert (clear_of o e (map_remove o (reserved c))) as Hcr.
  { intros s x [Hne Hm]%elem_of_map_remove. simpl in Hne. apart_pairs. lia. }
  unfold commit_reservation. split; simpl.
  - by apply insert_coalesced_apart.
  - by apply apart_remove.
  - intros s x [Hne Hm]%elem_of_map_remove. simpl in Hne. pose proof (ap_range _ _ Hr _ _ Hm).
    apply insert_coalesced_clear; try done; [lia|by apply Hd|]. apart_pairs. lia.
  - pose proof (sum_lengths_bound _ (insert_coalesced_apart _ o e He Hoe Hmax Hce)) as Hsum.
    rewrite insert_coalesced_sum in * by done. unfold saturating_add. lia.
  - pose proof (pending_insert (extents c) o e _ He Hoe Hmax Hce Hcr (apart_remove _ _ _ Hr)).
    pose proof (insert_coalesced_length (extents c) o e He Hoe Hce).
    pose proof (pending_cons (extents c) _ _ _ (map_remove_perm _ _ _ (ap_sorted _ _ Hr) Hin)).
    destruct (isolated (extents c) (o, e)); lia.
Qed.

Lemma fragment_limit_pos object_len : MAX_FRAGMENTS <= fragment_limit object_len.
Proof. unfold fragment_limit. lia. Qed.

Lemma empty_inv lim : 0 <= lim -> coverage_inv (mkCoverage [] [] 0 lim).
Proof.
  intros Hl. split; simpl; try done; try (split; [constructor|set_solver|set_solver]); set_solver.
Qed.

(** ** Restoring persisted runs *)

(** Runs as [Coverage::runs] emits them: nonempty, inside the object, in order
    with a gap after each. *)
Fixpoint runs_ok (object_len : Z) (previous : option Z) (rs : list (Z * Z)) : Prop :=
  match rs with
  | [] => True
  | (o, n) :: rest =>
      0 <= o /\ 0 < n /\ o + n <= object_len /\
      match previous with Some p => p < o | None => True end /\
      runs_ok object_len (Some (o + n)) rest
  end.

Definition run_extent (r : Z * Z) : Z * Z := (r.1, r.1 + r.2).

Lemma map_insert_snoc k v (m : list (Z * Z)) :
  (forall x, x ∈ m -> x.1 < k) -> map_insert k v m = m ++ [(k, v)].
Proof.
  induction m as [|[j w] m IH]; intros Hlt; [done|]. simpl.
  assert (j < k) by (apply (Hlt (j, w)); set_solver).
  destruct (Z.ltb_spec k j); [lia|]. destruct (Z.eqb_spec k j); [lia|].
  rewrite IH; [done|]. intros x Hx. apply Hlt. set_solver.
Qed.

Lemma sum_lengths_snoc m s e : sum_lengths (m ++ [(s, e)]) = sum_lengths m + (e - s).
Proof. rewrite sum_lengths_app. unfold sum_lengths. simpl. lia. Qed.

Lemma apart_snoc m o e :
  apart 1 m -> 0 <= o < e -> e <= u64_max -> (forall s x, (s, x) ∈ m -> x < o) ->
  apart 1 (m ++ [(o, e)]).
Proof.
  intros Ha Hoe He Hlt. split.
  - rewrite <- (map_insert_snoc o e); [by apply map_insert_sorted, Ha|].
    intros [s x] Hm. specialize (Hlt _ _ Hm). apart_pairs. simpl. lia.
  - intros s x [Hm|[= -> ->]%list_elem_of_singleton]%elem_of_app; [by apply (ap_range _ _ Ha)|lia].
  - intros s x s' x' [Hm|[= -> ->]%list_elem_of_singleton]%elem_of_app
      [Hm'|[= -> ->]%list_elem_of_singleton]%elem_of_app Hss; try lia.
    + apart_pairs. lia.
    + specialize (Hlt _ _ Hm). lia.
    + specialize (Hlt _ _ Hm'). apart_pairs. lia.
Qed.

Definition before (previous : option Z) (m : list (Z * Z)) : Prop :=
  match previous with
  | Some p => forall s e, (s, e) ∈ m -> e <= p
  | None => m = []
  end.

Lemma from_runs_loop_spec object_len lim rs :
  object_len <= u64_max -> Forall (fun r => 0 <= r.1 /\ 0 <= r.2) rs ->
  forall index exts total previous,
  apart 1 exts -> before previous exts -> index = zlen exts -> total = sum_lengths exts ->
  (forall s e, (s, e) ∈ exts -> e <= object_len) -> index <= lim ->
  match from_runs_loop object_len lim index rs exts total previous with
  | Ok c => runs_ok object_len previous rs /\ zlen exts + zlen rs <= lim /\
      c = mkCoverage (exts ++ map run_extent rs) [] (sum_lengths (exts ++ map run_extent rs)) lim /\
      apart 1 (extents c) /\ (forall s e, (s, e) ∈ extents c -> e <= object_len)
  | Err _ => ~ (runs_ok object_len previous rs /\ zlen exts + zlen rs <= lim)
  end.
Proof.
  intros Hlen. induction rs as [|[o n] rs IH]; intros Hnn index exts total previous Ha Hb -> -> Hin Hlim; simpl.
  - rewrite app_nil_r. change (zlen []) with 0. split_and!; try done. lia.
  - inversion_clear Hnn as [|? ? [Ho Hn] Hrest]. simpl in Ho, Hn. rewrite zlen_cons.
    pose proof (zlen_nonneg rs).
    destruct (Z.leb_spec lim (zlen exts)); [intros [_ ?]; lia|].
    destruct (Z.eqb_spec n 0); [intros [(_ & ? & _) _]; lia|].
    destruct (checked_add o n) as [stop|] eqn:Hadd; simpl.
    2: { apply checked_add_None in Hadd. intros [(_ & _ & ? & _) _]. lia. }
    apply checked_add_Some in Hadd as [-> Hstop].
    destruct (Z.ltb_spec object_len (o + n)); [intros [(_ & _ & ? & _) _]; lia|].
    destruct (is_some_and previous _) eqn:Hprev.
    { destruct previous as [p|]; [|done]. simpl in Hprev. apply Z.leb_le in Hprev.
      intros [(_ & _ & _ & ? & _) _]. lia. }
    assert (forall s e, (s, e) ∈ exts -> e < o) as Hlt.
    { intros s e Hm. destruct previous as [p|]; simpl in *; [|subst; set_solver].
      apply Z.leb_gt in Hprev. specialize (Hb _ _ Hm). lia. }
    rewrite map_insert_snoc by (intros [s e] Hm; specialize (Hlt _ _ Hm); apart_pairs; simpl; lia).
    pose proof (apart_snoc exts o (o + n) Ha ltac:(lia) ltac:(mlia) Hlt) as Ha'.
    specialize (IH Hrest (zlen exts + 1) (exts ++ [(o, o + n)]) (sum_lengths exts + n) (Some (o + n)) Ha').
    rewrite zlen_app, zlen_cons, zlen_nil, <- app_assoc in IH. simpl in IH.
    rewrite sum_lengths_snoc in IH.
    specialize (IH ltac:(intros s e [Hm|[= -> ->]%list_elem_of_singleton]%elem_of_app; [specialize (Hlt _ _ Hm); lia|lia])
      ltac:(lia) ltac:(lia)
      ltac:(intros s e [Hm|[= -> ->]%list_elem_of_singleton]%elem_of_app; [by apply (Hin s)|lia]) ltac:(lia)).
    assert (match previous with Some p => p < o | None => True end) as Hp.
    { destruct previous; [|done]. simpl in Hprev. by apply Z.leb_gt in Hprev. }
    destruct (from_runs_loop _ _ _ _ _ _ _) as [c|err].
    + destruct IH as (? & ? & ? & ? & ?). split_and!; try done; lia.
    + intros [(_ & _ & _ & _ & Hok) Hl]. apply IH. split; [done|lia].
Qed.

(** ** Clients of a coverage

    A client holds the reservations it was handed; it may book and commit a
    range, reserve one, hand any reservation back by committing or releasing
    it, or lose it.  Offsets and lengths are [u64]. *)
Definition Client : Type := Coverage * list Reservation.

Inductive client_step : Client -> Client -> Prop :=
| step_book c h o n b :
    is_u64 o -> is_u64 n -> check c o n = Ok (New b) -> client_step (c, h) (commit b, h)
| step_reserve c h o n r c' :
    is_u64 o -> is_u64 n -> reserve c o n = (Ok (ReserveNew r), c') ->
    client_step (c, h) (c', r :: h)
| step_commit c h1 r h2 :
    client_step (c, h1 ++ r :: h2) (commit_reservation c r, h1 ++ h2)
| step_release c h1 r h2 :
    client_step (c, h1 ++ r :: h2) (release_reservation c r, h1 ++ h2)
| step_lose c h1 r h2 :
    client_step (c, h1 ++ r :: h2) (c, h1 ++ h2).

Inductive client_start : Client -> Prop :=
| start_new : client_start (new, [])
| start_object n : is_u64 n -> client_start (for_object n, [])
| start_runs n rs c :
    is_u64 n -> Forall (fun r => is_u64 r.1 /\ is_u64 r.2) rs -> from_runs n rs = Ok c ->
    client_start (c, []).

Inductive client_reached : Client -> Prop :=
| reached_start s : client_start s -> client_reached s
| reached_step s s' : client_reached s -> client_step s s' -> client_reached s'.

Definition held_ok (c : Coverage) (h : list Reservation) : Prop :=
  Forall (fun r => (r_offset r, r_end r) ∈ reserved c) h /\ NoDup (map r_offset h).

Lemma from_runs_ok n rs c :
  is_u64 n -> Forall (fun r => is_u64 r.1 /\ is_u64 r.2) rs -> from_runs n rs = Ok c ->
  coverage_inv c /\ runs_ok n None rs /\ extents c = map run_extent rs /\ reserved c = [] /\
  limit c = fragment_limit n /\ (forall s e, (s, e) ∈ extents c -> e <= n).
Proof.
  intros Hn Hrs Hf. pose proof (fragment_limit_pos n) as Hl. unfold MAX_FRAGMENTS in Hl.
  pose proof (from_runs_loop_spec n (fragment_limit n) rs ltac:(unfold is_u64 in Hn; lia)
    ltac:(eapply Forall_impl; [exact Hrs|]; unfold is_u64; simpl; intros; lia)
    0 [] 0 None ltac:(apply (ci_extents _ (empty_inv 0 ltac:(lia)))) eq_refl eq_refl eq_refl
    ltac:(set_solver) ltac:(lia)) as H.
  unfold from_runs in Hf. rewrite Hf in H. destruct H as (Hok & Hlen & -> & Ha & Hin). simpl in *.
  split_and!; try done. split; simpl; try done.
  - split; [constructor|set_solver|set_solver].
  - set_solver.
  - change (pending (map run_extent rs) []) with 0. unfold zlen in *. rewrite length_map. simpl in *. lia.
Qed.

Lemma held_ok_app c h1 r h2 :
  held_ok c (h1 ++ r :: h2) ->
  (r_offset r, r_end r) ∈ reserved c /\ held_ok c (h1 ++ h2) /\
  Forall (fun r' => r_offset r' <> r_offset r) (h1 ++ h2).
Proof.
  intros [Hf Hn]. rewrite map_app in Hn. simpl in Hn.
  apply Forall_app in Hf as [Hf1 Hf2]. apply Forall_cons in Hf2 as [Hr Hf2].
  pose proof (Permutation_middle (map r_offset h1) (map r_offset h2) (r_offset r)) as Hp.
  rewrite <- Hp in Hn. apply NoDup_cons in Hn as [Hni Hn].
  split_and!; [done| |].
  - split; [by apply Forall_app|by rewrite map_app].
  - apply Forall_forall. intros r' Hr' Heq. apply Hni. rewrite <- map_app, <- Heq.
    apply list_elem_of_fmap. eauto.
Qed.

Lemma held_ok_remove c h k exts n lim :
  held_ok c h -> Forall (fun r' => r_offset r' <> k) h ->
  held_ok (mkCoverage exts (map_remove k (reserved c)) n lim) h.
Proof.
  intros [Hf Hn] Hk. split; [|done]. simpl. rewrite Forall_forall in *. intros r Hr.
  apply elem_of_map_remove. split; [by apply Hk|by apply Hf].
Qed.

Lemma client_step_inv c h c' h' :
  client_step (c, h) (c', h') -> coverage_inv c -> held_ok c h ->
  coverage_inv c' /\ held_ok c' h'.
Proof.
  intros Hst Hc Hh. inversion Hst; subst; unfold is_u64 in *.
  - split; [by eapply commit_inv; eauto; lia|].
    match goal with H : check _ _ _ = _ |- _ => apply check_new in H as (-> & _); [|done|lia|lia] end.
    exact Hh.
  - match goal with H : reserve _ _ _ = _ |- _ =>
      apply reserve_new in H as (-> & Hpos & -> & Hfresh & Hinv); [|done|lia|lia] end.
    split; [done|]. destruct Hh as [Hf Hn]. rewrite Forall_forall in Hf. split; simpl.
    + apply Forall_forall. intros r Hr. apply elem_of_map_insert; [apply (ci_reserved _ Hc)|].
      apply elem_of_cons in Hr as [->|Hr]; [by left|]. right.
      split; [exact (Hfresh _ (Hf _ Hr))|by apply Hf].
    + apply NoDup_cons. split; [|done]. intros (r & Heq & Hr)%list_elem_of_fmap.
      apply (Hfresh _ (Hf _ Hr)). simpl. done.
  - apply held_ok_app in Hh as (Hr & Hh & Hne). split; [by apply commit_reservation_inv|].
    by apply held_ok_remove.
  - apply held_ok_app in Hh as (Hr & Hh & Hne). split; [by apply release_inv|].
    by apply held_ok_remove.
  - apply held_ok_app in Hh as (_ & Hh & _). done.
Qed.

Lemma reached_inv s : client_reached s -> coverage_inv s.1 /\ held_ok s.1 s.2.
Proof.
  induction 1 as [s Hs|[c h] [c' h'] _ [Hc Hh] Hst]; [|by eapply client_step_inv].
  assert (forall c, held_ok c []) as Hnil by (intros; split; constructor).
  pose proof (fragment_limit_pos) as Hl. unfold MAX_FRAGMENTS in Hl.
  destruct Hs as [|n Hn|n rs c Hn Hrs Hf]; simpl; (split; [|done]).
  - by apply empty_inv.
  - apply empty_inv. specialize (Hl n). lia.
  - by eapply from_runs_ok in Hf as [? _].
Qed.

(** ** Byte-set facts *)

#[export] Instance covers_dec m x : Decision (covers m x).
Proof.
  refine (cast_if (decide (Exists (fun p => p.1 <= x < p.2) m))).
  - apply Exists_exists in e as ([s y] & Hin & Hx). by exists s, y.
  - intros (s & y & Hin & Hx). apply n, Exists_exists. by exists (s, y).
Defined.

Lemma range_dec (P : Z -> Prop) `{!forall x, Decision (P x)} o e :
  (forall x, o <= x < e -> P x) \/ (exists x, o <= x < e /\ ~ P x).
Proof.
  destruct (decide (Forall P (seqZ o (e - o)))) as [Hall|Hnot].
  - left. intros x Hx. rewrite Forall_forall in Hall. apply Hall, elem_of_seqZ. lia.
  - right. apply not_Forall_Exists in Hnot; [|apply _].
    apply Exists_exists in Hnot as (x & Hx%elem_of_seqZ & Hn). exists x. split; [lia|done].
Qed.

Lemma clear_of_covers g m o e :
  apart g m -> o < e -> clear_of o e m <-> forall x, o <= x < e -> ~ covers m x.
Proof.
  intros Ha Hoe. split.
  - intros Hc x Hx (s & y & Hin & Hs). destruct (Hc _ _ Hin); lia.
  - intros Hno s y Hin. destruct (Z.le_gt_cases y o); [by left|].
    destruct (Z.le_gt_cases e s); [by right|]. exfalso. apart_pairs.
    apply (Hno (Z.max s o)); [lia|]. exists s, y. split; [done|lia].
Qed.

Lemma contained_covers m o e :
  apart 1 m -> o < e ->
  (exists s y, (s, y) ∈ m /\ s <= o /\ e <= y) <-> forall x, o <= x < e -> covers m x.
Proof.
  intros Ha Hoe. split.
  - intros (s & y & Hin & Hs & Hy) x Hx. exists s, y. split; [done|lia].
  - intros Hall. destruct (Hall o ltac:(lia)) as (s & y & Hin & Hs).
    exists s, y. split_and!; [done|lia|]. destruct (Z.le_gt_cases e y); [done|].
    destruct (Hall y ltac:(lia)) as (s' & y' & Hin' & Hs'). apart_pairs. lia.
Qed.

Lemma complete_bytes m len :
  apart 1 m -> 0 <= len <= u64_max -> (forall s e, (s, e) ∈ m -> e <= len) ->
  sum_lengths m = len <-> forall x, 0 <= x < len -> covers m x.
Proof.
  intros Ha Hlen Hin. split.
  - intros Hsum x Hx. destruct (decide (covers m x)) as [|Hno]; [done|].
    assert (clear_of x (x + 1) m) as Hc.
    { apply (clear_of_covers 1); [done|lia|]. intros z Hz. by replace z with x by lia. }
    pose proof (insert_coalesced_sum m x (x + 1) Ha ltac:(lia) Hc) as Hsum'.
    pose proof (insert_coalesced_apart m x (x + 1) Ha ltac:(lia) ltac:(lia) Hc) as Ha'.
    assert (sum_lengths (insert_coalesced m x (x + 1)) <= len - 0); [|lia].
    apply sum_lengths_bound_from; [done|lia|]. intros s e Hm.
    split; [pose proof (ap_range _ _ Ha' _ _ Hm); lia|].
    assert (covers (insert_coalesced m x (x + 1)) (e - 1)) as Hcov.
    { exists s, e. split; [done|]. pose proof (ap_range _ _ Ha' _ _ Hm). lia. }
    apply insert_coalesced_covers in Hcov as [(s' & e' & Hm' & He')|?]; [|lia|done|lia|done].
    specialize (Hin _ _ Hm'). lia.
  - intros Hall. destruct (decide (len = 0)) as [->|Hne].
    + destruct m as [|[s e] m]; [done|]. assert ((s, e) ∈ (s, e) :: m) as Hm by set_solver.
      specialize (Hin _ _ Hm). apart_pairs. lia.
    + apply contained_covers in Hall as (s & y & Hm & Hs & Hy); [|done|lia].
      assert (m ≡ₚ [(s, y)]) as Hp.
      { apply NoDup_Permutation; [|apply NoDup_singleton|].
        - pose proof (ap_sorted _ _ Ha) as Hsort. clear -Hsort.
          induction Hsort as [|p m Hs IH Hf]; constructor; [|done].
          intros Hp. rewrite Forall_forall in Hf. specialize (Hf _ Hp). lia.
        - intros [s' y']. rewrite list_elem_of_singleton. split; [|intros [= -> ->]; done].
          intros Hm'. specialize (Hin _ _ Hm'). apart_pairs. f_equal; lia. }
      rewrite (sum_lengths_perm _ _ Hp). unfold sum_lengths. simpl.
      specialize (Hin _ _ Hm). apart_pairs. lia.
Qed.

(** ** Properties *)

(** coverage stays canonical under every interleaving.  Whatever sequence
    of bookings, reservations, commits, releases and losses a client performs,
    on a new, sized or restored coverage, the extents stay sorted, nonempty and
    separated by a gap, reservations stay disjoint from them and from each
    other, the byte count is the exact sum of the extents, the fragment count
    never exceeds the limit, and every reservation still held is present (so
    the debug assertions of the two hand-back operations never fire). *)
Theorem coverage_canonical c h :
  client_reached (c, h) ->
  apart 1 (extents c) /\ apart 0 (reserved c) /\
  (forall s e, (s, e) ∈ reserved c -> clear_of s e (extents c)) /\
  covered_bytes c = sum_lengths (extents c) /\ covered_bytes c <= u64_max /\
  fragment_count c <= limit c /\
  Forall (fun r => (r_offset r, r_end r) ∈ reserved c) h.
Proof.
  intros [[He Hr Hd Hb Hl] [Hf _]]%reached_inv. simpl in *.
  unfold covered_bytes, fragment_count. pose proof (pending_le (extents c) (reserved c)).
  split_and!; try done; [|lia]. rewrite Hb. by apply sum_lengths_bound.
Qed.

Definition demo_client : Client :=
  (commit_reservation (snd (reserve new 10 20)) (mkReservation 10 30), []).

Lemma coverage_canonical_witness :
  fragment_count demo_client.1 <= limit demo_client.1 /\ covered_bytes demo_client.1 = 20.
Proof.
  destruct (coverage_canonical demo_client.1 demo_client.2) as (_ & _ & _ & _ & _ & H & _).
  - apply (reached_step (snd (reserve new 10 20), [mkReservation 10 30])).
    + apply (reached_step (new, [])).
      * apply reached_start, start_new.
      * apply (step_reserve new [] 10 20); [vm_compute; split; discriminate..|vm_compute; reflexivity].
    + apply (step_commit (snd (reserve new 10 20)) [] (mkReservation 10 30) []).
  - split; [exact H|vm_compute; reflexivity].
Defined.

(** [check] answers exactly by the sets of bytes.  A range is a replay when
    every byte of it is covered, a partial overlap when some are and some are
    not, a reserved overlap when none is covered but some are reserved, and
    otherwise new unless it touches no extent and the fragment budget is spent;
    [LengthExceeded] arises only from an offset that overflows, never from the
    running byte count. *)
Theorem check_classifies c o n :
  coverage_inv c -> 0 <= o -> 0 <= n ->
  match check c o n with
  | Err EmptyRange => n = 0
  | Err LengthExceeded => 0 < n /\ u64_max < o + n
  | Ok Replay => 0 < n /\ forall x, o <= x < o + n -> covers (extents c) x
  | Err PartialOverlap =>
      (exists x, o <= x < o + n /\ covers (extents c) x) /\
      (exists x, o <= x < o + n /\ ~ covers (extents c) x)
  | Err ReservedOverlap =>
      (forall x, o <= x < o + n -> ~ covers (extents c) x) /\
      (exists x, o <= x < o + n /\ covers (reserved c) x)
  | Err FragmentsExhausted =>
      0 < n /\ (forall x, o <= x < o + n -> ~ covers (extents c) x /\ ~ covers (reserved c) x) /\
      isolated (extents c) (o, o + n) = true /\ limit c <= zlen (extents c) + zlen (reserved c)
  | Ok (New b) =>
      0 < n /\ (forall x, o <= x < o + n -> ~ covers (extents c) x /\ ~ covers (reserved c) x) /\
      b = mkBooking c o (o + n) (bytes c + n)
  end.
Proof.
  intros [He Hr Hd Hb Hl] Ho Hn. unfold check. destruct (Z.eqb_spec n 0); [done|].
  destruct (checked_add o n) as [stop|] eqn:Hadd; simpl;
    [|apply checked_add_None in Hadd; lia].
  apply checked_add_Some in Hadd as [-> Hstop]. assert (o < o + n) as Hlt by lia.
  pose proof (replay_query (extents c) o (o + n) He Hlt) as Hrep.
  pose proof (partial_query (extents c) o (o + n) He Hlt) as Hpart.
  pose proof (overlaps_false (reserved c) o (o + n) Hr Hlt) as Hover.
  rewrite contained_covers in Hrep by done.
  rewrite (clear_of_covers 0) in Hover by done.
  destruct (is_some_and _ _); [split; [lia|by apply Hrep]|].
  assert (~ forall x, o <= x < o + n -> covers (extents c) x) as Hnall by naive_solver. clear Hrep.
  pose proof (fun Hc => merges_query (extents c) o (o + n) He Hlt Hc) as Hmerge.
  destruct (_ || _) eqn:Hp.
  { split.
    - destruct (range_dec (fun x => ~ covers (extents c) x) o (o + n)) as [Hno|(x & Hx & Hcov)].
      + apply (clear_of_covers 1) in Hno; [|done|done]. apply Hpart in Hno. congruence.
      + exists x. split; [done|]. by apply dec_stable.
    - by destruct (range_dec (covers (extents c)) o (o + n)). }
  clear Hp. pose proof (proj1 Hpart eq_refl) as Hp. specialize (Hmerge Hp). rewrite (clear_of_covers 1) in Hp by done.
  destruct (overlaps _ _ _) eqn:Ho'.
  { split; [done|].
    destruct (range_dec (fun x => ~ covers (reserved c) x) o (o + n)) as [Hno|(x & Hx & Hcov)].
    - apply Hover in Hno. done.
    - exists x. split; [done|]. by apply dec_stable. }
  assert (forall x, o <= x < o + n -> ~ covers (reserved c) x) as Hres by (by apply Hover).
  destruct (checked_add (bytes c) n) as [next|] eqn:Hadd2; simpl.
  - apply checked_add_Some in Hadd2 as [-> _]. rewrite Hmerge.
    destruct (isolated _ _) eqn:Hi; simpl; [|split_and!; [lia|naive_solver|done]].
    destruct (Z.leb_spec (limit c) (zlen (extents c) + zlen (reserved c)));
      (split_and!; [lia|naive_solver|done..]).
  - apply checked_add_None in Hadd2. apply (clear_of_covers 1) in Hp; [|done|done].
    pose proof (sum_lengths_bound _ (insert_coalesced_apart _ o (o + n) He ltac:(lia) ltac:(lia) Hp)).
    rewrite insert_coalesced_sum in * by (done || lia). lia.
Qed.

Lemma check_classifies_witness :
  check new 5 7 = Ok (New (mkBooking new 5 12 7)) /\ 0 < 7.
Proof.
  pose proof (check_classifies new 5 7 (empty_inv MAX_FRAGMENTS ltac:(vm_compute; discriminate))
    ltac:(lia) ltac:(lia)) as H.
  split; [vm_compute; reflexivity|]. exact (proj1 H).
Defined.

Lemma covers_map_remove m k v x :
  apart 0 m -> (k, v) ∈ m -> covers (map_remove k m) x <-> covers m x /\ ~ (k <= x < v).
Proof.
  intros Ha Hin. unfold covers. split.
  - intros (s & e & [Hne Hm]%elem_of_map_remove & Hx). simpl in Hne. split; [eauto|]. apart_pairs. lia.
  - intros [(s & e & Hm & Hx) Hno]. exists s, e. split; [|done]. apply elem_of_map_remove.
    split; [|done]. simpl. intros ->. apart_pairs. lia.
Qed.

(** C36: the operations implement byte sets.  Committing a booking or a
    reservation covers exactly the previous bytes and the range, adding its
    length to the count; reserving changes no covered byte and reserves
    exactly the range; releasing gives exactly its range back. *)
Theorem operations_refine_byte_sets c :
  coverage_inv c ->
  (forall o n b, 0 <= o -> 0 <= n -> check c o n = Ok (New b) ->
     (forall x, covers (extents (commit b)) x <-> covers (extents c) x \/ o <= x < o + n) /\
     covered_bytes (commit b) = covered_bytes c + n /\ reserved (commit b) = reserved c) /\
  (forall o n r c', 0 <= o -> 0 <= n -> reserve c o n = (Ok (ReserveNew r), c') ->
     extents c' = extents c /\ covered_bytes c' = covered_bytes c /\
     forall x, covers (reserved c') x <-> covers (reserved c) x \/ o <= x < o + n) /\
  (forall r, (r_offset r, r_end r) ∈ reserved c ->
     (forall x, covers (extents (commit_reservation c r)) x <->
        covers (extents c) x \/ r_offset r <= x < r_end r) /\
     (forall x, covers (reserved (commit_reservation c r)) x <->
        covers (reserved c) x /\ ~ (r_offset r <= x < r_end r)) /\
     covered_bytes (commit_reservation c r) = covered_bytes c + (r_end r - r_offset r)) /\
  (forall r, (r_offset r, r_end r) ∈ reserved c ->
     extents (release_reservation c r) = extents c /\
     forall x, covers (reserved (release_reservation c r)) x <->
        covers (reserved c) x /\ ~ (r_offset r <= x < r_end r)).
Proof.
  intros Hc. split_and!.
  - intros o n b Ho Hn (-> & Hpos & Hmax & Hce & _)%check_new; try done.
    simpl. split_and!; [|done|done]. intros x.
    apply insert_coalesced_covers; [apply Hc|lia|done].
  - intros o n r c' Ho Hn (-> & Hpos & -> & Hfresh & _)%reserve_new; try done.
    simpl. split_and!; [done|done|]. intros x. unfold covers.
    pose proof (fun y => elem_of_map_insert o (o + n) (reserved c) y (ap_sorted _ _ (ci_reserved _ Hc))) as Hin.
    split.
    + intros (s & e & H & Hx). apply Hin in H as [[= -> ->]|[_ Hm]]; eauto.
    + intros [(s & e & Hm & Hx)|Hx].
      * exists s, e. split; [|done]. apply Hin. right. split; [by apply (Hfresh _ Hm)|done].
      * exists o, (o + n). split; [apply Hin; by left|lia].
  - intros [o e] Hin. simpl in *. destruct Hc as [He Hr Hd Hb Hl].
    pose proof (ap_range _ _ Hr _ _ Hin) as [Hoe Hmax]. pose proof (Hd _ _ Hin) as Hce. split_and!.
    + intros x. by apply insert_coalesced_covers.
    + intros x. by apply covers_map_remove.
    + unfold covered_bytes. simpl.
      pose proof (sum_lengths_bound _ (insert_coalesced_apart _ o e He Hoe Hmax Hce)) as Hsum.
      rewrite insert_coalesced_sum in Hsum by done. unfold saturating_add. lia.
  - intros [o e] Hin. simpl in *. split; [done|]. intros x. apply covers_map_remove; [apply Hc|done].
Qed.

Lemma operations_refine_byte_sets_witness :
  covers (extents (commit (mkBooking new 5 12 7))) 8 <-> covers (extents new) 8 \/ 5 <= 8 < 5 + 7.
Proof.
  destruct (operations_refine_byte_sets new (empty_inv MAX_FRAGMENTS ltac:(vm_compute; discriminate)))
    as (H & _).
  apply (H 5 7 (mkBooking new 5 12 7)); [lia|lia|vm_compute; reflexivity].
Defined.

(** progress reports are exact.  [contiguous_prefix] is the length of the
    longest covered prefix, and for extents inside an object of [len] bytes
    [is_complete] holds exactly when every byte of the object is covered. *)
Theorem progress_exact c :
  coverage_inv c ->
  (forall x, 0 <= x < contiguous_prefix c -> covers (extents c) x) /\
  ~ covers (extents c) (contiguous_prefix c) /\
  (forall len, is_u64 len -> (forall s e, (s, e) ∈ extents c -> e <= len) ->
     is_complete c len = true <-> forall x, 0 <= x < len -> covers (extents c) x).
Proof.
  intros [Ha _ _ Hb _]. unfold contiguous_prefix, is_complete. rewrite Hb.
  split_and!; [| |intros len Hlen Hin; rewrite Z.eqb_eq; by apply complete_bytes].
  - destruct (map_get 0 (extents c)) as [e|] eqn:Hg; [|lia].
    apply map_get_Some in Hg; [|apply Ha]. intros x Hx. by exists 0, e.
  - intros (s & y & Hin & Hx). destruct (map_get 0 (extents c)) as [e|] eqn:Hg.
    + apply map_get_Some in Hg; [|apply Ha]. apart_pairs. lia.
    + rewrite map_get_None in Hg. apart_pairs. apply (Hg _ Hin). simpl. lia.
Qed.

Lemma progress_exact_witness : contiguous_prefix new = 0 /\ ~ covers (extents new) 0.
Proof.
  split; [reflexivity|].
  exact (proj1 (proj2 (progress_exact new (empty_inv MAX_FRAGMENTS ltac:(vm_compute; discriminate))))).
Defined.

Lemma runs_ok_of_apart len m previous :
  apart 1 m -> (forall s e, (s, e) ∈ m -> e <= len) ->
  match previous with Some p => forall s e, (s, e) ∈ m -> p < s | None => True end ->
  runs_ok len previous (map (fun e => (e.1, e.2 - e.1)) m).
Proof.
  revert previous. induction m as [|[s e] m IH]; intros previous Ha Hin Hp; [done|]. simpl.
  assert ((s, e) ∈ (s, e) :: m) as Hm by set_solver.
  pose proof (ap_range _ _ Ha _ _ Hm). specialize (Hin _ _ Hm) as Hlen.
  split_and!; try lia; [destruct previous; [by apply (Hp s e)|done]|].
  replace (s + (e - s)) with e by lia. destruct Ha as [Hs Hr Hg].
  apply map_sorted_cons in Hs as [Hs Hlt]. apply IH.
  - split; [done|intros s' e' H'; apply (Hr s' e'); set_solver|].
    intros s1 e1 s2 e2 H1 H2. apply (Hg s1 e1 s2 e2); set_solver.
  - intros s' e' H'. apply (Hin s'). set_solver.
  - intros s' e' H'. specialize (Hlt _ H'). specialize (Hg s e s' e' Hm ltac:(set_solver) Hlt). lia.
Qed.

Lemma run_extent_runs (m : list (Z * Z)) : map run_extent (map (fun e => (e.1, e.2 - e.1)) m) = m.
Proof.
  induction m as [|[s e] m IH]; simpl; [done|]. rewrite IH. unfold run_extent. simpl. f_equal. f_equal. lia.
Qed.

Lemma from_runs_spec object_len rs :
  is_u64 object_len -> Forall (fun r => is_u64 r.1 /\ is_u64 r.2) rs ->
  match from_runs object_len rs with
  | Ok c => runs_ok object_len None rs /\ zlen rs <= fragment_limit object_len /\
      c = mkCoverage (map run_extent rs) [] (sum_lengths (map run_extent rs)) (fragment_limit object_len)
  | Err _ => ~ (runs_ok object_len None rs /\ zlen rs <= fragment_limit object_len)
  end.
Proof.
  intros Hn Hrs. pose proof (fragment_limit_pos object_len) as Hl. unfold MAX_FRAGMENTS in Hl.
  pose proof (from_runs_loop_spec object_len (fragment_limit object_len) rs ltac:(unfold is_u64 in Hn; lia)
    ltac:(eapply Forall_impl; [exact Hrs|]; unfold is_u64; simpl; intros; lia)
    0 [] 0 None ltac:(apply (ci_extents _ (empty_inv 0 ltac:(lia)))) eq_refl eq_refl eq_refl
    ltac:(set_solver) ltac:(lia)) as H.
  unfold from_runs. destruct (from_runs_loop _ _ _ _ _ _ _); rewrite zlen_nil in H; simpl in H; tauto.
Qed.

Lemma runs_u64 c : apart 1 (extents c) -> Forall (fun r => is_u64 r.1 /\ is_u64 r.2) (runs c).
Proof.
  intros Ha. apply Forall_forall. intros r Hr. unfold runs in Hr.
  apply list_elem_of_fmap in Hr as ([s e] & -> & Hm). simpl. apart_pairs. unfold is_u64. mlia.
Qed.

Lemma runs_of_extents rs : map (fun e => (e.1, e.2 - e.1)) (map run_extent rs) = rs.
Proof. induction rs as [|[o n] rs IH]; simpl; [done|]. rewrite IH. do 2 f_equal. lia. Qed.

(** persisted runs round-trip.  [from_runs] accepts exactly the lists
    [runs] can emit for the object (nonempty, inside it, in order with a gap
    between, within the fragment limit); what it accepts it restores with
    those runs and a valid invariant, and the runs of any coverage of the
    object restore its extents and byte count. *)
Theorem runs_roundtrip object_len :
  is_u64 object_len ->
  (forall rs, Forall (fun r => is_u64 r.1 /\ is_u64 r.2) rs ->
     (exists c, from_runs object_len rs = Ok c) <->
     runs_ok object_len None rs /\ zlen rs <= fragment_limit object_len) /\
  (forall rs c, Forall (fun r => is_u64 r.1 /\ is_u64 r.2) rs -> from_runs object_len rs = Ok c ->
     coverage_inv c /\ runs c = rs) /\
  (forall c, coverage_inv c -> limit c = fragment_limit object_len ->
     (forall s e, (s, e) ∈ extents c -> e <= object_len) ->
     from_runs object_len (runs c) = Ok (mkCoverage (extents c) [] (bytes c) (limit c))).
Proof.
  intros Hn. split_and!.
  - intros rs Hrs. pose proof (from_runs_spec object_len rs Hn Hrs) as Hspec.
    destruct (from_runs object_len rs) as [c|]; [|naive_solver]. split; [tauto|eauto].
  - intros rs c Hrs Hf. pose proof (from_runs_spec object_len rs Hn Hrs) as Hspec.
    rewrite Hf in Hspec. destruct Hspec as (_ & _ & ->).
    split; [by apply from_runs_ok in Hf as [? _]|]. apply runs_of_extents.
  - intros c [Ha _ _ Hb Hlim] Hlc Hin.
    pose proof (from_runs_spec object_len (runs c) Hn (runs_u64 c Ha)) as Hspec.
    assert (runs_ok object_len None (runs c)) as Hok by (by apply runs_ok_of_apart).
    assert (zlen (runs c) <= fragment_limit object_len) as Hle.
    { unfold runs, zlen. rewrite length_map, <- Hlc. unfold zlen in Hlim.
      pose proof (pending_le (extents c) (reserved c)). lia. }
    destruct (from_runs object_len (runs c)) as [c'|]; [|tauto].
    destruct Hspec as (_ & _ & ->). unfold runs. by rewrite run_extent_runs, <- Hb, Hlc.
Qed.

Lemma runs_roundtrip_witness :
  exists c, from_runs 100 [(0, 10); (20, 5)] = Ok c /\ runs c = [(0, 10); (20, 5)].
Proof.
  destruct (runs_roundtrip 100 ltac:(vm_compute; split; discriminate)) as (_ & H & _).
  assert (from_runs 100 [(0, 10); (20, 5)] =
    Ok (mkCoverage [(0, 10); (20, 25)] [] 15 (fragment_limit 100))) as Hf by (vm_compute; reflexivity).
  eexists. split; [exact Hf|].
  apply (H [(0, 10); (20, 5)] _); [|exact Hf].
  repeat constructor; vm_compute; discriminate.
Defined.
