(* ===== verification/Units.v ===== *)
(** * Unit sets: run-length sets of resume units (vot-resume-core, units.rs)

    A [UnitRanges] is a vector of [(start, length)] runs, disjoint and
    non-adjacent, so that the representation of a set is unique.  The model
    keeps the vector as a list and translates every operation; the second half
    shows that each one preserves the canonical form and computes the set
    operation it is named after. *)

From S2P Require Import Prelude BTree.

Definition MAX_UNIT : Z := u64_max - 1.

Record UnitRanges := mkUnits { runs : list (Z * Z) }.

#[export] Instance UnitRanges_eq_dec : EqDecision UnitRanges.
Proof. solve_decision. Defined.

Inductive RunError := EmptyRun | EndOverflow | TooManyRuns.

Definition new : UnitRanges := mkUnits [].

Definition is_empty (self : UnitRanges) : bool :=
  match runs self with [] => true | _ => false end.

Definition run_count (self : UnitRanges) : Z := zlen (runs self).

Definition count (self : UnitRanges) : Z :=
  fold_left (fun total r => saturating_add total r.2) (runs self) 0.

Definition max (self : UnitRanges) : option Z :=
  match last (runs self) with
  | Some (start, length) => Some (saturating_sub (saturating_add start length) 1)
  | None => None
  end.

(** The half-open integer range [from..to]. *)
Definition range (from to : Z) : list Z := seqZ from (to - from).

Definition units (self : UnitRanges) : list Z :=
  concat (map (fun r => range r.1 (saturating_add r.1 r.2)) (runs self)).

(** [slice::partition_point], on a slice the predicate partitions. *)
Fixpoint partition_point {A} (p : A -> bool) (l : list A) : nat :=
  match l with
  | [] => O
  | x :: t => if p x then S (partition_point p t) else O
  end.

(** [slice::binary_search_by_key] on starts, which are strictly increasing:
    the index of the key, or the index where it would be inserted. *)
Definition binary_search_start (unit : Z) (l : list (Z * Z)) : nat + nat :=
  let at_ := partition_point (fun r => r.1 <? unit) l in
  match l !! at_ with
  | Some (start, _) => if start =? unit then inl at_ else inr at_
  | None => inr at_
  end.

Definition run_index (self : UnitRanges) (unit : Z) : option nat :=
  match binary_search_start unit (runs self) with
  | inl index => Some index
  | inr O => None
  | inr (S index) =>
      match runs self !! index with
      | Some (start, length) => if unit - start <? length then Some index else None
      | None => None
      end
  end.

Definition contains (self : UnitRanges) (unit : Z) : bool :=
  match run_index self unit with Some _ => true | None => false end.

Definition run_end (r : Z * Z) : Z := saturating_add r.1 r.2.

(** [end_of]; [None] where the source would index out of bounds. *)
Definition end_of (l : list (Z * Z)) (index : nat) : option Z :=
  option_map run_end (l !! index).

Definition opt_is {A} (o : option A) (f : A -> bool) : bool :=
  match o with Some a => f a | None => false end.

Definition insert (self : UnitRanges) (unit : Z) : UnitRanges :=
  if MAX_UNIT <? unit then self else
  let l := runs self in
  let at_ := partition_point (fun r => r.1 <=? unit) l in
  let previous := match at_ with O => None | S i => Some i end in
  if opt_is previous (fun i => opt_is (end_of l i) (fun e => unit <? e)) then self else
  let joins_previous := opt_is previous (fun i => opt_is (end_of l i) (fun e => e =? unit)) in
  let joins_next := opt_is (l !! at_) (fun r => r.1 =? saturating_add unit 1) in
  match joins_previous, joins_next with
  | true, true =>
      match l !! at_, l !! pred at_ with
      | Some (_, next_length), Some (s, n) =>
          mkUnits (<[pred at_ := (s, saturating_add (saturating_add n 1) next_length)]> (delete at_ l))
      | _, _ => self
      end
  | true, false =>
      match l !! pred at_ with
      | Some (s, n) => mkUnits (<[pred at_ := (s, saturating_add n 1)]> l)
      | None => self
      end
  | false, true =>
      match l !! at_ with
      | Some (_, n) => mkUnits (<[at_ := (unit, saturating_add n 1)]> l)
      | None => self
      end
  | false, false => mkUnits (take at_ l ++ (unit, 1) :: drop at_ l)
  end.

Definition extend_units (self : UnitRanges) (us : list Z) : UnitRanges := fold_left insert us self.

(** Appends a run to a list in order, merging when it touches the tail. *)
Definition push_run (l : list (Z * Z)) (start length : Z) : list (Z * Z) :=
  let stop := saturating_add start length in
  match last l with
  | Some (ls, ln) =>
      let last_end := saturating_add ls ln in
      if start <=? last_end
      then removelast l ++ [(ls, saturating_sub (Z.max stop last_end) ls)]
      else l ++ [(start, length)]
  | None => l ++ [(start, length)]
  end.

(** The merge loop of [union]: the run with the smaller start goes first, the
    left one on a tie. *)
Fixpoint union_loop (left : list (Z * Z)) : list (Z * Z) -> list (Z * Z) -> list (Z * Z) :=
  fix go (right merged : list (Z * Z)) : list (Z * Z) :=
    match left, right with
    | (ls, ln) :: left', (rs, rn) :: right' =>
        if ls <=? rs then union_loop left' right (push_run merged ls ln)
        else go right' (push_run merged rs rn)
    | (ls, ln) :: left', [] => union_loop left' [] (push_run merged ls ln)
    | [], (rs, rn) :: right' => go right' (push_run merged rs rn)
    | [], [] => merged
    end.

Definition union (self other : UnitRanges) : UnitRanges :=
  if is_empty other then self else
  if is_empty self then other else
  mkUnits (union_loop (runs self) (runs other) []).

(** The validation loop of [from_runs_bounded]. *)
Fixpoint collect_runs (input : list (Z * Z)) (max_input_runs : Z) (collected : list (Z * Z)) :
    result (list (Z * Z)) RunError :=
  match input with
  | [] => Ok collected
  | (start, length) :: rest =>
      if zlen collected =? max_input_runs then Err TooManyRuns else
      if length =? 0 then Err EmptyRun else
      let? _ := ok_or (checked_add start length) EndOverflow in
      collect_runs rest max_input_runs (collected ++ [(start, length)])
  end.

(** [sort_unstable] on pairs: the lexicographic order is total, so the result
    is the one sorted permutation. *)
Definition pair_le (a b : Z * Z) : bool := (a.1 <? b.1) || ((a.1 =? b.1) && (a.2 <=? b.2)).

Fixpoint sort_insert (x : Z * Z) (l : list (Z * Z)) : list (Z * Z) :=
  match l with
  | [] => [x]
  | y :: t => if pair_le x y then x :: l else y :: sort_insert x t
  end.

Definition sort_unstable (l : list (Z * Z)) : list (Z * Z) := foldr sort_insert [] l.

Definition from_runs_bounded (input : list (Z * Z)) (max_input_runs : Z) :
    result UnitRanges RunError :=
  let? collected := collect_runs input max_input_runs [] in
  Ok (mkUnits (fold_left (fun acc r => push_run acc r.1 r.2) (sort_unstable collected) [])).

Definition from_runs (input : list (Z * Z)) : result UnitRanges RunError :=
  from_runs_bounded input u64_max.

(** The inner [while] loop of [difference]: what is emitted, where the cursor
    stops, and what the shared iterator has left. *)
Fixpoint difference_inner (others : list (Z * Z)) (stop cursor : Z) (out : list (Z * Z)) :
    list (Z * Z) * Z * list (Z * Z) :=
  match others with
  | [] => (out, cursor, [])
  | (other_start, other_length) :: rest =>
      let other_end := saturating_add other_start other_length in
      if other_end <=? cursor then difference_inner rest stop cursor out else
      if stop <=? other_start then (out, cursor, others) else
      let out' := if cursor <? other_start then push_run out cursor (other_start - cursor) else out in
      let cursor' := Z.max cursor other_end in
      if stop <=? cursor' then (out', cursor', others) else
      difference_inner rest stop cursor' out'
  end.

Fixpoint difference_outer (mine others : list (Z * Z)) (out : list (Z * Z)) : list (Z * Z) :=
  match mine with
  | [] => out
  | (start, length) :: rest =>
      let stop := saturating_add start length in
      let '(out', cursor, others') := difference_inner others stop start out in
      let out'' := if cursor <? stop then push_run out' cursor (stop - cursor) else out' in
      difference_outer rest others' out''
  end.

Definition difference (self other : UnitRanges) : UnitRanges :=
  mkUnits (difference_outer (runs self) (runs other) []).

(** [slice::windows(2)] mapped to the gap between the two runs. *)
Fixpoint gaps_between (l : list (Z * Z)) : list (Z * Z) :=
  match l with
  | r1 :: ((r2 :: _) as t) => (saturating_add r1.1 r1.2, r2.1) :: gaps_between t
  | _ => []
  end.

Definition missing (self : UnitRanges) (total_units : Z) : list Z :=
  let leading := [(0, match runs self with [] => total_units | r :: _ => r.1 end)] in
  let between := gaps_between (runs self) in
  let trailing := [match last (runs self) with
                   | None => (total_units, total_units)
                   | Some r => (saturating_add r.1 r.2, total_units)
                   end] in
  concat (map (fun g => range (Z.min g.1 total_units) (Z.min g.2 total_units))
    (leading ++ between ++ trailing)).

(** ** Set semantics and the canonical form *)

Definition mem (l : list (Z * Z)) (u : Z) : Prop := exists s n, (s, n) ∈ l /\ s <= u < s + n.

(** Runs from [lo] on: nonempty, inside [u64], each starting past the end of
    the one before it. *)
Fixpoint canon (lo : Z) (l : list (Z * Z)) : Prop :=
  match l with
  | [] => True
  | (s, n) :: t => lo <= s /\ 0 < n /\ s + n <= u64_max /\ canon (s + n + 1) t
  end.

Definition canonical (self : UnitRanges) : Prop := canon 0 (runs self).

(** Where a run may start after [l]. *)
Definition after (lo : Z) (l : list (Z * Z)) : Z :=
  match last l with Some (s, n) => s + n + 1 | None => lo end.

Lemma after_cons lo s n l : after lo ((s, n) :: l) = after (s + n + 1) l.
Proof.
  unfold after. destruct l as [|r l]; [done|]. rewrite last_cons_cons.
  destruct (last (r :: l)) as [[]|] eqn:E; [done|by apply last_None in E].
Qed.

Lemma canon_app lo l1 l2 : canon lo (l1 ++ l2) <-> canon lo l1 /\ canon (after lo l1) l2.
Proof.
  revert lo. induction l1 as [|[s n] l1 IH]; intros lo; simpl; [tauto|].
  rewrite after_cons, IH. tauto.
Qed.

Lemma canon_weaken lo lo' l : lo' <= lo -> canon lo l -> canon lo' l.
Proof. destruct l as [|[s n] l]; simpl; [done|]. intros H (?&?&?&?). split_and!; auto; lia. Qed.

Lemma canon_elem lo l s n : canon lo l -> (s, n) ∈ l -> lo <= s /\ 0 < n /\ s + n <= u64_max.
Proof.
  revert lo. induction l as [|[s' n'] l IH]; intros lo; [set_solver|]. simpl.
  intros (? & ? & ? & Hc) [[= -> ->]|Hin]%elem_of_cons; [lia|]. specialize (IH _ Hc Hin). lia.
Qed.

Lemma mem_nil u : ~ mem [] u.
Proof. intros (s & n & H & _). set_solver. Qed.

Lemma mem_cons s n l u : mem ((s, n) :: l) u <-> s <= u < s + n \/ mem l u.
Proof.
  unfold mem. split.
  - intros (s' & n' & [[= -> ->]|H]%elem_of_cons & Hu); eauto.
  - intros [Hu|(s' & n' & H & Hu)]; [exists s, n | exists s', n']; (split; [set_solver|done]).
Qed.

Lemma mem_app l1 l2 u : mem (l1 ++ l2) u <-> mem l1 u \/ mem l2 u.
Proof.
  induction l1 as [|[s n] l1 IH]; simpl; [|rewrite !mem_cons, IH; tauto].
  pose proof (mem_nil u). tauto.
Qed.

Lemma mem_lower lo l u : canon lo l -> mem l u -> lo <= u < u64_max.
Proof. intros Hc (s & n & H & Hu). pose proof (canon_elem _ _ _ _ Hc H). lia. Qed.

Lemma mem_upper lo l u : canon lo l -> mem l u -> u + 1 < after lo l.
Proof.
  revert lo u. induction l as [|[s n] l IH]; intros lo u Hc; [intros []%mem_nil|].
  simpl in Hc. destruct Hc as (? & ? & ? & Hc). rewrite mem_cons, after_cons.
  intros [Hu|Hu]; [|by apply IH].
  destruct l as [|[s' n'] l]; [unfold after; simpl; lia|].
  assert (mem ((s', n') :: l) s') as Hs' by (apply mem_cons; simpl in Hc; lia).
  specialize (IH _ _ Hc Hs'). simpl in Hc. lia.
Qed.

Lemma after_start lo l s n : canon lo l -> (s, n) ∈ l -> s + n + 1 <= after lo l.
Proof.
  intros Hc Hin. assert (mem l (s + n - 1)) as Hm
    by (exists s, n; split; [done|]; pose proof (canon_elem _ _ _ _ Hc Hin); lia).
  pose proof (mem_upper _ _ _ Hc Hm). lia.
Qed.

Lemma after_ge lo l : canon lo l -> lo <= after lo l.
Proof.
  intros Hc. unfold after. destruct (last l) as [[a b]|] eqn:Hl; [|done].
  assert ((a, b) ∈ l) as Hab by (apply last_Some in Hl as [? ->]; set_solver).
  pose proof (canon_elem _ _ _ _ Hc Hab). lia.
Qed.

(** The canonical representation of a set is unique. *)
Lemma canon_unique lo l1 l2 :
  canon lo l1 -> canon lo l2 -> (forall u, mem l1 u <-> mem l2 u) -> l1 = l2.
Proof.
  revert lo l2. induction l1 as [|[s1 n1] l1 IH]; intros lo [|[s2 n2] l2] H1 H2 Heq; simpl in H1, H2.
  - done.
  - exfalso. apply (mem_nil s2), Heq, mem_cons. lia.
  - exfalso. apply (mem_nil s1), Heq, mem_cons. lia.
  - destruct H1 as (? & ? & ? & H1), H2 as (? & ? & ? & H2).
    assert (forall u, u < s1 -> ~ mem ((s1, n1) :: l1) u) as Hlo1
      by (intros u Hu [|Hm]%mem_cons; [lia|apply (mem_lower _ _ _ H1) in Hm; lia]).
    assert (forall u, u < s2 -> ~ mem ((s2, n2) :: l2) u) as Hlo2
      by (intros u Hu [|Hm]%mem_cons; [lia|apply (mem_lower _ _ _ H2) in Hm; lia]).
    assert (s1 = s2) as ->.
    { destruct (Z.lt_trichotomy s1 s2) as [Hlt|[?|Hlt]]; [|done|]; exfalso.
      - apply (Hlo2 s1); [done|]. apply Heq, mem_cons. lia.
      - apply (Hlo1 s2); [done|]. apply Heq, mem_cons. lia. }
    assert (~ mem ((s2, n1) :: l1) (s2 + n1)) as He1
      by (intros [|Hm]%mem_cons; [lia|apply (mem_lower _ _ _ H1) in Hm; lia]).
    assert (~ mem ((s2, n2) :: l2) (s2 + n2)) as He2
      by (intros [|Hm]%mem_cons; [lia|apply (mem_lower _ _ _ H2) in Hm; lia]).
    assert (n1 = n2) as ->.
    { destruct (Z.lt_trichotomy n1 n2) as [Hlt|[?|Hlt]]; [|done|]; exfalso.
      - apply He1, Heq, mem_cons. lia.
      - apply He2, Heq, mem_cons. lia. }
    f_equal. apply (IH (s2 + n2 + 1)); [done|done|]. intros u.
    specialize (Heq u). rewrite !mem_cons in Heq.
    split; intros Hm.
    + pose proof (mem_lower _ _ _ H1 Hm). destruct (proj1 Heq (or_intror Hm)); [lia|done].
    + pose proof (mem_lower _ _ _ H2 Hm). destruct (proj2 Heq (or_intror Hm)); [lia|done].
Qed.

(** ** Appending runs *)

Lemma push_run_spec lo l s n :
  canon lo l -> lo <= s -> 0 < n -> s + n <= u64_max -> 0 <= lo ->
  (forall s' n', (s', n') ∈ l -> s' <= s) ->
  canon lo (push_run l s n) /\
  (forall u, mem (push_run l s n) u <-> mem l u \/ s <= u < s + n) /\
  (forall s' n', (s', n') ∈ push_run l s n -> s' <= s).
Proof.
  intros Hc Hlo Hn Hs H0 Hle. unfold push_run.
  destruct (last l) as [[ls ln]|] eqn:Hl.
  - apply last_Some in Hl as [l' ->]. apply canon_app in Hc as [Hc1 Hc2]. simpl in Hc2.
    destruct Hc2 as (Ha & Hln & Hle' & _).
    assert (ls <= s) by (apply (Hle ls ln); set_solver).
    pose proof (after_ge _ _ Hc1) as Haf.
    unfold saturating_add, saturating_sub.
    rewrite !Z.min_l by lia. destruct (Z.leb_spec s (ls + ln)).
    + rewrite removelast_last, Z.max_l by lia. split_and!.
      * apply canon_app. split; [done|]. simpl. split_and!; try done; lia.
      * intros u. rewrite !mem_app, !mem_cons. pose proof (mem_nil u). split; intros; try lia;
          repeat match goal with H : _ \/ _ |- _ => destruct H end; try tauto; try lia.
      * intros s' n' [Hin|[= -> ->]%list_elem_of_singleton]%elem_of_app; [|done].
        apply (Hle s' n'). set_solver.
    + split_and!.
      * rewrite !canon_app. unfold after at 2. rewrite last_snoc. simpl. split_and!; try done; lia.
      * intros u. rewrite !mem_app, !mem_cons. pose proof (mem_nil u). tauto.
      * intros s' n' [Hin|[= -> ->]%list_elem_of_singleton]%elem_of_app; [|done]. by apply (Hle s' n').
  - apply last_None in Hl as ->. simpl. split_and!; try done; [|set_solver].
    intros u. rewrite mem_cons. pose proof (mem_nil u). tauto.
Qed.

(** ** Searching *)

Lemma partition_split {A} (p : A -> bool) l : exists l1 l2,
  l = l1 ++ l2 /\ partition_point p l = length l1 /\ (forall x, x ∈ l1 -> p x = true) /\
  match l2 with x :: _ => p x = false | [] => True end.
Proof.
  induction l as [|x l (l1 & l2 & -> & Hp & H1 & H2)]; [by exists [], []; set_solver|].
  simpl. destruct (p x) eqn:Hx.
  - exists (x :: l1), l2. simpl. split_and!; [done|by rewrite Hp| |done]. set_solver.
  - exists [], (x :: l1 ++ l2). split_and!; [done|done|set_solver|done].
Qed.

Lemma list_lookup_end {A} (l1 l2 : list A) : (l1 ++ l2) !! length l1 = head l2.
Proof. rewrite lookup_app_r by lia. rewrite Nat.sub_diag. by destruct l2. Qed.

Lemma list_snoc_cases {A} (l : list A) : l = [] \/ exists l' x, l = l' ++ [x].
Proof. induction l as [|x l _] using rev_ind; eauto. Qed.

(** Membership around the point where a search stops. *)
Lemma mem_tail lo l u :
  canon lo l -> match l with r :: _ => u <= r.1 | [] => True end ->
  mem l u <-> match l with r :: _ => r.1 = u | [] => False end.
Proof.
  destruct l as [|[s n] l]; [split; [apply mem_nil|done]|]. simpl. intros (_ & Hn & _ & Hc) Hle.
  rewrite mem_cons. split; [|lia]. intros [?|Hm]; [lia|]. apply (mem_lower _ _ _ Hc) in Hm. lia.
Qed.

Lemma mem_snoc lo l s n u :
  canon lo (l ++ [(s, n)]) -> s <= u -> mem (l ++ [(s, n)]) u <-> u < s + n.
Proof.
  intros [Hc1 Hc2]%canon_app Hs. simpl in Hc2. rewrite mem_app, mem_cons. split; [|lia].
  intros [Hm|[?|Hm]]; [|lia|by apply mem_nil in Hm]. pose proof (mem_upper _ _ _ Hc1 Hm). lia.
Qed.

Lemma contains_mem self u : canonical self -> contains self u = true <-> mem (runs self) u.
Proof.
  destruct self as [l]. unfold canonical, contains, run_index, binary_search_start. simpl. intros Hc.
  destruct (partition_split (fun r => r.1 <? u) l) as (l1 & l2 & -> & Hp & H1 & H2).
  rewrite Hp, list_lookup_end, mem_app. apply canon_app in Hc as [Hc1 Hc2].
  rewrite (mem_tail _ _ u Hc2) by (destruct l2; [done|by apply Z.ltb_ge]).
  destruct (list_snoc_cases l1) as [->|(l' & [s n] & ->)].
  - pose proof (mem_nil u). destruct l2 as [|[s2 n2] l2]; simpl; [intuition congruence|].
    destruct (Z.eqb_spec s2 u); intuition congruence.
  - pose proof (H1 (s, n) ltac:(set_solver)) as Hs. apply Z.ltb_lt in Hs. simpl in Hs.
    rewrite (mem_snoc _ _ _ _ u Hc1) by lia.
    rewrite length_app, Nat.add_comm, <- app_assoc. simpl.
    destruct l2 as [|[s2 n2] l2]; simpl; [|destruct (Z.eqb_spec s2 u); [tauto|]];
      rewrite list_lookup_middle by done; destruct (Z.ltb_spec (u - s) n); simpl; split; intros; try done; lia.
Qed.

(** ** Inserting one unit *)

(** [insert] on a vector split around the unit, as the source computes it. *)
Lemma insert_at_front l u :
  is_u64 u -> u <= MAX_UNIT -> canon 0 l -> match l with r :: _ => u < r.1 | [] => True end ->
  insert (mkUnits l) u =
  mkUnits (match l with
           | (s, n) :: t => if s =? u + 1 then (u, n + 1) :: t else (u, 1) :: l
           | [] => [(u, 1)]
           end).
Proof.
  intros Hu Hmax Hc Hlt. unfold insert. simpl runs. destruct (Z.ltb_spec MAX_UNIT u); [lia|].
  destruct l as [|[s n] l]; simpl.
  - done.
  - simpl in Hlt. destruct (Z.leb_spec s u); [lia|]. simpl. unfold saturating_add at 1.
    unfold is_u64, MAX_UNIT in *. simpl in Hc.
    rewrite Z.min_l by lia. destruct (Z.eqb_spec s (u + 1)); [|done].
    simpl. unfold saturating_add. by rewrite Z.min_l by lia.
Qed.

Lemma insert_after_run l s n t u :
  is_u64 u -> u <= MAX_UNIT -> canon 0 (l ++ (s, n) :: t) -> s <= u ->
  match t with r :: _ => u < r.1 | [] => True end ->
  insert (mkUnits (l ++ (s, n) :: t)) u =
  mkUnits (if u <? s + n then l ++ (s, n) :: t else
           match t with
           | (s2, n2) :: t' =>
               if s + n =? u then
                 if s2 =? u + 1 then l ++ (s, n + 1 + n2) :: t' else l ++ (s, n + 1) :: t
               else if s2 =? u + 1 then l ++ (s, n) :: (u, n2 + 1) :: t' else l ++ (s, n) :: (u, 1) :: t
           | [] => if s + n =? u then l ++ [(s, n + 1)] else l ++ [(s, n); (u, 1)]
           end).
Proof.
  intros Hu Hmax Hc Hs Hlt. unfold insert. simpl runs. destruct (Z.ltb_spec MAX_UNIT u); [lia|].
  assert (partition_point (fun r => r.1 <=? u) (l ++ (s, n) :: t) = S (length l)) as ->.
  { apply canon_app in Hc as [Hc1 Hc2]. simpl in Hc2.
    assert (forall x, x ∈ l -> x.1 <= u) as Hall.
    { intros [a b] Hin. pose proof (after_start _ _ _ _ Hc1 Hin).
      pose proof (canon_elem _ _ _ _ Hc1 Hin). simpl. lia. }
    clear -Hall Hs Hlt. induction l as [|x l IH]; simpl.
    - destruct (Z.leb_spec s u); [|lia]. f_equal. destruct t as [|r t]; [done|]. simpl.
      destruct (Z.leb_spec r.1 u); [lia|done].
    - destruct (Z.leb_spec x.1 u); [|specialize (Hall x ltac:(set_solver)); lia].
      f_equal. apply IH. set_solver. }
  apply canon_app in Hc as [Hc1 Hc2]. simpl in Hc2. destruct Hc2 as (Haf & Hn & Hend & Hct).
  pose proof (after_ge _ _ Hc1). unfold end_of. cbn [opt_is pred]. rewrite list_lookup_middle by done. cbn [opt_is option_map].
  unfold run_end, saturating_add. cbn [fst snd]. unfold is_u64, MAX_UNIT in *.
  rewrite !Z.min_l by lia.
  destruct (Z.ltb_spec u (s + n)); [done|].
  replace (S (length l)) with (length (l ++ [(s, n)])) by (rewrite length_app; simpl; lia).
  assert (l ++ (s, n) :: t = (l ++ [(s, n)]) ++ t) as Heq by (by rewrite <- app_assoc).
  rewrite Heq, list_lookup_end, take_app_length, drop_app_length. rewrite <- Heq.
  destruct t as [|[s2 n2] t].
  - simpl. destruct (Z.eqb_spec (s + n) u); simpl.
    + by rewrite list_insert_middle, Z.min_l by lia.
    + by rewrite <- app_assoc.
  - simpl in Hct, Hlt. change (head ((s2, n2) :: t)) with (Some (s2, n2)). cbn [opt_is fst].
    destruct (Z.eqb_spec (s + n) u), (Z.eqb_spec s2 (u + 1)); cbv beta iota.
    + rewrite Heq, delete_middle, <- app_assoc. simpl app. rewrite list_insert_middle. do 4 f_equal. lia.
    + rewrite list_insert_middle. do 4 f_equal. lia.
    + rewrite Heq, list_insert_middle, <- app_assoc. simpl. do 5 f_equal. lia.
    + by rewrite <- app_assoc.
Qed.

Lemma insert_spec self u :
  canonical self -> is_u64 u ->
  canonical (insert self u) /\
  forall v, mem (runs (insert self u)) v <-> mem (runs self) v \/ (v = u /\ u <= MAX_UNIT).
Proof.
  destruct self as [l]. unfold canonical. simpl. intros Hc Hu.
  destruct (Z.le_gt_cases u MAX_UNIT) as [Hmax|Hmax].
  2: { unfold insert. destruct (Z.ltb_spec MAX_UNIT u); [|lia]. split; [done|]. intros v. simpl.
       intuition lia. }
  destruct (partition_split (fun r => r.1 <=? u) l) as (l1 & l2 & -> & _ & H1 & H2).
  assert (match l2 with r :: _ => u < r.1 | [] => True end) as Hlt
    by (destruct l2; [done|by apply Z.leb_gt]).
  unfold is_u64, MAX_UNIT in *.
  destruct (list_snoc_cases l1) as [->|(l' & [s n] & ->)].
  - simpl in Hc. simpl app. rewrite insert_at_front by done. simpl runs.
    destruct l2 as [|[s n] t]; simpl in *.
    + split; [lia|]. intros v. rewrite mem_cons. intuition lia.
    + destruct (Z.eqb_spec s (u + 1)) as [->|Hne]; simpl.
      * split; [replace (u + (n + 1) + 1) with (u + 1 + n + 1) by lia; split_and!; try apply Hc; lia|].
        intros v. rewrite !mem_cons. intuition lia.
      * split; [split_and!; try apply Hc; lia|]. intros v. rewrite !mem_cons. intuition lia.
  - pose proof (H1 (s, n) ltac:(set_solver)) as Hs. apply Z.leb_le in Hs. simpl in Hs.
    rewrite <- !app_assoc in *. simpl app in *. rewrite insert_after_run by done. simpl runs.
    apply canon_app in Hc as [Hc1 Hc2]. simpl in Hc2.
    assert (forall t, canon 0 (l' ++ t) <-> canon (after 0 l') t) as Hca
      by (intros t; rewrite canon_app; tauto).
    destruct (Z.ltb_spec u (s + n)).
    + split; [apply Hca; simpl; tauto|]. intros v. rewrite !mem_app, !mem_cons. intuition lia.
    + destruct l2 as [|[s2 n2] t]; simpl in Hlt.
      * destruct (Z.eqb_spec (s + n) u); rewrite Hca; simpl; (split; [split_and!; try done; lia|]);
          intros v; rewrite !mem_app, !mem_cons; intuition lia.
      * simpl in Hc2. destruct (Z.eqb_spec (s + n) u), (Z.eqb_spec s2 (u + 1)); rewrite Hca; simpl;
          (split; [|intros v; rewrite !mem_app, !mem_cons; intuition lia]).
        -- replace (s + (n + 1 + n2) + 1) with (s2 + n2 + 1) by lia. split_and!; try tauto; lia.
        -- replace (s + (n + 1) + 1) with (s + n + 1 + 1) by lia. split_and!; try tauto; lia.
        -- replace (u + (n2 + 1) + 1) with (s2 + n2 + 1) by lia. split_and!; try tauto; lia.
        -- split_and!; try tauto; lia.
Qed.

(** ** Merging *)

Definition starts_le (l : list (Z * Z)) (x : Z) : Prop := forall s n, (s, n) ∈ l -> s <= x.

Lemma starts_le_mono l x y : x <= y -> starts_le l x -> starts_le l y.
Proof. intros Hxy H s n Hin. specialize (H _ _ Hin). lia. Qed.

Lemma starts_le_nil x : starts_le [] x.
Proof. intros s n H. set_solver. Qed.

Lemma union_loop_spec left right merged a b :
  canon 0 merged -> canon a left -> canon b right -> 0 <= a -> 0 <= b ->
  starts_le merged a -> starts_le merged b ->
  canon 0 (union_loop left right merged) /\
  forall u, mem (union_loop left right merged) u <-> mem merged u \/ mem left u \/ mem right u.
Proof.
  revert right merged a b. induction left as [|[ls ln] left IHl].
  - induction right as [|[rs rn] right IHr]; intros merged a b Hm Hl Hr Ha Hb Hsa Hsb.
    + simpl. split; [done|]. intros u. pose proof (mem_nil u). tauto.
    + simpl in Hr. destruct Hr as (H1 & H2 & H3 & Hr).
      destruct (push_run_spec 0 merged rs rn) as (P1 & P2 & P3); try done; try lia;
        [by apply (starts_le_mono _ b)|].
      destruct (IHr (push_run merged rs rn) rs (rs + rn + 1)) as [Q1 Q2]; try done; try lia;
        [by apply (starts_le_mono _ rs); [lia|]|].
      split; [exact Q1|]. intros u. change (union_loop [] ((rs, rn) :: right) merged) with
        (union_loop [] right (push_run merged rs rn)). rewrite Q2, P2, mem_cons. tauto.
  - induction right as [|[rs rn] right IHr]; intros merged a b Hm Hl Hr Ha Hb Hsa Hsb;
      pose proof Hl as (H1 & H2 & H3 & Hl').
    + destruct (push_run_spec 0 merged ls ln) as (P1 & P2 & P3); try done; try lia;
        [by apply (starts_le_mono _ a)|].
      destruct (IHl [] (push_run merged ls ln) (ls + ln + 1) ls) as [Q1 Q2]; try done; try lia;
        [by apply (starts_le_mono _ ls); [lia|]|].
      split; [exact Q1|]. intros u. change (union_loop ((ls, ln) :: left) [] merged) with
        (union_loop left [] (push_run merged ls ln)). rewrite Q2, P2, mem_cons. tauto.
    + pose proof Hr as (K1 & K2 & K3 & Hr').
      change (union_loop ((ls, ln) :: left) ((rs, rn) :: right) merged) with
        (if ls <=? rs then union_loop left ((rs, rn) :: right) (push_run merged ls ln)
         else union_loop ((ls, ln) :: left) right (push_run merged rs rn)).
      destruct (Z.leb_spec ls rs).
      * destruct (push_run_spec 0 merged ls ln) as (P1 & P2 & P3); try done; try lia;
          [by apply (starts_le_mono _ a)|].
        destruct (IHl ((rs, rn) :: right) (push_run merged ls ln) (ls + ln + 1) ls) as [Q1 Q2];
          try done; try lia; [by apply (starts_le_mono _ ls); [lia|]|].
        split; [exact Q1|]. intros u. rewrite Q2, P2, !mem_cons. tauto.
      * destruct (push_run_spec 0 merged rs rn) as (P1 & P2 & P3); try done; try lia;
          [by apply (starts_le_mono _ b)|].
        destruct (IHr (push_run merged rs rn) rs (rs + rn + 1)) as [Q1 Q2];
          try done; try lia; [simpl; split_and!; try done; lia|by apply (starts_le_mono _ rs); [lia|]|].
        split; [exact Q1|]. intros u. rewrite Q2, P2, !mem_cons. tauto.
Qed.

Lemma union_spec self other :
  canonical self -> canonical other ->
  canonical (union self other) /\
  forall u, mem (runs (union self other)) u <-> mem (runs self) u \/ mem (runs other) u.
Proof.
  destruct self as [l], other as [r]. unfold canonical, union, is_empty. simpl. intros Hl Hr.
  destruct r as [|x r]; [split; [done|]; intros u; pose proof (mem_nil u); tauto|].
  destruct l as [|y l]; [split; [done|]; intros u; pose proof (mem_nil u); simpl; tauto|].
  destruct (union_loop_spec (y :: l) (x :: r) [] 0 0) as [H1 H2]; try done; [apply starts_le_nil..|].
  split; [exact H1|]. intros u. rewrite (H2 u). pose proof (mem_nil u). tauto.
Qed.

(** ** Building from runs *)

Definition run_valid (r : Z * Z) : Prop := 0 <= r.1 /\ 0 < r.2 /\ r.1 + r.2 <= u64_max.

Lemma collect_runs_spec input max_runs acc :
  Forall (fun r => is_u64 r.1 /\ is_u64 r.2) input -> zlen acc <= max_runs ->
  match collect_runs input max_runs acc with
  | Ok l => l = acc ++ input /\ Forall run_valid input /\ zlen l <= max_runs
  | Err TooManyRuns => max_runs < zlen acc + zlen input
  | Err _ => ~ Forall run_valid input
  end.
Proof.
  intros Hu. revert acc. induction Hu as [|[s n] input [Hs Hn] Hu IH]; intros acc Hacc.
  - simpl. rewrite app_nil_r. done.
  - simpl. rewrite zlen_cons. pose proof (zlen_nonneg input).
    destruct (Z.eqb_spec (zlen acc) max_runs); [lia|].
    destruct (Z.eqb_spec n 0).
    { intros [(_ & ? & _) _]%Forall_cons. simpl in *. lia. }
    destruct (checked_add s n) as [e|] eqn:He; simpl.
    2: { apply checked_add_None in He. intros [(_ & _ & ?) _]%Forall_cons. simpl in *. lia. }
    apply checked_add_Some in He as [-> He].
    specialize (IH (acc ++ [(s, n)])). rewrite zlen_app, zlen_cons, zlen_nil in IH.
    specialize (IH ltac:(lia)). unfold is_u64 in *. simpl in Hs, Hn.
    destruct (collect_runs input max_runs (acc ++ [(s, n)])) as [l|[]].
    + destruct IH as (-> & H1 & H2). split_and!; [by rewrite <- app_assoc| |done].
      constructor; [|done]. unfold run_valid. simpl. lia.
    + intros [_ Hf]%Forall_cons. done.
    + intros [_ Hf]%Forall_cons. done.
    + lia.
Qed.

Lemma sort_insert_perm x l : sort_insert x l ≡ₚ x :: l.
Proof.
  induction l as [|y l IH]; simpl; [done|]. destruct (pair_le x y); [done|].
  rewrite IH. apply Permutation_swap.
Qed.

Lemma sort_unstable_perm l : sort_unstable l ≡ₚ l.
Proof. induction l as [|x l IH]; simpl; [done|]. by rewrite sort_insert_perm, IH. Qed.

Lemma pair_le_total a b : pair_le a b = false -> pair_le b a = true.
Proof. destruct a, b. unfold pair_le. simpl. zcases; simpl; try done; lia. Qed.

Lemma sort_insert_sorted x l :
  Sorted (fun a b => pair_le a b = true) l -> Sorted (fun a b => pair_le a b = true) (sort_insert x l).
Proof.
  induction l as [|y l IH]; simpl; intros Hs; [by repeat constructor|].
  destruct (pair_le x y) eqn:Hxy; [by constructor; [|constructor]|].
  apply Sorted_inv in Hs as [Hs Hhd]. constructor; [by apply IH|].
  apply pair_le_total in Hxy. destruct l as [|z l]; simpl; [by constructor|].
  destruct (pair_le x z); [by constructor|]. inversion_clear Hhd. by constructor.
Qed.

Lemma sort_unstable_sorted l : Sorted (fun a b => pair_le a b = true) (sort_unstable l).
Proof. induction l as [|x l IH]; simpl; [constructor|]. by apply sort_insert_sorted. Qed.

Lemma fold_push_spec l acc :
  Sorted (fun a b => pair_le a b = true) l -> Forall run_valid l -> canon 0 acc ->
  match l with (s, _) :: _ => starts_le acc s | [] => True end ->
  canon 0 (fold_left (fun a r => push_run a r.1 r.2) l acc) /\
  forall u, mem (fold_left (fun a r => push_run a r.1 r.2) l acc) u <-> mem acc u \/ mem l u.
Proof.
  intros Hs. revert acc. induction Hs as [|[s n] l Hs IH Hhd]; intros acc Hv Hc Hle; simpl.
  - split; [done|]. intros u. pose proof (mem_nil u). tauto.
  - apply Forall_cons in Hv as [(V1 & V2 & V3) Hv]. simpl in *.
    destruct (push_run_spec 0 acc s n) as (P1 & P2 & P3); try done.
    destruct (IH (push_run acc s n) Hv P1) as [Q1 Q2].
    { destruct l as [|[s2 n2] l]; [done|]. inversion_clear Hhd as [|? ? Hle2].
      apply (starts_le_mono _ s); [|done]. unfold pair_le in Hle2. simpl in Hle2.
      zcases_in Hle2; simpl in Hle2; try done; lia. }
    split; [exact Q1|]. intros u. rewrite Q2, P2, mem_cons. tauto.
Qed.

Lemma mem_perm l1 l2 u : l1 ≡ₚ l2 -> mem l1 u <-> mem l2 u.
Proof. intros Hp. unfold mem. by setoid_rewrite Hp. Qed.

Lemma from_runs_bounded_spec input max_runs :
  Forall (fun r => is_u64 r.1 /\ is_u64 r.2) input -> 0 <= max_runs ->
  match from_runs_bounded input max_runs with
  | Ok s => Forall run_valid input /\ zlen input <= max_runs /\ canonical s /\
      forall u, mem (runs s) u <-> mem input u
  | Err TooManyRuns => max_runs < zlen input
  | Err _ => ~ Forall run_valid input
  end.
Proof.
  intros Hu Hmax. unfold from_runs_bounded.
  pose proof (collect_runs_spec input max_runs [] Hu ltac:(rewrite zlen_nil; lia)) as H.
  destruct (collect_runs input max_runs []) as [l|[]]; simpl; try done.
  destruct H as (-> & Hv & Hlen). simpl in *.
  destruct (fold_push_spec (sort_unstable input) []) as [H1 H2].
  - apply sort_unstable_sorted.
  - by rewrite sort_unstable_perm.
  - done.
  - destruct (sort_unstable input) as [|[]]; [done|]. apply starts_le_nil.
  - split_and!; try done. intros u. rewrite H2, (mem_perm _ _ u (sort_unstable_perm input)).
    pose proof (mem_nil u). tauto.
Qed.

(** ** Difference *)

(** What one inner loop establishes about what it emitted, where the cursor
    stands and what it left in the iterator. *)
Record inner_post (others : list (Z * Z)) (stop cursor : Z) (out : list (Z * Z))
    (out' : list (Z * Z)) (cursor' : Z) (others' : list (Z * Z)) : Prop := {
  ip_canon : canon 0 out';
  ip_starts : starts_le out' (Z.min cursor' stop);
  ip_cursor : cursor <= cursor';
  ip_mem : forall u, mem out' u <->
    mem out u \/ (cursor <= u < Z.min cursor' stop /\ ~ mem others u);
  ip_rest : forall u, cursor' <= u < stop -> ~ mem others u;
  ip_others : canon 0 others';
  ip_later : forall u, stop <= u -> mem others' u <-> mem others u }.

Lemma difference_inner_spec others b stop cursor out :
  canon b others -> 0 <= b -> canon 0 out -> starts_le out cursor ->
  0 <= cursor < stop -> stop <= u64_max ->
  let '(out', cursor', others') := difference_inner others stop cursor out in
  inner_post others stop cursor out out' cursor' others'.
Proof.
  revert b cursor out. induction others as [|[os ol] rest IH]; intros b cursor out Ho Hb Hout Hst Hc Hs; simpl.
  - split; try done; try lia; [by apply (starts_le_mono _ cursor); [lia|]|..];
      intros u; pose proof (mem_nil u); [|tauto].
    split; [tauto|]. intros [?|[? _]]; [done|lia].
  - pose proof Ho as (O1 & O2 & O3 & Orest). unfold saturating_add. rewrite Z.min_l by lia.
    pose proof (fun u => mem_lower _ _ u Orest) as Hlow.
    destruct (Z.leb_spec (os + ol) cursor) as [Hskip|Hskip].
    + specialize (IH (os + ol + 1) cursor out Orest ltac:(lia) Hout Hst Hc Hs).
      destruct (difference_inner rest stop cursor out) as [[out' cursor'] others'].
      destruct IH as [I1 I2 I3 I4 I5 I6 I7]. split; try done.
      * intros u. rewrite I4, mem_cons. intuition lia.
      * intros u Hu [?|Hm]%mem_cons; [lia|]. by apply (I5 u).
      * intros u Hu. rewrite (I7 u Hu), mem_cons. intuition lia.
    + destruct (Z.leb_spec stop os) as [Hstop|Hstop].
      * split; try done; try lia.
        -- by apply (starts_le_mono _ cursor); [lia|].
        -- intros u. split; [tauto|]. intros [?|[? _]]; [done|lia].
        -- intros u Hu [?|Hm]%mem_cons; [lia|]. specialize (Hlow _ Hm). lia.
        -- apply (canon_weaken b); done.
      * set (out1 := if cursor <? os then push_run out cursor (os - cursor) else out).
        assert (canon 0 out1 /\ starts_le out1 cursor /\
          forall u, mem out1 u <-> mem out u \/ cursor <= u < os) as (Q1 & Q2 & Q3).
        { unfold out1. destruct (Z.ltb_spec cursor os).
          - destruct (push_run_spec 0 out cursor (os - cursor)) as (P1 & P2 & P3); try done; try lia.
            split_and!; try done. intros u. rewrite P2. intuition lia.
          - split_and!; try done. intros u. intuition lia. }
        rewrite Z.max_r by lia. destruct (Z.leb_spec stop (os + ol)) as [Hend|Hend].
        -- split; try done; try lia.
           ++ apply (starts_le_mono _ cursor); [lia|done].
           ++ intros u. rewrite Q3, mem_cons. specialize (Hlow u). intuition lia.
           ++ apply (canon_weaken b); done.
        -- specialize (IH (os + ol + 1) (os + ol) out1 Orest ltac:(lia) Q1
             ltac:(apply (starts_le_mono _ cursor); [lia|done]) ltac:(lia) Hs).
           destruct (difference_inner rest stop (os + ol) out1) as [[out' cursor'] others'].
           destruct IH as [I1 I2 I3 I4 I5 I6 I7]. split; try done; try lia.
           ++ intros u. rewrite I4, Q3, mem_cons. specialize (Hlow u).
              destruct (Z.lt_ge_cases u os), (Z.lt_ge_cases u (os + ol)); intuition lia.
           ++ intros u Hu [?|Hm]%mem_cons; [lia|]. by apply (I5 u).
           ++ intros u Hu. rewrite (I7 u Hu), mem_cons. intuition lia.
Qed.

Lemma difference_outer_spec mine others out lo :
  canon lo mine -> 0 <= lo -> canon 0 others -> canon 0 out -> starts_le out lo ->
  canon 0 (difference_outer mine others out) /\
  forall u, mem (difference_outer mine others out) u <-> mem out u \/ (mem mine u /\ ~ mem others u).
Proof.
  revert others out lo. induction mine as [|[s n] mine IH]; intros others out lo Hm Hlo Ho Hout Hst; simpl.
  - split; [done|]. intros u. pose proof (mem_nil u). tauto.
  - destruct Hm as (M1 & M2 & M3 & Hm). unfold saturating_add. rewrite Z.min_l by lia.
    pose proof (fun u => mem_lower _ _ u Hm) as Hlow.
    pose proof (difference_inner_spec others 0 (s + n) s out Ho ltac:(lia) Hout
      ltac:(apply (starts_le_mono _ lo); [lia|done]) ltac:(lia) M3) as Hin.
    destruct (difference_inner others (s + n) s out) as [[out' cursor] others'].
    destruct Hin as [I1 I2 I3 I4 I5 I6 I7].
    set (out2 := if cursor <? s + n then push_run out' cursor (s + n - cursor) else out').
    assert (canon 0 out2 /\ starts_le out2 (s + n) /\
      forall u, mem out2 u <-> mem out u \/ (s <= u < s + n /\ ~ mem others u)) as (Q1 & Q2 & Q3).
    { unfold out2. destruct (Z.ltb_spec cursor (s + n)).
      - destruct (push_run_spec 0 out' cursor (s + n - cursor)) as (P1 & P2 & P3); try done; try lia;
          [by apply (starts_le_mono _ (Z.min cursor (s + n))); [lia|]|].
        split_and!; [done|by apply (starts_le_mono _ cursor); [lia|]|].
        intros u. rewrite P2, I4. replace (cursor + (s + n - cursor)) with (s + n) by lia.
        specialize (I5 u). destruct (Z.lt_ge_cases u cursor); intuition lia.
      - split_and!; [done|by apply (starts_le_mono _ (Z.min cursor (s + n))); [lia|]|].
        intros u. rewrite I4. intuition lia. }
    destruct (IH others' out2 (s + n + 1)) as [R1 R2]; try done; try lia;
      [by apply (starts_le_mono _ (s + n)); [lia|]|].
    split; [exact R1|]. intros u. rewrite R2, Q3, mem_cons. specialize (Hlow u).
    destruct (Z.le_gt_cases (s + n) u) as [Hu|Hu]; [rewrite (I7 u Hu)|]; intuition lia.
Qed.

Lemma difference_spec self other :
  canonical self -> canonical other ->
  canonical (difference self other) /\
  forall u, mem (runs (difference self other)) u <-> mem (runs self) u /\ ~ mem (runs other) u.
Proof.
  intros Hs Ho. destruct (difference_outer_spec (runs self) (runs other) [] 0) as [H1 H2];
    try done; [apply starts_le_nil|].
  split; [exact H1|]. intros u. simpl. rewrite H2. pose proof (mem_nil u). tauto.
Qed.

(** ** Enumerations *)

Lemma elem_of_range a b u : u ∈ range a b <-> a <= u < b.
Proof. unfold range. rewrite elem_of_seqZ. lia. Qed.

Lemma set_sorted_app l1 l2 :
  set_sorted l1 -> set_sorted l2 -> (forall x y, x ∈ l1 -> y ∈ l2 -> x < y) -> set_sorted (l1 ++ l2).
Proof.
  unfold set_sorted. induction 1 as [|x l1 Hs IH Hf]; simpl; intros H2 H; [done|].
  constructor; [apply IH; [done|]; intros y z Hy; apply H; set_solver|].
  apply Forall_app. split; [done|]. apply Forall_forall. intros y Hy. apply H; set_solver.
Qed.

Lemma range_sorted a b : set_sorted (range a b).
Proof.
  unfold range. remember (Z.to_nat (b - a)) as k eqn:Hk. revert a b Hk.
  induction k as [|k IH]; intros a b Hk.
  - rewrite seqZ_nil by lia. constructor.
  - rewrite seqZ_cons by lia. constructor.
    + replace (Z.pred (b - a)) with (b - Z.succ a) by lia. apply IH. lia.
    + apply Forall_forall. intros x Hx%elem_of_seqZ. lia.
Qed.

Lemma length_range a b : zlen (range a b) = Z.max 0 (b - a).
Proof. unfold zlen, range. rewrite length_seqZ. lia. Qed.

Lemma units_spec lo l :
  canon lo l ->
  let us := concat (map (fun r => range r.1 (saturating_add r.1 r.2)) l) in
  set_sorted us /\ forall u, u ∈ us <-> mem l u.
Proof.
  revert lo. induction l as [|[s n] l IH]; intros lo Hc; simpl.
  - split; [constructor|]. intros u. pose proof (mem_nil u). set_solver.
  - simpl in Hc. destruct Hc as (H1 & H2 & H3 & Hc). destruct (IH _ Hc) as [Hs Hm].
    unfold saturating_add at 1 3. rewrite !Z.min_l by lia. split.
    + apply set_sorted_app; [apply range_sorted|done|]. intros x y Hx%elem_of_range Hy%Hm.
      pose proof (mem_lower _ _ _ Hc Hy). lia.
    + intros u. rewrite elem_of_app, elem_of_range, Hm, mem_cons. tauto.
Qed.

Lemma elem_of_units self u : canonical self -> u ∈ units self <-> mem (runs self) u.
Proof. intros Hc. apply (units_spec 0 (runs self) Hc). Qed.

Lemma sum_bound lo l :
  canon lo l -> lo <= u64_max -> foldr (fun r acc => r.2 + acc) 0 l <= u64_max - lo.
Proof.
  revert lo. induction l as [|[s n] l IH]; intros lo Hc Hlo; simpl; [lia|].
  simpl in Hc. destruct Hc as (H1 & H2 & H3 & Hc).
  destruct (decide (s + n + 1 <= u64_max)); [specialize (IH _ Hc ltac:(lia)); lia|].
  destruct l as [|[s' n'] l]; simpl in *; lia.
Qed.

Lemma count_exact self : canonical self -> count self = zlen (units self).
Proof.
  unfold canonical, count, units. intros Hc.
  assert (forall lo l acc, canon lo l -> 0 <= acc -> acc + foldr (fun r acc => r.2 + acc) 0 l <= u64_max ->
    fold_left (fun t r => saturating_add t r.2) l acc =
    acc + zlen (concat (map (fun r => range r.1 (saturating_add r.1 r.2)) l))) as Hgen.
  { clear. intros lo l. revert lo. induction l as [|[s n] l IH]; intros lo acc Hc Hacc Hsum; simpl.
    - rewrite zlen_nil. lia.
    - simpl in Hc, Hsum. destruct Hc as (H1 & H2 & H3 & Hc).
      assert (0 <= foldr (fun r acc => r.2 + acc) 0 l).
      { clear -Hc. revert Hc. generalize (s + n + 1). induction l as [|[a b] l IH]; intros k Hc; simpl in *; [lia|].
        destruct Hc as (_ & ? & _ & Hc). specialize (IH _ Hc). lia. }
      unfold saturating_add at 2. rewrite Z.min_l by lia. erewrite IH by (eauto; lia).
      rewrite zlen_app, length_range. unfold saturating_add. rewrite Z.min_l by lia. lia. }
  rewrite (Hgen 0) by (done || (pose proof (sum_bound 0 (runs self) Hc); mlia)). lia.
Qed.

Lemma max_spec self :
  canonical self ->
  match max self with
  | Some m => mem (runs self) m /\ forall u, mem (runs self) u -> u <= m
  | None => runs self = []
  end.
Proof.
  unfold canonical, max. intros Hc. destruct (list_snoc_cases (runs self)) as [H|(l & [s n] & H)]; rewrite H in *.
  - done.
  - rewrite last_snoc. pose proof Hc as [Hc1 Hc2]%canon_app. simpl in Hc2.
    pose proof (after_ge _ _ Hc1). unfold saturating_add, saturating_sub. rewrite Z.min_l, Z.max_l by lia.
    split; [rewrite mem_app, mem_cons; lia|]. intros u Hu.
    pose proof (mem_upper _ _ _ Hc Hu) as Hup. unfold after in Hup. rewrite last_snoc in Hup. lia.
Qed.

(** The gaps below [total], run by run. *)
Fixpoint gaps (lo : Z) (l : list (Z * Z)) (total : Z) : list (Z * Z) :=
  match l with
  | [] => [(lo, total)]
  | (s, n) :: t => (lo, s) :: gaps (s + n) t total
  end.

Definition clamp (total : Z) (g : Z * Z) : list Z := range (Z.min g.1 total) (Z.min g.2 total).

Lemma gaps_spec lo l total :
  canon lo l ->
  let us := concat (map (clamp total) (gaps lo l total)) in
  set_sorted us /\ forall u, u ∈ us <-> lo <= u < total /\ ~ mem l u.
Proof.
  revert lo. induction l as [|[s n] l IH]; intros lo Hc; simpl.
  - rewrite app_nil_r. unfold clamp. simpl. split; [apply range_sorted|].
    intros u. rewrite elem_of_range. pose proof (mem_nil u). intuition lia.
  - simpl in Hc. destruct Hc as (H1 & H2 & H3 & Hc).
    destruct (IH (s + n)) as [Hs Hm]; [by apply (canon_weaken (s + n + 1)); [lia|]|].
    unfold clamp at 1 3. simpl. split.
    + apply set_sorted_app; [apply range_sorted|done|].
      intros x y Hx%elem_of_range Hy%Hm. lia.
    + intros u. rewrite elem_of_app, elem_of_range, Hm, mem_cons.
      pose proof (mem_lower _ _ u Hc).
      destruct (Z.lt_ge_cases u s), (Z.lt_ge_cases u (s + n)); intuition lia.
Qed.

Lemma missing_gaps self total :
  canonical self -> 0 <= total -> missing self total = concat (map (clamp total) (gaps 0 (runs self) total)).
Proof.
  intros Hc Ht. unfold missing. fold (clamp total). destruct (runs self) as [|r l] eqn:Hr; simpl.
  - unfold clamp. simpl. unfold range. rewrite !Z.min_id, Z.sub_diag, (seqZ_nil total 0) by lia.
    by rewrite !app_nil_r.
  - unfold canonical in Hc. rewrite Hr in Hc. clear Hr.
    assert (forall s n l, canon 0 ((s, n) :: l) ->
      gaps_between ((s, n) :: l) ++ [match last ((s, n) :: l) with
         | None => (total, total) | Some r => (saturating_add r.1 r.2, total) end] =
      gaps (s + n) l total) as H.
    { clear. intros s n l. revert s n. induction l as [|[s2 n2] l IH]; intros s n (Hz & Hn & He & Hc).
      - simpl. unfold saturating_add. by rewrite Z.min_l by lia.
      - cbn [gaps gaps_between]. rewrite <- (IH s2 n2) by (apply (canon_weaken (s + n + 1)); [|done]; simpl in Hc; lia).
        rewrite last_cons_cons. simpl. unfold saturating_add at 1. by rewrite Z.min_l by lia. }
    destruct r as [s n]. cbn [gaps]. rewrite <- H by done. done.
Qed.

Lemma is_empty_spec self : canonical self -> is_empty self = true <-> forall u, ~ mem (runs self) u.
Proof.
  unfold canonical, is_empty. destruct (runs self) as [|[s n] l]; simpl; intros Hc.
  - split; [intros _; apply mem_nil|done].
  - split; [done|]. intros H. exfalso. apply (H s), mem_cons. lia.
Qed.

(** ** Properties *)

(** unit sets compute set operations in canonical form.  On canonical
    sets [insert], [union] and [difference] stay canonical and hold exactly
    the units of the set operation they name ([insert] ignoring only the
    unrepresentable [u64::MAX]), [contains] decides membership by binary
    search, and [max] is the greatest unit. *)
Theorem set_operations_exact a b :
  canonical a -> canonical b ->
  (forall u, is_u64 u -> canonical (insert a u) /\
     forall v, is_u64 v -> contains (insert a u) v = contains a v || ((v =? u) && (u <=? MAX_UNIT))) /\
  (canonical (union a b) /\ forall v, contains (union a b) v = contains a v || contains b v) /\
  (canonical (difference a b) /\
     forall v, contains (difference a b) v = contains a v && negb (contains b v)) /\
  match max a with
  | Some m => contains a m = true /\ forall v, contains a v = true -> v <= m
  | None => forall v, contains a v = false
  end.
Proof.
  intros Ha Hb. split_and!.
  - intros u Hu. destruct (insert_spec a u Ha Hu) as [Hc Hm]. split; [done|]. intros v _.
    apply eq_true_iff_eq. rewrite orb_true_iff, andb_true_iff, Z.eqb_eq, Z.leb_le.
    by rewrite !contains_mem, Hm.
  - apply (union_spec a b Ha Hb).
  - intros v. destruct (union_spec a b Ha Hb) as [Hc Hm]. apply eq_true_iff_eq.
    by rewrite orb_true_iff, !contains_mem, Hm.
  - apply (difference_spec a b Ha Hb).
  - intros v. destruct (difference_spec a b Ha Hb) as [Hc Hm]. apply eq_true_iff_eq.
    rewrite andb_true_iff, negb_true_iff, <- not_true_iff_false. by rewrite !contains_mem, Hm.
  - pose proof (max_spec a Ha) as Hmax. destruct (max a) as [m|].
    + setoid_rewrite contains_mem; done.
    + intros v. apply not_true_iff_false. rewrite contains_mem, Hmax by done. apply mem_nil.
Qed.

Lemma set_operations_exact_witness :
  contains (union (mkUnits [(0, 4); (9, 2)]) (mkUnits [(4, 2)])) 5 =
    contains (mkUnits [(0, 4); (9, 2)]) 5 || contains (mkUnits [(4, 2)]) 5.
Proof.
  destruct (set_operations_exact (mkUnits [(0, 4); (9, 2)]) (mkUnits [(4, 2)])) as (_ & [_ H] & _).
  - vm_compute. intuition discriminate.
  - vm_compute. intuition discriminate.
  - exact (H 5).
Defined.

(** the representation is unique.  Canonical unit sets with the same
    members are equal as values, so the equality test on run vectors is set
    equality. *)
Theorem representation_unique a b :
  canonical a -> canonical b -> (forall u, contains a u = contains b u) -> a = b.
Proof.
  intros Ha Hb H. destruct a as [l1], b as [l2]. f_equal. apply (canon_unique 0); [done|done|].
  intros u. rewrite <- (contains_mem (mkUnits l1)), <- (contains_mem (mkUnits l2)), H by done. done.
Qed.

Lemma representation_unique_witness :
  insert (insert new 3) 4 = mkUnits [(3, 2)].
Proof.
  apply representation_unique.
  - vm_compute. intuition discriminate.
  - vm_compute. intuition discriminate.
  - intros u. replace (insert (insert new 3) 4) with (mkUnits [(3, 2)]) by (vm_compute; reflexivity).
    reflexivity.
Defined.

Lemma filter_split_length (p : Z -> bool) l :
  zlen (filter (fun u => p u = false) l) + zlen (filter (fun u => p u = true) l) = zlen l.
Proof.
  unfold zlen. induction l as [|x l IH]; [done|]. rewrite !filter_cons. simpl.
  destruct (p x) eqn:Hp; simpl; lia.
Qed.

(** [missing] lists exactly what is left.  It yields, in order and without
    repetition, the units below the total that the set does not hold; when the
    set lies below the total, their number is the total less the count. *)
Theorem missing_exact self total :
  canonical self -> is_u64 total ->
  missing self total = filter (fun u => contains self u = false) (range 0 total) /\
  (match max self with Some m => m < total | None => True end ->
     zlen (missing self total) + count self = total).
Proof.
  intros Hc Ht. unfold is_u64 in Ht. pose proof (contains_mem self) as Hcm.
  assert (missing self total = filter (fun u => contains self u = false) (range 0 total)) as Heq.
  { rewrite missing_gaps by (done || lia). destruct (gaps_spec 0 (runs self) total Hc) as [Hs Hm].
    apply set_sorted_ext; [done|apply StronglySorted_filter, range_sorted|].
    intros u. rewrite Hm, list_elem_of_filter, elem_of_range, <- not_true_iff_false, Hcm by done. tauto. }
  split; [done|]. intros Hmax. rewrite Heq, count_exact by done.
  assert (units self = filter (fun u => contains self u = true) (range 0 total)) as ->.
  { destruct (units_spec 0 (runs self) Hc) as [Hs Hm].
    apply set_sorted_ext; [done|apply StronglySorted_filter, range_sorted|].
    intros u. rewrite list_elem_of_filter, elem_of_range, Hcm, elem_of_units by done.
    split; [|tauto]. intros Hu. split; [done|]. pose proof (mem_lower _ _ _ Hc Hu).
    pose proof (max_spec self Hc) as Hms. destruct (max self) as [m|].
    - destruct Hms as [_ Hms]. specialize (Hms _ Hu). lia.
    - rewrite Hms in Hu. by apply mem_nil in Hu. }
  rewrite filter_split_length, length_range. lia.
Qed.

Lemma missing_exact_witness :
  missing (mkUnits [(2, 2); (7, 1)]) 9 = [0; 1; 4; 5; 6; 8] /\
  zlen (missing (mkUnits [(2, 2); (7, 1)]) 9) + count (mkUnits [(2, 2); (7, 1)]) = 9.
Proof.
  split; [vm_compute; reflexivity|].
  apply (missing_exact (mkUnits [(2, 2); (7, 1)]) 9).
  - vm_compute. intuition discriminate.
  - vm_compute. split; discriminate.
  - vm_compute. reflexivity.
Defined.

(** runs from outside are validated and normalised.  [from_runs_bounded]
    accepts exactly the inputs of at most the allowed number of nonempty runs
    that stay inside [u64], in any order and with any overlap, and returns the
    canonical set of their units. *)
Theorem from_runs_bounded_exact input max_runs :
  Forall (fun r => is_u64 r.1 /\ is_u64 r.2) input -> 0 <= max_runs ->
  ((exists s, from_runs_bounded input max_runs = Ok s) <->
     Forall run_valid input /\ zlen input <= max_runs) /\
  (forall s, from_runs_bounded input max_runs = Ok s -> canonical s /\
     forall u, contains s u = true <-> exists start n, (start, n) ∈ input /\ start <= u < start + n).
Proof.
  intros Hu Hmax. pose proof (from_runs_bounded_spec input max_runs Hu Hmax) as H.
  destruct (from_runs_bounded input max_runs) as [s|e].
  - destruct H as (Hv & Hl & Hc & Hm). split; [split; [tauto|eauto]|]. intros s' [= <-].
    split; [done|]. intros u. by rewrite contains_mem, Hm.
  - split; [|done]. split; [by intros [? ?]|]. intros [Hv Hl]. destruct e; try done. lia.
Qed.

Lemma from_runs_bounded_exact_witness :
  exists s, from_runs_bounded [(5, 3); (0, 2); (1, 4)] 8 = Ok s.
Proof.
  apply (proj1 (from_runs_bounded_exact [(5, 3); (0, 2); (1, 4)] 8
    ltac:(repeat constructor; vm_compute; discriminate) ltac:(lia))).
  split; [|vm_compute; discriminate].
  repeat constructor; vm_compute; first [discriminate | reflexivity].
Defined.
