(* ===== verification/Resume.v ===== *)
(** * Resume state: bounded-waste checkpoints (vot-resume-core, tracker.rs)

    A [ResumeState] tracks which units of an object are checkpointed, which
    were completed since the last checkpoint, and which are active.  The host
    persists a [CheckpointPlan] and hands the durable result back.  The model
    translates every operation of the tracker over the sets of [Units] and
    [BTree]; the theorems bound what a crash can cost and show that no
    completed unit is ever lost. *)

From S2P Require Import Prelude BTree Units.

Inductive Error :=
| InvalidConfiguration
| InvalidUnit
| UnitAlreadyActive
| UnitNotActive
| CheckpointRequired
| InvalidCheckpoint
| StaleCheckpointPlan
| CheckpointGenerationExhausted.

Record ResumeIdentity := mkIdentity {
  discriminator : Z; digest : list Z; id_length : Z }.

#[export] Instance ResumeIdentity_eq_dec : EqDecision ResumeIdentity.
Proof. solve_decision. Defined.

Record CheckpointPlan := mkPlan {
  p_identity : ResumeIdentity;
  p_generation : Z;
  p_total_units : Z;
  p_baseline : UnitRanges;
  p_checkpointed : UnitRanges;
  p_pending : UnitRanges }.

Record ResumeState := mkState {
  identity : ResumeIdentity;
  total_units : Z;
  checkpoint_window : Z;
  checkpointed : UnitRanges;
  completed_since_checkpoint : list Z;
  active : list Z;
  checkpoint_generation : Z }.

(** [usize] is 64 bits wide, so [u64::try_from] succeeds. *)
Definition validate_checkpoint_window (total window : Z) : result unit Error :=
  if (window =? 0) || (total <? window) then Err InvalidConfiguration else Ok tt.

Definition validate_durable (total : Z) (durable : UnitRanges) : result unit Error :=
  if match max durable with Some u => total <=? u | None => false end
  then Err InvalidCheckpoint else Ok tt.

(** [ResumeState::new]. *)
Definition state_new (id : ResumeIdentity) (total window : Z) (durable : UnitRanges) :
    result ResumeState Error :=
  let? _ := validate_checkpoint_window total window in
  let? _ := validate_durable total durable in
  Ok (mkState id total window durable [] [] 0).

Definition validate_unit (self : ResumeState) (u : Z) : result unit Error :=
  if total_units self <=? u then Err InvalidUnit else Ok tt.

Definition begin_unit (u : Z) : M ResumeState Error bool := fun self =>
  match validate_unit self u with
  | Err e => (Err e, self)
  | Ok _ =>
      if contains (checkpointed self) u || set_contains u (completed_since_checkpoint self)
      then (Ok false, self) else
      if set_contains u (active self) then (Err UnitAlreadyActive, self) else
      (Ok true, mkState (identity self) (total_units self) (checkpoint_window self)
         (checkpointed self) (completed_since_checkpoint self) (set_insert u (active self))
         (checkpoint_generation self))
  end.

Definition complete_unit (u : Z) : M ResumeState Error bool := fun self =>
  match validate_unit self u with
  | Err e => (Err e, self)
  | Ok _ =>
      if negb (set_contains u (active self)) then (Err UnitNotActive, self) else
      if checkpoint_window self <=? zlen (completed_since_checkpoint self)
      then (Err CheckpointRequired, self) else
      let completed := set_insert u (completed_since_checkpoint self) in
      (Ok (checkpoint_window self <=? zlen completed),
       mkState (identity self) (total_units self) (checkpoint_window self) (checkpointed self)
         completed (set_remove u (active self)) (checkpoint_generation self))
  end.

Definition prepare_checkpoint (self : ResumeState) : CheckpointPlan :=
  let pending := extend_units new (completed_since_checkpoint self) in
  mkPlan (identity self) (checkpoint_generation self) (total_units self) (checkpointed self)
    (union (checkpointed self) pending) pending.

Definition commit_checkpoint (plan : CheckpointPlan) (durable : UnitRanges) :
    M ResumeState Error unit := fun self =>
  if negb (bool_decide (p_identity plan = identity self)) ||
     negb (p_generation plan =? checkpoint_generation self) ||
     negb (p_total_units plan =? total_units self) ||
     negb (bool_decide (p_baseline plan = checkpointed self)) ||
     existsb (fun u => negb (set_contains u (completed_since_checkpoint self))) (units (p_pending plan))
  then (Err StaleCheckpointPlan, self) else
  match validate_durable (total_units self) durable with
  | Err e => (Err e, self)
  | Ok _ =>
      if negb (is_empty (difference (p_checkpointed plan) durable)) then (Err InvalidCheckpoint, self) else
      match checked_add (checkpoint_generation self) 1 with
      | None => (Err CheckpointGenerationExhausted, self)
      | Some next_generation =>
          (Ok tt, mkState (identity self) (total_units self) (checkpoint_window self) durable
             (filter (fun u => contains durable u = false) (completed_since_checkpoint self))
             (filter (fun u => contains durable u = false) (active self)) next_generation)
      end
  end.

(** Lengths of in-memory sets, added with [usize::saturating_add]. *)
Definition retransmission_units_after_crash (self : ResumeState) : Z :=
  saturating_add (zlen (completed_since_checkpoint self)) (zlen (active self)).

Definition retransmission_bound (self : ResumeState) : Z :=
  saturating_add (checkpoint_window self) (zlen (active self)).

Definition is_checkpointed (self : ResumeState) (u : Z) : bool := contains (checkpointed self) u.

Definition missing_units (self : ResumeState) : list Z :=
  missing (checkpointed self) (total_units self).

(** ** Invariant and reachable states *)

Record resume_inv (s : ResumeState) : Prop := {
  ri_total : is_u64 (total_units s);
  ri_window : 0 < checkpoint_window s <= total_units s;
  ri_canon : canonical (checkpointed s);
  ri_below : forall u, mem (runs (checkpointed s)) u -> u < total_units s;
  ri_completed : set_sorted (completed_since_checkpoint s);
  ri_active : set_sorted (active s);
  ri_completed_range : forall u, u ∈ completed_since_checkpoint s ->
    0 <= u < total_units s /\ ~ mem (runs (checkpointed s)) u;
  ri_active_range : forall u, u ∈ active s ->
    0 <= u < total_units s /\ ~ mem (runs (checkpointed s)) u /\ u ∉ completed_since_checkpoint s;
  ri_len : zlen (completed_since_checkpoint s) <= checkpoint_window s;
  ri_generation : 0 <= checkpoint_generation s <= u64_max }.

(** A plan can only come out of [prepare_checkpoint], of some state. *)
Definition plan_made (p : CheckpointPlan) : Prop := exists s, resume_inv s /\ p = prepare_checkpoint s.

(** Units are done when checkpointed or completed since. *)
Definition unit_done (s : ResumeState) (u : Z) : Prop :=
  is_checkpointed s u = true \/ u ∈ completed_since_checkpoint s.

Inductive resume_step : ResumeState -> ResumeState -> Prop :=
| step_begin s s' u r : is_u64 u -> begin_unit u s = (Ok r, s') -> resume_step s s'
| step_complete s s' u r : is_u64 u -> complete_unit u s = (Ok r, s') -> resume_step s s'
| step_checkpoint s s' p d :
    plan_made p -> canonical d -> commit_checkpoint p d s = (Ok tt, s') -> resume_step s s'.

Inductive resume_reached : ResumeState -> Prop :=
| reached_new id total window d s :
    is_u64 total -> is_u64 window -> canonical d -> state_new id total window d = Ok s ->
    resume_reached s
| reached_resume s s' : resume_reached s -> resume_step s s' -> resume_reached s'.

Lemma validate_durable_ok total d :
  canonical d -> validate_durable total d = Ok tt <-> forall u, mem (runs d) u -> u < total.
Proof.
  intros Hc. pose proof (max_spec d Hc) as Hm. unfold validate_durable. destruct (max d) as [m|].
  - destruct Hm as [Hin Hle]. destruct (Z.leb_spec total m); split; try done.
    + intros H'. specialize (H' _ Hin). lia.
    + intros _ u Hu. specialize (Hle _ Hu). lia.
  - rewrite Hm. split; [|done]. intros _ u []%mem_nil.
Qed.

Lemma extend_units_spec us a :
  canonical a -> Forall is_u64 us ->
  canonical (extend_units a us) /\
  forall u, mem (runs (extend_units a us)) u <-> mem (runs a) u \/ (u ∈ us /\ u <= MAX_UNIT).
Proof.
  unfold extend_units. revert a. induction us as [|x us IH]; intros a Hc Hu; simpl.
  { split; [done|]. intros u. rewrite elem_of_nil. tauto. }
  apply Forall_cons in Hu as [Hx Hu]. destruct (insert_spec a x Hc Hx) as [H1 H2].
  destruct (IH (insert a x) H1 Hu) as [H3 H4]. split; [done|].
  intros u. rewrite H4, H2, elem_of_cons.
  destruct (decide (u = x)) as [->|]; tauto.
Qed.

Lemma prepare_spec s :
  resume_inv s ->
  canonical (p_pending (prepare_checkpoint s)) /\
  (forall u, mem (runs (p_pending (prepare_checkpoint s))) u <-> u ∈ completed_since_checkpoint s) /\
  canonical (p_checkpointed (prepare_checkpoint s)) /\
  (forall u, mem (runs (p_checkpointed (prepare_checkpoint s))) u <->
     mem (runs (checkpointed s)) u \/ u ∈ completed_since_checkpoint s).
Proof.
  intros Hi. pose proof (ri_total _ Hi) as Ht. unfold is_u64 in Ht. simpl.
  destruct (extend_units_spec (completed_since_checkpoint s) new) as [H1 H2]; [done| |].
  { apply Forall_forall. intros u Hu. apply (ri_completed_range _ Hi) in Hu. unfold is_u64. lia. }
  assert (forall u, mem (runs (extend_units new (completed_since_checkpoint s))) u <->
    u ∈ completed_since_checkpoint s) as H3.
  { intros u. rewrite H2. pose proof (mem_nil u). pose proof (ri_completed_range _ Hi u).
    unfold MAX_UNIT. split; [tauto|]. intros Hu. right. split; [done|].
    destruct (H0 Hu) as [? _]. lia. }
  destruct (union_spec (checkpointed s) (extend_units new (completed_since_checkpoint s)))
    as [H4 H5]; [apply Hi|done|].
  split_and!; try done. intros u. by rewrite H5, H3.
Qed.

(** What an accepted checkpoint means. *)
Lemma commit_checkpoint_ok p d s s' :
  resume_inv s -> plan_made p -> canonical d -> commit_checkpoint p d s = (Ok tt, s') ->
  (forall u, mem (runs d) u -> u < total_units s) /\
  (forall u, mem (runs (checkpointed s)) u -> mem (runs d) u) /\
  (forall u, mem (runs (p_checkpointed p)) u -> mem (runs d) u) /\
  p_generation p = checkpoint_generation s /\ checkpoint_generation s < u64_max /\
  s' = mkState (identity s) (total_units s) (checkpoint_window s) d
    (filter (fun u => contains d u = false) (completed_since_checkpoint s))
    (filter (fun u => contains d u = false) (active s)) (checkpoint_generation s + 1).
Proof.
  intros Hi (s0 & Hi0 & ->) Hd. unfold commit_checkpoint.
  destruct (prepare_spec s0 Hi0) as (Hp1 & Hp2 & Hp3 & Hp4).
  destruct (_ || _) eqn:Hstale; [done|].
  rewrite !orb_false_iff, !negb_false_iff in Hstale.
  destruct Hstale as ((((_ & Hg%Z.eqb_eq) & _) & Hb%bool_decide_eq_true) & _).
  destruct (validate_durable (total_units s) d) as [[]|] eqn:Hv; [|done].
  rewrite validate_durable_ok in Hv by done.
  destruct (difference_spec (p_checkpointed (prepare_checkpoint s0)) d Hp3 Hd) as [Hdc Hdm].
  destruct (is_empty _) eqn:He; simpl; [|done].
  rewrite is_empty_spec in He by done.
  assert (forall u, mem (runs (p_checkpointed (prepare_checkpoint s0))) u -> mem (runs d) u) as Hsub.
  { intros u Hu. rewrite <- contains_mem by done. destruct (contains d u) eqn:Hc; [done|].
    exfalso. apply (He u), Hdm. split; [done|]. rewrite <- contains_mem by done. congruence. }
  destruct (checked_add (checkpoint_generation s) 1) as [g|] eqn:Hadd; [|done].
  apply checked_add_Some in Hadd as [-> Hg1]. intros [= <-]. split_and!; try done; [|lia].
  intros u Hu. apply Hsub, Hp4. left. simpl in Hb. by rewrite Hb.
Qed.

Lemma filter_length_le {A} (P : A -> Prop) `{!forall x, Decision (P x)} l : zlen (filter P l) <= zlen l.
Proof. unfold zlen. pose proof (length_filter P l). lia. Qed.

Lemma begin_unit_inv u s r s' :
  resume_inv s -> is_u64 u -> begin_unit u s = (Ok r, s') ->
  resume_inv s' /\ (forall v, unit_done s' v <-> unit_done s v).
Proof.
  intros Hi Hu. unfold begin_unit, validate_unit, unit_done, is_checkpointed.
  destruct (Z.leb_spec (total_units s) u); [done|].
  destruct (contains (checkpointed s) u) eqn:Hc; simpl; [by intros [= <- <-]|].
  destruct (set_contains u (completed_since_checkpoint s)) eqn:Hcs; [by intros [= <- <-]|].
  destruct (set_contains u (active s)) eqn:Ha; [done|]. intros [= <- <-]. simpl. split; [|done].
  unfold set_contains in *. apply bool_decide_eq_false in Hcs, Ha.
  destruct Hi as [H1 H2 H3 H4 H5 H6 H7 H8 H9 H10]. split; simpl; try done.
  - by apply set_insert_sorted.
  - intros v [->|Hv]%elem_of_set_insert; [|by apply H8]. split_and!; [unfold is_u64 in *; lia|lia| |done].
    rewrite <- contains_mem by done. congruence.
Qed.

Lemma complete_unit_inv u s r s' :
  resume_inv s -> complete_unit u s = (Ok r, s') ->
  resume_inv s' /\ (forall v, unit_done s' v <-> unit_done s v \/ v = u).
Proof.
  intros Hi. unfold complete_unit, validate_unit, unit_done, is_checkpointed.
  destruct (Z.leb_spec (total_units s) u); [done|].
  destruct (set_contains u (active s)) eqn:Ha; simpl; [|done].
  unfold set_contains in Ha. apply bool_decide_eq_true in Ha.
  destruct (Z.leb_spec (checkpoint_window s) (zlen (completed_since_checkpoint s))); [done|].
  intros [= <- <-]. simpl. split; [|intros v; rewrite elem_of_set_insert; tauto].
  destruct Hi as [H1 H2 H3 H4 H5 H6 H7 H8 H9 H10]. destruct (H8 _ Ha) as (Hr & Hnm & Hnc).
  split; simpl; try done.
  - by apply set_insert_sorted.
  - by apply set_remove_sorted.
  - intros v [->|Hv]%elem_of_set_insert; [done|by apply H7].
  - intros v [Hne Hv]%elem_of_set_remove. destruct (H8 _ Hv) as (? & ? & ?).
    split_and!; try done; try lia. rewrite elem_of_set_insert. tauto.
  - unfold zlen in *. rewrite length_set_insert_new by done. lia.
Qed.

Lemma checkpoint_inv p d s s' :
  resume_inv s -> plan_made p -> canonical d -> commit_checkpoint p d s = (Ok tt, s') ->
  resume_inv s' /\ (forall v, unit_done s v -> unit_done s' v).
Proof.
  intros Hi Hp Hd Hc. apply commit_checkpoint_ok in Hc as (Hb & Hsub & _ & _ & Hg & ->); [|done..].
  destruct Hi as [H1 H2 H3 H4 H5 H6 H7 H8 H9 H10]. split.
  - split; simpl; try done; try lia.
    + by apply StronglySorted_filter.
    + by apply StronglySorted_filter.
    + intros u [Hn Hu]%list_elem_of_filter. split; [by apply H7|].
      rewrite <- contains_mem by done. congruence.
    + intros u [Hn Hu]%list_elem_of_filter. destruct (H8 _ Hu) as (? & _ & ?). split_and!; [lia|lia| |].
      * rewrite <- contains_mem by done. congruence.
      * rewrite list_elem_of_filter. tauto.
    + pose proof (filter_length_le (fun u => contains d u = false) (completed_since_checkpoint s)). lia.
  - intros v. unfold unit_done, is_checkpointed. simpl. rewrite list_elem_of_filter.
    destruct (contains d v) eqn:Hdv; [by left|]. rewrite !contains_mem by done.
    intros [Hv|Hv]; [|by right]. apply Hsub in Hv. rewrite <- contains_mem in Hv by done. congruence.
Qed.

Lemma resume_step_inv s s' :
  resume_step s s' -> resume_inv s -> resume_inv s' /\ (forall v, unit_done s v -> unit_done s' v).
Proof.
  intros Hst Hi. destruct Hst as [s s' u r Hu H|s s' u r Hu H|s s' p d Hp Hd H].
  - destruct (begin_unit_inv _ _ _ _ Hi Hu H) as [? Hd]. split; [done|]. intros v. apply Hd.
  - destruct (complete_unit_inv _ _ _ _ Hi H) as [? Hd]. split; [done|]. intros v Hv. apply Hd. by left.
  - by eapply checkpoint_inv.
Qed.

Lemma resume_reached_inv s : resume_reached s -> resume_inv s.
Proof.
  induction 1 as [id total window d s Ht Hw Hd Hn|s s' _ IH Hst]; [|by eapply resume_step_inv].
  unfold state_new, validate_checkpoint_window in Hn.
  destruct (Z.eqb_spec window 0), (Z.ltb_spec total window); simpl in Hn; try done.
  destruct (validate_durable total d) as [[]|] eqn:Hv; [|done]. simpl in Hn. injection Hn as <-.
  rewrite validate_durable_ok in Hv by done. unfold is_u64 in *.
  split; simpl; try done; try lia; try constructor; set_solver.
Qed.

(** ** Properties *)

Lemma missing_units_spec s u :
  resume_inv s -> u ∈ missing_units s <-> 0 <= u < total_units s /\ ~ mem (runs (checkpointed s)) u.
Proof.
  intros Hi. unfold missing_units. pose proof (ri_total _ Hi) as Ht. unfold is_u64 in Ht.
  rewrite missing_gaps by (apply Hi || lia).
  destruct (gaps_spec 0 (runs (checkpointed s)) (total_units s) (ri_canon _ Hi)) as [_ H]. apply H.
Qed.

(** a crash costs at most the window and what was in flight.  In every
    reachable state the units begun but not durable (completed since the
    checkpoint, or active) are exactly the ones counted by
    [retransmission_units_after_crash], each once and each among the units a
    restart would list as missing; and that count never exceeds
    [retransmission_bound]. *)
Theorem crash_cost_bounded s :
  resume_reached s ->
  retransmission_units_after_crash s <= retransmission_bound s /\
  NoDup (completed_since_checkpoint s ++ active s) /\
  (forall u, u ∈ completed_since_checkpoint s ++ active s -> u ∈ missing_units s) /\
  (forall u, is_checkpointed s u = true -> u ∉ missing_units s).
Proof.
  intros Hi%resume_reached_inv. split_and!.
  - unfold retransmission_units_after_crash, retransmission_bound, saturating_add.
    pose proof (ri_len _ Hi). lia.
  - apply NoDup_app. split_and!.
    + apply set_sorted_NoDup, Hi.
    + intros u Hc Ha. by destruct (ri_active_range _ Hi _ Ha) as (_ & _ & ?).
    + apply set_sorted_NoDup, Hi.
  - intros u Hu. apply missing_units_spec; [done|]. apply elem_of_app in Hu as [Hu|Hu].
    + by apply (ri_completed_range _ Hi).
    + destruct (ri_active_range _ Hi _ Hu) as (? & ? & _). done.
  - intros u Hu Hm. unfold is_checkpointed in Hu. rewrite contains_mem in Hu by apply Hi.
    apply missing_units_spec in Hm; [|done]. by destruct Hm.
Qed.

Definition demo_identity : ResumeIdentity := mkIdentity 1 [] 10.
Definition demo_start : ResumeState := mkState demo_identity 10 2 (mkUnits [(0, 3)]) [] [] 0.

Lemma demo_start_reached : resume_reached demo_start.
Proof.
  apply (reached_new demo_identity 10 2 (mkUnits [(0, 3)])); vm_compute; intuition discriminate.
Qed.

Lemma crash_cost_bounded_witness :
  retransmission_units_after_crash (snd (begin_unit 5 demo_start)) <=
  retransmission_bound (snd (begin_unit 5 demo_start)).
Proof.
  apply (crash_cost_bounded (snd (begin_unit 5 demo_start))).
  apply (reached_resume demo_start); [exact demo_start_reached|].
  apply (step_begin demo_start _ 5 true); [vm_compute; split; discriminate|vm_compute; reflexivity].
Defined.

(** progress is never lost.  Through any sequence of begun and completed
    units and accepted checkpoints, whatever superset the host made durable, a
    unit that was done stays done. *)
Theorem progress_monotone s s' u :
  resume_reached s -> rtc resume_step s s' -> unit_done s u -> unit_done s' u.
Proof.
  intros Hr Hst Hd. assert (resume_inv s) as Hi by (by apply resume_reached_inv). clear Hr.
  induction Hst as [s|s s1 s' H1 _ IH]; [done|].
  destruct (resume_step_inv _ _ H1 Hi) as [Hi1 Hd1]. auto.
Qed.

Lemma progress_monotone_witness : unit_done (snd (begin_unit 5 demo_start)) 1.
Proof.
  apply (progress_monotone demo_start).
  - exact demo_start_reached.
  - apply rtc_once. apply (step_begin demo_start _ 5 true);
      [vm_compute; split; discriminate|vm_compute; reflexivity].
  - left. vm_compute. reflexivity.
Defined.

Lemma prepare_not_stale s :
  resume_inv s ->
  existsb (fun u => negb (set_contains u (completed_since_checkpoint s)))
    (units (p_pending (prepare_checkpoint s))) = false.
Proof.
  intros Hi. destruct (prepare_spec s Hi) as (Hp1 & Hp2 & _).
  apply not_true_iff_false. rewrite existsb_exists. intros (u & Hu%list_elem_of_In & Hn).
  rewrite elem_of_units, Hp2 in Hu by done. unfold set_contains in Hn.
  by rewrite bool_decide_eq_true_2 in Hn.
Qed.

(** a persisted checkpoint commits once.  A plan just prepared, returned
    with any canonical durable set that contains it and lies below the total,
    is accepted: every unit done is then checkpointed and the completed set is
    empty; handing the same plan in again is refused as stale and changes
    nothing. *)
Theorem checkpoint_commits_once s d :
  resume_reached s -> canonical d -> checkpoint_generation s < u64_max ->
  (forall u, contains (p_checkpointed (prepare_checkpoint s)) u = true -> contains d u = true) ->
  (forall u, contains d u = true -> u < total_units s) ->
  exists s', commit_checkpoint (prepare_checkpoint s) d s = (Ok tt, s') /\
    completed_since_checkpoint s' = [] /\ checkpointed s' = d /\
    (forall u, unit_done s u -> is_checkpointed s' u = true) /\
    commit_checkpoint (prepare_checkpoint s) d s' = (Err StaleCheckpointPlan, s').
Proof.
  intros Hi%resume_reached_inv Hd Hg Hsub Hlt.
  destruct (prepare_spec s Hi) as (Hp1 & Hp2 & Hp3 & Hp4).
  assert (forall u, mem (runs (p_checkpointed (prepare_checkpoint s))) u -> contains d u = true) as Hsub'
    by (intros u Hu; apply Hsub; by apply contains_mem).
  assert (commit_checkpoint (prepare_checkpoint s) d s =
    (Ok tt, mkState (identity s) (total_units s) (checkpoint_window s) d
       (filter (fun u => contains d u = false) (completed_since_checkpoint s))
       (filter (fun u => contains d u = false) (active s)) (checkpoint_generation s + 1))) as Heq.
  { unfold commit_checkpoint. rewrite prepare_not_stale by done.
    rewrite !bool_decide_eq_true_2 by done. cbn [p_generation p_total_units prepare_checkpoint].
    rewrite !Z.eqb_refl. cbn [negb orb].
    rewrite (proj2 (validate_durable_ok _ _ Hd)); [|intros u Hu; apply Hlt; by apply contains_mem].
    destruct (difference_spec _ d Hp3 Hd) as [Hdc Hdm].
    rewrite (proj2 (is_empty_spec _ Hdc)); cbn [negb].
    - assert (checked_add (checkpoint_generation s) 1 = Some (checkpoint_generation s + 1)) as ->
        by (apply checked_add_Some; lia). done.
    - intros u Hu%Hdm. destruct Hu as [Hu Hn]. apply Hn. rewrite <- contains_mem by done. auto. }
  eexists. split; [exact Heq|]. simpl. split_and!; [|done| |].
  - apply elem_of_nil_inv. intros u [Hn Hu]%list_elem_of_filter.
    rewrite (Hsub' u) in Hn by (apply Hp4; by right). done.
  - intros u [Hu|Hu]; unfold is_checkpointed in *; simpl; apply Hsub', Hp4; [left|by right].
    rewrite <- contains_mem by apply Hi. done.
  - unfold commit_checkpoint. simpl.
    destruct (Z.eqb_spec (checkpoint_generation s) (checkpoint_generation s + 1)); [lia|].
    by rewrite !orb_true_r.
Qed.

Lemma checkpoint_commits_once_witness :
  exists s', commit_checkpoint (prepare_checkpoint demo_start) (mkUnits [(0, 3)]) demo_start = (Ok tt, s') /\
    completed_since_checkpoint s' = [].
Proof.
  destruct (checkpoint_commits_once demo_start (mkUnits [(0, 3)])) as (s' & H1 & H2 & _).
  - exact demo_start_reached.
  - vm_compute. intuition discriminate.
  - vm_compute. reflexivity.
  - intros u. replace (p_checkpointed (prepare_checkpoint demo_start)) with (mkUnits [(0, 3)])
      by (vm_compute; reflexivity). intros H. exact H.
  - intros u H. rewrite contains_mem in H by (vm_compute; intuition discriminate).
    destruct H as (a & n & [[= -> ->]|H]%elem_of_cons & Hu); [|by apply elem_of_nil in H].
    simpl. lia.
  - exists s'. split; [exact H1 | exact H2].
Defined.
