(* ===== verification/Gf.v ===== *)
(** * GF(2^8): the field of the erasure code (vot-fec, gf.rs)

    Bytes are [Z] in [0, 256).  The exponential and logarithm tables are built
    by the source's loops; multiplication and inversion read them, and the
    [mul_add] kernel applies a row of the product table to a slice, eight bytes
    at a time or, where the processor allows, sixteen nibble lookups at a time.

    The second half shows that the tables implement multiplication of
    polynomials modulo 0x11D, that bytes form a field, and that every kernel
    computes the same function. *)

From S2P Require Import Prelude.
From Stdlib Require Import Field.

Definition POLYNOMIAL : Z := 0x11D.

(** [table[index]]; the tables have 256 or 512 entries and every index the code
    forms is below that. *)
Definition at_ (table : list Z) (index : Z) : Z := nth (Z.to_nat index) table 0.

Record TableState := mkTables { t_exp : list Z; t_log : list Z; t_value : Z }.

(** The body of [while power < 255]. *)
Definition tables_step (s : TableState) (power : Z) : TableState :=
  let exp := <[Z.to_nat power := Z.land (t_value s) 0xFF]> (t_exp s) in
  let log := <[Z.to_nat (t_value s) := Z.land power 0xFF]> (t_log s) in
  let value := Z.shiftl (t_value s) 1 in
  let value := if negb (Z.land value 0x100 =? 0) then Z.lxor value POLYNOMIAL else value in
  mkTables exp log value.

(** [tables]: the cycle, then the repetition; [None] when the assertion that
    the cycle closes at 1 fails. *)
Definition tables : option (list Z * list Z) :=
  let s := fold_left tables_step (seqZ 0 255) (mkTables (replicate 512 0) (replicate 256 0) 1) in
  if t_value s =? 1 then
    Some (fold_left (fun exp power => <[Z.to_nat power := at_ exp (power - 255)]> exp)
            (seqZ 255 257) (t_exp s), t_log s)
  else None.

Definition TABLES : list Z * list Z :=
  Eval vm_compute in match tables with Some t => t | None => ([], []) end.
Definition EXP : list Z := Eval vm_compute in TABLES.1.
Definition LOG : list Z := Eval vm_compute in TABLES.2.

Definition mul (a b : Z) : Z :=
  if (a =? 0) || (b =? 0) then 0 else at_ EXP (at_ LOG a + at_ LOG b).

Definition inv_of (a : Z) : Z := at_ EXP (255 - at_ LOG a).

(** [inv]; [None] is the assertion on zero. *)
Definition inv (a : Z) : option Z := if a =? 0 then None else Some (inv_of a).

(** [product_tables] as its two loops fill it: row and column zero stay zero. *)
Definition product_tables : list (list Z) :=
  map (fun coefficient =>
    map (fun value =>
      if (coefficient =? 0) || (value =? 0) then 0
      else at_ EXP (at_ LOG coefficient + at_ LOG value)) (seqZ 0 256)) (seqZ 0 256).
Definition PRODUCTS : list (list Z) := product_tables.

Definition products_of (coefficient : Z) : list Z := nth (Z.to_nat coefficient) PRODUCTS [].

(** [NIBBLES[coefficient]]: products of the low nibbles and of the high ones. *)
Definition nibble_tables (coefficient : Z) : list Z * list Z :=
  (map (fun nibble => at_ (products_of coefficient) nibble) (seqZ 0 16),
   map (fun nibble => at_ (products_of coefficient) (Z.shiftl nibble 4)) (seqZ 0 16)).

(** [for (o, s) in out.iter_mut().zip(symbol)]: elements of [out] without a
    partner keep their value. *)
Fixpoint zip_update {A B} (f : A -> B -> A) (out : list A) (symbol : list B) : list A :=
  match out, symbol with
  | o :: out', s :: symbol' => f o s :: zip_update f out' symbol'
  | _, _ => out
  end.

(** [chunks_exact(n)] and its remainder. *)
Fixpoint chunks_exact_fuel (fuel n : nat) (l : list Z) : list (list Z) :=
  match fuel with
  | O => []
  | S fuel' => if (n <=? length l)%nat then take n l :: chunks_exact_fuel fuel' n (drop n l) else []
  end.
Definition chunks_exact (n : nat) (l : list Z) : list (list Z) := chunks_exact_fuel (length l) n l.
Definition chunks_remainder (n : nat) (l : list Z) : list Z := drop (length l / n * n) l.

Definition mul_add_scalar (out : list Z) (coefficient : Z) (symbol : list Z) : list Z :=
  let products := products_of coefficient in
  let step o s := Z.lxor o (at_ products s) in
  concat (zip_update (zip_update step) (chunks_exact 8 out) (chunks_exact 8 symbol)) ++
  zip_update step (chunks_remainder 8 out) (chunks_remainder 8 symbol).

(** The processor's vector unit, which is not part of the program: whether it
    is there, how many bytes a vector holds, and [swizzle_dyn_within_blocks],
    which looks every index byte up in a 16-byte table repeated in each block. *)
Class VectorUnit := mkVectorUnit {
  has_simd : bool;
  lanes : nat;
  swizzle : list Z -> list Z -> list Z }.

(** What the code relies on: on a vector of indices below 16 the swizzle is a
    table lookup per lane. *)
Class VectorUnitOk (V : VectorUnit) : Prop := mkVectorUnitOk {
  lanes_pos : (0 < lanes)%nat;
  swizzle_lookup : forall table index,
    length table = 16%nat -> length index = lanes -> Forall (fun i => 0 <= i < 16) index ->
    swizzle table index = map (at_ table) index }.

Definition mul_add_simd `{VectorUnit} (out : list Z) (coefficient : Z) (symbol : list Z) : list Z :=
  let '(low_table, high_table) := nibble_tables coefficient in
  let kernel output input :=
    let low := map (fun b => Z.land b 0x0f) input in
    let high := map (fun b => Z.shiftr b 4) input in
    let product := zip_with Z.lxor (swizzle low_table low) (swizzle high_table high) in
    zip_with Z.lxor output product in
  concat (zip_update kernel (chunks_exact lanes out) (chunks_exact lanes symbol)) ++
  mul_add_scalar (chunks_remainder lanes out) coefficient (chunks_remainder lanes symbol).

Definition mul_add `{VectorUnit} (out : list Z) (coefficient : Z) (symbol : list Z) : list Z :=
  if coefficient =? 0 then out else
  if coefficient =? 1 then zip_update Z.lxor out symbol else
  if has_simd then mul_add_simd out coefficient symbol
  else mul_add_scalar out coefficient symbol.

(** ** Reference: polynomials over GF(2) modulo 0x11D *)

Definition poly_mul (a b : Z) : Z :=
  fold_left (fun acc i => Z.lxor acc (if Z.testbit b i then Z.shiftl a i else 0)) (seqZ 0 8) 0.

Definition poly_mod (v : Z) : Z :=
  fold_left (fun v i => Z.lxor v (if Z.testbit v i then Z.shiftl POLYNOMIAL (i - 8) else 0))
    (rev (seqZ 8 7)) v.

Definition gf_mul (a b : Z) : Z := poly_mod (poly_mul a b).

(** ** Exhaustive facts *)

Definition all_bytes : list Z := Eval vm_compute in seqZ 0 256.

Lemma elem_of_all_bytes a : is_u8 a -> In a all_bytes.
Proof.
  intros H. apply list_elem_of_In.
  replace all_bytes with (seqZ 0 256) by (vm_compute; reflexivity).
  apply elem_of_seqZ. unfold is_u8, u8_max in H. lia.
Qed.

Lemma forall_bytes (p : Z -> bool) : forallb p all_bytes = true -> forall a, is_u8 a -> p a = true.
Proof. rewrite forallb_forall. auto using elem_of_all_bytes. Qed.

Lemma forall_range (p : Z -> bool) (n : Z) :
  forallb p (seqZ 0 n) = true -> forall i, 0 <= i < n -> p i = true.
Proof.
  rewrite forallb_forall. intros H i Hi. apply H, list_elem_of_In, elem_of_seqZ. lia.
Qed.

(** Multiplication by the generator, in its linear form. *)
Definition xtime (v : Z) : Z := Z.lxor (Z.shiftl v 1) (if Z.testbit v 7 then POLYNOMIAL else 0).

Lemma exp_facts i : 0 <= i < 511 ->
  is_u8 (at_ EXP i) /\ at_ EXP i <> 0 /\ at_ EXP i = at_ EXP (i mod 255) /\
  at_ LOG (at_ EXP i) = i mod 255 /\ at_ EXP (i + 1) = xtime (at_ EXP i).
Proof.
  intros Hi. pose proof (forall_range (fun i =>
    (0 <=? at_ EXP i) && (at_ EXP i <=? 255) && negb (at_ EXP i =? 0) &&
    (at_ EXP i =? at_ EXP (i mod 255)) && (at_ LOG (at_ EXP i) =? i mod 255) &&
    (at_ EXP (i + 1) =? xtime (at_ EXP i))) 511 ltac:(vm_compute; reflexivity) i Hi) as H.
  cbv beta in H. rewrite !andb_true_iff, !Z.leb_le, negb_true_iff, Z.eqb_neq, !Z.eqb_eq in H.
  unfold is_u8, u8_max. tauto.
Qed.

Lemma log_facts a : is_u8 a -> a <> 0 -> 0 <= at_ LOG a < 255 /\ at_ EXP (at_ LOG a) = a.
Proof.
  intros Ha Hne. pose proof (forall_bytes (fun a => (a =? 0) ||
    ((0 <=? at_ LOG a) && (at_ LOG a <? 255) && (at_ EXP (at_ LOG a) =? a)))
    ltac:(vm_compute; reflexivity) a Ha) as H.
  cbv beta in H. destruct (Z.eqb_spec a 0); [done|]. simpl in H.
  rewrite !andb_true_iff, Z.leb_le, Z.ltb_lt, Z.eqb_eq in H. lia.
Qed.

Lemma inv_facts a : is_u8 a -> a <> 0 -> is_u8 (inv_of a) /\ mul a (inv_of a) = 1.
Proof.
  intros Ha Hne. pose proof (forall_bytes (fun a => (a =? 0) ||
    ((0 <=? inv_of a) && (inv_of a <=? 255) && (mul a (inv_of a) =? 1)))
    ltac:(vm_compute; reflexivity) a Ha) as H.
  cbv beta in H. destruct (Z.eqb_spec a 0); [done|]. simpl in H.
  rewrite !andb_true_iff, !Z.leb_le, Z.eqb_eq in H. unfold is_u8, u8_max. lia.
Qed.

(** ** The field laws *)

Lemma mul_0_l b : mul 0 b = 0.
Proof. done. Qed.
Lemma mul_0_r a : mul a 0 = 0.
Proof. unfold mul. by rewrite orb_true_r. Qed.
Lemma mul_nonzero a b : a <> 0 -> b <> 0 -> mul a b = at_ EXP (at_ LOG a + at_ LOG b).
Proof. intros Ha Hb. unfold mul. by destruct (Z.eqb_spec a 0), (Z.eqb_spec b 0). Qed.

Lemma mul_comm a b : mul a b = mul b a.
Proof. unfold mul. rewrite orb_comm. by rewrite (Z.add_comm (at_ LOG a)). Qed.

Lemma is_u8_0 : is_u8 0.
Proof. unfold is_u8, u8_max. lia. Qed.
Lemma is_u8_1 : is_u8 1.
Proof. unfold is_u8, u8_max. lia. Qed.

Lemma mul_byte a b : is_u8 a -> is_u8 b -> is_u8 (mul a b).
Proof.
  intros Ha Hb. destruct (decide (a = 0)) as [->|Ha0]; [apply is_u8_0|].
  destruct (decide (b = 0)) as [->|Hb0]; [rewrite mul_0_r; apply is_u8_0|].
  rewrite mul_nonzero by done. destruct (log_facts a Ha Ha0), (log_facts b Hb Hb0). apply exp_facts. lia.
Qed.

Lemma mul_eq_0 a b : is_u8 a -> is_u8 b -> mul a b = 0 -> a = 0 \/ b = 0.
Proof.
  intros Ha Hb H. destruct (decide (a = 0)) as [|Ha0]; [by left|].
  destruct (decide (b = 0)) as [|Hb0]; [by right|]. rewrite mul_nonzero in H by done.
  destruct (log_facts a Ha Ha0), (log_facts b Hb Hb0).
  by destruct (exp_facts (at_ LOG a + at_ LOG b)) as (_ & ? & _); [lia|].
Qed.

Lemma mul_1_l a : is_u8 a -> mul 1 a = a.
Proof.
  intros Ha. destruct (decide (a = 0)) as [->|Ha0]; [done|]. rewrite mul_nonzero by done.
  change (at_ LOG 1) with 0. by apply log_facts.
Qed.

Lemma mul_assoc a b c : is_u8 a -> is_u8 b -> is_u8 c -> mul a (mul b c) = mul (mul a b) c.
Proof.
  intros Ha Hb Hc. destruct (decide (a = 0)) as [->|Ha0]; [done|].
  destruct (decide (b = 0)) as [->|Hb0]; [by rewrite mul_0_l, !mul_0_r, mul_0_l|].
  destruct (decide (c = 0)) as [->|Hc0]; [by rewrite !mul_0_r|].
  destruct (log_facts a Ha Ha0) as [La _], (log_facts b Hb Hb0) as [Lb _], (log_facts c Hc Hc0) as [Lc _].
  rewrite (mul_nonzero b c), (mul_nonzero a b) by done.
  destruct (exp_facts (at_ LOG b + at_ LOG c)) as (_ & N1 & _ & G1 & _); [lia|].
  destruct (exp_facts (at_ LOG a + at_ LOG b)) as (_ & N2 & _ & G2 & _); [lia|].
  rewrite !mul_nonzero by done. rewrite G1, G2.
  set (x := at_ LOG a) in *. set (y := at_ LOG b) in *. set (z := at_ LOG c) in *.
  pose proof (Z.mod_pos_bound (x + y) 255). pose proof (Z.mod_pos_bound (y + z) 255).
  destruct (exp_facts (x + (y + z) mod 255)) as (_ & _ & -> & _); [lia|].
  destruct (exp_facts ((x + y) mod 255 + z)) as (_ & _ & -> & _); [lia|].
  rewrite Zplus_mod_idemp_l, Zplus_mod_idemp_r. do 2 f_equal. lia.
Qed.

(** ** Distributivity, through powers of the generator *)

Definition xpow (n : nat) (v : Z) : Z := Nat.iter n xtime v.

Lemma lxor_cond (p q : bool) t :
  (if xorb p q then t else 0) = Z.lxor (if p then t else 0) (if q then t else 0).
Proof. destruct p, q; simpl; by rewrite ?Z.lxor_nilpotent, ?Z.lxor_0_r. Qed.

Lemma lxor_swap4 a b c d : Z.lxor (Z.lxor a b) (Z.lxor c d) = Z.lxor (Z.lxor a c) (Z.lxor b d).
Proof. rewrite !Z.lxor_assoc. f_equal. rewrite <- !Z.lxor_assoc. f_equal. apply Z.lxor_comm. Qed.

Lemma xtime_lxor a b : xtime (Z.lxor a b) = Z.lxor (xtime a) (xtime b).
Proof. unfold xtime. by rewrite Z.shiftl_lxor, Z.lxor_spec, lxor_cond, lxor_swap4. Qed.

Lemma xpow_lxor n a b : xpow n (Z.lxor a b) = Z.lxor (xpow n a) (xpow n b).
Proof. unfold xpow. induction n as [|n IH]; simpl; [done|]. by rewrite IH, xtime_lxor. Qed.

Lemma xpow_exp n i : 0 <= i -> i + Z.of_nat n <= 511 -> xpow n (at_ EXP i) = at_ EXP (i + Z.of_nat n).
Proof.
  intros Hi. induction n as [|n IH]; intros Hn; [by rewrite Z.add_0_r|]. unfold xpow in *. simpl.
  rewrite IH by lia. destruct (exp_facts (i + Z.of_nat n)) as (_ & _ & _ & _ & E); [lia|].
  rewrite <- E. f_equal. lia.
Qed.

Lemma mul_xpow a b : is_u8 a -> is_u8 b -> b <> 0 -> mul a b = xpow (Z.to_nat (at_ LOG b)) a.
Proof.
  intros Ha Hb Hb0. destruct (log_facts b Hb Hb0) as [Lb _].
  destruct (decide (a = 0)) as [->|Ha0].
  - rewrite mul_0_l. symmetry. generalize (Z.to_nat (at_ LOG b)). intros n.
    unfold xpow. induction n as [|n IH]; simpl; [done|]. by rewrite IH.
  - destruct (log_facts a Ha Ha0) as [La Ea]. rewrite mul_nonzero by done.
    rewrite <- Ea at 2. rewrite xpow_exp by lia. by rewrite Z2Nat.id by lia.
Qed.

Lemma lxor_byte a b : is_u8 a -> is_u8 b -> is_u8 (Z.lxor a b).
Proof.
  unfold is_u8, u8_max. intros Ha Hb. split; [by apply Z.lxor_nonneg; lia|].
  destruct (Z.eq_dec (Z.lxor a b) 0); [lia|].
  assert (0 < Z.lxor a b) by (pose proof (proj2 (Z.lxor_nonneg a b)); lia).
  assert (Z.log2 (Z.lxor a b) < 8).
  { pose proof (Z.log2_lxor a b ltac:(lia) ltac:(lia)).
    pose proof (Z.log2_le_mono a 255 ltac:(lia)). pose proof (Z.log2_le_mono b 255 ltac:(lia)).
    change (Z.log2 255) with 7 in *. lia. }
  assert (Z.lxor a b < 2 ^ 8) by (apply Z.log2_lt_pow2; lia). lia.
Qed.

Lemma mul_lxor_l a b c : is_u8 a -> is_u8 b -> is_u8 c -> mul (Z.lxor a b) c = Z.lxor (mul a c) (mul b c).
Proof.
  intros Ha Hb Hc. destruct (decide (c = 0)) as [->|Hc0]; [by rewrite !mul_0_r|].
  rewrite !mul_xpow by (done || by apply lxor_byte). apply xpow_lxor.
Qed.

Lemma mul_lxor_r a b c : is_u8 a -> is_u8 b -> is_u8 c -> mul a (Z.lxor b c) = Z.lxor (mul a b) (mul a c).
Proof. intros. rewrite !(mul_comm a). by apply mul_lxor_l. Qed.

Create HintDb gf.
#[export] Hint Resolve mul_byte lxor_byte is_u8_0 is_u8_1 : gf.

(** ** The reference product *)

Lemma poly_mod_lxor v w : poly_mod (Z.lxor v w) = Z.lxor (poly_mod v) (poly_mod w).
Proof.
  unfold poly_mod. revert v w. induction (rev (seqZ 8 7)) as [|i l IH]; intros v w; simpl; [done|].
  by rewrite Z.lxor_spec, lxor_cond, lxor_swap4, IH.
Qed.

Lemma poly_mod_shift a i : is_u8 a -> 0 <= i < 8 -> poly_mod (Z.shiftl a i) = mul a (2 ^ i).
Proof.
  intros Ha Hi. pose proof (forall_bytes (fun a =>
    forallb (fun i => poly_mod (Z.shiftl a i) =? mul a (2 ^ i)) (seqZ 0 8))
    ltac:(vm_compute; reflexivity) a Ha) as H.
  apply Z.eqb_eq. exact (forall_range _ 8 H i Hi).
Qed.

Lemma pow2_byte i : 0 <= i < 8 -> is_u8 (2 ^ i).
Proof.
  intros Hi. unfold is_u8, u8_max. pose proof (Z.pow_nonneg 2 i).
  pose proof (Z.pow_le_mono_r 2 i 7). change (2 ^ 7) with 128 in *. lia.
Qed.

Definition bit_part (b i : Z) (v : Z) : Z := if Z.testbit b i then v else 0.

Lemma poly_mod_fold a b l acc :
  is_u8 a -> Forall (fun i => 0 <= i < 8) l ->
  poly_mod (fold_left (fun acc i => Z.lxor acc (bit_part b i (Z.shiftl a i))) l acc) =
  fold_left (fun acc i => Z.lxor acc (bit_part b i (mul a (2 ^ i)))) l (poly_mod acc).
Proof.
  intros Ha Hl. revert acc. induction Hl as [|i l Hi _ IH]; intros acc; simpl; [done|].
  rewrite IH, poly_mod_lxor. do 2 f_equal. unfold bit_part.
  destruct (Z.testbit b i); [by apply poly_mod_shift|done].
Qed.

Lemma mul_fold a b l acc :
  is_u8 a -> is_u8 acc -> Forall (fun i => 0 <= i < 8) l ->
  mul a (fold_left (fun acc i => Z.lxor acc (bit_part b i (2 ^ i))) l acc) =
  fold_left (fun acc i => Z.lxor acc (bit_part b i (mul a (2 ^ i)))) l (mul a acc).
Proof.
  intros Ha Hacc Hl. revert acc Hacc. induction Hl as [|i l Hi _ IH]; intros acc Hacc; simpl; [done|].
  assert (is_u8 (bit_part b i (2 ^ i))) as Hb
    by (unfold bit_part; destruct (Z.testbit b i); [by apply pow2_byte|apply is_u8_0]).
  rewrite IH by auto with gf. rewrite mul_lxor_r by done. do 2 f_equal.
  unfold bit_part. destruct (Z.testbit b i); [done|apply mul_0_r].
Qed.

Lemma byte_bits b : is_u8 b -> fold_left (fun acc i => Z.lxor acc (bit_part b i (2 ^ i))) (seqZ 0 8) 0 = b.
Proof.
  intros Hb. apply Z.eqb_eq. exact (forall_bytes (fun b =>
    fold_left (fun acc i => Z.lxor acc (bit_part b i (2 ^ i))) (seqZ 0 8) 0 =? b)
    ltac:(vm_compute; reflexivity) b Hb).
Qed.

Lemma mul_reference a b : is_u8 a -> is_u8 b -> mul a b = gf_mul a b.
Proof.
  intros Ha Hb. assert (Forall (fun i => 0 <= i < 8) (seqZ 0 8)) as Hl
    by (apply Forall_forall; intros i Hi%elem_of_seqZ; lia).
  unfold gf_mul, poly_mul. pose proof (poly_mod_fold a b (seqZ 0 8) 0 Ha Hl) as H1.
  unfold bit_part at 1 in H1. rewrite H1. change (poly_mod 0) with 0.
  rewrite <- (byte_bits b Hb) at 1. rewrite mul_fold by auto with gf. by rewrite mul_0_r.
Qed.

(** ** The kernels *)

Lemma at_map_seqZ f n i : 0 <= i < n -> at_ (map f (seqZ 0 n)) i = f i.
Proof.
  intros Hi. unfold at_. rewrite nth_lookup.
  change (map f (seqZ 0 n)) with (f <$> seqZ 0 n). rewrite list_lookup_fmap.
  rewrite (proj2 (lookup_seqZ 0 n (Z.to_nat i) i)) by lia. done.
Qed.

Lemma products_mul c s : is_u8 c -> is_u8 s -> at_ (products_of c) s = mul c s.
Proof.
  intros Hc Hs. unfold is_u8, u8_max in *. unfold products_of, PRODUCTS, product_tables.
  assert (forall (g : Z -> list Z), nth (Z.to_nat c) (map g (seqZ 0 256)) [] = g c) as Hrow.
  { intros g. rewrite nth_lookup. change (map g (seqZ 0 256)) with (g <$> seqZ 0 256).
    rewrite list_lookup_fmap, (proj2 (lookup_seqZ 0 256 (Z.to_nat c) c)) by lia. done. }
  rewrite Hrow, at_map_seqZ by lia. done.
Qed.

(** What every kernel computes. *)
Definition mul_add_spec (out : list Z) (c : Z) (symbol : list Z) : list Z :=
  zip_update (fun o s => Z.lxor o (mul c s)) out symbol.

Lemma zip_update_ext {A B} (f g : A -> B -> A) out symbol :
  (forall o s, s ∈ symbol -> f o s = g o s) -> zip_update f out symbol = zip_update g out symbol.
Proof.
  revert symbol. induction out as [|o out IH]; intros [|s symbol] H; simpl; try done.
  f_equal; [apply H; set_solver|]. apply IH. intros. apply H. set_solver.
Qed.

Lemma zip_update_app {A B} (f : A -> B -> A) o1 o2 s1 s2 :
  length o1 = length s1 -> zip_update f (o1 ++ o2) (s1 ++ s2) = zip_update f o1 s1 ++ zip_update f o2 s2.
Proof.
  revert s1. induction o1 as [|o o1 IH]; intros [|s s1] H; simpl in *; try done.
  by rewrite IH by lia.
Qed.

Lemma length_zip_update {A B} (f : A -> B -> A) out symbol : length (zip_update f out symbol) = length out.
Proof. revert symbol. induction out as [|o out IH]; intros [|s symbol]; simpl; auto. Qed.

Lemma remainder_step n (l : list Z) :
  (0 < n)%nat -> (n <= length l)%nat -> chunks_remainder n l = chunks_remainder n (drop n l).
Proof.
  intros Hn Hl. unfold chunks_remainder. rewrite length_drop, drop_drop. f_equal.
  replace (length l) with (1 * n + (length l - n))%nat at 1 by lia.
  rewrite Nat.div_add_l by lia. lia.
Qed.

(** Working by chunks and then on the remainder is working on the whole. *)
Lemma chunked_update n (f : Z -> Z -> Z) (kernel : list Z -> list Z -> list Z) (P : list Z -> Prop) :
  (0 < n)%nat ->
  (forall l, P l -> P (take n l) /\ P (drop n l)) ->
  (forall o s, length o = n -> length s = n -> P s -> kernel o s = zip_update f o s) ->
  forall fuel out symbol rest, (length out <= fuel)%nat -> length out = length symbol -> P symbol ->
  rest = zip_update f (chunks_remainder n out) (chunks_remainder n symbol) ->
  concat (zip_update kernel (chunks_exact_fuel fuel n out) (chunks_exact_fuel fuel n symbol)) ++ rest =
  zip_update f out symbol.
Proof.
  intros Hn HP Hk. induction fuel as [|fuel IH]; intros out symbol rest Hf Hlen HPs Hrest.
  - destruct out, symbol; simpl in *; try lia. subst. unfold chunks_remainder. simpl. by rewrite !drop_nil.
  - simpl. rewrite <- Hlen. destruct (Nat.leb_spec n (length out)).
    + simpl. destruct (HP _ HPs) as [HP1 HP2]. rewrite <- app_assoc.
      rewrite remainder_step, (remainder_step n symbol) in Hrest by lia.
      rewrite (IH (drop n out) (drop n symbol) rest) by (rewrite ?length_drop; done || lia).
      rewrite Hk by (rewrite ?length_take; done || lia).
      rewrite <- zip_update_app by (rewrite !length_take; lia). by rewrite !take_drop.
    + simpl. subst. unfold chunks_remainder. rewrite <- Hlen, !Nat.div_small by lia. by rewrite !drop_0.
Qed.

Lemma byte_list_split n l : byte_list l -> byte_list (take n l) /\ byte_list (drop n l).
Proof. intros H. split; [by apply Forall_take|by apply Forall_drop]. Qed.

Lemma byte_list_elem l s : byte_list l -> s ∈ l -> is_u8 s.
Proof. unfold byte_list. rewrite Forall_forall. auto. Qed.

Lemma mul_add_scalar_spec out c symbol :
  is_u8 c -> byte_list symbol -> length out = length symbol ->
  mul_add_scalar out c symbol = mul_add_spec out c symbol.
Proof.
  intros Hc Hs Hlen. unfold mul_add_scalar, mul_add_spec, chunks_exact. rewrite <- Hlen.
  assert (forall o s, byte_list s -> zip_update (fun o s => Z.lxor o (at_ (products_of c) s)) o s =
    zip_update (fun o s => Z.lxor o (mul c s)) o s) as Hext.
  { intros o s Hb. apply zip_update_ext. intros. by rewrite products_mul by eauto using byte_list_elem. }
  apply (chunked_update 8 _ _ byte_list); try done; try lia.
  - apply byte_list_split.
  - intros. by apply Hext.
  - apply Hext. by apply Forall_drop.
Qed.

Lemma nibble_split b : is_u8 b ->
  0 <= Z.land b 15 < 16 /\ 0 <= Z.shiftr b 4 < 16 /\ is_u8 (Z.shiftl (Z.shiftr b 4) 4) /\
  Z.lxor (Z.land b 15) (Z.shiftl (Z.shiftr b 4) 4) = b.
Proof.
  intros Hb. pose proof (forall_bytes (fun b =>
    (0 <=? Z.land b 15) && (Z.land b 15 <? 16) && (0 <=? Z.shiftr b 4) && (Z.shiftr b 4 <? 16) &&
    (0 <=? Z.shiftl (Z.shiftr b 4) 4) && (Z.shiftl (Z.shiftr b 4) 4 <=? 255) &&
    (Z.lxor (Z.land b 15) (Z.shiftl (Z.shiftr b 4) 4) =? b)) ltac:(vm_compute; reflexivity) b Hb) as H.
  cbv beta in H. rewrite !andb_true_iff, !Z.leb_le, !Z.ltb_lt, Z.eqb_eq in H. unfold is_u8, u8_max. lia.
Qed.

Lemma nibble_product c b : is_u8 c -> is_u8 b ->
  Z.lxor (at_ (nibble_tables c).1 (Z.land b 15)) (at_ (nibble_tables c).2 (Z.shiftr b 4)) = mul c b.
Proof.
  intros Hc Hb. destruct (nibble_split b Hb) as (H1 & H2 & H3 & H4). unfold nibble_tables. cbn [fst snd].
  assert (is_u8 (Z.land b 15)) by (unfold is_u8, u8_max; lia).
  rewrite (at_map_seqZ _ 16), (at_map_seqZ _ 16) by lia.
  rewrite !products_mul by done. by rewrite <- mul_lxor_r, H4.
Qed.

Lemma simd_kernel `{VectorUnitOk} c o s :
  is_u8 c -> length o = lanes -> length s = lanes -> byte_list s ->
  zip_with Z.lxor o (zip_with Z.lxor (swizzle (nibble_tables c).1 (map (fun b => Z.land b 15) s))
    (swizzle (nibble_tables c).2 (map (fun b => Z.shiftr b 4) s))) =
  zip_update (fun o s => Z.lxor o (mul c s)) o s.
Proof.
  intros Hc Ho Hs Hb. rewrite !swizzle_lookup; try (rewrite length_map; done); try done;
    try (apply Forall_map, (Forall_impl _ _ _ Hb); intros b Hbb; simpl;
         destruct (nibble_split b Hbb) as (? & ? & _); done).
  rewrite !map_map. assert (length o = length s) as Hlen by congruence. clear Ho Hs.
  revert o Hlen. induction Hb as [|b s Hb _ IH]; intros [|x o] Hlen; simpl in *; try done.
  rewrite IH by lia. f_equal. f_equal. apply (nibble_product c b Hc Hb).
Qed.

Lemma mul_add_simd_spec `{VectorUnitOk} out c symbol :
  is_u8 c -> byte_list symbol -> length out = length symbol ->
  mul_add_simd out c symbol = mul_add_spec out c symbol.
Proof.
  intros Hc Hs Hlen. unfold mul_add_simd, mul_add_spec, chunks_exact. rewrite <- Hlen.
  destruct (nibble_tables c) as [low high] eqn:Hn.
  apply (chunked_update lanes _ _ byte_list); try done.
  - apply lanes_pos.
  - apply byte_list_split.
  - intros o s Ho Hsl Hb. rewrite <- (simd_kernel c o s) by done. by rewrite Hn.
  - apply mul_add_scalar_spec; [done|by apply Forall_drop|]. unfold chunks_remainder.
    by rewrite !length_drop, Hlen.
Qed.

Lemma mul_add_correct `{VectorUnitOk} out c symbol :
  is_u8 c -> byte_list symbol -> length out = length symbol ->
  mul_add out c symbol = mul_add_spec out c symbol.
Proof.
  intros Hc Hs Hlen. unfold mul_add. destruct (Z.eqb_spec c 0) as [->|]; [|destruct (Z.eqb_spec c 1) as [->|]].
  - unfold mul_add_spec. clear. revert symbol. induction out as [|o out IH]; intros [|s symbol]; simpl; try done.
    by rewrite mul_0_l, Z.lxor_0_r, <- IH.
  - apply zip_update_ext. intros. by rewrite mul_1_l by eauto using byte_list_elem.
  - destruct has_simd; [by apply mul_add_simd_spec|by apply mul_add_scalar_spec].
Qed.

(** ** Bytes as a field, for [ring] and [field] *)

Record gf := mkGf { gv : Z; gv_ok : (0 <=? gv) && (gv <=? 255) = true }.

Lemma gf_eq (a b : gf) : gv a = gv b -> a = b.
Proof.
  destruct a as [a Ha], b as [b Hb]. simpl. intros ->. f_equal. apply (proof_irrel Ha Hb).
Qed.

Lemma gv_byte (a : gf) : is_u8 (gv a).
Proof. pose proof (gv_ok a) as H. apply andb_true_iff in H as [H1%Z.leb_le H2%Z.leb_le]. done. Qed.
#[export] Hint Resolve gv_byte : gf.

Lemma byte_ok a : is_u8 a -> (0 <=? a) && (a <=? 255) = true.
Proof. intros [H1 H2]. apply andb_true_iff. split; by apply Z.leb_le. Qed.

Definition of_byte (a : Z) (H : is_u8 a) : gf := mkGf a (byte_ok a H).

Definition g0 : gf := of_byte 0 is_u8_0.
Definition g1 : gf := of_byte 1 is_u8_1.
Definition gadd (a b : gf) : gf := of_byte (Z.lxor (gv a) (gv b)) (lxor_byte _ _ (gv_byte a) (gv_byte b)).
Definition gmul (a b : gf) : gf := of_byte (mul (gv a) (gv b)) (mul_byte _ _ (gv_byte a) (gv_byte b)).

Lemma ginv_byte a : is_u8 (if gv a =? 0 then 0 else inv_of (gv a)).
Proof. destruct (Z.eqb_spec (gv a) 0); [apply is_u8_0|]. apply inv_facts; auto with gf. Qed.
Definition ginv (a : gf) : gf := of_byte (if gv a =? 0 then 0 else inv_of (gv a)) (ginv_byte a).

Lemma gf_field_theory :
  field_theory g0 g1 gadd gmul gadd (fun a => a) (fun a b => gmul a (ginv b)) ginv eq.
Proof.
  split; [split; intros; apply gf_eq; simpl; auto with gf| |done|].
  - apply Z.lxor_comm.
  - symmetry. apply Z.lxor_assoc.
  - apply mul_1_l. auto with gf.
  - apply mul_comm.
  - apply mul_assoc; auto with gf.
  - apply mul_lxor_l; auto with gf.
  - apply Z.lxor_nilpotent.
  - intros H. apply (f_equal gv) in H. done.
  - intros p Hp. apply gf_eq. simpl. destruct (Z.eqb_spec (gv p) 0) as [Hz|Hz].
    + exfalso. by apply Hp, gf_eq.
    + rewrite mul_comm. apply inv_facts; auto with gf.
Qed.

Add Field gf_field : gf_field_theory.

(** Characteristic two, which [ring] does not know. *)
Lemma gadd_diag a : gadd a a = g0.
Proof. apply gf_eq. simpl. apply Z.lxor_nilpotent. Qed.

Lemma gadd_eq_0 a b : gadd a b = g0 -> a = b.
Proof. intros H. apply gf_eq, Z.lxor_eq. by apply (f_equal gv) in H. Qed.

(** ** Properties *)

(** the tables implement the field.  For all bytes the table product is the
    product of polynomials over GF(2) reduced modulo 0x11D, [inv] inverts every
    nonzero byte and fails exactly on zero, and with exclusive or as addition
    the bytes satisfy the field laws. *)
Theorem tables_implement_field a b c :
  is_u8 a -> is_u8 b -> is_u8 c ->
  mul a b = gf_mul a b /\ is_u8 (mul a b) /\
  mul a b = mul b a /\ mul a (mul b c) = mul (mul a b) c /\ mul 1 a = a /\
  mul a (Z.lxor b c) = Z.lxor (mul a b) (mul a c) /\
  (inv a = None <-> a = 0) /\
  (forall i, inv a = Some i -> is_u8 i /\ mul a i = 1).
Proof.
  intros Ha Hb Hc. split_and!.
  - by apply mul_reference.
  - by apply mul_byte.
  - apply mul_comm.
  - by apply mul_assoc.
  - by apply mul_1_l.
  - by apply mul_lxor_r.
  - unfold inv. destruct (Z.eqb_spec a 0); split; done.
  - unfold inv. destruct (Z.eqb_spec a 0); [done|]. intros i [= <-]. by apply inv_facts.
Qed.

Lemma tables_implement_field_witness : mul 0x53 0xCA = gf_mul 0x53 0xCA /\ 0 <= 0x53.
Proof.
  split; [|lia]. apply (tables_implement_field 0x53 0xCA 7); unfold is_u8, u8_max; lia.
Defined.

(** The vector unit as its documentation describes it, sixteen bytes wide. *)
Definition reference_unit : VectorUnit := mkVectorUnit true 16 (fun table index => map (at_ table) index).
Lemma reference_unit_ok : VectorUnitOk reference_unit.
Proof. split; [vm_compute; lia|]. intros. reflexivity. Qed.

(** every kernel computes the same product.  On any processor (no vectors,
    or vectors of any width whose swizzle is a table lookup) [mul_add] xors
    [coefficient * symbol[i]] into each byte of the output, whatever the length
    and however it splits into chunks. *)
Theorem mul_add_exact `{VectorUnitOk} out coefficient symbol :
  is_u8 coefficient -> byte_list symbol -> length out = length symbol ->
  length (mul_add out coefficient symbol) = length out /\
  forall i o s, out !! i = Some o -> symbol !! i = Some s ->
    mul_add out coefficient symbol !! i = Some (Z.lxor o (mul coefficient s)).
Proof.
  intros Hc Hs Hlen. rewrite mul_add_correct by done. unfold mul_add_spec.
  split; [apply length_zip_update|]. clear Hlen Hs. revert symbol.
  induction out as [|x out IH]; intros [|y symbol] [|i] o s; simpl; try done; [|apply IH].
  by intros [= ->] [= ->].
Qed.

Lemma mul_add_exact_witness :
  length (mul_add (H := reference_unit) [1; 2; 3] 5 [7; 8; 9]) = 3%nat.
Proof.
  apply (mul_add_exact (V := reference_unit) (H := reference_unit_ok) [1; 2; 3] 5 [7; 8; 9]).
  - unfold is_u8, u8_max. lia.
  - repeat constructor; vm_compute; discriminate.
  - reflexivity.
Defined.
