(* ===== verification/FecLinear.v ===== *)
(** * Linear algebra over bytes

    Dot products of byte vectors with the field operations of [Gf], and the
    fact the erasure code rests on: a Cauchy matrix [1 / (x + y)] with distinct
    nodes has a trivial kernel. *)

From S2P Require Import Prelude Gf.

(** ** Sums in the field *)

Definition gsum (l : list gf) : gf := foldr gadd g0 l.

(** Terms [a / (x + y)] of one row of the system. *)
Definition cauchy_terms (x : gf) (ys a : list gf) : list gf :=
  zip_with (fun y a => gmul a (ginv (gadd x y))) ys a.

Lemma ginv_l x y : x <> y -> gmul (gadd x y) (ginv (gadd x y)) = g1.
Proof.
  intros Hne. assert (gv (gadd x y) <> 0) as Hz.
  { intros H. apply Hne, gadd_eq_0, gf_eq. exact H. }
  apply gf_eq. unfold gmul, ginv, of_byte. cbn [gv]. destruct (Z.eqb_spec (gv (gadd x y)) 0); [done|].
  apply inv_facts; auto with gf.
Qed.

(** Eliminating the node [(x0, y0)] from one term. *)
Lemma cauchy_term x x0 y y0 a :
  x <> y -> x <> y0 -> x0 <> y ->
  gadd (gmul a (ginv (gadd x y)))
       (gmul (gmul (gadd x0 y0) (ginv (gadd x y0))) (gmul a (ginv (gadd x0 y)))) =
  gmul (gmul (gadd x x0) (ginv (gadd x y0)))
       (gmul (gmul a (gmul (gadd y y0) (ginv (gadd x0 y)))) (ginv (gadd x y))).
Proof.
  intros H1 H2 H3.
  pose proof (ginv_l x y H1) as A. pose proof (ginv_l x y0 H2) as B. pose proof (ginv_l x0 y H3) as C.
  set (p := ginv (gadd x y)) in *. set (q := ginv (gadd x y0)) in *. set (r := ginv (gadd x0 y)) in *.
  assert (gmul (gadd x x0) (gadd y y0) =
    gadd (gmul (gadd x y0) (gadd x0 y)) (gmul (gadd x y) (gadd x0 y0))) as Hid.
  { transitivity (gadd (gmul (gadd x x0) (gadd y y0)) (gadd (gadd (gmul x x0) (gmul x x0))
      (gadd (gmul y y0) (gmul y y0)))); [rewrite !gadd_diag; ring|ring]. }
  transitivity (gadd (gmul (gmul a p) (gmul (gmul (gadd x y0) q) (gmul (gadd x0 y) r)))
    (gmul (gmul (gmul a q) (gmul r (gadd x0 y0))) (gmul (gadd x y) p))).
  - rewrite A, B, C. ring.
  - transitivity (gmul (gmul (gmul a p) (gmul q r))
      (gadd (gmul (gadd x y0) (gadd x0 y)) (gmul (gadd x y) (gadd x0 y0)))); [ring|].
    rewrite <- Hid. ring.
Qed.

Lemma cauchy_sum x x0 y0 ys a :
  (forall y, y ∈ ys -> x <> y /\ x0 <> y) -> x <> y0 ->
  gadd (gsum (cauchy_terms x ys a))
       (gmul (gmul (gadd x0 y0) (ginv (gadd x y0))) (gsum (cauchy_terms x0 ys a))) =
  gmul (gmul (gadd x x0) (ginv (gadd x y0)))
       (gsum (cauchy_terms x ys (zip_with (fun y a => gmul a (gmul (gadd y y0) (ginv (gadd x0 y)))) ys a))).
Proof.
  intros Hne Hx. unfold cauchy_terms, gsum. revert a.
  induction ys as [|y ys IH]; intros [|c a]; simpl; try ring.
  destruct (Hne y) as [H1 H2]; [set_solver|].
  specialize (IH ltac:(intros; apply Hne; set_solver) a).
  pose proof (cauchy_term x x0 y y0 c H1 Hx H2) as Ht.
  set (S1 := foldr gadd g0 (zip_with _ ys a)) in *.
  match type of IH with gadd S1 (gmul _ ?s) = gmul _ ?t => set (S2 := s) in *; set (S3 := t) in * end.
  set (k1 := gmul (gadd x0 y0) (ginv (gadd x y0))) in *.
  set (k2 := gmul (gadd x x0) (ginv (gadd x y0))) in *.
  transitivity (gadd (gadd (gmul c (ginv (gadd x y))) (gmul k1 (gmul c (ginv (gadd x0 y)))))
    (gadd S1 (gmul k1 S2))); [ring|]. rewrite Ht, IH. ring.
Qed.

Lemma gmul_eq_0 a b : gmul a b = g0 -> a = g0 \/ b = g0.
Proof.
  intros H. apply (f_equal gv) in H. simpl in H.
  destruct (mul_eq_0 _ _ (gv_byte a) (gv_byte b) H); [left|right]; by apply gf_eq.
Qed.

Lemma ginv_neq_0 x y : x <> y -> ginv (gadd x y) <> g0.
Proof.
  intros Hne H. pose proof (ginv_l x y Hne) as H1. rewrite H in H1.
  apply (f_equal gv) in H1. simpl in H1. rewrite mul_0_r in H1. done.
Qed.

Lemma cauchy_terms_cons x y ys c a :
  gsum (cauchy_terms x (y :: ys) (c :: a)) = gadd (gmul c (ginv (gadd x y))) (gsum (cauchy_terms x ys a)).
Proof. done. Qed.

(** Two rows of the system give one row of the system without [y0]. *)
Lemma cauchy_eliminate x x0 y0 ys a0 a :
  (forall y, y ∈ y0 :: ys -> x <> y /\ x0 <> y) -> x <> x0 ->
  gsum (cauchy_terms x (y0 :: ys) (a0 :: a)) = g0 ->
  gsum (cauchy_terms x0 (y0 :: ys) (a0 :: a)) = g0 ->
  gsum (cauchy_terms x ys (zip_with (fun y a => gmul a (gmul (gadd y y0) (ginv (gadd x0 y)))) ys a)) = g0.
Proof.
  intros Hne Hxx S1 S2. destruct (Hne y0) as [Hxy Hxy0]; [set_solver|].
  pose proof (cauchy_sum x x0 y0 ys a ltac:(intros; apply Hne; set_solver) Hxy) as Hc.
  rewrite cauchy_terms_cons in S1, S2. apply gadd_eq_0 in S1, S2. rewrite <- S1, <- S2 in Hc.
  pose proof (ginv_l x0 y0 Hxy0) as D.
  assert (gmul (gmul (gadd x x0) (ginv (gadd x y0))) (gsum (cauchy_terms x ys
    (zip_with (fun y a => gmul a (gmul (gadd y y0) (ginv (gadd x0 y)))) ys a))) = g0) as Hz.
  { rewrite <- Hc. transitivity (gadd (gmul a0 (ginv (gadd x y0)))
      (gmul (gmul (gadd x0 y0) (ginv (gadd x0 y0))) (gmul a0 (ginv (gadd x y0))))); [ring|].
    rewrite D. transitivity (gadd (gmul a0 (ginv (gadd x y0))) (gmul a0 (ginv (gadd x y0)))); [ring|].
    apply gadd_diag. }
  apply gmul_eq_0 in Hz as [Hz|Hz]; [|done]. exfalso.
  apply gmul_eq_0 in Hz as [Hz|Hz]; [by apply gadd_eq_0 in Hz|by apply ginv_neq_0 in Hz].
Qed.

Lemma scaled_zero (f : gf -> gf) ys a :
  length a = length ys -> (forall y, y ∈ ys -> f y <> g0) ->
  Forall (eq g0) (zip_with (fun y a => gmul a (f y)) ys a) -> Forall (eq g0) a.
Proof.
  revert a. induction ys as [|y ys IH]; intros [|c a] Hl Hf Hb; simpl in *; try done.
  apply Forall_cons in Hb as [Hc Hb]. constructor.
  - symmetry in Hc. apply gmul_eq_0 in Hc as [->|Hc]; [done|]. by destruct (Hf y ltac:(set_solver)).
  - apply IH; [lia|intros; apply Hf; set_solver|done].
Qed.

Lemma cauchy_terms_zero x ys a : Forall (eq g0) a -> gsum (cauchy_terms x ys a) = g0.
Proof.
  intros Ha. revert ys. induction Ha as [|c a <- _ IH]; intros [|y ys]; try done.
  rewrite cauchy_terms_cons, IH. ring.
Qed.

Lemma cauchy_kernel xs ys a :
  NoDup xs -> NoDup ys -> (forall x y, x ∈ xs -> y ∈ ys -> x <> y) ->
  length a = length ys -> (length ys <= length xs)%nat ->
  (forall x, x ∈ xs -> gsum (cauchy_terms x ys a) = g0) -> Forall (eq g0) a.
Proof.
  revert xs a. induction ys as [|y0 ys IH]; intros xs [|a0 a] Hxs Hys Hne Hla Hlx Hsum;
    simpl in Hla, Hlx; try lia; [constructor|].
  destruct xs as [|x0 xs]; [simpl in Hlx; lia|]. simpl in Hlx.
  apply NoDup_cons in Hxs as [Hx0 Hxs]. apply NoDup_cons in Hys as [Hy0 Hys].
  assert (Forall (eq g0) a) as Ha.
  { apply (scaled_zero (fun y => gmul (gadd y y0) (ginv (gadd x0 y))) ys); [lia|..].
    - intros y Hy [Hz|Hz]%gmul_eq_0.
      + apply gadd_eq_0 in Hz as ->. done.
      + apply ginv_neq_0 in Hz; [done|]. apply Hne; set_solver.
    - apply (IH xs); try done; [intros x y Hx Hy; apply Hne; set_solver| |lia|].
      + rewrite length_zip_with. lia.
      + intros x Hx. apply (cauchy_eliminate x x0 y0 ys a0); try (apply Hsum; set_solver).
        * intros y Hy. split; apply Hne; set_solver.
        * intros ->. done. }
  constructor; [|done]. pose proof (Hsum x0 ltac:(set_solver)) as Hs.
  rewrite cauchy_terms_cons, (cauchy_terms_zero _ _ _ Ha) in Hs.
  assert (gmul a0 (ginv (gadd x0 y0)) = g0) as Hz by (rewrite <- Hs; ring).
  apply gmul_eq_0 in Hz as [->|Hz]; [done|]. apply ginv_neq_0 in Hz; [done|]. apply Hne; set_solver.
Qed.

(** ** Dot products of byte vectors *)

Definition dot (a b : list Z) : Z := foldr Z.lxor 0 (zip_with mul a b).

Lemma dot_cons x y a b : dot (x :: a) (y :: b) = Z.lxor (mul x y) (dot a b).
Proof. done. Qed.

Lemma dot_byte a b : byte_list a -> byte_list b -> is_u8 (dot a b).
Proof.
  intros Ha. revert b. induction Ha as [|x a Hx _ IH]; intros b Hb; [apply is_u8_0|].
  destruct Hb as [|y b Hy Hb]; [apply is_u8_0|]. rewrite dot_cons. auto with gf.
Qed.

Lemma dot_app a1 a2 b1 b2 :
  length a1 = length b1 -> dot (a1 ++ a2) (b1 ++ b2) = Z.lxor (dot a1 b1) (dot a2 b2).
Proof.
  revert b1. induction a1 as [|x a1 IH]; intros [|y b1] Hl; simpl in Hl; try lia.
  - by rewrite Z.lxor_0_l.
  - rewrite <- !app_comm_cons, !dot_cons, IH by lia. by rewrite Z.lxor_assoc.
Qed.

Lemma dot_zero_r a n : dot a (replicate n 0) = 0.
Proof.
  revert n. induction a as [|x a IH]; intros [|n]; try done. simpl replicate.
  by rewrite dot_cons, IH, mul_0_r.
Qed.

Lemma dot_scale c a b :
  is_u8 c -> byte_list a -> byte_list b -> dot (map (mul c) a) b = mul c (dot a b).
Proof.
  intros Hc Ha. revert b. induction Ha as [|x a Hx Ha IH]; intros b Hb; [by rewrite mul_0_r|].
  destruct Hb as [|y b Hy Hb]; simpl map; [by rewrite mul_0_r|]. rewrite !dot_cons, IH by done.
  rewrite mul_lxor_r by (auto using dot_byte with gf). by rewrite mul_assoc.
Qed.

Lemma dot_mul_add o c p b :
  is_u8 c -> byte_list o -> byte_list p -> byte_list b -> length o = length p ->
  dot (mul_add_spec o c p) b = Z.lxor (dot o b) (mul c (dot p b)).
Proof.
  intros Hc Ho. revert p b. induction Ho as [|x o Hx Ho IH]; intros p b Hp Hb Hl.
  - destruct p; [|done]. by rewrite mul_0_r.
  - destruct Hp as [|y p Hy Hp]; [done|]. simpl in Hl.
    destruct Hb as [|z b Hz Hb]; [by rewrite mul_0_r|].
    change (mul_add_spec (x :: o) c (y :: p)) with (Z.lxor x (mul c y) :: mul_add_spec o c p).
    rewrite !dot_cons, IH by (done || lia).
    rewrite mul_lxor_l, (mul_lxor_r c) by (auto using dot_byte with gf).
    rewrite mul_assoc by done. apply lxor_swap4.
Qed.

(** ** The Cauchy kernel on bytes *)

Lemma land_byte z : is_u8 (Z.land z 255).
Proof.
  change 255 with (Z.ones 8). rewrite Z.land_ones by lia.
  pose proof (Z.mod_pos_bound z (2 ^ 8)). unfold is_u8, u8_max. lia.
Qed.

Definition to_gf (z : Z) : gf := of_byte (Z.land z 255) (land_byte z).

Lemma gv_to_gf z : is_u8 z -> gv (to_gf z) = z.
Proof.
  intros Hz. simpl. change 255 with (Z.ones 8). rewrite Z.land_ones by lia.
  apply Z.mod_small. unfold is_u8, u8_max in Hz. lia.
Qed.

Lemma to_gf_inj a b : is_u8 a -> is_u8 b -> to_gf a = to_gf b -> a = b.
Proof. intros Ha Hb H. rewrite <- (gv_to_gf a), <- (gv_to_gf b) by done. by rewrite H. Qed.

Lemma dot_cauchy x ys a :
  is_u8 x -> byte_list ys -> byte_list a -> (forall y, y ∈ ys -> x <> y) ->
  dot (map (fun y => inv_of (Z.lxor x y)) ys) a =
  gv (gsum (cauchy_terms (to_gf x) (map to_gf ys) (map to_gf a))).
Proof.
  intros Hx Hys. revert a. induction Hys as [|y ys Hy Hys IH]; intros a Ha Hne; [done|].
  destruct Ha as [|c a Hc Ha]; [done|]. simpl map. rewrite dot_cons, cauchy_terms_cons, IH by (set_solver).
  unfold gadd at 1. unfold gmul at 1. unfold of_byte. cbn [gv]. f_equal. rewrite gv_to_gf by done.
  rewrite mul_comm. f_equal. unfold ginv, gadd, of_byte. cbn [gv]. rewrite !gv_to_gf by done.
  destruct (Z.eqb_spec (Z.lxor x y) 0) as [Hz|]; [|done]. apply Z.lxor_eq in Hz.
  by destruct (Hne y ltac:(set_solver)).
Qed.

Lemma NoDup_to_gf l : byte_list l -> NoDup l -> NoDup (map to_gf l).
Proof.
  intros Hb Hn. induction Hn as [|x l Hx Hn IH]; simpl; [constructor|].
  apply Forall_cons in Hb as [Hbx Hb]. constructor; [|by apply IH].
  intros (y & Heq & Hy)%list_elem_of_fmap. apply Hx. rewrite Forall_forall in Hb.
  apply to_gf_inj in Heq; [by rewrite Heq|done|by apply Hb].
Qed.

(** Bytes [a] with [sum a_j / (x + y_j) = 0] for as many nodes [x] as there are
    [y] are all zero. *)
Lemma cauchy_kernel_bytes xs ys a :
  byte_list xs -> byte_list ys -> byte_list a -> NoDup xs -> NoDup ys ->
  (forall x y, x ∈ xs -> y ∈ ys -> x <> y) -> length a = length ys -> (length ys <= length xs)%nat ->
  (forall x, x ∈ xs -> dot (map (fun y => inv_of (Z.lxor x y)) ys) a = 0) -> Forall (eq 0) a.
Proof.
  intros Hbx Hby Hba Hxs Hys Hne Hla Hlx Hd.
  assert (Forall (eq g0) (map to_gf a)) as H.
  { apply (cauchy_kernel (map to_gf xs) (map to_gf ys)); rewrite ?length_map; try done;
      try by apply NoDup_to_gf.
    - intros x' y' (x & -> & Hx)%list_elem_of_fmap (y & -> & Hy)%list_elem_of_fmap Heq.
      apply (Hne x y Hx Hy), to_gf_inj; [by apply (byte_list_elem xs)|by apply (byte_list_elem ys)|done].
    - intros x' (x & -> & Hx)%list_elem_of_fmap. apply gf_eq. rewrite <- dot_cauchy; try done.
      + by apply Hd.
      + by apply (byte_list_elem xs).
      + intros y Hy. by apply Hne. }
  rewrite Forall_map in H. apply Forall_forall. intros z Hz.
  rewrite Forall_forall in H. specialize (H z Hz). simpl in H. rewrite <- (gv_to_gf z), <- H; [done|].
  by apply (byte_list_elem a).
Qed.
