(* ===== verification/Fec.v ===== *)
(** * The erasure code: systematic Cauchy Reed-Solomon (vot-fec, lib.rs)

    [encode] makes the repair symbols of a generation from the rows of the
    Cauchy generator; [decode] solves for the missing source symbols by
    Gauss-Jordan elimination.  Counts and symbol identifiers are [Z]; a panic
    ([expect], a failed assertion) is [None], so that "never panics" is a
    theorem and not an assumption.  The kernel of [Gf] runs on any vector unit.

    The theorems show that decoding returns the source from any [k] symbols of
    a generation, and that it never panics on any input. *)

From S2P Require Import Prelude Gf FecLinear.

Definition MAX_SOURCE_SYMBOLS : Z := 64.
Definition MAX_REPAIR_SYMBOLS : Z := 16.
Definition MAX_SYMBOL_LENGTH : Z := 65535.
Definition MAX_SYMBOLS : Z := MAX_SOURCE_SYMBOLS + MAX_REPAIR_SYMBOLS.

Inductive Error := InvalidGeometry | InvalidSymbol | InsufficientSymbols.

Record Geometry := mkGeometry { source_count : Z; repair_count : Z; symbol_length : Z }.

#[export] Instance Geometry_eq_dec : EqDecision Geometry.
Proof. solve_decision. Defined.

(** [Geometry::new]. *)
Definition geometry_new (k r l : Z) : result Geometry Error :=
  if (k =? 0) || (MAX_SOURCE_SYMBOLS <? k) || (MAX_REPAIR_SYMBOLS <? r) ||
     (l =? 0) || (MAX_SYMBOL_LENGTH <? l)
  then Err InvalidGeometry else Ok (mkGeometry k r l).

Definition symbol_count (g : Geometry) : Z := source_count g + repair_count g.

(** Row [repair_index] of the generator. *)
Definition generator_row (g : Geometry) (repair_index : Z) : option (list Z) :=
  let x := source_count g + repair_index in
  mapM (fun j => if Z.lxor x j <=? 255 then inv (Z.lxor x j) else None) (seqZ 0 (source_count g)).

Definition check_symbol (g : Geometry) (symbol : list Z) : result unit Error :=
  if zlen symbol =? symbol_length g then Ok tt else Err InvalidSymbol.

Section code.
Context `{V : VectorUnit}.

(** [for (coefficient, symbol) in row.iter().zip(source)]. *)
Fixpoint accumulate (out row : list Z) (source : list (list Z)) : list Z :=
  match row, source with
  | c :: row', s :: source' => accumulate (mul_add out c s) row' source'
  | _, _ => out
  end.

Definition encode (g : Geometry) (source : list (list Z)) : option (result (list (list Z)) Error) :=
  if negb (zlen source =? source_count g) then Some (Err InvalidSymbol) else
  if negb (forallb (fun s => zlen s =? symbol_length g) source) then Some (Err InvalidSymbol) else
  repair ← mapM (fun i =>
    row ← generator_row g i;
    Some (accumulate (replicate (Z.to_nat (symbol_length g)) 0) row source)) (seqZ 0 (repair_count g));
  Some (Ok repair).

(** One elimination step on column [col]; [None] when no pivot exists. *)
Definition gauss_step (k : nat) (rows : list (list Z)) (col : nat) : option (list (list Z)) :=
  let entry r := nth col (nth r rows []) 0 in
  pivot ← find (fun r => negb (entry r =? 0)) (seq col (k - col));
  let rows := <[col := nth pivot rows []]> (<[pivot := nth col rows []]> rows) in
  i ← inv (nth col (nth col rows []) 0);
  let pivot_row := map (mul i) (nth col rows []) in
  let eliminate row := mul_add row (nth col row 0) pivot_row in
  Some (map eliminate (take col rows) ++ pivot_row :: map eliminate (drop (S col) rows)).

Definition gauss_loop (k : nat) (cols : list nat) (rows : list (list Z)) : option (list (list Z)) :=
  foldl (fun acc col => rows ← acc; gauss_step k rows col) (Some rows) cols.

Definition gauss_jordan (rows : list (list Z)) (k : nat) : option (list (list Z)) :=
  gauss_loop k (seq 0 k) rows.

(** [symbols[esi]], a table of [MAX_SYMBOLS] entries. *)
Definition slot (symbols : list (option (list Z))) (esi : Z) : option (list Z) :=
  nth (Z.to_nat esi) symbols None.

Definition present (symbols : list (option (list Z))) (esi : Z) : bool :=
  match slot symbols esi with Some _ => true | None => false end.

(** The loop that files the received symbols. *)
Fixpoint file_symbols (g : Geometry) (received : list (Z * list Z))
    (symbols : list (option (list Z))) : result (list (option (list Z))) Error :=
  match received with
  | [] => Ok symbols
  | (esi, symbol) :: rest =>
      if (symbol_count g <=? esi) || present symbols esi then Err InvalidSymbol else
      let? _ := check_symbol g symbol in
      file_symbols g rest (<[Z.to_nat esi := Some symbol]> symbols)
  end.

(** One row of the reduced system: a coefficient per missing source, then the
    repair symbol with the known sources moved over to it. *)
Definition build_row (g : Geometry) (symbols : list (option (list Z))) (missing : list Z) (esi : Z) :
    option (list Z) :=
  let k := source_count g in
  coefficients ← generator_row g (esi - k);
  right ← slot symbols esi;
  right ← foldl (fun acc source_esi =>
    out ← acc; s ← slot symbols source_esi;
    Some (mul_add out (nth (Z.to_nat source_esi) coefficients 0) s)) (Some right)
    (List.filter (present symbols) (seqZ 0 k));
  Some (map (fun source_esi => nth (Z.to_nat source_esi) coefficients 0) missing ++ right).

Definition solve_missing (g : Geometry) (received : list (Z * list Z)) :
    option (result (list (option (list Z)) * list (Z * list Z)) Error) :=
  let k := source_count g in
  match file_symbols g received (replicate (Z.to_nat MAX_SYMBOLS) None) with
  | Err e => Some (Err e)
  | Ok symbols =>
      if zlen received <? k then Some (Err InsufficientSymbols) else
      let missing := List.filter (fun esi => negb (present symbols esi)) (seqZ 0 k) in
      let m := length missing in
      if (m =? 0)%nat then Some (Ok (symbols, [])) else
      rows ← mapM (build_row g symbols missing)
        (take m (List.filter (present symbols) (seqZ k (repair_count g))));
      rows ← gauss_jordan rows m;
      Some (Ok (symbols, zip missing
        (map (fun row => take (Z.to_nat (symbol_length g)) (drop m row)) rows)))
  end.

(** The closing [map] of [decode]: each absent symbol takes the next recovered
    one; [None] when there is none left. *)
Fixpoint assemble (symbols : list (option (list Z))) (esis : list Z) (recovered : list (Z * list Z)) :
    option (list (list Z)) :=
  match esis with
  | [] => Some []
  | esi :: rest =>
      match slot symbols esi with
      | Some s => tail ← assemble symbols rest recovered; Some (s :: tail)
      | None =>
          match recovered with
          | [] => None
          | (_, s) :: recovered' => tail ← assemble symbols rest recovered'; Some (s :: tail)
          end
      end
  end.

Definition decode (g : Geometry) (received : list (Z * list Z)) : option (result (list (list Z)) Error) :=
  solution ← solve_missing g received;
  match solution with
  | Err e => Some (Err e)
  | Ok (symbols, recovered) =>
      source ← assemble symbols (seqZ 0 (source_count g)) recovered;
      Some (Ok source)
  end.

Definition recover_missing (g : Geometry) (received : list (Z * list Z)) :
    option (result (list (Z * list Z)) Error) :=
  solution ← solve_missing g received;
  Some (match solution with Err e => Err e | Ok (_, recovered) => Ok recovered end).
End code.

(** ** Vectors and reduced matrices *)

Definition unit_vec (n i : nat) : list Z := replicate i 0 ++ 1 :: replicate (n - i - 1) 0.

Lemma length_unit_vec n i : (i < n)%nat -> length (unit_vec n i) = n.
Proof. intros H. unfold unit_vec. rewrite length_app. simpl. rewrite !length_replicate. lia. Qed.

Lemma unit_vec_S n i : (i < n)%nat -> unit_vec (S n) i = unit_vec n i ++ [0].
Proof.
  intros H. unfold unit_vec. replace (S n - i - 1)%nat with (S (n - i - 1)) by lia.
  by rewrite <- app_assoc, replicate_S_end.
Qed.

Lemma unit_vec_last n : unit_vec (S n) n = replicate n 0 ++ [1].
Proof. unfold unit_vec. by replace (S n - n - 1)%nat with O by lia. Qed.

Lemma byte_list_replicate n z : is_u8 z -> byte_list (replicate n z).
Proof. intros Hz. by apply Forall_replicate. Qed.

Lemma byte_list_unit n i : byte_list (unit_vec n i).
Proof.
  unfold unit_vec. apply Forall_app. split; [by apply byte_list_replicate, is_u8_0|].
  constructor; [apply is_u8_1|by apply byte_list_replicate, is_u8_0].
Qed.

Lemma dot_zero_l n b : dot (replicate n 0) b = 0.
Proof.
  revert b. induction n as [|n IH]; intros [|y b]; try done. simpl replicate.
  by rewrite dot_cons, IH, mul_0_l.
Qed.

Lemma list_split_at {A} (l : list A) i d :
  (i < length l)%nat -> l = take i l ++ nth i l d :: drop (S i) l.
Proof.
  intros Hi. rewrite nth_lookup. destruct (l !! i) as [x|] eqn:Hx; [|apply lookup_ge_None in Hx; lia].
  simpl. by rewrite take_drop_middle.
Qed.

Lemma dot_unit_l n i y : byte_list y -> length y = n -> (i < n)%nat -> dot (unit_vec n i) y = nth i y 0.
Proof.
  intros Hb Hl Hi. rewrite (list_split_at y i 0) at 1 by lia. unfold unit_vec.
  rewrite dot_app by (rewrite length_replicate, length_take; lia).
  rewrite dot_zero_l, dot_cons, dot_zero_l, Z.lxor_0_r, Z.lxor_0_l. apply mul_1_l.
  rewrite nth_lookup. destruct (y !! i) eqn:E; simpl; [|apply is_u8_0].
  apply (byte_list_elem y); [done|by eapply list_elem_of_lookup_2].
Qed.

Lemma dot_comm a b : dot a b = dot b a.
Proof.
  revert b. induction a as [|x a IH]; intros [|y b]; try done. by rewrite !dot_cons, IH, mul_comm.
Qed.

Definition annihilates (rows : list (list Z)) (v : list Z) : Prop := Forall (fun r => dot r v = 0) rows.

Definition rows_wf (w : nat) (rows : list (list Z)) : Prop :=
  Forall (fun r => length r = w /\ byte_list r) rows.

(** The first [col] columns are those of the identity. *)
Definition reduced (col : nat) (rows : list (list Z)) : Prop := exists top bottom,
  rows = top ++ bottom /\ length top = col /\
  (forall i r, top !! i = Some r -> take col r = unit_vec col i) /\
  Forall (fun r => take col r = replicate col 0) bottom.

(** No nonzero combination of the first [m] columns vanishes on all rows. *)
Definition trivial_kernel (m w : nat) (rows : list (list Z)) : Prop :=
  forall y, byte_list y -> length y = m -> annihilates rows (y ++ replicate (w - m) 0) -> Forall (eq 0) y.

Lemma swap_rows {A} (d : A) (top : list A) bottom j :
  (j < length bottom)%nat ->
  let rows := top ++ bottom in
  let col := length top in
  exists y rest,
    <[col := nth (col + j) rows d]> (<[(col + j)%nat := nth col rows d]> rows) = top ++ y :: rest /\
    nth (col + j) rows d = y /\ bottom ≡ₚ y :: rest.
Proof.
  intros Hj rows col. destruct bottom as [|x bottom]; [simpl in Hj; lia|].
  assert (nth col rows d = x) as Hx.
  { unfold rows, col. rewrite nth_lookup, lookup_app_r by lia. by rewrite Nat.sub_diag. }
  destruct j as [|j].
  - rewrite Nat.add_0_r, Hx. exists x, bottom. unfold rows, col. rewrite !list_insert_middle. done.
  - simpl in Hj. pose proof (list_split_at bottom j d ltac:(lia)) as Hsp.
    set (y := nth j bottom d) in *. set (b1 := take j bottom) in *. set (b2 := drop (S j) bottom) in *.
    assert (length b1 = j) as Hb1 by (unfold b1; rewrite length_take; lia).
    assert (rows = (top ++ x :: b1) ++ y :: b2) as Hrows.
    { unfold rows. rewrite Hsp at 1. by rewrite <- app_assoc. }
    assert ((col + S j)%nat = length (top ++ x :: b1)) as Hi
      by (rewrite length_app; simpl; unfold col; lia).
    assert (nth (col + S j) rows d = y) as Hy.
    { rewrite Hrows, Hi, nth_lookup, list_lookup_middle by done. done. }
    exists y, (b1 ++ x :: b2). rewrite Hy, Hx. split_and!; [|done|].
    + rewrite Hrows, Hi, list_insert_middle, <- app_assoc. simpl. unfold col.
      by rewrite list_insert_middle.
    + rewrite Hsp at 1. rewrite <- !Permutation_middle. apply Permutation_swap.
Qed.

Lemma zip_update_take {A B} (f : A -> B -> A) n out s :
  take n (zip_update f out s) = zip_update f (take n out) (take n s).
Proof.
  revert out s. induction n as [|n IH]; intros [|o out] [|x s]; simpl; try done. by rewrite IH.
Qed.

Lemma nth_byte l i : byte_list l -> is_u8 (nth i l 0).
Proof.
  intros Hb. rewrite nth_lookup. destruct (l !! i) eqn:E; simpl; [|apply is_u8_0].
  apply (byte_list_elem l); [done|by eapply list_elem_of_lookup_2].
Qed.
#[export] Hint Resolve nth_byte : gf.

Lemma byte_list_mul_add o c p :
  is_u8 c -> byte_list o -> byte_list p -> byte_list (mul_add_spec o c p).
Proof.
  intros Hc Ho. revert p. induction Ho as [|x o Hx Ho IH]; intros p Hp; [constructor|].
  destruct Hp as [|y p Hy Hp]; simpl; [by constructor|].
  constructor; [apply lxor_byte; [done|by apply mul_byte]|by apply IH].
Qed.

Lemma take_S_nth (l : list Z) n : (n < length l)%nat -> take (S n) l = take n l ++ [nth n l 0].
Proof.
  intros Hn. rewrite nth_lookup. destruct (l !! n) as [x|] eqn:E; [|apply lookup_ge_None in E; lia].
  simpl. by apply take_S_r.
Qed.

(** Eliminating a column clears it and keeps the columns before it. *)
Lemma eliminate_columns col row pr :
  (col < length row)%nat -> length row = length pr -> byte_list row ->
  take (S col) pr = replicate col 0 ++ [1] ->
  take (S col) (mul_add_spec row (nth col row 0) pr) = take col row ++ [0].
Proof.
  intros Hc Hl Hb Hpr. unfold mul_add_spec. rewrite zip_update_take, Hpr, take_S_nth by done.
  rewrite zip_update_app by (rewrite length_take, length_replicate; lia). simpl.
  rewrite (mul_comm _ 1), mul_1_l, Z.lxor_nilpotent by auto with gf. f_equal.
  generalize (take col row). intros l. generalize (nth col row 0) as c. intros c. clear.
  revert col. induction l as [|x l IH]; intros [|n]; simpl; try done.
  by rewrite mul_0_r, Z.lxor_0_r, IH.
Qed.

(** All rows with the pivot row eliminated from them. *)
Definition eliminated (col : nat) (pr : list Z) (rows : list (list Z)) : list (list Z) :=
  map (fun r => mul_add_spec r (nth col r 0) pr) rows.

Lemma eliminated_wf w col pr rows :
  length pr = w -> byte_list pr -> rows_wf w rows -> rows_wf w (eliminated col pr rows).
Proof.
  intros Hl Hb Hwf. apply Forall_map, (Forall_impl _ _ _ Hwf). intros r [Hr Hrb].
  split; [unfold mul_add_spec; by rewrite length_zip_update|].
  apply byte_list_mul_add; auto with gf.
Qed.

Lemma eliminated_annihilates w col pr rows v :
  length pr = w -> byte_list pr -> rows_wf w rows -> byte_list v -> dot pr v = 0 ->
  annihilates (eliminated col pr rows) v <-> annihilates rows v.
Proof.
  intros Hl Hb Hwf Hv H0. unfold annihilates, eliminated. rewrite Forall_map.
  rewrite !Forall_forall. unfold rows_wf in Hwf. rewrite Forall_forall in Hwf.
  split; intros H r Hr; specialize (H r Hr); destruct (Hwf r Hr) as [Hrl Hrb]; cbv beta in *.
  - rewrite dot_mul_add, H0, mul_0_r, Z.lxor_0_r in H; auto with gf. lia.
  - rewrite dot_mul_add, H0, mul_0_r, Z.lxor_0_r; auto with gf. lia.
Qed.

Section gauss.
Context (m w : nat) (Hmw : (m <= w)%nat).

Lemma pivot_exists rows col :
  rows_wf w rows -> length rows = m -> (col < m)%nat -> reduced col rows -> trivial_kernel m w rows ->
  exists j, find (fun r => negb (nth col (nth r rows []) 0 =? 0)) (seq col (m - col)) = Some (col + j)%nat /\
    (col + j < m)%nat /\ nth col (nth (col + j) rows []) 0 <> 0.
Proof using Hmw.
  intros Hwf Hlen Hcol (top & bottom & -> & Htop & Hunit & Hzero) Hker.
  destruct (find _ _) as [pivot|] eqn:Hf.
  { apply find_some in Hf as [Hin%in_seq Hne%negb_true_iff%Z.eqb_neq].
    exists (pivot - col)%nat. replace (col + (pivot - col))%nat with pivot by lia. split_and!; [done|lia|done]. }
  exfalso. rewrite length_app in Hlen.
  assert (forall r, r ∈ bottom -> nth col r 0 = 0) as Hcol0.
  { intros r (i & Hi)%list_elem_of_lookup_1. pose proof (lookup_lt_Some _ _ _ Hi).
    pose proof (find_none _ _ Hf (col + i)%nat) as Hn. specialize (Hn ltac:(apply in_seq; lia)).
    apply negb_false_iff, Z.eqb_eq in Hn. etransitivity; [|exact Hn]. f_equal.
    rewrite nth_lookup, lookup_app_r by lia.
    replace (col + i - length top)%nat with i by lia. by rewrite Hi. }
  unfold rows_wf in Hwf. rewrite Forall_forall in Hwf.
  set (ya := map (fun a => nth col a 0) top).
  set (y := ya ++ 1 :: replicate (m - col - 1) 0).
  assert (length ya = col) as Hya by (unfold ya; rewrite length_map; lia).
  assert (byte_list ya) as Hyab.
  { apply Forall_map, Forall_forall. intros r Hr. simpl.
    destruct (Hwf r ltac:(set_solver)) as [_ ?]. by apply nth_byte. }
  assert (byte_list y) as Hyb.
  { apply Forall_app. split; [done|]. constructor; [apply is_u8_1|]. by apply byte_list_replicate, is_u8_0. }
  assert (forall r, length r = w -> byte_list r -> dot r (y ++ replicate (w - m) 0) =
    Z.lxor (dot (take col r) ya) (nth col r 0)) as Hdot.
  { intros r Hr Hrb. rewrite (list_split_at r col 0) at 1 by lia. unfold y. rewrite <- app_assoc.
    rewrite dot_app by (rewrite length_take; lia). simpl app. rewrite dot_cons, <- replicate_add, dot_zero_r.
    by rewrite Z.lxor_0_r, mul_comm, mul_1_l by auto with gf. }
  assert (Forall (eq 0) y) as Hz.
  { apply Hker; [done|unfold y; rewrite length_app; simpl; rewrite length_replicate; lia|].
    apply Forall_forall. intros r Hr. destruct (Hwf r Hr) as [Hrl Hrb]. rewrite Hdot by done.
    apply elem_of_app in Hr as [(i & Hi)%list_elem_of_lookup_1|Hr].
    - pose proof (lookup_lt_Some _ _ _ Hi). rewrite (Hunit _ _ Hi), dot_unit_l by (done || lia).
      unfold ya. rewrite nth_lookup. change (map (fun a => nth col a 0) top) with ((fun a => nth col a 0) <$> top).
      rewrite list_lookup_fmap, Hi. simpl. apply Z.lxor_nilpotent.
    - rewrite Forall_forall in Hzero. by rewrite Hzero, dot_zero_l, Hcol0. }
  apply Forall_app in Hz as [_ Hz]. by apply Forall_cons in Hz as [? _].
Qed.

Context `{VOk : VectorUnitOk}.

Lemma mul_inv_cancel i x v : is_u8 i -> is_u8 x -> is_u8 v -> mul x i = 1 -> mul i v = 0 <-> v = 0.
Proof using.
  intros Hi Hx Hv H. split; [|by intros ->; rewrite mul_0_r].
  intros Hz. rewrite <- (mul_1_l v), <- H, <- mul_assoc, Hz by done. apply mul_0_r.
Qed.

(** What one step does, in terms of the split around the pivot. *)
Lemma gauss_step_shape rows col :
  rows_wf w rows -> length rows = m -> (col < m)%nat -> reduced col rows -> trivial_kernel m w rows ->
  exists top bottom y rest i, rows = top ++ bottom /\ length top = col /\
    (forall j r, top !! j = Some r -> take col r = unit_vec col j) /\ bottom ≡ₚ y :: rest /\
    Forall (fun r => take col r = replicate col 0) (y :: rest) /\
    is_u8 i /\ mul (nth col y 0) i = 1 /\
    gauss_step m rows col = Some (eliminated col (map (mul i) y) top ++ map (mul i) y ::
      eliminated col (map (mul i) y) rest).
Proof using Hmw VOk.
  intros Hwf Hlen Hcol Hred Hker.
  destruct (pivot_exists rows col Hwf Hlen Hcol Hred Hker) as (j & Hfind & Hj & Hne).
  destruct Hred as (top & bottom & -> & Htop & Hunit & Hzero).
  pose proof (swap_rows [] top bottom j ltac:(rewrite length_app in Hlen; lia)) as Hswap.
  cbv zeta in Hswap. rewrite Htop in Hswap. destruct Hswap as (y & rest & Hsw & Hy & Hperm).
  unfold gauss_step. rewrite Hfind. simpl mbind. rewrite Hsw.
  assert (nth col (top ++ y :: rest) [] = y) as ->.
  { rewrite nth_lookup, <- Htop, list_lookup_middle by done. done. }
  rewrite Hy in Hne. unfold rows_wf in Hwf. apply Forall_app in Hwf as [Hwt Hwb].
  rewrite Hperm in Hwb, Hzero. pose proof Hwb as [[Hyl Hyb] Hwr]%Forall_cons.
  unfold inv. destruct (Z.eqb_spec (nth col y 0) 0); [done|]. simpl mbind.
  destruct (inv_facts (nth col y 0)) as [Hib Hi1]; [auto with gf|done|].
  exists top, bottom, y, rest, (inv_of (nth col y 0)). split_and!; try done.
  set (pr := map (mul (inv_of (nth col y 0))) y).
  assert (take col (top ++ y :: rest) = top) as -> by (rewrite <- Htop; apply take_app_length).
  assert (drop (S col) (top ++ y :: rest) = rest) as ->.
  { rewrite cons_middle, app_assoc. apply drop_app_length'. rewrite length_app. simpl. lia. }
  assert (byte_list pr) as Hprb.
  { apply Forall_map, (Forall_impl _ _ _ Hyb). intros x Hx. by apply mul_byte. }
  assert (forall l, rows_wf w l -> map (fun row => mul_add row (nth col row 0) pr) l = eliminated col pr l) as Hma.
  { intros l Hl. apply map_ext_Forall, (Forall_impl _ _ _ Hl). intros r [Hr Hrb].
    apply mul_add_correct; [auto with gf|done|]. unfold pr. rewrite length_map. lia. }
  by rewrite !Hma.
Qed.

Lemma gauss_step_spec rows col :
  rows_wf w rows -> length rows = m -> (col < m)%nat -> reduced col rows -> trivial_kernel m w rows ->
  exists rows', gauss_step m rows col = Some rows' /\ rows_wf w rows' /\ length rows' = m /\
    reduced (S col) rows' /\
    forall v, byte_list v -> annihilates rows' v <-> annihilates rows v.
Proof using Hmw VOk.
  intros Hwf Hlen Hcol Hred Hker.
  destruct (gauss_step_shape rows col Hwf Hlen Hcol Hred Hker)
    as (top & bottom & y & rest & i & -> & Htop & Hunit & Hperm & Hzero & Hi & Hyi & ->).
  set (pr := map (mul i) y). eexists. split; [reflexivity|].
  unfold rows_wf in Hwf. apply Forall_app in Hwf as [Hwt Hwb].
  rewrite Hperm in Hwb. apply Forall_cons in Hwb as [[Hyl Hyb] Hwr]. apply Forall_cons in Hzero as [Hy0 Hzr].
  assert (byte_list pr) as Hprb.
  { apply Forall_map, (Forall_impl _ _ _ Hyb). intros x Hx. by apply mul_byte. }
  assert (length pr = w) as Hprl by (unfold pr; by rewrite length_map).
  assert (take (S col) pr = replicate col 0 ++ [1]) as Hpr.
  { unfold pr. change (map (mul i) y) with (mul i <$> y).
    rewrite <- fmap_take, take_S_nth, Hy0, fmap_app, fmap_replicate, mul_0_r by lia.
    simpl. by rewrite mul_comm, Hyi. }
  assert (forall r, length r = w -> byte_list r ->
    take (S col) (mul_add_spec r (nth col r 0) pr) = take col r ++ [0]) as Hel
    by (intros; apply eliminate_columns; try done; lia).
  split_and!.
  - apply Forall_app. split; [by apply eliminated_wf|]. constructor; [done|by apply eliminated_wf].
  - rewrite length_app in *. simpl. unfold eliminated. rewrite !length_map.
    apply Permutation_length in Hperm. simpl in Hperm. lia.
  - exists (eliminated col pr top ++ [pr]), (eliminated col pr rest). split_and!.
    + by rewrite <- app_assoc.
    + rewrite length_app. unfold eliminated. rewrite length_map. simpl. lia.
    + intros j r [Hr|[Hge Hr]]%lookup_app_Some.
      * unfold eliminated in Hr. change (map ?f top) with (f <$> top) in Hr.
        apply list_lookup_fmap_Some in Hr as (a & -> & Ha). pose proof (lookup_lt_Some _ _ _ Ha).
        rewrite Forall_forall in Hwt. destruct (Hwt a) as [Hal Hab]; [by eapply list_elem_of_lookup_2|].
        rewrite Hel, (Hunit _ _ Ha), unit_vec_S by (done || lia). done.
      * unfold eliminated in *. rewrite length_map in *. apply list_lookup_singleton_Some in Hr as [Hj <-].
        replace j with col by lia. by rewrite Hpr, unit_vec_last.
    + apply Forall_map, Forall_forall. intros r Hr. rewrite Forall_forall in Hwr, Hzr.
      destruct (Hwr r Hr) as [Hrl Hrb]. rewrite Hel, Hzr by done. by rewrite <- replicate_S_end.
  - intros v Hv. assert (dot pr v = 0 <-> dot y v = 0) as Hpv.
    { unfold pr. rewrite dot_scale by done. apply (mul_inv_cancel i (nth col y 0)); auto using dot_byte with gf. }
    unfold annihilates in *. rewrite !Forall_app, Hperm, !Forall_cons, Hpv.
    pose proof (fun H => eliminated_annihilates w col pr top v Hprl Hprb Hwt Hv (proj2 Hpv H)) as E1.
    pose proof (fun H => eliminated_annihilates w col pr rest v Hprl Hprb Hwr Hv (proj2 Hpv H)) as E2.
    unfold annihilates in E1, E2. tauto.
Qed.

Lemma gauss_loop_spec n rows col :
  (col + n = m)%nat ->
  rows_wf w rows -> length rows = m -> reduced col rows -> trivial_kernel m w rows ->
  exists rows', gauss_loop m (seq col n) rows = Some rows' /\ rows_wf w rows' /\ length rows' = m /\
    reduced m rows' /\ forall v, byte_list v -> annihilates rows' v <-> annihilates rows v.
Proof using Hmw VOk.
  revert rows col. induction n as [|n IH]; intros rows col Hn Hwf Hlen Hred Hker.
  - exists rows. replace m with col by lia. split_and!; try done. lia.
  - destruct (gauss_step_spec rows col) as (r1 & H1 & Hwf1 & Hlen1 & Hred1 & Hann1); try done; [lia|].
    destruct (IH r1 (S col)) as (r2 & H2 & Hwf2 & Hlen2 & Hred2 & Hann2); try done; [lia| |].
    + intros y Hy Hyl Ha. apply (Hker y Hy Hyl), Hann1; [|done].
      apply Forall_app. split; [done|by apply byte_list_replicate, is_u8_0].
    + exists r2. split_and!; try done.
      * unfold gauss_loop. cbn [seq foldl mbind option_bind]. by rewrite H1.
      * intros v Hv. by rewrite Hann2, Hann1.
Qed.

(** Elimination succeeds on a matrix with a trivial kernel, leaves the identity
    on the left and changes no linear relation between the columns. *)
Lemma gauss_jordan_spec rows :
  rows_wf w rows -> length rows = m -> trivial_kernel m w rows ->
  exists rows', gauss_jordan rows m = Some rows' /\ rows_wf w rows' /\ length rows' = m /\
    (forall i r, rows' !! i = Some r -> take m r = unit_vec m i) /\
    forall v, byte_list v -> annihilates rows' v <-> annihilates rows v.
Proof using Hmw VOk.
  intros Hwf Hlen Hker. destruct (gauss_loop_spec m rows 0) as (r' & H & Hwf' & Hlen' & Hred & Hann); try done.
  - exists [], rows. split_and!; try done. apply Forall_forall. intros r _. by rewrite take_0.
  - exists r'. split_and!; try done. destruct Hred as (top & bottom & -> & Htop & Hunit & _).
    rewrite length_app in Hlen'. destruct bottom; [|simpl in Hlen'; lia]. by rewrite app_nil_r.
Qed.
End gauss.

(** ** Valid geometries and generator rows *)

Definition geometry_valid (g : Geometry) : Prop :=
  0 < source_count g <= MAX_SOURCE_SYMBOLS /\ 0 <= repair_count g <= MAX_REPAIR_SYMBOLS /\
  0 < symbol_length g <= MAX_SYMBOL_LENGTH.

Lemma geometry_new_valid k r l g :
  0 <= k -> 0 <= r -> 0 <= l -> geometry_new k r l = Ok g -> geometry_valid g /\ g = mkGeometry k r l.
Proof.
  intros Hk Hr Hl. unfold geometry_new, geometry_valid.
  destruct (Z.eqb_spec k 0), (Z.ltb_spec MAX_SOURCE_SYMBOLS k), (Z.ltb_spec MAX_REPAIR_SYMBOLS r),
    (Z.eqb_spec l 0), (Z.ltb_spec MAX_SYMBOL_LENGTH l); simpl; try done.
  intros [= <-]. simpl. split; [lia|done].
Qed.

(** The coefficient of source [j] in the symbol [esi]. *)
Definition coefficient (esi j : Z) : Z := inv_of (Z.lxor esi j).

Lemma nth_mul_add o c s t :
  length o = length s -> nth t (mul_add_spec o c s) 0 = Z.lxor (nth t o 0) (mul c (nth t s 0)).
Proof.
  revert s t. induction o as [|x o IH]; intros [|y s] [|t] Hl; simpl in *; try lia;
    rewrite ?mul_0_r; try done. apply IH. lia.
Qed.

(** Sums over a list of sources, and their split by a predicate. *)
Definition xsum (f : Z -> Z) (l : list Z) : Z := foldr (fun s acc => Z.lxor (f s) acc) 0 l.

Lemma xsum_split f p l :
  xsum f l = Z.lxor (xsum f (List.filter p l)) (xsum f (List.filter (fun s => negb (p s)) l)).
Proof.
  induction l as [|s l IH]; simpl; [done|]. rewrite IH. destruct (p s); simpl.
  - by rewrite Z.lxor_assoc.
  - rewrite <- !Z.lxor_assoc. f_equal. apply Z.lxor_comm.
Qed.

Lemma dot_xsum f h l : dot (map f l) (map h l) = xsum (fun s => mul (f s) (h s)) l.
Proof. induction l as [|s l IH]; simpl; [done|]. by rewrite dot_cons, IH. Qed.

Lemma nth_replicate_0 i t : nth t (replicate i 0) 0 = 0.
Proof. revert t. induction i as [|i IH]; intros [|t]; simpl; auto. Qed.

Section geometry.
Context (g : Geometry) (Hg : geometry_valid g).
Let k := source_count g.
Let n := symbol_count g.

Lemma esi_byte e : 0 <= e < n -> is_u8 e.
Proof using Hg.
  unfold n, symbol_count. destruct Hg as (H1 & H2 & _).
  unfold is_u8, u8_max, MAX_SOURCE_SYMBOLS, MAX_REPAIR_SYMBOLS in *. lia.
Qed.

Lemma coefficient_byte e j : k <= e < n -> 0 <= j < k -> is_u8 (coefficient e j).
Proof using Hg.
  intros He Hj. destruct Hg as (H1 & H2 & _). unfold coefficient. apply inv_facts.
  - apply lxor_byte; apply esi_byte; unfold n, symbol_count, k in *; lia.
  - intros H%Z.lxor_eq. unfold k in *. lia.
Qed.

Lemma generator_row_spec e :
  k <= e < n -> generator_row g (e - k) = Some (map (coefficient e) (seqZ 0 k)).
Proof using Hg.
  intros He. unfold generator_row. fold k. replace (k + (e - k)) with e by lia.
  apply mapM_map. intros j Hj%elem_of_seqZ. destruct Hg as (H1 & H2 & _). fold k in H1.
  assert (is_u8 (Z.lxor e j)) as Hb
    by (apply lxor_byte; apply esi_byte; unfold n, symbol_count in *; lia).
  unfold is_u8, u8_max in Hb. destruct (Z.leb_spec (Z.lxor e j) 255); [|lia].
  unfold inv. destruct (Z.eqb_spec (Z.lxor e j) 0) as [Hz%Z.lxor_eq|]; [lia|done].
Qed.

Lemma coefficient_nth e j : 0 <= j < k -> nth (Z.to_nat j) (map (coefficient e) (seqZ 0 k)) 0 = coefficient e j.
Proof using. apply at_map_seqZ. Qed.

Definition symbol_valid (s : list Z) : Prop := zlen s = symbol_length g /\ byte_list s.

Lemma symbol_valid_length s s' : symbol_valid s -> symbol_valid s' -> length s = length s'.
Proof using. unfold symbol_valid, zlen. lia. Qed.

Lemma mul_add_valid o c s : is_u8 c -> symbol_valid o -> symbol_valid s -> symbol_valid (mul_add_spec o c s).
Proof using.
  intros Hc [Ho Hob] [Hs Hsb]. split; [|by apply byte_list_mul_add].
  unfold mul_add_spec, zlen. by rewrite length_zip_update.
Qed.

Context `{VOk : VectorUnitOk}.

Lemma accumulate_spec (c : Z -> Z) (src : Z -> list Z) l out :
  Forall (fun j => is_u8 (c j) /\ symbol_valid (src j)) l -> symbol_valid out ->
  symbol_valid (accumulate out (map c l) (map src l)) /\
  forall t, nth t (accumulate out (map c l) (map src l)) 0 =
    Z.lxor (nth t out 0) (xsum (fun j => mul (c j) (nth t (src j) 0)) l).
Proof using VOk.
  intros Hl. revert out. induction Hl as [|j l [Hc Hs] _ IH]; intros out Ho; simpl.
  - split; [done|]. intros t. by rewrite Z.lxor_0_r.
  - rewrite mul_add_correct by (done || apply Hs || by apply symbol_valid_length).
    destruct (IH (mul_add_spec out (c j) (src j))) as [H1 H2]; [by apply mul_add_valid|].
    split; [done|]. intros t. rewrite H2, nth_mul_add by (by apply symbol_valid_length).
    by rewrite Z.lxor_assoc.
Qed.

Lemma zero_symbol_valid : symbol_valid (replicate (Z.to_nat (symbol_length g)) 0).
Proof using Hg.
  split; [unfold zlen; rewrite length_replicate; destruct Hg as (_ & _ & ?); lia|].
  by apply byte_list_replicate, is_u8_0.
Qed.

(** The symbol [e] of the generation of [source]. *)
Definition source_at (source : list (list Z)) (j : Z) : list Z := nth (Z.to_nat j) source [].

Definition is_repair (source : list (list Z)) (e : Z) (s : list Z) : Prop :=
  symbol_valid s /\ forall t, nth t s 0 =
    xsum (fun j => mul (coefficient e j) (nth t (source_at source j) 0)) (seqZ 0 k).

Definition source_valid (source : list (list Z)) : Prop :=
  zlen source = k /\ Forall symbol_valid source.

Lemma source_map source : source_valid source -> source = map (source_at source) (seqZ 0 k).
Proof using.
  intros [Hl _]. unfold source_at. apply list_eq. intros i.
  change (map ?f (seqZ 0 k)) with (f <$> seqZ 0 k). rewrite list_lookup_fmap.
  destruct (seqZ 0 k !! i) as [j|] eqn:Hj.
  - apply lookup_seqZ in Hj as [-> Hi]. simpl. rewrite nth_lookup. replace (Z.to_nat (0 + Z.of_nat i)) with i by lia.
    destruct (source !! i) eqn:E; [done|]. apply lookup_ge_None in E. unfold zlen in Hl. lia.
  - apply lookup_ge_None in Hj. rewrite length_seqZ in Hj. apply lookup_ge_None. unfold zlen in Hl. lia.
Qed.

Lemma source_at_valid source j : source_valid source -> 0 <= j < k -> symbol_valid (source_at source j).
Proof using.
  intros [Hl Hv] Hj. rewrite Forall_forall in Hv. apply Hv. unfold source_at.
  rewrite nth_lookup. destruct (source !! Z.to_nat j) eqn:E; [by eapply list_elem_of_lookup_2|].
  apply lookup_ge_None in E. unfold zlen in Hl. lia.
Qed.

Lemma encode_spec source :
  source_valid source -> exists repair, encode g source = Some (Ok repair) /\
    zlen repair = repair_count g /\
    forall e, k <= e < n -> is_repair source e (nth (Z.to_nat (e - k)) repair []).
Proof using Hg VOk.
  intros Hs. unfold encode. fold k. destruct Hg as (H1 & H2 & H3). fold k in H1.
  rewrite (proj2 (Z.eqb_eq (zlen source) k)) by apply Hs. simpl.
  assert (forallb (fun s => zlen s =? symbol_length g) source = true) as ->.
  { apply forallb_forall. intros s Hin%list_elem_of_In. destruct Hs as [_ Hv]. rewrite Forall_forall in Hv.
    apply Z.eqb_eq. by apply Hv. }
  simpl. set (rep := fun i => accumulate (replicate (Z.to_nat (symbol_length g)) 0)
    (map (coefficient (i + k)) (seqZ 0 k)) source).
  rewrite (mapM_map _ rep).
  2: { intros i Hi%elem_of_seqZ. pose proof (generator_row_spec (i + k)) as Hr.
       replace (i + k - k) with i in Hr by lia. rewrite Hr; [done|]. unfold n, symbol_count. fold k. lia. }
  eexists. split; [reflexivity|]. split; [unfold zlen; rewrite length_map, length_seqZ; lia|].
  intros e He. unfold n, symbol_count in He. fold k in He.
  assert (nth (Z.to_nat (e - k)) (map rep (seqZ 0 (repair_count g))) [] = rep (e - k)) as ->.
  { rewrite nth_lookup. change (map rep (seqZ 0 (repair_count g))) with (rep <$> seqZ 0 (repair_count g)).
    rewrite list_lookup_fmap, (proj2 (lookup_seqZ 0 (repair_count g) (Z.to_nat (e - k)) (e - k))) by lia. done. }
  unfold rep. replace (e - k + k) with e by lia.
  destruct (accumulate_spec (coefficient e) (source_at source) (seqZ 0 k)
    (replicate (Z.to_nat (symbol_length g)) 0)) as [Ha Hb].
  - apply Forall_forall. intros j Hj%elem_of_seqZ. split.
    + apply coefficient_byte; unfold n, symbol_count; fold k; lia.
    + apply source_at_valid; [done|lia].
  - apply zero_symbol_valid.
  - rewrite <- (source_map source Hs) in Ha, Hb. split; [done|]. intros t.
    by rewrite Hb, nth_replicate_0, Z.lxor_0_l.
Qed.
End geometry.

(** ** Filing received symbols *)

Lemma slot_insert symbols e e' s :
  0 <= e -> 0 <= e' -> (Z.to_nat e < length symbols)%nat ->
  slot (<[Z.to_nat e := Some s]> symbols) e' = if e' =? e then Some s else slot symbols e'.
Proof.
  intros He He' Hl. unfold slot. rewrite !nth_lookup. destruct (Z.eqb_spec e' e) as [->|Hne].
  - by rewrite list_lookup_insert_eq.
  - rewrite list_lookup_insert_ne by lia. done.
Qed.

(** A received list the geometry accepts. *)
Definition received_valid (g : Geometry) (received : list (Z * list Z)) : Prop :=
  Forall (fun r => r.1 < symbol_count g /\ zlen r.2 = symbol_length g) received /\
  NoDup (map fst received).

Lemma file_symbols_spec g received symbols :
  geometry_valid g -> length symbols = Z.to_nat MAX_SYMBOLS -> Forall (fun r => 0 <= r.1) received ->
  match file_symbols g received symbols with
  | Ok table => received_valid g received /\
      (forall r, r ∈ received -> slot symbols r.1 = None) /\
      forall e s, 0 <= e -> slot table e = Some s <-> slot symbols e = Some s \/ (e, s) ∈ received
  | Err e => e = InvalidSymbol /\
      ~ (received_valid g received /\ forall r, r ∈ received -> slot symbols r.1 = None)
  end.
Proof.
  intros Hg. revert symbols. induction received as [|[esi symbol] rest IH]; intros symbols Hlen Hpos; simpl.
  { split; [split; constructor|]. set_solver. }
  apply Forall_cons in Hpos as [He Hpos]. simpl in He. unfold present.
  destruct (Z.leb_spec (symbol_count g) esi) as [Hbig|Hbig]; simpl.
  { split; [done|]. intros [[Hv _] _]. apply Forall_cons in Hv as [[Hv _] _]. simpl in Hv. lia. }
  destruct (slot symbols esi) as [x|] eqn:Hx.
  { split; [done|]. intros [_ Hn]. specialize (Hn (esi, symbol) ltac:(set_solver)). simpl in Hn. congruence. }
  unfold check_symbol. destruct (Z.eqb_spec (zlen symbol) (symbol_length g)) as [Hl|Hl]; simpl.
  2: { split; [done|]. intros [[Hv _] _]. apply Forall_cons in Hv as [[_ Hv] _]. simpl in Hv. lia. }
  assert (Z.to_nat esi < length symbols)%nat as Hlt.
  { destruct Hg as (H1 & H2 & _). rewrite Hlen. unfold symbol_count, MAX_SYMBOLS in *. lia. }
  specialize (IH (<[Z.to_nat esi := Some symbol]> symbols)).
  rewrite length_insert in IH. specialize (IH Hlen Hpos).
  rewrite Forall_forall in Hpos.
  assert ((forall r, r ∈ rest -> slot (<[Z.to_nat esi := Some symbol]> symbols) r.1 = None) <->
    ((esi ∉ map fst rest) /\ forall r, r ∈ rest -> slot symbols r.1 = None)) as Hiff.
  { split.
    - intros H. split.
      + intros (r & -> & Hr)%list_elem_of_fmap. specialize (H r Hr).
        rewrite slot_insert, Z.eqb_refl in H by (done || by apply Hpos). done.
      + intros r Hr. specialize (H r Hr). rewrite slot_insert in H by (done || by apply Hpos).
        destruct (r.1 =? esi); done.
    - intros [Hn H] r Hr. rewrite slot_insert by (done || by apply Hpos).
      destruct (Z.eqb_spec r.1 esi) as [<-|]; [|by apply H]. exfalso. apply Hn, list_elem_of_fmap. eauto. }
  destruct (file_symbols g rest _) as [table|e].
  - destruct IH as ([Hv Hnd] & Hfree & Hslot). apply Hiff in Hfree as [Hni Hfree]. split_and!.
    + split; [by constructor|]. simpl. by constructor.
    + intros r [->|Hr]%elem_of_cons; [done|by apply Hfree].
    + intros e s Hes. rewrite Hslot, slot_insert, elem_of_cons by done.
      destruct (Z.eqb_spec e esi) as [->|]; [|naive_solver]. rewrite Hx. naive_solver.
  - destruct IH as [-> IH]. split; [done|]. intros [[Hv Hnd] Hfree]. apply IH.
    apply Forall_cons in Hv as [_ Hv]. simpl in Hnd. apply NoDup_cons in Hnd as [Hni Hnd].
    split; [by split|]. apply Hiff. split; [done|]. intros r Hr. apply Hfree. set_solver.
Qed.

Lemma slot_empty n e : slot (replicate n None) e = None.
Proof. unfold slot. generalize (Z.to_nat e). induction n as [|n IH]; intros [|i]; simpl; auto. Qed.

Lemma filter_elem (p : Z -> bool) l x : x ∈ List.filter p l <-> x ∈ l /\ p x = true.
Proof. rewrite !list_elem_of_In. apply filter_In. Qed.

Lemma filter_NoDup (p : Z -> bool) l : NoDup l -> NoDup (List.filter p l).
Proof.
  induction 1 as [|x l Hx Hl IH]; simpl; [constructor|]. destruct (p x); [|done].
  constructor; [|done]. rewrite filter_elem. tauto.
Qed.

(** Everything the solver knows once the symbols are filed. *)
Record filed (g : Geometry) (received : list (Z * list Z)) (symbols : list (option (list Z))) : Prop := {
  fi_slot : forall e s, 0 <= e -> slot symbols e = Some s <-> (e, s) ∈ received;
  fi_valid : Forall (fun r => 0 <= r.1 < symbol_count g /\ symbol_valid g r.2) received;
  fi_nodup : NoDup (map fst received) }.

Section solve.
Context (g : Geometry) (Hg : geometry_valid g).
Context (received : list (Z * list Z)) (symbols : list (option (list Z))) (Hf : filed g received symbols).
Let k := source_count g.
Let missing := List.filter (fun e => negb (present symbols e)) (seqZ 0 k).
Let m := length missing.
Let chosen := take m (List.filter (present symbols) (seqZ k (repair_count g))).

Lemma present_slot e : 0 <= e -> present symbols e = true -> exists s, slot symbols e = Some s /\
  (e, s) ∈ received /\ symbol_valid g s.
Proof using Hf.
  unfold present. intros He. destruct (slot symbols e) as [s|] eqn:Hs; [|done]. intros _.
  exists s. apply (fi_slot _ _ _ Hf) in Hs; [|done]. split_and!; try done.
  pose proof (fi_valid _ _ _ Hf) as Hv. rewrite Forall_forall in Hv. apply (Hv (e, s) Hs).
Qed.

Lemma elem_of_missing e : e ∈ missing <-> 0 <= e < k /\ slot symbols e = None.
Proof using.
  unfold missing. rewrite filter_elem, elem_of_seqZ. unfold present.
  destruct (slot symbols e); split; intros [? ?]; split; try done; lia.
Qed.

(** With [k] symbols at hand there is a repair symbol for each missing source. *)
Lemma chosen_length : k <= zlen received -> length chosen = m.
Proof using Hg Hf.
  intros Hlen. destruct Hg as (H1 & H2 & _). fold k in H1. unfold chosen. rewrite length_take.
  assert (map fst received ≡ₚ List.filter (present symbols) (seqZ 0 k) ++
    List.filter (present symbols) (seqZ k (repair_count g))) as Hp.
  { rewrite <- List.filter_app. pose proof (seqZ_app 0 k (repair_count g)) as Happ.
    rewrite Z.add_0_l in Happ. rewrite <- Happ by lia.
    apply NoDup_Permutation; [apply Hf|apply filter_NoDup, NoDup_seqZ|].
    intros e. rewrite filter_elem, elem_of_seqZ. split.
    - intros (r & -> & Hr)%list_elem_of_fmap. pose proof (fi_valid _ _ _ Hf) as Hv.
      rewrite Forall_forall in Hv. destruct (Hv _ Hr) as [Hv1 _]. unfold symbol_count in Hv1. fold k in Hv1.
      split; [lia|]. unfold present. destruct r as [e s]. simpl in *.
      rewrite (proj2 (fi_slot _ _ _ Hf e s ltac:(lia)) Hr). done.
    - intros [He (s & _ & Hs & _)%present_slot]; [|lia]. apply list_elem_of_fmap. by exists (e, s). }
  apply Permutation_length in Hp. rewrite length_map, length_app in Hp.
  pose proof (List.filter_length (present symbols) (seqZ 0 k)) as Hfl. rewrite length_seqZ in Hfl.
  fold missing in Hfl. fold m in Hfl. unfold zlen in Hlen. lia.
Qed.

Lemma elem_of_chosen e : e ∈ chosen -> k <= e < symbol_count g /\ present symbols e = true.
Proof using Hg Hf.
  intros He.
  assert (e ∈ List.filter (present symbols) (seqZ k (repair_count g))) as H.
  { unfold chosen in He. rewrite <- (take_drop m (List.filter _ _)). set_solver. }
  apply filter_elem in H as [H%elem_of_seqZ Hp]. unfold symbol_count. fold k. split; [lia|done].
Qed.

Lemma chosen_NoDup : NoDup chosen.
Proof using.
  pose proof (filter_NoDup (present symbols) (seqZ k (repair_count g)) (NoDup_seqZ _ _)) as H.
  rewrite <- (take_drop m (List.filter _ _)) in H. by apply NoDup_app in H as [? _].
Qed.

Definition known (j : Z) : list Z := default [] (slot symbols j).

Context `{VOk : VectorUnitOk}.

Lemma move_known e l out :
  k <= e < symbol_count g -> Forall (fun j => 0 <= j < k /\ present symbols j = true) l ->
  symbol_valid g out ->
  exists out', foldl (fun acc j => out ← acc; s ← slot symbols j;
      Some (mul_add out (nth (Z.to_nat j) (map (coefficient e) (seqZ 0 k)) 0) s)) (Some out) l = Some out' /\
    symbol_valid g out' /\
    forall t, nth t out' 0 = Z.lxor (nth t out 0) (xsum (fun j => mul (coefficient e j) (nth t (known j) 0)) l).
Proof using Hg Hf VOk.
  intros He Hl. revert out. induction Hl as [|j l [Hj Hp] _ IH]; intros out Ho.
  - exists out. split_and!; try done. intros t. by rewrite Z.lxor_0_r.
  - destruct (present_slot j) as (s & Hs & _ & Hsv); [lia|done|].
    cbn [foldl mbind option_bind]. rewrite Hs. cbn [mbind option_bind].
    pose proof (coefficient_nth g e j Hj) as Hcn. fold k in Hcn. rewrite Hcn.
    assert (is_u8 (coefficient e j)) as Hc by (by apply (coefficient_byte g)).
    rewrite mul_add_correct by (done || apply Hsv || by apply (symbol_valid_length g)).
    destruct (IH (mul_add_spec out (coefficient e j) s)) as (out' & H1 & H2 & H3); [by apply mul_add_valid|].
    exists out'. split_and!; try done. intros t. rewrite H3, nth_mul_add by (by apply (symbol_valid_length g)).
    simpl. unfold known at 2. rewrite Hs. by rewrite Z.lxor_assoc.
Qed.

Lemma build_row_spec e :
  e ∈ chosen -> exists right, build_row g symbols missing e = Some (map (coefficient e) missing ++ right) /\
    symbol_valid g right /\
    forall t, nth t right 0 = Z.lxor (nth t (known e) 0)
      (xsum (fun j => mul (coefficient e j) (nth t (known j) 0)) (List.filter (present symbols) (seqZ 0 k))).
Proof using Hg Hf VOk.
  intros [He Hp]%elem_of_chosen. destruct Hg as (H1 & _). fold k in H1.
  destruct (present_slot e) as (s & Hs & _ & Hsv); [lia|done|].
  unfold build_row. fold k. rewrite generator_row_spec by done. cbn [mbind option_bind]. rewrite Hs.
  cbn [mbind option_bind].
  destruct (move_known e (List.filter (present symbols) (seqZ 0 k)) s) as (right & Hr & Hrv & Hrt); try done.
  { apply Forall_forall. intros j [Hj%elem_of_seqZ Hjp]%filter_elem. split; [lia|done]. }
  fold k. rewrite Hr. cbn [mbind option_bind]. exists right. split_and!; try done.
  - do 2 f_equal. apply map_ext_in. intros j Hj%list_elem_of_In%elem_of_missing.
    apply (coefficient_nth g). apply Hj.
  - intros t. rewrite Hrt. unfold known at 2. by rewrite Hs.
Qed.

(** The rows of the reduced system, and their kernel. *)
Lemma system_rows :
  k <= zlen received -> exists rows, mapM (build_row g symbols missing) chosen = Some rows /\
    length rows = m /\ rows_wf (m + Z.to_nat (symbol_length g)) rows /\
    trivial_kernel m (m + Z.to_nat (symbol_length g)) rows /\
    forall r, r ∈ rows -> exists e right, e ∈ chosen /\ r = map (coefficient e) missing ++ right /\
      symbol_valid g right /\
      forall t, nth t right 0 = Z.lxor (nth t (known e) 0)
        (xsum (fun j => mul (coefficient e j) (nth t (known j) 0)) (List.filter (present symbols) (seqZ 0 k))).
Proof using Hg Hf VOk.
  intros Hlen. set (row e := default [] (build_row g symbols missing e)).
  exists (map row chosen). split.
  { apply mapM_map. intros e He. unfold row. by destruct (build_row_spec e He) as (right & -> & _). }
  split; [rewrite length_map; by apply chosen_length|].
  assert (forall r, r ∈ map row chosen -> exists e right, e ∈ chosen /\ r = map (coefficient e) missing ++ right /\
      symbol_valid g right /\
      forall t, nth t right 0 = Z.lxor (nth t (known e) 0)
        (xsum (fun j => mul (coefficient e j) (nth t (known j) 0)) (List.filter (present symbols) (seqZ 0 k)))) as Hrows.
  { intros r (e & -> & He)%list_elem_of_fmap. destruct (build_row_spec e He) as (right & Hb & Hv & Ht).
    exists e, right. split_and!; try done. unfold row. by rewrite Hb. }
  assert (forall e, e ∈ chosen -> byte_list (map (coefficient e) missing)) as Hcb.
  { intros e [He _]%elem_of_chosen. apply Forall_map, Forall_forall. intros j Hj%elem_of_missing.
    apply (coefficient_byte g); [done|done|apply Hj]. }
  split_and!; [| |done].
  - apply Forall_forall. intros r (e & right & He & -> & [Hv1 Hv2] & _)%Hrows. split.
    + rewrite length_app, length_map. unfold zlen in Hv1. unfold m. lia.
    + apply Forall_app. split; [by apply Hcb|done].
  - intros y Hy Hyl Ha. apply (cauchy_kernel_bytes chosen missing); try done.
    + apply Forall_forall. intros e [He _]%elem_of_chosen. apply (esi_byte g Hg).
      destruct Hg as (H1 & _). fold k in H1. lia.
    + apply Forall_forall. intros e [He _]%elem_of_missing. apply (esi_byte g Hg).
      destruct Hg as (_ & H2 & _). unfold symbol_count. fold k. lia.
    + apply chosen_NoDup.
    + apply filter_NoDup, NoDup_seqZ.
    + intros x z [Hx _]%elem_of_chosen [Hz _]%elem_of_missing. lia.
    + rewrite chosen_length by done. done.
    + intros e He. unfold annihilates in Ha. rewrite Forall_map, Forall_forall in Ha. specialize (Ha e He).
      destruct (build_row_spec e He) as (right & Hb & [Hv1 Hv2] & _). unfold row in Ha. rewrite Hb in Ha.
      simpl in Ha. rewrite dot_app, dot_zero_r, Z.lxor_0_r in Ha by (rewrite length_map; done). exact Ha.
Qed.
End solve.

(** ** Solving and assembling *)

Definition missing_of (g : Geometry) (symbols : list (option (list Z))) : list Z :=
  List.filter (fun e => negb (present symbols e)) (seqZ 0 (source_count g)).

(** The received symbols are symbols of the generation of [source]. *)
Definition from_generation (g : Geometry) (source : list (list Z)) (received : list (Z * list Z)) : Prop :=
  forall e s, (e, s) ∈ received ->
    (e < source_count g -> s = source_at source e) /\ (source_count g <= e -> is_repair g source e s).

Lemma lxor_move a b : Z.lxor a b = 0 -> a = b.
Proof. apply Z.lxor_eq. Qed.

Section solved.
Context `{VOk : VectorUnitOk}.
Context (g : Geometry) (Hg : geometry_valid g).
Context (received : list (Z * list Z)) (symbols : list (option (list Z))) (Hf : filed g received symbols).
Let k := source_count g.
Let missing := missing_of g symbols.
Let m := length missing.
Let len := Z.to_nat (symbol_length g).

Lemma known_source source j :
  from_generation g source received -> 0 <= j < k -> present symbols j = true ->
  known symbols j = source_at source j.
Proof using Hf.
  intros Hgen Hj Hp. destruct (present_slot g received symbols Hf j) as (s & Hs & Hin & _); [lia|done|].
  unfold known. rewrite Hs. simpl. apply (Hgen j s Hin). apply Hj.
Qed.

(** The columns of the true solution satisfy every row. *)
Lemma rows_annihilate source rows t :
  source_valid g source -> from_generation g source received -> (t < len)%nat ->
  (forall r, r ∈ rows -> exists e right, (k <= e < symbol_count g /\ present symbols e = true) /\
     r = map (coefficient e) missing ++ right /\ symbol_valid g right /\
     forall t, nth t right 0 = Z.lxor (nth t (known symbols e) 0)
       (xsum (fun j => mul (coefficient e j) (nth t (known symbols j) 0))
          (List.filter (present symbols) (seqZ 0 k)))) ->
  annihilates rows (map (fun j => nth t (source_at source j) 0) missing ++ unit_vec len t).
Proof using Hg Hf VOk.
  intros Hsv Hgen Ht Hrows. apply Forall_forall. intros r Hr.
  destruct (Hrows r Hr) as (e & right & [He Hp] & -> & [Hrl Hrb] & Hrt). clear Hrows.
  rewrite dot_app by (by rewrite !length_map). rewrite dot_xsum, (dot_comm right).
  rewrite dot_unit_l by (done || (unfold zlen in Hrl; unfold len; lia)).
  rewrite Hrt. destruct (present_slot g received symbols Hf e) as (s & Hs & Hin & _); [|done|].
  { destruct Hsv as [Hl _]. unfold zlen in Hl. fold k in Hl. lia. }
  unfold known at 1. rewrite Hs. simpl. destruct (Hgen e s Hin) as [_ Hrep].
  destruct (Hrep ltac:(fold k; lia)) as [_ Hsum]. rewrite Hsum. fold k.
  set (term := fun j => mul (coefficient e j) (nth t (source_at source j) 0)).
  assert (xsum (fun j => mul (coefficient e j) (nth t (known symbols j) 0))
    (List.filter (present symbols) (seqZ 0 k)) = xsum term (List.filter (present symbols) (seqZ 0 k))) as ->.
  { assert (forall l, (forall j, j ∈ l -> 0 <= j < k /\ present symbols j = true) ->
      xsum (fun j => mul (coefficient e j) (nth t (known symbols j) 0)) l = xsum term l) as Hx.
    { induction l as [|j l IH]; intros Hl; [done|]. simpl. rewrite IH by (intros; apply Hl; set_solver).
      f_equal. unfold term. rewrite (known_source source j); [done|done|apply Hl; set_solver..]. }
    apply Hx. intros j [Hj%elem_of_seqZ Hjp]%filter_elem. split; [lia|done]. }
  rewrite (xsum_split term (present symbols) (seqZ 0 k)). fold k in missing. unfold missing, missing_of. fold k.
  set (A := xsum term (List.filter (present symbols) (seqZ 0 k))).
  set (B := xsum term _). rewrite (Z.lxor_comm A B), Z.lxor_assoc, Z.lxor_nilpotent, Z.lxor_0_r.
  apply Z.lxor_nilpotent.
Qed.

(** After elimination each row carries the missing symbol of its index. *)
Lemma solution_rows source rows i r e :
  source_valid g source ->
  rows_wf (m + len) rows -> (forall i r, rows !! i = Some r -> take m r = unit_vec m i) ->
  (forall t, (t < len)%nat ->
     annihilates rows (map (fun j => nth t (source_at source j) 0) missing ++ unit_vec len t)) ->
  rows !! i = Some r -> missing !! i = Some e -> take len (drop m r) = source_at source e.
Proof using Hg Hf VOk.
  intros Hsv Hwf Hunit Hann Hr He.
  unfold rows_wf in Hwf. rewrite Forall_forall in Hwf.
  destruct (Hwf r) as [Hrl Hrb]; [by eapply list_elem_of_lookup_2|].
  assert (e ∈ missing) as Hem by (by eapply list_elem_of_lookup_2).
  apply filter_elem in Hem as [Hek%elem_of_seqZ _]. fold k in Hek.
  destruct (source_at_valid g source e Hsv ltac:(fold k; lia)) as [Hsl Hsb].
  assert (length (drop m r) = len) as Hdl by (rewrite length_drop; lia).
  rewrite take_ge by lia. apply (nth_ext _ _ 0 0).
  { unfold zlen in Hsl. unfold len in *. lia. }
  intros t Ht. rewrite Hdl in Ht. specialize (Hann t Ht). unfold annihilates in Hann.
  rewrite Forall_forall in Hann. specialize (Hann r ltac:(by eapply list_elem_of_lookup_2)).
  pose proof (lookup_lt_Some _ _ _ He) as Hi. fold m in Hi.
  rewrite <- (take_drop m r), (Hunit i r Hr) in Hann.
  assert (byte_list (map (fun j => nth t (source_at source j) 0) missing)) as Hcb.
  { apply Forall_map, Forall_forall. intros j [Hj%elem_of_seqZ _]%filter_elem. apply nth_byte.
    by apply (source_at_valid g source j Hsv); fold k in Hj; fold k; lia. }
  rewrite dot_app in Hann by (rewrite length_unit_vec by done; by rewrite length_map).
  rewrite dot_unit_l in Hann by (done || by rewrite length_map).
  rewrite dot_comm, dot_unit_l in Hann by (done || by apply Forall_drop).
  apply lxor_move in Hann. rewrite <- Hann, nth_lookup.
  change (map ?f missing) with (f <$> missing). rewrite list_lookup_fmap, He. done.
Qed.

(** The part of [solve_missing] after the symbols are filed. *)
Lemma solve_rest :
  k <= zlen received ->
  exists recovered,
    (if (m =? 0)%nat then Some (Ok (symbols, [])) else
      rows ← mapM (build_row g symbols missing) (take m (List.filter (present symbols) (seqZ k (repair_count g))));
      rows ← gauss_jordan rows m;
      Some (Ok (symbols, zip missing (map (fun row => take len (drop m row)) rows)))) =
    Some (@Ok _ Error (symbols, recovered)) /\
    map fst recovered = missing /\ Forall (fun r => symbol_valid g r.2) recovered /\
    forall source, source_valid g source -> from_generation g source received ->
      recovered = map (fun e => (e, source_at source e)) missing.
Proof using Hg Hf VOk.
  intros Hlen. destruct (Nat.eqb_spec m 0) as [Hm|Hm].
  { exists []. assert (missing = []) as -> by (by apply length_zero_iff_nil). split_and!; try done. }
  destruct (system_rows g Hg received symbols Hf Hlen) as (rows & Hrows & Hrl & Hwf & Hker & Hshape).
  fold (missing_of g symbols) in Hrows, Hrl, Hwf, Hker, Hshape. fold k in Hrows, Hshape.
  fold missing in Hrows, Hrl, Hwf, Hker, Hshape. fold m in Hrows, Hrl, Hwf, Hker, Hshape.
  fold len in Hwf, Hker. rewrite Hrows. cbn [mbind option_bind].
  destruct (gauss_jordan_spec m (m + len) ltac:(lia) rows Hwf Hrl Hker)
    as (rows' & Hgj & Hwf' & Hrl' & Hunit & Hann).
  rewrite Hgj. cbn [mbind option_bind]. eexists. split; [reflexivity|]. split_and!.
  - apply fst_zip. rewrite length_map. lia.
  - apply Forall_forall. intros [e s] Hin%elem_of_zip_r. apply list_elem_of_fmap in Hin as (r & -> & Hr).
    unfold rows_wf in Hwf'. rewrite Forall_forall in Hwf'. destruct (Hwf' r Hr) as [Hl Hb]. simpl.
    split; [|by apply Forall_take, Forall_drop]. unfold zlen. rewrite length_take, length_drop.
    destruct Hg as (_ & _ & ?). unfold len in *. lia.
  - intros source Hsv Hgen.
    assert (map (fun row => take len (drop m row)) rows' = map (source_at source) missing) as ->.
    { apply list_eq. intros i. change (map ?f rows') with (f <$> rows').
      change (map ?f missing) with (f <$> missing). rewrite !list_lookup_fmap.
      destruct (rows' !! i) as [r|] eqn:Hr, (missing !! i) as [e|] eqn:He; simpl.
      - f_equal. apply (solution_rows source rows' i); try done. intros t Ht. apply Hann.
        + apply Forall_app. split; [|apply byte_list_unit]. apply Forall_map, Forall_forall.
          intros j [Hj%elem_of_seqZ _]%filter_elem. apply nth_byte. apply (source_at_valid g source j Hsv). lia.
        + apply (rows_annihilate source rows t Hsv Hgen Ht). intros r0 Hr0.
          destruct (Hshape r0 Hr0) as (e0 & right & He0 & -> & Hv & Hnth). exists e0, right.
          apply elem_of_chosen with (received := received) in He0; try done.
      - apply lookup_lt_Some in Hr. apply lookup_ge_None in He. fold m in He. lia.
      - apply lookup_ge_None in Hr. apply lookup_lt_Some in He. fold m in He. lia.
      - done. }
    clear. induction missing as [|e l IH]; simpl; [done|]. by rewrite IH.
Qed.
End solved.

Lemma assemble_spec symbols l recovered :
  map fst recovered = List.filter (fun e => negb (present symbols e)) l ->
  exists out, assemble symbols l recovered = Some out /\
    Forall2 (fun e s => slot symbols e = Some s \/ (slot symbols e = None /\ (e, s) ∈ recovered)) l out.
Proof.
  revert recovered. induction l as [|e l IH]; intros recovered Hfst; simpl in *.
  { exists []. split; [done|constructor]. }
  unfold present in Hfst at 1. destruct (slot symbols e) as [s|] eqn:Hs; simpl in Hfst.
  - destruct (IH recovered Hfst) as (out & -> & H2). exists (s :: out). split; [done|]. by constructor; [left|].
  - destruct recovered as [|[e' s] recovered]; [done|]. simpl in Hfst. injection Hfst as -> Hfst.
    destruct (IH recovered Hfst) as (out & -> & H2). exists (s :: out). split; [done|]. constructor.
    + right. split; [done|]. set_solver.
    + eapply Forall2_impl; [exact H2|]. intros x y [?|[? ?]]; [by left|right; split; [done|set_solver]].
Qed.
Section decoding.
Context `{VOk : VectorUnitOk}.
Context (g : Geometry) (Hg : geometry_valid g).

Lemma solve_missing_spec received :
  Forall (fun r => 0 <= r.1 /\ byte_list r.2) received ->
  (~ received_valid g received -> solve_missing g received = Some (Err InvalidSymbol)) /\
  (received_valid g received -> zlen received < source_count g ->
     solve_missing g received = Some (Err InsufficientSymbols)) /\
  (received_valid g received -> source_count g <= zlen received ->
     exists symbols recovered, solve_missing g received = Some (Ok (symbols, recovered)) /\
       filed g received symbols /\ map fst recovered = missing_of g symbols /\
       Forall (fun r => symbol_valid g r.2) recovered /\
       forall source, source_valid g source -> from_generation g source received ->
         recovered = map (fun e => (e, source_at source e)) (missing_of g symbols)).
Proof using Hg VOk.
  intros Hr. unfold solve_missing.
  pose proof (file_symbols_spec g received (replicate (Z.to_nat MAX_SYMBOLS) None) Hg
    (length_replicate _ _) (Forall_impl _ _ _ Hr (fun r H => proj1 H))) as Hfile.
  destruct (file_symbols g received _) as [symbols|e].
  - destruct Hfile as (Hv & _ & Hslot). split; [done|].
    assert (filed g received symbols) as Hf.
    { split; [|..|apply Hv].
      - intros e s He. rewrite Hslot, slot_empty by done. naive_solver.
      - destruct Hv as [Hv _]. rewrite Forall_forall in *. intros r Hin.
        destruct (Hv r Hin), (Hr r Hin). unfold symbol_valid. split; [lia|done]. }
    split; intros _ Hlen.
    + destruct (Z.ltb_spec (zlen received) (source_count g)); [done|lia].
    + destruct (Z.ltb_spec (zlen received) (source_count g)); [lia|].
      destruct (solve_rest g Hg received symbols Hf Hlen) as (recovered & H1 & H2 & H3 & H4).
      exists symbols, recovered. split_and!; try done.
  - destruct Hfile as [-> Hn]. assert (~ received_valid g received) as Hnv.
    { intros Hv. apply Hn. split; [done|]. intros r _. apply slot_empty. }
    split_and!; [done|by intros ?..].
Qed.

End decoding.

Lemma generation_symbols g source repair received :
  source_valid g source ->
  (forall e, source_count g <= e < symbol_count g ->
     is_repair g source e (nth (Z.to_nat (e - source_count g)) repair [])) ->
  (forall e s, (e, s) ∈ received -> 0 <= e < symbol_count g /\ (source ++ repair) !! Z.to_nat e = Some s) ->
  from_generation g source received /\ Forall (fun r => symbol_valid g r.2) received.
Proof.
  intros [Hsl Hsv] Hrep Hin. unfold zlen in Hsl.
  assert (forall e s, (e, s) ∈ received -> symbol_valid g s /\
    (e < source_count g -> s = source_at source e) /\ (source_count g <= e -> is_repair g source e s)) as H.
  { intros e s [He Hes]%Hin. destruct (Z.lt_ge_cases e (source_count g)).
    - rewrite lookup_app_l in Hes by lia. split_and!; [|intros _|lia].
      + rewrite Forall_forall in Hsv. by eapply Hsv, list_elem_of_lookup_2.
      + unfold source_at. by rewrite nth_lookup, Hes.
    - rewrite lookup_app_r in Hes by lia. specialize (Hrep e ltac:(lia)).
      replace (Z.to_nat (e - source_count g)) with (Z.to_nat e - length source)%nat in Hrep by lia.
      rewrite nth_lookup, Hes in Hrep. split_and!; [apply Hrep|lia|done]. }
  split; [intros e s Hes; exact (proj2 (H e s Hes))|]. apply Forall_forall.
  intros [e s] Hes. exact (proj1 (H e s Hes)).
Qed.

(** ** Properties *)

(** C3: any [k] symbols recover the generation.  For every valid geometry and
    source, decoding any list of distinct symbols of the generation (source or
    repair, in any order, at least [k] of them) returns exactly the source, and
    [recover_missing] returns exactly the absent source symbols. *)
Theorem decode_recovers `{VOk : VectorUnitOk} g source repair received :
  geometry_valid g -> source_valid g source -> encode g source = Some (Ok repair) ->
  NoDup (map fst received) ->
  (forall e s, (e, s) ∈ received -> 0 <= e < symbol_count g /\ (source ++ repair) !! Z.to_nat e = Some s) ->
  source_count g <= zlen received ->
  decode g received = Some (Ok source) /\
  recover_missing g received = Some (Ok
    (map (fun e => (e, source_at source e))
      (List.filter (fun e => negb (bool_decide (e ∈ map fst received))) (seqZ 0 (source_count g))))).
Proof.
  intros Hg Hsv Henc Hnd Hin Hlen.
  destruct (encode_spec g Hg source Hsv) as (repair' & Henc' & Hrl & Hrep).
  rewrite Henc in Henc'. injection Henc' as <-.
  destruct (generation_symbols g source repair received Hsv Hrep Hin) as [Hgen Hval].
  rewrite Forall_forall in Hval.
  assert (received_valid g received) as Hrv.
  { split; [|done]. apply Forall_forall. intros [e s] Hes. split; [apply (Hin e s Hes)|apply (Hval _ Hes)]. }
  destruct (solve_missing_spec g Hg received) as (_ & _ & Hsolve).
  { apply Forall_forall. intros [e s] Hes. split; [apply (Hin e s Hes)|apply (Hval _ Hes)]. }
  destruct (Hsolve Hrv Hlen) as (symbols & recovered & Hsm & Hf & Hfst & _ & Hrec).
  specialize (Hrec source Hsv Hgen). split.
  - unfold decode. rewrite Hsm. cbn [mbind option_bind].
    destruct (assemble_spec symbols (seqZ 0 (source_count g)) recovered Hfst) as (out & -> & Hout).
    cbn [mbind option_bind]. do 2 f_equal. rewrite (source_map g source Hsv).
    apply Forall2_length in Hout as Hol. apply list_eq. intros i.
    change (map ?f ?l) with (f <$> l). rewrite list_lookup_fmap.
    destruct (seqZ 0 (source_count g) !! i) as [e|] eqn:He.
    + destruct (Forall2_lookup_l _ _ _ _ _ Hout He) as (s & -> & Hs). simpl. f_equal.
      apply lookup_seqZ in He as [-> Hi]. destruct Hs as [Hs|[_ Hs]].
      * apply (fi_slot _ _ _ Hf) in Hs; [|lia]. apply (Hgen _ _ Hs). lia.
      * rewrite Hrec in Hs. apply list_elem_of_fmap in Hs as (e & [= <- ->] & _). done.
    + simpl. apply lookup_ge_None in He. apply lookup_ge_None. lia.
  - unfold recover_missing. rewrite Hsm. cbn [mbind option_bind]. do 2 f_equal. rewrite Hrec. f_equal.
    unfold missing_of. apply filter_ext_in. intros e He%list_elem_of_In%elem_of_seqZ. f_equal. unfold present.
    destruct (slot symbols e) as [s|] eqn:Hs; symmetry.
    + apply bool_decide_eq_true_2. apply (fi_slot _ _ _ Hf) in Hs; [|lia]. apply list_elem_of_fmap. by exists (e, s).
    + apply bool_decide_eq_false_2. intros ([e' s] & -> & Hes)%list_elem_of_fmap.
      apply (fi_slot _ _ _ Hf) in Hes; [simpl in Hs; congruence|simpl in He; lia].
Qed.

Definition demo_geometry : Geometry := mkGeometry 3 2 4.
Definition demo_source : list (list Z) := [[1; 2; 3; 4]; [5; 6; 7; 8]; [250; 251; 252; 253]].
Definition demo_repair : list (list Z) :=
  Eval vm_compute in match encode (V := reference_unit) demo_geometry demo_source with
                     | Some (Ok r) => r | _ => [] end.
Definition demo_received : list (Z * list Z) :=
  [(4, nth 1 demo_repair []); (1, [5; 6; 7; 8]); (3, nth 0 demo_repair [])].

Lemma demo_geometry_valid : geometry_valid demo_geometry.
Proof. vm_compute. intuition discriminate. Qed.
Lemma demo_source_valid : source_valid demo_geometry demo_source.
Proof. split; [reflexivity|]. repeat constructor; vm_compute; discriminate. Qed.

Lemma decode_recovers_witness :
  decode (V := reference_unit) demo_geometry demo_received = Some (Ok demo_source).
Proof.
  refine (proj1 (decode_recovers (V := reference_unit) (VOk := reference_unit_ok)
    demo_geometry demo_source demo_repair demo_received _ _ _ _ _ _)).
  - exact demo_geometry_valid.
  - exact demo_source_valid.
  - vm_compute. reflexivity.
  - by apply (bool_decide_eq_true (NoDup _)).
  - intros e s H. unfold demo_received in H.
    repeat (apply elem_of_cons in H as [[= -> ->]|H]; [vm_compute; intuition discriminate|]).
    by apply elem_of_nil in H.
  - vm_compute. discriminate.
Defined.

(** decoding never panics and refuses exactly.  On any received list
    whatsoever (identifiers and bytes at will) [decode] returns: [InvalidSymbol]
    exactly when an identifier is out of range or repeated or a length is
    wrong, else [InsufficientSymbols] exactly when there are fewer than [k],
    else [k] symbols of the geometry's length among which every received source
    symbol stands unchanged; no elimination ever lacks a pivot. *)
Theorem decode_total `{VOk : VectorUnitOk} g received :
  geometry_valid g -> Forall (fun r => 0 <= r.1 /\ byte_list r.2) received ->
  (~ received_valid g received -> decode g received = Some (Err InvalidSymbol)) /\
  (received_valid g received -> zlen received < source_count g ->
     decode g received = Some (Err InsufficientSymbols)) /\
  (received_valid g received -> source_count g <= zlen received ->
     exists out, decode g received = Some (Ok out) /\ source_valid g out /\
       forall e s, (e, s) ∈ received -> e < source_count g -> out !! Z.to_nat e = Some s).
Proof.
  intros Hg Hr. destruct (solve_missing_spec g Hg received Hr) as (H1 & H2 & H3). unfold decode. split_and!.
  - intros Hn. by rewrite (H1 Hn).
  - intros Hv Hl. by rewrite (H2 Hv Hl).
  - intros Hv Hl. destruct (H3 Hv Hl) as (symbols & recovered & -> & Hf & Hfst & Hval & _).
    cbn [mbind option_bind].
    destruct (assemble_spec symbols (seqZ 0 (source_count g)) recovered Hfst) as (out & -> & Hout).
    cbn [mbind option_bind]. exists out. split; [done|].
    pose proof (Forall2_length _ _ _ Hout) as Hol. rewrite length_seqZ in Hol.
    destruct Hg as (Hk & _). pose proof (fi_valid _ _ _ Hf) as Hfv. rewrite Forall_forall in Hfv, Hval. split.
    + split; [unfold zlen; lia|]. apply Forall_forall. intros s (i & Hi)%list_elem_of_lookup_1.
      destruct (Forall2_lookup_r _ _ _ _ _ Hout Hi) as (e & [-> _]%lookup_seqZ & [Hs|[_ Hs]]).
      * apply (fi_slot _ _ _ Hf) in Hs; [|lia]. apply (Hfv _ Hs).
      * apply (Hval _ Hs).
    + intros e s Hes He. destruct (Hfv _ Hes) as [[He0 _] _]. simpl in He0.
      assert (seqZ 0 (source_count g) !! Z.to_nat e = Some e) as Hseq by (apply lookup_seqZ; lia).
      destruct (Forall2_lookup_l _ _ _ _ _ Hout Hseq) as (s' & -> & Hs').
      apply (fi_slot _ _ _ Hf) in Hes; [|done]. rewrite Hes in Hs'.
      by destruct Hs' as [[= ->]|[? _]].
Qed.

Lemma decode_total_witness :
  exists out, decode (V := reference_unit) demo_geometry [(4, [9; 9; 9; 9]); (0, [7; 7; 7; 7]); (3, [0; 0; 0; 1])] =
    Some (Ok out) /\ out !! 0%nat = Some [7; 7; 7; 7].
Proof.
  destruct (decode_total (V := reference_unit) (VOk := reference_unit_ok) demo_geometry
    [(4, [9; 9; 9; 9]); (0, [7; 7; 7; 7]); (3, [0; 0; 0; 1])]) as (_ & _ & H).
  - exact demo_geometry_valid.
  - repeat constructor; vm_compute; discriminate.
  - destruct H as (out & H1 & _ & H2).
    + split; [repeat constructor|by apply (bool_decide_eq_true (NoDup _))].
    + vm_compute. discriminate.
    + exists out. split; [exact H1|]. apply (H2 0 [7; 7; 7; 7]); [|vm_compute; reflexivity].
      apply elem_of_cons. right. apply elem_of_cons. by left.
Defined.
