(* ===== verification/FecPlan.v ===== *)
(** * Coding epochs: which bytes each symbol covers (vot-fec, plan.rs)

    An [EpochPlan] cuts a byte range into generations of [k * L] bytes and each
    generation into [k] source symbols; the last generation may be short, its
    tail symbol padded and the symbols past it all zero.  A failed assertion is
    [None].  The theorem shows that the spans tile the range exactly and that
    no offset computed on the way leaves [u64]. *)

From S2P Require Import Prelude Gf FecLinear Fec.

Record EpochPlan := mkEpochPlan {
  epoch : Z; offset : Z; plan_length : Z; geometry : Geometry }.

#[export] Instance EpochPlan_eq_dec : EqDecision EpochPlan.
Proof. solve_decision. Defined.

Inductive SourceSpan := Bytes (span_offset span_bytes : Z) | Zero.

Definition generation_bytes (p : EpochPlan) : Z :=
  source_count (geometry p) * symbol_length (geometry p).

Definition generation_count (p : EpochPlan) : Z := div_ceil (plan_length p) (generation_bytes p).

(** [EpochPlan::new]. *)
Definition plan_new (epoch offset length : Z) (g : Geometry) : result EpochPlan Error :=
  if (length =? 0) || match checked_add offset length with None => true | Some _ => false end
  then Err InvalidGeometry else
  let plan := mkEpochPlan epoch offset length g in
  if u32_max + 1 <? generation_count plan then Err InvalidGeometry else Ok plan.

Definition holds (p : EpochPlan) (generation : Z) : bool := generation <? generation_count p.

Definition generation_span (p : EpochPlan) (generation : Z) : option (Z * Z) :=
  if holds p generation then
    let start := generation * generation_bytes p in
    Some (offset p + start, Z.min (generation_bytes p) (plan_length p - start))
  else None.

Definition source_span (p : EpochPlan) (generation esi : Z) : option SourceSpan :=
  if esi <? source_count (geometry p) then
    span ← generation_span p generation;
    let '(start, bytes) := span in
    let symbol_start := esi * symbol_length (geometry p) in
    if bytes <=? symbol_start then Some Zero else
    Some (Bytes (start + symbol_start) (Z.min (bytes - symbol_start) (symbol_length (geometry p))))
  else None.

Definition sent_source_count (p : EpochPlan) (generation : Z) : option Z :=
  span ← generation_span p generation;
  Some (div_ceil span.2 (symbol_length (geometry p))).

(** ** Valid plans *)

Record plan_valid (p : EpochPlan) : Prop := {
  pv_geometry : geometry_valid (geometry p);
  pv_offset : 0 <= offset p;
  pv_length : 0 < plan_length p;
  pv_end : offset p + plan_length p <= u64_max;
  pv_count : generation_count p <= u32_max + 1 }.

Lemma plan_new_valid e o l g p :
  0 <= o -> 0 <= l -> geometry_valid g -> plan_new e o l g = Ok p ->
  plan_valid p /\ p = mkEpochPlan e o l g.
Proof.
  intros Ho Hl Hg. unfold plan_new. destruct (Z.eqb_spec l 0); [done|]. simpl.
  destruct (checked_add o l) eqn:Ha; [|done]. apply checked_add_Some in Ha as [_ Ha].
  destruct (Z.ltb_spec (u32_max + 1) (generation_count (mkEpochPlan e o l g))); [done|].
  intros [= <-]. split; [|done]. split; simpl; try done; lia.
Qed.

Section plan.
Context (p : EpochPlan) (Hp : plan_valid p).
Let k := source_count (geometry p).
Let len := symbol_length (geometry p).

Lemma generation_bytes_pos : 0 < generation_bytes p.
Proof using Hp. destruct (pv_geometry _ Hp) as (H1 & _ & H3). unfold generation_bytes. nia. Qed.

Lemma generation_start g : 0 <= g < generation_count p -> 0 <= g * generation_bytes p < plan_length p.
Proof using Hp.
  intros Hg. pose proof generation_bytes_pos. pose proof (pv_length _ Hp).
  pose proof (div_ceil_spec (plan_length p) (generation_bytes p) ltac:(lia)) as H'.
  fold (generation_count p) in H'. nia.
Qed.

(** The span of a generation: inside the epoch, never empty. *)
Lemma generation_span_spec g :
  0 <= g < generation_count p -> exists bytes,
    generation_span p g = Some (offset p + g * generation_bytes p, bytes) /\
    bytes = Z.min (generation_bytes p) (plan_length p - g * generation_bytes p) /\
    0 < bytes <= generation_bytes p /\ g * generation_bytes p + bytes <= plan_length p.
Proof using Hp.
  intros Hg. pose proof (generation_start g Hg). pose proof generation_bytes_pos.
  unfold generation_span, holds. destruct (Z.ltb_spec g (generation_count p)); [|lia].
  eexists. split; [reflexivity|]. lia.
Qed.

Lemma sent_source_count_spec g :
  0 <= g < generation_count p -> exists sent bytes,
    generation_span p g = Some (offset p + g * generation_bytes p, bytes) /\
    sent_source_count p g = Some sent /\ 0 < sent <= k /\
    sent * len - len < bytes <= sent * len.
Proof using Hp.
  intros Hg. destruct (generation_span_spec g Hg) as (bytes & Hspan & _ & Hb & _).
  destruct (pv_geometry _ Hp) as (H1 & _ & H3). fold k in H1. fold len in H3.
  exists (div_ceil bytes len), bytes. unfold sent_source_count. rewrite Hspan. cbn [mbind option_bind snd].
  pose proof (div_ceil_spec bytes len ltac:(lia)) as Hd. unfold generation_bytes in Hb. fold k len in Hb.
  split_and!; try done; nia.
Qed.

Lemma source_span_spec g esi :
  0 <= g < generation_count p -> 0 <= esi < k -> exists sent,
    sent_source_count p g = Some sent /\
    (sent <= esi -> source_span p g esi = Some Zero) /\
    (esi < sent -> exists n, source_span p g esi =
       Some (Bytes (offset p + g * generation_bytes p + esi * len) n) /\ 0 < n <= len /\
       g * generation_bytes p + esi * len + n <= plan_length p /\
       (esi * len + n = len * (esi + 1) \/ g * generation_bytes p + esi * len + n = plan_length p)).
Proof using Hp.
  intros Hg Hesi. destruct (sent_source_count_spec g Hg) as (sent & bytes & Hspan & Hsent & Hs & Hb).
  destruct (generation_span_spec g Hg) as (bytes' & Hspan' & Hbytes & Hbb & Hend).
  rewrite Hspan in Hspan'. injection Hspan' as <-.
  exists sent. split; [done|]. unfold source_span. fold k len.
  destruct (Z.ltb_spec esi k); [|lia]. rewrite Hspan. cbn [mbind option_bind].
  unfold generation_bytes in Hbytes. fold k len in Hbytes.
  destruct (pv_geometry _ Hp) as (_ & _ & H3). fold len in H3. split.
  - intros Hle. destruct (Z.leb_spec bytes (esi * len)); [done|nia].
  - intros Hlt. destruct (Z.leb_spec bytes (esi * len)); [nia|]. eexists. split; [reflexivity|].
    split_and!; try nia. unfold generation_bytes. fold k len. nia.
Qed.
End plan.

(** ** Properties *)

Definition in_span (s : option SourceSpan) (x : Z) : Prop :=
  match s with Some (Bytes o n) => o <= x < o + n | _ => False end.

Lemma in_span_iff p gen esi x :
  plan_valid p -> 0 <= gen < generation_count p -> 0 <= esi < source_count (geometry p) ->
  in_span (source_span p gen esi) x <->
    (offset p + gen * generation_bytes p + esi * symbol_length (geometry p) <= x <
       offset p + gen * generation_bytes p + (esi + 1) * symbol_length (geometry p) /\
     x < offset p + plan_length p).
Proof.
  intros Hp Hgen Hesi. destruct (source_span_spec p Hp gen esi Hgen Hesi) as (sent & Hsent & Hz & Hb).
  destruct (sent_source_count_spec p Hp gen Hgen) as (sent' & bytes & Hspan & Hsent' & _ & Hbs).
  rewrite Hsent in Hsent'. injection Hsent' as <-.
  destruct (generation_span_spec p Hp gen Hgen) as (bytes' & Hspan' & Hbytes & _ & _).
  rewrite Hspan in Hspan'. injection Hspan' as <-. unfold generation_bytes in *.
  destruct (Z.le_gt_cases sent esi) as [Hle|Hlt].
  - rewrite (Hz Hle). simpl. split; [done|]. intros [H1 H2]. exfalso. nia.
  - destruct (Hb Hlt) as (n & -> & Hn & Hn2 & Hn3). simpl. nia.
Qed.

(** the spans tile the epoch.  For every plan the constructor accepts, each
    byte of the range lies in the span of exactly one source symbol of one
    generation, no span reaches outside the range (so no offset leaves [u64]),
    and the symbols that carry bytes are exactly the first
    [sent_source_count]. *)
Theorem spans_tile e o l g p :
  is_u64 o -> is_u64 l -> geometry_valid g -> plan_new e o l g = Ok p ->
  (forall x, o <= x < o + l -> exists gen esi,
     0 <= gen < generation_count p /\ 0 <= esi < source_count g /\ in_span (source_span p gen esi) x /\
     forall gen' esi', 0 <= gen' < generation_count p -> 0 <= esi' < source_count g ->
       in_span (source_span p gen' esi') x -> gen' = gen /\ esi' = esi) /\
  (forall gen esi x, 0 <= gen < generation_count p -> 0 <= esi < source_count g ->
     in_span (source_span p gen esi) x -> o <= x < o + l /\ x < u64_max) /\
  (forall gen esi, 0 <= gen < generation_count p -> 0 <= esi < source_count g ->
     exists sent, sent_source_count p gen = Some sent /\
       (source_span p gen esi = Some Zero <-> sent <= esi)).
Proof.
  intros Ho Hl Hg Hnew. unfold is_u64 in *.
  destruct (plan_new_valid e o l g p ltac:(lia) ltac:(lia) Hg Hnew) as [Hp Heq].
  assert (offset p = o /\ plan_length p = l /\ geometry p = g) as (Eo & El & Eg) by (by subst).
  pose proof (pv_end _ Hp) as Hend. rewrite Eo, El in Hend.
  pose proof (generation_bytes_pos p Hp) as Hgb. destruct Hg as (Hk & _ & Hlen).
  set (len := symbol_length g) in *. set (k := source_count g) in *.
  assert (generation_bytes p = k * len) as Egb by (unfold generation_bytes; by rewrite Eg).
  assert (forall gen esi x, 0 <= gen < generation_count p -> 0 <= esi < k ->
    in_span (source_span p gen esi) x <->
      (o + gen * (k * len) + esi * len <= x < o + gen * (k * len) + (esi + 1) * len /\ x < o + l)) as Hin.
  { intros gen esi x Hgen Hesi. rewrite (in_span_iff p gen esi x Hp Hgen) by (by rewrite Eg).
    by rewrite Eg, Eo, El, Egb. }
  split_and!.
  - intros x Hx. set (d := x - o). exists (d / (k * len)), ((d mod (k * len)) / len).
    pose proof (Z.div_mod d (k * len) ltac:(lia)) as D1. pose proof (Z.mod_pos_bound d (k * len) ltac:(lia)) as D2.
    pose proof (Z.div_mod (d mod (k * len)) len ltac:(lia)) as D3.
    pose proof (Z.mod_pos_bound (d mod (k * len)) len ltac:(lia)) as D4.
    set (G := d / (k * len)) in *. set (R := d mod (k * len)) in *. set (E := R / len) in *.
    assert (0 <= G < generation_count p) as HG.
    { pose proof (div_ceil_spec (plan_length p) (generation_bytes p) Hgb) as Hd.
      fold (generation_count p) in Hd. rewrite El, Egb in Hd. unfold d in *. nia. }
    assert (0 <= E < k) as HE by nia. split_and!; try lia.
    + apply Hin; [done|done|]. unfold d in *. nia.
    + intros gen' esi' Hgen' Hesi' H'. apply Hin in H' as [H1 _]; [|done|done].
      assert (gen' = G) as -> by (unfold d in *; nia). split; [done|]. unfold d in *. nia.
  - intros gen esi x Hgen Hesi H'. apply Hin in H'; [|done|done]. split; [nia|lia].
  - intros gen esi Hgen Hesi.
    destruct (source_span_spec p Hp gen esi Hgen ltac:(by rewrite Eg)) as (sent & Hsent & Hz & Hb).
    exists sent. split; [done|]. split; [|done]. intros HZ.
    destruct (Z.le_gt_cases sent esi); [done|]. destruct (Hb ltac:(lia)) as (n & Hn & _). congruence.
Qed.

Lemma spans_tile_witness :
  exists gen esi, in_span (source_span (mkEpochPlan 0 100 50 demo_geometry) gen esi) 149.
Proof.
  destruct (spans_tile 0 100 50 demo_geometry (mkEpochPlan 0 100 50 demo_geometry)) as (H & _).
  - unfold is_u64, u64_max. lia.
  - unfold is_u64, u64_max. lia.
  - exact demo_geometry_valid.
  - vm_compute. reflexivity.
  - destruct (H 149 ltac:(lia)) as (gen & esi & _ & _ & Hin & _). exists gen, esi. exact Hin.
Defined.
