(* ===== verification/FecReceiver.v ===== *)
(** * The receiving end of datagram FEC (vot-fec, receiver.rs)

    The receiver holds the newest credit, the table of open epochs and the two
    levels credit caps.  Each epoch holds its live generations, one source
    buffer and the repair symbols that arrived for each, and one bit per
    retired generation.  [None] stands for a panic: a failed [expect], an index
    out of range, or a counter that would leave [u64] ([-=] below zero, [+= 1]
    past the end).

    The theorems show that no sequence of calls panics, that the counters are
    exactly what is live, and that credit is respected whenever it grows. *)

From S2P Require Import Prelude BTree Gf FecLinear Fec FecPlan.

Record Credit := mkCredit {
  credit_epoch : Z;
  max_unretired_bytes : Z;
  max_active_generations : Z;
  max_decode_work : Z;
  max_open_epochs : Z }.

Inductive Open := Opened | Repeated | Refused.

Inductive Drop :=
| NoCredit
| UnknownEpoch
| WrongLength
| EsiOutOfRange
| GenerationPastEpoch
| ZeroSource
| Duplicate
| GenerationDone
| PastCredit.

Record Decoded := mkDecoded { d_generation : Z; d_offset : Z; d_bytes : list Z }.

Record Report := mkReport { sequence : Z; received : Z; missing_sources : list Z }.

Inductive Symbol :=
| Stored (first : bool)
| SymbolDecoded (d : Decoded)
| Abandoned (generation : Z) (state : Report)
| Dropped (d : Drop).

Definition MAX_TRACKED_GENERATIONS : Z := Z.shiftl 1 20.

Record Generation := mkGeneration {
  sources : list Z;
  repairs : list (Z * list Z);
  seen : Z;
  g_received : Z;
  g_sequence : Z }.

Definition has (slot : Generation) (esi : Z) : bool :=
  negb (Z.land (seen slot) (Z.shiftl 1 esi) =? 0).

Record Epoch := mkEpoch {
  e_plan : EpochPlan;
  live : list (Z * Generation);
  done_words : list Z }.

Definition is_done (e : Epoch) (generation : Z) : option bool :=
  word ← done_words e !! Z.to_nat (generation / 64);
  Some (negb (Z.land word (Z.shiftl 1 (generation mod 64)) =? 0)).

Definition mark_done (e : Epoch) (generation : Z) : option Epoch :=
  word ← done_words e !! Z.to_nat (generation / 64);
  Some (mkEpoch (e_plan e) (live e)
    (<[Z.to_nat (generation / 64) := Z.lor word (Z.shiftl 1 (generation mod 64))]> (done_words e))).

Record Counters := mkCounters { active_generations : Z; unretired_bytes : Z }.

(** [Counters::admit]: [None] is [false], with the counters unchanged. *)
Definition counters_admit (c : Counters) (credit : Credit) (bytes : Z) : option Counters :=
  if (max_active_generations credit <=? active_generations c) ||
     match checked_add (unretired_bytes c) bytes with
     | None => true
     | Some total => max_unretired_bytes credit <? total
     end
  then None
  else Some (mkCounters (active_generations c + 1) (unretired_bytes c + bytes)).

(** [Counters::retire]. *)
Definition retire (c : Counters) (bytes : Z) : option Counters :=
  if (active_generations c <? 1) || (unretired_bytes c <? bytes) then None
  else Some (mkCounters (active_generations c - 1) (unretired_bytes c - bytes)).

Record Receiver := mkReceiver {
  credit : option Credit;
  decode_work_spent : Z;
  epochs : list (Z * Epoch);
  counters : Counters }.

Definition receiver_new : Receiver := mkReceiver None 0 [] (mkCounters 0 0).

(** [report_of]: the report and the slot with its sequence advanced. *)
Definition report_of (plan : EpochPlan) (generation : Z) (slot : Generation) :
    option (Report * Generation) :=
  next ← checked_add (g_sequence slot) 1;
  sent ← sent_source_count plan generation;
  if g_received slot <=? u8_max then
    Some (mkReport next (g_received slot) (List.filter (fun j => negb (has slot j)) (seqZ 0 sent)),
          mkGeneration (sources slot) (repairs slot) (seen slot) (g_received slot) next)
  else None.

(** The free function [admit]. *)
Definition admit_symbol (plan : EpochPlan) (generation esi : Z) (bytes : list Z) :
    option (result Z Drop) :=
  let g := geometry plan in
  if negb (zlen bytes =? symbol_length g) then Some (Err WrongLength) else
  if symbol_count g <=? esi then Some (Err EsiOutOfRange) else
  if negb (holds plan generation) then Some (Err GenerationPastEpoch) else
  sent_sources ← sent_source_count plan generation;
  if (esi <? source_count g) && (sent_sources <=? esi) then Some (Err ZeroSource) else
  Some (Ok sent_sources).

Definition has_sources (slot : Generation) (sent_sources : Z) : bool :=
  forallb (has slot) (seqZ 0 sent_sources).

(** [buffer[start..start + l].copy_from_slice(s)]. *)
Definition copy_from_slice (buffer : list Z) (start l : Z) (s : list Z) : option (list Z) :=
  if (start + l <=? zlen buffer) && (zlen s =? l)
  then Some (ztake start buffer ++ s ++ zdrop (start + l) buffer) else None.

Section receiver.
Context `{V : VectorUnit}.

(** The symbols [eliminate] hands to the solver. *)
Definition symbols_in_hand (plan : EpochPlan) (slot : Generation) (sent_sources : Z) :
    option (list (Z * list Z)) :=
  let l := symbol_length (geometry plan) in
  held ← mapM (fun esi =>
    symbol ← get_range (sources slot) (esi * l) (esi * l + l); Some (esi, symbol))
    (List.filter (has slot) (seqZ 0 sent_sources));
  Some (held ++ repairs slot ++
    map (fun esi => (esi, replicate (Z.to_nat l) 0))
      (seqZ sent_sources (source_count (geometry plan) - sent_sources))).

Definition eliminate (plan : EpochPlan) (slot : Generation) (sent_sources : Z) : option Generation :=
  let l := symbol_length (geometry plan) in
  received ← symbols_in_hand plan slot sent_sources;
  outcome ← recover_missing (geometry plan) received;
  match outcome with
  | Err _ => None
  | Ok recovered =>
      buffer ← foldl (fun acc r => buffer ← acc; copy_from_slice buffer (r.1 * l) l r.2)
        (Some (sources slot)) recovered;
      Some (mkGeneration buffer (repairs slot) (seen slot) (g_received slot) (g_sequence slot))
  end.

Definition assemble_generation (plan : EpochPlan) (generation : Z) (buffer : list Z) : option Decoded :=
  span ← generation_span plan generation;
  Some (mkDecoded generation span.1 (ztake span.2 buffer)).

(** [Receiver::credit]. *)
Definition install_credit (self : Receiver) (c : Credit) : bool * Receiver :=
  if match credit self with Some held => credit_epoch c <=? credit_epoch held | None => false end
  then (false, self)
  else (true, mkReceiver (Some c) 0 (epochs self) (counters self)).

(** [Receiver::open]. *)
Definition open (self : Receiver) (plan : EpochPlan) : result Open Error * Receiver :=
  match map_get (epoch plan) (epochs self) with
  | Some known =>
      (if bool_decide (e_plan known = plan) then Ok Repeated else Err InvalidGeometry, self)
  | None =>
      match credit self with
      | None => (Ok Refused, self)
      | Some c =>
          if (max_open_epochs c <=? zlen (epochs self)) ||
             (MAX_TRACKED_GENERATIONS <? generation_count plan)
          then (Ok Refused, self) else
          let words := div_ceil (generation_count plan) 64 in
          (Ok Opened, mkReceiver (credit self) (decode_work_spent self)
             (map_insert (epoch plan) (mkEpoch plan [] (replicate (Z.to_nat words) 0)) (epochs self))
             (counters self))
      end
  end.

(** The slot after the symbol is filed. *)
Definition file_symbol (g : Geometry) (slot : Generation) (esi : Z) (bytes : list Z) : option Generation :=
  let l := symbol_length g in
  let seen' := Z.lor (seen slot) (Z.shiftl 1 esi) in
  if esi <? source_count g then
    buffer ← copy_from_slice (sources slot) (esi * l) l bytes;
    Some (mkGeneration buffer (repairs slot) seen' (g_received slot + 1) (g_sequence slot))
  else
    Some (mkGeneration (sources slot) (repairs slot ++ [(esi, bytes)]) seen' (g_received slot + 1)
      (g_sequence slot)).

(** The end of [Receiver::symbol]: the filed slot holds [k] symbols, and the
    generation is decoded or, past the decode budget, abandoned. *)
Definition complete_slot (self : Receiver) (c : Credit) (id : Z) (state : Epoch) (generation : Z)
    (sent_sources : Z) (slot : Generation) (levels : Counters) : option (Symbol * Receiver) :=
  let plan := e_plan state in
  let needs_elimination := negb (has_sources slot sent_sources) in
  let work := generation_bytes plan in
  let removed := mkEpoch plan (map_remove generation (live state)) (done_words state) in
  if needs_elimination &&
     match checked_add (decode_work_spent self) work with
     | None => true
     | Some spent => max_decode_work c <? spent
     end
  then
    reported ← report_of plan generation slot;
    state ← mark_done removed generation;
    levels ← retire levels work;
    Some (Abandoned generation (fst reported),
          mkReceiver (credit self) (decode_work_spent self) (map_insert id state (epochs self)) levels)
  else
    let spent := if needs_elimination then decode_work_spent self + work else decode_work_spent self in
    slot ← (if needs_elimination then eliminate plan slot sent_sources else Some slot);
    state ← mark_done removed generation;
    levels ← retire levels work;
    decoded ← assemble_generation plan generation (sources slot);
    Some (SymbolDecoded decoded, mkReceiver (credit self) spent (map_insert id state (epochs self)) levels).

(** [Receiver::symbol] from the point where the generation's slot is found or
    made: [slot] is the slot before the symbol is filed. *)
Definition symbol_in_slot (self : Receiver) (c : Credit) (id : Z) (state : Epoch) (generation : Z)
    (sent_sources esi : Z) (bytes : list Z) (slot : Generation) (levels : Counters) (first : bool) :
    option (Symbol * Receiver) :=
  let g := geometry (e_plan state) in
  slot ← file_symbol g slot esi bytes;
  if g_received slot <? source_count g then
    let state := mkEpoch (e_plan state) (map_insert generation slot (live state)) (done_words state) in
    Some (Stored first,
          mkReceiver (credit self) (decode_work_spent self) (map_insert id state (epochs self)) levels)
  else complete_slot self c id state generation sent_sources slot levels.

(** [Receiver::symbol]. *)
Definition symbol (self : Receiver) (id generation esi : Z) (bytes : list Z) : option (Symbol * Receiver) :=
  match credit self with
  | None => Some (Dropped NoCredit, self)
  | Some c =>
      match map_get id (epochs self) with
      | None => Some (Dropped UnknownEpoch, self)
      | Some state =>
          let plan := e_plan state in
          let g := geometry plan in
          admitted ← admit_symbol plan generation esi bytes;
          match admitted with
          | Err d => Some (Dropped d, self)
          | Ok sent_sources =>
              retired ← is_done state generation;
              if (retired : bool) then Some (Dropped GenerationDone, self) else
              match map_get generation (live state) with
              | Some existing =>
                  if has existing esi then Some (Dropped Duplicate, self) else
                  symbol_in_slot self c id state generation sent_sources esi bytes existing
                    (counters self) false
              | None =>
                  match counters_admit (counters self) c (generation_bytes plan) with
                  | None => Some (Dropped PastCredit, self)
                  | Some levels =>
                      let fresh := mkGeneration
                        (replicate (Z.to_nat (source_count g * symbol_length g)) 0) [] 0
                        (source_count g - sent_sources) 0 in
                      symbol_in_slot self c id state generation sent_sources esi bytes fresh levels true
                  end
              end
          end
      end
  end.

(** [Receiver::report]. *)
Definition report (self : Receiver) (id generation : Z) : option (option Report * Receiver) :=
  match map_get id (epochs self) with
  | None => Some (None, self)
  | Some state =>
      match map_get generation (live state) with
      | None => Some (None, self)
      | Some slot =>
          reported ← report_of (e_plan state) generation slot;
          let state := mkEpoch (e_plan state) (map_insert generation (snd reported) (live state))
            (done_words state) in
          Some (Some (fst reported), mkReceiver (credit self) (decode_work_spent self)
            (map_insert id state (epochs self)) (counters self))
      end
  end.

(** [Receiver::abandon]. *)
Definition abandon (self : Receiver) (id generation : Z) : option (bool * Receiver) :=
  match map_get id (epochs self) with
  | None => Some (false, self)
  | Some state =>
      match map_get generation (live state) with
      | None => Some (false, self)
      | Some _ =>
          state ← mark_done (mkEpoch (e_plan state) (map_remove generation (live state))
            (done_words state)) generation;
          levels ← retire (counters self) (generation_bytes (e_plan state));
          Some (true, mkReceiver (credit self) (decode_work_spent self)
            (map_insert id state (epochs self)) levels)
      end
  end.

(** [Receiver::close]. *)
Definition close (self : Receiver) (id : Z) : option (bool * Receiver) :=
  match map_get id (epochs self) with
  | None => Some (false, self)
  | Some state =>
      levels ← Nat.iter (length (live state))
        (fun levels => levels ← levels; retire levels (generation_bytes (e_plan state)))
        (Some (counters self));
      Some (true, mkReceiver (credit self) (decode_work_spent self) (map_remove id (epochs self)) levels)
  end.
End receiver.

(** ** The source buffer as a row of symbols *)

Definition buffer_symbol (g : Geometry) (buffer : list Z) (j : Z) : list Z :=
  slice buffer (j * symbol_length g) (j * symbol_length g + symbol_length g).

Definition buffer_valid (g : Geometry) (buffer : list Z) : Prop :=
  zlen buffer = source_count g * symbol_length g /\ byte_list buffer.

Lemma lookup_slice {A} (l : list A) a b n :
  slice l a b !! n = if decide (n < Z.to_nat (b - a))%nat then l !! (Z.to_nat a + n)%nat else None.
Proof. unfold slice, ztake, zdrop. rewrite lookup_take, lookup_drop. done. Qed.

Section buffer.
Context (g : Geometry) (Hg : geometry_valid g).

Lemma buffer_symbol_in_range buffer j :
  buffer_valid g buffer -> 0 <= j < source_count g ->
  get_range buffer (j * symbol_length g) (j * symbol_length g + symbol_length g) =
    Some (buffer_symbol g buffer j) /\ symbol_valid g (buffer_symbol g buffer j).
Proof using Hg.
  intros [Hl Hb] Hj. destruct Hg as (_ & _ & HL). unfold get_range, buffer_symbol, symbol_valid.
  set (L := symbol_length g) in *. set (k := source_count g) in *.
  destruct (Z.leb_spec (j * L) (j * L + L)); [|lia].
  destruct (Z.leb_spec (j * L + L) (zlen buffer)); [|nia]. simpl. split; [done|]. split.
  - rewrite zlen_slice; nia.
  - apply Forall_take, Forall_drop, Hb.
Qed.

Lemma copy_from_slice_spec buffer j s :
  buffer_valid g buffer -> 0 <= j < source_count g -> symbol_valid g s ->
  exists buffer', copy_from_slice buffer (j * symbol_length g) (symbol_length g) s = Some buffer' /\
    buffer_valid g buffer' /\
    forall i, 0 <= i < source_count g ->
      buffer_symbol g buffer' i = if i =? j then s else buffer_symbol g buffer i.
Proof using Hg.
  intros [Hl Hb] Hj [Hs Hsb]. destruct Hg as (_ & _ & HL). unfold copy_from_slice, buffer_symbol, buffer_valid.
  set (L := symbol_length g) in *. set (k := source_count g) in *.
  destruct (Z.leb_spec (j * L + L) (zlen buffer)); [|nia].
  rewrite (proj2 (Z.eqb_eq (zlen s) L) Hs). simpl. eexists. split; [reflexivity|]. split.
  { split; [rewrite !zlen_app, zlen_ztake, zlen_zdrop; nia|].
    apply Forall_app. split; [by apply Forall_take|]. apply Forall_app. split; [done|by apply Forall_drop]. }
  intros i Hi. apply list_eq. intros n. rewrite lookup_slice.
  assert (length (ztake (j * L) buffer) = Z.to_nat (j * L)) as Ht
    by (unfold ztake; rewrite length_take; unfold zlen in *; nia).
  assert (length s = Z.to_nat L) as Hsl by (unfold zlen in Hs; lia).
  destruct (Z.eqb_spec i j) as [->|Hne].
  - destruct (decide _) as [Hn|Hn].
    + rewrite lookup_app_r by lia. rewrite lookup_app_l by lia. f_equal. lia.
    + symmetry. apply lookup_ge_None. lia.
  - rewrite lookup_slice. destruct (decide _) as [Hn|Hn]; [|done].
    destruct (Z.lt_ge_cases i j).
    + rewrite lookup_app_l by nia. unfold ztake. apply lookup_take_lt. nia.
    + rewrite !lookup_app_r by nia. unfold zdrop. rewrite lookup_drop. f_equal. nia.
Qed.

(** Buffers are equal when their symbols are. *)
Lemma buffer_ext buffer source :
  buffer_valid g buffer -> source_valid g source ->
  (forall j, 0 <= j < source_count g -> buffer_symbol g buffer j = source_at source j) ->
  buffer = concat source.
Proof using Hg.
  intros [Hl _] Hsv Hj. rewrite (source_map g source Hsv). destruct Hg as (Hk & _ & HL).
  unfold buffer_symbol in Hj.
  set (L := symbol_length g) in *. set (k := source_count g) in *.
  assert (forall n : nat, Z.of_nat n <= k ->
    ztake (Z.of_nat n * L) buffer = concat (map (source_at source) (seqZ 0 (Z.of_nat n)))) as H.
  { induction n as [|n IH]; intros Hn; [done|].
    replace (Z.of_nat (S n)) with (Z.of_nat n + 1) by lia.
    rewrite seqZ_app, map_app, concat_app by lia. simpl. rewrite app_nil_r, <- IH by lia.
    rewrite <- Hj by lia. unfold slice, ztake, zdrop.
    replace (0 + Z.of_nat n) with (Z.of_nat n) by lia.
    replace (Z.to_nat ((Z.of_nat n + 1) * L)) with (Z.to_nat (Z.of_nat n * L) + Z.to_nat L)%nat by lia.
    rewrite <- take_take_drop. do 2 f_equal. lia. }
  specialize (H (Z.to_nat k) ltac:(lia)). rewrite Z2Nat.id in H by lia. rewrite <- H. symmetry.
  apply ztake_all. lia.
Qed.
End buffer.

(** ** The slot invariant *)

Lemma has_spec slot e : 0 <= e -> has slot e = Z.testbit (seen slot) e.
Proof. apply bit_test. Qed.

Record slot_ok (p : EpochPlan) (sent : Z) (slot : Generation) : Prop := {
  so_buffer : buffer_valid (geometry p) (sources slot);
  so_zero : forall j, 0 <= j < source_count (geometry p) -> has slot j = false ->
    buffer_symbol (geometry p) (sources slot) j = replicate (Z.to_nat (symbol_length (geometry p))) 0;
  so_seen : forall e, 0 <= e -> has slot e = true ->
    e < sent \/ source_count (geometry p) <= e < symbol_count (geometry p);
  so_repairs : forall e, 0 <= e ->
    e ∈ map fst (repairs slot) <-> source_count (geometry p) <= e /\ has slot e = true;
  so_repairs_valid : Forall (fun r => 0 <= r.1 /\ symbol_valid (geometry p) r.2) (repairs slot);
  so_nodup : NoDup (map fst (repairs slot));
  so_received : g_received slot = source_count (geometry p) - sent +
    zlen (List.filter (has slot) (seqZ 0 sent)) + zlen (repairs slot) }.

Lemma slice_replicate n a b (x : Z) :
  0 <= a <= b -> b <= Z.of_nat n -> slice (replicate n x) a b = replicate (Z.to_nat (b - a)) x.
Proof.
  intros Hab Hb. unfold slice, ztake, zdrop. rewrite drop_replicate, take_replicate. f_equal. lia.
Qed.

Definition fresh_slot (g : Geometry) (sent : Z) : Generation :=
  mkGeneration (replicate (Z.to_nat (source_count g * symbol_length g)) 0) [] 0 (source_count g - sent) 0.

Lemma fresh_slot_has g sent e : 0 <= e -> has (fresh_slot g sent) e = false.
Proof. intros He. rewrite has_spec by done. simpl. apply Z.bits_0. Qed.

Lemma file_symbol_has g slot esi slot' bytes e :
  0 <= esi -> 0 <= e -> file_symbol g slot esi bytes = Some slot' ->
  has slot' e = (esi =? e) || has slot e.
Proof.
  intros He He'. unfold file_symbol. intros H. rewrite !has_spec by done.
  assert (seen slot' = Z.lor (seen slot) (Z.shiftl 1 esi)) as ->; [|by apply bit_set].
  destruct (esi <? source_count g); [|by injection H as <-].
  destruct (copy_from_slice _ _ _ _); [|done]. by injection H as <-.
Qed.
Section slots.
Context (p : EpochPlan) (Hp : plan_valid p) (sent : Z) (Hsent : 0 < sent <= source_count (geometry p)).
Let g := geometry p.

Lemma fresh_slot_ok : slot_ok p sent (fresh_slot g sent).
Proof using Hp Hsent.
  destruct (pv_geometry _ Hp) as (Hk & _ & HL). fold g in Hk, HL, Hsent. split; fold g; simpl.
  - split; [unfold zlen; rewrite length_replicate; nia|]. by apply byte_list_replicate, is_u8_0.
  - intros j Hj _. unfold buffer_symbol.
    assert ((j + 1) * symbol_length g <= source_count g * symbol_length g) by nia.
    assert (0 <= j * symbol_length g) by nia. rewrite slice_replicate by lia. f_equal. lia.
  - intros e He. by rewrite fresh_slot_has.
  - intros e He. rewrite fresh_slot_has by done. set_solver.
  - constructor.
  - constructor.
  - rewrite filter_none; [unfold zlen; simpl; lia|]. intros x Hx%elem_of_seqZ. apply fresh_slot_has. lia.
Qed.

(** What filing one new symbol does to a slot. *)
Lemma file_symbol_spec slot esi bytes :
  slot_ok p sent slot -> 0 <= esi < symbol_count g -> (esi < sent \/ source_count g <= esi) ->
  has slot esi = false -> symbol_valid g bytes ->
  exists slot', file_symbol g slot esi bytes = Some slot' /\ slot_ok p sent slot' /\
    g_received slot' = g_received slot + 1 /\ g_sequence slot' = g_sequence slot /\
    repairs slot' = (if esi <? source_count g then repairs slot else repairs slot ++ [(esi, bytes)]) /\
    forall j, 0 <= j < source_count g -> buffer_symbol g (sources slot') j =
      if j =? esi then bytes else buffer_symbol g (sources slot) j.
Proof using Hp Hsent.
  intros [Hbuf Hzero Hseen Hrep Hrv Hnd Hrec] Hesi Hr Hnew Hb. fold g in Hbuf, Hzero, Hseen, Hrep, Hrv, Hrec.
  pose proof Hsent as Hs. fold g in Hs.
  assert (exists buffer', file_symbol g slot esi bytes = Some (mkGeneration buffer'
    (if esi <? source_count g then repairs slot else repairs slot ++ [(esi, bytes)])
    (Z.lor (seen slot) (Z.shiftl 1 esi)) (g_received slot + 1) (g_sequence slot)) /\
    buffer_valid g buffer' /\ forall j, 0 <= j < source_count g -> buffer_symbol g buffer' j =
      if j =? esi then bytes else buffer_symbol g (sources slot) j) as (buffer' & Hfile & Hbv & Hsym).
  { unfold file_symbol. destruct (Z.ltb_spec esi (source_count g)) as [Hlt|Hge].
    - destruct (copy_from_slice_spec g (pv_geometry _ Hp) (sources slot) esi bytes Hbuf ltac:(lia) Hb)
        as (buffer' & -> & Hbv & Hsym). exists buffer'. done.
    - exists (sources slot). split_and!; try done. intros j Hj. destruct (Z.eqb_spec j esi); [lia|done]. }
  eexists. split; [exact Hfile|]. simpl. split; [|done].
  pose proof (fun e H => file_symbol_has g slot esi _ bytes e (proj1 Hesi) H Hfile) as Hhas.
  split; fold g; simpl.
  - done.
  - intros j Hj. rewrite Hhas, Hsym by lia. rewrite Z.eqb_sym. destruct (j =? esi); [done|]. apply Hzero, Hj.
  - intros e He. rewrite Hhas by done. destruct (Z.eqb_spec esi e) as [<-|]; simpl; [lia|by apply Hseen].
  - intros e He. rewrite Hhas by done. destruct (Z.ltb_spec esi (source_count g)).
    + rewrite Hrep by done. destruct (Z.eqb_spec esi e) as [<-|]; simpl; [lia|done].
    + rewrite map_app, elem_of_app, Hrep by done. simpl. rewrite list_elem_of_singleton.
      destruct (Z.eqb_spec esi e) as [<-|]; simpl; [|naive_solver]. split; [done|by right].
  - destruct (Z.ltb_spec esi (source_count g)); [done|]. apply Forall_app. split; [done|].
    constructor; [|constructor]. simpl. split; [lia|done].
  - destruct (Z.ltb_spec esi (source_count g)); [done|]. rewrite map_app. apply NoDup_app. split_and!; [done| |].
    + intros e He He'%list_elem_of_singleton. simpl in He'. subst e.
      apply Hrep in He as [_ He]; [congruence|lia].
    + apply NoDup_singleton.
  - rewrite (filter_ext_in _ (fun e => (esi =? e) || has slot e)).
    2: { intros e He%list_elem_of_In%elem_of_seqZ. apply Hhas. lia. }
    rewrite filter_add by (apply NoDup_seqZ || done). rewrite Hrec.
    destruct (Z.ltb_spec esi (source_count g)).
    + rewrite bool_decide_eq_true_2; [lia|]. apply elem_of_seqZ. lia.
    + rewrite bool_decide_eq_false_2, zlen_app by (rewrite elem_of_seqZ; lia).
      unfold zlen at 5; simpl. lia.
Qed.
End slots.

(** The slot's symbols are those of the generation of [source]. *)
Definition slot_from (g : Geometry) (source : list (list Z)) (slot : Generation) : Prop :=
  (forall j, 0 <= j < source_count g -> has slot j = true ->
     buffer_symbol g (sources slot) j = source_at source j) /\
  (forall e s, (e, s) ∈ repairs slot -> is_repair g source e s).

Definition zero_tail (g : Geometry) (sent : Z) (source : list (list Z)) : Prop :=
  forall j, sent <= j < source_count g -> source_at source j = replicate (Z.to_nat (symbol_length g)) 0.

Lemma copy_all_spec g recovered buffer :
  geometry_valid g -> buffer_valid g buffer ->
  Forall (fun r => 0 <= r.1 < source_count g /\ symbol_valid g r.2) recovered ->
  NoDup (map fst recovered) ->
  exists buffer', foldl (fun acc r => buffer ← acc;
      copy_from_slice buffer (r.1 * symbol_length g) (symbol_length g) r.2) (Some buffer) recovered = Some buffer' /\
    buffer_valid g buffer' /\
    forall j, 0 <= j < source_count g ->
      (forall s, (j, s) ∈ recovered -> buffer_symbol g buffer' j = s) /\
      (j ∉ map fst recovered -> buffer_symbol g buffer' j = buffer_symbol g buffer j).
Proof.
  intros Hg Hb Hr. revert buffer Hb. induction Hr as [|[e s] rest [He Hs] Hr IH]; intros buffer Hb Hnd.
  { exists buffer. split_and!; try done. intros j Hj. split; [set_solver|done]. }
  simpl in Hnd. apply NoDup_cons in Hnd as [Hni Hnd]. simpl in He, Hs.
  destruct (copy_from_slice_spec g Hg buffer e s Hb He Hs) as (b1 & H1 & Hb1 & Hsym).
  destruct (IH b1 Hb1 Hnd) as (b2 & H2 & Hb2 & Hrest). exists b2.
  cbn [foldl mbind option_bind fst snd]. rewrite H1. split_and!; try done.
  intros j Hj. destruct (Hrest j Hj) as [Hin Hout]. split.
  - intros s' [[= -> ->]|Hin']%elem_of_cons; [|by apply Hin].
    rewrite Hout, Hsym, Z.eqb_refl by done. done.
  - simpl. intros [Hne Hni']%not_elem_of_cons. rewrite Hout, Hsym by done.
    destruct (Z.eqb_spec j e); [by subst|done].
Qed.

Section eliminate.
Context `{VOk : VectorUnitOk}.
Context (p : EpochPlan) (Hp : plan_valid p) (sent : Z) (Hsent : 0 < sent <= source_count (geometry p)).
Context (slot : Generation) (Hslot : slot_ok p sent slot).
Let g := geometry p.
Let zero := replicate (Z.to_nat (symbol_length g)) 0.

Let held := List.filter (has slot) (seqZ 0 sent).
Let tail := seqZ sent (source_count g - sent).

Lemma elem_of_held e : e ∈ held <-> 0 <= e < sent /\ has slot e = true.
Proof using. unfold held. rewrite filter_elem, elem_of_seqZ. by replace (0 + sent) with sent by lia. Qed.

Lemma elem_of_tail e : e ∈ tail <-> sent <= e < source_count g.
Proof using. unfold tail. rewrite elem_of_seqZ. lia. Qed.

Lemma hand_NoDup : NoDup (held ++ map fst (repairs slot) ++ tail).
Proof using Hslot Hsent.
  destruct Hslot as [_ _ _ Hrep Hrv Hnd _]. pose proof Hsent as Hs. fold g in Hs, Hrep, Hrv.
  rewrite Forall_forall in Hrv.
  assert (forall e, e ∈ map fst (repairs slot) -> source_count g <= e) as Hpos.
  { intros e He. apply Hrep; [|done]. apply list_elem_of_fmap in He as (r & -> & Hr). by apply Hrv. }
  apply NoDup_app. split_and!; [apply filter_NoDup, NoDup_seqZ| |].
  - intros e [He _]%elem_of_held [Hin%Hpos|Hin%elem_of_tail]%elem_of_app; lia.
  - apply NoDup_app. split_and!; [done| |apply NoDup_seqZ].
    intros e He%Hpos He'%elem_of_tail. lia.
Qed.

Lemma symbols_in_hand_spec : exists received, symbols_in_hand p slot sent = Some received /\
  zlen received = g_received slot /\ NoDup (map fst received) /\
  Forall (fun r => 0 <= r.1 < symbol_count g /\ symbol_valid g r.2) received /\
  (forall e, 0 <= e < source_count g -> e ∈ map fst received <-> sent <= e \/ has slot e = true) /\
  (forall e s, (e, s) ∈ received -> (e < sent /\ has slot e = true /\ s = buffer_symbol g (sources slot) e) \/
     (e, s) ∈ repairs slot \/ (sent <= e < source_count g /\ s = zero)).
Proof using Hp Hsent Hslot.
  destruct Hslot as [Hbuf Hzero Hseen Hrep Hrv Hnd Hrec]. pose proof Hsent as Hs. pose proof (pv_geometry _ Hp) as Hg.
  fold g in Hbuf, Hzero, Hseen, Hrep, Hrv, Hrec, Hs, Hg.
  unfold symbols_in_hand. fold g held tail zero.
  rewrite (mapM_map _ (fun e => (e, buffer_symbol g (sources slot) e))).
  2: { intros e [He _]%elem_of_held.
       by rewrite (proj1 (buffer_symbol_in_range g Hg (sources slot) e Hbuf ltac:(lia))). }
  eexists. split; [reflexivity|].
  assert (map fst (map (fun e => (e, buffer_symbol g (sources slot) e)) held ++ repairs slot ++
    map (fun e => (e, zero)) tail) = held ++ map fst (repairs slot) ++ tail) as Hfst.
  { rewrite !map_app, !map_map. simpl. by rewrite !map_id. }
  rewrite Forall_forall in Hrv.
  split_and!.
  - rewrite !zlen_app, Hrec. fold held. unfold zlen at 1 3. rewrite !length_map. unfold tail.
    rewrite length_seqZ. unfold zlen. lia.
  - rewrite Hfst. apply hand_NoDup.
  - apply Forall_app. split; [|apply Forall_app; split].
    + apply Forall_map, Forall_forall. intros e [He _]%elem_of_held. simpl. split.
      * destruct Hg as (_ & ? & _). unfold symbol_count. lia.
      * apply buffer_symbol_in_range; try done. lia.
    + apply Forall_forall. intros [e s] Hr. destruct (Hrv _ Hr) as [H0 Hv]. split; [|done]. simpl in *.
      assert (e ∈ map fst (repairs slot)) as Hin by (apply list_elem_of_fmap; by exists (e, s)).
      apply Hrep in Hin as [Hin1 Hin2]; [|done]. apply Hseen in Hin2; lia.
    + apply Forall_map, Forall_forall. intros e He%elem_of_tail. simpl. split.
      * destruct Hg as (_ & ? & _). unfold symbol_count. lia.
      * by apply zero_symbol_valid.
  - intros e He. rewrite Hfst, !elem_of_app, elem_of_held, elem_of_tail. split.
    + intros [H|[H|H]]; [right; apply H|apply Hrep in H; lia|left; lia].
    + destruct (Z.le_gt_cases sent e); [intros _; right; right; lia|].
      intros [?|Hh]; [lia|]. left. split; [lia|done].
  - intros e s. rewrite !elem_of_app. intros [H|[H|H]].
    + apply list_elem_of_fmap in H as (e' & [= -> ->] & [He Hh]%elem_of_held). left. split_and!; [lia|done|done].
    + by right; left.
    + apply list_elem_of_fmap in H as (e' & [= -> ->] & He%elem_of_tail). right. right. split; [lia|done].
Qed.

(** With [k] symbols in hand elimination succeeds, and on symbols of one
    generation it leaves that generation's sources in the buffer. *)
Lemma eliminate_spec :
  source_count g <= g_received slot ->
  exists slot', eliminate p slot sent = Some slot' /\ buffer_valid g (sources slot') /\
    forall source, source_valid g source -> zero_tail g sent source -> slot_from g source slot ->
      sources slot' = concat source.
Proof using VOk Hp Hsent Hslot.
  intros Hk. destruct symbols_in_hand_spec as (received & Hr & Hlen & Hnd & Hval & Hin & Hcase).
  pose proof (pv_geometry _ Hp) as Hg. fold g in Hg.
  destruct (solve_missing_spec g Hg received) as (_ & _ & Hsolve).
  { apply (Forall_impl _ _ _ Hval). intros r [[H0 _] [_ Hb]]. done. }
  destruct Hsolve as (symbols & recovered & Hsm & Hf & Hfst & Hrv & Hrec); [|lia|].
  { split; [|done]. apply (Forall_impl _ _ _ Hval). intros r [[_ H1] [H2 _]]. done. }
  assert (forall e, e ∈ missing_of g symbols <-> 0 <= e < source_count g /\ e ∉ map fst received) as Hmiss.
  { intros e. unfold missing_of. rewrite filter_elem, elem_of_seqZ. unfold present.
    destruct (Z.lt_ge_cases e 0); [naive_solver lia|].
    destruct (Fec.slot symbols e) as [s|] eqn:Hs.
    - apply (fi_slot _ _ _ Hf) in Hs; [|done]. split; [naive_solver|]. intros [_ Hn]. exfalso. apply Hn.
      apply list_elem_of_fmap. by exists (e, s).
    - split; [|naive_solver lia]. intros [He _]. split; [lia|]. intros ([e' s] & -> & Hes)%list_elem_of_fmap.
      apply (fi_slot _ _ _ Hf) in Hes; [simpl in Hs; congruence|done]. }
  destruct (copy_all_spec g recovered (sources slot) Hg (so_buffer _ _ _ Hslot)) as (buffer & Hcopy & Hbv & Hsym).
  { apply Forall_forall. intros [e s] Hes. split.
    - apply Hmiss. rewrite <- Hfst. apply list_elem_of_fmap. by exists (e, s).
    - rewrite Forall_forall in Hrv. apply (Hrv _ Hes). }
  { rewrite Hfst. apply filter_NoDup, NoDup_seqZ. }
  unfold eliminate. fold g. rewrite Hr. cbn [mbind option_bind]. unfold recover_missing. rewrite Hsm.
  cbn [mbind option_bind]. rewrite Hcopy. cbn [mbind option_bind]. eexists. split; [reflexivity|].
  split; [exact Hbv|]. intros source Hsv Htail [Hfrom Hfromr]. cbn [sources].
  apply (buffer_ext g Hg); [done..|]. intros j Hj. destruct (Hsym j Hj) as [Hsin Hsout].
  destruct (decide (j ∈ map fst received)) as [Hjr|Hjr].
  - rewrite Hsout by (rewrite Hfst, Hmiss; tauto). destruct (has slot j) eqn:Hh; [by apply Hfrom|].
    apply Hin in Hjr as [Hjs|]; [|congruence|done]. rewrite Htail by lia. by apply (so_zero _ _ _ Hslot).
  - apply Hsin. rewrite (Hrec source Hsv).
    + apply list_elem_of_fmap. exists j. split; [done|]. by apply Hmiss.
    + intros e s Hes. pose proof (proj1 (Forall_forall _ _) Hval _ Hes) as [[He0 _] _]. simpl in He0.
      destruct (Hcase e s Hes) as [(He & Hh & ->)|[Hrp|[He ->]]].
      * pose proof Hsent as Hs. fold g in Hs. split; [intros _; apply Hfrom; [lia|done]|lia].
      * split; [|intros _; by apply Hfromr]. intros Hlt. exfalso.
        assert (e ∈ map fst (repairs slot)) as Hm by (apply list_elem_of_fmap; by exists (e, s)).
        apply (so_repairs _ _ _ Hslot) in Hm as [Hm _]; [|done]. fold g in Hm. lia.
      * split; [|lia]. intros _. by rewrite Htail by lia.
Qed.

(** With every sent source in hand the buffer is already the generation. *)
Lemma has_sources_spec source :
  has_sources slot sent = true -> source_valid g source -> zero_tail g sent source ->
  slot_from g source slot -> sources slot = concat source.
Proof using Hp Hsent Hslot.
  intros Hall Hsv Htail [Hfrom _]. pose proof (pv_geometry _ Hp) as Hg. fold g in Hg.
  unfold has_sources in Hall. rewrite forallb_forall in Hall. pose proof Hsent as Hs. fold g in Hs.
  apply (buffer_ext g Hg); [apply Hslot|done|]. intros j Hj. destruct (has slot j) eqn:Hh; [by apply Hfrom|].
  rewrite Htail; [by apply (so_zero _ _ _ Hslot)|].
  destruct (Z.le_gt_cases sent j); [lia|]. rewrite Hall in Hh; [done|]. apply list_elem_of_In, elem_of_seqZ. lia.
Qed.
End eliminate.

(** ** The bitmap of retired generations *)

Definition done_bit (words : list Z) (generation : Z) : bool :=
  Z.testbit (nth (Z.to_nat (generation / 64)) words 0) (generation mod 64).

Lemma word_in_range count generation :
  0 <= generation < count -> 0 <= generation / 64 < div_ceil count 64.
Proof.
  intros H. pose proof (div_ceil_spec count 64 ltac:(lia)). pose proof (Z.div_mod generation 64 ltac:(lia)).
  pose proof (Z.mod_pos_bound generation 64 ltac:(lia)). lia.
Qed.

Section bitmap.
Context (e : Epoch) (generation : Z).
Context (Hgen : 0 <= generation < generation_count (e_plan e)).
Context (Hwords : zlen (done_words e) = div_ceil (generation_count (e_plan e)) 64).

Lemma done_word : exists word, done_words e !! Z.to_nat (generation / 64) = Some word /\
  nth (Z.to_nat (generation / 64)) (done_words e) 0 = word.
Proof using Hgen Hwords.
  pose proof (word_in_range _ _ Hgen) as Hw. rewrite <- Hwords in Hw. unfold zlen in Hw.
  destruct (lookup_lt_is_Some_2 (done_words e) (Z.to_nat (generation / 64))) as [w Hl]; [lia|].
  exists w. split; [done|]. by rewrite nth_lookup, Hl.
Qed.

Lemma is_done_spec : is_done e generation = Some (done_bit (done_words e) generation).
Proof using Hgen Hwords.
  destruct done_word as (w & Hl & Hn). unfold is_done, done_bit. rewrite Hl, Hn. cbn [mbind option_bind].
  by rewrite bit_test by (apply Z.mod_pos_bound; lia).
Qed.

Lemma mark_done_spec : exists words, mark_done e generation = Some (mkEpoch (e_plan e) (live e) words) /\
  zlen words = zlen (done_words e) /\
  forall g, 0 <= g -> done_bit words g = (generation =? g) || done_bit (done_words e) g.
Proof using Hgen Hwords.
  destruct done_word as (w & Hl & Hn). unfold mark_done. rewrite Hl. cbn [mbind option_bind].
  eexists. split; [reflexivity|]. split; [unfold zlen; by rewrite length_insert|].
  intros g Hg. unfold done_bit. rewrite !nth_lookup.
  pose proof (Z.mod_pos_bound generation 64 ltac:(lia)). pose proof (Z.mod_pos_bound g 64 ltac:(lia)).
  pose proof (Z.div_mod generation 64 ltac:(lia)). pose proof (Z.div_mod g 64 ltac:(lia)).
  destruct (decide (Z.to_nat (generation / 64) = Z.to_nat (g / 64))) as [Heq|Hne].
  - rewrite <- Heq, Hl, list_lookup_insert_eq by (by eapply lookup_lt_Some). cbn [from_option id].
    rewrite bit_set by lia. f_equal. apply Z2Nat.inj in Heq; [|apply Z.div_pos; lia..].
    destruct (Z.eqb_spec (generation mod 64) (g mod 64)), (Z.eqb_spec generation g); try done; [lia|subst; done].
  - rewrite list_lookup_insert_ne by done. destruct (Z.eqb_spec generation g); [subst; done|done].
Qed.
End bitmap.

(** ** The receiver invariant *)

(** What the other end is known to do: the plans it announces, and
    [truth p generation source], the sources it codes that generation from.
    The empty relation makes the invariant say nothing of content. *)
Record truth_relation : Type := mkTruth {
  opened : EpochPlan -> Prop;
  coded :> EpochPlan -> Z -> list (list Z) -> Prop }.

(** A symbol is honest when it is the one the sender's code yields. *)
Definition honest (truth : truth_relation) (p : EpochPlan) (generation esi : Z) (bytes : list Z) : Prop :=
  forall source, truth p generation source ->
    (esi < source_count (geometry p) -> bytes = source_at source esi) /\
    (source_count (geometry p) <= esi -> is_repair (geometry p) source esi bytes).

(** [n] bounds the report sequences handed out so far. *)
Record live_ok (truth : truth_relation) (n : Z) (p : EpochPlan) (words : list Z) (generation : Z)
    (slot : Generation) : Prop := {
  lo_generation : 0 <= generation < generation_count p;
  lo_not_done : done_bit words generation = false;
  lo_sequence : 0 <= g_sequence slot <= n;
  lo_slot : exists sent, sent_source_count p generation = Some sent /\ slot_ok p sent slot;
  lo_incomplete : g_received slot < source_count (geometry p);
  lo_truth : forall source, truth p generation source -> slot_from (geometry p) source slot }.

Record epoch_ok (truth : truth_relation) (n id : Z) (e : Epoch) : Prop := {
  eo_id : id = epoch (e_plan e);
  eo_plan : plan_valid (e_plan e);
  eo_opened : opened truth (e_plan e);
  eo_words : zlen (done_words e) = div_ceil (generation_count (e_plan e)) 64;
  eo_sorted : map_sorted (live e);
  eo_live : forall generation slot, map_get generation (live e) = Some slot ->
    live_ok truth n (e_plan e) (done_words e) generation slot }.

(** What one epoch adds to each counter. *)
Definition epoch_active (e : Epoch) : Z := zlen (live e).
Definition epoch_bytes (e : Epoch) : Z := zlen (live e) * generation_bytes (e_plan e).

Record receiver_ok (truth : truth_relation) (n : Z) (r : Receiver) : Prop := {
  ro_sorted : map_sorted (epochs r);
  ro_epochs : forall id e, map_get id (epochs r) = Some e -> epoch_ok truth n id e;
  ro_active : active_generations (counters r) = map_total epoch_active (epochs r);
  ro_bytes : unretired_bytes (counters r) = map_total epoch_bytes (epochs r);
  ro_bytes_u64 : unretired_bytes (counters r) <= u64_max;
  ro_spent : is_u64 (decode_work_spent r) }.

Lemma live_ok_mono truth n n' p words generation slot :
  n <= n' -> live_ok truth n p words generation slot -> live_ok truth n' p words generation slot.
Proof. intros Hn [? ? ? ? ? ?]. split; try done. lia. Qed.

Lemma receiver_ok_mono truth n n' r : n <= n' -> receiver_ok truth n r -> receiver_ok truth n' r.
Proof.
  intros Hn [? He ? ? ? ?]. split; try done. intros id e H. destruct (He id e H) as [? ? ? ? ? Hl]. split; try done.
  intros g s Hg. eapply live_ok_mono; [exact Hn|by apply Hl].
Qed.

Lemma receiver_new_ok truth : receiver_ok truth 0 receiver_new.
Proof. split; simpl; try done; mlia || constructor. Qed.

(** Replacing one epoch, with the counters moved by the difference. *)
Lemma receiver_ok_update truth n r id e e' levels spent :
  receiver_ok truth n r -> map_get id (epochs r) = Some e -> epoch_ok truth n id e' ->
  active_generations levels = active_generations (counters r) - epoch_active e + epoch_active e' ->
  unretired_bytes levels = unretired_bytes (counters r) - epoch_bytes e + epoch_bytes e' ->
  unretired_bytes levels <= u64_max -> is_u64 spent ->
  receiver_ok truth n (mkReceiver (credit r) spent (map_insert id e' (epochs r)) levels).
Proof.
  intros [Hs He Ha Hb Hu Hsp] Hid He' Ha' Hb' Hu' Hsp'. split; simpl; try done.
  - by apply map_insert_sorted.
  - intros id' e''. rewrite map_get_insert. destruct (Z.eqb_spec id' id) as [->|]; [|by apply He].
    by intros [= <-].
  - rewrite (map_total_insert_old _ _ _ _ _ Hs Hid). lia.
  - rewrite (map_total_insert_old _ _ _ _ _ Hs Hid). lia.
Qed.

Section levels.
Context (truth : truth_relation) (n : Z) (r : Receiver) (Hr : receiver_ok truth n r).

Lemma epoch_weights_nonneg x : x ∈ epochs r -> 0 <= epoch_active x.2 /\ 0 <= epoch_bytes x.2.
Proof using Hr.
  destruct x as [id e]. intros Hin. apply (map_get_Some _ _ _ (ro_sorted _ _ _ Hr)) in Hin.
  pose proof (generation_bytes_pos _ (eo_plan _ _ _ _ (ro_epochs _ _ _ Hr _ _ Hin))).
  pose proof (zlen_nonneg (live e)). unfold epoch_active, epoch_bytes. simpl. nia.
Qed.

Lemma epoch_weights_le id e :
  map_get id (epochs r) = Some e ->
  epoch_active e <= active_generations (counters r) /\ epoch_bytes e <= unretired_bytes (counters r).
Proof using Hr.
  intros He. rewrite (ro_active _ _ _ Hr), (ro_bytes _ _ _ Hr).
  split; apply (map_total_get _ id); try done; try apply Hr; intros x Hx; by apply epoch_weights_nonneg.
Qed.

Lemma counters_nonneg : 0 <= active_generations (counters r) /\ 0 <= unretired_bytes (counters r).
Proof using Hr.
  rewrite (ro_active _ _ _ Hr), (ro_bytes _ _ _ Hr).
  split; apply map_total_nonneg; intros x Hx; by apply epoch_weights_nonneg.
Qed.
End levels.

Definition counters_le (a b : Counters) : Prop :=
  active_generations a <= active_generations b /\ unretired_bytes a <= unretired_bytes b.

(** The counters once [generation] of [e] is charged, whether it was live
    already or has just been let in. *)
Definition charged (r : Receiver) (e : Epoch) (generation : Z) (levels : Counters) : Prop :=
  active_generations levels =
    active_generations (counters r) - epoch_active e + zlen (map_remove generation (live e)) + 1 /\
  unretired_bytes levels = unretired_bytes (counters r) - epoch_bytes e +
    (zlen (map_remove generation (live e)) + 1) * generation_bytes (e_plan e) /\
  unretired_bytes levels <= u64_max.

Lemma charged_live truth n r id e generation slot :
  receiver_ok truth n r -> map_get id (epochs r) = Some e ->
  map_get generation (live e) = Some slot -> charged r e generation (counters r).
Proof.
  intros Hr He Hg. pose proof (ro_epochs _ _ _ Hr _ _ He) as Hok. unfold charged, epoch_active, epoch_bytes.
  rewrite zlen_map_remove, Hg by apply Hok. pose proof (ro_bytes_u64 _ _ _ Hr). split_and!; [lia|ring|done].
Qed.

Lemma counters_admit_spec truth n r id e generation c :
  receiver_ok truth n r -> map_get id (epochs r) = Some e -> map_get generation (live e) = None ->
  match counters_admit (counters r) c (generation_bytes (e_plan e)) with
  | Some levels => charged r e generation levels /\
      active_generations levels <= max_active_generations c /\
      unretired_bytes levels <= max_unretired_bytes c
  | None => max_active_generations c <= active_generations (counters r) \/
      Z.min u64_max (max_unretired_bytes c) < unretired_bytes (counters r) + generation_bytes (e_plan e)
  end.
Proof.
  intros Hr He Hg. unfold counters_admit.
  destruct (Z.leb_spec (max_active_generations c) (active_generations (counters r))); simpl; [by left|].
  destruct (checked_add _ _) as [total|] eqn:Ha.
  - apply checked_add_Some in Ha as [-> Ha].
    destruct (Z.ltb_spec (max_unretired_bytes c)
      (unretired_bytes (counters r) + generation_bytes (e_plan e))); [right; lia|]. simpl.
    split; [|lia]. unfold charged, epoch_active, epoch_bytes. simpl.
    rewrite zlen_map_remove, Hg by apply (ro_epochs _ _ _ Hr _ _ He). split_and!; [lia|ring|lia].
  - apply checked_add_None in Ha. right. lia.
Qed.

(** Retiring a charged generation: the step [symbol] and [abandon] end with. *)
Lemma retire_generation truth n r id e generation levels spent :
  receiver_ok truth n r -> map_get id (epochs r) = Some e ->
  0 <= generation < generation_count (e_plan e) -> charged r e generation levels -> is_u64 spent ->
  exists words levels',
    mark_done (mkEpoch (e_plan e) (map_remove generation (live e)) (done_words e)) generation =
      Some (mkEpoch (e_plan e) (map_remove generation (live e)) words) /\
    retire levels (generation_bytes (e_plan e)) = Some levels' /\
    done_bit words generation = true /\ counters_le levels' levels /\
    receiver_ok truth n (mkReceiver (credit r) spent
      (map_insert id (mkEpoch (e_plan e) (map_remove generation (live e)) words) (epochs r)) levels').
Proof.
  intros Hr He Hgen (Ha & Hb & Hu) Hspent. pose proof (ro_epochs _ _ _ Hr _ _ He) as [Hid Hplan Hop Hw Hs Hl].
  destruct (mark_done_spec (mkEpoch (e_plan e) (map_remove generation (live e)) (done_words e)) generation)
    as (words & Hmark & Hwl & Hbits); [done|done|]. simpl in Hwl, Hbits, Hmark.
  destruct (epoch_weights_le _ _ _ Hr _ _ He) as [Hea Heb].
  pose proof (generation_bytes_pos _ Hplan) as Hpos. pose proof (zlen_nonneg (map_remove generation (live e))).
  exists words. unfold retire. destruct (Z.ltb_spec (active_generations levels) 1); [lia|].
  destruct (Z.ltb_spec (unretired_bytes levels) (generation_bytes (e_plan e))); [nia|]. simpl.
  eexists. split; [exact Hmark|]. split; [reflexivity|]. split; [rewrite Hbits, Z.eqb_refl by lia; done|].
  split; [unfold counters_le; simpl; lia|].
  apply (receiver_ok_update truth n r id e); try done; simpl.
  - split; simpl; try done; [lia|by apply map_remove_sorted|]. intros g slot.
    rewrite map_get_remove. destruct (Z.eqb_spec g generation); [done|]. intros Hg.
    destruct (Hl g slot Hg). split; try done. rewrite Hbits by lia.
    destruct (Z.eqb_spec generation g); [congruence|done].
  - rewrite Ha. unfold epoch_active. simpl. lia.
  - rewrite Hb. unfold epoch_bytes. simpl. lia.
  - lia.
Qed.

(** Storing an updated slot for a charged generation. *)
Lemma store_generation truth n r id e generation slot levels spent :
  receiver_ok truth n r -> map_get id (epochs r) = Some e -> charged r e generation levels -> is_u64 spent ->
  live_ok truth n (e_plan e) (done_words e) generation slot ->
  receiver_ok truth n (mkReceiver (credit r) spent
    (map_insert id (mkEpoch (e_plan e) (map_insert generation slot (live e)) (done_words e)) (epochs r)) levels).
Proof.
  intros Hr He (Ha & Hb & Hu) Hspent Hlive. pose proof (ro_epochs _ _ _ Hr _ _ He) as [Hid Hplan Hop Hw Hs Hl].
  apply (receiver_ok_update truth n r id e); try done.
  - split; simpl; try done; [by apply map_insert_sorted|]. intros g slot'. rewrite map_get_insert.
    destruct (Z.eqb_spec g generation) as [->|]; [by intros [= <-]|by apply Hl].
  - rewrite Ha. unfold epoch_active. simpl. rewrite zlen_map_insert by done. lia.
  - rewrite Hb. unfold epoch_bytes. simpl. rewrite zlen_map_insert by done. lia.
Qed.

(** ** One symbol *)

Lemma report_of_spec p generation sent slot :
  plan_valid p -> sent_source_count p generation = Some sent -> g_received slot <= source_count (geometry p) ->
  g_sequence slot < u64_max ->
  report_of p generation slot =
    Some (mkReport (g_sequence slot + 1) (g_received slot)
            (List.filter (fun j => negb (has slot j)) (seqZ 0 sent)),
          mkGeneration (sources slot) (repairs slot) (seen slot) (g_received slot) (g_sequence slot + 1)).
Proof.
  intros Hp Hsent Hrec Hseq. destruct (pv_geometry _ Hp) as (Hk & _). unfold report_of.
  rewrite (proj2 (checked_add_Some (g_sequence slot) 1 (g_sequence slot + 1))) by lia.
  cbn [mbind option_bind]. rewrite Hsent. cbn [mbind option_bind].
  destruct (Z.leb_spec (g_received slot) u8_max); [done|]. unfold u8_max, MAX_SOURCE_SYMBOLS in *. lia.
Qed.

(** The decoded bytes are the generation's. *)
Definition decoded_ok (truth : truth_relation) (p : EpochPlan) (generation : Z) (d : Decoded) : Prop :=
  d_generation d = generation /\
  generation_span p generation = Some (d_offset d, zlen (d_bytes d)) /\ byte_list (d_bytes d) /\
  forall source, truth p generation source -> d_bytes d = ztake (zlen (d_bytes d)) (concat source).

Lemma assemble_generation_spec (truth : truth_relation) p generation buffer :
  plan_valid p -> 0 <= generation < generation_count p -> buffer_valid (geometry p) buffer ->
  (forall source, truth p generation source -> buffer = concat source) ->
  exists d, assemble_generation p generation buffer = Some d /\ decoded_ok truth p generation d.
Proof.
  intros Hp Hg [Hl Hb] Ht. destruct (generation_span_spec p Hp generation Hg) as (bytes & Hspan & _ & Hbytes & _).
  unfold assemble_generation. rewrite Hspan. cbn [mbind option_bind fst snd]. eexists. split; [reflexivity|].
  assert (zlen (ztake bytes buffer) = bytes) as Hz by (apply zlen_ztake; unfold generation_bytes in Hbytes; lia).
  unfold decoded_ok. simpl. rewrite Hz. split_and!; [done..|by apply Forall_take|].
  intros source Hs. by rewrite (Ht source Hs).
Qed.

Definition over_budget (r : Receiver) (c : Credit) (work : Z) : bool :=
  Z.min u64_max (max_decode_work c) <? decode_work_spent r + work.

Lemma over_budget_eq r c work :
  match checked_add (decode_work_spent r) work with
  | None => true
  | Some spent => max_decode_work c <? spent
  end = over_budget r c work.
Proof.
  unfold over_budget, checked_add. destruct (Z.leb_spec (decode_work_spent r + work) u64_max); zcases; lia.
Qed.

(** The generation has left the table and its bit is set. *)
Definition generation_retired (r : Receiver) (id generation : Z) : Prop :=
  exists e, map_get id (epochs r) = Some e /\ map_get generation (live e) = None /\
    done_bit (done_words e) generation = true.

(** What a symbol that completes [slot] (after filing) comes to. *)
Definition completed (truth : truth_relation) (r : Receiver) (c : Credit) (p : EpochPlan) (generation sent : Z)
    (slot : Generation) (out : Symbol) (r' : Receiver) : Prop :=
  let work := generation_bytes p in
  if negb (has_sources slot sent) && over_budget r c work then
    out = Abandoned generation (mkReport (g_sequence slot + 1) (g_received slot)
            (List.filter (fun j => negb (has slot j)) (seqZ 0 sent))) /\
    decode_work_spent r' = decode_work_spent r
  else
    (exists d, out = SymbolDecoded d /\ decoded_ok truth p generation d) /\
    decode_work_spent r' = decode_work_spent r + (if has_sources slot sent then 0 else work).

Section symbol_steps.
Context `{VOk : VectorUnitOk}.
Context (truth : truth_relation).
Context (Htruth : forall p generation source sent, truth p generation source ->
  sent_source_count p generation = Some sent ->
  source_valid (geometry p) source /\ zero_tail (geometry p) sent source).
Context (n : Z) (Hn : n < u64_max) (r : Receiver) (Hr : receiver_ok truth n r).
Context (c : Credit) (id : Z) (e : Epoch) (He : map_get id (epochs r) = Some e).
Let p := e_plan e.
Let g := geometry p.
Context (generation sent : Z) (Hgen : 0 <= generation < generation_count (e_plan e)).
Context (Hsent : sent_source_count (e_plan e) generation = Some sent).

Lemma sent_bounds : plan_valid p /\ 0 < sent <= source_count g.
Proof using Hr He Hgen Hsent.
  pose proof (eo_plan _ _ _ _ (ro_epochs _ _ _ Hr _ _ He)) as Hp. split; [exact Hp|].
  destruct (sent_source_count_spec p Hp generation Hgen) as (sent' & _ & _ & Hs & Hb & _).
  unfold p in Hs. rewrite Hsent in Hs. injection Hs as <-. exact Hb.
Qed.

(** A completing slot always yields a buffer the generation can be read from. *)
Lemma complete_buffer slot :
  slot_ok p sent slot -> source_count g <= g_received slot ->
  (forall source, truth p generation source -> slot_from g source slot) ->
  exists slot', (if negb (has_sources slot sent) then eliminate p slot sent else Some slot) = Some slot' /\
    buffer_valid g (sources slot') /\
    forall source, truth p generation source -> sources slot' = concat source.
Proof using VOk Htruth Hr He Hgen Hsent.
  intros Hslot Hk Hfrom. destruct sent_bounds as [Hp Hs].
  destruct (has_sources slot sent) eqn:Hhas; cbn [negb].
  - exists slot. split_and!; [done|apply Hslot|]. intros source Ht.
    destruct (Htruth _ _ _ _ Ht Hsent). by apply (has_sources_spec p Hp sent Hs); auto.
  - destruct (eliminate_spec p Hp sent Hs slot Hslot Hk) as (slot' & -> & Hb & Hc). exists slot'.
    split_and!; [done..|]. intros source Ht. destruct (Htruth _ _ _ _ Ht Hsent). by apply Hc; auto.
Qed.

Lemma file_symbol_from slot slot' esi bytes :
  honest truth p generation esi bytes -> 0 <= esi ->
  file_symbol g slot esi bytes = Some slot' ->
  repairs slot' = (if esi <? source_count g then repairs slot else repairs slot ++ [(esi, bytes)]) ->
  (forall j, 0 <= j < source_count g -> buffer_symbol g (sources slot') j =
     if j =? esi then bytes else buffer_symbol g (sources slot) j) ->
  (forall source, truth p generation source -> slot_from g source slot) ->
  forall source, truth p generation source -> slot_from g source slot'.
Proof using.
  intros Hh Hpos Hfile Hrep Hbuf Hfrom source Ht. destruct (Hfrom source Ht) as [Hs Hr'].
  destruct (Hh source Ht) as [H1 H2]. fold g in H1, H2. split.
  - intros j Hj. rewrite (file_symbol_has g slot esi slot' bytes j), Hbuf by (done || lia).
    rewrite (Z.eqb_sym esi j). destruct (Z.eqb_spec j esi) as [->|]; [intros _; apply H1; lia|by apply Hs].
  - intros e' s. rewrite Hrep. destruct (Z.ltb_spec esi (source_count g)); [apply Hr'|].
    rewrite elem_of_app, list_elem_of_singleton. intros [?|[= -> ->]]; [by apply Hr'|by apply H2].
Qed.

Lemma generation_retired_iff spent words levels :
  generation_retired (mkReceiver (credit r) spent
    (map_insert id (mkEpoch p (map_remove generation (live e)) words) (epochs r)) levels) id generation <->
  done_bit words generation = true.
Proof using.
  unfold generation_retired. simpl. rewrite map_get_insert, Z.eqb_refl. split.
  - intros (e' & [= <-] & _ & H). exact H.
  - intros H. eexists. split; [done|]. simpl. by rewrite map_get_remove, Z.eqb_refl.
Qed.

Lemma complete_slot_spec slot levels :
  charged r e generation levels -> slot_ok p sent slot -> 0 <= g_sequence slot <= n ->
  g_received slot = source_count g ->
  (forall source, truth p generation source -> slot_from g source slot) ->
  exists out r', complete_slot r c id e generation sent slot levels = Some (out, r') /\
    receiver_ok truth n r' /\ credit r' = credit r /\ counters_le (counters r') levels /\
    completed truth r c p generation sent slot out r' /\ generation_retired r' id generation.
Proof using VOk Htruth Hn Hr He Hgen Hsent.
  intros Hch Hslot Hseq Hrec Hfrom. destruct sent_bounds as [Hp Hs].
  pose proof (ro_spent _ _ _ Hr) as Hspent. pose proof (generation_bytes_pos p Hp) as Hgb.
  unfold complete_slot, completed. rewrite over_budget_eq. fold p.
  destruct (negb (has_sources slot sent) && over_budget r c (generation_bytes p)) eqn:Hover.
  - rewrite (report_of_spec p generation sent) by (done || (fold g; lia)). cbn [mbind option_bind].
    destruct (retire_generation truth n r id e generation levels (decode_work_spent r) Hr He Hgen Hch Hspent)
      as (words & levels' & Hm & Hre & Hd & Hle & Hok).
    unfold p. rewrite Hm. cbn [mbind option_bind]. rewrite Hre. cbn [mbind option_bind fst].
    eexists _, _. split_and!; try done. by apply generation_retired_iff.
  - destruct (complete_buffer slot Hslot ltac:(lia) Hfrom) as (slot' & -> & Hbv & Hcat).
    cbn [mbind option_bind]. set (spent := if negb (has_sources slot sent) then _ else _).
    assert (spent = decode_work_spent r + (if has_sources slot sent then 0 else generation_bytes p) /\
      is_u64 spent) as [Hsp Hspu].
    { unfold spent. destruct (has_sources slot sent); simpl in *; [mlia|]. unfold over_budget in Hover.
      apply Z.ltb_ge in Hover. mlia. }
    destruct (retire_generation truth n r id e generation levels spent Hr He Hgen Hch Hspu)
      as (words & levels' & Hm & Hre & Hd & Hle & Hok).
    unfold p. rewrite Hm. cbn [mbind option_bind]. rewrite Hre. cbn [mbind option_bind].
    destruct (assemble_generation_spec truth p generation (sources slot') Hp Hgen Hbv Hcat) as (d & Ha & Hdo).
    fold p. rewrite Ha. cbn [mbind option_bind]. eexists _, _. split_and!; try done.
    + by exists d.
    + by apply generation_retired_iff.
Qed.

(** Filing one new symbol in a charged slot. *)
Lemma symbol_in_slot_spec esi bytes slot levels first :
  done_bit (done_words e) generation = false -> charged r e generation levels ->
  slot_ok p sent slot -> 0 <= g_sequence slot <= n -> g_received slot < source_count g ->
  (forall source, truth p generation source -> slot_from g source slot) ->
  0 <= esi < symbol_count g -> (esi < sent \/ source_count g <= esi) -> has slot esi = false ->
  symbol_valid g bytes -> honest truth p generation esi bytes ->
  exists slot' out r', file_symbol g slot esi bytes = Some slot' /\
    g_received slot' = g_received slot + 1 /\ g_sequence slot' = g_sequence slot /\
    symbol_in_slot r c id e generation sent esi bytes slot levels first = Some (out, r') /\
    receiver_ok truth n r' /\ credit r' = credit r /\ counters_le (counters r') levels /\
    if g_received slot + 1 <? source_count g then
      out = Stored first /\ decode_work_spent r' = decode_work_spent r /\ counters r' = levels /\
      exists e', map_get id (epochs r') = Some e' /\ e_plan e' = p /\ done_words e' = done_words e /\
        map_get generation (live e') = Some slot'
    else completed truth r c p generation sent slot' out r' /\ generation_retired r' id generation.
Proof using VOk Htruth Hn Hr He Hgen Hsent.
  intros Hdone Hch Hslot Hseq Hrec Hfrom Hesi Hr' Hnew Hb Hh. destruct sent_bounds as [Hp Hs].
  destruct (file_symbol_spec p Hp sent Hs slot esi bytes Hslot Hesi Hr' Hnew Hb)
    as (slot' & Hfile & Hslot' & Hrec' & Hseq' & Hrep & Hbuf).
  fold g in Hfile, Hrep, Hbuf.
  pose proof (file_symbol_from slot slot' esi bytes Hh ltac:(lia) Hfile Hrep Hbuf Hfrom) as Hfrom'.
  exists slot'. unfold symbol_in_slot. fold p g. rewrite Hfile. cbn [mbind option_bind]. rewrite Hrec'.
  destruct (Z.ltb_spec (g_received slot + 1) (source_count g)) as [Hlt|Hge].
  - eexists _, _. split_and!; try done.
    + apply (store_generation truth n r id e); try done; [apply Hr|].
      split; try done; [lia|by exists sent|fold p g; lia].
    + simpl. rewrite map_get_insert, Z.eqb_refl. eexists. split; [done|]. simpl.
      rewrite map_get_insert, Z.eqb_refl. done.
  - destruct (complete_slot_spec slot' levels Hch Hslot' ltac:(lia) ltac:(lia) Hfrom')
      as (out & r' & Hc & Hok & Hcr & Hle & Hcomp & Hret). exists out, r'. done.
Qed.
End symbol_steps.

(** [symbol] once its header has passed the drop rows. *)
Lemma symbol_past_guards `{V : VectorUnit} truth n r c id e generation sent esi bytes :
  receiver_ok truth n r -> credit r = Some c -> map_get id (epochs r) = Some e ->
  0 <= generation < generation_count (e_plan e) -> sent_source_count (e_plan e) generation = Some sent ->
  zlen bytes = symbol_length (geometry (e_plan e)) -> esi < symbol_count (geometry (e_plan e)) ->
  (esi < sent \/ source_count (geometry (e_plan e)) <= esi) ->
  symbol r id generation esi bytes =
    if done_bit (done_words e) generation then Some (Dropped GenerationDone, r) else
    match map_get generation (live e) with
    | Some existing =>
        if has existing esi then Some (Dropped Duplicate, r) else
        symbol_in_slot r c id e generation sent esi bytes existing (counters r) false
    | None =>
        match counters_admit (counters r) c (generation_bytes (e_plan e)) with
        | None => Some (Dropped PastCredit, r)
        | Some levels =>
            symbol_in_slot r c id e generation sent esi bytes (fresh_slot (geometry (e_plan e)) sent) levels true
        end
    end.
Proof.
  intros Hr Hc He Hgen Hsent Hl Hesi Hs. unfold symbol, admit_symbol, holds. rewrite Hc, He, Hl, Z.eqb_refl. simpl.
  destruct (Z.leb_spec (symbol_count (geometry (e_plan e))) esi); [lia|].
  destruct (Z.ltb_spec generation (generation_count (e_plan e))); [|lia]. simpl.
  rewrite Hsent. cbn [mbind option_bind].
  destruct (Z.ltb_spec esi (source_count (geometry (e_plan e)))), (Z.leb_spec sent esi); simpl; try lia.
  all: rewrite is_done_spec by (done || apply (ro_epochs _ _ _ Hr _ _ He)); done.
Qed.

(** The drop rows a header decides on its own. *)
Lemma symbol_guards `{V : VectorUnit} truth n r id generation esi bytes :
  receiver_ok truth n r -> 0 <= generation ->
  (exists d, symbol r id generation esi bytes = Some (Dropped d, r)) \/
  exists c e sent, credit r = Some c /\ map_get id (epochs r) = Some e /\
    0 <= generation < generation_count (e_plan e) /\ sent_source_count (e_plan e) generation = Some sent /\
    zlen bytes = symbol_length (geometry (e_plan e)) /\ esi < symbol_count (geometry (e_plan e)) /\
    (esi < sent \/ source_count (geometry (e_plan e)) <= esi).
Proof.
  intros Hr Hg. destruct (credit r) as [c|] eqn:Hc; [|left; unfold symbol; rewrite Hc; by eexists].
  destruct (map_get id (epochs r)) as [e|] eqn:He; [|left; unfold symbol; rewrite Hc, He; by eexists].
  pose proof (eo_plan _ _ _ _ (ro_epochs _ _ _ Hr _ _ He)) as Hp.
  unfold symbol, admit_symbol, holds. rewrite Hc, He.
  destruct (Z.eqb_spec (zlen bytes) (symbol_length (geometry (e_plan e)))); simpl; [|left; by eexists].
  destruct (Z.leb_spec (symbol_count (geometry (e_plan e))) esi); [left; by eexists|].
  destruct (Z.ltb_spec generation (generation_count (e_plan e))) as [Hlt|]; simpl; [|left; by eexists].
  destruct (sent_source_count_spec _ Hp generation (conj Hg Hlt)) as (sent & bs & _ & Hsent & Hs & _).
  rewrite Hsent. cbn [mbind option_bind].
  destruct (Z.ltb_spec esi (source_count (geometry (e_plan e)))), (Z.leb_spec sent esi); simpl;
    [left; by eexists|right..]; exists c, e, sent; split_and!; done || lia.
Qed.

(** What a call to [symbol] may return. *)
Definition symbol_result (truth : truth_relation) (r : Receiver) (id generation : Z) (out : Symbol)
    (r' : Receiver) : Prop :=
  match out with
  | Dropped _ => r' = r
  | Stored _ => decode_work_spent r' = decode_work_spent r
  | SymbolDecoded d => generation_retired r' id generation /\
      exists e, map_get id (epochs r) = Some e /\ decoded_ok truth (e_plan e) generation d
  | Abandoned generation' _ => generation' = generation /\ generation_retired r' id generation
  end.

(** Counters only grow inside the credit in force. *)
Definition within_credit (r r' : Receiver) : Prop :=
  match credit r' with
  | None => counters_le (counters r') (counters r)
  | Some c =>
      active_generations (counters r') <=
        Z.max (active_generations (counters r)) (max_active_generations c) /\
      unretired_bytes (counters r') <= Z.max (unretired_bytes (counters r)) (max_unretired_bytes c)
  end.

Lemma within_credit_le r r' : counters_le (counters r') (counters r) -> within_credit r r'.
Proof. intros [? ?]. unfold within_credit. destruct (credit r'); [lia|done]. Qed.

Lemma within_credit_refl r : within_credit r r.
Proof. apply within_credit_le. split; lia. Qed.

(** ** Sequences of calls *)

Inductive call :=
| CallCredit (c : Credit)
| CallOpen (p : EpochPlan)
| CallSymbol (id generation esi : Z) (bytes : list Z)
| CallReport (id generation : Z)
| CallAbandon (id generation : Z)
| CallClose (id : Z).

Inductive reply :=
| ReplyBool (b : bool)
| ReplyOpen (o : result Open Error)
| ReplySymbol (s : Symbol)
| ReplyReport (o : option Report).

Definition step `{V : VectorUnit} (r : Receiver) (c : call) : option (reply * Receiver) :=
  match c with
  | CallCredit c => let '(b, r) := install_credit r c in Some (ReplyBool b, r)
  | CallOpen p => let '(o, r) := open r p in Some (ReplyOpen o, r)
  | CallSymbol id generation esi bytes =>
      out ← symbol r id generation esi bytes; Some (ReplySymbol out.1, out.2)
  | CallReport id generation => out ← report r id generation; Some (ReplyReport out.1, out.2)
  | CallAbandon id generation => out ← abandon r id generation; Some (ReplyBool out.1, out.2)
  | CallClose id => out ← close r id; Some (ReplyBool out.1, out.2)
  end.

(** The calls in order, each with its reply. *)
Fixpoint run `{V : VectorUnit} (r : Receiver) (calls : list call) : option (list reply * Receiver) :=
  match calls with
  | [] => Some ([], r)
  | c :: rest =>
      out ← step r c;
      outs ← run out.2 rest;
      Some (out.1 :: outs.1, outs.2)
  end.

(** Arguments of their types: a plan [EpochPlan::new] made, bytes and a [u8] ESI. *)
Definition call_wf (c : call) : Prop :=
  match c with
  | CallOpen p => plan_valid p
  | CallSymbol id generation esi bytes => 0 <= generation /\ is_u8 esi /\ byte_list bytes
  | _ => True
  end.

Definition call_honest (truth : truth_relation) (c : call) : Prop :=
  match c with
  | CallOpen p => opened truth p
  | CallSymbol id generation esi bytes => forall p, epoch p = id -> honest truth p generation esi bytes
  | _ => True
  end.

Definition reply_ok (truth : truth_relation) (c : call) (out : reply) : Prop :=
  match c, out with
  | CallSymbol id generation _ _, ReplySymbol (SymbolDecoded d) =>
      exists p, epoch p = id /\ opened truth p /\ decoded_ok truth p generation d
  | _, _ => True
  end.

Lemma retire_many m levels bytes :
  0 <= bytes -> Z.of_nat m <= active_generations levels -> Z.of_nat m * bytes <= unretired_bytes levels ->
  Nat.iter m (fun levels => levels ← levels; retire levels bytes) (Some levels) =
    Some (mkCounters (active_generations levels - Z.of_nat m) (unretired_bytes levels - Z.of_nat m * bytes)).
Proof.
  intros Hb. induction m as [|m IH]; intros Ha Hu.
  - simpl. destruct levels as [a u]. simpl. do 2 f_equal; lia.
  - rewrite Nat.iter_succ, IH by lia. cbn [mbind option_bind]. unfold retire. simpl.
    destruct (Z.ltb_spec (active_generations levels - Z.of_nat m) 1); [lia|].
    destruct (Z.ltb_spec (unretired_bytes levels - Z.of_nat m * bytes) bytes); [nia|]. simpl.
    do 2 f_equal; lia.
Qed.

Section steps.
Context `{VOk : VectorUnitOk}.
Context (truth : truth_relation).
Context (Htruth : forall p generation source sent, truth p generation source ->
  sent_source_count p generation = Some sent ->
  source_valid (geometry p) source /\ zero_tail (geometry p) sent source).
Context (n : Z) (Hn : 0 <= n < u64_max) (r : Receiver) (Hr : receiver_ok truth n r).

Lemma symbol_in_slot_step c id e generation sent esi bytes slot levels first :
  map_get id (epochs r) = Some e -> 0 <= generation < generation_count (e_plan e) ->
  sent_source_count (e_plan e) generation = Some sent -> done_bit (done_words e) generation = false ->
  0 <= esi < symbol_count (geometry (e_plan e)) ->
  (esi < sent \/ source_count (geometry (e_plan e)) <= esi) ->
  symbol_valid (geometry (e_plan e)) bytes -> honest truth (e_plan e) generation esi bytes ->
  charged r e generation levels -> slot_ok (e_plan e) sent slot ->
  0 <= g_sequence slot <= n -> g_received slot < source_count (geometry (e_plan e)) ->
  (forall source, truth (e_plan e) generation source -> slot_from (geometry (e_plan e)) source slot) ->
  has slot esi = false ->
  exists out r', symbol_in_slot r c id e generation sent esi bytes slot levels first = Some (out, r') /\
    receiver_ok truth n r' /\ credit r' = credit r /\ counters_le (counters r') levels /\
    symbol_result truth r id generation out r'.
Proof using VOk Htruth Hn Hr.
  intros He Hgen Hsent Hdone Hesi Hs Hb Hh Hch Hslot Hseq Hrec Hfrom Hnew.
  destruct (symbol_in_slot_spec truth Htruth n ltac:(lia) r Hr c id e He generation sent Hgen Hsent
    esi bytes slot levels first) as (slot' & out & r' & _ & Hrec' & _ & Heq & Hok & Hcr & Hle & Hres); try done.
  exists out, r'. split_and!; try done. destruct (g_received slot + 1 <? _); [by destruct Hres as (-> & ? & _)|].
  destruct Hres as [Hcomp Hret]. unfold completed in Hcomp.
  destruct (negb _ && _); [by destruct Hcomp as [-> _]|]. destruct Hcomp as [(d & -> & Hd) _]. simpl. eauto.
Qed.

Lemma symbol_step id generation esi bytes :
  0 <= generation -> is_u8 esi -> byte_list bytes ->
  (forall p, epoch p = id -> honest truth p generation esi bytes) ->
  exists out r', symbol r id generation esi bytes = Some (out, r') /\ receiver_ok truth n r' /\
    within_credit r r' /\ symbol_result truth r id generation out r'.
Proof using VOk Htruth Hn Hr.
  intros Hg Hesi Hb Hh.
  destruct (symbol_guards truth n r id generation esi bytes Hr Hg)
    as [[d Hd]|(c & e & sent & Hc & He & Hgen & Hsent & Hl & Hlt & Hs)].
  { eexists _, _. split; [exact Hd|]. split_and!; [done|apply within_credit_refl|done]. }
  rewrite (symbol_past_guards truth n r c id e generation sent esi bytes) by done.
  pose proof (ro_epochs _ _ _ Hr _ _ He) as [Hid Hplan Hop Hw Hsrt Hlive].
  destruct (done_bit (done_words e) generation) eqn:Hdone.
  { eexists _, _. split; [done|]. split_and!; [done|apply within_credit_refl|done]. }
  destruct (sent_source_count_spec _ Hplan generation Hgen) as (sent' & _ & _ & Hsent' & Hsb & _).
  rewrite Hsent in Hsent'. injection Hsent' as <-.
  assert (0 <= esi) as H0 by mlia. pose proof (Hh _ (eq_sym Hid)) as Hhe.
  pose proof (fun slot levels first => symbol_in_slot_step c id e generation sent esi bytes slot levels first
    He Hgen Hsent Hdone (conj H0 Hlt) Hs (conj Hl Hb) Hhe) as Hin.
  destruct (map_get generation (live e)) as [slot|] eqn:Hslot.
  - destruct (Hlive _ _ Hslot) as [_ _ Hseq (sent' & Hsent' & Hso) Hrec Hfrom].
    rewrite Hsent in Hsent'. injection Hsent' as <-. destruct (has slot esi) eqn:Hhas.
    { eexists _, _. split; [done|]. split_and!; [done|apply within_credit_refl|done]. }
    destruct (Hin slot (counters r) false) as (out & r' & H1 & H2 & H3 & H4 & H5); try done.
    { by eapply charged_live. }
    exists out, r'. split_and!; try done. by apply within_credit_le.
  - pose proof (counters_admit_spec truth n r id e generation c Hr He Hslot) as Hadm.
    destruct (counters_admit _ _ _) as [levels|].
    + destruct Hadm as (Hch & Hma & Hmb).
      destruct (Hin (fresh_slot (geometry (e_plan e)) sent) levels true) as (out & r' & H1 & H2 & H3 & H4 & H5);
        try done; simpl; try lia.
      * by apply fresh_slot_ok.
      * intros source Ht. split; [|set_solver]. intros j Hj. by rewrite fresh_slot_has by lia.
      * exists out, r'. split_and!; try done. unfold within_credit. rewrite H3, Hc.
        destruct H4. lia.
    + eexists _, _. split; [done|]. split_and!; [done|apply within_credit_refl|done].
Qed.

Lemma report_step id generation :
  exists out r', report r id generation = Some (out, r') /\ receiver_ok truth (n + 1) r' /\ within_credit r r'.
Proof using Hn Hr.
  assert (receiver_ok truth (n + 1) r) as Hr1 by (apply (receiver_ok_mono truth n); [lia|done]).
  unfold report. destruct (map_get id (epochs r)) as [e|] eqn:He; [|eauto using within_credit_refl].
  destruct (map_get generation (live e)) as [slot|] eqn:Hslot; [|eauto using within_credit_refl].
  pose proof (ro_epochs _ _ _ Hr _ _ He) as Hok. pose proof (eo_plan _ _ _ _ Hok) as Hp.
  destruct (eo_live _ _ _ _ Hok _ _ Hslot) as [Hgen Hd Hseq (sent & Hsent & Hso) Hrec Hfrom].
  rewrite (report_of_spec _ generation sent) by (done || lia). cbn [mbind option_bind fst snd].
  eexists _, _. split; [done|]. split; [|apply within_credit_le; simpl; unfold counters_le; lia].
  apply (store_generation truth (n + 1) r id e); try done; [by eapply charged_live|apply Hr|].
  split; simpl; try done; [lia|]. exists sent. split; [done|]. destruct Hso. split; done.
Qed.

Lemma abandon_step id generation :
  exists out r', abandon r id generation = Some (out, r') /\ receiver_ok truth n r' /\ within_credit r r'.
Proof using Hn Hr.
  unfold abandon. destruct (map_get id (epochs r)) as [e|] eqn:He; [|eauto using within_credit_refl].
  destruct (map_get generation (live e)) as [slot|] eqn:Hslot; [|eauto using within_credit_refl].
  pose proof (ro_epochs _ _ _ Hr _ _ He) as Hok.
  destruct (retire_generation truth n r id e generation (counters r) (decode_work_spent r) Hr He)
    as (words & levels' & Hm & Hre & _ & Hle & Hok'); [|by eapply charged_live|apply Hr|].
  { by apply (eo_live _ _ _ _ Hok _ _ Hslot). }
  rewrite Hm. cbn [mbind option_bind e_plan]. rewrite Hre. cbn [mbind option_bind].
  eexists _, _. split; [done|]. split; [done|]. by apply within_credit_le.
Qed.

Lemma close_step id :
  exists out r', close r id = Some (out, r') /\ receiver_ok truth n r' /\ within_credit r r'.
Proof using Hn Hr.
  unfold close. destruct (map_get id (epochs r)) as [e|] eqn:He; [|eauto using within_credit_refl].
  pose proof (generation_bytes_pos _ (eo_plan _ _ _ _ (ro_epochs _ _ _ Hr _ _ He))) as Hpos.
  destruct (epoch_weights_le _ _ _ Hr _ _ He) as [Ha Hb]. unfold epoch_active, epoch_bytes, zlen in Ha, Hb.
  rewrite retire_many by lia. cbn [mbind option_bind]. eexists _, _. split; [done|].
  destruct Hr as [Hs Hep Hra Hrb Hu Hsp]. split; [split; simpl; try done|].
  - by apply map_remove_sorted.
  - intros id' e'. rewrite map_get_remove. destruct (id' =? id); [done|]. apply Hep.
  - rewrite (map_total_remove _ _ _ _ Hs He). unfold epoch_active at 2, zlen. lia.
  - rewrite (map_total_remove _ _ _ _ Hs He). unfold epoch_bytes at 2, zlen. lia.
  - nia.
  - apply within_credit_le. unfold counters_le. simpl. nia.
Qed.

Lemma open_step p : plan_valid p -> opened truth p ->
  receiver_ok truth n (snd (open r p)) /\ within_credit r (snd (open r p)).
Proof using Hn Hr.
  intros Hp Ho. unfold open. destruct (map_get (epoch p) (epochs r)) as [e|] eqn:He.
  { simpl. eauto using within_credit_refl. }
  destruct (credit r) as [c|] eqn:Hc; [|simpl; eauto using within_credit_refl].
  destruct (_ || _); [simpl; eauto using within_credit_refl|]. simpl.
  destruct Hr as [Hs Hep Hra Hrb Hu Hsp].
  split; [split; simpl; try done|apply within_credit_le; unfold counters_le; simpl; lia].
  - by apply map_insert_sorted.
  - intros id e. rewrite map_get_insert. destruct (Z.eqb_spec id (epoch p)) as [->|]; [|by apply Hep].
    intros [= <-]. split; simpl; try done; [|constructor]. unfold zlen. rewrite length_replicate.
    pose proof (div_ceil_spec (generation_count p) 64 ltac:(lia)).
    pose proof (div_ceil_spec (plan_length p) (generation_bytes p) (generation_bytes_pos p Hp)) as Hd.
    fold (generation_count p) in Hd. pose proof (pv_length _ Hp). pose proof (generation_bytes_pos p Hp).
    assert (0 < generation_count p) by nia. lia.
  - rewrite map_total_insert_new by done. unfold epoch_active at 2, zlen. simpl. lia.
  - rewrite map_total_insert_new by done. unfold epoch_bytes at 2, zlen. simpl. lia.
Qed.

Lemma install_credit_step c :
  receiver_ok truth n (snd (install_credit r c)) /\ within_credit r (snd (install_credit r c)).
Proof using Hn Hr.
  assert (receiver_ok truth n (mkReceiver (Some c) 0 (epochs r) (counters r))) as H.
  { destruct Hr. split; simpl; try done; mlia. }
  unfold install_credit. destruct (match credit r with Some held => _ | None => false end); simpl.
  - eauto using within_credit_refl.
  - split; [done|]. apply within_credit_le. unfold counters_le. simpl. lia.
Qed.

Lemma step_ok c :
  call_wf c -> call_honest truth c ->
  exists out r', step r c = Some (out, r') /\ receiver_ok truth (n + 1) r' /\ within_credit r r' /\
    reply_ok truth c out.
Proof using VOk Htruth Hn Hr.
  intros Hwf Hh. assert (forall r', receiver_ok truth n r' -> receiver_ok truth (n + 1) r') as Hup
    by (intros r' H; apply (receiver_ok_mono truth n); [lia|done]).
  destruct c as [c|p|id generation esi bytes|id generation|id generation|id]; simpl in *.
  - destruct (install_credit_step c) as [H1 H2]. destruct (install_credit r c) as [b r']. simpl in *. eauto 10.
  - destruct (open_step p Hwf Hh) as [H1 H2]. destruct (open r p) as [b r']. simpl in *. eauto 10.
  - destruct Hwf as (Hg & He & Hb).
    destruct (symbol_step id generation esi bytes Hg He Hb Hh) as (out & r' & -> & H1 & H2 & H3).
    cbn [mbind option_bind fst snd]. eexists _, _. split; [done|]. split_and!; [by apply Hup|done|].
    destruct out; try done. destruct H3 as [_ (e & Hget & Hd)]. exists (e_plan e).
    destruct (ro_epochs _ _ _ Hr _ _ Hget). done.
  - destruct (report_step id generation) as (out & r' & -> & H1 & H2). cbn [mbind option_bind fst snd]. eauto 10.
  - destruct (abandon_step id generation) as (out & r' & -> & H1 & H2). cbn [mbind option_bind fst snd]. eauto 10.
  - destruct (close_step id) as (out & r' & -> & H1 & H2). cbn [mbind option_bind fst snd]. eauto 10.
Qed.
End steps.

(** ** Traces *)

Lemma run_ok `{VOk : VectorUnitOk} (truth : truth_relation) :
  (forall p generation source sent, truth p generation source ->
    sent_source_count p generation = Some sent ->
    source_valid (geometry p) source /\ zero_tail (geometry p) sent source) ->
  forall calls n r, 0 <= n -> n + zlen calls <= u64_max -> receiver_ok truth n r ->
    Forall call_wf calls -> Forall (call_honest truth) calls ->
    exists outs r', run r calls = Some (outs, r') /\ receiver_ok truth (n + zlen calls) r' /\
      Forall2 (reply_ok truth) calls outs.
Proof.
  intros Htruth. induction calls as [|c calls IH]; intros n r Hn Hlen Hr Hwf Hh.
  { exists [], r. replace (n + zlen []) with n by (unfold zlen; simpl; lia). done. }
  apply Forall_cons in Hwf as [Hwf Hwfs]. apply Forall_cons in Hh as [Hh Hhs].
  rewrite zlen_cons in *. pose proof (zlen_nonneg calls).
  destruct (step_ok truth Htruth n ltac:(lia) r Hr c Hwf Hh) as (out & r1 & Hs & Hr1 & _ & Ho).
  destruct (IH (n + 1) r1) as (outs & r2 & Hrun & Hr2 & Hos); try done; try lia.
  exists (out :: outs), r2. simpl. rewrite Hs. cbn [mbind option_bind snd]. rewrite Hrun. cbn [mbind option_bind fst snd].
  split_and!; [done| |by constructor]. by replace (n + (1 + zlen calls)) with (n + 1 + zlen calls) by lia.
Qed.

(** Nothing is known of the other end. *)
Definition no_truth : truth_relation := mkTruth (fun _ => True) (fun _ _ _ => False).

Lemma no_truth_honest calls : Forall (call_honest no_truth) calls.
Proof. apply Forall_forall. intros c _. destruct c; simpl; try done. Qed.

(** Only [CallCredit] changes the credit in force. *)
Lemma symbol_credit `{V : VectorUnit} r id generation esi bytes out r' :
  symbol r id generation esi bytes = Some (out, r') -> credit r' = credit r.
Proof.
  unfold symbol, symbol_in_slot, complete_slot, mbind, option_bind. intros H.
  repeat case_match; simplify_eq; done.
Qed.

Lemma step_credit `{V : VectorUnit} r c out r' :
  step r c = Some (out, r') -> credit r' = credit r \/ exists c', c = CallCredit c' /\ credit r' = Some c'.
Proof.
  destruct c as [c|p|id generation esi bytes|id generation|id generation|id]; simpl.
  - unfold install_credit. intros H. repeat case_match; simplify_eq; simpl; eauto.
  - unfold open. intros H. repeat case_match; simplify_eq; simpl; eauto.
  - destruct (symbol r id generation esi bytes) as [[o r1]|] eqn:Hs; [|done].
    cbn [mbind option_bind snd]. intros [= _ <-]. left. by eapply symbol_credit.
  - unfold report, mbind, option_bind. intros H. repeat case_match; simplify_eq; simpl; eauto.
  - unfold abandon, mbind, option_bind. intros H. repeat case_match; simplify_eq; simpl; eauto.
  - unfold close, mbind, option_bind. intros H. repeat case_match; simplify_eq; simpl; eauto.
Qed.

(** Every credit granted stays inside the two caps. *)
Definition credit_within (a b : Z) (c : Credit) : Prop :=
  max_active_generations c <= a /\ max_unretired_bytes c <= b.

Lemma run_within `{VOk : VectorUnitOk} a b calls : forall n r r' outs,
  0 <= n -> n + zlen calls <= u64_max -> receiver_ok no_truth n r -> Forall call_wf calls ->
  (forall c, CallCredit c ∈ calls -> credit_within a b c) ->
  (forall c, credit r = Some c -> credit_within a b c) ->
  active_generations (counters r) <= a -> unretired_bytes (counters r) <= b ->
  run r calls = Some (outs, r') ->
  active_generations (counters r') <= a /\ unretired_bytes (counters r') <= b.
Proof.
  induction calls as [|c calls IH]; intros n r r' outs Hn Hlen Hr Hwf Hcs Hc Ha Hb Hrun; [by injection Hrun as _ <-|].
  apply Forall_cons in Hwf as [Hwf Hwfs]. rewrite zlen_cons in *. pose proof (zlen_nonneg calls).
  destruct (step_ok no_truth ltac:(done) n ltac:(lia) r Hr c Hwf) as (out & r1 & Hs & Hr1 & Hin & _).
  { pose proof (no_truth_honest [c]) as H'. by apply Forall_cons in H' as [? _]. }
  simpl in Hrun. rewrite Hs in Hrun. cbn [mbind option_bind snd] in Hrun.
  destruct (run r1 calls) as [[os r2]|] eqn:Hr2; [|done]. injection Hrun as _ <-.
  assert (forall c, credit r1 = Some c -> credit_within a b c) as Hc1.
  { intros c1 Hc1. destruct (step_credit r c out r1 Hs) as [Heq|(c' & -> & Heq)]; rewrite Heq in Hc1; [by apply Hc|].
    injection Hc1 as <-. apply Hcs. set_solver. }
  apply (IH (n + 1) r1 r2 os); try done; try lia.
  - intros c' Hc'. apply Hcs. set_solver.
  - unfold within_credit in Hin. destruct (credit r1) as [c1|] eqn:E; [|unfold counters_le in Hin; lia].
    destruct (Hc1 c1 eq_refl). lia.
  - unfold within_credit in Hin. destruct (credit r1) as [c1|] eqn:E; [|unfold counters_le in Hin; lia].
    destruct (Hc1 c1 eq_refl). lia.
Qed.

(** ** Properties *)

(** C4: the receiver never panics and its books are exact.  Any sequence of
    calls, with symbols, plans and credits of any content in any order, returns
    a reply for each call; afterwards the two levels are exactly the live
    generations and their bytes, within [u64], and every live generation is in
    range, not marked done, short of [k] symbols, and has its received count
    equal to its zero sources, held sources and repair symbols. *)
Theorem receiver_never_panics `{VOk : VectorUnitOk} calls :
  Forall call_wf calls -> zlen calls <= u64_max ->
  exists outs r, run receiver_new calls = Some (outs, r) /\ length outs = length calls /\
    active_generations (counters r) = map_total epoch_active (epochs r) /\
    unretired_bytes (counters r) = map_total epoch_bytes (epochs r) /\
    unretired_bytes (counters r) <= u64_max /\
    forall id e generation slot, map_get id (epochs r) = Some e -> map_get generation (live e) = Some slot ->
      0 <= generation < generation_count (e_plan e) /\ is_done e generation = Some false /\
      g_received slot < source_count (geometry (e_plan e)) /\
      exists sent, sent_source_count (e_plan e) generation = Some sent /\
        g_received slot = source_count (geometry (e_plan e)) - sent +
          zlen (List.filter (has slot) (seqZ 0 sent)) + zlen (repairs slot).
Proof.
  intros Hwf Hlen.
  destruct (run_ok no_truth ltac:(done) calls 0 receiver_new ltac:(lia) ltac:(lia)
    (receiver_new_ok no_truth) Hwf (no_truth_honest calls)) as (outs & r & Hrun & Hr & Hos).
  exists outs, r. split_and!; [done|by symmetry; eapply Forall2_length|by apply Hr..|].
  intros id e generation slot He Hs. destruct (ro_epochs _ _ _ Hr _ _ He) as [? ? ? Hw ? Hl].
  destruct (Hl _ _ Hs) as [Hg Hd ? (sent & Hsent & Hso) ? ?]. split_and!; try lia.
  - by rewrite is_done_spec, Hd.
  - exists sent. split; [done|]. by destruct Hso.
Qed.

(** credit bounds what is live.  When every credit the receiver is ever
    given allows at most [a] generations and [b] bytes, no sequence of calls
    takes the live generations past [a] or their bytes past [b]. *)
Theorem credit_bounds_levels `{VOk : VectorUnitOk} a b calls outs r :
  0 <= a -> 0 <= b -> Forall call_wf calls -> zlen calls <= u64_max ->
  (forall c, CallCredit c ∈ calls -> credit_within a b c) ->
  run receiver_new calls = Some (outs, r) ->
  map_total epoch_active (epochs r) <= a /\ map_total epoch_bytes (epochs r) <= b.
Proof.
  intros Ha Hb Hwf Hlen Hcs Hrun.
  destruct (run_ok no_truth ltac:(done) calls 0 receiver_new ltac:(lia) ltac:(lia)
    (receiver_new_ok no_truth) Hwf (no_truth_honest calls)) as (outs' & r' & Hrun' & Hr & _).
  rewrite Hrun in Hrun'. injection Hrun' as <- <-.
  rewrite <- (ro_active _ _ _ Hr), <- (ro_bytes _ _ _ Hr).
  by apply (run_within a b calls 0 receiver_new r outs ltac:(lia) ltac:(lia) (receiver_new_ok no_truth)).
Qed.

Definition demo_credit : Credit := mkCredit 1 100 2 100 1.
Definition demo_plan : EpochPlan := mkEpochPlan 7 100 50 demo_geometry.
Definition demo_calls : list call :=
  [CallCredit demo_credit; CallOpen demo_plan; CallSymbol 7 0 0 [1; 2; 3; 4]; CallReport 7 0;
   CallSymbol 7 0 4 [9; 9; 9; 9]; CallSymbol 7 1 1 [5; 6; 7; 8]; CallSymbol 7 0 1 [5; 6; 7; 8];
   CallSymbol 7 0 2 [5; 6; 7; 8]; CallAbandon 7 1].

Lemma demo_plan_valid : plan_valid demo_plan.
Proof. split; [exact demo_geometry_valid|vm_compute; congruence..]. Qed.

Lemma demo_calls_wf : Forall call_wf demo_calls.
Proof.
  repeat constructor; simpl; try exact demo_plan_valid; try (vm_compute; congruence); unfold is_u8, u8_max; try lia;
    repeat constructor; unfold is_u8, u8_max; lia.
Qed.

Lemma receiver_never_panics_witness :
  exists outs r, run (V := reference_unit) receiver_new demo_calls = Some (outs, r) /\ length outs = 9%nat.
Proof.
  destruct (receiver_never_panics (V := reference_unit) (VOk := reference_unit_ok) demo_calls demo_calls_wf) as (outs & r & Hrun & Hl & _).
  - vm_compute. congruence.
  - exists outs, r. split; [exact Hrun|exact Hl].
Defined.

Lemma credit_bounds_levels_witness :
  exists outs r, run (V := reference_unit) receiver_new (take 6 demo_calls) = Some (outs, r) /\
    map_total epoch_active (epochs r) <= 2 /\ map_total epoch_bytes (epochs r) <= 100.
Proof.
  destruct (run (V := reference_unit) receiver_new (take 6 demo_calls)) as [[outs r]|] eqn:E;
    [|vm_compute in E; discriminate E].
  exists outs, r. split; [reflexivity|].
  apply (credit_bounds_levels (V := reference_unit) (VOk := reference_unit_ok) 2 100 (take 6 demo_calls) outs r).
  - lia.
  - lia.
  - apply Forall_take, demo_calls_wf.
  - vm_compute. congruence.
  - intros c Hc. assert (c = demo_credit) as -> by set_solver. split; vm_compute; congruence.
  - exact E.
Defined.
