(* ===== verification/FecSender.v ===== *)
(** * The sending end of datagram FEC (vot-fec, sender.rs)

    [encode_generation] turns a generation's bytes into the symbols that go on
    the wire.  [Sender] keeps the credit seen, the open epochs with the
    generations begun in each, and the two levels credit caps.  [None] stands
    for a panic, here also a counter that would leave [u64].

    The theorems show that encoding never fails on a generation's bytes and
    yields exactly its symbols, and that for any sequence of calls the levels
    are exactly the generations begun and not yet done, credit bounds them, and
    no epoch identifier is ever used twice. *)

From S2P Require Import Prelude BTree Gf FecLinear Fec FecPlan FecReceiver.

Section encode_generation.
Context `{V : VectorUnit}.

(** One padded source symbol. *)
Definition source_symbol (plan : EpochPlan) (generation : Z) (bytes : list Z) (j : Z) : option (list Z) :=
  let symbol := replicate (Z.to_nat (symbol_length (geometry plan))) 0 in
  span ← source_span plan generation j;
  match span with
  | Zero => Some symbol
  | Bytes offset n =>
      whole ← generation_span plan generation;
      let start := offset - whole.1 in
      if start <? 0 then None else
      part ← get_range bytes start (start + n);
      copy_from_slice symbol 0 n part
  end.

Definition encode_generation (plan : EpochPlan) (generation : Z) (bytes : list Z) :
    option (result (list (Z * list Z)) Error) :=
  if negb (holds plan generation) then Some (Err InvalidGeometry) else
  whole ← generation_span plan generation;
  if negb (zlen bytes =? whole.2) then Some (Err InvalidSymbol) else
  sent ← sent_source_count plan generation;
  let g := geometry plan in
  sources ← mapM (source_symbol plan generation bytes) (seqZ 0 (source_count g));
  coded ← encode g sources;
  match coded with
  | Err e => Some (Err e)
  | Ok repair =>
      Some (Ok (zip (seqZ 0 sent) (ztake sent sources) ++
                zip (seqZ (source_count g) (zlen repair)) repair))
  end.
End encode_generation.

Inductive Done := DoneDecoded | DoneAbandoned.

#[export] Instance Done_eq_dec : EqDecision Done.
Proof. solve_decision. Defined.

Record State := mkState { st_sequence : Z; st_received : Z; st_missing_sources : list Z }.

Record SenderEpoch := mkSenderEpoch {
  s_plan : EpochPlan;
  generations : list (Z * option Done);
  sequences : list (Z * Z) }.

Record Sender := mkSender {
  s_credit : option Credit;
  s_epochs : list (Z * SenderEpoch);
  highest_epoch : option Z;
  s_active_generations : Z;
  s_unretired_bytes : Z }.

Definition sender_new : Sender := mkSender None [] None 0 0.

Definition with_epochs (self : Sender) (epochs : list (Z * SenderEpoch)) (active bytes : Z) : Sender :=
  mkSender (s_credit self) epochs (highest_epoch self) active bytes.

(** [Sender::credit]. *)
Definition sender_credit (self : Sender) (c : Credit) : bool * Sender :=
  if match s_credit self with Some held => credit_epoch c <=? credit_epoch held | None => false end
  then (false, self)
  else (true, mkSender (Some c) (s_epochs self) (highest_epoch self) (s_active_generations self)
                (s_unretired_bytes self)).

Definition may_open (self : Sender) : bool :=
  match s_credit self with Some c => zlen (s_epochs self) <? max_open_epochs c | None => false end.

Definition next_epoch (self : Sender) : option Z :=
  match highest_epoch self with
  | None => Some 0
  | Some used => if used + 1 <=? u32_max then Some (used + 1) else None
  end.

(** [Sender::open]. *)
Definition sender_open (self : Sender) (plan : EpochPlan) : result unit Error * Sender :=
  if match highest_epoch self with Some used => epoch plan <=? used | None => false end ||
     negb (may_open self)
  then (Err InvalidGeometry, self)
  else (Ok tt, mkSender (s_credit self)
                 (map_insert (epoch plan) (mkSenderEpoch plan [] []) (s_epochs self))
                 (Some (epoch plan)) (s_active_generations self) (s_unretired_bytes self)).

Definition may_begin (self : Sender) (id : Z) : bool :=
  match s_credit self with
  | None => false
  | Some c =>
      match map_get id (s_epochs self) with
      | None => false
      | Some state =>
          (s_active_generations self <? max_active_generations c) &&
          match checked_add (s_unretired_bytes self) (generation_bytes (s_plan state)) with
          | Some total => total <=? max_unretired_bytes c
          | None => false
          end
      end
  end.

Definition begin_generation (self : Sender) (id generation : Z) : option (result unit Error * Sender) :=
  if negb (may_begin self id) then Some (Err InvalidGeometry, self) else
  state ← map_get id (s_epochs self);
  if negb (holds (s_plan state) generation) ||
     match map_get generation (generations state) with Some _ => true | None => false end
  then Some (Err InvalidGeometry, self) else
  let bytes := generation_bytes (s_plan state) in
  let state := mkSenderEpoch (s_plan state) (map_insert generation None (generations state)) (sequences state) in
  active ← checked_add (s_active_generations self) 1;
  total ← checked_add (s_unretired_bytes self) bytes;
  Some (Ok tt, with_epochs self (map_insert id state (s_epochs self)) active total).

(** [Sender::state]. *)
Definition sender_state (self : Sender) (id generation : Z) (state : State) :
    option (result bool Error * Sender) :=
  match map_get id (s_epochs self) with
  | None => Some (Ok false, self)
  | Some known =>
      let plan := s_plan known in
      if negb (holds plan generation) then Some (Err InvalidSymbol, self) else
      sent ← sent_source_count plan generation;
      if (symbol_count (geometry plan) <? st_received state) ||
         existsb (fun esi => sent <=? esi) (st_missing_sources state)
      then Some (Err InvalidSymbol, self) else
      if negb (bool_decide (map_get generation (generations known) = Some None)) then Some (Ok false, self) else
      if match map_get generation (sequences known) with
         | Some held => st_sequence state <=? held | None => false end
      then Some (Ok false, self) else
      let known := mkSenderEpoch plan (generations known)
        (map_insert generation (st_sequence state) (sequences known)) in
      Some (Ok true, with_epochs self (map_insert id known (s_epochs self)) (s_active_generations self)
                       (s_unretired_bytes self))
  end.

Definition state_accepted (self : Sender) (id generation : Z) : bool :=
  match map_get id (s_epochs self) with
  | None => false
  | Some known =>
      bool_decide (map_get generation (generations known) = Some None) &&
      match map_get generation (sequences known) with Some _ => true | None => false end
  end.

(** A level taken down: [None] below zero. *)
Definition level_sub (level amount : Z) : option Z := if level <? amount then None else Some (level - amount).

(** [Sender::done]. *)
Definition sender_done (self : Sender) (id generation : Z) (done : Done) : option (result bool Error * Sender) :=
  match map_get id (s_epochs self) with
  | None => Some (Ok false, self)
  | Some state =>
      if negb (holds (s_plan state) generation) then Some (Err InvalidSymbol, self) else
      match map_get generation (generations state) with
      | Some None =>
          active ← level_sub (s_active_generations self) 1;
          bytes ← level_sub (s_unretired_bytes self) (generation_bytes (s_plan state));
          let state := mkSenderEpoch (s_plan state) (map_insert generation (Some done) (generations state))
            (sequences state) in
          Some (Ok true, with_epochs self (map_insert id state (s_epochs self)) active bytes)
      | Some (Some earlier) =>
          if bool_decide (earlier = done) then Some (Ok false, self) else Some (Err InvalidSymbol, self)
      | None => Some (Ok false, self)
      end
  end.

(** [generations.values().filter(|d| d.is_none()).count()]. *)
Definition live_count (generations : list (Z * option Done)) : Z :=
  zlen (List.filter (fun entry => match entry.2 with None => true | Some _ => false end) generations).

(** [Sender::close]. *)
Definition sender_close (self : Sender) (id : Z) : option (bool * Sender) :=
  match map_get id (s_epochs self) with
  | None => Some (false, self)
  | Some state =>
      let live := live_count (generations state) in
      active ← level_sub (s_active_generations self) live;
      bytes ← level_sub (s_unretired_bytes self) (live * generation_bytes (s_plan state));
      Some (true, with_epochs self (map_remove id (s_epochs self)) active bytes)
  end.

(** [Sender::refused]. *)
Definition sender_refused (self : Sender) (id : Z) : option (bool * Sender) := sender_close self id.

Definition outcome (self : Sender) (id generation : Z) : option (option Done) :=
  state ← map_get id (s_epochs self);
  map_get generation (generations state).

(** [Sender::plan]. *)
Definition sender_plan (self : Sender) (id : Z) : option EpochPlan :=
  state ← map_get id (s_epochs self); Some (s_plan state).

(** ** Encoding a generation *)

(** A generation's bytes padded to [k * L], and cut into symbols. *)
Definition padded (p : EpochPlan) (bytes : list Z) : list Z :=
  bytes ++ replicate (Z.to_nat (generation_bytes p) - length bytes) 0.

Definition padded_sources (p : EpochPlan) (bytes : list Z) : list (list Z) :=
  map (buffer_symbol (geometry p) (padded p bytes)) (seqZ 0 (source_count (geometry p))).

(** The symbols a sender puts on the wire. *)
Definition wire_symbol (p : EpochPlan) (sent : Z) (source : list (list Z)) (esi : Z) (symbol : list Z) : Prop :=
  (0 <= esi < sent /\ symbol = source_at source esi) \/
  (source_count (geometry p) <= esi < symbol_count (geometry p) /\ is_repair (geometry p) source esi symbol).

Section encoding.
Context `{VOk : VectorUnitOk}.
Context (p : EpochPlan) (Hp : plan_valid p) (generation : Z) (Hgen : 0 <= generation < generation_count p).
Context (bytes : list Z) (Hb : byte_list bytes).
Context (start : Z) (Hspan : generation_span p generation = Some (start, zlen bytes)).
Let g := geometry p.

Lemma bytes_bound : 0 < zlen bytes <= generation_bytes p.
Proof using Hp Hgen Hspan.
  destruct (generation_span_spec p Hp generation Hgen) as (n & Hs & _ & Hn & _).
  rewrite Hspan in Hs. injection Hs as _ <-. exact Hn.
Qed.

Lemma padded_valid : buffer_valid g (padded p bytes).
Proof using Hp Hgen Hb Hspan.
  pose proof bytes_bound as Hz. unfold buffer_valid, padded. fold g. split.
  - rewrite zlen_app. unfold zlen in *. rewrite length_replicate. unfold generation_bytes in *. fold g in Hz |- *. lia.
  - apply Forall_app. split; [done|]. apply byte_list_replicate, is_u8_0.
Qed.

Lemma padded_source_at j : 0 <= j < source_count g ->
  source_at (padded_sources p bytes) j = buffer_symbol g (padded p bytes) j.
Proof using.
  intros Hj. unfold source_at, padded_sources. fold g. rewrite nth_lookup.
  change (map ?f ?l) with (f <$> l). rewrite list_lookup_fmap.
  rewrite (proj2 (lookup_seqZ 0 (source_count g) (Z.to_nat j) j)) by lia. done.
Qed.

Lemma padded_sources_valid : source_valid g (padded_sources p bytes).
Proof using Hp Hgen Hb Hspan.
  destruct (pv_geometry _ Hp) as (Hk & _). split.
  - unfold zlen, padded_sources. rewrite length_map, length_seqZ. fold g in Hk |- *. lia.
  - apply Forall_map, Forall_forall. intros j Hj%elem_of_seqZ.
    apply buffer_symbol_in_range; [apply Hp|apply padded_valid|fold g in Hj |- *; lia].
Qed.

Lemma padded_sources_concat : concat (padded_sources p bytes) = padded p bytes.
Proof using Hp Hgen Hb Hspan.
  symmetry. apply (buffer_ext g (pv_geometry _ Hp)); [apply padded_valid|apply padded_sources_valid|].
  intros j Hj. by rewrite padded_source_at.
Qed.

(** The symbols past the last byte are zero. *)
Lemma padded_zero j : 0 <= j < source_count g -> zlen bytes <= j * symbol_length g ->
  buffer_symbol g (padded p bytes) j = replicate (Z.to_nat (symbol_length g)) 0.
Proof using Hp Hgen Hspan.
  intros Hj Hz. destruct (pv_geometry _ Hp) as (_ & _ & HL). fold g in HL. unfold zlen in Hz.
  pose proof bytes_bound as Hbb. unfold buffer_symbol, padded, slice, ztake, zdrop.
  rewrite drop_app_ge by lia. rewrite drop_replicate, take_replicate. f_equal.
  unfold generation_bytes, zlen in *. fold g in Hbb |- *.
  assert ((j + 1) * symbol_length g <= source_count g * symbol_length g) by nia. lia.
Qed.

(** Padding one symbol out of the generation's bytes. *)
Lemma padded_symbol j : 0 <= j < source_count g -> j * symbol_length g < zlen bytes ->
  let n := Z.min (zlen bytes - j * symbol_length g) (symbol_length g) in
  slice bytes (j * symbol_length g) (j * symbol_length g + n) ++
    zdrop n (replicate (Z.to_nat (symbol_length g)) 0) = buffer_symbol g (padded p bytes) j.
Proof using Hp Hgen Hspan.
  intros Hj Hz n. destruct (pv_geometry _ Hp) as (_ & _ & HL). fold g in HL.
  pose proof bytes_bound as Hbb. unfold buffer_symbol, padded.
  assert ((j + 1) * symbol_length g <= generation_bytes p) by (unfold generation_bytes; fold g; nia).
  set (s := j * symbol_length g) in *. assert (0 <= s) by (unfold s; nia). assert (0 < n) by lia.
  unfold slice, ztake, zdrop. unfold zlen in *.
  rewrite drop_app_le, drop_replicate by lia. rewrite take_app.
  rewrite take_replicate, length_drop. f_equal.
  - destruct (Z.le_gt_cases (zlen bytes - s) (symbol_length g)); unfold zlen in *.
    + rewrite !take_ge by (rewrite length_drop; lia). done.
    + f_equal. lia.
  - f_equal. lia.
Qed.

Lemma source_symbol_spec j : 0 <= j < source_count g ->
  source_symbol p generation bytes j = Some (buffer_symbol g (padded p bytes) j).
Proof using Hp Hgen Hb Hspan.
  intros Hj. destruct (pv_geometry _ Hp) as (_ & _ & HL). fold g in HL. unfold source_symbol, source_span. fold g.
  destruct (Z.ltb_spec j (source_count g)); [|lia]. rewrite Hspan. cbn [mbind option_bind].
  destruct (Z.leb_spec (zlen bytes) (j * symbol_length g)).
  { cbn [mbind option_bind]. by rewrite padded_zero. }
  cbn [mbind option_bind fst]. replace (start + j * symbol_length g - start) with (j * symbol_length g) by lia.
  destruct (Z.ltb_spec (j * symbol_length g) 0); [nia|].
  pose proof (padded_symbol j Hj ltac:(done)) as Hpad. cbv zeta in Hpad.
  set (n := Z.min (zlen bytes - j * symbol_length g) (symbol_length g)) in *. unfold get_range.
  destruct (Z.leb_spec (j * symbol_length g) (j * symbol_length g + n)); [|lia].
  destruct (Z.leb_spec (j * symbol_length g + n) (zlen bytes)); [|lia]. cbn [andb mbind option_bind].
  unfold copy_from_slice. rewrite zlen_slice by lia. unfold zlen at 1. rewrite length_replicate.
  destruct (Z.leb_spec (0 + n) (Z.of_nat (Z.to_nat (symbol_length g)))); [|lia].
  replace (j * symbol_length g + n - j * symbol_length g) with n by lia. rewrite Z.eqb_refl. cbn [andb].
  rewrite Z.add_0_l, Hpad. done.
Qed.

(** Encoding succeeds, and yields exactly the generation's wire symbols. *)
Lemma encode_generation_spec : exists sent out,
  sent_source_count p generation = Some sent /\ 0 < sent <= source_count g /\
  encode_generation p generation bytes = Some (Ok out) /\
  zero_tail g sent (padded_sources p bytes) /\
  map fst out = seqZ 0 sent ++ seqZ (source_count g) (repair_count g) /\
  forall esi symbol, (esi, symbol) ∈ out -> wire_symbol p sent (padded_sources p bytes) esi symbol.
Proof using VOk Hp Hgen Hb Hspan.
  destruct (sent_source_count_spec p Hp generation Hgen) as (sent & n & Hs & Hsent & Hb1 & Hb2).
  rewrite Hspan in Hs. injection Hs as _ <-. fold g in Hb1, Hb2. destruct (pv_geometry _ Hp) as (Hk & Hr & HL).
  fold g in Hk, Hr, HL.
  destruct (encode_spec g (pv_geometry _ Hp) _ padded_sources_valid) as (repair & Henc & Hrl & Hrep).
  eexists sent, _. split; [done|]. split; [lia|]. split.
  { unfold encode_generation, holds. destruct (Z.ltb_spec generation (generation_count p)); [|lia].
    rewrite Hspan. cbn [negb mbind option_bind snd]. rewrite Z.eqb_refl. cbn [negb]. rewrite Hsent.
    cbn [mbind option_bind]. fold g.
    rewrite (mapM_map _ (buffer_symbol g (padded p bytes)))
      by (intros j Hj%elem_of_seqZ; apply source_symbol_spec; lia).
    cbn [mbind option_bind]. change (map _ _) with (padded_sources p bytes). rewrite Henc.
    cbn [mbind option_bind]. reflexivity. }
  destruct padded_sources_valid as [Hlen _].
  assert (zlen (ztake sent (padded_sources p bytes)) = sent) as Ht by (apply zlen_ztake; lia).
  split_and!.
  - intros j Hj. rewrite padded_source_at by lia. apply padded_zero; [lia|nia].
  - change (map fst ?l) with (l.*1). rewrite fmap_app, !fst_zip; [by rewrite Hrl|..]; rewrite length_seqZ; unfold zlen in *; lia.
  - intros esi symbol. rewrite elem_of_app. intros [Hin|Hin].
    + left. apply elem_of_lookup_zip_with_1 in Hin as (i & x & y & [= -> ->] & Hx & Hy).
      apply lookup_seqZ in Hx as [-> Hi]. split; [lia|]. unfold ztake in Hy.
      rewrite lookup_take_lt in Hy by lia. unfold source_at. rewrite nth_lookup.
      replace (Z.to_nat (0 + Z.of_nat i)) with i by lia. by rewrite Hy.
    + right. apply elem_of_lookup_zip_with_1 in Hin as (i & x & y & [= -> ->] & Hx & Hy).
      apply lookup_seqZ in Hx as [-> Hi]. rewrite Hrl in Hi. unfold symbol_count. fold g. split; [lia|].
      specialize (Hrep (source_count g + Z.of_nat i) ltac:(unfold symbol_count; lia)).
      replace (Z.to_nat (source_count g + Z.of_nat i - source_count g)) with i in Hrep by lia.
      by rewrite nth_lookup, Hy in Hrep.
Qed.
End encoding.

(** ** The sender invariant *)

Definition is_live (d : option Done) : Z := match d with None => 1 | Some _ => 0 end.

Lemma live_count_total m : live_count m = map_total is_live m.
Proof.
  unfold live_count, map_total, zlen. induction m as [|[k [d|]] m IH]; simpl; [done|lia|]. lia.
Qed.

Definition sender_active (e : SenderEpoch) : Z := live_count (generations e).
Definition sender_bytes (e : SenderEpoch) : Z := live_count (generations e) * generation_bytes (s_plan e).

Record sender_epoch_ok (id : Z) (e : SenderEpoch) : Prop := {
  se_id : id = epoch (s_plan e);
  se_plan : plan_valid (s_plan e);
  se_sorted : map_sorted (generations e);
  se_range : forall generation d, map_get generation (generations e) = Some d ->
    generation < generation_count (s_plan e) }.

Record sender_ok (s : Sender) : Prop := {
  sk_sorted : map_sorted (s_epochs s);
  sk_epochs : forall id e, map_get id (s_epochs s) = Some e -> sender_epoch_ok id e;
  sk_highest : forall id e, map_get id (s_epochs s) = Some e ->
    exists used, highest_epoch s = Some used /\ id <= used;
  sk_active : s_active_generations s = map_total sender_active (s_epochs s);
  sk_bytes : s_unretired_bytes s = map_total sender_bytes (s_epochs s);
  sk_u64 : s_unretired_bytes s <= u64_max }.

Lemma sender_new_ok : sender_ok sender_new.
Proof. split; simpl; try done; mlia || constructor. Qed.

Lemma live_count_nonneg m : 0 <= live_count m.
Proof. apply zlen_nonneg. Qed.

Section sender_levels.
Context (s : Sender) (Hs : sender_ok s).

Lemma sender_weights x : x ∈ s_epochs s -> 0 <= sender_active x.2 <= sender_bytes x.2.
Proof using Hs.
  destruct x as [id e]. intros Hin. apply (map_get_Some _ _ _ (sk_sorted _ Hs)) in Hin.
  pose proof (generation_bytes_pos _ (se_plan _ _ (sk_epochs _ Hs _ _ Hin))).
  pose proof (live_count_nonneg (generations e)). unfold sender_active, sender_bytes. simpl. nia.
Qed.

Lemma sender_levels_le : 0 <= s_active_generations s <= s_unretired_bytes s.
Proof using Hs.
  rewrite (sk_active _ Hs), (sk_bytes _ Hs). split.
  - apply map_total_nonneg. intros x Hx. by apply sender_weights.
  - apply map_total_le. intros x Hx. by apply sender_weights.
Qed.

Lemma sender_weights_le id e : map_get id (s_epochs s) = Some e ->
  sender_active e <= s_active_generations s /\ sender_bytes e <= s_unretired_bytes s.
Proof using Hs.
  intros He. rewrite (sk_active _ Hs), (sk_bytes _ Hs).
  split; apply (map_total_get _ id); try done; try apply Hs; intros x Hx;
    pose proof (sender_weights x Hx); lia.
Qed.

(** Replacing one epoch's table, with the levels moved by the difference. *)
Lemma sender_ok_update id e gens seqs active bytes :
  map_get id (s_epochs s) = Some e -> map_sorted gens ->
  (forall generation d, map_get generation gens = Some d -> generation < generation_count (s_plan e)) ->
  active = s_active_generations s - live_count (generations e) + live_count gens ->
  bytes = s_unretired_bytes s - live_count (generations e) * generation_bytes (s_plan e) +
    live_count gens * generation_bytes (s_plan e) ->
  bytes <= u64_max ->
  sender_ok (with_epochs s (map_insert id (mkSenderEpoch (s_plan e) gens seqs) (s_epochs s)) active bytes).
Proof using Hs.
  intros He Hg Hr Ha Hb Hu. pose proof Hs as [Hso Hep Hhi Hsa Hsb Hsu].
  destruct (Hep _ _ He) as [Hid Hplan _ _]. split; simpl; try done.
  - by apply map_insert_sorted.
  - intros id' e'. rewrite map_get_insert. destruct (Z.eqb_spec id' id) as [->|]; [|by apply Hep].
    intros [= <-]. by split.
  - intros id' e'. rewrite map_get_insert. destruct (Z.eqb_spec id' id) as [->|]; [|by apply Hhi].
    intros _. by apply (Hhi id e).
  - rewrite (map_total_insert_old _ _ _ _ _ Hso He). unfold sender_active at 2 3. simpl. lia.
  - rewrite (map_total_insert_old _ _ _ _ _ Hso He). unfold sender_bytes at 2 3. simpl. lia.
Qed.
End sender_levels.

(** ** Sequences of calls *)

Inductive sender_call :=
| SendCredit (c : Credit)
| SendOpen (p : EpochPlan)
| SendBegin (id generation : Z)
| SendState (id generation : Z) (st : State)
| SendDone (id generation : Z) (d : Done)
| SendRefused (id : Z)
| SendClose (id : Z).

Inductive sender_reply :=
| SentBool (b : bool)
| SentUnit (o : result unit Error)
| SentResult (o : result bool Error).

Definition sender_step (s : Sender) (c : sender_call) : option (sender_reply * Sender) :=
  match c with
  | SendCredit c => let '(b, s) := sender_credit s c in Some (SentBool b, s)
  | SendOpen p => let '(o, s) := sender_open s p in Some (SentUnit o, s)
  | SendBegin id generation => out ← begin_generation s id generation; Some (SentUnit out.1, out.2)
  | SendState id generation st => out ← sender_state s id generation st; Some (SentResult out.1, out.2)
  | SendDone id generation d => out ← sender_done s id generation d; Some (SentResult out.1, out.2)
  | SendRefused id => out ← sender_refused s id; Some (SentBool out.1, out.2)
  | SendClose id => out ← sender_close s id; Some (SentBool out.1, out.2)
  end.

Fixpoint sender_run (s : Sender) (calls : list sender_call) : option (list sender_reply * Sender) :=
  match calls with
  | [] => Some ([], s)
  | c :: rest =>
      out ← sender_step s c;
      outs ← sender_run out.2 rest;
      Some (out.1 :: outs.1, outs.2)
  end.

Definition sender_call_wf (c : sender_call) : Prop :=
  match c with SendOpen p => plan_valid p | _ => True end.

(** How one call may move the outcome of any generation. *)
Definition lifecycle (s : Sender) (c : sender_call) (s' : Sender) : Prop := forall id generation,
  match outcome s id generation, outcome s' id generation with
  | None, None => True
  | None, Some d => d = None /\ c = SendBegin id generation
  | Some None, Some None => True
  | Some None, Some (Some d) => c = SendDone id generation d
  | Some (Some d), Some d' => d' = Some d
  | Some _, None => c = SendClose id \/ c = SendRefused id
  end.

Lemma lifecycle_same s c s' :
  (forall id generation, outcome s' id generation = outcome s id generation) -> lifecycle s c s'.
Proof. intros H id generation. rewrite H. by destruct (outcome s id generation) as [[|]|]. Qed.

(** The levels grow only inside the credit in force. *)
Definition sender_within (s s' : Sender) : Prop :=
  forall a b, (forall c, s_credit s' = Some c -> credit_within a b c) ->
    s_active_generations s <= a -> s_unretired_bytes s <= b ->
    s_active_generations s' <= a /\ s_unretired_bytes s' <= b.

Definition sender_step_ok (s : Sender) (c : sender_call) (s' : Sender) : Prop :=
  sender_ok s' /\ sender_within s s' /\ lifecycle s c s'.

Section sender_steps.
Context (s : Sender) (Hs : sender_ok s).

Lemma sender_unchanged c : sender_step_ok s c s.
Proof using Hs. split_and!; [done|by intros a b|by apply lifecycle_same]. Qed.

Lemma sender_credit_step c : sender_step_ok s (SendCredit c) (snd (sender_credit s c)).
Proof using Hs.
  assert (sender_step_ok s (SendCredit c) (mkSender (Some c) (s_epochs s) (highest_epoch s)
    (s_active_generations s) (s_unretired_bytes s))) as H.
  { split_and!; [by destruct Hs|by intros a b|by apply lifecycle_same]. }
  unfold sender_credit. destruct (match s_credit s with Some held => _ | None => false end); [|done].
  apply sender_unchanged.
Qed.

Lemma sender_open_step p : plan_valid p -> sender_step_ok s (SendOpen p) (snd (sender_open s p)).
Proof using Hs.
  intros Hp. unfold sender_open. destruct (match highest_epoch s with Some used => _ | None => _ end) eqn:Hused.
  { apply sender_unchanged. }
  destruct (may_open s); [|apply sender_unchanged]. simpl. pose proof Hs as [Hso Hep Hhi Hsa Hsb Hsu].
  assert (forall id e, map_get id (s_epochs s) = Some e -> id < epoch p) as Hlt.
  { intros id e He. destruct (Hhi id e He) as (used & Hu & Hle). rewrite Hu in Hused. apply Z.leb_gt in Hused. lia. }
  assert (map_get (epoch p) (s_epochs s) = None) as Hnew.
  { destruct (map_get (epoch p) (s_epochs s)) as [e|] eqn:E; [|done]. apply Hlt in E. lia. }
  split_and!; [split; simpl; try done|by intros a b|].
  - by apply map_insert_sorted.
  - intros id e. rewrite map_get_insert. destruct (Z.eqb_spec id (epoch p)) as [->|]; [|by apply Hep].
    intros [= <-]. split; simpl; try done. constructor.
  - intros id e. rewrite map_get_insert. intros H. exists (epoch p). split; [done|].
    destruct (Z.eqb_spec id (epoch p)) as [->|]; [lia|]. apply Hlt in H. lia.
  - rewrite map_total_insert_new by done. unfold sender_active at 2, live_count, zlen. simpl. lia.
  - rewrite map_total_insert_new by done. unfold sender_bytes at 2, live_count, zlen. simpl. lia.
  - apply lifecycle_same. intros id generation. unfold outcome. simpl. rewrite map_get_insert.
    destruct (Z.eqb_spec id (epoch p)) as [->|]; [|done]. by rewrite Hnew.
Qed.

Lemma outcome_update id e gens seqs active bytes id' generation :
  map_get id (s_epochs s) = Some e ->
  outcome (with_epochs s (map_insert id (mkSenderEpoch (s_plan e) gens seqs) (s_epochs s)) active bytes)
    id' generation = if id' =? id then map_get generation gens else outcome s id' generation.
Proof using.
  intros He. unfold outcome. simpl. rewrite map_get_insert. by destruct (Z.eqb_spec id' id).
Qed.

Lemma begin_step id generation : exists out s',
  begin_generation s id generation = Some (out, s') /\ sender_step_ok s (SendBegin id generation) s'.
Proof using Hs.
  unfold begin_generation, may_begin.
  destruct (s_credit s) as [c|] eqn:Hc; [|eauto using sender_unchanged].
  destruct (map_get id (s_epochs s)) as [e|] eqn:He; [|eauto using sender_unchanged].
  destruct (Z.ltb_spec (s_active_generations s) (max_active_generations c)); [|eauto using sender_unchanged].
  destruct (checked_add (s_unretired_bytes s) (generation_bytes (s_plan e))) as [total|] eqn:Ht;
    [|eauto using sender_unchanged].
  destruct (Z.leb_spec total (max_unretired_bytes c)); [|eauto using sender_unchanged].
  cbn [andb negb mbind option_bind]. unfold holds.
  destruct (Z.ltb_spec generation (generation_count (s_plan e))); [|eauto using sender_unchanged]. cbn [negb orb].
  destruct (map_get generation (generations e)) as [d|] eqn:Hd; [eauto using sender_unchanged|].
  pose proof (sk_epochs _ Hs _ _ He) as [Hid Hplan Hsrt Hrange]. pose proof (generation_bytes_pos _ Hplan).
  pose proof Ht as [-> Hu]%checked_add_Some. pose proof (sender_levels_le s Hs) as Hle.
  rewrite (proj2 (checked_add_Some (s_active_generations s) 1 (s_active_generations s + 1))) by lia.
  rewrite Ht. cbn [mbind option_bind]. eexists _, _. split; [done|].
  assert (live_count (map_insert generation None (generations e)) = live_count (generations e) + 1) as Hlc.
  { rewrite !live_count_total, map_total_insert_new by done. done. }
  split_and!.
  - apply sender_ok_update; try done; [by apply map_insert_sorted| |lia|lia].
    intros g' d'. rewrite map_get_insert. destruct (Z.eqb_spec g' generation) as [->|]; [done|apply Hrange].
  - intros a b Hab Ha Hb. simpl in *. destruct (Hab c Hc). lia.
  - intros id' g'. rewrite outcome_update by done. unfold outcome. destruct (Z.eqb_spec id' id) as [->|].
    + rewrite He. cbn [mbind option_bind]. rewrite map_get_insert.
      destruct (Z.eqb_spec g' generation) as [->|]; [by rewrite Hd|].
      by destruct (map_get g' (generations e)) as [[|]|].
    + by destruct (_ ← _; _) as [[|]|].
Qed.

Lemma state_step id generation st : exists out s',
  sender_state s id generation st = Some (out, s') /\ sender_step_ok s (SendState id generation st) s'.
Proof using Hs.
  unfold sender_state. destruct (map_get id (s_epochs s)) as [e|] eqn:He; [|eauto using sender_unchanged].
  destruct (holds (s_plan e) generation) eqn:Hh; [|eauto using sender_unchanged]. cbn [negb].
  assert (exists sent, sent_source_count (s_plan e) generation = Some sent) as [sent ->].
  { unfold sent_source_count, generation_span. rewrite Hh. by eexists. }
  cbn [mbind option_bind]. destruct (_ || _); [eauto using sender_unchanged|].
  destruct (negb _); [eauto using sender_unchanged|].
  destruct (match map_get generation (sequences e) with Some _ => _ | None => _ end); [eauto using sender_unchanged|].
  eexists _, _. split; [done|]. destruct (sk_epochs _ Hs _ _ He) as [Hid Hplan Hsrt Hrange]. split_and!.
  - apply sender_ok_update; try done; [lia|lia|apply Hs].
  - by intros a b.
  - apply lifecycle_same. intros id' g'. rewrite outcome_update by done. unfold outcome.
    destruct (Z.eqb_spec id' id) as [->|]; [by rewrite He|done].
Qed.

Lemma done_step id generation d : exists out s',
  sender_done s id generation d = Some (out, s') /\ sender_step_ok s (SendDone id generation d) s'.
Proof using Hs.
  unfold sender_done. destruct (map_get id (s_epochs s)) as [e|] eqn:He; [|eauto using sender_unchanged].
  destruct (holds (s_plan e) generation) eqn:Hh; [|eauto using sender_unchanged]. cbn [negb].
  destruct (map_get generation (generations e)) as [[earlier|]|] eqn:Hg; [|..|eauto using sender_unchanged].
  { destruct (bool_decide _); eauto using sender_unchanged. }
  destruct (sk_epochs _ Hs _ _ He) as [Hid Hplan Hsrt Hrange]. pose proof (generation_bytes_pos _ Hplan).
  destruct (sender_weights_le s Hs id e He) as [Ha Hb]. unfold sender_active, sender_bytes in Ha, Hb.
  assert (1 <= live_count (generations e)) as Hl1.
  { rewrite live_count_total. apply (map_total_get is_live generation None); try done.
    intros [k [x|]] _; simpl; lia. }
  assert (live_count (map_insert generation (Some d) (generations e)) = live_count (generations e) - 1) as Hlc.
  { rewrite !live_count_total, (map_total_insert_old _ _ _ _ _ Hsrt Hg). simpl. lia. }
  unfold level_sub. destruct (Z.ltb_spec (s_active_generations s) 1); [lia|]. cbn [mbind option_bind].
  destruct (Z.ltb_spec (s_unretired_bytes s) (generation_bytes (s_plan e))); [nia|]. cbn [mbind option_bind].
  eexists _, _. split; [done|]. pose proof (sk_u64 _ Hs). split_and!.
  - apply sender_ok_update; try done; [by apply map_insert_sorted| |lia|lia|lia].
    intros g' d'. rewrite map_get_insert. destruct (Z.eqb_spec g' generation) as [->|]; [|apply Hrange].
    intros _. by apply (Hrange _ _ Hg).
  - intros a b _ Ha' Hb'. simpl. lia.
  - intros id' g'. rewrite outcome_update by done. unfold outcome. destruct (Z.eqb_spec id' id) as [->|].
    + rewrite He. cbn [mbind option_bind]. rewrite map_get_insert.
      destruct (Z.eqb_spec g' generation) as [->|]; [by rewrite Hg|].
      by destruct (map_get g' (generations e)) as [[|]|].
    + by destruct (_ ← _; _) as [[|]|].
Qed.

Lemma sender_close_step c id : c = SendClose id \/ c = SendRefused id -> exists out s',
  sender_close s id = Some (out, s') /\ sender_step_ok s c s'.
Proof using Hs.
  intros Hc. unfold sender_close. destruct (map_get id (s_epochs s)) as [e|] eqn:He; [|eauto using sender_unchanged].
  destruct (sk_epochs _ Hs _ _ He) as [Hid Hplan Hsrt Hrange]. pose proof (generation_bytes_pos _ Hplan).
  destruct (sender_weights_le s Hs id e He) as [Ha Hb]. unfold sender_active, sender_bytes in Ha, Hb.
  pose proof (live_count_nonneg (generations e)).
  unfold level_sub. destruct (Z.ltb_spec (s_active_generations s) (live_count (generations e))); [lia|].
  cbn [mbind option_bind].
  destruct (Z.ltb_spec (s_unretired_bytes s) (live_count (generations e) * generation_bytes (s_plan e))); [lia|].
  cbn [mbind option_bind]. eexists _, _. split; [done|].
  pose proof Hs as [Hso Hep Hhi Hsa Hsb Hsu]. split_and!; [split; simpl; try done|..].
  - by apply map_remove_sorted.
  - intros id' e'. rewrite map_get_remove. destruct (id' =? id); [done|apply Hep].
  - intros id' e'. rewrite map_get_remove. destruct (id' =? id); [done|apply Hhi].
  - rewrite (map_total_remove _ _ _ _ Hso He). unfold sender_active at 2. lia.
  - rewrite (map_total_remove _ _ _ _ Hso He). unfold sender_bytes at 2. lia.
  - nia.
  - intros a b _ Ha' Hb'. simpl. nia.
  - intros id' g'. unfold outcome. simpl. rewrite map_get_remove. destruct (Z.eqb_spec id' id) as [->|].
    + rewrite He. cbn [mbind option_bind]. by destruct (map_get g' (generations e)) as [[|]|].
    + by destruct (_ ← _; _) as [[|]|].
Qed.

Lemma sender_step_spec c : sender_call_wf c -> exists out s',
  sender_step s c = Some (out, s') /\ sender_step_ok s c s'.
Proof using Hs.
  intros Hwf. destruct c as [c|p|id g|id g st|id g d|id|id]; simpl in *.
  - pose proof (sender_credit_step c). destruct (sender_credit s c). eauto.
  - pose proof (sender_open_step p Hwf). destruct (sender_open s p). eauto.
  - destruct (begin_step id g) as (out & s' & -> & H). cbn [mbind option_bind]. eauto.
  - destruct (state_step id g st) as (out & s' & -> & H). cbn [mbind option_bind]. eauto.
  - destruct (done_step id g d) as (out & s' & -> & H). cbn [mbind option_bind]. eauto.
  - destruct (sender_close_step (SendRefused id) id) as (out & s' & Heq & H); [by right|].
    unfold sender_refused. rewrite Heq. cbn [mbind option_bind]. eauto.
  - destruct (sender_close_step (SendClose id) id) as (out & s' & -> & H); [by left|]. cbn [mbind option_bind]. eauto.
Qed.
End sender_steps.

(** ** Traces *)

(** The identifiers a trace opened. *)
Fixpoint opened_ids (calls : list sender_call) (outs : list sender_reply) : list Z :=
  match calls, outs with
  | SendOpen p :: calls', SentUnit (Ok _) :: outs' => epoch p :: opened_ids calls' outs'
  | _ :: calls', _ :: outs' => opened_ids calls' outs'
  | _, _ => []
  end.

Lemma sender_step_highest s c out s' :
  sender_step s c = Some (out, s') ->
  match c, out with
  | SendOpen p, SentUnit (Ok _) =>
      highest_epoch s' = Some (epoch p) /\ forall used, highest_epoch s = Some used -> used < epoch p
  | _, _ => highest_epoch s' = highest_epoch s
  end.
Proof.
  destruct c as [c|p|id g|id g st|id g d|id|id]; simpl.
  2: { unfold sender_open. destruct (match highest_epoch s with Some _ => _ | None => _ end) eqn:Hu; simpl.
       { by intros [= <- <-]. }
       destruct (may_open s); simpl; [|by intros [= <- <-]]. intros [= <- <-]. split; [done|].
       intros used Hused. rewrite Hused in Hu. by apply Z.leb_gt in Hu. }
  all: unfold sender_credit, begin_generation, sender_state, sender_done, sender_refused, sender_close, mbind, option_bind;
    intros H; repeat case_match; simplify_eq; done.
Qed.

Lemma sender_step_credit s c out s' :
  sender_step s c = Some (out, s') ->
  s_credit s' = s_credit s \/ exists c', c = SendCredit c' /\ s_credit s' = Some c'.
Proof.
  destruct c as [c|p|id g|id g st|id g d|id|id]; simpl;
    unfold sender_credit, sender_open, begin_generation, sender_state, sender_done, sender_refused, sender_close,
      mbind, option_bind;
    intros H; repeat case_match; simplify_eq; simpl; eauto.
Qed.

Lemma sender_run_cons s c calls outs s' :
  sender_run s (c :: calls) = Some (outs, s') ->
  exists out s1 outs', sender_step s c = Some (out, s1) /\ sender_run s1 calls = Some (outs', s') /\
    outs = out :: outs'.
Proof.
  simpl. destruct (sender_step s c) as [[out s1]|]; [|done]. cbn [mbind option_bind snd fst].
  destruct (sender_run s1 calls) as [[outs' s2]|] eqn:Hr; [|done]. cbn [mbind option_bind snd fst].
  intros [= <- <-]. by exists out, s1, outs'.
Qed.

Lemma sender_run_total calls : forall s, sender_ok s -> Forall sender_call_wf calls ->
  exists outs s', sender_run s calls = Some (outs, s') /\ sender_ok s' /\ length outs = length calls.
Proof.
  induction calls as [|c calls IH]; intros s Hs Hwf; [by exists [], s|].
  apply Forall_cons in Hwf as [Hwf Hwfs].
  destruct (sender_step_spec s Hs c Hwf) as (out & s1 & Hstep & Hs1 & _).
  destruct (IH s1 Hs1 Hwfs) as (outs & s2 & Hrun & Hs2 & Hl). exists (out :: outs), s2.
  simpl. rewrite Hstep. cbn [mbind option_bind snd]. rewrite Hrun. cbn [mbind option_bind fst snd].
  split_and!; [done..|by rewrite Hl].
Qed.

Lemma sender_run_within a b calls : forall s outs s', sender_ok s -> Forall sender_call_wf calls ->
  (forall c, SendCredit c ∈ calls -> credit_within a b c) ->
  (forall c, s_credit s = Some c -> credit_within a b c) ->
  s_active_generations s <= a -> s_unretired_bytes s <= b ->
  sender_run s calls = Some (outs, s') -> s_active_generations s' <= a /\ s_unretired_bytes s' <= b.
Proof.
  induction calls as [|c calls IH]; intros s outs s' Hs Hwf Hcs Hc Ha Hb Hrun; [by injection Hrun as _ <-|].
  apply sender_run_cons in Hrun as (out & s1 & outs' & Hstep & Hrun & ->).
  apply Forall_cons in Hwf as [Hwf Hwfs].
  destruct (sender_step_spec s Hs c Hwf) as (out' & s1' & Hstep' & Hs1 & Hin & _).
  rewrite Hstep in Hstep'. injection Hstep' as <- <-.
  assert (forall c, s_credit s1 = Some c -> credit_within a b c) as Hc1.
  { intros c1 Hc1. destruct (sender_step_credit s c out s1 Hstep) as [Heq|(c' & -> & Heq)]; rewrite Heq in Hc1;
      [by apply Hc|]. injection Hc1 as <-. apply Hcs. set_solver. }
  destruct (Hin a b Hc1 Ha Hb). apply (IH s1 outs'); try done. intros c' Hc'. apply Hcs. set_solver.
Qed.

Lemma sender_run_ids calls : forall s outs s', sender_run s calls = Some (outs, s') ->
  StronglySorted Z.lt (opened_ids calls outs) /\
  Forall (fun id => forall used, highest_epoch s = Some used -> used < id) (opened_ids calls outs).
Proof.
  induction calls as [|c calls IH]; intros s outs s' Hrun; [injection Hrun as <- _; split; constructor|].
  apply sender_run_cons in Hrun as (out & s1 & outs' & Hstep & Hrun & ->).
  destruct (IH s1 outs' s' Hrun) as [Hsorted Hall]. pose proof (sender_step_highest s c out s1 Hstep) as Hh.
  rewrite Forall_forall in Hall.
  assert (highest_epoch s1 = highest_epoch s -> StronglySorted Z.lt (opened_ids calls outs') /\
    Forall (fun id => forall used, highest_epoch s = Some used -> used < id) (opened_ids calls outs')) as Hsame.
  { intros Heq. split; [done|]. apply Forall_forall. intros id Hid used Hu. apply Hall; [done|]. by rewrite Heq. }
  destruct c as [c|p|id g|id g st|id g d|id|id]; try by apply Hsame.
  destruct out as [o|[u|e]|o]; try by apply Hsame. destruct Hh as [Hh1 Hh2]. simpl. split.
  - constructor; [done|]. apply Forall_forall. intros id Hid. by apply Hall.
  - constructor; [done|]. apply Forall_forall. intros id Hid used Hu.
    specialize (Hall id Hid (epoch p) Hh1). specialize (Hh2 used Hu). lia.
Qed.

(** ** Properties *)

(** the sender never panics, its books are exact and credit bounds them.
    Any sequence of calls returns a reply for each call; afterwards the two
    levels are exactly the generations begun and not yet done, and their
    bytes; and when every credit seen allows at most [a] generations and [b]
    bytes, at most [a] generations and [b] bytes are outstanding. *)
Theorem sender_books_exact a b calls :
  0 <= a -> 0 <= b -> Forall sender_call_wf calls ->
  (forall c, SendCredit c ∈ calls -> credit_within a b c) ->
  exists outs s, sender_run sender_new calls = Some (outs, s) /\ length outs = length calls /\
    s_active_generations s = map_total sender_active (s_epochs s) /\
    s_unretired_bytes s = map_total sender_bytes (s_epochs s) /\
    s_unretired_bytes s <= u64_max /\
    s_active_generations s <= a /\ s_unretired_bytes s <= b.
Proof.
  intros Ha Hb Hwf Hcs.
  destruct (sender_run_total calls sender_new sender_new_ok Hwf) as (outs & s & Hrun & Hs & Hl).
  destruct (sender_run_within a b calls sender_new outs s sender_new_ok Hwf Hcs) as [H1 H2]; try done.
  exists outs, s. split_and!; try done; apply Hs.
Qed.

(** identifiers and outcomes only move forward.  In any trace the epoch
    identifiers opened are strictly increasing, so none is reused after a
    close; and from any state a trace reaches, one more call changes the
    outcome of a generation only by beginning it, by the receiver's word for a
    live one, or by closing its epoch: a reported outcome never changes. *)
Theorem sender_lifecycle calls outs s c :
  Forall sender_call_wf calls -> sender_call_wf c -> sender_run sender_new calls = Some (outs, s) ->
  StronglySorted Z.lt (opened_ids calls outs) /\
  exists out s', sender_step s c = Some (out, s') /\ lifecycle s c s'.
Proof.
  intros Hwf Hwfc Hrun. split; [by apply (sender_run_ids calls sender_new outs s)|].
  destruct (sender_run_total calls sender_new sender_new_ok Hwf) as (outs' & s1 & Hrun' & Hs & _).
  rewrite Hrun in Hrun'. injection Hrun' as <- <-.
  destruct (sender_step_spec s Hs c Hwfc) as (out & s' & Hstep & _ & _ & Hlife). eauto.
Qed.

Definition demo_sender_calls : list sender_call :=
  [SendCredit demo_credit; SendOpen demo_plan; SendBegin 7 0; SendBegin 7 1; SendBegin 7 2;
   SendState 7 0 (mkState 1 1 [1; 2]); SendDone 7 0 DoneDecoded; SendDone 7 0 DoneAbandoned; SendClose 7].

Lemma demo_sender_calls_wf : Forall sender_call_wf demo_sender_calls.
Proof. repeat constructor. all: exact (proj1 (conj demo_plan_valid I)) || apply demo_plan_valid. Qed.

Lemma sender_books_exact_witness :
  exists outs s, sender_run sender_new (take 7 demo_sender_calls) = Some (outs, s) /\
    s_active_generations s = map_total sender_active (s_epochs s) /\ s_active_generations s <= 2.
Proof.
  destruct (sender_books_exact 2 100 (take 7 demo_sender_calls)) as (outs & s & Hrun & _ & Ha & _ & _ & Hb & _).
  - lia.
  - lia.
  - apply Forall_take, demo_sender_calls_wf.
  - intros c Hc. assert (c = demo_credit) as -> by set_solver. split; vm_compute; congruence.
  - exists outs, s. split; [exact Hrun|]. split; [exact Ha|exact Hb].
Defined.

Definition demo_sent : list sender_reply * Sender :=
  Eval vm_compute in default ([], sender_new) (sender_run sender_new (take 7 demo_sender_calls)).

Lemma sender_lifecycle_witness :
  opened_ids (take 7 demo_sender_calls) demo_sent.1 = [7] /\
  exists out s', sender_step demo_sent.2 (SendDone 7 0 DoneAbandoned) = Some (out, s') /\
    lifecycle demo_sent.2 (SendDone 7 0 DoneAbandoned) s'.
Proof.
  split; [vm_compute; reflexivity|].
  apply (sender_lifecycle (take 7 demo_sender_calls) demo_sent.1 demo_sent.2 (SendDone 7 0 DoneAbandoned)).
  - apply Forall_take, demo_sender_calls_wf.
  - exact I.
  - vm_compute. reflexivity.
Defined.
