(* ===== verification/FecTransfer.v ===== *)
(** * FEC end to end: sender's encoder to receiver (vot-fec)

    The sender cuts an object into epochs and encodes each generation with
    [encode_generation]; the network drops, repeats and reorders symbols and
    interleaves epochs; the receiver is driven by any sequence of calls.  The
    theorems compose FecSender.v and FecReceiver.v: whatever the receiver
    decodes is the object's bytes at the offset it reports, and any [sent]
    distinct symbols of a generation are enough for it to decode. *)

From S2P Require Import Prelude BTree Gf FecLinear Fec FecPlan FecReceiver FecSender.

(** The object bytes a generation covers. *)
Definition generation_data (object : list Z) (p : EpochPlan) (generation : Z) : list Z :=
  match generation_span p generation with
  | Some (start, bytes) => slice object start (start + bytes)
  | None => []
  end.

(** The symbol [(esi, symbol)] is one the sender's encoder produces for the
    generation. *)
Definition sent_symbol `{V : VectorUnit} (object : list Z) (p : EpochPlan) (generation esi : Z)
    (symbol : list Z) : Prop :=
  exists out, encode_generation p generation (generation_data object p generation) = Some (Ok out) /\
    (esi, symbol) ∈ out.

(** The other end codes the generations of [plans] from [object]. *)
Definition coding_truth (object : list Z) (plans : EpochPlan -> Prop) : truth_relation :=
  mkTruth plans (fun p generation source =>
    plans p /\ 0 <= generation < generation_count p /\
    source = padded_sources p (generation_data object p generation)).

Definition in_object (object : list Z) (p : EpochPlan) : Prop :=
  plan_valid p /\ offset p + plan_length p <= zlen object.

Section truth.
Context `{VOk : VectorUnitOk}.
Context (object : list Z) (Hobject : byte_list object).
Context (plans : EpochPlan -> Prop) (Hplans : forall p, plans p -> in_object object p).

Lemma generation_data_span p generation :
  in_object object p -> 0 <= generation < generation_count p ->
  exists start, generation_span p generation = Some (start, zlen (generation_data object p generation)) /\
    byte_list (generation_data object p generation) /\ 0 <= start /\
    generation_data object p generation =
      slice object start (start + zlen (generation_data object p generation)).
Proof using Hobject.
  intros [Hp Hin] Hg. destruct (generation_span_spec p Hp generation Hg) as (n & Hs & _ & Hn & Hend).
  destruct (generation_start p Hp generation Hg) as [H0 _]. pose proof (pv_offset _ Hp).
  unfold generation_data. rewrite Hs. eexists. rewrite zlen_slice by lia.
  split; [do 2 f_equal; lia|]. split_and!; [by apply Forall_take, Forall_drop|lia|].
  f_equal. lia.
Qed.

Lemma coding_truth_valid p generation source sent :
  coding_truth object plans p generation source -> sent_source_count p generation = Some sent ->
  source_valid (geometry p) source /\ zero_tail (geometry p) sent source.
Proof using Hobject Hplans VOk.
  intros (Hpl & Hg & ->) Hsent. apply Hplans in Hpl as Hin.
  destruct (generation_data_span p generation Hin Hg) as (start & Hspan & Hb & _).
  split; [by eapply padded_sources_valid; try apply Hin|].
  destruct (encode_generation_spec p (proj1 Hin) generation Hg _ Hb start Hspan) as (sent' & out & Hs & _ & _ & Hz & _).
  rewrite Hsent in Hs. by injection Hs as <-.
Qed.

(** What the encoder produces is honest. *)
Lemma sent_symbol_honest p generation esi symbol :
  (plans p -> 0 <= generation < generation_count p -> sent_symbol object p generation esi symbol) ->
  honest (coding_truth object plans) p generation esi symbol.
Proof using Hobject Hplans VOk.
  intros Hsent source (Hpl & Hg & ->). destruct (Hsent Hpl Hg) as (out & Henc & Hin).
  destruct (generation_data_span p generation (Hplans p Hpl) Hg) as (start & Hspan & Hb & _).
  destruct (encode_generation_spec p (proj1 (Hplans p Hpl)) generation Hg _ Hb start Hspan)
    as (sent & out' & _ & Hs & Henc' & _ & _ & Hwire).
  rewrite Henc in Henc'. injection Henc' as <-. destruct (Hwire _ _ Hin) as [[He ->]|[He Hr]]; split; try done; lia.
Qed.
End truth.

(** ** Safety *)

Definition plans_of (calls : list call) (p : EpochPlan) : Prop := CallOpen p ∈ calls.

(** C1: a decoded generation is the object's bytes.  For any object, any
    sequence of calls in which each epoch opened lies in the object and each
    symbol of an open epoch is one the sender's encoder produced for that
    generation (lost, repeated, reordered and interleaved at will), the
    receiver replies to every call and every generation it decodes carries
    exactly the object's bytes at the offset it reports. *)
Theorem transfer_delivers_object `{VOk : VectorUnitOk} object calls :
  byte_list object -> zlen calls <= u64_max -> Forall call_wf calls ->
  (forall p, CallOpen p ∈ calls -> in_object object p) ->
  (forall id generation esi bytes, CallSymbol id generation esi bytes ∈ calls ->
     forall p, CallOpen p ∈ calls -> epoch p = id -> 0 <= generation < generation_count p ->
       sent_symbol object p generation esi bytes) ->
  exists outs r, run receiver_new calls = Some (outs, r) /\ length outs = length calls /\
    forall i id generation esi bytes d,
      calls !! i = Some (CallSymbol id generation esi bytes) ->
      outs !! i = Some (ReplySymbol (SymbolDecoded d)) ->
      exists p, CallOpen p ∈ calls /\ epoch p = id /\
        generation_span p generation = Some (d_offset d, zlen (d_bytes d)) /\
        d_bytes d = slice object (d_offset d) (d_offset d + zlen (d_bytes d)).
Proof.
  intros Hob Hlen Hwf Hin Hsym. set (truth := coding_truth object (plans_of calls)).
  assert (Forall (call_honest truth) calls) as Hh.
  { apply Forall_forall. intros [c|p|id g e b|id g|id g|id] Hc; simpl; try done.
    intros p Hp. apply (sent_symbol_honest object Hob); [exact Hin|]. intros Hpl Hg. by apply (Hsym id g e b). }
  destruct (run_ok truth (coding_truth_valid object Hob (plans_of calls) Hin) calls 0 receiver_new
    ltac:(lia) ltac:(lia) (receiver_new_ok truth) Hwf Hh) as (outs & r & Hrun & _ & Hout).
  exists outs, r. split_and!; [done|by symmetry; eapply Forall2_length|].
  intros i id g e b d Hi Ho. destruct (Forall2_lookup_lr _ _ _ _ _ _ Hout Hi Ho) as (p & Hep & Hpl & Hd).
  destruct Hd as (Hg & Hspan & Hdb & Hcont). exists p. split_and!; try done.
  assert (0 <= g < generation_count p) as Hgr.
  { rewrite Forall_forall in Hwf. destruct (Hwf _ (list_elem_of_lookup_2 _ _ _ Hi)) as [Hg0 _].
    unfold generation_span, holds in Hspan. destruct (Z.ltb_spec g (generation_count p)); [lia|done]. }
  destruct (generation_data_span object Hob p g (Hin p Hpl) Hgr) as (start & Hs & Hb & Hpos & Heq).
  pose proof Hs as Hs'. rewrite Hspan in Hs'. injection Hs' as Hst Hz.
  rewrite (Hcont (padded_sources p (generation_data object p g))) at 1 by done.
  rewrite (padded_sources_concat p (proj1 (Hin p Hpl)) g Hgr _ Hb start Hs).
  unfold padded. rewrite Hst, Hz, ztake_app. exact Heq.
Qed.

(** ** Liveness *)

Lemma run_app `{V : VectorUnit} first rest r outs r1 :
  run r first = Some (outs, r1) ->
  run r (first ++ rest) = (outs2 ← run r1 rest; Some (outs ++ outs2.1, outs2.2)).
Proof.
  revert r outs. induction first as [|c first IH]; intros r outs Hrun; simpl in *.
  { injection Hrun as <- <-. by destruct (run r rest) as [[? ?]|]. }
  destruct (step r c) as [[o r2]|]; [|done]. cbn [mbind option_bind fst snd] in *.
  destruct (run r2 first) as [[os r3]|] eqn:E; [|done]. injection Hrun as <- ->.
  rewrite (IH r2 os E). by destruct (run r1 rest) as [[? ?]|].
Qed.

Section feed.
Context `{VOk : VectorUnitOk}.
Context (object : list Z) (Hobject : byte_list object).
Context (p : EpochPlan) (Hin : in_object object p).
Context (generation : Z) (Hgen : 0 <= generation < generation_count p).
Context (c : Credit) (Hactive : 1 <= max_active_generations c).
Context (Hbytes : generation_bytes p <= max_unretired_bytes c) (Hwork : generation_bytes p <= max_decode_work c).
Context (sent : Z) (Hsent : sent_source_count p generation = Some sent).
Let g := geometry p.
Let data := generation_data object p generation.
Let truth := coding_truth object (eq p).

(** The receiver after the symbols of [arrived], none of them completing. *)
Record feeding (arrived : list Z) (r : Receiver) : Prop := {
  fe_ok : receiver_ok truth 0 r;
  fe_credit : credit r = Some c;
  fe_spent : decode_work_spent r = 0;
  fe_slot : exists lv words slot levels, let e := mkEpoch p lv words in
    map_get (epoch p) (epochs r) = Some e /\ done_bit words generation = false /\
    slot_ok p sent slot /\ g_sequence slot = 0 /\
    g_received slot = source_count g - sent + zlen arrived /\
    (forall source, truth p generation source -> slot_from g source slot) /\
    (forall esi, 0 <= esi -> has slot esi = bool_decide (esi ∈ arrived)) /\
    charged r e generation levels /\
    match map_get generation lv with
    | Some found => found = slot /\ levels = counters r
    | None => slot = fresh_slot g sent /\ counters_admit (counters r) c (generation_bytes p) = Some levels
    end }.

Lemma sent_range : 0 < sent <= source_count g.
Proof using Hin Hgen Hsent.
  destruct (sent_source_count_spec p (proj1 Hin) generation Hgen) as (sent' & _ & _ & Hs & Hb & _).
  rewrite Hsent in Hs. by injection Hs as <-.
Qed.

Lemma sent_symbol_range esi bytes : sent_symbol object p generation esi bytes ->
  0 <= esi < symbol_count g /\ (esi < sent \/ source_count g <= esi) /\ symbol_valid g bytes.
Proof using Hobject Hin Hgen Hsent VOk.
  intros (out & Henc & Hin').
  destruct (generation_data_span object Hobject p generation Hin Hgen) as (start & Hspan & Hb & _).
  destruct (encode_generation_spec p (proj1 Hin) generation Hgen _ Hb start Hspan)
    as (sent' & out' & Hs & Hs2 & Henc' & _ & _ & Hwire).
  rewrite Hsent in Hs. injection Hs as <-. rewrite Henc in Henc'. injection Henc' as <-.
  destruct (pv_geometry _ (proj1 Hin)) as (Hk & Hr & _). unfold g in *. unfold symbol_count in *.
  destruct (Hwire _ _ Hin') as [[He ->]|[He [Hv _]]]; unfold symbol_count in *; split_and!; try lia; try done.
  apply source_at_valid; [|lia]. by eapply padded_sources_valid; try apply Hin.
Qed.

Lemma eq_truth_valid p' generation' source sent' :
  truth p' generation' source -> sent_source_count p' generation' = Some sent' ->
  source_valid (geometry p') source /\ zero_tail (geometry p') sent' source.
Proof using Hobject Hin VOk. apply (coding_truth_valid object Hobject). by intros q <-. Qed.

Lemma decoded_data d : decoded_ok truth p generation d ->
  exists start, generation_span p generation = Some (start, zlen data) /\ d = mkDecoded generation start data.
Proof using Hobject Hin Hgen.
  intros (Hg & Hspan & _ & Hcont).
  destruct (generation_data_span object Hobject p generation Hin Hgen) as (start & Hs & Hb & _).
  exists start. split; [exact Hs|]. pose proof Hs as Hs'. rewrite Hspan in Hs'. injection Hs' as Hst Hz.
  destruct d as [dg ds db]. simpl in *. subst dg ds. f_equal.
  rewrite (Hcont (padded_sources p data)) by done. unfold data in *.
  rewrite (padded_sources_concat p (proj1 Hin) generation Hgen _ Hb start Hs). unfold padded.
  by rewrite Hz, ztake_app.
Qed.

(** The symbol reaches the slot [feeding] describes. *)
Lemma feed_slot r lv words slot levels esi bytes :
  let e := mkEpoch p lv words in
  receiver_ok truth 0 r -> credit r = Some c -> map_get (epoch p) (epochs r) = Some e ->
  done_bit words generation = false -> sent_symbol object p generation esi bytes -> has slot esi = false ->
  match map_get generation lv with
  | Some found => found = slot /\ levels = counters r
  | None => slot = fresh_slot g sent /\ counters_admit (counters r) c (generation_bytes p) = Some levels
  end ->
  exists first, symbol r (epoch p) generation esi bytes =
    symbol_in_slot r c (epoch p) e generation sent esi bytes slot levels first.
Proof using Hobject Hin Hgen Hsent VOk.
  intros e Hok Hcr He Hdone Hss Hnew Hfound. destruct (sent_symbol_range esi bytes Hss) as (Hesi & Hs & [Hl _]).
  rewrite (symbol_past_guards truth 0 r c (epoch p) e generation sent esi bytes) by (simpl; done || (unfold g in *; lia)).
  simpl. rewrite Hdone. destruct (map_get generation lv) as [found|].
  - destruct Hfound as [-> ->]. rewrite Hnew. by eexists.
  - destruct Hfound as [-> Hadm]. rewrite Hadm. by eexists.
Qed.

(** One more new symbol. *)
Lemma feed_one arrived r esi bytes :
  feeding arrived r -> sent_symbol object p generation esi bytes -> esi ∉ arrived -> zlen arrived < sent ->
  exists r', if zlen arrived + 1 <? sent then
      (exists first, symbol r (epoch p) generation esi bytes = Some (Stored first, r')) /\
      feeding (esi :: arrived) r'
    else exists start, generation_span p generation = Some (start, zlen data) /\
      symbol r (epoch p) generation esi bytes = Some (SymbolDecoded (mkDecoded generation start data), r') /\
      generation_retired r' (epoch p) generation.
Proof using All.
  intros [Hok Hcr Hsp (lv & words & slot & levels & He & Hdone & Hslot & Hseq & Hrec & Hfrom & Hhas & Hch & Hfound)]
    Hss Hnew Hlt.
  destruct (sent_symbol_range esi bytes Hss) as (Hesi & Hs & Hv). pose proof sent_range as Hsr.
  assert (has slot esi = false) as Hnh by (by rewrite Hhas, bool_decide_eq_false_2 by (done || lia)).
  destruct (feed_slot r lv words slot levels esi bytes Hok Hcr He Hdone Hss Hnh Hfound) as (first & Hsym).
  set (e := mkEpoch p lv words) in *.
  assert (honest truth p generation esi bytes) as Hh.
  { apply (sent_symbol_honest object Hobject); [by intros p' <-|done]. }
  destruct (symbol_in_slot_spec truth eq_truth_valid 0 ltac:(done) r Hok c (epoch p) e He generation sent Hgen Hsent
    esi bytes slot levels first) as (slot' & out & r' & Hfile & Hrec' & Hseq' & Heq & Hok' & Hcr' & _ & Hres);
    try done; try lia; simpl; try (fold g; lia).
  rewrite Heq in Hsym. simpl in Hres. fold g in Hres, Hfile. exists r'.
  replace (g_received slot + 1 <? source_count g) with (zlen arrived + 1 <? sent) in Hres by (zcases; lia).
  destruct (Z.ltb_spec (zlen arrived + 1) sent) as [Hmore|Hlast].
  - destruct Hres as (-> & Hsp' & Hlev & [p' lv' words'] & He' & Hp' & Hw' & Hget'). simpl in Hp', Hw', Hget'. subst p' words'.
    split; [by eexists|]. pose proof (ro_epochs _ _ _ Hok' _ _ He') as Heo.
    destruct (eo_live _ _ _ _ Heo _ _ Hget') as [_ _ _ (sent' & Hsent' & Hso) _ Hfrom']. simpl in Hsent', Hso, Hfrom'.
    rewrite Hsent in Hsent'. injection Hsent' as <-.
    split; [done|congruence|congruence|]. exists lv', words, slot', levels. split_and!; try done; try lia.
    + rewrite zlen_cons. lia.
    + intros esi' H0. rewrite (file_symbol_has g slot esi slot' bytes esi'), Hhas by (done || lia).
      destruct (Z.eqb_spec esi esi') as [->|Hne]; symmetry; simpl.
      * apply bool_decide_eq_true_2. set_solver.
      * apply bool_decide_ext. set_solver.
    + rewrite <- Hlev. by eapply charged_live.
    + rewrite Hget'. by rewrite Hlev.
  - destruct Hres as [Hcomp Hret]. unfold completed in Hcomp.
    assert (over_budget r c (generation_bytes p) = false) as Hover.
    { unfold over_budget. rewrite Hsp. apply Z.ltb_ge. destruct (pv_geometry _ (proj1 Hin)) as (Hk & _ & HL).
      unfold generation_bytes, MAX_SOURCE_SYMBOLS, MAX_SYMBOL_LENGTH, u64_max in *. nia. }
    simpl in Hcomp. rewrite Hover, andb_false_r in Hcomp. destruct Hcomp as [(d & -> & Hd) _].
    destruct (decoded_data d Hd) as (start & Hspan & ->). exists start. done.
Qed.

Definition deliver (a : Z * list Z) : call := CallSymbol (epoch p) generation a.1 a.2.

Lemma feed_all arrivals : forall arrived r,
  feeding arrived r -> Forall (fun a => sent_symbol object p generation a.1 a.2) arrivals ->
  NoDup (map fst arrivals) -> (forall esi, esi ∈ map fst arrivals -> esi ∉ arrived) ->
  zlen arrived < sent -> zlen arrived + zlen arrivals = sent ->
  exists outs r' start, run r (map deliver arrivals) = Some (outs, r') /\
    generation_span p generation = Some (start, zlen data) /\
    last outs = Some (ReplySymbol (SymbolDecoded (mkDecoded generation start data))) /\
    generation_retired r' (epoch p) generation.
Proof using All.
  induction arrivals as [|[esi bytes] rest IH]; intros arrived r Hf Hs Hnd Hni Hlt Heq.
  { rewrite zlen_nil in Heq. lia. }
  rewrite zlen_cons in Heq. apply Forall_cons in Hs as [Hs1 Hs]. simpl in Hnd, Hs1.
  apply NoDup_cons in Hnd as [Hesi Hnd].
  destruct (feed_one arrived r esi bytes Hf Hs1) as (r' & Hstep); [apply Hni; set_solver|done|].
  simpl. destruct (Z.ltb_spec (zlen arrived + 1) sent) as [Hmore|Hlast].
  - destruct Hstep as [[first ->] Hf']. cbn [mbind option_bind fst snd].
    destruct (IH (esi :: arrived) r' Hf' Hs Hnd) as (outs & r2 & start & Hrun & Hspan & Hl & Hret).
    + intros esi' He'. apply not_elem_of_cons. split; [by intros ->|]. apply Hni. set_solver.
    + rewrite zlen_cons. lia.
    + rewrite zlen_cons. lia.
    + rewrite Hrun. cbn [mbind option_bind fst snd]. eexists _, _, start. split; [done|].
      split_and!; [done| |done]. destruct outs; [done|exact Hl].
  - destruct Hstep as (start & Hspan & -> & Hret). cbn [mbind option_bind fst snd].
    assert (rest = []) as -> by (apply length_zero_iff_nil; unfold zlen in *; lia). simpl.
    by exists [ReplySymbol (SymbolDecoded (mkDecoded generation start data))], r', start.
Qed.

(** The receiver once the credit and the epoch are in place. *)
Definition opened_receiver : Receiver :=
  mkReceiver (Some c) 0
    [(epoch p, mkEpoch p [] (replicate (Z.to_nat (div_ceil (generation_count p) 64)) 0))] (mkCounters 0 0).

Lemma open_epoch : generation_count p <= MAX_TRACKED_GENERATIONS -> 1 <= max_open_epochs c ->
  run receiver_new [CallCredit c; CallOpen p] =
    Some ([ReplyBool true; ReplyOpen (Ok Opened)], opened_receiver) /\ feeding [] opened_receiver.
Proof using All.
  intros Hcount Hopen.
  assert (run receiver_new [CallCredit c; CallOpen p] =
    Some ([ReplyBool true; ReplyOpen (Ok Opened)], opened_receiver)) as Hrun.
  { simpl. unfold open. simpl. destruct (Z.leb_spec (max_open_epochs c) (zlen (@nil (Z * Epoch)))); [unfold zlen in *; simpl in *; lia|].
    destruct (Z.ltb_spec MAX_TRACKED_GENERATIONS (generation_count p)); [lia|]. done. }
  assert (receiver_ok truth 0 opened_receiver) as Hok.
  { destruct (open_step truth 0 ltac:(done) (snd (install_credit receiver_new c))) with (p := p) as [H _].
    - apply install_credit_step; [done|apply receiver_new_ok].
    - apply Hin.
    - done.
    - simpl in Hrun. unfold install_credit, receiver_new in Hrun, H. simpl in Hrun, H.
      destruct (open _ p) as [o r]. simpl in Hrun, H. by injection Hrun as _ <-. }
  split; [done|]. split; try done. pose proof sent_range as Hsr.
  pose proof (generation_bytes_pos p (proj1 Hin)) as Hgb.
  exists [], (replicate (Z.to_nat (div_ceil (generation_count p) 64)) 0), (fresh_slot g sent),
    (mkCounters 1 (generation_bytes p)).
  assert (counters_admit (counters opened_receiver) c (generation_bytes p) =
    Some (mkCounters 1 (generation_bytes p))) as Hadm.
  { unfold counters_admit, checked_add. simpl. rewrite !Z.add_0_l. destruct (Z.leb_spec (max_active_generations c) 0); [lia|]. simpl.
    destruct (pv_geometry _ (proj1 Hin)) as (Hk & _ & HL).
    assert (generation_bytes p <= u64_max).
    { unfold generation_bytes, MAX_SOURCE_SYMBOLS, MAX_SYMBOL_LENGTH, u64_max in *. nia. }
    destruct (Z.leb_spec (generation_bytes p) u64_max); [|lia].
    destruct (Z.ltb_spec (max_unretired_bytes c) (generation_bytes p)); [lia|]. reflexivity. }
  assert (map_get (epoch p) (epochs opened_receiver) = Some (mkEpoch p []
    (replicate (Z.to_nat (div_ceil (generation_count p) 64)) 0))) as Hget by (simpl; by rewrite Z.eqb_refl).
  split_and!; try done.
  - unfold done_bit. by rewrite nth_replicate_0, Z.bits_0.
  - apply fresh_slot_ok; [apply Hin|exact Hsr].
  - simpl. unfold zlen. simpl. lia.
  - intros source Ht. split; [|set_solver]. intros j Hj. by rewrite fresh_slot_has by lia.
  - pose proof (counters_admit_spec truth 0 opened_receiver (epoch p) _ generation c Hok Hget ltac:(done)) as Ha.
    simpl e_plan in Ha. rewrite Hadm in Ha. apply Ha.
Qed.
End feed.

(** C2: any [sent] symbols are enough.  For every generation of every epoch of
    an object, a receiver with credit for it that is given the epoch and then,
    in any order, as many distinct symbols of the generation (sources or
    repairs) as it has sent sources, decodes it on the last of them, to exactly
    the object's bytes. *)
Theorem any_sent_symbols_decode `{VOk : VectorUnitOk} object p generation c sent arrivals :
  byte_list object -> in_object object p -> 0 <= generation < generation_count p ->
  generation_count p <= MAX_TRACKED_GENERATIONS ->
  1 <= max_open_epochs c -> 1 <= max_active_generations c ->
  generation_bytes p <= max_unretired_bytes c -> generation_bytes p <= max_decode_work c ->
  sent_source_count p generation = Some sent -> zlen arrivals = sent -> NoDup (map fst arrivals) ->
  Forall (fun a => sent_symbol object p generation a.1 a.2) arrivals ->
  exists outs r start bytes,
    run receiver_new (CallCredit c :: CallOpen p :: map (deliver p generation) arrivals) = Some (outs, r) /\
    generation_span p generation = Some (start, bytes) /\
    last outs = Some (ReplySymbol (SymbolDecoded
      (mkDecoded generation start (slice object start (start + bytes))))) /\
    generation_retired r (epoch p) generation.
Proof.
  intros Hob Hin Hgen Hcount Hopen Hact Hby Hwork Hsent Hlen Hnd Hsym.
  destruct (open_epoch object Hob p Hin generation Hgen c Hact Hby Hwork sent Hsent) as [Hrun Hf]; try done.
  pose proof (sent_range object p Hin generation Hgen sent Hsent) as Hsr.
  destruct (feed_all object Hob p Hin generation Hgen c Hact Hby Hwork sent Hsent arrivals
    [] (opened_receiver p c) Hf Hsym Hnd) as (outs & r & start & Hrun' & Hspan & Hl & Hret);
    [set_solver|unfold zlen; simpl; lia|unfold zlen at 1; simpl; lia|].
  destruct (generation_data_span object Hob p generation Hin Hgen) as (start' & Hs & _ & _ & Heq).
  rewrite Hspan in Hs. injection Hs as <-.
  exists (ReplyBool true :: ReplyOpen (Ok Opened) :: outs), r, start, (zlen (generation_data object p generation)).
  change (CallCredit c :: CallOpen p :: ?l) with ([CallCredit c; CallOpen p] ++ l).
  rewrite (run_app _ _ _ _ _ Hrun), Hrun'. cbn [mbind option_bind fst snd]. split; [done|].
  split; [done|]. rewrite <- Heq. split; [|done]. by destruct outs.
Qed.

(** ** A concrete transfer *)

Definition small_plan : EpochPlan := mkEpochPlan 3 2 10 demo_geometry.
Definition small_object : list Z := seqZ 10 14.
Definition small_symbols : list (Z * list Z) :=
  Eval vm_compute in match encode_generation (V := reference_unit) small_plan 0
    (generation_data small_object small_plan 0) with Some (Ok out) => out | _ => [] end.
Definition small_arrivals : list (Z * list Z) :=
  [nth 4 small_symbols (0, []); nth 1 small_symbols (0, []); nth 3 small_symbols (0, [])].
Definition small_calls : list call :=
  CallCredit demo_credit :: CallOpen small_plan :: map (deliver small_plan 0) small_arrivals.

Lemma small_symbols_sent : encode_generation (V := reference_unit) small_plan 0
  (generation_data small_object small_plan 0) = Some (Ok small_symbols).
Proof. vm_compute. reflexivity. Qed.

Lemma small_arrivals_sent :
  Forall (fun a => sent_symbol (V := reference_unit) small_object small_plan 0 a.1 a.2) small_arrivals.
Proof.
  repeat constructor; exists small_symbols; (split; [exact small_symbols_sent|]);
    unfold small_symbols; simpl; set_solver.
Qed.

Lemma small_object_bytes : byte_list small_object.
Proof. apply Forall_forall. intros x Hx%elem_of_seqZ. mlia. Qed.

Lemma small_in_object : in_object small_object small_plan.
Proof. split; [split; [exact demo_geometry_valid|vm_compute; congruence..]|vm_compute; congruence]. Qed.

Lemma transfer_delivers_object_witness :
  exists outs r, run (V := reference_unit) receiver_new small_calls = Some (outs, r) /\ length outs = 5%nat.
Proof.
  destruct (transfer_delivers_object (V := reference_unit) (VOk := reference_unit_ok) small_object small_calls)
    as (outs & r & Hrun & Hl & _).
  - exact small_object_bytes.
  - vm_compute. congruence.
  - repeat constructor; simpl; try exact (proj1 small_in_object); try (vm_compute; congruence);
      apply Forall_forall; intros x Hx; unfold is_u8, u8_max; set_solver by lia.
  - intros p Hp. assert (p = small_plan) as -> by set_solver. exact small_in_object.
  - intros id generation esi bytes Hc p Hp _ _. assert (p = small_plan) as -> by set_solver.
    pose proof small_arrivals_sent as Hs. rewrite Forall_forall in Hs.
    assert (exists a, a ∈ small_arrivals /\ CallSymbol id generation esi bytes = deliver small_plan 0 a)
      as (a & Ha & [= _ -> -> ->]); [|by apply Hs].
    unfold small_calls in Hc. apply elem_of_cons in Hc as [Hc|Hc]; [discriminate Hc|].
    apply elem_of_cons in Hc as [Hc|Hc]; [discriminate Hc|].
    apply list_elem_of_fmap in Hc as (a & Heq & Ha). exists a. split; [exact Ha|exact Heq].
  - exists outs, r. split; [exact Hrun|exact Hl].
Defined.

Lemma any_sent_symbols_decode_witness :
  exists outs r start bytes, run (V := reference_unit) receiver_new small_calls = Some (outs, r) /\
    generation_span small_plan 0 = Some (start, bytes) /\
    last outs = Some (ReplySymbol (SymbolDecoded (mkDecoded 0 start (slice small_object start (start + bytes))))).
Proof.
  destruct (any_sent_symbols_decode (V := reference_unit) (VOk := reference_unit_ok) small_object small_plan 0
    demo_credit 3 small_arrivals) as (outs & r & start & bytes & Hrun & Hspan & Hlast & _).
  - exact small_object_bytes.
  - exact small_in_object.
  - split; [lia|vm_compute; reflexivity].
  - vm_compute. congruence.
  - vm_compute. congruence.
  - vm_compute. congruence.
  - vm_compute. congruence.
  - vm_compute. congruence.
  - vm_compute. reflexivity.
  - vm_compute. reflexivity.
  - vm_compute. repeat constructor; set_solver.
  - exact small_arrivals_sent.
  - exists outs, r, start, bytes. split; [exact Hrun|]. split; [exact Hspan|exact Hlast].
Defined.
