(* ===== verification/Digest.v ===== *)
(** * Digests as parameters

    The sha2 crate is not part of the repository: [sha256] is a parameter of
    every definition that hashes, and [Sha256Ok] states what the code relies
    on, that a digest is 32 bytes.  Feeding a hasher piece by piece hashes the
    concatenation.  No digest of fixed length is injective, so soundness
    theorems assume [no_collision] between the two finite lists of inputs the
    code and the honest party hash. *)

From S2P Require Import Prelude.

Class Sha256 := mkSha256 { sha256 : list Z -> list Z }.

Definition is_hash (h : list Z) : Prop := zlen h = 32 /\ byte_list h.

Class Sha256Ok (H : Sha256) : Prop := mkSha256Ok { sha256_hash : forall input, is_hash (sha256 input) }.

(** No input of [xs] and different input of [ys] share a digest. *)
Definition no_collision `{Sha256} (xs ys : list (list Z)) : Prop :=
  forall x y, x ∈ xs -> y ∈ ys -> sha256 x = sha256 y -> x = y.

Lemma no_collision_mono `{Sha256} xs ys xs' ys' :
  (forall x, x ∈ xs -> x ∈ xs') -> (forall y, y ∈ ys -> y ∈ ys') ->
  no_collision xs' ys' -> no_collision xs ys.
Proof. intros Hx Hy Hn x y Hin Hin'. apply Hn; auto. Qed.

Definition hash_eqb (a b : list Z) : bool := bool_decide (a = b).

(** ** BLAKE3

    The blake3 crate is a parameter in the same way. *)
Class Blake3 := mkBlake3 { blake3 : list Z -> list Z }.

Class Blake3Ok (H : Blake3) : Prop := mkBlake3Ok { blake3_hash : forall input, is_hash (blake3 input) }.

Definition blake3_no_collision `{Blake3} (xs ys : list (list Z)) : Prop :=
  forall x y, x ∈ xs -> y ∈ ys -> blake3 x = blake3 y -> x = y.

(** ** Ed25519

    ed25519-dalek: keys are their 32 bytes; signing, strict verification and
    which 32 bytes [VerifyingKey::from_bytes] accepts.  [Ed25519Ok] is what a
    signer relies on: signatures are 64 bytes and verify under the signer's
    verifying key, whose bytes are accepted. *)
Class Ed25519 := mkEd25519 {
  verifying_key : list Z -> list Z;
  sign : list Z -> list Z -> list Z;
  verify_strict : list Z -> list Z -> list Z -> bool;
  is_verifying_key : list Z -> bool }.

Class Ed25519Ok (E : Ed25519) : Prop := mkEd25519Ok {
  sign_bytes key input : byte_list (sign key input) /\ zlen (sign key input) = 64;
  sign_verifies key input : verify_strict (verifying_key key) input (sign key input) = true;
  verifying_key_parses key : is_verifying_key (verifying_key key) = true }.

(** A concrete digest for the witnesses: a rolling sum over the input, spread
    over 32 bytes. *)
Definition toy_digest (input : list Z) : list Z :=
  let sum := foldl (fun acc b => (acc * 257 + b + 1) mod 2 ^ 256) 7 input in
  to_be_bytes 32 sum.

Definition toy_sha256 : Sha256 := mkSha256 toy_digest.

Lemma toy_sha256_ok : Sha256Ok toy_sha256.
Proof.
  split. intros input. split; [apply zlen_to_be_bytes|apply to_be_bytes_byte_list].
Qed.

Definition toy_blake3 : Blake3 := mkBlake3 toy_digest.

Lemma toy_blake3_ok : Blake3Ok toy_blake3.
Proof. split. apply toy_sha256_ok. Qed.

(** A signature scheme whose signature of a message is its toy digest, twice, tagged with the key. *)
Definition toy_ed25519 : Ed25519 := mkEd25519 (fun k => k)
  (fun k m => toy_digest (k ++ m) ++ toy_digest (k ++ m))
  (fun k m s => bool_decide (s = toy_digest (k ++ m) ++ toy_digest (k ++ m)))
  (fun _ => true).

Lemma toy_ed25519_ok : Ed25519Ok toy_ed25519.
Proof.
  split; [intros key input..|done]; cbn [sign verify_strict verifying_key toy_ed25519].
  - destruct (sha256_hash (Sha256Ok := toy_sha256_ok) (key ++ input)) as [Hz Hb].
    change (sha256 (key ++ input)) with (toy_digest (key ++ input)) in *.
    split; [by apply Forall_app|]. by rewrite zlen_app, Hz.
  - by apply bool_decide_eq_true.
Qed.

(** [no_collision] on concrete lists, by evaluation. *)
Definition collision_check `{Sha256} (xs ys : list (list Z)) : bool :=
  let hashed := map (fun y => (sha256 y, y)) ys in
  forallb (fun x => let h := sha256 x in forallb (fun p => if hash_eqb h p.1 then hash_eqb x p.2 else true) hashed) xs.

Lemma collision_check_correct `{Sha256} xs ys : collision_check xs ys = true -> no_collision xs ys.
Proof.
  intros Hc x y Hx%list_elem_of_In Hy%list_elem_of_In Heq. unfold collision_check in Hc.
  rewrite forallb_forall in Hc. specialize (Hc x Hx). cbv zeta in Hc. rewrite forallb_forall in Hc.
  specialize (Hc (sha256 y, y)). unfold hash_eqb in Hc. cbn [fst snd] in Hc. rewrite bool_decide_eq_true_2 in Hc by done.
  apply (bool_decide_eq_true_1 _), Hc, in_map_iff. by exists y.
Qed.
