(* ===== verification/MerkleLog.v ===== *)
(** * The append-only Merkle log (vot-log, merkle.rs and proof.rs)

    An RFC 6962 tree over leaf hashes: the log itself, inclusion and
    consistency proofs, and their verifiers.  The recursions over a tree's
    leaves carry the number of leaves as fuel, which is enough because every
    call is on fewer leaves; the verifier's loops keep the 64 turns the code
    gives them.  Sizes and indices are [usize], 64 bits.

    The theorems show that the verifiers accept every proof the log makes, and
    that what they accept is true: the leaf at that index, and an old head that
    is the head of a prefix. *)

From S2P Require Import Prelude Digest.

Definition LEAF_PREFIX : Z := 0x00.
Definition NODE_PREFIX : Z := 0x01.
Definition MAX_ENTRIES : Z := Z.shiftl 1 32.

Inductive Error := OutOfRange | ProofInvalid | Malformed | Unwitnessed | Full.

Definition USIZE_BITS : Z := 64.

(** [usize::leading_zeros]. *)
Definition leading_zeros (x : Z) : Z := if x =? 0 then USIZE_BITS else USIZE_BITS - 1 - Z.log2 x.

(** [usize::count_ones]. *)
Definition count_ones (x : Z) : Z := zlen (List.filter (Z.testbit x) (seqZ 0 USIZE_BITS)).

(** [split]: [debug_assert] holds at every call. *)
Definition split (n : Z) : Z := Z.shiftl 1 (USIZE_BITS - 1 - leading_zeros (n - 1)).

(** [decompose]. *)
Definition decompose (index size : Z) : Z * Z :=
  let inner := USIZE_BITS - leading_zeros (Z.lxor index (size - 1)) in
  let border := count_ones (Z.shiftr index inner) in
  (inner, border).

Section log.
Context `{H : Sha256}.

Definition leaf_hash (entry : list Z) : list Z := sha256 (LEAF_PREFIX :: entry).

Definition node_input (left right : list Z) : list Z := NODE_PREFIX :: left ++ right.
Definition node_hash (left right : list Z) : list Z := sha256 (node_input left right).

Record MerkleLog := mkMerkleLog { leaves : list (list Z) }.

Definition log_new : MerkleLog := mkMerkleLog [].

Fixpoint root_fuel (fuel : nat) (l : list (list Z)) : list Z :=
  match l with
  | [] => sha256 []
  | [leaf] => leaf
  | _ =>
      match fuel with
      | O => []
      | S fuel =>
          let k := split (zlen l) in
          node_hash (root_fuel fuel (ztake k l)) (root_fuel fuel (zdrop k l))
      end
  end.

Definition root_of (l : list (list Z)) : list Z := root_fuel (length l) l.

Fixpoint path_fuel (fuel : nat) (index : Z) (l : list (list Z)) : list (list Z) :=
  if zlen l <=? 1 then [] else
  match fuel with
  | O => []
  | S fuel =>
      let k := split (zlen l) in
      if index <? k
      then path_fuel fuel index (ztake k l) ++ [root_of (zdrop k l)]
      else path_fuel fuel (index - k) (zdrop k l) ++ [root_of (ztake k l)]
  end.

Definition path (index : Z) (l : list (list Z)) : list (list Z) := path_fuel (length l) index l.

Fixpoint subproof_fuel (fuel : nat) (old_size : Z) (l : list (list Z)) (is_prefix : bool) : list (list Z) :=
  if old_size =? zlen l then (if is_prefix then [] else [root_of l]) else
  match fuel with
  | O => []
  | S fuel =>
      let k := split (zlen l) in
      if old_size <=? k
      then subproof_fuel fuel old_size (ztake k l) is_prefix ++ [root_of (zdrop k l)]
      else subproof_fuel fuel (old_size - k) (zdrop k l) false ++ [root_of (ztake k l)]
  end.

Definition subproof (old_size : Z) (l : list (list Z)) (is_prefix : bool) : list (list Z) :=
  subproof_fuel (length l) old_size l is_prefix.

(** [MerkleLog::append]: the index, and the log with the leaf pushed. *)
Definition append (self : MerkleLog) (entry : list Z) : result Z Error * MerkleLog :=
  if MAX_ENTRIES <=? zlen (leaves self) then (Err Full, self) else
  let pushed := mkMerkleLog (leaves self ++ [leaf_hash entry]) in
  (Ok (zlen (leaves pushed) - 1), pushed).

Definition root_at (self : MerkleLog) (size : Z) : result (list Z) Error :=
  if zlen (leaves self) <? size then Err OutOfRange else Ok (root_of (ztake size (leaves self))).

Definition root (self : MerkleLog) : result (list Z) Error := root_at self (zlen (leaves self)).

Definition inclusion_proof (self : MerkleLog) (index size : Z) : result (list (list Z)) Error :=
  if (zlen (leaves self) <? size) || (size <=? index) then Err OutOfRange
  else Ok (path index (ztake size (leaves self))).

Definition consistency_proof (self : MerkleLog) (old_size new_size : Z) : result (list (list Z)) Error :=
  if (old_size =? 0) || (new_size <? old_size) || (zlen (leaves self) <? new_size) then Err OutOfRange
  else Ok (subproof old_size (ztake new_size (leaves self)) true).

(** The loop over the siblings inside the leaf's subtree, from [level]. *)
Fixpoint inner_climb (index level : Z) (computed : list Z) (siblings : list (list Z)) : list Z :=
  match siblings with
  | [] => computed
  | sibling :: rest =>
      inner_climb index (level + 1)
        (if Z.land (Z.shiftr index level) 1 =? 0 then node_hash computed sibling
         else node_hash sibling computed) rest
  end.

(** The loop over the siblings along the tree's right border. *)
Fixpoint border_climb (computed : list Z) (siblings : list (list Z)) : list Z :=
  match siblings with
  | [] => computed
  | sibling :: rest => border_climb (node_hash sibling computed) rest
  end.

Definition verify_inclusion (leaf : list Z) (index size : Z) (proof : list (list Z)) (head : list Z) :
    result unit Error :=
  if (size =? 0) || (MAX_ENTRIES <? size) || (size <=? index) then Err OutOfRange else
  let '(inner, border) := decompose index size in
  if negb (zlen proof =? inner + border) then Err ProofInvalid else
  let computed := inner_climb index 0 leaf (ztake inner proof) in
  let computed := border_climb computed (zdrop inner proof) in
  if hash_eqb computed head then Ok tt else Err ProofInvalid.

(** [for _ in 0..usize::BITS], shifting out the trailing ones of [node]. *)
Fixpoint skip_ones (fuel : nat) (node last : Z) : Z * Z :=
  match fuel with
  | O => (node, last)
  | S fuel => if Z.land node 1 =? 0 then (node, last) else skip_ones fuel (Z.shiftr node 1) (Z.shiftr last 1)
  end.

(** The loop up to the old tree's root: both heads, the last index and what is
    left of the proof. *)
Fixpoint walk_up (fuel : nat) (node last : Z) (rest : list (list Z)) (from_old from_new : list Z) :
    result (Z * list (list Z) * list Z * list Z) Error :=
  match fuel with
  | O => Ok (last, rest, from_old, from_new)
  | S fuel =>
      if node =? 0 then Ok (last, rest, from_old, from_new) else
      if Z.land node 1 =? 1 then
        match rest with
        | [] => Err ProofInvalid
        | sibling :: tail =>
            walk_up fuel (Z.shiftr node 1) (Z.shiftr last 1) tail (node_hash sibling from_old)
              (node_hash sibling from_new)
        end
      else if node <? last then
        match rest with
        | [] => Err ProofInvalid
        | sibling :: tail =>
            walk_up fuel (Z.shiftr node 1) (Z.shiftr last 1) tail from_old (node_hash from_new sibling)
        end
      else walk_up fuel (Z.shiftr node 1) (Z.shiftr last 1) rest from_old from_new
  end.

(** The loop from there to the new tree's root. *)
Fixpoint walk_right (fuel : nat) (last : Z) (rest : list (list Z)) (from_new : list Z) :
    result (list (list Z) * list Z) Error :=
  match fuel with
  | O => Ok (rest, from_new)
  | S fuel =>
      if last =? 0 then Ok (rest, from_new) else
      match rest with
      | [] => Err ProofInvalid
      | sibling :: tail => walk_right fuel (Z.shiftr last 1) tail (node_hash from_new sibling)
      end
  end.

Definition verify_consistency (old_size : Z) (old_root : list Z) (new_size : Z) (new_root : list Z)
    (proof : list (list Z)) : result unit Error :=
  if (old_size =? 0) || (new_size <? old_size) || (MAX_ENTRIES <? new_size) then Err OutOfRange else
  if old_size =? new_size then
    if bool_decide (proof = []) && hash_eqb old_root new_root then Ok tt else Err ProofInvalid
  else
  let bits := Z.to_nat USIZE_BITS in
  let '(node, last) := skip_ones bits (old_size - 1) (new_size - 1) in
  let? (rest, seed) := (if 0 <? node then
      match proof with [] => Err ProofInvalid | first :: tail => Ok (tail, first) end
    else Ok (proof, old_root)) in
  let? (last, rest, from_old, from_new) := walk_up bits node last rest seed seed in
  let? (rest, from_new) := walk_right bits last rest from_new in
  if hash_eqb from_old old_root && hash_eqb from_new new_root && bool_decide (rest = [])
  then Ok tt else Err ProofInvalid.
End log.

(** ** Powers of two and bits *)

Lemma split_spec n : 1 < n -> exists t, 0 <= t /\ split n = 2 ^ t /\ 2 ^ t < n <= 2 * 2 ^ t.
Proof.
  intros Hn. exists (Z.log2 (n - 1)). pose proof (Z.log2_spec (n - 1) ltac:(lia)) as Hl.
  pose proof (Z.log2_nonneg (n - 1)). rewrite Z.pow_succ_r in Hl by lia. split_and!; try lia.
  unfold split, leading_zeros, USIZE_BITS. destruct (Z.eqb_spec (n - 1) 0); [lia|].
  rewrite Z.shiftl_1_l. f_equal. lia.
Qed.

Lemma testbit_high a t l : 0 <= a < 2 ^ t -> 0 <= t <= l -> Z.testbit a l = false.
Proof.
  intros Ha Hl. destruct (Z.eq_dec a 0) as [->|]; [apply Z.bits_0|].
  apply Z.bits_above_log2; [lia|]. apply Z.log2_lt_pow2; [lia|].
  pose proof (Z.pow_le_mono_r 2 t l ltac:(lia) ltac:(lia)). lia.
Qed.

Lemma testbit_add_pow2 a t l :
  0 <= a < 2 ^ t -> 0 <= t -> Z.testbit (2 ^ t + a) l = (t =? l) || Z.testbit a l.
Proof.
  intros Ha Ht. assert (2 ^ t + a = Z.lor a (Z.shiftl 1 t)) as ->; [|by apply bit_set].
  rewrite Z.shiftl_1_l. pose proof (Z.add_lor_land a (2 ^ t)) as Hadd.
  assert (Z.land a (2 ^ t) = 0) as H0; [|lia].
  apply Z.bits_inj_0. intros i. rewrite Z.land_spec. destruct (Z.eq_dec t i) as [<-|Hne].
  - by rewrite (testbit_high a t t) by lia.
  - by rewrite Z.pow2_bits_false, andb_false_r.
Qed.

Lemma shiftr_add_pow2 a t l :
  0 <= a < 2 ^ t -> 0 <= l <= t -> Z.shiftr (2 ^ t + a) l = 2 ^ (t - l) + Z.shiftr a l.
Proof.
  intros Ha Hl. rewrite !Z.shiftr_div_pow2 by lia.
  replace t with ((t - l) + l) at 1 by lia. rewrite Z.pow_add_r by lia.
  rewrite Z.add_comm, Z.div_add by (apply Z.pow_nonzero; lia). lia.
Qed.

Lemma shiftr_bound a t l : 0 <= a < 2 ^ t -> 0 <= l <= t -> 0 <= Z.shiftr a l < 2 ^ (t - l).
Proof.
  intros Ha Hl. rewrite Z.shiftr_div_pow2 by lia. pose proof (Z.pow_pos_nonneg 2 l ltac:(lia) ltac:(lia)).
  split; [apply Z.div_pos; lia|]. apply Z.div_lt_upper_bound; [lia|].
  rewrite <- Z.pow_add_r by lia. replace (l + (t - l)) with t by lia. lia.
Qed.

Lemma shiftr_zero a t l : 0 <= a < 2 ^ t -> 0 <= t <= l -> Z.shiftr a l = 0.
Proof.
  intros Ha Hl. apply Z.bits_inj_0. intros i. destruct (Z.lt_ge_cases i 0); [by apply Z.testbit_neg_r|].
  rewrite Z.shiftr_spec by lia. apply (testbit_high a t); lia.
Qed.

Lemma land_1_bit x : Z.land x 1 = if Z.testbit x 0 then 1 else 0.
Proof.
  change 1 with (Z.ones 1) at 1. rewrite Z.land_ones by lia. change (2 ^ 1) with 2.
  rewrite <- Z.bit0_mod. by destruct (Z.testbit x 0).
Qed.

(** [count_ones] of a word whose set bits are those below [c], or those of
    [a] and the bit [c]. *)
Lemma count_ones_low x c :
  0 <= c <= USIZE_BITS -> (forall l, 0 <= l < USIZE_BITS -> Z.testbit x l = (l <? c)) -> count_ones x = c.
Proof.
  intros Hc Hx. unfold count_ones.
  replace USIZE_BITS with (c + (USIZE_BITS - c)) by lia. rewrite seqZ_app by lia.
  rewrite List.filter_app, zlen_app, Z.add_0_l.
  rewrite (filter_none _ (seqZ c _)) by (intros l Hl%elem_of_seqZ; rewrite Hx by lia; apply Z.ltb_ge; lia).
  rewrite filter_all by (intros l Hl%elem_of_seqZ; rewrite Hx by lia; apply Z.ltb_lt; lia).
  unfold zlen. rewrite length_seqZ. simpl. lia.
Qed.

Lemma count_ones_add a c :
  0 <= a < 2 ^ c -> 0 <= c < USIZE_BITS -> count_ones (2 ^ c + a) = count_ones a + 1.
Proof.
  intros Ha Hc. unfold count_ones.
  rewrite (filter_ext_in _ (fun l => (c =? l) || Z.testbit a l)) by (intros l _; apply testbit_add_pow2; lia).
  rewrite filter_add by (apply NoDup_seqZ || (apply (testbit_high a c); lia)).
  rewrite bool_decide_eq_true_2; [done|]. apply elem_of_seqZ. lia.
Qed.

(** ** Trees *)

Lemma tree_depth t n : 0 <= t -> 2 ^ t <= n -> n <= MAX_ENTRIES -> t < USIZE_BITS.
Proof.
  intros Ht Hn Hmax. unfold MAX_ENTRIES, USIZE_BITS in *. change (Z.shiftl 1 32) with (2 ^ 32) in Hmax.
  destruct (Z.lt_ge_cases t 64); [done|]. pose proof (Z.pow_lt_mono_r 2 32 t ltac:(lia) ltac:(lia) ltac:(lia)). lia.
Qed.

Lemma ztake_split_length {A} (l : list A) t :
  2 ^ t < zlen l <= 2 * 2 ^ t -> 0 <= t ->
  zlen (ztake (2 ^ t) l) = 2 ^ t /\ zlen (zdrop (2 ^ t) l) = zlen l - 2 ^ t.
Proof.
  intros Hl Ht. pose proof (Z.pow_pos_nonneg 2 t ltac:(lia) Ht). rewrite zlen_ztake, zlen_zdrop by lia. done.
Qed.

(** Induction on trees: one leaf, or a split at the largest power of two below
    the size. *)
Lemma tree_ind {A} (P : list A -> Prop) :
  (forall x, P [x]) ->
  (forall l t, 0 <= t -> 2 ^ t < zlen l <= 2 * 2 ^ t -> split (zlen l) = 2 ^ t ->
     P (ztake (2 ^ t) l) -> P (zdrop (2 ^ t) l) -> P l) ->
  forall l, 0 < zlen l -> P l.
Proof.
  intros H1 Hs l. induction (length l) as [n IH] eqn:Hn using (well_founded_induction lt_wf) in l |- *.
  intros Hl. destruct (Z.eq_dec (zlen l) 1) as [He|He].
  { destruct l as [|x [|y l]]; [done|apply H1|]. unfold zlen in He. simpl in He. lia. }
  destruct (split_spec (zlen l) ltac:(lia)) as (t & Ht & Hsplit & Hb).
  destruct (ztake_split_length l t Hb Ht) as [Hl1 Hl2]. pose proof (Z.pow_pos_nonneg 2 t ltac:(lia) Ht).
  apply (Hs l t); try done; (eapply IH; [|reflexivity|lia]); unfold zlen in *; lia.
Qed.

Section trees.
Context `{H : Sha256}.

Lemma root_fuel_enough f1 f2 l : (length l <= f1)%nat -> (length l <= f2)%nat -> root_fuel f1 l = root_fuel f2 l.
Proof using.
  revert f2 l. induction f1 as [|f1 IH]; intros f2 l H1 H2; [by destruct l; [destruct f2|simpl in H1; lia]|].
  destruct f2 as [|f2]; [by destruct l; [|simpl in H2; lia]|].
  destruct l as [|x [|y l]]; [done|done|]. set (l' := x :: y :: l) in *. simpl.
  assert (1 < zlen l') as Hl by (unfold l', zlen; simpl; lia).
  destruct (split_spec (zlen l') Hl) as (t & Ht & Hs & Hb). fold l'. rewrite Hs.
  destruct (ztake_split_length l' t Hb Ht) as [Hl1 Hl2]. pose proof (Z.pow_pos_nonneg 2 t ltac:(lia) Ht).
  unfold zlen in *. f_equal; apply IH; lia.
Qed.

Lemma root_of_split l t : 0 <= t -> 2 ^ t < zlen l <= 2 * 2 ^ t -> split (zlen l) = 2 ^ t ->
  root_of l = node_hash (root_of (ztake (2 ^ t) l)) (root_of (zdrop (2 ^ t) l)).
Proof using.
  intros Ht Hb Hs. pose proof (Z.pow_pos_nonneg 2 t ltac:(lia) Ht).
  destruct (ztake_split_length l t Hb Ht) as [Hl1 Hl2].
  destruct l as [|x [|y l]]; [unfold zlen in Hb; simpl in Hb; lia..|]. set (l' := x :: y :: l) in *.
  unfold root_of at 1. change (length l') with (S (length (y :: l))).
  change (root_fuel (S (length (y :: l))) l') with
    (node_hash (root_fuel (length (y :: l)) (ztake (split (zlen l')) l'))
      (root_fuel (length (y :: l)) (zdrop (split (zlen l')) l'))).
  rewrite Hs. unfold root_of, zlen in *. change (length l') with (S (length (y :: l))) in *.
  f_equal; apply root_fuel_enough; lia.
Qed.

Lemma split_unique n t : 0 <= t -> 2 ^ t < n <= 2 * 2 ^ t -> split n = 2 ^ t.
Proof using.
  intros Ht Hn. pose proof (Z.pow_pos_nonneg 2 t ltac:(lia) Ht).
  destruct (split_spec n ltac:(lia)) as (t' & Ht' & -> & Hb). f_equal.
  destruct (Z.lt_trichotomy t t') as [Hlt|[->|Hlt]]; [|done|].
  - pose proof (Z.pow_le_mono_r 2 (t + 1) t' ltac:(lia) ltac:(lia)). rewrite Z.pow_add_r in * by lia. lia.
  - pose proof (Z.pow_le_mono_r 2 (t' + 1) t ltac:(lia) ltac:(lia)). rewrite Z.pow_add_r in * by lia. lia.
Qed.

Lemma path_fuel_enough f1 f2 i l : (length l <= f1)%nat -> (length l <= f2)%nat -> path_fuel f1 i l = path_fuel f2 i l.
Proof using.
  revert f2 i l. induction f1 as [|f1 IH]; intros f2 i l H1 H2.
  { destruct l; [by destruct f2|simpl in H1; lia]. }
  destruct f2 as [|f2]; [destruct l; [done|simpl in H2; lia]|]. simpl.
  destruct (Z.leb_spec (zlen l) 1) as [|Hl]; [done|].
  destruct (split_spec (zlen l) Hl) as (t & Ht & Hs & Hb). rewrite Hs.
  destruct (ztake_split_length l t Hb Ht) as [Hl1 Hl2]. pose proof (Z.pow_pos_nonneg 2 t ltac:(lia) Ht).
  unfold zlen in *. destruct (i <? 2 ^ t); f_equal; apply IH; lia.
Qed.

Lemma path_split i l t : 0 <= t -> 2 ^ t < zlen l <= 2 * 2 ^ t -> split (zlen l) = 2 ^ t ->
  path i l = if i <? 2 ^ t then path i (ztake (2 ^ t) l) ++ [root_of (zdrop (2 ^ t) l)]
             else path (i - 2 ^ t) (zdrop (2 ^ t) l) ++ [root_of (ztake (2 ^ t) l)].
Proof using.
  intros Ht Hb Hs. pose proof (Z.pow_pos_nonneg 2 t ltac:(lia) Ht).
  destruct (ztake_split_length l t Hb Ht) as [Hl1 Hl2]. unfold path at 1.
  destruct (length l) as [|f] eqn:Hf; [unfold zlen in Hb; lia|]. simpl.
  destruct (Z.leb_spec (zlen l) 1); [lia|]. rewrite Hs. unfold path, zlen in *.
  destruct (i <? 2 ^ t); f_equal; apply path_fuel_enough; lia.
Qed.

Lemma subproof_fuel_enough f1 f2 m l b :
  (length l <= f1)%nat -> (length l <= f2)%nat -> 1 <= m <= zlen l -> subproof_fuel f1 m l b = subproof_fuel f2 m l b.
Proof using.
  revert f2 m l b. induction f1 as [|f1 IH]; intros f2 m l b H1 H2 Hm; [unfold zlen in Hm; lia|].
  destruct f2 as [|f2]; [unfold zlen in Hm; lia|]. simpl.
  destruct (Z.eqb_spec m (zlen l)) as [|Hne]; [done|].
  destruct (split_spec (zlen l) ltac:(lia)) as (t & Ht & Hs & Hb). rewrite Hs.
  destruct (ztake_split_length l t Hb Ht) as [Hl1 Hl2]. pose proof (Z.pow_pos_nonneg 2 t ltac:(lia) Ht).
  destruct (Z.leb_spec m (2 ^ t)); f_equal; apply IH; unfold zlen in *; lia.
Qed.

Lemma subproof_self l : 0 < zlen l -> subproof (zlen l) l true = [].
Proof using.
  intros Hl. unfold subproof. destruct (length l) as [|f] eqn:Hf; [unfold zlen in Hl; lia|].
  cbn [subproof_fuel]. by rewrite Z.eqb_refl.
Qed.

Lemma subproof_split m l b t : 0 <= t -> 2 ^ t < zlen l <= 2 * 2 ^ t -> split (zlen l) = 2 ^ t ->
  1 <= m < zlen l ->
  subproof m l b = if m <=? 2 ^ t then subproof m (ztake (2 ^ t) l) b ++ [root_of (zdrop (2 ^ t) l)]
                   else subproof (m - 2 ^ t) (zdrop (2 ^ t) l) false ++ [root_of (ztake (2 ^ t) l)].
Proof using.
  intros Ht Hb Hs Hm. pose proof (Z.pow_pos_nonneg 2 t ltac:(lia) Ht).
  destruct (ztake_split_length l t Hb Ht) as [Hl1 Hl2]. unfold subproof at 1.
  destruct (length l) as [|f] eqn:Hf; [unfold zlen in Hb; lia|]. simpl.
  destruct (Z.eqb_spec m (zlen l)); [lia|]. rewrite Hs. unfold subproof.
  destruct (Z.leb_spec m (2 ^ t)); f_equal; apply subproof_fuel_enough; unfold zlen in *; lia.
Qed.
End trees.

(** ** Inclusion *)

(** The side the computed hash takes at each level the verifier climbs: [true]
    on the left. *)
Definition sides (index size : Z) : list bool :=
  let '(inner, border) := decompose index size in
  map (fun l => negb (Z.testbit index l)) (seqZ 0 inner) ++ replicate (Z.to_nat border) false.

(** The number of bits of [x]. *)
Definition bit_length (x : Z) : Z := USIZE_BITS - leading_zeros x.

Lemma bit_length_spec x : 0 <= x ->
  0 <= bit_length x /\ x < 2 ^ bit_length x /\ (forall t, 0 <= t -> x < 2 ^ t -> bit_length x <= t).
Proof.
  intros Hx. unfold bit_length, leading_zeros, USIZE_BITS. destruct (Z.eqb_spec x 0) as [->|Hne].
  - split_and!; [done|done|]. intros t Ht _. done.
  - pose proof (Z.log2_spec x ltac:(lia)). pose proof (Z.log2_nonneg x).
    replace (64 - (64 - 1 - Z.log2 x)) with (Z.succ (Z.log2 x)) by lia. split_and!; try lia.
    intros t Ht Hlt. apply Z.log2_lt_pow2 in Hlt; lia.
Qed.

Lemma decompose_eq index size :
  decompose index size = (bit_length (Z.lxor index (size - 1)),
    count_ones (Z.shiftr index (bit_length (Z.lxor index (size - 1))))).
Proof. done. Qed.

Lemma bit_length_top x t : 0 <= x < 2 * 2 ^ t -> 0 <= t -> Z.testbit x t = true -> bit_length x = t + 1.
Proof.
  intros Hx Ht Hb. destruct (bit_length_spec x ltac:(lia)) as (H0 & H1 & H2).
  assert (bit_length x <= t + 1) by (apply H2; [lia|]; rewrite Z.pow_add_r by lia; lia).
  destruct (Z.lt_ge_cases t (bit_length x)); [lia|].
  rewrite (testbit_high x (bit_length x) t) in Hb by lia. done.
Qed.

Lemma lxor_bound a b t : 0 <= a < 2 ^ t -> 0 <= b < 2 ^ t -> 0 <= t -> 0 <= Z.lxor a b < 2 ^ t.
Proof.
  intros Ha Hb Ht. assert (0 <= Z.lxor a b) as H0 by (apply Z.lxor_nonneg; lia). split; [done|].
  destruct (Z.eq_dec (Z.lxor a b) 0) as [->|]; [lia|]. apply Z.log2_lt_pow2; [lia|].
  destruct (Z.lt_ge_cases (Z.log2 (Z.lxor a b)) t); [done|].
  pose proof (Z.bit_log2 (Z.lxor a b) ltac:(lia)) as Hl. rewrite Z.lxor_spec in Hl.
  rewrite !(testbit_high _ t) in Hl by lia. done.
Qed.

(** In a complete tree every level follows the index's bit. *)
Lemma sides_complete i t : 0 <= i < 2 ^ t -> 0 <= t < USIZE_BITS ->
  sides i (2 ^ t) = map (fun l => negb (Z.testbit i l)) (seqZ 0 t).
Proof.
  intros Hi Ht. unfold sides. rewrite decompose_eq. set (x := Z.lxor i (2 ^ t - 1)).
  assert (0 <= x < 2 ^ t) as Hx by (apply lxor_bound; lia).
  destruct (bit_length_spec x ltac:(lia)) as (H0 & H1 & H2). specialize (H2 t ltac:(lia) ltac:(lia)).
  set (inner := bit_length x) in *.
  assert (forall l, inner <= l < t -> Z.testbit i l = true) as Hones.
  { intros l Hl. pose proof (testbit_high x inner l ltac:(lia) ltac:(lia)) as Hb. unfold x in Hb.
    rewrite Z.lxor_spec in Hb. replace (2 ^ t - 1) with (Z.ones t) in Hb by (rewrite Z.ones_equiv; lia).
    rewrite Z.ones_spec_low in Hb by lia. by destruct (Z.testbit i l). }
  assert (count_ones (Z.shiftr i inner) = t - inner) as ->.
  { apply count_ones_low; [lia|]. intros l Hl. rewrite Z.shiftr_spec by lia.
    destruct (Z.ltb_spec l (t - inner)); [apply Hones; lia|]. apply (testbit_high i t); lia. }
  replace t with (inner + (t - inner)) at 2 by lia. rewrite seqZ_app, map_app by lia. f_equal.
  rewrite Z.add_0_l. apply list_eq. intros n. change (map ?f ?l) with (f <$> l). rewrite list_lookup_fmap.
  destruct (seqZ inner (t - inner) !! n) as [l|] eqn:Hl; simpl.
  - apply lookup_seqZ in Hl as [-> Hn]. rewrite Hones by lia. apply lookup_replicate. split; [done|lia].
  - apply lookup_ge_None in Hl. rewrite length_seqZ in Hl. apply lookup_ge_None. rewrite length_replicate. lia.
Qed.

Lemma sides_left i n t : 0 <= i < 2 ^ t -> 2 ^ t < n <= 2 * 2 ^ t -> 0 <= t < USIZE_BITS ->
  sides i n = sides i (2 ^ t) ++ [true].
Proof.
  intros Hi Hn Ht. rewrite (sides_complete i t Hi Ht). unfold sides. rewrite decompose_eq.
  assert (n - 1 = 2 ^ t + (n - 1 - 2 ^ t)) as Hn1 by lia.
  assert (bit_length (Z.lxor i (n - 1)) = t + 1) as ->.
  { apply bit_length_top; [|lia|].
    - rewrite <- Z.pow_succ_r by lia. apply lxor_bound; rewrite ?Z.pow_succ_r by lia; lia.
    - rewrite Z.lxor_spec, (testbit_high i t t), Hn1, testbit_add_pow2, Z.eqb_refl by lia. done. }
  rewrite (shiftr_zero i t) by lia. change (count_ones 0) with 0. rewrite app_nil_r.
  rewrite seqZ_app, map_app by lia. f_equal. rewrite Z.add_0_l. assert (seqZ t 1 = [t]) as -> by (by rewrite seqZ_cons by lia). simpl. rewrite (testbit_high i t t) by lia. done.
Qed.

Lemma sides_right i n t : 2 ^ t <= i < n -> 2 ^ t < n <= 2 * 2 ^ t -> 0 <= t < USIZE_BITS ->
  sides i n = sides (i - 2 ^ t) (n - 2 ^ t) ++ [false].
Proof.
  intros Hi Hn Ht. unfold sides. rewrite !decompose_eq.
  set (i' := i - 2 ^ t). set (y := n - 2 ^ t - 1). assert (0 <= i' < 2 ^ t /\ 0 <= y < 2 ^ t) as [Hi' Hy] by lia.
  replace i with (2 ^ t + i') by lia. replace (n - 1) with (2 ^ t + y) by lia.
  assert (Z.lxor (2 ^ t + i') (2 ^ t + y) = Z.lxor i' y) as ->.
  { apply Z.bits_inj'. intros l Hl. rewrite !Z.lxor_spec, !testbit_add_pow2 by lia.
    destruct (Z.eqb_spec t l) as [<-|]; [|done]. by rewrite !(testbit_high _ t t) by lia. }
  destruct (bit_length_spec (Z.lxor i' y)) as (H0 & _ & H2); [apply lxor_bound with (t := t); lia|].
  specialize (H2 t ltac:(lia) ltac:(apply lxor_bound; lia)). set (inner := bit_length (Z.lxor i' y)) in *.
  rewrite shiftr_add_pow2 by lia. pose proof (shiftr_bound i' t inner ltac:(lia) ltac:(lia)).
  rewrite count_ones_add by lia. rewrite Z2Nat.inj_add by (unfold count_ones; try apply zlen_nonneg; lia).
  rewrite <- app_assoc. f_equal.
  - apply map_ext_in. intros l Hl%list_elem_of_In%elem_of_seqZ. rewrite testbit_add_pow2 by lia.
    destruct (Z.eqb_spec t l); [lia|done].
  - rewrite replicate_add. done.
Qed.

Section inclusion.
Context `{HOk : Sha256Ok}.

(** Climbing by a list of sides, and the inputs it hashes. *)
Fixpoint climb (ds : list bool) (computed : list Z) (siblings : list (list Z)) : list Z :=
  match ds, siblings with
  | d :: ds, s :: rest => climb ds (if d then node_hash computed s else node_hash s computed) rest
  | _, _ => computed
  end.

Fixpoint climb_inputs (ds : list bool) (computed : list Z) (siblings : list (list Z)) : list (list Z) :=
  match ds, siblings with
  | d :: ds, s :: rest =>
      let input := if d then node_input computed s else node_input s computed in
      input :: climb_inputs ds (sha256 input) rest
  | _, _ => []
  end.

(** Every node the log hashes for a tree. *)
Fixpoint tree_inputs_fuel (fuel : nat) (l : list (list Z)) : list (list Z) :=
  if zlen l <=? 1 then [] else
  match fuel with
  | O => []
  | S fuel =>
      let k := split (zlen l) in
      node_input (root_of (ztake k l)) (root_of (zdrop k l)) ::
        tree_inputs_fuel fuel (ztake k l) ++ tree_inputs_fuel fuel (zdrop k l)
  end.

Definition tree_inputs (l : list (list Z)) : list (list Z) := tree_inputs_fuel (length l) l.

Lemma tree_inputs_fuel_enough f1 f2 l :
  (length l <= f1)%nat -> (length l <= f2)%nat -> tree_inputs_fuel f1 l = tree_inputs_fuel f2 l.
Proof using.
  revert f2 l. induction f1 as [|f1 IH]; intros f2 l H1 H2.
  { destruct l; [by destruct f2|simpl in H1; lia]. }
  destruct f2 as [|f2]; [destruct l; [done|simpl in H2; lia]|]. simpl.
  destruct (Z.leb_spec (zlen l) 1) as [|Hl]; [done|].
  destruct (split_spec (zlen l) Hl) as (t & Ht & Hs & Hb). rewrite Hs.
  destruct (ztake_split_length l t Hb Ht) as [Hl1 Hl2]. pose proof (Z.pow_pos_nonneg 2 t ltac:(lia) Ht).
  unfold zlen in *. do 2 f_equal; apply IH; lia.
Qed.

Lemma tree_inputs_split l t : 0 <= t -> 2 ^ t < zlen l <= 2 * 2 ^ t -> split (zlen l) = 2 ^ t ->
  tree_inputs l = node_input (root_of (ztake (2 ^ t) l)) (root_of (zdrop (2 ^ t) l)) ::
    tree_inputs (ztake (2 ^ t) l) ++ tree_inputs (zdrop (2 ^ t) l).
Proof using.
  intros Ht Hb Hs. pose proof (Z.pow_pos_nonneg 2 t ltac:(lia) Ht).
  destruct (ztake_split_length l t Hb Ht) as [Hl1 Hl2]. unfold tree_inputs at 1.
  destruct (length l) as [|f] eqn:Hf; [unfold zlen in Hb; lia|]. simpl.
  destruct (Z.leb_spec (zlen l) 1); [lia|]. rewrite Hs. unfold tree_inputs, zlen in *.
  do 2 f_equal; apply tree_inputs_fuel_enough; lia.
Qed.

Lemma climb_snoc ds d computed siblings s : length ds = length siblings ->
  climb (ds ++ [d]) computed (siblings ++ [s]) =
    (if d then node_hash (climb ds computed siblings) s else node_hash s (climb ds computed siblings)).
Proof using.
  revert computed siblings. induction ds as [|d' ds IH]; intros computed [|s' siblings] Hl; try done. simpl.
  rewrite IH by (simpl in Hl; lia). done.
Qed.

Lemma climb_inputs_snoc ds d computed siblings s : length ds = length siblings ->
  climb_inputs (ds ++ [d]) computed (siblings ++ [s]) = climb_inputs ds computed siblings ++
    [if d then node_input (climb ds computed siblings) s else node_input s (climb ds computed siblings)].
Proof using.
  revert computed siblings. induction ds as [|d' ds IH]; intros computed [|s' siblings] Hl; try done. simpl.
  rewrite IH by (simpl in Hl; lia). unfold node_hash. by destruct d'.
Qed.

(** Hashes of the right length, so a node input determines its two parts. *)
Lemma node_input_inj a b c d : is_hash a -> is_hash c -> node_input a b = node_input c d -> a = c /\ b = d.
Proof using.
  intros [Ha _] [Hc _] [= Heq]. apply app_inj_1 in Heq; [done|]. unfold zlen in *. lia.
Qed.

Lemma node_hash_is_hash a b : is_hash (node_hash a b).
Proof using HOk. apply sha256_hash. Qed.

Lemma climb_is_hash ds computed siblings : is_hash computed -> is_hash (climb ds computed siblings).
Proof using HOk.
  revert computed siblings. induction ds as [|d ds IH]; intros computed [|s siblings] Hc; try done. simpl.
  apply IH. destruct d; apply node_hash_is_hash.
Qed.

(** Two climbs of one shape that meet started together, short of a collision. *)
Lemma climb_injective ds : forall c1 c2 p1 p2,
  length p1 = length ds -> length p2 = length ds -> is_hash c1 -> is_hash c2 ->
  Forall is_hash p1 -> Forall is_hash p2 ->
  no_collision (climb_inputs ds c1 p1) (climb_inputs ds c2 p2) ->
  climb ds c1 p1 = climb ds c2 p2 -> c1 = c2 /\ p1 = p2.
Proof using HOk.
  induction ds as [|d ds IH] using rev_ind; intros c1 c2 p1 p2 Hl1 Hl2 Hc1 Hc2 Hp1 Hp2 Hno Heq.
  { destruct p1, p2; try done. }
  rewrite length_app in Hl1, Hl2. simpl in Hl1, Hl2.
  destruct p1 as [|s1 p1 _] using rev_ind; [simpl in Hl1; lia|].
  destruct p2 as [|s2 p2 _] using rev_ind; [simpl in Hl2; lia|].
  rewrite length_app in Hl1, Hl2. simpl in Hl1, Hl2.
  apply Forall_app in Hp1 as [Hp1 Hs1]. apply Forall_app in Hp2 as [Hp2 Hs2].
  apply Forall_cons in Hs1 as [Hs1 _]. apply Forall_cons in Hs2 as [Hs2 _].
  rewrite !climb_snoc in Heq by lia. rewrite !climb_inputs_snoc in Hno by lia.
  pose proof (climb_is_hash ds c1 p1 Hc1) as Hk1. pose proof (climb_is_hash ds c2 p2 Hc2) as Hk2.
  assert (climb ds c1 p1 = climb ds c2 p2 /\ s1 = s2) as [Hceq ->].
  { destruct d.
    - apply (node_input_inj _ _ _ _ Hk1 Hk2). apply Hno; [set_solver..|exact Heq].
    - apply and_comm, (node_input_inj _ _ _ _ Hs1 Hs2). apply Hno; [set_solver..|exact Heq]. }
  destruct (IH c1 c2 p1 p2) as [-> ->]; try done; try lia.
  eapply no_collision_mono; [| |exact Hno]; set_solver.
Qed.

Lemma root_is_hash l : 0 < zlen l -> Forall is_hash l -> is_hash (root_of l).
Proof using HOk.
  intros Hl Hh. destruct (Z.eq_dec (zlen l) 1) as [He|].
  - destruct l as [|x [|y l]]; [done|by apply Forall_cons in Hh as [? _]|unfold zlen in He; simpl in He; lia].
  - destruct (split_spec (zlen l) ltac:(lia)) as (t & Ht & Hs & Hb).
    rewrite (root_of_split l t Ht Hb Hs). apply node_hash_is_hash.
Qed.

Lemma lookup_split {A} (l : list A) t i : 0 <= i ->
  l !! Z.to_nat i = if i <? 2 ^ t then ztake (2 ^ t) l !! Z.to_nat i
                    else zdrop (2 ^ t) l !! Z.to_nat (i - 2 ^ t).
Proof using.
  intros Hi. unfold ztake, zdrop. destruct (Z.ltb_spec i (2 ^ t)).
  - by rewrite lookup_take_lt by lia.
  - rewrite lookup_drop. f_equal. pose proof (Z.pow_nonneg 2 t ltac:(lia)). lia.
Qed.

(** The proof the log makes climbs from the leaf to the root, by the sides the
    verifier derives, through nodes of the tree. *)
Lemma path_climbs l : 0 < zlen l -> zlen l <= MAX_ENTRIES -> Forall is_hash l ->
  forall i leaf, 0 <= i < zlen l -> l !! Z.to_nat i = Some leaf ->
    length (sides i (zlen l)) = length (path i l) /\ Forall is_hash (path i l) /\
    climb (sides i (zlen l)) leaf (path i l) = root_of l /\
    (forall x, x ∈ climb_inputs (sides i (zlen l)) leaf (path i l) -> x ∈ tree_inputs l).
Proof using HOk.
  revert l. refine (tree_ind _ _ _); [intros x Hmax Hh i leaf Hi Hleaf|intros l t Ht Hb Hs IHl IHr Hmax Hh i leaf Hi Hleaf].
  { change (zlen [x]) with 1 in *. assert (i = 0) as -> by lia. injection Hleaf as <-. vm_compute. set_solver. }
  destruct (ztake_split_length l t Hb Ht) as [Hl1 Hl2]. pose proof (Z.pow_pos_nonneg 2 t ltac:(lia) Ht) as Hpos.
  pose proof (tree_depth t (zlen l) Ht ltac:(lia) Hmax) as Htb.
  rewrite (path_split i l t Ht Hb Hs), (root_of_split l t Ht Hb Hs), (tree_inputs_split l t Ht Hb Hs).
  rewrite (lookup_split l t i) in Hleaf by lia.
  assert (Forall is_hash (ztake (2 ^ t) l) /\ Forall is_hash (zdrop (2 ^ t) l)) as [Hh1 Hh2]
    by (split; [by apply Forall_take|by apply Forall_drop]).
  destruct (Z.ltb_spec i (2 ^ t)) as [Hlt|Hge].
  - destruct (IHl ltac:(lia) Hh1 i leaf ltac:(lia) Hleaf) as (H1 & H2 & H3 & H4). rewrite Hl1 in *.
    rewrite (sides_left i (zlen l) t) by lia. rewrite climb_snoc, climb_inputs_snoc, H3, !length_app, H1 by lia.
    split_and!; [done| |done|set_solver].
    apply Forall_app. split; [done|]. constructor; [|constructor]. apply root_is_hash; [lia|done].
  - destruct (IHr ltac:(lia) Hh2 (i - 2 ^ t) leaf ltac:(lia) Hleaf) as (H1 & H2 & H3 & H4). rewrite Hl2 in *.
    rewrite (sides_right i (zlen l) t) by lia. rewrite climb_snoc, climb_inputs_snoc, H3, !length_app, H1 by lia.
    split_and!; [done| |done|set_solver].
    apply Forall_app. split; [done|]. constructor; [|constructor]. apply root_is_hash; [lia|done].
Qed.

(** The verifier's two loops are one climb by [sides]. *)
Lemma inner_climb_sides index level computed siblings : 0 <= level ->
  inner_climb index level computed siblings =
    climb (map (fun l => negb (Z.testbit index l)) (seqZ level (zlen siblings))) computed siblings.
Proof using.
  revert level computed. induction siblings as [|s rest IH]; intros level computed Hl; [done|].
  rewrite zlen_cons. pose proof (zlen_nonneg rest). rewrite seqZ_cons by lia. simpl.
  replace (Z.succ level) with (level + 1) by lia. replace (Z.pred (1 + zlen rest)) with (zlen rest) by lia.
  rewrite IH by lia. rewrite land_1_bit, Z.shiftr_spec, Z.add_0_l by lia. by destruct (Z.testbit index level).
Qed.

Lemma border_climb_sides computed siblings :
  border_climb computed siblings = climb (replicate (length siblings) false) computed siblings.
Proof using. revert computed. induction siblings as [|s rest IH]; intros computed; [done|]. simpl. apply IH. Qed.

Lemma climb_app ds1 ds2 computed p1 p2 : length ds1 = length p1 ->
  climb (ds1 ++ ds2) computed (p1 ++ p2) = climb ds2 (climb ds1 computed p1) p2.
Proof using.
  revert computed p1. induction ds1 as [|d ds1 IH]; intros computed [|s p1] Hl; try done. simpl.
  apply IH. simpl in Hl. lia.
Qed.

Lemma verify_inclusion_climb leaf index size proof head :
  0 <= index < size -> size <= MAX_ENTRIES ->
  verify_inclusion leaf index size proof head = Ok tt <->
    length proof = length (sides index size) /\ climb (sides index size) leaf proof = head.
Proof using.
  intros Hi Hs. unfold verify_inclusion, sides. rewrite decompose_eq.
  set (inner := bit_length _). set (border := count_ones _).
  assert (0 <= inner) as H0 by (apply bit_length_spec, Z.lxor_nonneg; lia).
  assert (0 <= border) as H1 by apply zlen_nonneg.
  destruct (Z.eqb_spec size 0); [lia|]. destruct (Z.ltb_spec MAX_ENTRIES size); [lia|].
  destruct (Z.leb_spec size index); [lia|]. simpl.
  rewrite length_app, length_map, length_seqZ, length_replicate.
  destruct (Z.eqb_spec (zlen proof) (inner + border)) as [Hl|Hl]; simpl.
  2: { split; [done|]. intros [Hl' _]. unfold zlen in Hl. lia. }
  rewrite inner_climb_sides, border_climb_sides, zlen_ztake by lia.
  replace (length (zdrop inner proof)) with (Z.to_nat border)
    by (unfold zdrop; rewrite length_drop; unfold zlen in Hl; lia).
  rewrite <- climb_app by (rewrite length_map, length_seqZ; unfold ztake; rewrite length_take; unfold zlen in Hl; lia).
  rewrite ztake_zdrop. unfold hash_eqb. unfold zlen in Hl.
  case_bool_decide as Hc; split; try done; [split; [lia|done]|]. by intros [_ ?].
Qed.
End inclusion.

(** ** Consistency: the shape of the walk *)

(** The sibling taken at level [l] between the last leaf [x] of the old tree
    and the last leaf [y] of the new one: on the left of both heads ([false]),
    on the right of the new head only ([true]), or none. *)
Definition level_side (x y l : Z) : list bool :=
  if Z.testbit x l then [false] else if Z.shiftr x l <? Z.shiftr y l then [true] else [].

Fixpoint walk_sides (fuel : nat) (node last : Z) : list bool :=
  match fuel with
  | O => []
  | S fuel => level_side node last 0 ++ walk_sides fuel (Z.shiftr node 1) (Z.shiftr last 1)
  end.

Definition levels (x y from count : Z) : list bool := mjoin (map (level_side x y) (seqZ from count)).

Lemma levels_app x y from a b : 0 <= a -> 0 <= b ->
  levels x y from (a + b) = levels x y from a ++ levels x y (from + a) b.
Proof. intros Ha Hb. unfold levels. by rewrite seqZ_app, map_app, join_app by lia. Qed.

Lemma levels_one x y from : levels x y from 1 = level_side x y from.
Proof. unfold levels. rewrite seqZ_cons by lia. simpl. apply app_nil_r. Qed.

Lemma levels_none x y from count :
  (forall l, from <= l < from + count -> level_side x y l = []) -> levels x y from count = [].
Proof.
  intros Hn. unfold levels. assert (forall l, l ∈ seqZ from count -> level_side x y l = []) as H'
    by (intros l Hl%elem_of_seqZ; apply Hn; lia).
  induction (seqZ from count) as [|a l IH]; [done|]. simpl. rewrite H', IH by set_solver. done.
Qed.

Lemma levels_ext x y x' y' from count :
  (forall l, from <= l < from + count -> level_side x y l = level_side x' y' l) ->
  levels x y from count = levels x' y' from count.
Proof.
  intros He. unfold levels. f_equal. apply map_ext_in. intros l Hl%list_elem_of_In%elem_of_seqZ. apply He. lia.
Qed.

Lemma walk_sides_levels fuel x y s : 0 <= s ->
  walk_sides fuel (Z.shiftr x s) (Z.shiftr y s) = levels x y s (Z.of_nat fuel).
Proof.
  revert s. induction fuel as [|fuel IH]; intros s Hs; [done|].
  replace (Z.of_nat (S fuel)) with (1 + Z.of_nat fuel) by lia. rewrite levels_app, levels_one by lia. simpl.
  rewrite !Z.shiftr_shiftr, IH by lia. f_equal. unfold level_side.
  rewrite Z.shiftr_spec, Z.add_0_l, !Z.shiftr_shiftr, !Z.add_0_r by lia. done.
Qed.

(** The number of trailing ones. *)
Definition trailing (x s : Z) : Prop :=
  0 <= s /\ (forall l, 0 <= l < s -> Z.testbit x l = true) /\ Z.testbit x s = false.

Lemma trailing_unique x s s' : trailing x s -> trailing x s' -> s = s'.
Proof.
  intros (H0 & H1 & H2) (H0' & H1' & H2'). destruct (Z.lt_trichotomy s s') as [Hlt|[?|Hlt]]; [|done|].
  - rewrite H1' in H2 by lia. done.
  - rewrite H1 in H2' by lia. done.
Qed.

Lemma skip_ones_spec fuel x y : 0 <= x < 2 ^ Z.of_nat fuel ->
  exists s, trailing x s /\ s <= Z.of_nat fuel /\ skip_ones fuel x y = (Z.shiftr x s, Z.shiftr y s).
Proof.
  revert x y. induction fuel as [|fuel IH]; intros x y Hx.
  { assert (x = 0) as -> by (simpl in Hx; lia). exists 0. rewrite !Z.shiftr_0_r. split; [|done]. split; [done|]. split; [lia|done]. }
  simpl. rewrite land_1_bit. destruct (Z.testbit x 0) eqn:Hb; simpl.
  - destruct (IH (Z.shiftr x 1) (Z.shiftr y 1)) as (s & (H0 & H1 & H2) & Hs & ->).
    { pose proof (shiftr_bound x (Z.of_nat (S fuel)) 1 ltac:(lia) ltac:(lia)) as H.
      by replace (Z.of_nat (S fuel) - 1) with (Z.of_nat fuel) in H by lia. }
    exists (1 + s). rewrite !Z.shiftr_shiftr by lia. split; [|split; [lia|done]]. split; [lia|]. split.
    + intros l Hl. destruct (Z.eq_dec l 0) as [->|]; [done|]. specialize (H1 (l - 1) ltac:(lia)).
      rewrite Z.shiftr_spec in H1 by lia. by replace (l - 1 + 1) with l in H1 by lia.
    + rewrite Z.shiftr_spec in H2 by lia. by rewrite Z.add_comm.
  - exists 0. rewrite !Z.shiftr_0_r. split; [|split; [lia|done]]. split; [done|]. split; [lia|done].
Qed.

Lemma trailing_le x s t : trailing x s -> 0 <= x < 2 ^ t -> 0 <= t -> s <= t.
Proof.
  intros (H0 & H1 & H2) Hx Ht. destruct (Z.lt_ge_cases t s); [|lia].
  specialize (H1 t ltac:(lia)). by rewrite (testbit_high x t t) in H1 by lia.
Qed.

(** The sides for sizes [m] and [n], from the level the walk starts at. *)
Definition consistency_sides (m n s : Z) : list bool := levels (m - 1) (n - 1) s USIZE_BITS.

Lemma consistency_sides_left m n t s :
  1 <= m <= 2 ^ t -> 2 ^ t < n <= 2 * 2 ^ t -> trailing (m - 1) s -> 0 <= t < USIZE_BITS ->
  consistency_sides m n s = consistency_sides m (2 ^ t) s ++ [true].
Proof.
  intros Hm Hn Htr Ht. pose proof (trailing_le _ _ t Htr ltac:(lia) ltac:(lia)) as Hst. destruct Htr as (Hs0 & _ & _).
  unfold consistency_sides. set (x := m - 1). set (y := n - 1).
  assert (0 <= x < 2 ^ t) as Hx by lia. assert (y = 2 ^ t + (n - 1 - 2 ^ t)) as Hy by lia.
  replace USIZE_BITS with ((t - s) + (1 + (USIZE_BITS - 1 - (t - s)))) by lia.
  rewrite !levels_app by lia. replace (s + (t - s)) with t by lia. rewrite !levels_one.
  rewrite (levels_none x y (t + 1)), (levels_none x (2 ^ t - 1) (t + 1)).
  2,3: intros l Hl; unfold level_side; rewrite (testbit_high x t), !(shiftr_zero _ (t + 1)) by
    (rewrite ?Z.pow_add_r by lia; lia); done.
  assert (level_side x y t = [true] /\ level_side x (2 ^ t - 1) t = []) as [-> ->].
  { unfold level_side. rewrite (testbit_high x t), (shiftr_zero x t), (shiftr_zero (2 ^ t - 1) t) by lia.
    rewrite Hy, shiftr_add_pow2 by lia. rewrite (shiftr_zero (n - 1 - 2 ^ t) t) by lia.
    replace (t - t) with 0 by lia. done. }
  simpl. rewrite !app_nil_r. f_equal. apply levels_ext. intros l Hl. unfold level_side.
  destruct (Z.testbit x l) eqn:Hb; [done|].
  pose proof (shiftr_bound x t l ltac:(lia) ltac:(lia)) as Hxl.
  assert (Z.shiftr x l < 2 ^ (t - l) - 1) as Hlt.
  { assert (Z.shiftr x l <> 2 ^ (t - l) - 1); [|lia]. intros He.
    assert (Z.testbit (Z.shiftr x l) 0 = true) as Hodd.
    { rewrite He. replace (2 ^ (t - l) - 1) with (Z.ones (t - l)) by (rewrite Z.ones_equiv; lia).
      apply Z.ones_spec_low. lia. }
    rewrite Z.shiftr_spec, Z.add_0_l in Hodd by lia. congruence. }
  assert (Z.shiftr (2 ^ t - 1) l = 2 ^ (t - l) - 1) as ->.
  { rewrite Z.shiftr_div_pow2 by lia. symmetry. apply (Z.div_unique _ _ _ (2 ^ l - 1)).
    - pose proof (Z.pow_pos_nonneg 2 l ltac:(lia) ltac:(lia)). lia.
    - replace t with (l + (t - l)) at 1 by lia. rewrite Z.pow_add_r by lia. ring. }
  rewrite Hy, shiftr_add_pow2 by lia.
  pose proof (shiftr_bound (n - 1 - 2 ^ t) t l ltac:(lia) ltac:(lia)). zcases; lia || done.
Qed.

Lemma consistency_sides_right m n t s :
  2 ^ t < m < n -> n <= 2 * 2 ^ t -> trailing (m - 2 ^ t - 1) s -> 0 <= t < USIZE_BITS ->
  consistency_sides m n s = consistency_sides (m - 2 ^ t) (n - 2 ^ t) s ++ [false] /\
  trailing (m - 1) s /\ s < t.
Proof.
  intros Hm Hn Htr Ht. pose proof (trailing_le _ _ t Htr ltac:(lia) ltac:(lia)) as Hst.
  assert (s < t) as Hlt.
  { destruct (Z.eq_dec s t) as [->|]; [|lia]. destruct Htr as (_ & H1 & _).
    assert (m - 2 ^ t - 1 = Z.ones t); [|rewrite Z.ones_equiv in *; lia].
    apply Z.bits_inj'. intros l Hl. destruct (Z.lt_ge_cases l t).
    - by rewrite H1, Z.ones_spec_low by lia.
    - by rewrite (testbit_high _ t), Z.ones_spec_high by lia. }
  unfold consistency_sides. set (x := m - 2 ^ t - 1) in *. set (y := n - 2 ^ t - 1).
  assert (0 <= x < 2 ^ t /\ 0 <= y < 2 ^ t) as [Hx Hy] by lia.
  replace (m - 1) with (2 ^ t + x) by lia. replace (n - 1) with (2 ^ t + y) by lia. split.
  2: { split; [|done]. destruct Htr as (H0 & H1 & H2). split_and!; [done| |].
       - intros l Hl. rewrite testbit_add_pow2, H1 by lia. apply orb_true_r.
       - rewrite testbit_add_pow2, H2 by lia. destruct (Z.eqb_spec t s); [lia|done]. }
  assert (0 <= s) as Hs0 by apply Htr.
  replace USIZE_BITS with ((t - s) + (1 + (USIZE_BITS - 1 - (t - s)))) by lia.
  rewrite !levels_app by lia. replace (s + (t - s)) with t by lia. rewrite !levels_one.
  rewrite (levels_none (2 ^ t + x) (2 ^ t + y) (t + 1)), (levels_none x y (t + 1)).
  2,3: intros l Hl; unfold level_side; rewrite (testbit_high _ (t + 1)), !(shiftr_zero _ (t + 1)) by
    (rewrite ?Z.pow_add_r by lia; lia); done.
  assert (level_side (2 ^ t + x) (2 ^ t + y) t = [false] /\ level_side x y t = []) as [-> ->].
  { unfold level_side. rewrite testbit_add_pow2, Z.eqb_refl by lia. split; [done|].
    by rewrite (testbit_high x t), !(shiftr_zero _ t) by lia. }
  simpl. rewrite !app_nil_r. f_equal. apply levels_ext. intros l Hl. unfold level_side.
  rewrite testbit_add_pow2, !shiftr_add_pow2 by lia. destruct (Z.eqb_spec t l); [lia|]. simpl.
  destruct (Z.testbit x l); [done|]. zcases; lia || done.
Qed.

Lemma trailing_exists x : 0 <= x < 2 ^ USIZE_BITS -> exists s, trailing x s.
Proof.
  intros Hx. destruct (skip_ones_spec (Z.to_nat USIZE_BITS) x x) as (s & Hs & _); [done|by exists s].
Qed.

Lemma consistency_sides_whole j s : 0 <= j < USIZE_BITS -> trailing (2 ^ j - 1) s ->
  s = j /\ consistency_sides (2 ^ j) (2 ^ j) s = [].
Proof.
  intros Hj Htr. pose proof (Z.pow_pos_nonneg 2 j ltac:(lia) ltac:(lia)).
  assert (trailing (2 ^ j - 1) j) as Hj'.
  { replace (2 ^ j - 1) with (Z.ones j) by (rewrite Z.ones_equiv; lia). split; [lia|]. split.
    - intros l Hl. apply Z.ones_spec_low. lia.
    - apply Z.ones_spec_high. lia. }
  rewrite (trailing_unique _ _ _ Htr Hj'). split; [done|]. apply levels_none. intros l Hl. unfold level_side.
  by rewrite (testbit_high _ j), (shiftr_zero _ j), Z.ltb_irrefl by lia.
Qed.

Section consistency.
Context `{HOk : Sha256Ok}.

(** The old head's climb: only siblings on the left count. *)
Fixpoint old_climb (ds : list bool) (computed : list Z) (siblings : list (list Z)) : list Z :=
  match ds, siblings with
  | d :: ds, s :: rest => old_climb ds (if d then computed else node_hash s computed) rest
  | _, _ => computed
  end.

Lemma old_climb_snoc ds d computed siblings s : length ds = length siblings ->
  old_climb (ds ++ [d]) computed (siblings ++ [s]) =
    (if d then old_climb ds computed siblings else node_hash s (old_climb ds computed siblings)).
Proof using.
  revert computed siblings. induction ds as [|d' ds IH]; intros computed [|s' siblings] Hl; try done. simpl.
  rewrite IH by (simpl in Hl; lia). done.
Qed.

Lemma ztake_ztake {A} (l : list A) a b : a <= b -> ztake a (ztake b l) = ztake a l.
Proof using. intros Hab. unfold ztake. rewrite take_take. f_equal. lia. Qed.

Lemma root_of_prefix l t m : 0 <= t -> 2 ^ t < m <= 2 * 2 ^ t -> m <= zlen l ->
  root_of (ztake m l) = node_hash (root_of (ztake (2 ^ t) l)) (root_of (ztake (m - 2 ^ t) (zdrop (2 ^ t) l))).
Proof using.
  intros Ht Hm Hl. pose proof (Z.pow_pos_nonneg 2 t ltac:(lia) Ht).
  assert (zlen (ztake m l) = m) as Hz by (apply zlen_ztake; lia).
  rewrite (root_of_split (ztake m l) t) by (rewrite ?Hz; try done; try lia; by apply split_unique).
  rewrite ztake_ztake by lia. do 2 f_equal. unfold ztake, zdrop. rewrite skipn_firstn_comm. f_equal. lia.
Qed.

(** What the log's consistency proof is: a seed and siblings that climb to the
    new head and, without the siblings on the right, to the old one. *)
Definition honest_walk (l : list (list Z)) (m s : Z) (seed : list Z) (hs : list (list Z)) : Prop :=
  is_hash seed /\ Forall is_hash hs /\ length hs = length (consistency_sides m (zlen l) s) /\
  climb (consistency_sides m (zlen l) s) seed hs = root_of l /\
  old_climb (consistency_sides m (zlen l) s) seed hs = root_of (ztake m l) /\
  (forall x, x ∈ climb_inputs (consistency_sides m (zlen l) s) seed hs -> x ∈ tree_inputs l).

Lemma honest_walk_whole l j s : zlen l = 2 ^ j -> 0 <= j < USIZE_BITS -> Forall is_hash l ->
  trailing (zlen l - 1) s -> honest_walk l (zlen l) s (root_of l) [] /\ Z.shiftr (zlen l - 1) s = 0.
Proof using HOk.
  intros Hj Hb Hh Htr. pose proof (Z.pow_pos_nonneg 2 j ltac:(lia) ltac:(lia)). unfold honest_walk. rewrite Hj in *.
  destruct (consistency_sides_whole j s Hb Htr) as [-> ->].
  split; [|by rewrite (shiftr_zero _ j) by lia]. split_and!; try done.
  - apply root_is_hash; [lia|done].
  - simpl. by rewrite ztake_all by lia.
  - set_solver.
Qed.

Lemma subproof_walks_whole l m s :
  0 < zlen l -> zlen l <= MAX_ENTRIES -> Forall is_hash l -> trailing (m - 1) s ->
  m = zlen l -> (exists j, 0 <= j /\ m = 2 ^ j) ->
  exists seed hs, subproof m l false = seed :: hs /\
    subproof m l true = (if Z.shiftr (m - 1) s =? 0 then hs else seed :: hs) /\ honest_walk l m s seed hs.
Proof using HOk.
  intros Hl Hmax Hh Htr -> (j & Hj & Hm).
  destruct (honest_walk_whole l j s) as [Hw H0]; try done.
  { split; [done|]. apply (tree_depth j (zlen l)); [done|lia|done]. }
  exists (root_of l), []. rewrite H0. unfold subproof. destruct (length l) as [|f] eqn:Hf; [unfold zlen in Hl; lia|].
  simpl. rewrite Z.eqb_refl. done.
Qed.

Lemma subproof_walks l : 0 < zlen l -> zlen l <= MAX_ENTRIES -> Forall is_hash l ->
  forall m s, 1 <= m -> (m < zlen l \/ m = zlen l /\ exists j, 0 <= j /\ m = 2 ^ j) -> trailing (m - 1) s ->
    exists seed hs, subproof m l false = seed :: hs /\
      subproof m l true = (if Z.shiftr (m - 1) s =? 0 then hs else seed :: hs) /\ honest_walk l m s seed hs.
Proof using HOk.
  revert l. refine (tree_ind _ _ _); [intros x Hmax Hh m s Hm Hcase Htr|intros l t Ht Hb Hs IHl IHr Hmax Hh m s Hm Hcase Htr].
  { apply (subproof_walks_whole [x]); try done; [change (zlen [x]) with 1 in *; lia|]. exists 0. change (zlen [x]) with 1 in *. lia. }
  pose proof (Z.pow_pos_nonneg 2 t ltac:(lia) Ht) as Hpos.
  destruct Hcase as [Hlt|[Heq Hj]]; [|by apply subproof_walks_whole; try done; lia].
  destruct (ztake_split_length l t Hb Ht) as [Hl1 Hl2].
  pose proof (tree_depth t (zlen l) Ht ltac:(lia) Hmax) as Htb.
  assert (Forall is_hash (ztake (2 ^ t) l) /\ Forall is_hash (zdrop (2 ^ t) l)) as [Hh1 Hh2]
    by (split; [by apply Forall_take|by apply Forall_drop]).
  rewrite !(subproof_split m l _ t) by (done || lia). unfold honest_walk in *.
  rewrite (root_of_split l t Ht Hb Hs), (tree_inputs_split l t Ht Hb Hs).
  destruct (Z.leb_spec m (2 ^ t)) as [Hle|Hgt].
  - destruct (IHl ltac:(lia) Hh1 m s Hm) as (seed & hs & -> & -> & H1 & H2 & H3 & H4 & H5 & H6); [|done|].
    { destruct (Z.eq_dec m (2 ^ t)); [right; split; [lia|by exists t]|left; lia]. }
    rewrite Hl1 in *. exists seed, (hs ++ [root_of (zdrop (2 ^ t) l)]).
    rewrite (consistency_sides_left m (zlen l) t s) by (done || lia).
    rewrite climb_snoc, climb_inputs_snoc, old_climb_snoc, H4, H5, !length_app, H3, ztake_ztake by lia.
    split_and!; try done; [by destruct (_ =? 0)| |set_solver].
    apply Forall_app. split; [done|]. constructor; [|constructor]. apply root_is_hash; [lia|done].
  - destruct (trailing_exists (m - 2 ^ t - 1)) as [s' Htr'].
    { split; [lia|]. pose proof (Z.pow_le_mono_r 2 t USIZE_BITS ltac:(lia) ltac:(lia)). lia. }
    destruct (consistency_sides_right m (zlen l) t s') as (Hsides & Htr2 & Hst); [lia|lia|done|lia|].
    rewrite (trailing_unique _ _ _ Htr2 Htr) in *.
    destruct (IHr ltac:(lia) Hh2 (m - 2 ^ t) s ltac:(lia)) as (seed & hs & -> & _ & H1 & H2 & H3 & H4 & H5 & H6);
      [left; lia|done|].
    rewrite Hl2 in *. exists seed, (hs ++ [root_of (ztake (2 ^ t) l)]). rewrite Hsides.
    rewrite climb_snoc, climb_inputs_snoc, old_climb_snoc, H4, H5, !length_app, H3 by lia.
    assert ((Z.shiftr (m - 1) s =? 0) = false) as ->.
    { apply Z.eqb_neq. replace (m - 1) with (2 ^ t + (m - 1 - 2 ^ t)) by lia. destruct Htr as (? & _).
      rewrite shiftr_add_pow2 by lia. pose proof (shiftr_bound (m - 1 - 2 ^ t) t s ltac:(lia) ltac:(lia)).
      pose proof (Z.pow_pos_nonneg 2 (t - s) ltac:(lia) ltac:(lia)). lia. }
    split_and!; try done; [|by rewrite (root_of_prefix l t m) by lia|set_solver].
    apply Forall_app. split; [done|]. constructor; [|constructor]. apply root_is_hash; [lia|done].
Qed.

(** The verifier's two loops consume a proof by the sides of the walk. *)
Fixpoint consume (ds : list bool) (rest : list (list Z)) (from_old from_new : list Z) :
    result (list (list Z) * list Z * list Z) Error :=
  match ds with
  | [] => Ok (rest, from_old, from_new)
  | d :: ds =>
      match rest with
      | [] => Err ProofInvalid
      | s :: tail => consume ds tail (if d then from_old else node_hash s from_old)
                       (if d then node_hash from_new s else node_hash s from_new)
      end
  end.

Lemma level_side_0 x y :
  level_side x y 0 = if Z.testbit x 0 then [false] else if x <? y then [true] else [].
Proof using. unfold level_side. by rewrite !Z.shiftr_0_r. Qed.

Lemma walk_sides_zero fuel : walk_sides fuel 0 0 = [].
Proof using. induction fuel as [|fuel IH]; [done|]. cbn [walk_sides]. change (Z.shiftr 0 1) with 0. rewrite IH. done. Qed.

Lemma walk_right_consume f g last rest from_old from_new :
  0 <= last < 2 ^ Z.of_nat f -> last < 2 ^ Z.of_nat g ->
  (let? (rest, from_new) := walk_right g last rest from_new in Ok (rest, from_old, from_new)) =
    consume (walk_sides f 0 last) rest from_old from_new.
Proof using.
  revert g last rest from_new. induction f as [|f IH]; intros g last rest from_new Hf Hg.
  { assert (last = 0) as -> by (simpl in Hf; lia). by destruct g. }
  destruct g as [|g]; [assert (last = 0) as -> by (simpl in Hg; lia); by rewrite walk_sides_zero|].
  cbn [walk_right walk_sides]. rewrite level_side_0. change (Z.testbit 0 0) with false.
  destruct (Z.eqb_spec last 0) as [->|Hne]; [by rewrite walk_sides_zero|].
  destruct (Z.ltb_spec 0 last); [|lia]. simpl. destruct rest as [|s tail]; [done|].
  replace (Z.of_nat (S f)) with (1 + Z.of_nat f) in Hf by lia. replace (Z.of_nat (S g)) with (1 + Z.of_nat g) in Hg by lia.
  change (Z.shiftr 0 1) with 0. apply IH.
  - pose proof (shiftr_bound last (1 + Z.of_nat f) 1 ltac:(lia) ltac:(lia)) as H1.
    by replace (1 + Z.of_nat f - 1) with (Z.of_nat f) in H1 by lia.
  - pose proof (shiftr_bound last (1 + Z.of_nat g) 1 ltac:(lia) ltac:(lia)) as H1.
    replace (1 + Z.of_nat g - 1) with (Z.of_nat g) in H1 by lia. lia.
Qed.

Lemma walk_up_consume bits f node last rest from_old from_new :
  0 <= node <= last -> last < 2 ^ Z.of_nat f -> (f <= bits)%nat ->
  (let? (last, rest, from_old, from_new) := walk_up f node last rest from_old from_new in
   let? (rest, from_new) := walk_right bits last rest from_new in
   Ok (rest, from_old, from_new)) =
    consume (walk_sides f node last) rest from_old from_new.
Proof using.
  revert node last rest from_old from_new. induction f as [|f IH]; intros node last rest from_old from_new Hn Hl Hf.
  { assert (last = 0 /\ node = 0) as [-> ->] by (simpl in Hl; lia). by destruct bits. }
  destruct (Z.eqb_spec node 0) as [->|Hne].
  { cbn [walk_up]. rewrite Z.eqb_refl. apply walk_right_consume; [lia|].
    pose proof (Z.pow_le_mono_r 2 (Z.of_nat (S f)) (Z.of_nat bits) ltac:(lia) ltac:(lia)). lia. }
  cbn [walk_up walk_sides]. rewrite level_side_0, land_1_bit. rewrite (proj2 (Z.eqb_neq node 0) Hne).
  assert (0 <= Z.shiftr node 1 <= Z.shiftr last 1 /\ Z.shiftr last 1 < 2 ^ Z.of_nat f) as [Hn' Hl'].
  { rewrite !Z.shiftr_div_pow2 by lia. change (2 ^ 1) with 2.
    replace (Z.of_nat (S f)) with (1 + Z.of_nat f) in Hl by lia. rewrite Z.pow_add_r in Hl by lia.
    split; [split; [apply Z.div_pos; lia|apply Z.div_le_mono; lia]|]. apply Z.div_lt_upper_bound; lia. }
  destruct (Z.testbit node 0); simpl.
  - destruct rest as [|s tail]; [done|]. apply IH; [done|done|lia].
  - destruct (node <? last); simpl; [|apply IH; [done|done|lia]].
    destruct rest as [|s tail]; [done|]. apply IH; [done|done|lia].
Qed.

Lemma consume_Ok ds rest from_old from_new out_rest out_old out_new :
  consume ds rest from_old from_new = Ok (out_rest, out_old, out_new) <->
  exists used, rest = used ++ out_rest /\ length used = length ds /\
    out_old = old_climb ds from_old used /\ out_new = climb ds from_new used.
Proof using.
  revert rest from_old from_new. induction ds as [|d ds IH]; intros rest from_old from_new; simpl.
  - split.
    + intros [= <- <- <-]. by exists [].
    + intros ([|s used] & -> & Hl & -> & ->); [done|simpl in Hl; lia].
  - destruct rest as [|s tail].
    + split; [done|]. intros ([|s used] & Heq & Hl & _); [simpl in Hl; lia|done].
    + rewrite IH. split.
      * intros (used & -> & Hl & Ho & Hn). exists (s :: used). simpl. rewrite Hl. by destruct d.
      * intros ([|s' used] & Heq & Hl & Ho & Hn); [simpl in Hl; lia|]. injection Heq as -> ->.
        exists used. simpl in Hl, Ho, Hn. split_and!; [done|lia|by destruct d|by destruct d].
Qed.

(** The node inputs the verifier hashes on the way to the new head. *)
Definition consistency_inputs (m n : Z) (old_root : list Z) (proof : list (list Z)) : list (list Z) :=
  let '(node, last) := skip_ones (Z.to_nat USIZE_BITS) (m - 1) (n - 1) in
  let ds := walk_sides (Z.to_nat USIZE_BITS) node last in
  if 0 <? node then match proof with [] => [] | first :: tail => climb_inputs ds first tail end
  else climb_inputs ds old_root proof.

Lemma consistency_walk m n : 1 <= m < n -> n <= MAX_ENTRIES -> exists s, trailing (m - 1) s /\
  skip_ones (Z.to_nat USIZE_BITS) (m - 1) (n - 1) = (Z.shiftr (m - 1) s, Z.shiftr (n - 1) s) /\
  walk_sides (Z.to_nat USIZE_BITS) (Z.shiftr (m - 1) s) (Z.shiftr (n - 1) s) = consistency_sides m n s /\
  0 <= Z.shiftr (m - 1) s <= Z.shiftr (n - 1) s /\
  Z.shiftr (n - 1) s < 2 ^ Z.of_nat (Z.to_nat USIZE_BITS).
Proof using.
  intros Hm Hn. unfold MAX_ENTRIES in Hn. change (Z.shiftl 1 32) with (2 ^ 32) in Hn.
  pose proof (Z.pow_lt_mono_r 2 32 64 ltac:(lia) ltac:(lia) ltac:(lia)) as H64.
  destruct (skip_ones_spec (Z.to_nat USIZE_BITS) (m - 1) (n - 1)) as (s & Htr & _ & Heq).
  { change (Z.of_nat (Z.to_nat USIZE_BITS)) with 64. lia. }
  exists s. assert (0 <= s) as Hs by apply Htr. split_and!; try done.
  - rewrite walk_sides_levels by done. done.
  - apply Z.shiftr_nonneg. lia.
  - rewrite !Z.shiftr_div_pow2 by lia. apply Z.div_le_mono; [|lia]. apply Z.pow_pos_nonneg; lia.
  - change (Z.of_nat (Z.to_nat USIZE_BITS)) with 64. rewrite Z.shiftr_div_pow2 by lia.
    pose proof (Z.pow_pos_nonneg 2 s ltac:(lia) ltac:(lia)).
    pose proof (Z.div_le_upper_bound (n - 1) (2 ^ s) (n - 1) ltac:(lia) ltac:(nia)). lia.
Qed.

(** What a proof is to the verifier: the seed, unless the old head is one, and
    the siblings. *)
Definition proof_parts (whole : bool) (old_root : list Z) (proof : list (list Z)) (seed : list Z)
    (used : list (list Z)) : Prop :=
  if whole then seed = old_root /\ used = proof else proof = seed :: used.

Lemma verify_consistency_walk m n s old_root new_root proof :
  1 <= m < n -> n <= MAX_ENTRIES -> trailing (m - 1) s ->
  verify_consistency m old_root n new_root proof = Ok tt <->
  exists seed used, proof_parts (Z.shiftr (m - 1) s =? 0) old_root proof seed used /\
    length used = length (consistency_sides m n s) /\
    old_climb (consistency_sides m n s) seed used = old_root /\
    climb (consistency_sides m n s) seed used = new_root.
Proof using.
  intros Hm Hn Htr. unfold verify_consistency, proof_parts.
  destruct (Z.eqb_spec m 0); [lia|]. destruct (Z.ltb_spec n m); [lia|].
  destruct (Z.ltb_spec MAX_ENTRIES n); [lia|]. destruct (Z.eqb_spec m n); [lia|]. cbn [orb].
  destruct (consistency_walk m n Hm Hn) as (s' & Htr' & -> & Hsides & Hnode & Hlast).
  rewrite (trailing_unique _ _ _ Htr' Htr) in *. clear Htr' s'. revert Hsides Hlast.
  generalize (Z.to_nat USIZE_BITS) as bits. set (node := Z.shiftr (m - 1) s) in *. intros bits Hsides Hlast.
  assert (forall seed rest,
    (let? (last, rest, from_old, from_new) := walk_up bits node (Z.shiftr (n - 1) s) rest seed seed in
     let? (rest, from_new) := walk_right bits last rest from_new in
     if hash_eqb from_old old_root && hash_eqb from_new new_root && bool_decide (rest = [])
     then Ok tt else Err ProofInvalid) = Ok tt <->
    length rest = length (consistency_sides m n s) /\
      old_climb (consistency_sides m n s) seed rest = old_root /\
      climb (consistency_sides m n s) seed rest = new_root) as Hwalk.
  { intros seed rest. pose proof (walk_up_consume bits bits node _ rest seed seed Hnode Hlast ltac:(done)) as Hc.
    rewrite Hsides in Hc. pose proof (consume_Ok (consistency_sides m n s) rest seed seed [] old_root new_root) as Ho.
    rewrite <- Hc in Ho. clear Hc.
    transitivity (exists used, rest = used ++ [] /\ length used = length (consistency_sides m n s) /\
      old_root = old_climb (consistency_sides m n s) seed used /\
      new_root = climb (consistency_sides m n s) seed used).
    - rewrite <- Ho. destruct (walk_up bits _ _ rest seed seed) as [[[[last rest'] fo] fn]|]; [|done].
      destruct (walk_right bits last rest' fn) as [[rest'' fn']|]; [|done]. unfold hash_eqb.
      repeat case_bool_decide; subst; simpl; split; try done; intros [=]; congruence.
    - split; [intros (used & -> & ? & -> & ->); by rewrite app_nil_r|]. intros (? & <- & <-). exists rest.
      by rewrite app_nil_r. }
  destruct (Z.ltb_spec 0 node), (Z.eqb_spec node 0); try lia.
  - destruct proof as [|first tail].
    + split; [done|]. by intros (seed & used & ? & _).
    + rewrite Hwalk. split; [intros Hx; by exists first, tail|]. by intros (seed & used & [= <- <-] & Hx).
  - rewrite Hwalk. split; [intros Hx; by exists old_root, proof|]. by intros (seed & used & [-> ->] & Hx).
Qed.

Lemma consistency_inputs_walk m n s old_root proof seed used :
  1 <= m < n -> n <= MAX_ENTRIES -> trailing (m - 1) s ->
  proof_parts (Z.shiftr (m - 1) s =? 0) old_root proof seed used ->
  consistency_inputs m n old_root proof = climb_inputs (consistency_sides m n s) seed used.
Proof using.
  intros Hm Hn Htr Hparts. unfold consistency_inputs.
  destruct (consistency_walk m n Hm Hn) as (s' & Htr' & -> & -> & Hnode & _).
  rewrite (trailing_unique _ _ _ Htr' Htr) in *. unfold proof_parts in Hparts.
  destruct (Z.ltb_spec 0 (Z.shiftr (m - 1) s)), (Z.eqb_spec (Z.shiftr (m - 1) s) 0); try lia.
  - by subst proof.
  - by destruct Hparts as [-> ->].
Qed.

(** When the old tree is one complete subtree, nothing joins it on the left. *)
Lemma old_climb_whole m n s seed used : 1 <= m -> 0 <= s -> Z.shiftr (m - 1) s = 0 ->
  old_climb (consistency_sides m n s) seed used = seed.
Proof using.
  clear HOk. intros Hm Hs H0. assert (forall d, d ∈ consistency_sides m n s -> d = true) as Hall.
  { intros d. unfold consistency_sides, levels. rewrite list_elem_of_join. intros (l & Hd & Hl).
    apply list_elem_of_fmap in Hl as (i & -> & Hi%elem_of_seqZ). unfold level_side in Hd.
    assert (Z.testbit (m - 1) i = false) as Hb.
    { replace i with ((i - s) + s) by lia. rewrite <- Z.shiftr_spec, H0 by lia. apply Z.bits_0. }
    rewrite Hb in Hd. destruct (_ <? _); set_solver. }
  revert seed used. induction (consistency_sides m n s) as [|d ds IH]; intros seed [|x used]; try done. simpl.
  rewrite (Hall d) by set_solver. apply IH. set_solver.
Qed.
End consistency.

(** ** The log *)

(** The log an empty one becomes after appending [entries]. *)
Definition log_of `{H : Sha256} (entries : list (list Z)) : MerkleLog :=
  foldl (fun log entry => snd (append log entry)) log_new entries.

Lemma log_of_leaves `{H : Sha256} entries : zlen entries <= MAX_ENTRIES ->
  leaves (log_of entries) = map leaf_hash entries.
Proof.
  intros Hmax. unfold log_of. assert (forall l log, zlen (leaves log) + zlen l <= MAX_ENTRIES ->
    leaves (foldl (fun log entry => snd (append log entry)) log l) = leaves log ++ map leaf_hash l) as Hg.
  { induction l as [|e l IH]; intros log Hl; simpl; [by rewrite app_nil_r|]. rewrite zlen_cons in Hl.
    unfold append at 2. pose proof (zlen_nonneg l). destruct (Z.leb_spec MAX_ENTRIES (zlen (leaves log))); [lia|].
    rewrite IH by (simpl; rewrite zlen_app, zlen_cons, zlen_nil; lia). simpl. by rewrite <- app_assoc. }
  apply Hg. simpl. unfold zlen at 1. simpl. lia.
Qed.

Lemma leaf_hashes `{HOk : Sha256Ok} entries : Forall is_hash (map leaf_hash entries).
Proof. apply Forall_map, Forall_forall. intros e _. apply sha256_hash. Qed.

Lemma zlen_map {A B} (f : A -> B) l : zlen (map f l) = zlen l.
Proof. unfold zlen. by rewrite length_map. Qed.

(** ** Properties *)

(** C7: the log's proofs verify.  For a log of any entries, up to the size
    limit, every inclusion proof it makes for an entry of a prefix is accepted
    with that entry's leaf hash and that prefix's head, and every consistency
    proof between two sizes is accepted with their two heads. *)
Theorem log_proofs_verify `{HOk : Sha256Ok} entries size :
  1 <= size <= zlen entries -> zlen entries <= MAX_ENTRIES ->
  exists head, root_at (log_of entries) size = Ok head /\
    (forall i entry, entries !! i = Some entry -> Z.of_nat i < size ->
       exists proof, inclusion_proof (log_of entries) (Z.of_nat i) size = Ok proof /\
         verify_inclusion (leaf_hash entry) (Z.of_nat i) size proof head = Ok tt) /\
    (forall old_size, 1 <= old_size <= size ->
       exists old_head proof, root_at (log_of entries) old_size = Ok old_head /\
         consistency_proof (log_of entries) old_size size = Ok proof /\
         verify_consistency old_size old_head size head proof = Ok tt).
Proof.
  intros Hs Hmax. unfold root_at, inclusion_proof, consistency_proof. rewrite log_of_leaves by done.
  pose proof (leaf_hashes entries) as Hh. set (all := map leaf_hash entries) in *.
  assert (zlen all = zlen entries) as Hall by apply zlen_map.
  destruct (Z.ltb_spec (zlen all) size); [lia|]. eexists. split; [reflexivity|].
  set (l := ztake size all). assert (zlen l = size) as Hl by (apply zlen_ztake; lia).
  assert (Forall is_hash l) as Hhl by (by apply Forall_take). split.
  - intros i entry He Hi. destruct (Z.leb_spec size (Z.of_nat i)); [lia|]. simpl. eexists. split; [reflexivity|].
    destruct (path_climbs l ltac:(lia) ltac:(lia) Hhl (Z.of_nat i) (leaf_hash entry) ltac:(lia)) as (Hc1 & _ & Hc2 & _).
    { rewrite Nat2Z.id. unfold l, ztake. rewrite lookup_take_lt by lia. unfold all.
      change (map leaf_hash entries) with (leaf_hash <$> entries). by rewrite list_lookup_fmap, He. }
    rewrite Hl in *. apply verify_inclusion_climb; [lia|lia|]. done.
  - intros m Hm. destruct (Z.ltb_spec (zlen all) m); [lia|]. destruct (Z.eqb_spec m 0); [lia|].
    destruct (Z.ltb_spec size m); [lia|]. cbn [orb]. eexists _, _. split; [reflexivity|]. split; [reflexivity|].
    destruct (Z.eq_dec m size) as [->|Hne].
    + unfold verify_consistency. destruct (Z.eqb_spec size 0); [lia|]. destruct (Z.ltb_spec size size); [lia|].
      destruct (Z.ltb_spec MAX_ENTRIES size); [lia|]. cbn [orb]. rewrite Z.eqb_refl. fold l.
      pose proof (subproof_self l ltac:(lia)) as Hself. rewrite Hl in Hself. rewrite Hself. unfold hash_eqb. by rewrite !bool_decide_eq_true_2.
    + destruct (trailing_exists (m - 1)) as [s Htr].
      { unfold MAX_ENTRIES, USIZE_BITS in *. change (Z.shiftl 1 32) with (2 ^ 32) in *.
        pose proof (Z.pow_lt_mono_r 2 32 64 ltac:(lia) ltac:(lia) ltac:(lia)). lia. }
      destruct (subproof_walks l ltac:(lia) ltac:(lia) Hhl m s ltac:(lia) ltac:(lia) Htr)
        as (seed & hs & _ & Hp & _ & _ & Hc3 & Hc4 & Hc5 & _). fold l. rewrite Hl in *.
      assert (ztake m l = ztake m all) as Hpre by (by apply ztake_ztake; lia). rewrite Hpre in Hc5.
      apply (verify_consistency_walk m size s); [lia|lia|done|]. exists seed, hs. split_and!; try done.
      rewrite Hp. unfold proof_parts. destruct (Z.eqb_spec (Z.shiftr (m - 1) s) 0) as [Hzero|]; [|done].
      split; [|done]. rewrite <- Hc5. symmetry. apply old_climb_whole; [lia|apply Htr|done].
Qed.

(** C6: inclusion is sound.  A leaf hash the verifier accepts at an index of a
    head that a log of [entries] published is the hash of the entry at that
    index, unless the nodes the verifier hashed collide with nodes of the
    log's tree. *)
Theorem inclusion_sound `{HOk : Sha256Ok} entries leaf i proof :
  0 <= i < zlen entries -> zlen entries <= MAX_ENTRIES -> is_hash leaf -> Forall is_hash proof ->
  no_collision (climb_inputs (sides i (zlen entries)) leaf proof) (tree_inputs (map leaf_hash entries)) ->
  verify_inclusion leaf i (zlen entries) proof (root_of (map leaf_hash entries)) = Ok tt ->
  exists entry, entries !! Z.to_nat i = Some entry /\ leaf = leaf_hash entry.
Proof.
  intros Hi Hmax Hleaf Hproof Hno Hv. apply verify_inclusion_climb in Hv as [Hlen Hroot]; [|done|done].
  destruct (lookup_lt_is_Some_2 entries (Z.to_nat i)) as [entry He]; [unfold zlen in Hi; lia|].
  exists entry. split; [done|]. pose proof (leaf_hashes entries) as Hh.
  pose proof (zlen_map leaf_hash entries) as Hz.
  set (l := map leaf_hash entries) in *.
  destruct (path_climbs l ltac:(lia) ltac:(lia) Hh i (leaf_hash entry) ltac:(lia)) as (Hc1 & Hc2 & Hc3 & Hc4).
  { unfold l. change (map leaf_hash entries) with (leaf_hash <$> entries). by rewrite list_lookup_fmap, He. }
  rewrite Hz in *. apply (climb_injective (sides i (zlen entries)) leaf (leaf_hash entry) proof (path i l)); try done.
  - apply sha256_hash.
  - eapply no_collision_mono; [| |exact Hno]; [done|exact Hc4].
  - congruence.
Qed.

(** C5: consistency is sound.  When the verifier accepts an old head against
    the head of a log of [entries], the old head is the head of the log's
    first [old_size] entries: nothing before it was changed, removed or
    inserted, unless the nodes the verifier hashed collide with nodes of the
    log's tree. *)
Theorem consistency_sound `{HOk : Sha256Ok} entries old_size old_head proof :
  1 <= old_size <= zlen entries -> zlen entries <= MAX_ENTRIES -> is_hash old_head -> Forall is_hash proof ->
  no_collision (consistency_inputs old_size (zlen entries) old_head proof) (tree_inputs (map leaf_hash entries)) ->
  verify_consistency old_size old_head (zlen entries) (root_of (map leaf_hash entries)) proof = Ok tt ->
  root_at (log_of entries) old_size = Ok old_head.
Proof.
  intros Hm Hmax Hold Hproof Hno Hv. unfold root_at. rewrite log_of_leaves by done.
  pose proof (leaf_hashes entries) as Hh. pose proof (zlen_map leaf_hash entries) as Hz.
  set (l := map leaf_hash entries) in *. destruct (Z.ltb_spec (zlen l) old_size); [lia|]. f_equal.
  destruct (Z.eq_dec old_size (zlen entries)) as [Heq|Hne].
  { unfold verify_consistency in Hv. rewrite Heq, Z.eqb_refl in Hv. destruct (_ || _); [done|].
    unfold hash_eqb in Hv. destruct (bool_decide (proof = [])); [|done]. cbn [andb] in Hv. case_bool_decide; [|done].
    rewrite ztake_all by lia. done. }
  destruct (trailing_exists (old_size - 1)) as [s Htr].
  { unfold MAX_ENTRIES, USIZE_BITS in *. change (Z.shiftl 1 32) with (2 ^ 32) in *.
    pose proof (Z.pow_lt_mono_r 2 32 64 ltac:(lia) ltac:(lia) ltac:(lia)). lia. }
  apply (verify_consistency_walk old_size (zlen entries) s) in Hv as (seed & used & Hparts & Hlen & Hco & Hcn);
    [|lia|lia|done].
  rewrite (consistency_inputs_walk old_size (zlen entries) s _ _ seed used) in Hno by (done || lia).
  destruct (subproof_walks l ltac:(lia) ltac:(lia) Hh old_size s ltac:(lia) ltac:(lia) Htr)
    as (seed' & hs & _ & _ & Hc1 & Hc2 & Hc3 & Hc4 & Hc5 & Hc6). rewrite Hz in *.
  assert (is_hash seed /\ Forall is_hash used) as [Hs1 Hs2].
  { unfold proof_parts in Hparts. destruct (_ =? 0); [by destruct Hparts as [-> ->]|]. subst proof.
    by apply Forall_cons in Hproof as [? ?]. }
  destruct (climb_injective (consistency_sides old_size (zlen entries) s) seed seed' used hs) as [-> ->]; try done.
  - eapply no_collision_mono; [| |exact Hno]; [done|exact Hc6].
  - congruence.
  - congruence.
Qed.

Definition demo_entries : list (list Z) := [[1]; [2; 2]; [3]; []; [5]].
Definition demo_path : list (list Z) :=
  Eval vm_compute in path (H := toy_sha256) 2 (map (leaf_hash (H := toy_sha256)) demo_entries).
Definition demo_old_head : list Z :=
  Eval vm_compute in root_of (H := toy_sha256) (map (leaf_hash (H := toy_sha256)) (take 3 demo_entries)).
Definition demo_consistency : list (list Z) :=
  Eval vm_compute in subproof (H := toy_sha256) 3 (map (leaf_hash (H := toy_sha256)) demo_entries) true.

Lemma is_hash_check h : (zlen h =? 32) && forallb (fun b => (0 <=? b) && (b <=? 255)) h = true -> is_hash h.
Proof.
  intros [Hl Hb]%andb_true_iff. split; [by apply Z.eqb_eq|]. apply Forall_forall. intros x Hx%list_elem_of_In.
  rewrite forallb_forall in Hb. apply Hb in Hx. apply andb_true_iff in Hx as [H1%Z.leb_le H2%Z.leb_le]. mlia.
Qed.

Lemma log_proofs_verify_witness :
  exists proof, inclusion_proof (H := toy_sha256) (log_of (H := toy_sha256) demo_entries) 2 4 = Ok proof.
Proof.
  destruct (log_proofs_verify (H := toy_sha256) (HOk := toy_sha256_ok) demo_entries 4) as (head & _ & Hi & _).
  - vm_compute. split; congruence.
  - vm_compute. congruence.
  - destruct (Hi 2%nat [3] eq_refl eq_refl) as (proof & Hp & _). exists proof. exact Hp.
Defined.

Lemma inclusion_sound_witness :
  exists entry, demo_entries !! 2%nat = Some entry /\
    leaf_hash (H := toy_sha256) [3] = leaf_hash (H := toy_sha256) entry.
Proof.
  apply (inclusion_sound (H := toy_sha256) (HOk := toy_sha256_ok) demo_entries
    (leaf_hash (H := toy_sha256) [3]) 2 demo_path).
  - vm_compute. split; congruence.
  - vm_compute. congruence.
  - apply is_hash_check. vm_compute. reflexivity.
  - repeat (apply Forall_cons; split; [apply is_hash_check; vm_compute; reflexivity|]). constructor.
  - apply collision_check_correct. vm_compute. reflexivity.
  - vm_compute. reflexivity.
Defined.

Lemma consistency_sound_witness :
  root_at (H := toy_sha256) (log_of (H := toy_sha256) demo_entries) 3 = Ok demo_old_head.
Proof.
  apply (consistency_sound (H := toy_sha256) (HOk := toy_sha256_ok) demo_entries 3 demo_old_head demo_consistency).
  - vm_compute. split; congruence.
  - vm_compute. congruence.
  - apply is_hash_check. vm_compute. reflexivity.
  - repeat (apply Forall_cons; split; [apply is_hash_check; vm_compute; reflexivity|]). constructor.
  - apply collision_check_correct. vm_compute. reflexivity.
  - vm_compute. reflexivity.
Defined.
