(* ===== verification/LogNote.v ===== *)
(** * Checkpoints, signed notes and witnesses (vot-log, checkpoint.rs, note.rs, witness.rs)

    A checkpoint names a log, a size and a head; a signed note is its text
    form with one line per signature; a relying party accepts a checkpoint
    when enough distinct witnesses of its policy signed the body.  A Rust
    [str] is the list of its chars, each a Unicode scalar value; its length is
    that of its UTF-8 form.

    The base64 and ed25519-dalek crates are not part of the repository:
    [Base64] and [Ed25519] are parameters, and [Base64Ok] states the parts of
    RFC 4648 the code relies on.

    The theorems show that rendering and parsing notes are inverse, and that an
    accepted checkpoint carries signatures of enough distinct policy keys. *)

From S2P Require Import Prelude Digest MerkleLog.

Definition str : Type := list Z.

Definition utf8_char (c : Z) : list Z :=
  if c <? 0x80 then [c]
  else if c <? 0x800 then [0xC0 + c / 0x40; 0x80 + c mod 0x40]
  else if c <? 0x10000 then [0xE0 + c / 0x1000; 0x80 + c / 0x40 mod 0x40; 0x80 + c mod 0x40]
  else [0xF0 + c / 0x40000; 0x80 + c / 0x1000 mod 0x40; 0x80 + c / 0x40 mod 0x40; 0x80 + c mod 0x40].

(** [str::as_bytes] and [str::len]. *)
Definition as_bytes (s : str) : list Z := mjoin (map utf8_char s).
Definition str_len (s : str) : Z := zlen (as_bytes s).

(** [char::is_whitespace]: the Unicode property White_Space. *)
Definition is_whitespace (c : Z) : bool :=
  ((0x9 <=? c) && (c <=? 0xD)) || (c =? 0x20) || (c =? 0x85) || (c =? 0xA0) || (c =? 0x1680) ||
  ((0x2000 <=? c) && (c <=? 0x200A)) || (c =? 0x2028) || (c =? 0x2029) || (c =? 0x202F) || (c =? 0x205F) ||
  (c =? 0x3000).

Definition NEWLINE : Z := 0xA.
Definition CARRIAGE_RETURN : Z := 0xD.
Definition SPACE : Z := 0x20.
Definition PLUS : Z := 0x2B.
Definition EM_DASH : Z := 0x2014.

(** [str::split_once] on one char, and [str::split]. *)
Fixpoint split_once (sep : Z) (s : str) : option (str * str) :=
  match s with
  | [] => None
  | c :: rest =>
      if c =? sep then Some ([], rest) else
      match split_once sep rest with
      | Some (before, after) => Some (c :: before, after)
      | None => None
      end
  end.

Fixpoint split_on (sep : Z) (s : str) : list str :=
  match s with
  | [] => [[]]
  | c :: rest =>
      if c =? sep then [] :: split_on sep rest else
      match split_on sep rest with
      | piece :: pieces => (c :: piece) :: pieces
      | [] => [[c]]
      end
  end.

(** [split_once] on a blank line. *)
Fixpoint split_once_blank (s : str) : option (str * str) :=
  match s with
  | c :: rest =>
      match rest with
      | d :: tail =>
          if (c =? NEWLINE) && (d =? NEWLINE) then Some ([], tail) else
          match split_once_blank rest with
          | Some (before, after) => Some (c :: before, after)
          | None => None
          end
      | [] => None
      end
  | [] => None
  end.

Definition strip_carriage (line : str) : str :=
  match last line with Some c => if c =? CARRIAGE_RETURN then removelast line else line | None => line end.

(** [str::lines]: the pieces between newlines, without a last empty one, each
    without a carriage return at its end when a newline followed it. *)
Fixpoint lines_of (pieces : list str) : list str :=
  match pieces with
  | [] => []
  | [last_piece] => if bool_decide (last_piece = []) then [] else [last_piece]
  | piece :: rest => strip_carriage piece :: lines_of rest
  end.

Definition lines (s : str) : list str := lines_of (split_on NEWLINE s).

(** [usize]'s [Display]. *)
Fixpoint decimal_fuel (fuel : nat) (n : Z) : str :=
  match fuel with
  | O => []
  | S fuel => if n <? 10 then [0x30 + n] else decimal_fuel fuel (n / 10) ++ [0x30 + n mod 10]
  end.

Definition decimal (n : Z) : str := decimal_fuel 20 n.

(** [str::parse::<usize>]: an optional plus sign, then at least one digit. *)
Definition digit (acc : option Z) (c : Z) : option Z :=
  n ← acc;
  if (0x30 <=? c) && (c <=? 0x39) then
    let n := n * 10 + (c - 0x30) in if n <=? u64_max then Some n else None
  else None.

Definition parse_usize (s : str) : option Z :=
  let digits := match s with c :: rest => if c =? PLUS then rest else s | [] => s end in
  match digits with [] => None | _ => foldl digit (Some 0) digits end.

Class Base64 := mkBase64 { base64 : list Z -> str; unbase64_opt : str -> option (list Z) }.

Class Base64Ok (B : Base64) : Prop := mkBase64Ok {
  base64_alphabet : forall bytes, Forall (fun c => 0x2B <= c <= 0x7A) (base64 bytes);
  base64_length : forall bytes, zlen (base64 bytes) = 4 * div_ceil (zlen bytes) 3;
  base64_roundtrip : forall bytes, byte_list bytes -> unbase64_opt (base64 bytes) = Some bytes }.

Definition ED25519_NOTE_ALGORITHM : Z := 0x01.
Definition MAX_NOTE_BYTES : Z := 65536.
Definition MAX_NAME_BYTES : Z := 256.

Record Checkpoint := mkCheckpoint { origin : str; size : Z; cp_root : list Z }.
Record NoteSignature := mkNoteSignature { name : str; key_hash : list Z; signature : list Z }.
Record SignedCheckpoint := mkSigned { checkpoint : Checkpoint; signatures : list NoteSignature }.
Record WitnessKey := mkWitnessKey { w_name : str; w_key : list Z }.

Definition valid_note_name (name : str) : bool :=
  negb (bool_decide (name = [])) && (str_len name <=? MAX_NAME_BYTES) &&
  negb (existsb (fun c => c =? PLUS) name) && negb (existsb is_whitespace name).

Section note.
Context `{H : Sha256} `{B : Base64} `{E : Ed25519}.

Definition note_key_hash (name : str) (public_key : list Z) : list Z :=
  ztake 4 (sha256 (as_bytes name ++ [NEWLINE] ++ [ED25519_NOTE_ALGORITHM] ++ public_key)).

Definition unbase64 (text : str) : result (list Z) Error := ok_or (unbase64_opt text) Malformed.

(** [Checkpoint::body]. *)
Definition body (c : Checkpoint) : result str Error :=
  if bool_decide (origin c = []) || (MAX_NAME_BYTES <? str_len (origin c)) then Err Malformed else
  if existsb (fun x => x =? NEWLINE) (origin c) then Err Malformed else
  Ok (origin c ++ [NEWLINE] ++ decimal (size c) ++ [NEWLINE] ++ base64 (cp_root c) ++ [NEWLINE]).

(** The loop of [to_note] over the signatures. *)
Fixpoint signature_lines (note : str) (sigs : list NoteSignature) : result str Error :=
  match sigs with
  | [] => Ok note
  | s :: rest =>
      if negb (valid_note_name (name s)) then Err Malformed else
      signature_lines (note ++ [EM_DASH; SPACE] ++ name s ++ [SPACE] ++
        base64 (key_hash s ++ signature s) ++ [NEWLINE]) rest
  end.

Definition to_note (s : SignedCheckpoint) : result str Error :=
  let? note := body (checkpoint s) in
  signature_lines (note ++ [NEWLINE]) (signatures s).

(** One line of [parse_note]'s loop. *)
Definition parse_signature (line : str) : result NoteSignature Error :=
  let? rest := (match line with
    | a :: b :: rest => if (a =? EM_DASH) && (b =? SPACE) then Ok rest else Err Malformed
    | _ => Err Malformed end) in
  let? (name, blob) := ok_or (split_once SPACE rest) Malformed in
  let? blob := unbase64 blob in
  if zlen blob <? 4 then Err Malformed else
  Ok (mkNoteSignature name (ztake 4 blob) (zdrop 4 blob)).

Fixpoint parse_signatures (l : list str) : result (list NoteSignature) Error :=
  match l with
  | [] => Ok []
  | line :: rest =>
      let? s := parse_signature line in
      let? parsed := parse_signatures rest in
      Ok (s :: parsed)
  end.

(** [TryInto<[u8; 32]>]. *)
Definition to_hash (bytes : list Z) : result (list Z) Error :=
  if zlen bytes =? 32 then Ok bytes else Err Malformed.

Definition parse_note (note : str) : result SignedCheckpoint Error :=
  if MAX_NOTE_BYTES <? str_len note then Err Malformed else
  let? (body_text, sigs) := ok_or (split_once_blank note) Malformed in
  match split_on NEWLINE body_text with
  | [] => Err Malformed
  | origin :: rest =>
      match rest with
      | [] => Err Malformed
      | size_text :: rest =>
          let? size := ok_or (parse_usize size_text) Malformed in
          match rest with
          | [] => Err Malformed
          | root_text :: rest =>
              let? bytes := unbase64 root_text in
              let? root := to_hash bytes in
              match rest with
              | _ :: _ => Err Malformed
              | [] =>
                  let? parsed := parse_signatures (lines sigs) in
                  let rebuilt := mkSigned (mkCheckpoint origin size root) parsed in
                  let? again := to_note rebuilt in
                  if bool_decide (again = note) then Ok rebuilt else Err Malformed
              end
          end
      end
  end.

Definition sign_checkpoint (signed : SignedCheckpoint) (name : str) (key : list Z) :
    result unit Error * SignedCheckpoint :=
  if negb (valid_note_name name) then (Err Malformed, signed) else
  match body (checkpoint signed) with
  | Err e => (Err e, signed)
  | Ok text =>
      let public := verifying_key key in
      (Ok tt, mkSigned (checkpoint signed) (signatures signed ++
        [mkNoteSignature name (note_key_hash name public) (sign key (as_bytes text))]))
  end.

(** One witness against one signature, whose bytes are 64 long. *)
Definition consider (text : str) (s : NoteSignature) (accepted : list (str * list Z)) (w : WitnessKey) :
    list (str * list Z) :=
  if negb (bool_decide (w_name w = name s)) then accepted else
  if negb (bool_decide (note_key_hash (w_name w) (w_key w) = key_hash s)) then accepted else
  if verify_strict (w_key w) (as_bytes text) (signature s) &&
     negb (existsb (fun a => bool_decide (a.2 = w_key w) || bool_decide (a.1 = w_name w)) accepted)
  then accepted ++ [(w_name w, w_key w)] else accepted.

Definition verify_checkpoint (signed : SignedCheckpoint) (witnesses : list WitnessKey) (required : Z) :
    result (list str) Error :=
  let? text := body (checkpoint signed) in
  let accepted := foldl (fun accepted s =>
    if negb (zlen (signature s) =? 64) then accepted
    else foldl (consider text s) accepted witnesses) [] (signatures signed) in
  if zlen accepted <? required then Err Unwitnessed else Ok (map fst accepted).
End note.

(** ** Text *)

Definition lacks (sep : Z) (s : str) : Prop := Forall (fun c => c <> sep) s.

Lemma split_once_app sep a b : lacks sep a -> split_once sep (a ++ sep :: b) = Some (a, b).
Proof.
  induction 1 as [|c a Hc _ IH]; simpl; [by rewrite Z.eqb_refl|].
  rewrite (proj2 (Z.eqb_neq c sep) Hc), IH. done.
Qed.

Lemma split_on_lacks sep a : lacks sep a -> split_on sep a = [a].
Proof.
  induction 1 as [|c a Hc _ IH]; simpl; [done|]. by rewrite (proj2 (Z.eqb_neq c sep) Hc), IH.
Qed.

Lemma split_on_app sep a b : lacks sep a -> split_on sep (a ++ sep :: b) = a :: split_on sep b.
Proof.
  induction 1 as [|c a Hc _ IH]; simpl; [by rewrite Z.eqb_refl|]. by rewrite (proj2 (Z.eqb_neq c sep) Hc), IH.
Qed.

Lemma split_blank_skip a rest b c : lacks NEWLINE a -> split_once_blank rest = Some (b, c) ->
  split_once_blank (a ++ rest) = Some (a ++ b, c).
Proof.
  intros Ha Hr. induction Ha as [|x a Hx _ IH]; [done|]. simpl.
  rewrite (proj2 (Z.eqb_neq x NEWLINE) Hx), IH. simpl. by destruct (a ++ rest).
Qed.

Lemma split_blank_line d rest b c : d <> NEWLINE -> split_once_blank (d :: rest) = Some (b, c) ->
  split_once_blank (NEWLINE :: d :: rest) = Some (NEWLINE :: b, c).
Proof.
  intros Hd Hr. change (split_once_blank (NEWLINE :: d :: rest)) with
    (if (NEWLINE =? NEWLINE) && (d =? NEWLINE) then Some ([], rest) else
     match split_once_blank (d :: rest) with Some (before, after) => Some (NEWLINE :: before, after) | None => None end).
  by rewrite (proj2 (Z.eqb_neq d NEWLINE) Hd), andb_false_r, Hr.
Qed.

(** Three non-empty lines, then a blank one. *)
Lemma split_blank_body a b c rest :
  lacks NEWLINE a -> lacks NEWLINE b -> lacks NEWLINE c -> b <> [] -> c <> [] ->
  split_once_blank (a ++ [NEWLINE] ++ b ++ [NEWLINE] ++ c ++ [NEWLINE] ++ [NEWLINE] ++ rest) =
    Some (a ++ [NEWLINE] ++ b ++ [NEWLINE] ++ c, rest).
Proof.
  intros Ha Hb Hc Hbn Hcn.
  assert (split_once_blank (c ++ [NEWLINE] ++ [NEWLINE] ++ rest) = Some (c ++ [], rest)) as H3
    by (apply split_blank_skip; [done|]; reflexivity).
  rewrite app_nil_r in H3.
  assert (split_once_blank (b ++ [NEWLINE] ++ c ++ [NEWLINE] ++ [NEWLINE] ++ rest) =
    Some (b ++ [NEWLINE] ++ c, rest)) as H2.
  { apply split_blank_skip; [done|]. destruct c as [|x c]; [done|]. apply Forall_cons in Hc as [Hx _].
    by apply split_blank_line. }
  apply split_blank_skip; [done|]. destruct b as [|x b]; [done|]. apply Forall_cons in Hb as [Hx _].
  by apply split_blank_line.
Qed.

Lemma decimal_fuel_digits fuel n : 0 <= n -> Forall (fun c => 0x30 <= c <= 0x39) (decimal_fuel fuel n).
Proof.
  revert n. induction fuel as [|fuel IH]; intros n Hn; simpl; [constructor|].
  destruct (Z.ltb_spec n 10); [constructor; [lia|constructor]|]. apply Forall_app. split.
  - apply IH. apply Z.div_pos; lia.
  - constructor; [|constructor]. pose proof (Z.mod_pos_bound n 10 ltac:(lia)). lia.
Qed.

Lemma digit_step n d : 0 <= d <= 9 -> n * 10 + d <= u64_max -> digit (Some n) (0x30 + d) = Some (n * 10 + d).
Proof.
  intros Hd Hn. unfold digit. cbn [mbind option_bind].
  destruct (Z.leb_spec 0x30 (0x30 + d)); [|lia]. destruct (Z.leb_spec (0x30 + d) 0x39); [|lia]. cbn [andb].
  replace (0x30 + d - 0x30) with d by lia. destruct (Z.leb_spec (n * 10 + d) u64_max); [done|lia].
Qed.

Lemma decimal_fuel_parse fuel n : 0 <= n <= u64_max -> n < 10 ^ Z.of_nat fuel -> (0 < fuel)%nat ->
  foldl digit (Some 0) (decimal_fuel fuel n) = Some n /\ decimal_fuel fuel n <> [].
Proof.
  revert n. induction fuel as [|fuel IH]; intros n Hn Hp Hf; [lia|]. simpl.
  destruct (Z.ltb_spec n 10).
  - split; [|done]. cbn [foldl]. rewrite digit_step by mlia. f_equal; lia.
  - pose proof (Z.div_mod n 10 ltac:(lia)). pose proof (Z.mod_pos_bound n 10 ltac:(lia)).
    destruct (IH (n / 10)) as [Hf1 Hf2].
    + split; [apply Z.div_pos; lia|mlia].
    + apply Z.div_lt_upper_bound; [lia|]. rewrite <- Z.pow_succ_r by lia.
      by replace (Z.succ (Z.of_nat fuel)) with (Z.of_nat (S fuel)) by lia.
    + destruct fuel; [simpl in Hp; lia|lia].
    + split; [|by destruct (decimal_fuel fuel (n / 10))]. rewrite foldl_app, Hf1. cbn [foldl].
      rewrite digit_step by lia. f_equal. lia.
Qed.

Lemma decimal_spec n : is_u64 n -> parse_usize (decimal n) = Some n /\ decimal n <> [] /\ lacks NEWLINE (decimal n).
Proof.
  intros Hn. unfold decimal. pose proof (decimal_fuel_digits 20 n ltac:(mlia)) as Hd.
  destruct (decimal_fuel_parse 20 n) as [H1 H2]; [done|unfold is_u64, u64_max in Hn; simpl; lia|lia|].
  split_and!; [|done|apply (Forall_impl _ _ _ Hd); intros c; unfold NEWLINE; lia].
  unfold parse_usize. destruct (decimal_fuel 20 n) as [|c s]; [done|].
  apply Forall_cons in Hd as [Hc _]. unfold PLUS. destruct (Z.eqb_spec c 0x2B); [lia|done].
Qed.

Lemma valid_name_lacks s : valid_note_name s = true -> lacks SPACE s /\ lacks NEWLINE s.
Proof.
  unfold valid_note_name. intros [_ Hw]%andb_true_iff. apply negb_true_iff in Hw.
  assert (forall c, c ∈ s -> is_whitespace c = false) as Hall.
  { intros c Hc%list_elem_of_In. destruct (is_whitespace c) eqn:E; [|done].
    assert (existsb is_whitespace s = true) as Ht by (apply existsb_exists; eauto). congruence. }
  split; apply Forall_forall; intros c Hc ->; apply Hall in Hc; vm_compute in Hc; discriminate.
Qed.

(** ** Notes *)

Section notes.
Context `{H : Sha256} `{B : Base64} `{BOk : !Base64Ok B} `{E : Ed25519}.

Lemma base64_lacks bytes c : c < 0x2B -> lacks c (base64 bytes).
Proof using BOk.
  intros Hc. apply (Forall_impl _ _ _ (base64_alphabet bytes)). intros x Hx. lia.
Qed.

Lemma base64_nonempty bytes : 0 < zlen bytes -> base64 bytes <> [].
Proof using BOk.
  intros Hl He. pose proof (base64_length bytes) as Hb. rewrite He in Hb.
  pose proof (div_ceil_spec (zlen bytes) 3 ltac:(lia)). change (zlen []) with 0 in Hb. lia.
Qed.

(** The text of one signature line, without its newline. *)
Definition signature_text (s : NoteSignature) : str :=
  [EM_DASH; SPACE] ++ name s ++ [SPACE] ++ base64 (key_hash s ++ signature s).
#[local] Arguments signature_text : simpl never.

Lemma signature_lines_spec note sigs out :
  signature_lines note sigs = Ok out <->
  Forall (fun s => valid_note_name (name s) = true) sigs /\
  out = note ++ mjoin (map (fun s => signature_text s ++ [NEWLINE]) sigs).
Proof using.
  revert note. induction sigs as [|s sigs IH]; intros note; simpl.
  { rewrite app_nil_r. split; [intros [= <-]|intros [_ ->]]; done. }
  destruct (valid_note_name (name s)) eqn:Hv; simpl.
  - rewrite IH, Forall_cons. unfold signature_text. simpl. repeat (rewrite <- app_assoc; simpl). tauto.
  - split; [done|]. intros [[Hv' _]%Forall_cons _]. congruence.
Qed.

Definition signature_wf (s : NoteSignature) : Prop :=
  zlen (key_hash s) = 4 /\ byte_list (key_hash s) /\ byte_list (signature s).

Lemma parse_signature_text s : signature_wf s -> valid_note_name (name s) = true ->
  parse_signature (signature_text s) = Ok s.
Proof using BOk.
  intros (Hk & Hkb & Hsb) Hv. unfold parse_signature, signature_text. simpl.
  change ([SPACE] ++ ?x) with (SPACE :: x). rewrite split_once_app by apply (valid_name_lacks _ Hv). simpl.
  unfold unbase64. rewrite base64_roundtrip by (apply Forall_app; done). simpl.
  pose proof (zlen_nonneg (signature s)). destruct (Z.ltb_spec (zlen (key_hash s ++ signature s)) 4) as [Hlt|].
  { rewrite zlen_app in Hlt. lia. }
  rewrite <- Hk, ztake_app, zdrop_app. by destruct s.
Qed.

Lemma signature_text_line s : signature_wf s -> valid_note_name (name s) = true ->
  lacks NEWLINE (signature_text s) /\ strip_carriage (signature_text s) = signature_text s.
Proof using BOk.
  intros (Hk & Hkb & Hsb) Hv. destruct (valid_name_lacks _ Hv) as [_ Hn]. unfold signature_text. split.
  - repeat (apply Forall_app; split); try done; repeat constructor; try done. by apply base64_lacks.
  - assert (base64 (key_hash s ++ signature s) <> []) as Hne.
    { apply base64_nonempty. rewrite zlen_app. pose proof (zlen_nonneg (signature s)). lia. }
    pose proof (base64_alphabet (key_hash s ++ signature s)) as Ha.
    destruct (base64 (key_hash s ++ signature s)) as [|c t _] using rev_ind; [done|].
    apply Forall_app in Ha as [_ [Hc _]%Forall_cons]. unfold strip_carriage. rewrite !app_assoc, last_snoc.
    unfold CARRIAGE_RETURN. destruct (Z.eqb_spec c 0xD); [lia|done].
Qed.

Lemma parse_signatures_lines sigs :
  Forall signature_wf sigs -> Forall (fun s => valid_note_name (name s) = true) sigs ->
  parse_signatures (lines (mjoin (map (fun s => signature_text s ++ [NEWLINE]) sigs))) = Ok sigs.
Proof using BOk.
  intros Hwf Hv. unfold lines.
  assert (split_on NEWLINE (mjoin (map (fun s => signature_text s ++ [NEWLINE]) sigs)) =
    map signature_text sigs ++ [[]]) as ->.
  { induction sigs as [|s sigs IH]; [done|]. apply Forall_cons in Hwf as [Hw Hwf]. apply Forall_cons in Hv as [Hn Hv].
    cbn [map mjoin list_join]. rewrite <- app_assoc. change ([NEWLINE] ++ ?x) with (NEWLINE :: x).
    rewrite split_on_app by apply (signature_text_line s Hw Hn).
    exact (f_equal (cons (signature_text s)) (IH Hwf Hv)). }
  induction sigs as [|s sigs IH]; [done|]. apply Forall_cons in Hwf as [Hw Hwf]. apply Forall_cons in Hv as [Hn Hv].
  simpl. specialize (IH Hwf Hv). destruct (map signature_text sigs ++ [[]]) as [|x l] eqn:E';
    [by destruct (map signature_text sigs)|].
  simpl. destruct (signature_text_line s Hw Hn) as [_ ->]. rewrite parse_signature_text by done. simpl in IH.
  by rewrite IH.
Qed.

Definition signed_wf (s : SignedCheckpoint) : Prop :=
  is_u64 (size (checkpoint s)) /\ is_hash (cp_root (checkpoint s)) /\ Forall signature_wf (signatures s).

Lemma to_note_parts s note : to_note s = Ok note ->
  lacks NEWLINE (origin (checkpoint s)) /\ Forall (fun x => valid_note_name (name x) = true) (signatures s) /\
  note = origin (checkpoint s) ++ [NEWLINE] ++ decimal (size (checkpoint s)) ++ [NEWLINE] ++
    base64 (cp_root (checkpoint s)) ++ [NEWLINE] ++ [NEWLINE] ++
    mjoin (map (fun s => signature_text s ++ [NEWLINE]) (signatures s)).
Proof using.
  unfold to_note, body. destruct (bool_decide _ || _); [done|].
  destruct (existsb _ (origin (checkpoint s))) eqn:Hn; [done|].
  intros [Hv ->]%signature_lines_spec. rewrite <- !app_assoc. split_and!; try done.
  apply Forall_forall. intros c Hc ->. assert (existsb (fun x => x =? NEWLINE) (origin (checkpoint s)) = true); [|congruence].
  apply existsb_exists. exists NEWLINE. by rewrite <- list_elem_of_In.
Qed.

Lemma parse_note_to_note s note :
  signed_wf s -> to_note s = Ok note -> str_len note <= MAX_NOTE_BYTES -> parse_note note = Ok s.
Proof using BOk.
  intros (Hsz & Hroot & Hsig) Hto Hlen. pose proof Hto as (Ho & Hv & Hnote)%to_note_parts.
  destruct (decimal_spec _ Hsz) as (Hd1 & Hd2 & Hd3). unfold parse_note.
  destruct (Z.ltb_spec MAX_NOTE_BYTES (str_len note)); [lia|].
  assert (base64 (cp_root (checkpoint s)) <> []) as Hb by (apply base64_nonempty; destruct Hroot; lia).
  rewrite Hnote at 1. rewrite split_blank_body by (try done; by apply base64_lacks). cbn [ok_or].
  rewrite (split_on_app _ _ _ Ho : split_on _ (_ ++ [NEWLINE] ++ _) = _).
  rewrite (split_on_app _ _ _ Hd3 : split_on _ (_ ++ [NEWLINE] ++ _) = _). rewrite split_on_lacks by (by apply base64_lacks).
  rewrite Hd1. unfold unbase64. rewrite base64_roundtrip by apply Hroot. cbn [ok_or]. unfold to_hash.
  destruct Hroot as [Hr _]. rewrite Hr. change (32 =? 32) with true. rewrite parse_signatures_lines by done.
  replace (mkSigned (mkCheckpoint (origin (checkpoint s)) (size (checkpoint s)) (cp_root (checkpoint s))) (signatures s))
    with s by (by destruct s as [[? ? ?] ?]).
  rewrite Hto. by rewrite bool_decide_eq_true_2.
Qed.

Lemma parse_note_canonical s note :
  parse_note note = Ok s -> to_note s = Ok note /\ str_len note <= MAX_NOTE_BYTES.
Proof using.
  unfold parse_note. destruct (Z.ltb_spec MAX_NOTE_BYTES (str_len note)); [done|].
  destruct (split_once_blank note) as [[text sigs]|]; [cbn [ok_or]|done].
  destruct (split_on NEWLINE text) as [|o [|sz [|r [|x l]]]]; try done.
  - by destruct (ok_or _ _).
  - destruct (ok_or _ _); [|done]. destruct (unbase64 r); [|done]. destruct (to_hash _); [|done].
    destruct (parse_signatures _); [|done]. destruct (to_note _) eqn:Et; [|done].
    case_bool_decide; [|done]. intros [= <-]. by subst.
  - destruct (ok_or _ _); [|done]. destruct (unbase64 r); [|done]. by destruct (to_hash _).
Qed.

(** Checkpoint notes are canonical. For a checkpoint whose size fits a usize, whose root is 32
    bytes and whose signatures carry a 4-byte key hash, a note parses to it exactly when the note is
    its serialization and is within 64 KiB: [to_note] then [parse_note] is the identity, and no second
    text parses to the same checkpoint. *)
Theorem note_exact s note : signed_wf s ->
  (parse_note note = Ok s <-> to_note s = Ok note /\ str_len note <= MAX_NOTE_BYTES).
Proof using BOk.
  intros Hwf. split; [apply parse_note_canonical|]. intros [Ht Hl]. by apply parse_note_to_note.
Qed.

(** ** Witness policy *)

(** What an accepted pair stands on: a policy entry and a valid signature of the note. *)
Definition vouched (text : str) (sigs : list NoteSignature) (ws : list WitnessKey) (a : str * list Z) : Prop :=
  exists w s, w ∈ ws /\ s ∈ sigs /\ a = (w_name w, w_key w) /\ name s = w_name w /\
    key_hash s = note_key_hash (w_name w) (w_key w) /\ zlen (signature s) = 64 /\
    verify_strict (w_key w) (as_bytes text) (signature s) = true.

Definition accepted_ok (text : str) (sigs : list NoteSignature) (ws : list WitnessKey) (l : list (str * list Z)) : Prop :=
  NoDup (map fst l) /\ NoDup (map snd l) /\ Forall (vouched text sigs ws) l.

Lemma consider_ok text sigs ws s w l :
  s ∈ sigs -> w ∈ ws -> zlen (signature s) = 64 -> accepted_ok text sigs ws l ->
  accepted_ok text sigs ws (consider text s l w).
Proof using.
  intros Hs Hw H64 (Hn & Hk & Hf). unfold consider. case_bool_decide as He; [|done]. simpl.
  case_bool_decide as Hh; [|done]. simpl.
  destruct (verify_strict (w_key w) (as_bytes text) (signature s)) eqn:Hv; [|done]. simpl.
  destruct (existsb _ l) eqn:Hx; [done|]. simpl.
  assert (forall a, a ∈ l -> a.2 <> w_key w /\ a.1 <> w_name w) as Hnew.
  { intros a Ha%list_elem_of_In. split; intros Heq;
      (assert (existsb (fun a => bool_decide (a.2 = w_key w) || bool_decide (a.1 = w_name w)) l = true); [|congruence]);
      apply existsb_exists; exists a; (split; [done|]); apply orb_true_iff;
      [left|right]; by apply bool_decide_eq_true_2. }
  split_and!.
  - rewrite map_app. apply NoDup_app. split_and!; [done| |apply NoDup_singleton].
    intros x (a & -> & Ha)%list_elem_of_fmap Hx'%list_elem_of_singleton. by destruct (Hnew a Ha).
  - rewrite map_app. apply NoDup_app. split_and!; [done| |apply NoDup_singleton].
    intros x (a & -> & Ha)%list_elem_of_fmap Hx'%list_elem_of_singleton. by destruct (Hnew a Ha).
  - apply Forall_app. split; [done|]. constructor; [|constructor]. by exists w, s.
Qed.

Lemma consider_all_ok text sigs ws s l :
  s ∈ sigs -> zlen (signature s) = 64 -> accepted_ok text sigs ws l ->
  accepted_ok text sigs ws (foldl (consider text s) l ws).
Proof using.
  intros Hs H64. assert (forall vs l, (forall w, w ∈ vs -> w ∈ ws) -> accepted_ok text sigs ws l ->
    accepted_ok text sigs ws (foldl (consider text s) l vs)) as Hall; [|by apply Hall].
  clear l. induction vs as [|w vs IH]; intros l Hsub Hl; [done|]. simpl. apply IH; [intros; apply Hsub; by right|].
  apply consider_ok; try done. apply Hsub. by left.
Qed.

(** C29: A checkpoint that passes the witness policy really has the required countersignatures. The
    names returned are at least as many as required; they are distinct and come from distinct keys; and
    each belongs to a policy entry whose name and key hash match a 64-byte signature of the note that
    verifies, under that entry's key, over the checkpoint's own body text. *)
Theorem witnesses_sound signed ws required names :
  verify_checkpoint signed ws required = Ok names ->
  exists text accepted, body (checkpoint signed) = Ok text /\ names = map fst accepted /\
    required <= zlen names /\ accepted_ok text (signatures signed) ws accepted.
Proof using.
  unfold verify_checkpoint. destruct (body (checkpoint signed)) as [text|] eqn:Hb; [|done].
  set (l := foldl _ [] _). destruct (Z.ltb_spec (zlen l) required); [done|]. intros [= <-].
  exists text, l. split_and!; try done; [unfold zlen in *; rewrite length_map; lia|].
  assert (forall sigs acc, (forall s, s ∈ sigs -> s ∈ signatures signed) ->
    accepted_ok text (signatures signed) ws acc -> accepted_ok text (signatures signed) ws
      (foldl (fun accepted s => if negb (zlen (signature s) =? 64) then accepted
        else foldl (consider text s) accepted ws) acc sigs)) as Hall.
  { induction sigs as [|s sigs IH]; intros acc Hsub Hacc; [done|]. simpl. apply IH; [intros; apply Hsub; by right|].
    destruct (Z.eqb_spec (zlen (signature s)) 64); [|done]. simpl. apply consider_all_ok; try done.
    apply Hsub. by left. }
  apply Hall; [done|]. split_and!; constructor.
Qed.
End notes.

(** ** Concrete parameters for the examples *)

(** RFC 4648's standard alphabet, with padding. *)
Definition b64_char (v : Z) : Z :=
  let v := v mod 64 in
  if v <? 26 then 65 + v else if v <? 52 then 71 + v else if v <? 62 then v - 4 else if v =? 62 then 43 else 47.

Definition b64_value (c : Z) : Z :=
  if (65 <=? c) && (c <=? 90) then c - 65 else if (97 <=? c) && (c <=? 122) then c - 71 else
  if (48 <=? c) && (c <=? 57) then c + 4 else if c =? 43 then 62 else if c =? 47 then 63 else 64.

Definition b64_pad : Z := 61.

Fixpoint b64_encode (l : list Z) : str :=
  match l with
  | [] => []
  | [a] => [b64_char (a / 4); b64_char (a mod 4 * 16); b64_pad; b64_pad]
  | [a; b] => [b64_char (a / 4); b64_char (a mod 4 * 16 + b / 16); b64_char (b mod 16 * 4); b64_pad]
  | a :: b :: c :: rest =>
      b64_char (a / 4) :: b64_char (a mod 4 * 16 + b / 16) :: b64_char (b mod 16 * 4 + c / 64) ::
      b64_char (c mod 64) :: b64_encode rest
  end.

Fixpoint b64_decode (s : str) : option (list Z) :=
  match s with
  | [] => Some []
  | c0 :: c1 :: c2 :: c3 :: rest =>
      let v0 := b64_value c0 in let v1 := b64_value c1 in let v2 := b64_value c2 in let v3 := b64_value c3 in
      if (v0 =? 64) || (v1 =? 64) then None else
      if bool_decide (rest = []) && (c3 =? b64_pad) then
        if c2 =? b64_pad then if v1 mod 16 =? 0 then Some [v0 * 4 + v1 / 16] else None else
        if (v2 =? 64) || negb (v2 mod 4 =? 0) then None else
        Some [v0 * 4 + v1 / 16; v1 mod 16 * 16 + v2 / 4]
      else
        if (v2 =? 64) || (v3 =? 64) then None else
        tail ← b64_decode rest;
        Some (v0 * 4 + v1 / 16 :: v1 mod 16 * 16 + v2 / 4 :: v2 mod 4 * 64 + v3 :: tail)
  | _ => None
  end.

Definition std_base64 : Base64 := mkBase64 b64_encode b64_decode.

Lemma list_ind3 (P : list Z -> Prop) :
  P [] -> (forall a, P [a]) -> (forall a b, P [a; b]) -> (forall a b c l, P l -> P (a :: b :: c :: l)) ->
  forall l, P l.
Proof.
  intros H0 H1 H2 H3 l. assert (P l /\ (forall a, P (a :: l)) /\ (forall a b, P (a :: b :: l))) as [H _]; [|done].
  induction l as [|c l (IH1 & IH2 & IH3)]; split_and!; auto.
Qed.

Ltac b64_cases := repeat match goal with
  | |- context [?a <? ?b] => destruct (Z.ltb_spec a b)
  | |- context [?a =? ?b] => destruct (Z.eqb_spec a b)
  | |- context [?a <=? ?b] => destruct (Z.leb_spec a b)
  end; cbn [andb].

Lemma b64_char_range v : 0x2B <= b64_char v <= 0x7A /\ b64_char v <> b64_pad.
Proof.
  unfold b64_char, b64_pad. pose proof (Z.mod_pos_bound v 64 ltac:(lia)). b64_cases; lia.
Qed.

Lemma b64_char_pad v : (b64_char v =? b64_pad) = false.
Proof. apply Z.eqb_neq, b64_char_range. Qed.

Lemma b64_value_char v : 0 <= v < 64 -> b64_value (b64_char v) = v.
Proof.
  intros Hv. unfold b64_char. rewrite (Z.mod_small v 64) by lia. unfold b64_value. b64_cases; lia.
Qed.

Lemma b64_length l : zlen (b64_encode l) = 4 * div_ceil (zlen l) 3.
Proof.
  induction l as [| | |a b c l IH] using list_ind3; try reflexivity. cbn [b64_encode].
  unfold zlen in *. cbn [length]. rewrite !Nat2Z.inj_succ, IH. unfold div_ceil.
  Z.to_euclidean_division_equations; lia.
Qed.

Ltac b64_group :=
  rewrite ?b64_value_char by (Z.to_euclidean_division_equations; lia);
  rewrite ?(proj2 (Z.eqb_neq _ 64)) by (Z.to_euclidean_division_equations; lia);
  rewrite ?b64_char_pad; cbn [orb andb negb].

Lemma b64_roundtrip l : byte_list l -> b64_decode (b64_encode l) = Some l.
Proof.
  induction l as [|a|a b|a b c l IH] using list_ind3; intros Hl; [done| | |].
  - apply Forall_cons in Hl as [Ha _]. unfold is_u8, u8_max in *. cbn [b64_encode b64_decode]. b64_group.
    rewrite bool_decide_eq_true_2 by done. rewrite Z.eqb_refl. cbn [andb].
    rewrite (proj2 (Z.eqb_eq _ _)) by (Z.to_euclidean_division_equations; lia).
    do 2 f_equal. Z.to_euclidean_division_equations; lia.
  - apply Forall_cons in Hl as [Ha Hl]. apply Forall_cons in Hl as [Hb _]. unfold is_u8, u8_max in *.
    cbn [b64_encode b64_decode]. b64_group. rewrite bool_decide_eq_true_2 by done. rewrite Z.eqb_refl. cbn [andb].
    rewrite (proj2 (Z.eqb_eq (_ mod 4) 0)) by (Z.to_euclidean_division_equations; lia). cbn [negb].
    repeat f_equal; Z.to_euclidean_division_equations; lia.
  - apply Forall_cons in Hl as [Ha Hl]. apply Forall_cons in Hl as [Hb Hl]. apply Forall_cons in Hl as [Hc Hl].
    unfold is_u8, u8_max in *. cbn [b64_encode b64_decode]. b64_group. rewrite andb_false_r, (IH Hl). cbn [mbind option_bind].
    repeat f_equal; Z.to_euclidean_division_equations; lia.
Qed.

Lemma std_base64_ok : Base64Ok std_base64.
Proof.
  split.
  - assert (0x2B <= b64_pad <= 0x7A) as Hp by (unfold b64_pad; lia).
    induction bytes as [| | |a b c l IH] using list_ind3; simpl;
      repeat (constructor; [first [exact Hp|apply b64_char_range]|]); auto.
  - apply b64_length.
  - apply b64_roundtrip.
Qed.

Definition demo_key : list Z := repeat 7 32.
Definition demo_name : str := [119; 49].
Definition demo_unsigned : SignedCheckpoint := mkSigned (mkCheckpoint [118; 111; 116] 12 (repeat 9 32)) [].
Definition demo_signed : SignedCheckpoint :=
  Eval vm_compute in snd (sign_checkpoint (H := toy_sha256) (B := std_base64) (E := toy_ed25519) demo_unsigned demo_name demo_key).
Definition demo_note : str :=
  Eval vm_compute in match to_note (B := std_base64) demo_signed with Ok n => n | Err _ => [] end.

Lemma note_exact_witness : parse_note (B := std_base64) demo_note = Ok demo_signed.
Proof.
  apply (note_exact (B := std_base64) (BOk := std_base64_ok) demo_signed demo_note).
  - split_and!.
    + vm_compute. by split.
    + split; [reflexivity|]. by apply (bool_decide_unpack (Forall is_u8 _)).
    + repeat constructor; by vm_compute.
  - split; [by vm_compute|by vm_compute].
Defined.

Lemma witnesses_sound_witness : exists text accepted,
  body (B := std_base64) (checkpoint demo_signed) = Ok text /\ [demo_name] = map fst accepted /\ 1 <= zlen [demo_name] /\
  accepted_ok (H := toy_sha256) (E := toy_ed25519) text (signatures demo_signed) [mkWitnessKey demo_name demo_key] accepted.
Proof.
  apply (witnesses_sound (H := toy_sha256) (B := std_base64) (E := toy_ed25519) demo_signed
    [mkWitnessKey demo_name demo_key] 1 [demo_name]). vm_compute. reflexivity.
Defined.
