(* ===== verification/Registry.v ===== *)
(** * Registered identifiers ([crates/vot-codec/src/generated.rs], [generated_frames.rs])

    The frame types, error codes and extensions the registry assigns, under the
    source's module names. *)

From S2P Require Import Prelude.

Module frame_type.
Definition HELLO : Z := 0x01.
Definition SETTINGS : Z := 0x03.
Definition SETTINGS_ACK : Z := 0x05.
Definition AUTH_CONTEXT : Z := 0x07.
Definition SESSION_OPEN : Z := 0x09.
Definition SESSION_ACCEPT : Z := 0x0b.
Definition SESSION_REJECT : Z := 0x0d.
Definition PACKAGE_DESCRIPTOR : Z := 0x21.
Definition MANIFEST_REQUEST : Z := 0x23.
Definition MANIFEST_PAGE : Z := 0x25.
Definition PROGRESSIVE_PAGE : Z := 0x27.
Definition SEAL : Z := 0x29.
Definition HAVE : Z := 0x2b.
Definition RANGE_REQUEST : Z := 0x2d.
Definition PROOF_BUNDLE : Z := 0x2f.
Definition DATA_RECORD : Z := 0x31.
Definition RANGE_CANCEL : Z := 0x33.
Definition CAPACITY : Z := 0x40.
Definition TRANSIT_VERIFIED : Z := 0x43.
Definition CHUNK_DURABLE : Z := 0x45.
Definition CHUNK_AT_REST_VERIFIED : Z := 0x47.
Definition PUBLISH_RECEIPT : Z := 0x49.
Definition DATAGRAM_CREDIT : Z := 0x60.
Definition CODING_EPOCH_OPEN : Z := 0x62.
Definition GEN_STATE : Z := 0x64.
Definition GEN_DONE : Z := 0x66.
Definition CODING_EPOCH_CLOSE : Z := 0x68.
Definition PING : Z := 0x80.
Definition GOAWAY : Z := 0x83.
Definition ERROR : Z := 0x85.
Definition SOURCE_SCORE_HINT : Z := 0x86.
Definition JOB_PRIORITY_UPDATE : Z := 0x89.
End frame_type.

Module error_code.
Definition UNKNOWN_CRITICAL_FRAME : Z := 0x0101.
Definition MALFORMED_FRAME : Z := 0x0102.
Definition FRAME_TOO_LARGE : Z := 0x0103.
Definition UNSUPPORTED_VERSION : Z := 0x0104.
Definition INVALID_SETTING : Z := 0x0105.
Definition DUPLICATE_SETTING : Z := 0x0106.
Definition AUTHENTICATION_FAILED : Z := 0x0201.
Definition AUTHORIZATION_FAILED : Z := 0x0202.
Definition REPLAY_REJECTED : Z := 0x0203.
Definition MANIFEST_INVALID : Z := 0x0301.
Definition OBJECT_IDENTITY_MISMATCH : Z := 0x0302.
Definition PROOF_INVALID : Z := 0x0303.
Definition SOURCE_MUTATED : Z := 0x0304.
Definition STORAGE_WRITE_FAILED : Z := 0x0401.
Definition DURABILITY_FAILED : Z := 0x0402.
Definition AT_REST_VERIFICATION_FAILED : Z := 0x0403.
Definition PUBLICATION_FAILED : Z := 0x0404.
Definition STALE_INCARNATION : Z := 0x0405.
Definition ASSURANCE_UNSUPPORTED : Z := 0x0406.
Definition ADMISSION_DENIED : Z := 0x0501.
Definition RESOURCE_LIMIT : Z := 0x0502.
Definition FLOW_CONTROL_VIOLATION : Z := 0x0503.
Definition CARRIER_UNAVAILABLE : Z := 0x0601.
Definition PATH_STATE_REJECTED : Z := 0x0602.
Definition EXPERIMENT_NOT_NEGOTIATED : Z := 0x0701.
Definition RISK_BUDGET_EXHAUSTED : Z := 0x0702.
Definition CODING_EPOCH_CONFLICT : Z := 0x0703.
End error_code.

Module extension_id.
Definition CORE_RELIABLE : Z := 0x00.
Definition DATAGRAM_FEC : Z := 0x01.
Definition ZSTD_RECORDS : Z := 0x02.
Definition VCRC : Z := 0x03.
Definition PUBLIC_MULTI_RAIL : Z := 0x04.
Definition CUSTOM_CONGESTION_CONTROL : Z := 0x05.
Definition MULTIPATH_QUIC : Z := 0x06.
Definition FEC_COVER_EPOCHS : Z := 0x07.
Definition PUSH : Z := 0x08.
End extension_id.

Definition REGISTERED_ERROR_CODES : list Z :=
  [ error_code.UNKNOWN_CRITICAL_FRAME;
    error_code.MALFORMED_FRAME;
    error_code.FRAME_TOO_LARGE;
    error_code.UNSUPPORTED_VERSION;
    error_code.INVALID_SETTING;
    error_code.DUPLICATE_SETTING;
    error_code.AUTHENTICATION_FAILED;
    error_code.AUTHORIZATION_FAILED;
    error_code.REPLAY_REJECTED;
    error_code.MANIFEST_INVALID;
    error_code.OBJECT_IDENTITY_MISMATCH;
    error_code.PROOF_INVALID;
    error_code.SOURCE_MUTATED;
    error_code.STORAGE_WRITE_FAILED;
    error_code.DURABILITY_FAILED;
    error_code.AT_REST_VERIFICATION_FAILED;
    error_code.PUBLICATION_FAILED;
    error_code.STALE_INCARNATION;
    error_code.ASSURANCE_UNSUPPORTED;
    error_code.ADMISSION_DENIED;
    error_code.RESOURCE_LIMIT;
    error_code.FLOW_CONTROL_VIOLATION;
    error_code.CARRIER_UNAVAILABLE;
    error_code.PATH_STATE_REJECTED;
    error_code.EXPERIMENT_NOT_NEGOTIATED;
    error_code.RISK_BUDGET_EXHAUSTED;
    error_code.CODING_EPOCH_CONFLICT ].
