(* ===== verification/FrameCbor.v ===== *)
(** * The frame codec's reader and object identities
    ([crates/vot-codec/src/frames/cbor.rs], [frames/mod.rs])

    Typed payloads are read through a wrapper of the CBOR reader that folds its
    errors into the frame codec's own.  The wrapper holds nothing else, so its
    methods are computations on the same [Reader]. *)

From S2P Require Import Prelude Cbor Exact Codec.

Definition MAX_OBJECT_LENGTH : Z := i64_max.
Definition GROUP_BYTES : Z := 65536.

Inductive Error :=
| Envelope (e : DecodeError)
| WrongFrameType (frame_type : Z)
| Malformed
| InvalidValue
| TooLarge
| Manifest
| Seal
| Receipt.

(** ** Reader *)

Definition structural (error : Cbor.Error) : Error :=
  match error with
  | Cbor.TooLarge => TooLarge
  | Cbor.Truncated | Cbor.Malformed | Cbor.NonCanonical | Cbor.WrongType | Cbor.NotUtf8 | Cbor.Trailing => Malformed
  end.

Abbreviation FR := (M Reader Error).

Definition get_uint : FR Z := mmap_err structural reader_uint.
Definition get_key (expected : Z) : FR unit := mmap_err (fun _ => Malformed) (key expected).
Definition get_map (expected : Z) : FR unit := mmap_err (fun _ => Malformed) (reader_map expected).
Definition get_array (expected : Z) : FR Z :=
  mmap_err (fun _ => Malformed) (reader_array expected ;! ret expected).
Definition get_array_len (maximum : Z) : FR Z := mmap_err (fun _ => TooLarge) (array_len maximum).
Definition get_bytes (maximum : Z) : FR (list Z) := mmap_err structural (reader_bytes maximum).
Definition get_text (maximum : Z) : FR (list Z) := mmap_err structural (reader_text maximum).
Definition get_fixed (n : Z) : FR (list Z) :=
  mmap_err (fun error => match error with Cbor.TooLarge => Malformed | other => structural other end) (fixed_bytes n).
Definition get_finish : FR unit := finished (fun _ => Malformed).

Definition cbor_head_len (value : Z) : Z :=
  if value <=? 23 then 1 else
  if value <=? 0xff then 2 else
  if value <=? 0xffff then 3 else
  if value <=? 0xffffffff then 5 else 9.

Definition cbor_byte_string_len (length : Z) : Z := saturating_add (cbor_head_len length) length.

(** Strictly ascending: [windows(2).all(|pair| pair[0] < pair[1])] and
    [is_sorted_by(|a, b| a < b)]. *)
Fixpoint ascending (l : list Z) : bool :=
  match l with
  | x :: (y :: _) as rest => (x <? y) && ascending rest
  | _ => true
  end.

(** ** Object identities *)

Record ObjectId := mkObjectId { suite : Z; root : list Z; object_length : Z }.

#[export] Instance ObjectId_eq_dec : EqDecision ObjectId.
Proof. solve_decision. Defined.

Definition object_validate (o : ObjectId) : result unit Error :=
  if negb ((suite o =? 1) || (suite o =? 2)) || (MAX_OBJECT_LENGTH <? object_length o)
  then Err InvalidValue else Ok tt.

Definition encode_object (value : ObjectId) : M (list Z) Error unit :=
  put_array 4 ;! put_uint 1 ;! put_uint (suite value) ;! put_bytes (root value) ;! put_uint (object_length value).

Definition decode_object : FR ObjectId :=
  let! n := get_array 4 in
  if negb (n =? 4) then fail Malformed else
  let! version := get_uint in
  if negb (version =? 1) then fail InvalidValue else
  let! s := get_uint in
  let! s := lift (ok_or (try_from u16_max s) InvalidValue) in
  let! r := get_fixed 32 in
  let! l := get_uint in
  let object := mkObjectId s r l in
  lift (object_validate object) ;! ret object.

(** ** Exactness of the reader *)

Lemma exact_get_uint : exact_codec get_uint (uint []) is_u64.
Proof. apply exact_codec_at, exact_mmap_err, exact_codec_at, exact_typed_head. unfold UNSIGNED. lia. Qed.

Lemma exact_get_key n : is_u64 n -> exact_codec (get_key n) (fun _ => uint [] n) (fun _ => True).
Proof. intros Hn. apply exact_codec_at, exact_mmap_err, exact_head_is; [unfold UNSIGNED; lia|done]. Qed.

Lemma exact_get_map n : is_u64 n -> exact_codec (get_map n) (fun _ => map_head [] n) (fun _ => True).
Proof. intros Hn. apply exact_codec_at, exact_mmap_err, exact_head_is; [unfold MAP; lia|done]. Qed.

Lemma exact_get_array n : is_u64 n -> exact_codec (get_array n) (fun _ => array [] n) (fun v => v = n).
Proof.
  intros Hn. apply exact_codec_at, exact_mmap_err. eapply exact_iff.
  - apply exact_skip; [|apply exact_ret]. apply exact_codec_at, exact_head_is; [unfold ARRAY; lia|done].
  - done.
  - intros a _. cbn beta. by rewrite app_nil_r.
Qed.

Lemma exact_get_array_len maximum :
  exact_codec (get_array_len maximum) (array []) (fun v => is_u64 v /\ v <= maximum).
Proof.
  apply exact_codec_at, exact_mmap_err, exact_codec_at. split; [|apply reader_length_parses].
  intros v [Hv Hle]. apply reads_length; [unfold ARRAY; lia|done|done].
Qed.

Lemma exact_get_bytes maximum : 0 <= maximum <= u64_max ->
  exact_codec (get_bytes maximum) (bytes []) (fun bs => byte_list bs /\ zlen bs <= maximum).
Proof. intros Hm. apply exact_codec_at, exact_mmap_err, exact_codec_at. by apply reader_bytes_exact. Qed.

Lemma exact_get_text maximum : 0 <= maximum <= u64_max ->
  exact_codec (get_text maximum) (text []) (fun bs => byte_list bs /\ zlen bs <= maximum /\ utf8_valid bs = true).
Proof. intros Hm. apply exact_codec_at, exact_mmap_err, exact_codec_at. by apply reader_text_exact. Qed.

Lemma exact_get_fixed n : is_u64 n -> n <= i64_max ->
  exact_codec (get_fixed n) (bytes []) (fun bs => byte_list bs /\ zlen bs = n).
Proof.
  intros Hn Hmax. apply exact_codec_at, exact_mmap_err, exact_codec_at. by apply exact_fixed_bytes.
Qed.

(** ** Object identities round-trip *)

(** [[u8; N]]. *)
Definition is_id (n : Z) (bs : list Z) : Prop := byte_list bs /\ zlen bs = n.

Definition is_object (o : ObjectId) : Prop :=
  0 <= suite o <= u16_max /\ byte_list (root o) /\ zlen (root o) = 32 /\ is_u64 (object_length o).

Definition object_bytes (o : ObjectId) : list Z :=
  array [] 4 ++ uint [] 1 ++ uint [] (suite o) ++ bytes [] (root o) ++ uint [] (object_length o).

#[export] Hint Resolve exact_get_uint exact_get_array_len : exact.
#[export] Hint Extern 2 (exact_codec (get_key _) _ _) => apply exact_get_key; by vm_compute : exact.
#[export] Hint Extern 2 (exact_codec (get_map _) _ _) => apply exact_get_map; by vm_compute : exact.
#[export] Hint Extern 2 (exact_codec (get_array _) _ _) => apply exact_get_array; by vm_compute : exact.
#[export] Hint Extern 2 (exact_codec (get_bytes _) _ _) => apply exact_get_bytes; by vm_compute : exact.
#[export] Hint Extern 2 (exact_codec (get_text _) _ _) => apply exact_get_text; by vm_compute : exact.
#[export] Hint Extern 2 (exact_codec (get_fixed _) _ _) => apply exact_get_fixed; by vm_compute : exact.

Lemma decode_object_exact :
  exact_codec decode_object object_bytes (fun o => is_object o /\ object_validate o = Ok tt).
Proof.
  apply exact_codec_at. unfold decode_object. eapply exact_iff.
  - codec_const ObjectId 4. codec_const ObjectId 1. codec_field suite. codec_field suite. codec_field root. codec_field object_length.
    codec_end. all: codec_fields.
  - unfold is_object. codec_conditions (fun (o : ObjectId) (_ : object_validate o = Ok tt) => I).
  - codec_bytes.
Qed.

Lemma emits_object o : emits (encode_object o) (object_bytes o).
Proof. unfold encode_object, object_bytes. solve_emits. Qed.
#[export] Hint Resolve emits_object : emit.
#[export] Hint Resolve decode_object_exact : exact.

(** ** Payload codecs

    [exact_frame encode decode wt]: on a byte string a slice can hold, the
    decoder returns [v] exactly when [v] is well typed and the encoder, started
    on an empty vector, accepts [v] and writes precisely that string. *)
Definition exact_frame {A} (encode : A -> M (list Z) Error unit) (decode : list Z -> result A Error)
    (wt : A -> Prop) : Prop :=
  (forall v input, byte_list input -> zlen input <= i64_max -> decode input = Ok v ->
     wt v /\ encode v [] = (Ok tt, input)) /\
  (forall v input, zlen input <= i64_max -> wt v -> encode v [] = (Ok tt, input) -> decode input = Ok v).

(** An encoder that checks, each check its own way, and then writes. *)
Lemma exact_frame_gen {A} (encode write : A -> M (list Z) Error unit) m enc (wt ok : A -> Prop) :
  exact_at true m enc (fun v => wt v /\ ok v) -> (forall v, emits (write v) (enc v)) ->
  (forall v, (ok v -> encode v [] = write v []) /\ (~ ok v -> fst (encode v []) <> Ok tt)) -> (forall v, Decision (ok v)) ->
  exact_frame encode (fun i => fst (m (reader_new i))) wt.
Proof.
  intros [Hm1 Hm2]%exact_to_decode Hw He Hd. split.
  - intros v i Hb Hl Hdec. destruct (Hm1 i v Hb Hl Hdec) as ((Hwt & Hok) & ->). split; [done|].
    rewrite (proj1 (He v) Hok). apply (Hw v []).
  - intros v i Hl Hwt Henc. destruct (He v) as [H1 H2]. destruct (decide (ok v)) as [Hok|Hno].
    + rewrite (H1 Hok), (Hw v) in Henc. injection Henc as <-. by apply Hm2.
    + specialize (H2 Hno). by rewrite Henc in H2.
Qed.

(** One that validates with one function. *)
Lemma exact_frame_of {A} (c : A -> result unit Error) (write : A -> M (list Z) Error unit) m enc (wt : A -> Prop) :
  exact_at true m enc (fun v => wt v /\ c v = Ok tt) -> (forall v, emits (write v) (enc v)) ->
  exact_frame (fun v => lift (c v) ;! write v) (fun i => fst (m (reader_new i))) wt.
Proof.
  intros Hm Hw. eapply (exact_frame_gen _ write _ enc _ _ Hm Hw); intros v; unfold bind, lift;
    destruct (c v) as [[]|]; first [done | by left | by right].
Qed.

(** One that cannot fail. *)
Lemma exact_frame_plain {A} (write : A -> M (list Z) Error unit) m enc (wt : A -> Prop) :
  exact_at true m enc wt -> (forall v, emits (write v) (enc v)) ->
  exact_frame write (fun i => fst (m (reader_new i))) wt.
Proof.
  intros Hm Hw. eapply (exact_frame_gen _ write _ enc _ (fun _ => True)); [|done|done|by left].
  eapply exact_iff; [exact Hm|tauto|done].
Qed.
