(* ===== verification/FramesSession.v ===== *)
(** * Session frames ([crates/vot-codec/src/frames/session.rs])

    The challenge, the request to open a session and its two answers, the
    orderly close and the terminal error: their validation, their encoders and
    their decoders, and that each pair is exact. *)

From S2P Require Import Prelude Cbor Exact Codec Registry FrameCbor.

Definition MAX_AUTH_NONCE : Z := 64.
Definition MIN_AUTH_NONCE : Z := 16.
Definition MAX_CAPABILITY_FORMATS : Z := 16.
Definition MAX_SCOPE_BYTES : Z := 4096.
Definition MAX_REJECT_DETAIL_BYTES : Z := 1024.
Definition MAX_CAPABILITY_FORMAT : Z := 65535.
Definition MAX_CAPABILITY_BYTES : Z := 49152.

Inductive Binding := BindingNone | ProofOfPossession.

#[export] Instance Binding_eq_dec : EqDecision Binding.
Proof. solve_decision. Defined.

Definition from_wire (value : Z) : option Binding :=
  if value =? 0 then Some BindingNone else if value =? 1 then Some ProofOfPossession else None.

Definition to_wire (b : Binding) : Z := match b with BindingNone => 0 | ProofOfPossession => 1 end.

Record AuthContext := mkAuthContext { nonce : list Z; binding : Binding; formats : list Z }.

Record SessionOpen := mkSessionOpen {
  session_id : list Z; capability_format : Z; capability : list Z; requested_scope : list Z; binding_proof : list Z }.

Record SessionAccept := mkSessionAccept { accept_id : list Z; granted_scope : list Z }.

(** [detail] is a [String]: its UTF-8 bytes. *)
Record SessionReject := mkSessionReject { reject_id : list Z; reason : Z; detail : list Z }.

Record GoAway := mkGoAway { cursor : Z }.

Record ErrorFrame := mkErrorFrame { code : Z; error_detail : list Z }.

(** ** Going away and errors *)

Definition encode_goaway (value : GoAway) : M (list Z) Error unit :=
  mmap_err Envelope (encode_varint (cursor value)) ;! ret tt.

Definition decode_goaway (input : list Z) : result GoAway Error :=
  let? (cursor, consumed) := map_err Envelope (decode_varint input) in
  if negb (consumed =? zlen input) then Err Malformed else Ok (mkGoAway cursor).

Definition registered_error (code : Z) : bool := existsb (Z.eqb code) REGISTERED_ERROR_CODES.

Definition encode_error (value : ErrorFrame) : M (list Z) Error unit :=
  if negb (registered_error (code value)) then fail InvalidValue else
  mmap_err Envelope (encode_varint (code value)) ;! extend (error_detail value) ;! ret tt.

Definition decode_error (input : list Z) : result ErrorFrame Error :=
  let? (code, consumed) := map_err Envelope (decode_varint input) in
  let? code := ok_or (try_from u16_max code) InvalidValue in
  if negb (registered_error code) then Err InvalidValue else
  Ok (mkErrorFrame code (zdrop consumed input)).

(** ** The challenge *)

Definition validate_auth_context (value : AuthContext) : result unit Error :=
  if (zlen (nonce value) <? MIN_AUTH_NONCE) || (MAX_AUTH_NONCE <? zlen (nonce value)) then Err InvalidValue else
  if MAX_CAPABILITY_FORMATS <? zlen (formats value) then Err TooLarge else
  if negb (ascending (formats value)) ||
     existsb (fun format => (format =? 0) || (MAX_CAPABILITY_FORMAT <? format)) (formats value)
  then Err InvalidValue else Ok tt.

Definition encode_auth_context (value : AuthContext) : M (list Z) Error unit :=
  lift (validate_auth_context value) ;!
  put_map 4 ;!
  put_uint 0 ;! put_uint 0 ;!
  put_uint 1 ;! put_bytes (nonce value) ;!
  put_uint 2 ;! put_uint (to_wire (binding value)) ;!
  put_uint 3 ;! put_array (zlen (formats value)) ;! put_each put_uint (formats value).

Definition read_auth_context : FR AuthContext :=
  get_map 4 ;!
  get_key 0 ;! let! version := get_uint in
  if negb (version =? 0) then fail InvalidValue else
  get_key 1 ;! let! nonce := get_bytes MAX_AUTH_NONCE in
  get_key 2 ;! let! wire := get_uint in let! binding := lift (ok_or (from_wire wire) InvalidValue) in
  get_key 3 ;! let! count := get_array_len MAX_CAPABILITY_FORMATS in
  let! formats := read_each (Z.to_nat count) get_uint in
  get_finish ;!
  let value := mkAuthContext nonce binding formats in
  lift (validate_auth_context value) ;! ret value.

Definition decode_auth_context (input : list Z) : result AuthContext Error :=
  fst (read_auth_context (reader_new input)).

(** ** The request *)

Definition validate_session_open (value : SessionOpen) : result unit Error :=
  if (capability_format value =? 0) || (MAX_CAPABILITY_FORMAT <? capability_format value) then Err InvalidValue else
  if (MAX_CAPABILITY_BYTES <? zlen (capability value)) || (MAX_SCOPE_BYTES <? zlen (requested_scope value)) ||
     (MAX_SCOPE_BYTES <? zlen (binding_proof value))
  then Err TooLarge else Ok tt.

Definition encode_session_open (value : SessionOpen) : M (list Z) Error unit :=
  lift (validate_session_open value) ;!
  put_map 6 ;!
  put_uint 0 ;! put_uint 0 ;!
  put_uint 1 ;! put_bytes (session_id value) ;!
  put_uint 2 ;! put_uint (capability_format value) ;!
  put_uint 3 ;! put_bytes (capability value) ;!
  put_uint 4 ;! put_bytes (requested_scope value) ;!
  put_uint 5 ;! put_bytes (binding_proof value).

Definition read_session_open : FR SessionOpen :=
  get_map 6 ;!
  get_key 0 ;! let! version := get_uint in
  if negb (version =? 0) then fail InvalidValue else
  get_key 1 ;! let! session_id := get_fixed 16 in
  get_key 2 ;! let! capability_format := get_uint in
  get_key 3 ;! let! capability := get_bytes MAX_CAPABILITY_BYTES in
  get_key 4 ;! let! requested_scope := get_bytes MAX_SCOPE_BYTES in
  get_key 5 ;! let! binding_proof := get_bytes MAX_SCOPE_BYTES in
  get_finish ;!
  let value := mkSessionOpen session_id capability_format capability requested_scope binding_proof in
  lift (validate_session_open value) ;! ret value.

Definition decode_session_open (input : list Z) : result SessionOpen Error :=
  fst (read_session_open (reader_new input)).

(** ** The answers *)

Definition validate_session_accept (value : SessionAccept) : result unit Error :=
  if MAX_SCOPE_BYTES <? zlen (granted_scope value) then Err TooLarge else Ok tt.

Definition encode_session_accept (value : SessionAccept) : M (list Z) Error unit :=
  lift (validate_session_accept value) ;!
  put_map 3 ;!
  put_uint 0 ;! put_uint 0 ;!
  put_uint 1 ;! put_bytes (accept_id value) ;!
  put_uint 2 ;! put_bytes (granted_scope value).

Definition read_session_accept : FR SessionAccept :=
  get_map 3 ;!
  get_key 0 ;! let! version := get_uint in
  if negb (version =? 0) then fail InvalidValue else
  get_key 1 ;! let! session_id := get_fixed 16 in
  get_key 2 ;! let! granted_scope := get_bytes MAX_SCOPE_BYTES in
  get_finish ;!
  let value := mkSessionAccept session_id granted_scope in
  lift (validate_session_accept value) ;! ret value.

Definition decode_session_accept (input : list Z) : result SessionAccept Error :=
  fst (read_session_accept (reader_new input)).

Definition validate_session_reject (value : SessionReject) : result unit Error :=
  let registered := match try_from u16_max (reason value) with
    | Some r => (r =? error_code.AUTHENTICATION_FAILED) || (r =? error_code.AUTHORIZATION_FAILED) ||
                (r =? error_code.REPLAY_REJECTED)
    | None => false
    end in
  if negb registered || (MAX_REJECT_DETAIL_BYTES <? zlen (detail value)) then Err InvalidValue else Ok tt.

Definition encode_session_reject (value : SessionReject) : M (list Z) Error unit :=
  lift (validate_session_reject value) ;!
  put_map 4 ;!
  put_uint 0 ;! put_uint 0 ;!
  put_uint 1 ;! put_bytes (reject_id value) ;!
  put_uint 2 ;! put_uint (reason value) ;!
  put_uint 3 ;! put_text (detail value).

Definition read_session_reject : FR SessionReject :=
  get_map 4 ;!
  get_key 0 ;! let! version := get_uint in
  if negb (version =? 0) then fail InvalidValue else
  get_key 1 ;! let! session_id := get_fixed 16 in
  get_key 2 ;! let! reason := get_uint in
  get_key 3 ;! let! detail := get_text MAX_REJECT_DETAIL_BYTES in
  get_finish ;!
  let value := mkSessionReject session_id reason detail in
  lift (validate_session_reject value) ;! ret value.

Definition decode_session_reject (input : list Z) : result SessionReject Error :=
  fst (read_session_reject (reader_new input)).

(** ** Exactness *)

Definition is_auth_context (v : AuthContext) : Prop :=
  byte_list (nonce v) /\ Forall is_u64 (formats v).

Definition is_session_open (v : SessionOpen) : Prop :=
  is_id 16 (session_id v) /\ is_u64 (capability_format v) /\ byte_list (capability v) /\
  byte_list (requested_scope v) /\ byte_list (binding_proof v).

Definition is_session_accept (v : SessionAccept) : Prop := is_id 16 (accept_id v) /\ byte_list (granted_scope v).

Definition is_session_reject (v : SessionReject) : Prop :=
  is_id 16 (reject_id v) /\ is_u64 (reason v) /\ byte_list (detail v) /\ utf8_valid (detail v) = true.

Lemma from_wire_ok {E} wire b (e : E) : ok_or (from_wire wire) e = Ok b <-> wire = to_wire b.
Proof.
  unfold from_wire. destruct (Z.eqb_spec wire 0), (Z.eqb_spec wire 1); destruct b; simpl; split; intros; simplify_eq/=; congruence || lia.
Qed.

Lemma session_accept_bounds v : validate_session_accept v = Ok tt -> zlen (granted_scope v) <= MAX_SCOPE_BYTES.
Proof. unfold validate_session_accept. zcases; done || lia. Qed.

Lemma session_accept_exact : exact_frame encode_session_accept decode_session_accept is_session_accept.
Proof.
  eapply exact_frame_of; [|intros v; solve_emits]. eapply exact_iff.
  - unfold read_session_accept. do 2 codec_skip. codec_const SessionAccept 0.
    codec_skip. codec_field accept_id. codec_skip. codec_field granted_scope. codec_end. all: codec_fields.
  - unfold is_session_accept, is_id. codec_conditions session_accept_bounds.
  - codec_bytes.
Qed.

Lemma session_open_bounds v : validate_session_open v = Ok tt ->
  zlen (capability v) <= MAX_CAPABILITY_BYTES /\ zlen (requested_scope v) <= MAX_SCOPE_BYTES /\
  zlen (binding_proof v) <= MAX_SCOPE_BYTES.
Proof. unfold validate_session_open. zcases; simpl; done || lia. Qed.

Lemma session_open_exact : exact_frame encode_session_open decode_session_open is_session_open.
Proof.
  eapply exact_frame_of; [|intros v; solve_emits]. eapply exact_iff.
  - unfold read_session_open. do 2 codec_skip. codec_const SessionOpen 0.
    codec_skip. codec_field session_id. codec_skip. codec_field capability_format. codec_skip. codec_field capability.
    codec_skip. codec_field requested_scope. codec_skip. codec_field binding_proof. codec_end. all: codec_fields.
  - unfold is_session_open, is_id. codec_conditions session_open_bounds.
  - codec_bytes.
Qed.

Lemma session_reject_bounds v : validate_session_reject v = Ok tt -> zlen (detail v) <= MAX_REJECT_DETAIL_BYTES.
Proof. unfold validate_session_reject. zcases; rewrite ?orb_true_r; simpl; done || lia. Qed.

Lemma session_reject_exact : exact_frame encode_session_reject decode_session_reject is_session_reject.
Proof.
  eapply exact_frame_of; [|intros v; solve_emits]. eapply exact_iff.
  - unfold read_session_reject. do 2 codec_skip. codec_const SessionReject 0.
    codec_skip. codec_field reject_id. codec_skip. codec_field reason. codec_skip. codec_field detail. codec_end.
    all: codec_fields.
  - unfold is_session_reject, is_id. codec_conditions session_reject_bounds.
  - codec_bytes.
Qed.

#[local] Hint Rewrite @from_wire_ok : codec.

Lemma auth_context_bounds v : validate_auth_context v = Ok tt ->
  zlen (nonce v) <= MAX_AUTH_NONCE /\ zlen (formats v) <= MAX_CAPABILITY_FORMATS.
Proof. unfold validate_auth_context. zcases; simpl; done || lia. Qed.

Lemma auth_context_exact : exact_frame encode_auth_context decode_auth_context is_auth_context.
Proof.
  eapply exact_frame_of; [|intros v; solve_emits]. eapply exact_iff.
  - unfold read_auth_context. do 2 codec_skip. codec_const AuthContext 0.
    codec_skip. codec_field nonce. codec_skip. codec_field (fun v => to_wire (binding v)). codec_field binding.
    codec_skip. codec_field (fun v => zlen (formats v)). codec_field formats. codec_end. all: codec_fields.
  - unfold is_auth_context, is_id. codec_conditions auth_context_bounds;
      [by destruct binding0|unfold MAX_CAPABILITY_FORMATS, zlen in *; mlia].
  - codec_bytes.
Qed.
