(* ===== verification/FramesTransfer.v ===== *)
(** * Manifest, transfer and assurance frames
    ([crates/vot-codec/src/frames/manifest.rs], [transfer.rs], [assurance.rs])

    What an object is made of, who holds which groups, the ranges asked for, the
    proofs and records that answer, and the receiver's capacity and assurances. *)

From S2P Require Import Prelude Cbor Exact Codec Registry FrameCbor.

(** ** Manifests *)

Definition MAX_MANIFEST_REQUEST_PAGES : Z := 8192.

Record PackageDescriptor := mkPackageDescriptor { package : ObjectId; manifest_id : list Z; descriptor_pages : Z }.

Record ManifestRequest := mkManifestRequest {
  mr_request_id : list Z; mr_manifest_id : list Z; first_page : Z; mr_page_count : Z }.

Definition write_package_descriptor (value : PackageDescriptor) : M (list Z) Error unit :=
  put_map 3 ;!
  put_uint 0 ;! encode_object (package value) ;!
  put_uint 1 ;! put_bytes (manifest_id value) ;!
  put_uint 2 ;! put_uint (descriptor_pages value).

Definition encode_package_descriptor (value : PackageDescriptor) : M (list Z) Error unit :=
  lift (object_validate (package value)) ;!
  if descriptor_pages value =? 0 then fail InvalidValue else write_package_descriptor value.

Definition read_package_descriptor : FR PackageDescriptor :=
  get_map 3 ;!
  get_key 0 ;! let! package := decode_object in
  get_key 1 ;! let! manifest_id := get_fixed 16 in
  get_key 2 ;! let! page_count := get_uint in
  get_finish ;!
  let value := mkPackageDescriptor package manifest_id page_count in
  lift (if descriptor_pages value =? 0 then Err InvalidValue else Ok value).

Definition decode_package_descriptor (input : list Z) : result PackageDescriptor Error :=
  fst (read_package_descriptor (reader_new input)).

Definition validate_manifest_request (value : ManifestRequest) : result unit Error :=
  if (mr_page_count value =? 0) || (MAX_MANIFEST_REQUEST_PAGES <? mr_page_count value) ||
     (MAX_OBJECT_LENGTH <? first_page value) ||
     bool_decide (checked_add (first_page value) (mr_page_count value) = None)
  then Err InvalidValue else Ok tt.

Definition encode_manifest_request (value : ManifestRequest) : M (list Z) Error unit :=
  lift (validate_manifest_request value) ;!
  put_map 4 ;!
  put_uint 0 ;! put_bytes (mr_request_id value) ;!
  put_uint 1 ;! put_bytes (mr_manifest_id value) ;!
  put_uint 2 ;! put_uint (first_page value) ;!
  put_uint 3 ;! put_uint (mr_page_count value).

Definition read_manifest_request : FR ManifestRequest :=
  get_map 4 ;!
  get_key 0 ;! let! request_id := get_fixed 16 in
  get_key 1 ;! let! manifest_id := get_fixed 16 in
  get_key 2 ;! let! first_page := get_uint in
  get_key 3 ;! let! page_count := get_uint in
  get_finish ;!
  let value := mkManifestRequest request_id manifest_id first_page page_count in
  lift (validate_manifest_request value) ;! ret value.

Definition decode_manifest_request (input : list Z) : result ManifestRequest Error :=
  fst (read_manifest_request (reader_new input)).

(** ** Ranges *)

Definition MAX_REQUESTED_RANGE : Z := 4194304.
Definition MAX_PROOF_BYTES : Z := 16 * 1024 * 1024.
Definition MAX_DATA_BYTES : Z := 256 * 1024.
Definition MAX_HAVE_RUNS : Z := 2097152.
Definition MAX_DATA_RECORDS_PER_BUNDLE : Z := 17.

(** [a.checked_add(b).is_none_or(|end| end > limit)]. *)
Definition end_past (a b limit : Z) : bool :=
  match checked_add a b with Some stop => limit <? stop | None => true end.

Record RangeRequest := mkRangeRequest { rr_request_id : list Z; rr_object : ObjectId; rr_offset : Z; rr_length : Z }.

Definition write_range_request (value : RangeRequest) : M (list Z) Error unit :=
  put_map 4 ;!
  put_uint 0 ;! put_bytes (rr_request_id value) ;!
  put_uint 1 ;! encode_object (rr_object value) ;!
  put_uint 2 ;! put_uint (rr_offset value) ;!
  put_uint 3 ;! put_uint (rr_length value).

Definition encode_range_request (value : RangeRequest) : M (list Z) Error unit :=
  lift (object_validate (rr_object value)) ;!
  if (rr_length value =? 0) || (MAX_REQUESTED_RANGE <? rr_length value) ||
     end_past (rr_offset value) (rr_length value) (object_length (rr_object value))
  then fail InvalidValue else write_range_request value.

Definition read_range_request : FR RangeRequest :=
  get_map 4 ;!
  get_key 0 ;! let! request_id := get_fixed 16 in
  get_key 1 ;! let! object := decode_object in
  get_key 2 ;! let! offset := get_uint in
  get_key 3 ;! let! length := get_uint in
  get_finish ;!
  let value := mkRangeRequest request_id object offset length in
  lift (fst (encode_range_request value [])) ;! ret value.

Definition decode_range_request (input : list Z) : result RangeRequest Error :=
  fst (read_range_request (reader_new input)).

(** ** Proof bundles *)

Record ProofBundle := mkProofBundle {
  pb_request_id : list Z; pb_bundle_id : list Z; pb_object : ObjectId;
  requested_offset : Z; requested_length : Z; covered_offset : Z; covered_length : Z;
  data_record_count : Z; total_plaintext_length : Z; proof : list Z }.

(** A chain of [saturating_add]s. *)
Definition saturating_sum (l : list Z) : Z :=
  match l with [] => 0 | x :: rest => foldl saturating_add x rest end.

Definition object_payload_len (o : ObjectId) : Z :=
  saturating_sum [cbor_head_len 4; cbor_head_len 1; cbor_head_len (suite o); cbor_byte_string_len 32;
    cbor_head_len (object_length o)].

Definition proof_bundle_payload_len_with (value : ProofBundle) (proof_len : Z) : Z :=
  saturating_sum [cbor_head_len 11; cbor_head_len 0; cbor_head_len 0; cbor_head_len 1; cbor_byte_string_len 16;
    cbor_head_len 2; cbor_byte_string_len 16; cbor_head_len 3; object_payload_len (pb_object value);
    cbor_head_len 4; cbor_head_len (requested_offset value); cbor_head_len 5; cbor_head_len (requested_length value);
    cbor_head_len 6; cbor_head_len (covered_offset value); cbor_head_len 7; cbor_head_len (covered_length value);
    cbor_head_len 8; cbor_head_len (data_record_count value); cbor_head_len 9;
    cbor_head_len (total_plaintext_length value); cbor_head_len 10; cbor_byte_string_len proof_len].

Definition payload_past_limit (frame_type length : Z) : bool :=
  match registered_payload_limit frame_type with Some limit => limit <? length | None => false end.

(** [u64::checked_mul]. *)
Definition checked_mul (a b : Z) : option Z := if a * b <=? u64_max then Some (a * b) else None.

Definition validate_proof_bundle_with_proof_len (value : ProofBundle) (proof_len : Z) : result unit Error :=
  let? _ := object_validate (pb_object value) in
  if (object_length (pb_object value) =? 0) || (requested_length value =? 0) ||
     (MAX_REQUESTED_RANGE <? requested_length value) ||
     end_past (requested_offset value) (requested_length value) (object_length (pb_object value)) ||
     negb (covered_offset value =? requested_offset value / GROUP_BYTES * GROUP_BYTES) ||
     (data_record_count value =? 0) || (MAX_DATA_RECORDS_PER_BUNDLE <? data_record_count value) ||
     negb (total_plaintext_length value =? covered_length value) ||
     payload_past_limit frame_type.PROOF_BUNDLE (proof_bundle_payload_len_with value proof_len)
  then Err InvalidValue else
  let? request_end := ok_or (checked_add (requested_offset value) (requested_length value)) InvalidValue in
  let? aligned_end := ok_or (checked_mul (div_ceil request_end GROUP_BYTES) GROUP_BYTES) InvalidValue in
  let expected_end := Z.min aligned_end (object_length (pb_object value)) in
  if bool_decide (checked_add (covered_offset value) (covered_length value) = Some expected_end)
  then Ok tt else Err InvalidValue.

Definition validate_proof_bundle (value : ProofBundle) : result unit Error :=
  validate_proof_bundle_with_proof_len value (zlen (proof value)).

Definition encode_proof_bundle (value : ProofBundle) : M (list Z) Error unit :=
  lift (validate_proof_bundle value) ;!
  put_map 11 ;!
  put_uint 0 ;! put_uint 0 ;!
  put_uint 1 ;! put_bytes (pb_request_id value) ;!
  put_uint 2 ;! put_bytes (pb_bundle_id value) ;!
  put_uint 3 ;! encode_object (pb_object value) ;!
  put_uint 4 ;! put_uint (requested_offset value) ;!
  put_uint 5 ;! put_uint (requested_length value) ;!
  put_uint 6 ;! put_uint (covered_offset value) ;!
  put_uint 7 ;! put_uint (covered_length value) ;!
  put_uint 8 ;! put_uint (data_record_count value) ;!
  put_uint 9 ;! put_uint (total_plaintext_length value) ;!
  put_uint 10 ;! put_bytes (proof value).

Definition read_proof_bundle : FR ProofBundle :=
  get_map 11 ;!
  get_key 0 ;! let! version := get_uint in
  if negb (version =? 0) then fail InvalidValue else
  get_key 1 ;! let! request_id := get_fixed 16 in
  get_key 2 ;! let! bundle_id := get_fixed 16 in
  get_key 3 ;! let! object := decode_object in
  get_key 4 ;! let! requested_offset := get_uint in
  get_key 5 ;! let! requested_length := get_uint in
  get_key 6 ;! let! covered_offset := get_uint in
  get_key 7 ;! let! covered_length := get_uint in
  get_key 8 ;! let! data_record_count := get_uint in
  get_key 9 ;! let! total_plaintext_length := get_uint in
  get_key 10 ;! let! proof := get_bytes MAX_PROOF_BYTES in
  get_finish ;!
  let value := mkProofBundle request_id bundle_id object requested_offset requested_length covered_offset
    covered_length data_record_count total_plaintext_length [] in
  lift (validate_proof_bundle_with_proof_len value (zlen proof)) ;!
  ret (mkProofBundle request_id bundle_id object requested_offset requested_length covered_offset
    covered_length data_record_count total_plaintext_length proof).

Definition decode_proof_bundle (input : list Z) : result ProofBundle Error :=
  fst (read_proof_bundle (reader_new input)).

(** ** Data records *)

(** [DataRecord] and [DataRecordRef], which differ in who owns [encoded]. *)
Record DataRecord := mkDataRecord {
  bundle_id : list Z; record_index : Z; plaintext_offset : Z; plaintext_length : Z; compression : Z; encoded : list Z }.

Record DataRecordHeader := mkDataRecordHeader {
  dh_bundle_id : list Z; dh_record_index : Z; dh_plaintext_offset : Z; dh_plaintext_length : Z; dh_compression : Z;
  encoded_length : Z }.

Definition header_of (value : DataRecord) : DataRecordHeader :=
  mkDataRecordHeader (bundle_id value) (record_index value) (plaintext_offset value) (plaintext_length value)
    (compression value) (zlen (encoded value)).

Definition data_record_payload_len (value : DataRecordHeader) : Z :=
  saturating_sum [cbor_head_len 8; cbor_head_len 0; cbor_head_len 0; cbor_head_len 1; cbor_byte_string_len 16;
    cbor_head_len 2; cbor_head_len (dh_record_index value); cbor_head_len 3; cbor_head_len (dh_plaintext_offset value);
    cbor_head_len 4; cbor_head_len (dh_plaintext_length value); cbor_head_len 5; cbor_head_len (dh_compression value);
    cbor_head_len 6; cbor_head_len (encoded_length value); cbor_head_len 7;
    cbor_byte_string_len (encoded_length value)].

Definition validate_data_record_header (value : DataRecordHeader) : result unit Error :=
  if (16 <? dh_record_index value) || (MAX_OBJECT_LENGTH <? dh_plaintext_offset value) ||
     (dh_plaintext_length value =? 0) || (MAX_DATA_BYTES <? dh_plaintext_length value) ||
     (encoded_length value =? 0) || (MAX_DATA_BYTES <? data_record_payload_len value) ||
     negb ((dh_compression value =? 0) || (dh_compression value =? 1)) ||
     ((dh_compression value =? 0) && negb (dh_plaintext_length value =? encoded_length value))
  then Err InvalidValue else Ok tt.

Definition validate_data_record (value : DataRecord) : result unit Error := validate_data_record_header (header_of value).

Definition encode_validated_data_record_header (value : DataRecordHeader) : M (list Z) Error unit :=
  put_map 8 ;!
  put_uint 0 ;! put_uint 0 ;!
  put_uint 1 ;! put_bytes (dh_bundle_id value) ;!
  put_uint 2 ;! put_uint (dh_record_index value) ;!
  put_uint 3 ;! put_uint (dh_plaintext_offset value) ;!
  put_uint 4 ;! put_uint (dh_plaintext_length value) ;!
  put_uint 5 ;! put_uint (dh_compression value) ;!
  put_uint 6 ;! put_uint (encoded_length value) ;!
  put_uint 7 ;! put (fun output => head output BYTES (encoded_length value)).

Definition read_data_record : FR DataRecord :=
  get_map 8 ;!
  get_key 0 ;! let! version := get_uint in
  if negb (version =? 0) then fail InvalidValue else
  get_key 1 ;! let! bundle_id := get_fixed 16 in
  get_key 2 ;! let! record_index := get_uint in
  get_key 3 ;! let! plaintext_offset := get_uint in
  get_key 4 ;! let! plaintext_length := get_uint in
  get_key 5 ;! let! compression := get_uint in
  let! compression := lift (ok_or (try_from u8_max compression) InvalidValue) in
  get_key 6 ;! let! encoded_length := get_uint in
  get_key 7 ;! let! encoded := get_bytes MAX_DATA_BYTES in
  get_finish ;!
  if negb (encoded_length =? zlen encoded) then fail InvalidValue else
  let value := mkDataRecord bundle_id record_index plaintext_offset plaintext_length compression encoded in
  lift (validate_data_record value) ;! ret value.

Definition decode_data_record (input : list Z) : result DataRecord Error := fst (read_data_record (reader_new input)).

(** ** Have *)

Record HaveRun := mkHaveRun { start_group : Z; group_count : Z }.
Record Have := mkHave { have_object : ObjectId; map_sequence : Z; runs : list HaveRun }.

Definition have_run_len (run : HaveRun) : Z :=
  saturating_sum [cbor_head_len 2; cbor_head_len (start_group run); cbor_head_len (group_count run)].

Definition have_payload_len (value : Have) : Z :=
  foldl (fun length run => saturating_add length (have_run_len run))
    (saturating_sum [cbor_head_len 3; cbor_head_len 0; object_payload_len (have_object value); cbor_head_len 1;
      cbor_head_len (map_sequence value); cbor_head_len 2; cbor_head_len (zlen (runs value))])
    (runs value).

(** The loop over the runs, from [index] with the previous run's end. *)
Fixpoint validate_runs (index previous_end groups : Z) (l : list HaveRun) : result unit Error :=
  match l with
  | [] => Ok tt
  | run :: rest =>
      if (group_count run =? 0) || (start_group run <? previous_end) ||
         ((0 <? index) && (start_group run =? previous_end)) ||
         end_past (start_group run) (group_count run) groups
      then Err InvalidValue else
      validate_runs (index + 1) (start_group run + group_count run) groups rest
  end.

Definition validate_have (value : Have) : result unit Error :=
  let? _ := object_validate (have_object value) in
  if payload_past_limit frame_type.HAVE (have_payload_len value) then Err TooLarge else
  validate_runs 0 0 (div_ceil (object_length (have_object value)) GROUP_BYTES) (runs value).

Definition encode_have (value : Have) : M (list Z) Error unit :=
  lift (validate_have value) ;!
  put_map 3 ;!
  put_uint 0 ;! encode_object (have_object value) ;!
  put_uint 1 ;! put_uint (map_sequence value) ;!
  put_uint 2 ;! put_array (zlen (runs value)) ;!
  put_each (fun run => put_array 2 ;! put_uint (start_group run) ;! put_uint (group_count run)) (runs value).

Definition read_have_run : FR HaveRun :=
  let! n := get_array 2 in
  if negb (n =? 2) then fail Malformed else
  let! start_group := get_uint in
  let! group_count := get_uint in
  ret (mkHaveRun start_group group_count).

Definition read_have : FR Have :=
  get_map 3 ;!
  get_key 0 ;! let! object := decode_object in
  get_key 1 ;! let! map_sequence := get_uint in
  get_key 2 ;! let! count := get_array_len MAX_HAVE_RUNS in
  let! runs := read_each (Z.to_nat count) read_have_run in
  get_finish ;!
  let value := mkHave object map_sequence runs in
  lift (validate_have value) ;! ret value.

Definition decode_have (input : list Z) : result Have Error := fst (read_have (reader_new input)).

(** ** Capacity and assurance *)

Record Capacity := mkCapacity {
  capacity_epoch : Z; available_bytes : Z; bdp_target_bytes : Z; max_inflight_bytes : Z }.

Definition encode_capacity (value : Capacity) : M (list Z) Error unit :=
  put_map 4 ;!
  put_uint 0 ;! put_uint (capacity_epoch value) ;!
  put_uint 1 ;! put_uint (available_bytes value) ;!
  put_uint 2 ;! put_uint (bdp_target_bytes value) ;!
  put_uint 3 ;! put_uint (max_inflight_bytes value).

Definition read_capacity : FR Capacity :=
  get_map 4 ;!
  get_key 0 ;! let! epoch := get_uint in
  get_key 1 ;! let! available_bytes := get_uint in
  get_key 2 ;! let! bdp_target_bytes := get_uint in
  get_key 3 ;! let! max_inflight_bytes := get_uint in
  get_finish ;!
  lift (Ok (mkCapacity epoch available_bytes bdp_target_bytes max_inflight_bytes)).

Definition decode_capacity (input : list Z) : result Capacity Error := fst (read_capacity (reader_new input)).

Record AssuranceFrame := mkAssuranceFrame {
  assured_object : ObjectId; sequence : Z; unit_start : Z; unit_count : Z }.

Definition validate_assurance (value : AssuranceFrame) : result unit Error :=
  let? _ := object_validate (assured_object value) in
  if (sequence value =? 0) || (unit_count value =? 0) ||
     end_past (unit_start value) (unit_count value) (div_ceil (object_length (assured_object value)) GROUP_BYTES)
  then Err InvalidValue else Ok tt.

Definition encode_assurance (value : AssuranceFrame) : M (list Z) Error unit :=
  lift (validate_assurance value) ;!
  put_map 4 ;!
  put_uint 0 ;! encode_object (assured_object value) ;!
  put_uint 1 ;! put_uint (sequence value) ;!
  put_uint 2 ;! put_uint (unit_start value) ;!
  put_uint 3 ;! put_uint (unit_count value).

Definition read_assurance : FR AssuranceFrame :=
  get_map 4 ;!
  get_key 0 ;! let! object := decode_object in
  get_key 1 ;! let! sequence := get_uint in
  get_key 2 ;! let! unit_start := get_uint in
  get_key 3 ;! let! unit_count := get_uint in
  get_finish ;!
  let value := mkAssuranceFrame object sequence unit_start unit_count in
  lift (validate_assurance value) ;! ret value.

Definition decode_assurance (input : list Z) : result AssuranceFrame Error := fst (read_assurance (reader_new input)).

(** ** Exactness *)

Definition is_package_descriptor (v : PackageDescriptor) : Prop :=
  is_object (package v) /\ is_id 16 (manifest_id v) /\ is_u64 (descriptor_pages v).

Definition is_manifest_request (v : ManifestRequest) : Prop :=
  is_id 16 (mr_request_id v) /\ is_id 16 (mr_manifest_id v) /\ is_u64 (first_page v) /\ is_u64 (mr_page_count v).

Definition is_range_request (v : RangeRequest) : Prop :=
  is_id 16 (rr_request_id v) /\ is_object (rr_object v) /\ is_u64 (rr_offset v) /\ is_u64 (rr_length v).

Definition is_proof_bundle (v : ProofBundle) : Prop :=
  is_id 16 (pb_request_id v) /\ is_id 16 (pb_bundle_id v) /\ is_object (pb_object v) /\
  is_u64 (requested_offset v) /\ is_u64 (requested_length v) /\ is_u64 (covered_offset v) /\
  is_u64 (covered_length v) /\ is_u64 (data_record_count v) /\ is_u64 (total_plaintext_length v) /\ byte_list (proof v).

Definition is_data_record (v : DataRecord) : Prop :=
  is_id 16 (bundle_id v) /\ is_u64 (record_index v) /\ is_u64 (plaintext_offset v) /\ is_u64 (plaintext_length v) /\
  is_u8 (compression v) /\ byte_list (encoded v).

Definition is_have_run (r : HaveRun) : Prop := is_u64 (start_group r) /\ is_u64 (group_count r).

Definition is_have (v : Have) : Prop :=
  is_object (have_object v) /\ is_u64 (map_sequence v) /\ Forall is_have_run (runs v).

Definition is_capacity (v : Capacity) : Prop :=
  is_u64 (capacity_epoch v) /\ is_u64 (available_bytes v) /\ is_u64 (bdp_target_bytes v) /\ is_u64 (max_inflight_bytes v).

Definition is_assurance (v : AssuranceFrame) : Prop :=
  is_object (assured_object v) /\ is_u64 (sequence v) /\ is_u64 (unit_start v) /\ is_u64 (unit_count v).

#[local] Arguments validate_proof_bundle_with_proof_len : simpl never.
#[local] Arguments validate_data_record_header : simpl never.
#[local] Arguments validate_have : simpl never.

Lemma capacity_exact : exact_frame encode_capacity decode_capacity is_capacity.
Proof.
  eapply exact_frame_plain; [|intros v; solve_emits]. eapply exact_iff.
  - unfold read_capacity. do 2 codec_skip. codec_field capacity_epoch. codec_skip. codec_field available_bytes.
    codec_skip. codec_field bdp_target_bytes. codec_skip. codec_field max_inflight_bytes. codec_end. all: codec_fields.
  - unfold is_capacity. codec_conditions (fun (v : Capacity) (_ : True) => I).
  - codec_bytes.
Qed.

Lemma assurance_bounds v : validate_assurance v = Ok tt -> object_validate (assured_object v) = Ok tt.
Proof. unfold validate_assurance. by destruct (object_validate _) as [[]|]. Qed.

Lemma assurance_exact : exact_frame encode_assurance decode_assurance is_assurance.
Proof.
  eapply exact_frame_of; [|intros v; solve_emits]. eapply exact_iff.
  - unfold read_assurance. do 2 codec_skip. codec_field assured_object. codec_skip. codec_field sequence.
    codec_skip. codec_field unit_start. codec_skip. codec_field unit_count. codec_end. all: codec_fields.
  - unfold is_assurance. codec_conditions assurance_bounds.
  - codec_bytes.
Qed.

Lemma manifest_request_exact : exact_frame encode_manifest_request decode_manifest_request is_manifest_request.
Proof.
  eapply exact_frame_of; [|intros v; solve_emits]. eapply exact_iff.
  - unfold read_manifest_request. do 2 codec_skip. codec_field mr_request_id. codec_skip. codec_field mr_manifest_id.
    codec_skip. codec_field first_page. codec_skip. codec_field mr_page_count. codec_end. all: codec_fields.
  - unfold is_manifest_request, is_id. codec_conditions (fun v (_ : validate_manifest_request v = Ok tt) => I).
  - codec_bytes.
Qed.

Lemma object_validate_dec o : Decision (object_validate o = Ok tt).
Proof. unfold object_validate. destruct (_ || _); [by right|by left]. Defined.

Lemma package_descriptor_exact :
  exact_frame encode_package_descriptor decode_package_descriptor is_package_descriptor.
Proof.
  eapply (exact_frame_gen _ write_package_descriptor _ _ _
    (fun v => object_validate (package v) = Ok tt /\ descriptor_pages v <> 0)); [|intros v; solve_emits| |].
  - eapply exact_iff.
    + unfold read_package_descriptor. do 2 codec_skip. codec_field package. codec_skip. codec_field manifest_id.
      codec_skip. codec_field descriptor_pages. codec_end.
      all: intros ? b ? ?; destruct b; codec_simpl; case_match; codec_simpl; done.
    + intros [p i n]. unfold is_package_descriptor, is_id. simpl. split; intros; codec_simpl;
        destruct (Z.eqb_spec n 0); done.
    + codec_bytes.
  - intros v. unfold encode_package_descriptor, bind, lift.
    destruct (object_validate (package v)) as [[]|]; [|naive_solver].
    destruct (Z.eqb_spec (descriptor_pages v) 0); naive_solver.
  - intros v. pose proof (object_validate_dec (package v)). apply _.
Qed.

Lemma range_request_bounds v : fst (encode_range_request v []) = Ok tt -> object_validate (rr_object v) = Ok tt.
Proof. unfold encode_range_request, bind, lift. by destruct (object_validate _) as [[]|]. Qed.

Lemma range_request_exact : exact_frame encode_range_request decode_range_request is_range_request.
Proof.
  eapply (exact_frame_gen _ write_range_request _ _ _ (fun v => fst (encode_range_request v []) = Ok tt));
    [|intros v; solve_emits| |].
  - eapply exact_iff.
    + unfold read_range_request. do 2 codec_skip. codec_field rr_request_id. codec_skip. codec_field rr_object.
      codec_skip. codec_field rr_offset. codec_skip. codec_field rr_length. codec_end. all: codec_fields.
    + unfold is_range_request, is_id. codec_conditions range_request_bounds.
    + codec_bytes.
  - intros v. split; [|done]. unfold encode_range_request, bind, lift.
    destruct (object_validate (rr_object v)) as [[]|]; [|done]. by destruct (_ || _).
  - intros v. destruct (fst (encode_range_request v [])) as [[]|]; [by left|by right].
Qed.

(** A chain of saturating additions is the sum, saturated once. *)
Lemma saturating_foldl l acc : 0 <= acc -> Forall (Z.le 0) l ->
  foldl saturating_add (Z.min acc u64_max) l = Z.min (acc + foldr Z.add 0 l) u64_max.
Proof.
  intros Ha Hl. revert acc Ha. induction Hl as [|x l Hx _ IH]; intros acc Ha; simpl; [f_equal; lia|].
  replace (saturating_add (Z.min acc u64_max) x) with (Z.min (acc + x) u64_max) by (unfold saturating_add; lia).
  rewrite IH by lia. f_equal. lia.
Qed.

Lemma saturating_sum_exact l : Forall (fun x => 0 <= x <= u64_max) l ->
  saturating_sum l = Z.min (foldr Z.add 0 l) u64_max.
Proof.
  destruct l as [|x l]; [done|]. intros [Hx Hl]%Forall_cons. simpl.
  rewrite <- saturating_foldl; [f_equal; lia|lia|]. apply (Forall_impl _ _ _ Hl). lia.
Qed.

Lemma cbor_head_len_bound v : 1 <= cbor_head_len v <= 9.
Proof. unfold cbor_head_len. zcases; lia. Qed.

Lemma cbor_byte_string_len_bound n : 0 <= n -> Z.min n u64_max <= cbor_byte_string_len n <= u64_max.
Proof. intros Hn. unfold cbor_byte_string_len, saturating_add. pose proof (cbor_head_len_bound n). mlia. Qed.

(** Bounds every length in the goal and in the hypotheses. *)
Ltac length_bounds :=
  repeat match goal with
  | |- context [cbor_head_len ?v] => lazymatch goal with H : 1 <= cbor_head_len v <= 9 |- _ => fail | _ => idtac end;
      pose proof (cbor_head_len_bound v)
  | _ : context [cbor_head_len ?v] |- _ => lazymatch goal with H : 1 <= cbor_head_len v <= 9 |- _ => fail | _ => idtac end;
      pose proof (cbor_head_len_bound v)
  end.

Lemma object_payload_len_bound o : 0 <= object_payload_len o <= u64_max.
Proof.
  unfold object_payload_len. rewrite saturating_sum_exact.
  - change (cbor_byte_string_len 32) with 34. cbn [foldr]. length_bounds. mlia.
  - change (cbor_byte_string_len 32) with 34. length_bounds. repeat constructor; mlia.
Qed.

Lemma payload_within frame_type limit length : registered_payload_limit frame_type = Some limit ->
  payload_past_limit frame_type length = false -> length <= limit.
Proof. unfold payload_past_limit. intros ->. zcases; [done|lia]. Qed.

Lemma proof_bundle_payload_len_ge v n : 0 <= n -> Z.min n u64_max <= proof_bundle_payload_len_with v n.
Proof.
  intros Hn. unfold proof_bundle_payload_len_with. pose proof (object_payload_len_bound (pb_object v)) as Ho.
  pose proof (cbor_byte_string_len_bound n Hn) as Hl.
  assert (cbor_byte_string_len 16 = 17) as E16 by reflexivity. rewrite E16, saturating_sum_exact.
  - cbn [foldr]. length_bounds. lia.
  - length_bounds. repeat constructor; mlia.
Qed.

Lemma proof_bundle_bounds v : validate_proof_bundle v = Ok tt ->
  object_validate (pb_object v) = Ok tt /\ zlen (proof v) <= MAX_PROOF_BYTES.
Proof.
  unfold validate_proof_bundle, validate_proof_bundle_with_proof_len.
  destruct (object_validate (pb_object v)) as [[]|]; [|done]. destruct (_ || _) eqn:Hc; [done|]. intros _. split; [done|].
  apply orb_false_iff in Hc as [_ Hp]. apply (payload_within _ HARD_MAX_FRAME_PAYLOAD) in Hp; [|reflexivity].
  pose proof (proof_bundle_payload_len_ge v (zlen (proof v)) (zlen_nonneg _)).
  unfold MAX_PROOF_BYTES, HARD_MAX_FRAME_PAYLOAD in *. mlia.
Qed.

(** Decoding validates before it copies the proof. *)
Lemma validate_before_copy a b c d e f g h i p :
  validate_proof_bundle_with_proof_len (mkProofBundle a b c d e f g h i []) (zlen p) =
  validate_proof_bundle (mkProofBundle a b c d e f g h i p).
Proof.
  unfold validate_proof_bundle, validate_proof_bundle_with_proof_len, proof_bundle_payload_len_with.
  cbn [pb_object requested_offset requested_length covered_offset covered_length data_record_count total_plaintext_length proof].
  reflexivity.
Qed.
#[local] Hint Rewrite validate_before_copy : codec.
#[local] Opaque validate_proof_bundle validate_proof_bundle_with_proof_len.

Lemma proof_bundle_exact : exact_frame encode_proof_bundle decode_proof_bundle is_proof_bundle.
Proof.
  eapply exact_frame_of; [|intros v; solve_emits]. eapply exact_iff.
  - unfold read_proof_bundle. do 2 codec_skip. codec_const ProofBundle 0. codec_skip. codec_field pb_request_id.
    codec_skip. codec_field pb_bundle_id. codec_skip. codec_field pb_object. codec_skip. codec_field requested_offset.
    codec_skip. codec_field requested_length. codec_skip. codec_field covered_offset. codec_skip. codec_field covered_length.
    codec_skip. codec_field data_record_count. codec_skip. codec_field total_plaintext_length. codec_skip. codec_field proof.
    codec_end.
    all: codec_fields.
  - unfold is_proof_bundle, is_id. codec_conditions proof_bundle_bounds.
  - codec_bytes.
Qed.

Lemma have_run_exact : exact_codec read_have_run
  (fun r => array [] 2 ++ uint [] (start_group r) ++ uint [] (group_count r)) is_have_run.
Proof.
  apply exact_codec_at. unfold read_have_run. eapply exact_iff.
  - codec_const HaveRun 2. codec_field start_group. codec_field group_count. codec_end. all: codec_fields.
  - unfold is_have_run. codec_conditions (fun (v : HaveRun) (_ : True) => I).
  - codec_bytes.
Qed.
#[export] Instance HaveRun_inhabited : Inhabited HaveRun := populate (mkHaveRun 0 0).
#[local] Hint Resolve have_run_exact : exact.

Lemma have_bounds v : validate_have v = Ok tt ->
  object_validate (have_object v) = Ok tt /\ zlen (runs v) <= MAX_HAVE_RUNS.
Proof.
  unfold validate_have. destruct (object_validate (have_object v)) as [[]|]; [|done].
  destruct (payload_past_limit _ _) eqn:Hp; [done|]. intros _. split; [done|].
  apply (payload_within _ (4 * 1024 * 1024)) in Hp; [|reflexivity]. unfold have_payload_len in Hp.
  assert (forall l acc, 0 <= acc -> Z.min (acc + 3 * zlen l) u64_max <=
    foldl (fun length run => saturating_add length (have_run_len run)) (Z.min acc u64_max) l) as Hfold.
  { induction l as [|r l IH]; intros acc Ha; simpl; [change (zlen []) with 0; f_equal; lia|]. rewrite zlen_cons.
    assert (3 <= have_run_len r <= 27).
    { unfold have_run_len. rewrite saturating_sum_exact; cbn [foldr]; length_bounds; [mlia|repeat constructor; mlia]. }
    replace (saturating_add (Z.min acc u64_max) (have_run_len r)) with (Z.min (acc + have_run_len r) u64_max)
      by (unfold saturating_add; lia).
    specialize (IH (acc + have_run_len r) ltac:(lia)). lia. }
  specialize (Hfold (runs v)). rewrite saturating_sum_exact in Hp.
  - specialize (Hfold (foldr Z.add 0 [cbor_head_len 3; cbor_head_len 0; object_payload_len (have_object v); cbor_head_len 1;
      cbor_head_len (map_sequence v); cbor_head_len 2; cbor_head_len (zlen (runs v))])).
    pose proof (object_payload_len_bound (have_object v)). cbn [foldr] in *. length_bounds. unfold MAX_HAVE_RUNS.
    specialize (Hfold ltac:(lia)). mlia.
  - pose proof (object_payload_len_bound (have_object v)). length_bounds. repeat constructor; mlia.
Qed.

Lemma have_exact : exact_frame encode_have decode_have is_have.
Proof.
  eapply exact_frame_of; [|intros v; solve_emits; eapply emits_each; intros x; solve_emits]. eapply exact_iff.
  - unfold read_have. do 2 codec_skip. codec_field have_object. codec_skip. codec_field map_sequence.
    codec_skip. codec_field (fun v => zlen (runs v)). codec_field runs. codec_end. all: codec_fields.
  - unfold is_have. codec_conditions have_bounds. unfold MAX_HAVE_RUNS, zlen in *. mlia.
  - codec_bytes.
Qed.

(** A data record's payload is its header and then its bytes. *)
Definition write_data_record (v : DataRecord) : M (list Z) Error unit :=
  encode_validated_data_record_header (header_of v) ;! extend (encoded v).

Lemma emits_head {E} major n : emits (E := E) (put (fun output => head output major n)) (head [] major n).
Proof. intros o. unfold put. by rewrite head_app. Qed.
#[local] Hint Resolve emits_head : emit.

Definition data_record_header_bytes (h : DataRecordHeader) : list Z :=
  map_head [] 8 ++ uint [] 0 ++ uint [] 0 ++ uint [] 1 ++ bytes [] (dh_bundle_id h) ++
  uint [] 2 ++ uint [] (dh_record_index h) ++ uint [] 3 ++ uint [] (dh_plaintext_offset h) ++
  uint [] 4 ++ uint [] (dh_plaintext_length h) ++ uint [] 5 ++ uint [] (dh_compression h) ++
  uint [] 6 ++ uint [] (encoded_length h) ++ uint [] 7 ++ head [] BYTES (encoded_length h).

Lemma emits_data_record_header h : emits (encode_validated_data_record_header h) (data_record_header_bytes h).
Proof. unfold encode_validated_data_record_header, data_record_header_bytes. solve_emits. Qed.

Definition data_record_bytes (v : DataRecord) : list Z := data_record_header_bytes (header_of v) ++ encoded v.

Lemma emits_data_record v : emits (write_data_record v) (data_record_bytes v).
Proof. apply emits_bind; [apply emits_data_record_header|apply emits_extend]. Qed.

Lemma cbor_byte_string_len_exact n : 0 <= n <= i64_max -> cbor_byte_string_len n = cbor_head_len n + n.
Proof. intros Hn. unfold cbor_byte_string_len, saturating_add. pose proof (cbor_head_len_bound n). mlia. Qed.

(** The announced payload length is the number of bytes written. *)
Lemma data_record_payload_len_exact v : zlen (bundle_id v) = 16 -> zlen (encoded v) <= MAX_DATA_BYTES ->
  data_record_payload_len (header_of v) = zlen (data_record_bytes v).
Proof.
  intros Hb He. pose proof (zlen_nonneg (encoded v)). unfold MAX_DATA_BYTES in He.
  unfold data_record_payload_len, header_of.
  cbn [dh_bundle_id dh_record_index dh_plaintext_offset dh_plaintext_length dh_compression encoded_length].
  assert (cbor_byte_string_len 16 = 17) as E16 by reflexivity.
  rewrite E16, (cbor_byte_string_len_exact (zlen (encoded v))) by mlia. rewrite saturating_sum_exact.
  - unfold data_record_bytes, data_record_header_bytes, header_of.
    cbn [dh_bundle_id dh_record_index dh_plaintext_offset dh_plaintext_length dh_compression encoded_length].
    rewrite !zlen_app. unfold bytes, uint, map_head. rewrite !zlen_app, !zlen_head, Hb.
    change head_len with cbor_head_len. change (cbor_head_len 16) with 1. cbn [foldr]. length_bounds.
    rewrite Z.min_l by mlia. lia.
  - length_bounds. repeat constructor; mlia.
Qed.

Lemma data_record_payload_len_ge h : 0 <= encoded_length h ->
  Z.min (encoded_length h) u64_max <= data_record_payload_len h.
Proof.
  intros Hn. unfold data_record_payload_len. pose proof (cbor_byte_string_len_bound _ Hn).
  assert (cbor_byte_string_len 16 = 17) as E16 by reflexivity. rewrite E16, saturating_sum_exact.
  - cbn [foldr]. length_bounds. lia.
  - length_bounds. repeat constructor; mlia.
Qed.

Lemma data_record_bounds v : validate_data_record v = Ok tt -> zlen (encoded v) <= MAX_DATA_BYTES.
Proof.
  unfold validate_data_record, validate_data_record_header. destruct (_ || _) eqn:Hc; [done|]. intros _.
  apply orb_false_iff in Hc as [Hc _]. apply orb_false_iff in Hc as [Hc _]. apply orb_false_iff in Hc as [_ Hc].
  apply Z.ltb_ge in Hc. pose proof (data_record_payload_len_ge (header_of v) (zlen_nonneg _)) as Hg.
  unfold MAX_DATA_BYTES in *. simpl in Hg. mlia.
Qed.

Lemma data_record_exact :
  exact_frame (fun v => lift (validate_data_record v) ;! write_data_record v) decode_data_record is_data_record.
Proof.
  eapply exact_frame_of; [|apply emits_data_record]. eapply exact_iff.
  - unfold read_data_record. do 2 codec_skip. codec_const DataRecord 0. codec_skip. codec_field bundle_id.
    codec_skip. codec_field record_index. codec_skip. codec_field plaintext_offset. codec_skip. codec_field plaintext_length.
    codec_skip. codec_field compression. codec_field compression. codec_skip. codec_field (fun v => zlen (encoded v)).
    codec_skip. codec_field encoded. apply exact_finished_then, exact_if. intros _. codec_end. all: codec_fields.
  - unfold is_data_record, is_id. codec_conditions data_record_bounds. unfold MAX_DATA_BYTES, zlen in *. mlia.
  - intros v _. unfold data_record_bytes, data_record_header_bytes, header_of.
    cbn [dh_bundle_id dh_record_index dh_plaintext_offset dh_plaintext_length dh_compression encoded_length].
    rewrite <- !app_assoc, ?app_nil_r. reflexivity.
Qed.
