(* ===== verification/FramesFec.v ===== *)
(** * Coding frames and symbol datagrams ([crates/vot-codec/src/frames/fec.rs])

    The credit a receiver grants, the epochs a sender opens and closes, the
    receiver's reports and outcomes, and the nine-byte header in front of every
    symbol. *)

From S2P Require Import Prelude Cbor Exact Codec Fec Registry FrameCbor.

Definition SYMBOL_HEADER_LEN : Z := 9.

Record CodingEpochOpen := mkCodingEpochOpen {
  co_epoch : Z; co_object : ObjectId; co_offset : Z; co_length : Z; co_geometry : Geometry }.

Record GenState := mkGenState {
  gs_epoch : Z; gs_generation : Z; gs_sequence : Z; gs_received : Z; gs_missing_sources : list Z }.

Inductive GenOutcome := Decoded | Abandoned | Refused.

Record GenDone := mkGenDone { gd_epoch : Z; gd_generation : Z; gd_outcome : GenOutcome }.

Record CodingEpochClose := mkCodingEpochClose { cc_epoch : Z }.

Record DatagramCredit := mkDatagramCredit {
  credit_epoch : Z; max_unretired_bytes : Z; max_active_generations : Z; max_decode_work : Z; max_open_epochs : Z }.

Record SymbolHeader := mkSymbolHeader { sh_epoch : Z; sh_generation : Z; esi : Z }.

(** ** Fields *)

Definition u32_field : FR Z := let! v := get_uint in lift (ok_or (try_from u32_max v) InvalidValue).
Definition u8_field : FR Z := let! v := get_uint in lift (ok_or (try_from u8_max v) InvalidValue).
(** [usize] holds any [u64]. *)
Definition small : FR Z := let! v := get_uint in lift (ok_or (try_from u64_max v) InvalidValue).

(** ** Epochs *)

Definition generation_count (value : CodingEpochOpen) : Z :=
  div_ceil (co_length value) (source_count (co_geometry value) * symbol_length (co_geometry value)).

Definition validate_epoch_open (value : CodingEpochOpen) : result unit Error :=
  let? _ := object_validate (co_object value) in
  if (co_length value =? 0) ||
     match checked_add (co_offset value) (co_length value) with
     | Some stop => object_length (co_object value) <? stop
     | None => true
     end ||
     (u32_max + 1 <? generation_count value)
  then Err InvalidValue else Ok tt.

Definition encode_coding_epoch_open (value : CodingEpochOpen) : M (list Z) Error unit :=
  lift (validate_epoch_open value) ;!
  put_map 7 ;!
  put_uint 0 ;! put_uint (co_epoch value) ;!
  put_uint 1 ;! encode_object (co_object value) ;!
  put_uint 2 ;! put_uint (co_offset value) ;!
  put_uint 3 ;! put_uint (co_length value) ;!
  put_uint 4 ;! put_uint (source_count (co_geometry value)) ;!
  put_uint 5 ;! put_uint (repair_count (co_geometry value)) ;!
  put_uint 6 ;! put_uint (symbol_length (co_geometry value)).

Definition read_coding_epoch_open : FR CodingEpochOpen :=
  get_map 7 ;!
  get_key 0 ;! let! epoch := u32_field in
  get_key 1 ;! let! object := decode_object in
  get_key 2 ;! let! offset := get_uint in
  get_key 3 ;! let! length := get_uint in
  get_key 4 ;! let! source_count := small in
  get_key 5 ;! let! repair_count := small in
  get_key 6 ;! let! symbol_length := small in
  get_finish ;!
  let! geometry := lift (map_err (fun _ => InvalidValue) (geometry_new source_count repair_count symbol_length)) in
  let value := mkCodingEpochOpen epoch object offset length geometry in
  lift (validate_epoch_open value) ;! ret value.

Definition decode_coding_epoch_open (input : list Z) : result CodingEpochOpen Error :=
  fst (read_coding_epoch_open (reader_new input)).

Definition encode_coding_epoch_close (value : CodingEpochClose) : M (list Z) Error unit :=
  put_map 1 ;! put_uint 0 ;! put_uint (cc_epoch value).

Definition read_coding_epoch_close : FR CodingEpochClose :=
  get_map 1 ;!
  get_key 0 ;! let! epoch := u32_field in
  get_finish ;!
  lift (Ok (mkCodingEpochClose epoch)).

Definition decode_coding_epoch_close (input : list Z) : result CodingEpochClose Error :=
  fst (read_coding_epoch_close (reader_new input)).

(** ** Generations *)

Definition validate_gen_state (value : GenState) : result unit Error :=
  if (MAX_SYMBOLS <? gs_received value) || (MAX_SOURCE_SYMBOLS <? zlen (gs_missing_sources value)) ||
     existsb (fun esi => MAX_SOURCE_SYMBOLS <=? esi) (gs_missing_sources value) ||
     negb (ascending (gs_missing_sources value))
  then Err InvalidValue else Ok tt.

Definition encode_gen_state (value : GenState) : M (list Z) Error unit :=
  lift (validate_gen_state value) ;!
  put_map 5 ;!
  put_uint 0 ;! put_uint (gs_epoch value) ;!
  put_uint 1 ;! put_uint (gs_generation value) ;!
  put_uint 2 ;! put_uint (gs_sequence value) ;!
  put_uint 3 ;! put_uint (gs_received value) ;!
  put_uint 4 ;! put_array (zlen (gs_missing_sources value)) ;! put_each put_uint (gs_missing_sources value).

Definition read_gen_state : FR GenState :=
  get_map 5 ;!
  get_key 0 ;! let! epoch := u32_field in
  get_key 1 ;! let! generation := u32_field in
  get_key 2 ;! let! sequence := get_uint in
  get_key 3 ;! let! received := u8_field in
  get_key 4 ;! let! count := get_array_len MAX_SOURCE_SYMBOLS in
  let! missing_sources := read_each (Z.to_nat count) u8_field in
  get_finish ;!
  let value := mkGenState epoch generation sequence received missing_sources in
  lift (fst (encode_gen_state value [])) ;! ret value.

Definition decode_gen_state (input : list Z) : result GenState Error := fst (read_gen_state (reader_new input)).

Definition outcome_value (o : GenOutcome) : Z := match o with Decoded => 0 | Abandoned => 1 | Refused => 2 end.

Definition outcome_of (value : Z) : option GenOutcome :=
  if value =? 0 then Some Decoded else if value =? 1 then Some Abandoned else if value =? 2 then Some Refused else None.

Definition encode_gen_done (value : GenDone) : M (list Z) Error unit :=
  put_map 3 ;!
  put_uint 0 ;! put_uint (gd_epoch value) ;!
  put_uint 1 ;! put_uint (gd_generation value) ;!
  put_uint 2 ;! put_uint (outcome_value (gd_outcome value)).

Definition read_gen_done : FR GenDone :=
  get_map 3 ;!
  get_key 0 ;! let! epoch := u32_field in
  get_key 1 ;! let! generation := u32_field in
  get_key 2 ;! let! value := get_uint in
  let! outcome := lift (ok_or (outcome_of value) InvalidValue) in
  get_finish ;!
  lift (Ok (mkGenDone epoch generation outcome)).

Definition decode_gen_done (input : list Z) : result GenDone Error := fst (read_gen_done (reader_new input)).

(** ** Credit *)

Definition encode_datagram_credit (value : DatagramCredit) : M (list Z) Error unit :=
  put_map 5 ;!
  put_uint 0 ;! put_uint (credit_epoch value) ;!
  put_uint 1 ;! put_uint (max_unretired_bytes value) ;!
  put_uint 2 ;! put_uint (max_active_generations value) ;!
  put_uint 3 ;! put_uint (max_decode_work value) ;!
  put_uint 4 ;! put_uint (max_open_epochs value).

Definition read_datagram_credit : FR DatagramCredit :=
  get_map 5 ;!
  get_key 0 ;! let! credit_epoch := get_uint in
  get_key 1 ;! let! max_unretired_bytes := get_uint in
  get_key 2 ;! let! max_active_generations := get_uint in
  get_key 3 ;! let! max_decode_work := get_uint in
  get_key 4 ;! let! max_open_epochs := get_uint in
  get_finish ;!
  lift (Ok (mkDatagramCredit credit_epoch max_unretired_bytes max_active_generations max_decode_work max_open_epochs)).

Definition decode_datagram_credit (input : list Z) : result DatagramCredit Error :=
  fst (read_datagram_credit (reader_new input)).

(** ** Symbol datagrams *)

Definition encode_symbol (header : SymbolHeader) (geometry : Geometry) (symbol : list Z) : M (list Z) Error unit :=
  if negb (zlen symbol =? symbol_length geometry) || (symbol_count geometry <=? esi header) then fail InvalidValue else
  extend (to_be_bytes 4 (sh_epoch header)) ;!
  extend (to_be_bytes 4 (sh_generation header)) ;!
  extend [esi header] ;!
  extend symbol.

(** [datagram[8]] is in range: the length check leaves at least nine bytes. *)
Definition decode_symbol (datagram : list Z) (geometry : Geometry) : result (SymbolHeader * list Z) Error :=
  if negb (zlen datagram =? SYMBOL_HEADER_LEN + symbol_length geometry) then Err Malformed else
  let epoch := from_be_bytes (slice datagram 0 4) in
  let generation := from_be_bytes (slice datagram 4 8) in
  match zget datagram 8 with
  | None => Err Malformed
  | Some e =>
      if symbol_count geometry <=? e then Err InvalidValue else
      Ok (mkSymbolHeader epoch generation e, zdrop SYMBOL_HEADER_LEN datagram)
  end.

(** ** Exactness *)

Lemma exact_narrow max : 0 <= max <= u64_max ->
  exact_codec (let! v := get_uint in lift (ok_or (try_from max v) InvalidValue)) (uint []) (fun v => 0 <= v <= max).
Proof.
  intros Hm. apply exact_codec_at. eapply exact_iff.
  - eapply (exact_bind _ _ _ (fun v : Z => v)); [solve [eauto with exact]|intros a Ha; apply exact_lift|].
    intros a b Ha Hb. cbn beta in *. apply try_from_ok in Hb. by destruct Hb.
  - intros v. cbn beta. rewrite try_from_ok. split; [intros; split; mlia|intros; destruct_and?; mlia].
  - intros v _. cbn beta. by rewrite app_nil_r.
Qed.

Lemma exact_u32_field : exact_codec u32_field (uint []) is_u32.
Proof. apply exact_narrow. mlia. Qed.
Lemma exact_u8_field : exact_codec u8_field (uint []) is_u8.
Proof. apply exact_narrow. mlia. Qed.
Lemma exact_small : exact_codec small (uint []) is_u64.
Proof. apply exact_narrow. mlia. Qed.
#[local] Hint Resolve exact_u32_field exact_u8_field exact_small : exact.

Lemma outcome_of_ok {E} value o (e : E) : ok_or (outcome_of value) e = Ok o <-> value = outcome_value o.
Proof.
  unfold outcome_of. destruct (Z.eqb_spec value 0), (Z.eqb_spec value 1), (Z.eqb_spec value 2); destruct o; simpl;
    split; intros; simplify_eq/=; congruence || lia.
Qed.
#[local] Hint Rewrite @outcome_of_ok : codec.

(** The values of Rust's types.  A [Geometry] can only come from [Geometry::new]. *)
Definition is_coding_epoch_open (v : CodingEpochOpen) : Prop :=
  is_u32 (co_epoch v) /\ is_object (co_object v) /\ is_u64 (co_offset v) /\ is_u64 (co_length v) /\
  geometry_valid (co_geometry v).
Definition is_gen_state (v : GenState) : Prop :=
  is_u32 (gs_epoch v) /\ is_u32 (gs_generation v) /\ is_u64 (gs_sequence v) /\ is_u8 (gs_received v) /\
  byte_list (gs_missing_sources v).
Definition is_gen_done (v : GenDone) : Prop := is_u32 (gd_epoch v) /\ is_u32 (gd_generation v).
Definition is_coding_epoch_close (v : CodingEpochClose) : Prop := is_u32 (cc_epoch v).
Definition is_datagram_credit (v : DatagramCredit) : Prop :=
  is_u64 (credit_epoch v) /\ is_u64 (max_unretired_bytes v) /\ is_u64 (max_active_generations v) /\
  is_u64 (max_decode_work v) /\ is_u64 (max_open_epochs v).

Lemma datagram_credit_exact : exact_frame encode_datagram_credit decode_datagram_credit is_datagram_credit.
Proof.
  eapply exact_frame_plain; [|intros v; solve_emits]. eapply exact_iff.
  - unfold read_datagram_credit. do 2 codec_skip. codec_field credit_epoch. codec_skip. codec_field max_unretired_bytes.
    codec_skip. codec_field max_active_generations. codec_skip. codec_field max_decode_work. codec_skip.
    codec_field max_open_epochs. codec_end. all: codec_fields.
  - unfold is_datagram_credit. codec_conditions (fun (v : DatagramCredit) (_ : True) => I).
  - codec_bytes.
Qed.

Lemma coding_epoch_close_exact :
  exact_frame encode_coding_epoch_close decode_coding_epoch_close is_coding_epoch_close.
Proof.
  eapply exact_frame_plain; [|intros v; solve_emits]. eapply exact_iff.
  - unfold read_coding_epoch_close. do 2 codec_skip. codec_field cc_epoch. codec_end. all: codec_fields.
  - unfold is_coding_epoch_close. codec_conditions (fun (v : CodingEpochClose) (_ : True) => I).
  - codec_bytes.
Qed.

Lemma gen_done_exact : exact_frame encode_gen_done decode_gen_done is_gen_done.
Proof.
  eapply exact_frame_plain; [|intros v; solve_emits]. eapply exact_iff.
  - unfold read_gen_done. do 2 codec_skip. codec_field gd_epoch. codec_skip. codec_field gd_generation.
    codec_skip. codec_field (fun v => outcome_value (gd_outcome v)). codec_field gd_outcome. codec_end. all: codec_fields.
  - unfold is_gen_done. codec_conditions (fun (v : GenDone) (_ : True) => I). by destruct gd_outcome0.
  - codec_bytes.
Qed.

Lemma gen_state_bounds v : validate_gen_state v = Ok tt -> zlen (gs_missing_sources v) <= MAX_SOURCE_SYMBOLS.
Proof. unfold validate_gen_state. zcases; rewrite ?orb_true_r; simpl; done || lia. Qed.

Lemma gen_state_checked v : fst (encode_gen_state v []) = validate_gen_state v.
Proof.
  unfold encode_gen_state, bind at 1, lift. destruct (validate_gen_state v) as [[]|]; [|done].
  eenough (emits _ _) as He; [by rewrite (He [])|solve_emits].
Qed.
#[local] Hint Rewrite gen_state_checked : codec.
#[local] Arguments encode_gen_state : simpl never.

Lemma gen_state_exact : exact_frame encode_gen_state decode_gen_state is_gen_state.
Proof.
  eapply exact_frame_of; [|intros v; solve_emits]. eapply exact_iff.
  - unfold read_gen_state. do 2 codec_skip. codec_field gs_epoch. codec_skip. codec_field gs_generation.
    codec_skip. codec_field gs_sequence. codec_skip. codec_field gs_received.
    codec_skip. codec_field (fun v => zlen (gs_missing_sources v)). codec_field gs_missing_sources. codec_end. all: codec_fields.
  - unfold is_gen_state. codec_conditions gen_state_bounds. unfold MAX_SOURCE_SYMBOLS, zlen in *. mlia.
  - codec_bytes.
Qed.

Lemma geometry_new_ok k r l g (e : Error) : 0 <= k -> 0 <= r -> 0 <= l ->
  map_err (fun _ => e) (geometry_new k r l) = Ok g <-> geometry_valid g /\ g = mkGeometry k r l.
Proof.
  intros Hk Hr Hl. split.
  - destruct (geometry_new k r l) as [g'|] eqn:Hg; [|done]. intros [= <-].
    destruct (geometry_new_valid _ _ _ _ Hk Hr Hl Hg) as [? ->]. done.
  - intros [Hv ->]. unfold geometry_valid, geometry_new in *. simpl in *. zcases; simpl; try lia; done.
Qed.

Lemma epoch_open_bounds v : validate_epoch_open v = Ok tt -> object_validate (co_object v) = Ok tt.
Proof. unfold validate_epoch_open. by destruct (object_validate _) as [[]|]. Qed.

#[local] Arguments validate_epoch_open : simpl never.
#[local] Arguments geometry_new : simpl never.

Ltac destruct_ex := repeat match goal with H : exists _, _ |- _ => destruct H end; destruct_and?.

Lemma coding_epoch_open_exact : exact_frame encode_coding_epoch_open decode_coding_epoch_open is_coding_epoch_open.
Proof.
  eapply exact_frame_of; [|intros v; solve_emits]. eapply exact_iff.
  - unfold read_coding_epoch_open. do 2 codec_skip. codec_field co_epoch. codec_skip. codec_field co_object.
    codec_skip. codec_field co_offset. codec_skip. codec_field co_length.
    codec_skip. codec_field (fun v => source_count (co_geometry v)).
    codec_skip. codec_field (fun v => repair_count (co_geometry v)).
    codec_skip. codec_field (fun v => symbol_length (co_geometry v)).
    apply exact_finished_then, exact_lift_bind. intros; codec_end.
    all: intros ? b ? ?; destruct b as [? ? ? ? []]; codec_simpl; destruct_ex; rewrite ?geometry_new_ok in * by mlia; codec_simpl; done.
  - intros [e o f l g]. unfold is_coding_epoch_open. simpl. split; intros; codec_simpl.
    + pose proof (epoch_open_bounds _ H1). unfold geometry_valid in *. destruct g as [k r L]. simpl in *.
      split_and!; try done; try (unfold MAX_SOURCE_SYMBOLS, MAX_REPAIR_SYMBOLS, MAX_SYMBOL_LENGTH in *; mlia).
      exists (mkGeometry k r L). rewrite geometry_new_ok by lia. done.
    + destruct_ex. rewrite ?geometry_new_ok in * by mlia. codec_simpl. done.
  - codec_bytes.
Qed.

(** A datagram is accepted exactly when it is the header and symbol this encoder
    would write for that geometry. *)
Lemma symbol_exact h g s d : geometry_valid g -> byte_list d ->
  decode_symbol d g = Ok (h, s) <->
  (is_u32 (sh_epoch h) /\ is_u32 (sh_generation h) /\ is_u8 (esi h) /\ byte_list s) /\
  encode_symbol h g s [] = (Ok tt, d).
Proof.
  intros Hg Hb. destruct Hg as (_ & _ & Hg). split.
  - unfold decode_symbol. destruct (Z.eqb_spec (zlen d) (SYMBOL_HEADER_LEN + symbol_length g)) as [Hl|]; [|done].
    unfold SYMBOL_HEADER_LEN in *. simpl negb.
    destruct d as [|e0 [|e1 [|e2 [|e3 [|g0 [|g1 [|g2 [|g3 [|x sym]]]]]]]]]; try (unfold zlen in Hl; simpl in Hl; lia).
    rewrite !zlen_cons in Hl. change (zget _ 8) with (Some x). cbv iota beta.
    destruct (Z.leb_spec (symbol_count g) x); [done|]. intros [= <- <-].
    change (zdrop 9 _) with sym. change (slice _ 0 4) with [e0; e1; e2; e3]. change (slice _ 4 8) with [g0; g1; g2; g3].
    assert (byte_list [e0; e1; e2; e3] /\ byte_list [g0; g1; g2; g3] /\ is_u8 x /\ byte_list sym) as (Q1 & Q2 & Hx & Hs).
    { do 9 (apply Forall_cons in Hb as [? Hb]). split_and!; try done; repeat (apply Forall_cons_2; [done|]); by apply Forall_nil_2. }
    pose proof (from_be_bytes_bound _ Q1) as B1. pose proof (from_be_bytes_bound _ Q2) as B2.
    change (256 ^ zlen _) with 4294967296 in B1, B2. split; [simpl; split_and!; mlia || done|].
    unfold encode_symbol. destruct (Z.eqb_spec (zlen sym) (symbol_length g)); [|lia]. cbn [esi].
    destruct (Z.leb_spec (symbol_count g) x); [lia|]. cbn [negb orb sh_epoch sh_generation].
    pose proof (to_from_be_bytes _ Q1) as T1. pose proof (to_from_be_bytes _ Q2) as T2. simpl length in T1, T2.
    rewrite T1, T2. reflexivity.
  - intros ((He & Hn & Hx & Hs) & Hc). unfold encode_symbol in Hc.
    destruct (Z.eqb_spec (zlen s) (symbol_length g)) as [Hl|]; [|done].
    destruct (Z.leb_spec (symbol_count g) (esi h)); [done|]. cbn [negb orb] in Hc. apply (f_equal snd) in Hc.
    change (((([] ++ to_be_bytes 4 (sh_epoch h)) ++ to_be_bytes 4 (sh_generation h)) ++ [esi h]) ++ s = d) in Hc.
    subst d.
    unfold decode_symbol, SYMBOL_HEADER_LEN.
    pose proof (zlen_to_be_bytes 4 (sh_epoch h)) as L1. pose proof (zlen_to_be_bytes 4 (sh_generation h)) as L2.
    pose proof (from_to_be_bytes 4 (sh_epoch h) ltac:(simpl; mlia)) as F1.
    pose proof (from_to_be_bytes 4 (sh_generation h) ltac:(simpl; mlia)) as F2.
    destruct (to_be_bytes 4 (sh_epoch h)) as [|e0 [|e1 [|e2 [|e3 [|]]]]]; try (unfold zlen in L1; simpl in L1; lia).
    destruct (to_be_bytes 4 (sh_generation h)) as [|g0 [|g1 [|g2 [|g3 [|]]]]]; try (unfold zlen in L2; simpl in L2; lia).
    simpl app. rewrite !zlen_cons, Hl. replace (_ =? _) with true by (symmetry; apply Z.eqb_eq; lia). simpl negb.
    change (zget _ 8) with (Some (esi h)). cbv iota beta. destruct (Z.leb_spec (symbol_count g) (esi h)); [lia|].
    change (zdrop 9 _) with s. change (slice _ 0 4) with [e0; e1; e2; e3]. change (slice _ 4 8) with [g0; g1; g2; g3].
    rewrite F1, F2. by destruct h.
Qed.
