(* ===== verification/Frames.v ===== *)
(** * Typed frames ([crates/vot-codec/src/frames/mod.rs])

    One value per application frame, its envelope, and the dispatch between the
    payload codecs of the frame families.  Manifest pages, seals and receipts
    travel as opaque bytes that their own crates validate; [PageFormats] is what
    the frame codec asks of them. *)

From S2P Require Import Prelude Cbor Exact Codec Fec Registry FrameCbor FramesSession FramesTransfer FramesFec.

(** [vot_manifest::decode_page(bytes).is_ok()] and the like. *)
Class PageFormats := mkPageFormats {
  page_decodes : list Z -> bool; seal_decodes : list Z -> bool; receipt_decodes : list Z -> bool }.

Inductive TypedFrame :=
| TAuthContext (v : AuthContext) | TSessionOpen (v : SessionOpen) | TSessionAccept (v : SessionAccept)
| TSessionReject (v : SessionReject) | TGoAway (v : GoAway) | TError (v : ErrorFrame)
| TPackageDescriptor (v : PackageDescriptor) | TManifestRequest (v : ManifestRequest) | TManifestPage (bytes : list Z)
| TSeal (bytes : list Z) | THave (v : Have) | TRangeRequest (v : RangeRequest) | TProofBundle (v : ProofBundle)
| TDataRecord (v : DataRecord) | TCapacity (v : Capacity) | TTransitVerified (v : AssuranceFrame)
| TChunkDurable (v : AssuranceFrame) | TChunkAtRestVerified (v : AssuranceFrame) | TPublishReceipt (bytes : list Z)
| TDatagramCredit (v : DatagramCredit) | TCodingEpochOpen (v : CodingEpochOpen) | TGenState (v : GenState)
| TGenDone (v : GenDone) | TCodingEpochClose (v : CodingEpochClose).

Definition typed_frame_type (f : TypedFrame) : Z :=
  match f with
  | TAuthContext _ => frame_type.AUTH_CONTEXT
  | TSessionOpen _ => frame_type.SESSION_OPEN
  | TSessionAccept _ => frame_type.SESSION_ACCEPT
  | TSessionReject _ => frame_type.SESSION_REJECT
  | TGoAway _ => frame_type.GOAWAY
  | TError _ => frame_type.ERROR
  | TPackageDescriptor _ => frame_type.PACKAGE_DESCRIPTOR
  | TManifestRequest _ => frame_type.MANIFEST_REQUEST
  | TManifestPage _ => frame_type.MANIFEST_PAGE
  | TSeal _ => frame_type.SEAL
  | THave _ => frame_type.HAVE
  | TRangeRequest _ => frame_type.RANGE_REQUEST
  | TProofBundle _ => frame_type.PROOF_BUNDLE
  | TDataRecord _ => frame_type.DATA_RECORD
  | TCapacity _ => frame_type.CAPACITY
  | TTransitVerified _ => frame_type.TRANSIT_VERIFIED
  | TChunkDurable _ => frame_type.CHUNK_DURABLE
  | TChunkAtRestVerified _ => frame_type.CHUNK_AT_REST_VERIFIED
  | TPublishReceipt _ => frame_type.PUBLISH_RECEIPT
  | TDatagramCredit _ => frame_type.DATAGRAM_CREDIT
  | TCodingEpochOpen _ => frame_type.CODING_EPOCH_OPEN
  | TGenState _ => frame_type.GEN_STATE
  | TGenDone _ => frame_type.GEN_DONE
  | TCodingEpochClose _ => frame_type.CODING_EPOCH_CLOSE
  end.

Section frames.
Context `{F : PageFormats}.

Definition validate_manifest_page (bytes : list Z) : result unit Error :=
  if page_decodes bytes then Ok tt else Err Manifest.

Definition validate_seal (bytes : list Z) : result unit Error :=
  if payload_past_limit frame_type.SEAL (zlen bytes) then Err TooLarge else
  if seal_decodes bytes then Ok tt else Err Seal.

Definition validate_receipt (bytes : list Z) : result unit Error :=
  if receipt_decodes bytes then Ok tt else Err Receipt.

(** [begin_data_record]: the range of the encoded-byte field, and the vector up
    to it. *)
Definition begin_data_record (value : DataRecordHeader) : M (list Z) Error (Z * Z) :=
  lift (validate_data_record_header value) ;!
  mmap_err Envelope (encode_varint frame_type.DATA_RECORD) ;!
  mmap_err Envelope (encode_varint (data_record_payload_len value)) ;!
  encode_validated_data_record_header value ;!
  fun output => let start := zlen output in (Ok (start, saturating_add start (encoded_length value)), output).

Definition encode_data_record (value : DataRecord) : M (list Z) Error unit :=
  let! _ := begin_data_record (header_of value) in
  extend (encoded value).

(** [output.resize(range.end, 0)]. *)
Definition resize (output : list Z) (n : Z) : list Z :=
  if n <=? zlen output then ztake n output else output ++ repeat 0 (Z.to_nat (n - zlen output)).

Definition reserve_data_record (value : DataRecordHeader) : M (list Z) Error (Z * Z) :=
  let! range := begin_data_record value in
  fun output => (Ok range, resize output (snd range)).

(** The payload [encode] builds before the envelope.  Its data-record arm is
    unreachable there: [encode] returns early and writes these bytes in place
    ([encode_data_record_ok]). *)
Definition encode_payload (f : TypedFrame) : M (list Z) Error unit :=
  match f with
  | TAuthContext v => encode_auth_context v
  | TSessionOpen v => encode_session_open v
  | TSessionAccept v => encode_session_accept v
  | TSessionReject v => encode_session_reject v
  | TGoAway v => encode_goaway v
  | TError v => encode_error v
  | TPackageDescriptor v => encode_package_descriptor v
  | TManifestRequest v => encode_manifest_request v
  | TManifestPage b => lift (validate_manifest_page b) ;! extend b
  | TSeal b => lift (validate_seal b) ;! extend b
  | THave v => encode_have v
  | TRangeRequest v => encode_range_request v
  | TProofBundle v => encode_proof_bundle v
  | TDataRecord v => lift (validate_data_record v) ;! write_data_record v
  | TCapacity v => encode_capacity v
  | TTransitVerified v | TChunkDurable v | TChunkAtRestVerified v => encode_assurance v
  | TPublishReceipt b => lift (validate_receipt b) ;! extend b
  | TDatagramCredit v => encode_datagram_credit v
  | TCodingEpochOpen v => encode_coding_epoch_open v
  | TGenState v => encode_gen_state v
  | TGenDone v => encode_gen_done v
  | TCodingEpochClose v => encode_coding_epoch_close v
  end.

(** Data records return early; every other frame builds its payload in a fresh
    vector and then appends the envelope. *)
Definition encode (f : TypedFrame) : M (list Z) Error unit :=
  match f with
  | TDataRecord v => encode_data_record v
  | _ => fun output =>
      match encode_payload f [] with
      | (Err e, _) => (Err e, output)
      | (Ok _, payload) => mmap_err Envelope (encode_frame (typed_frame_type f) payload) output
      end
  end.

(** The [match frame_kind] of [decode]. *)
Definition decode_payload (kind : Z) (payload : list Z) : result TypedFrame Error :=
  if kind =? frame_type.AUTH_CONTEXT then let? v := decode_auth_context payload in Ok (TAuthContext v) else
  if kind =? frame_type.SESSION_OPEN then let? v := decode_session_open payload in Ok (TSessionOpen v) else
  if kind =? frame_type.SESSION_ACCEPT then let? v := decode_session_accept payload in Ok (TSessionAccept v) else
  if kind =? frame_type.SESSION_REJECT then let? v := decode_session_reject payload in Ok (TSessionReject v) else
  if kind =? frame_type.GOAWAY then let? v := decode_goaway payload in Ok (TGoAway v) else
  if kind =? frame_type.ERROR then let? v := decode_error payload in Ok (TError v) else
  if kind =? frame_type.PACKAGE_DESCRIPTOR then let? v := decode_package_descriptor payload in Ok (TPackageDescriptor v) else
  if kind =? frame_type.MANIFEST_REQUEST then let? v := decode_manifest_request payload in Ok (TManifestRequest v) else
  if kind =? frame_type.MANIFEST_PAGE then let? _ := validate_manifest_page payload in Ok (TManifestPage payload) else
  if kind =? frame_type.SEAL then let? _ := validate_seal payload in Ok (TSeal payload) else
  if kind =? frame_type.HAVE then let? v := decode_have payload in Ok (THave v) else
  if kind =? frame_type.RANGE_REQUEST then let? v := decode_range_request payload in Ok (TRangeRequest v) else
  if kind =? frame_type.PROOF_BUNDLE then let? v := decode_proof_bundle payload in Ok (TProofBundle v) else
  if kind =? frame_type.DATA_RECORD then let? v := decode_data_record payload in Ok (TDataRecord v) else
  if kind =? frame_type.CAPACITY then let? v := decode_capacity payload in Ok (TCapacity v) else
  if kind =? frame_type.TRANSIT_VERIFIED then let? v := decode_assurance payload in Ok (TTransitVerified v) else
  if kind =? frame_type.CHUNK_DURABLE then let? v := decode_assurance payload in Ok (TChunkDurable v) else
  if kind =? frame_type.CHUNK_AT_REST_VERIFIED then let? v := decode_assurance payload in Ok (TChunkAtRestVerified v) else
  if kind =? frame_type.PUBLISH_RECEIPT then let? _ := validate_receipt payload in Ok (TPublishReceipt payload) else
  if kind =? frame_type.DATAGRAM_CREDIT then let? v := decode_datagram_credit payload in Ok (TDatagramCredit v) else
  if kind =? frame_type.CODING_EPOCH_OPEN then let? v := decode_coding_epoch_open payload in Ok (TCodingEpochOpen v) else
  if kind =? frame_type.GEN_STATE then let? v := decode_gen_state payload in Ok (TGenState v) else
  if kind =? frame_type.GEN_DONE then let? v := decode_gen_done payload in Ok (TGenDone v) else
  if kind =? frame_type.CODING_EPOCH_CLOSE then let? v := decode_coding_epoch_close payload in Ok (TCodingEpochClose v) else
  Err (WrongFrameType kind).

Definition decoded_type (d : DecodedFrame) : Z :=
  match d with Known frame_type _ => frame_type | SkippedOptional frame_type _ => frame_type end.

Definition decode (input : list Z) (limits : DecodeLimits) : result (TypedFrame * Z) Error :=
  let? (decoded, consumed) := map_err Envelope (decode_one input limits) in
  let kind := decoded_type decoded in
  let? payload := (match decoded with
    | Known _ payload => Ok payload
    | SkippedOptional _ _ => Err (WrongFrameType kind)
    end) in
  let? frame := decode_payload kind payload in
  Ok (frame, consumed).

Definition decode_data_record_ref (input : list Z) (limits : DecodeLimits) : result (DataRecord * Z) Error :=
  let? (decoded, consumed) := map_err Envelope (decode_one input limits) in
  let kind := decoded_type decoded in
  let? payload := (match decoded with
    | Known _ payload => Ok payload
    | SkippedOptional _ _ => Err (WrongFrameType kind)
    end) in
  if negb (kind =? frame_type.DATA_RECORD) then Err (WrongFrameType kind) else
  let? v := decode_data_record payload in
  Ok (v, consumed).

(** ** Payloads *)

Definition is_goaway (v : GoAway) : Prop := is_u64 (cursor v).
Definition is_error_frame (v : ErrorFrame) : Prop := 0 <= code v <= u16_max /\ byte_list (error_detail v).

(** The values of Rust's types. *)
Definition is_typed (f : TypedFrame) : Prop :=
  match f with
  | TAuthContext v => is_auth_context v
  | TSessionOpen v => is_session_open v
  | TSessionAccept v => is_session_accept v
  | TSessionReject v => is_session_reject v
  | TGoAway v => is_goaway v
  | TError v => is_error_frame v
  | TPackageDescriptor v => is_package_descriptor v
  | TManifestRequest v => is_manifest_request v
  | THave v => is_have v
  | TRangeRequest v => is_range_request v
  | TProofBundle v => is_proof_bundle v
  | TDataRecord v => is_data_record v
  | TCapacity v => is_capacity v
  | TTransitVerified v | TChunkDurable v | TChunkAtRestVerified v => is_assurance v
  | TManifestPage b | TSeal b | TPublishReceipt b => byte_list b
  | TDatagramCredit v => is_datagram_credit v
  | TCodingEpochOpen v => is_coding_epoch_open v
  | TGenState v => is_gen_state v
  | TGenDone v => is_gen_done v
  | TCodingEpochClose v => is_coding_epoch_close v
  end.

(** Finds the arm of [decode_payload] for a known kind. *)
Ltac find_arm :=
  unfold decode_payload; cbn [typed_frame_type];
  repeat first [rewrite Z.eqb_refl | match goal with |- context [if ?a =? ?b then _ else _] => change (a =? b) with false end].

Lemma goaway_roundtrip v p : is_goaway v -> encode_goaway v [] = (Ok tt, p) -> decode_goaway p = Ok v.
Proof.
  intros Hv He. unfold encode_goaway in He. apply bind_ok_inv in He as ([] & out & He & [= ->]).
  assert (is_varint (cursor v)) as Hi.
  { unfold mmap_err, encode_varint in He. destruct (Z.ltb_spec MAX_QUIC_VARINT (cursor v)); [done|].
    unfold is_goaway, is_varint in *. mlia. }
  unfold mmap_err in He. rewrite (writes_varint _ Hi) in He. injection He as <-.
  unfold decode_goaway. simpl. pose proof (decode_varint_bytes _ [] Hi) as Hd. rewrite app_nil_r in Hd. rewrite Hd.
  simpl. rewrite Z.eqb_refl. by destruct v.
Qed.

Lemma error_roundtrip v p : is_error_frame v -> encode_error v [] = (Ok tt, p) -> decode_error p = Ok v.
Proof.
  intros [Hc Hd] He. unfold encode_error in He. destruct (registered_error (code v)) eqn:Hr; [|done]. simpl in He.
  assert (is_varint (code v)) as Hi by (unfold is_varint, MAX_QUIC_VARINT; mlia).
  unfold bind, mmap_err in He. rewrite (writes_varint _ Hi) in He. simpl in He. injection He as <-.
  unfold decode_error. rewrite (decode_varint_bytes _ _ Hi). simpl. unfold try_from.
  destruct (Z.leb_spec (code v) u16_max); [|lia]. simpl. rewrite Hr. simpl. rewrite zdrop_app. by destruct v.
Qed.

Lemma opaque_payload (c : result unit Error) b p : (lift c ;! extend b) [] = (Ok tt, p) -> c = Ok tt /\ p = b.
Proof. unfold bind, lift, extend, put. destruct c as [[]|]; [|done]. by intros [= <-]. Qed.

Lemma payload_roundtrip f p : is_typed f -> encode_payload f [] = (Ok tt, p) -> zlen p <= i64_max ->
  decode_payload (typed_frame_type f) p = Ok f.
Proof using.
  intros Ht He Hl. destruct f; simpl in Ht, He; find_arm;
  first
  [ rewrite (proj2 auth_context_exact v p Hl Ht He) | rewrite (proj2 session_open_exact v p Hl Ht He)
  | rewrite (proj2 session_accept_exact v p Hl Ht He) | rewrite (proj2 session_reject_exact v p Hl Ht He)
  | rewrite (goaway_roundtrip v p Ht He) | rewrite (error_roundtrip v p Ht He)
  | rewrite (proj2 package_descriptor_exact v p Hl Ht He) | rewrite (proj2 manifest_request_exact v p Hl Ht He)
  | rewrite (proj2 have_exact v p Hl Ht He) | rewrite (proj2 range_request_exact v p Hl Ht He)
  | rewrite (proj2 proof_bundle_exact v p Hl Ht He) | rewrite (proj2 data_record_exact v p Hl Ht He)
  | rewrite (proj2 capacity_exact v p Hl Ht He) | rewrite (proj2 assurance_exact v p Hl Ht He)
  | rewrite (proj2 datagram_credit_exact v p Hl Ht He) | rewrite (proj2 coding_epoch_open_exact v p Hl Ht He)
  | rewrite (proj2 gen_state_exact v p Hl Ht He) | rewrite (proj2 gen_done_exact v p Hl Ht He)
  | rewrite (proj2 coding_epoch_close_exact v p Hl Ht He)
  | apply opaque_payload in He as [Hc ->]; rewrite Hc ]; reflexivity.
Qed.

(** ** Frames *)

Lemma typed_type_facts f : is_varint (typed_frame_type f) /\ is_known (typed_frame_type f) = true /\
  is_skipped (typed_frame_type f) = false /\
  forall u, payload_bound u (typed_frame_type f) = payload_bound DEFAULT_MAX_UNKNOWN_PAYLOAD (typed_frame_type f).
Proof. destruct f; (split; [by vm_compute|]); (split; [by vm_compute|]); (split; [by vm_compute|]); intros u; reflexivity. Qed.

Lemma encode_frame_ok ft p out : is_varint ft -> encode_frame ft p [] = (Ok tt, out) ->
  out = frame_bytes ft p /\ zlen p <= payload_bound DEFAULT_MAX_UNKNOWN_PAYLOAD ft.
Proof.
  intros Hft He. destruct (Z.leb_spec (zlen p) (payload_bound DEFAULT_MAX_UNKNOWN_PAYLOAD ft)) as [Hl|Hl].
  - rewrite (writes_frame ft p Hft Hl []) in He. by injection He as <-.
  - unfold encode_frame in He. fold (payload_bound DEFAULT_MAX_UNKNOWN_PAYLOAD ft) in He.
    destruct (Z.ltb_spec (payload_bound DEFAULT_MAX_UNKNOWN_PAYLOAD ft) (zlen p)); [done|lia].
Qed.

(** A data record is written straight into its envelope, with the same bytes. *)
Lemma encode_data_record_writes v : is_data_record v -> validate_data_record v = Ok tt ->
  encode_data_record v [] = (Ok tt, frame_bytes frame_type.DATA_RECORD (data_record_bytes v)) /\
  encode_payload (TDataRecord v) [] = (Ok tt, data_record_bytes v) /\ zlen (data_record_bytes v) <= MAX_DATA_BYTES.
Proof using.
  intros ((_ & Hid) & _) Hv. pose proof (data_record_bounds v Hv) as Hb.
  assert (data_record_payload_len (header_of v) <= MAX_DATA_BYTES) as Hl.
  { revert Hv. unfold validate_data_record, validate_data_record_header. destruct (_ || _) eqn:Hc; [done|]. intros _.
    apply orb_false_iff in Hc as [Hc _]. apply orb_false_iff in Hc as [Hc _]. apply orb_false_iff in Hc as [_ Hc].
    by apply Z.ltb_ge in Hc. }
  unfold encode_data_record, begin_data_record. fold (validate_data_record v). simpl encode_payload. unfold bind at 1 2, lift.
  unfold bind at 4, lift. rewrite Hv. rewrite data_record_payload_len_exact in Hl |- * by done. pose proof (zlen_nonneg (data_record_bytes v)).
  split_and!; [|apply (emits_data_record v)|done].
  unfold mmap_err, bind. rewrite (writes_varint frame_type.DATA_RECORD) by (by vm_compute).
  rewrite (writes_varint (zlen (data_record_bytes v)))
    by (unfold is_varint, MAX_QUIC_VARINT, MAX_DATA_BYTES in *; lia).
  rewrite (emits_data_record_header (header_of v)). simpl.
  unfold extend, put, frame_bytes. change (varint_bytes frame_type.DATA_RECORD) with [frame_type.DATA_RECORD]. simpl. f_equal. f_equal.
  unfold data_record_bytes at 2. by rewrite <- app_assoc.
Qed.

Lemma encode_data_record_ok v out : is_data_record v -> encode_data_record v [] = (Ok tt, out) ->
  encode_payload (TDataRecord v) [] = (Ok tt, data_record_bytes v) /\
  out = frame_bytes frame_type.DATA_RECORD (data_record_bytes v) /\ zlen (data_record_bytes v) <= MAX_DATA_BYTES.
Proof using.
  intros Ht He. assert (validate_data_record v = Ok tt) as Hv.
  { revert He. unfold encode_data_record, begin_data_record. fold (validate_data_record v). unfold bind, lift.
    by destruct (validate_data_record v) as [[]|]. }
  destruct (encode_data_record_writes v Ht Hv) as (Hw & Hp & Hl). rewrite Hw in He. by injection He as <-.
Qed.

(** A payload that fits its envelope is framed. *)
Lemma encode_fits f p : is_typed f -> encode_payload f [] = (Ok tt, p) ->
  zlen p <= payload_bound DEFAULT_MAX_UNKNOWN_PAYLOAD (typed_frame_type f) ->
  encode f [] = (Ok tt, frame_bytes (typed_frame_type f) p).
Proof using.
  intros Ht Hp Hl. assert ((exists v, f = TDataRecord v) \/ forall v, f <> TDataRecord v) as [(v & ->)|Hn]
    by (destruct f; first [by right | left; by eexists]).
  - assert (validate_data_record v = Ok tt) as Hv by (revert Hp; simpl; unfold bind, lift; by destruct (validate_data_record v) as [[]|]).
    destruct (encode_data_record_writes v Ht Hv) as (Hw & Hp' & _). rewrite Hp in Hp'. injection Hp' as ->. exact Hw.
  - assert (encode f [] = mmap_err Envelope (encode_frame (typed_frame_type f) p) []) as ->
      by (destruct f; first [unfold encode; by rewrite Hp | by destruct (Hn v)]).
    unfold mmap_err. destruct (typed_type_facts f) as (Hv & _). by rewrite (writes_frame _ p Hv Hl []).
Qed.

Lemma encode_ok f bytes : is_typed f -> encode f [] = (Ok tt, bytes) ->
  exists p, encode_payload f [] = (Ok tt, p) /\ bytes = frame_bytes (typed_frame_type f) p /\
    zlen p <= payload_bound DEFAULT_MAX_UNKNOWN_PAYLOAD (typed_frame_type f).
Proof using.
  intros Ht He. assert ((exists v, f = TDataRecord v) \/ forall v, f <> TDataRecord v) as [(v & ->)|Hn]
    by (destruct f; first [by right | left; by eexists]); cycle 1.
  - assert ((let '(r, p) := encode_payload f [] in match r with
      | Err e => (Err e, [])
      | Ok _ => mmap_err Envelope (encode_frame (typed_frame_type f) p) []
      end) = (Ok tt, bytes)) as He'.
    { rewrite <- He. unfold encode. destruct f; first [by destruct (encode_payload _ []) as [[]] | by destruct (Hn v)]. }
    destruct (encode_payload f []) as [[[]|] p]; [|done]. exists p. split; [done|].
    unfold mmap_err in He'. destruct (encode_frame _ p []) as [[[]|] out] eqn:Hf; [|done]. injection He' as <-.
    by apply encode_frame_ok in Hf; [|apply typed_type_facts].
  - apply encode_data_record_ok in He as (H1 & H2 & H3); [|done]. exists (data_record_bytes v). split_and!; done.
Qed.

(** C30: Typed frames round-trip.  Whatever frame of any of the twenty-four kinds the encoder accepts,
    the decoder reads back from the bytes written, whatever follows them and under any valid limits: the
    same value, and the number of bytes the encoder wrote. *)
Theorem typed_roundtrip f bytes limits rest :
  is_typed f -> encode f [] = (Ok tt, bytes) -> validate_limits limits = Ok tt ->
  decode (bytes ++ rest) limits = Ok (f, zlen bytes).
Proof using.
  intros Ht He Hl. destruct (encode_ok f bytes Ht He) as (p & Hp & -> & Hlen).
  destruct (typed_type_facts f) as (Hv & Hk & Hs & Hb). unfold decode.
  pose proof (decode_one_written limits (typed_frame_type f, p) rest Hl) as Hd. unfold decoded_as in Hd. simpl in Hd.
  rewrite Hs in Hd. rewrite Hd by (split_and!; simpl; [done|by rewrite Hb|by left]). simpl. rewrite (payload_roundtrip f p Ht Hp); [done|].
  pose proof (payload_bound_le DEFAULT_MAX_UNKNOWN_PAYLOAD (typed_frame_type f)). unfold HARD_MAX_FRAME_PAYLOAD in *. mlia.
Qed.

(** Frames whose payload is CBOR or opaque, as opposed to a varint, which has
    longer forms that also decode. *)
Definition canonical_kind (f : TypedFrame) : bool := match f with TGoAway _ | TError _ => false | _ => true end.

(** The payloads that stand for [f]: what the encoder writes, or for the two
    kinds that open with a bare varint any spelling of it. *)
Definition payload_of (f : TypedFrame) (p : list Z) : Prop :=
  match f with
  | TGoAway v => spells (cursor v) p
  | TError v => registered_error (code v) = true /\ exists c, p = c ++ error_detail v /\ spells (code v) c
  | _ => encode_payload f [] = (Ok tt, p)
  end.

Lemma decode_payload_kind kind p f : decode_payload kind p = Ok f -> kind = typed_frame_type f.
Proof using.
  unfold decode_payload.
  repeat (match goal with |- context [if ?a =? ?b then _ else _] => destruct (Z.eqb_spec a b) as [->|_] end;
    [match goal with |- context [match ?r with Ok _ => _ | Err _ => _ end] => destruct r end; [by intros [= <-]|done]|]).
  done.
Qed.

Lemma goaway_spelled p v : byte_list p -> decode_goaway p = Ok v <-> is_goaway v /\ spells (cursor v) p.
Proof.
  intros Hb. unfold decode_goaway, spells. split.
  - destruct (decode_varint p) as [[c n]|] eqn:Hd; [simpl|done]. apply decode_varint_inv in Hd as (Hv & _); [|done].
    destruct (Z.eqb_spec n (zlen p)) as [->|]; [|done]. intros [= <-].
    unfold is_goaway, is_varint, MAX_QUIC_VARINT in *. simpl. split; [mlia|done].
  - intros [_ ->]. simpl. rewrite Z.eqb_refl. by destruct v.
Qed.

Lemma error_spelled p v : byte_list p -> decode_error p = Ok v <->
  is_error_frame v /\ registered_error (code v) = true /\ exists c, p = c ++ error_detail v /\ spells (code v) c.
Proof.
  intros Hb. unfold decode_error. split.
  - destruct (decode_varint p) as [[c n]|] eqn:Hd; [simpl|done].
    pose proof (decode_varint_inv _ _ _ Hb Hd) as (Hv & _). unfold try_from. destruct (Z.leb_spec c u16_max); [simpl|done].
    destruct (registered_error c) eqn:Hr; [|done]. intros [= <-]. simpl.
    destruct (decode_varint_spelled _ _ _ Hb Hd) as (b & rest & -> & -> & Hs). rewrite zdrop_app.
    apply Forall_app in Hb as [_ Hrest]. split; [split; [unfold is_varint in *; simpl; lia|done]|]. split; [done|]. by exists b.
  - intros ([Hc _] & Hr & c & -> & Hs). rewrite (spells_app _ _ _ Hb Hs). simpl. unfold try_from.
    destruct (Z.leb_spec (code v) u16_max); [|lia]. simpl. rewrite Hr. simpl. rewrite zdrop_app. by destruct v.
Qed.

Lemma decode_payload_canonical p f : byte_list p -> zlen p <= i64_max ->
  decode_payload (typed_frame_type f) p = Ok f ->
  is_typed f /\ payload_of f p.
Proof using.
  intros Hb Hl. destruct f; find_arm; simpl;
    match goal with |- context [match ?r with Ok _ => _ | Err _ => _ end] => destruct r as [x|] eqn:Hd end;
    try done; intros [= <-];
  first
  [ pose proof (proj1 auth_context_exact _ p Hb Hl Hd) | pose proof (proj1 session_open_exact _ p Hb Hl Hd)
  | pose proof (proj1 session_accept_exact _ p Hb Hl Hd) | pose proof (proj1 session_reject_exact _ p Hb Hl Hd)
  | pose proof (proj1 package_descriptor_exact _ p Hb Hl Hd) | pose proof (proj1 manifest_request_exact _ p Hb Hl Hd)
  | pose proof (proj1 have_exact _ p Hb Hl Hd) | pose proof (proj1 range_request_exact _ p Hb Hl Hd)
  | pose proof (proj1 proof_bundle_exact _ p Hb Hl Hd) | pose proof (proj1 data_record_exact _ p Hb Hl Hd)
  | pose proof (proj1 capacity_exact _ p Hb Hl Hd) | pose proof (proj1 assurance_exact _ p Hb Hl Hd)
  | pose proof (proj1 datagram_credit_exact _ p Hb Hl Hd) | pose proof (proj1 coding_epoch_open_exact _ p Hb Hl Hd)
  | pose proof (proj1 gen_state_exact _ p Hb Hl Hd) | pose proof (proj1 gen_done_exact _ p Hb Hl Hd)
  | pose proof (proj1 coding_epoch_close_exact _ p Hb Hl Hd)
  | by apply goaway_spelled | by apply error_spelled
  | split; [done|]; destruct x; unfold bind, lift; rewrite Hd; reflexivity ]; naive_solver.
Qed.

Lemma parse_envelope_shape input limits e : byte_list input -> parse_envelope_prefix input limits = Ok e ->
  0 <= header_length e <= total_length e.
Proof using.
  intros Hb. unfold parse_envelope_prefix, ok_or. destruct (validate_limits limits); [|done].
  destruct (decode_varint input) as [[ft tw]|] eqn:H1; [|done].
  destruct (decode_varint (zdrop tw input)) as [[len lw]|] eqn:H2; [|done].
  apply decode_varint_inv in H1 as (_ & ? & _); [|done].
  apply decode_varint_inv in H2 as (Hlen & ? & _); [|by apply Forall_drop]. unfold is_varint in Hlen.
  repeat case_match; try done.
  repeat match goal with H : checked_add _ _ = Some _ |- _ => apply checked_add_Some in H as [-> _] end.
  simplify_eq. intros [= <-]. simpl. lia.
Qed.

Lemma decode_one_known input limits ft p n : byte_list input -> decode_one input limits = Ok (Known ft p, n) ->
  exists h, 0 <= h <= n /\ n <= zlen input /\ p = slice input h n.
Proof using.
  intros Hb Hd. pose proof (decode_one_inv _ _ _ _ Hb Hd) as (Hn & _). revert Hd. unfold decode_one.
  destruct (parse_envelope_prefix input limits) as [e|] eqn:He; [|done]. destruct (zlen input <? _); [done|].
  destruct (skipped e); [done|]. intros [= _ <- <-]. exists (header_length e).
  apply parse_envelope_shape in He; [|done]. split_and!; try done; lia.
Qed.

(** The converse: any payload that stands for a frame decodes to it. *)
Lemma decode_payload_of f p : byte_list p -> zlen p <= i64_max -> is_typed f -> payload_of f p ->
  decode_payload (typed_frame_type f) p = Ok f.
Proof using.
  intros Hb Hl Ht Hp. destruct (canonical_kind f) eqn:Hk.
  - apply payload_roundtrip; [done| |done]. by destruct f.
  - destruct f; try done; simpl in Ht, Hp; find_arm; [rewrite (proj2 (goaway_spelled p v Hb))|rewrite (proj2 (error_spelled p v Hb))]; done.
Qed.

(** What the encoder writes for a frame is the shortest of its payloads. *)
Lemma encode_payload_least f p : byte_list p -> is_typed f -> payload_of f p ->
  exists q, encode_payload f [] = (Ok tt, q) /\ zlen q <= zlen p /\ (canonical_kind f = true -> q = p).
Proof using.
  intros Hb Ht Hp. destruct (canonical_kind f) eqn:Hk; [exists p; split_and!; [by destruct f|done|done]|].
  destruct f; try done; simpl in Ht, Hp |- *.
  - destruct (decode_varint_inv _ _ _ Hb Hp) as (Hv & _ & _ & Hz). exists (varint_bytes (cursor v)). split_and!; [|done|done].
    unfold encode_goaway, bind, mmap_err. by rewrite (writes_varint _ Hv).
  - destruct Hp as (Hr & c & -> & Hc). apply Forall_app in Hb as [Hbc _].
    destruct (decode_varint_inv _ _ _ Hbc Hc) as (Hv & _ & _ & Hz). exists (varint_bytes (code v) ++ error_detail v).
    split_and!; [|rewrite !zlen_app; lia|done]. unfold encode_error. rewrite Hr. simpl. unfold bind, mmap_err.
    by rewrite (writes_varint _ Hv).
Qed.

(** An envelope of a known type, read from any spelling of its two fields. *)
Lemma decode_one_spelled input limits ft p n : byte_list input ->
  decode_one input limits = Ok (Known ft p, n) <->
  validate_limits limits = Ok tt /\ is_skipped ft = false /\ zlen p <= payload_bound (max_unknown_payload limits) ft /\
  exists ty len rest, input = ty ++ len ++ p ++ rest /\ n = zlen ty + zlen len + zlen p /\ spells ft ty /\ spells (zlen p) len.
Proof using.
  intros Hb. unfold decode_one, parse_envelope_prefix. split.
  - destruct (validate_limits limits) as [[]|]; [|done].
    destruct (decode_varint input) as [[ft' tw]|] eqn:H1; [|done].
    destruct (decode_varint_spelled _ _ _ Hb H1) as (ty & r1 & -> & -> & Hty). rewrite zdrop_app.
    apply Forall_app in Hb as [_ Hb1]. destruct (decode_varint r1) as [[l lw]|] eqn:H2; [|done].
    pose proof (decode_varint_inv _ _ _ Hb1 H2) as (Hl & _). unfold is_varint in Hl.
    destruct (decode_varint_spelled _ _ _ Hb1 H2) as (len & r2 & -> & -> & Hlen).
    cbv zeta. fold (payload_bound (max_unknown_payload limits) ft').
    destruct (Z.ltb_spec (payload_bound (max_unknown_payload limits) ft') l) as [|Hle]; [done|].
    destruct (negb (is_known ft') && is_critical ft'); [done|]. unfold ok_or.
    destruct (checked_add (zlen ty) (zlen len)) as [h|] eqn:Hh; [|done]. apply checked_add_Some in Hh as [-> _].
    destruct (checked_add (zlen ty + zlen len) l) as [t|] eqn:Htot; [|done]. apply checked_add_Some in Htot as [-> _]. simpl.
    rewrite !zlen_app. fold (is_skipped ft').
    destruct (Z.ltb_spec (zlen ty + (zlen len + zlen r2)) (zlen ty + zlen len + l)) as [|Hfit]; [done|].
    destruct (is_skipped ft') eqn:Hs; [done|]. intros [= -> <- <-].
    assert (slice (ty ++ len ++ r2) (zlen ty + zlen len) (zlen ty + zlen len + l) = ztake l r2) as ->.
    { unfold slice. rewrite app_assoc, <- zlen_app, zdrop_app. f_equal. lia. }
    assert (zlen (ztake l r2) = l) as -> by (apply zlen_ztake; lia). split_and!; try done.
    exists ty, len, (zdrop l r2). split_and!; try done. unfold ztake, zdrop. by rewrite take_drop.
  - intros (Hv & Hs & Hle & ty & len & rest & -> & -> & Hty & Hlen). rewrite Hv, (spells_app _ _ _ Hb Hty), zdrop_app.
    apply Forall_app in Hb as [Hbt Hb1]. rewrite (spells_app _ _ _ Hb1 Hlen). apply Forall_app in Hb1 as [Hbl _].
    cbv zeta. fold (payload_bound (max_unknown_payload limits) ft).
    destruct (Z.ltb_spec (payload_bound (max_unknown_payload limits) ft) (zlen p)); [lia|].
    assert (is_known ft = true) as Hk by (unfold is_skipped in Hs; by destruct (is_known ft)). rewrite Hk. simpl.
    destruct (decode_varint_inv _ _ _ Hbt Hty) as (_ & ? & _), (decode_varint_inv _ _ _ Hbl Hlen) as (_ & ? & _).
    pose proof (payload_bound_le (max_unknown_payload limits) ft). unfold HARD_MAX_FRAME_PAYLOAD in *. pose proof (zlen_nonneg p).
    unfold ok_or. rewrite (proj2 (checked_add_Some (zlen ty) (zlen len) _)) by (split; [done|mlia]).
    rewrite (proj2 (checked_add_Some (zlen ty + zlen len) (zlen p) _)) by (split; [done|mlia]). simpl.
    rewrite !zlen_app. pose proof (zlen_nonneg rest).
    destruct (Z.ltb_spec (zlen ty + (zlen len + (zlen p + zlen rest))) (zlen ty + zlen len + zlen p)); [lia|].
    unfold is_skipped in Hs. rewrite Hk in Hs. simpl in Hs. rewrite Hs. do 3 f_equal.
    unfold slice. rewrite app_assoc, <- zlen_app, zdrop_app. replace (_ - _) with (zlen p) by (rewrite zlen_app; lia). apply ztake_app.
Qed.

(** [input] begins with a frame that stands for [f], [n] bytes long: its type, the
    length of its payload, and the payload. *)
Definition spelling (f : TypedFrame) (input : list Z) (n : Z) : Prop :=
  exists ty len payload rest, input = ty ++ len ++ payload ++ rest /\ n = zlen ty + zlen len + zlen payload /\
    spells (typed_frame_type f) ty /\ spells (zlen payload) len /\
    zlen payload <= payload_bound DEFAULT_MAX_UNKNOWN_PAYLOAD (typed_frame_type f) /\ payload_of f payload.

Lemma decode_parts input limits f n : decode input limits = Ok (f, n) <->
  exists p, decode_one input limits = Ok (Known (typed_frame_type f) p, n) /\ decode_payload (typed_frame_type f) p = Ok f.
Proof using.
  unfold decode. split.
  - destruct (decode_one input limits) as [[[ft p|ft l] m]|]; try done. simpl.
    destruct (decode_payload ft p) as [g|] eqn:Hp; [|done]. intros [= -> ->]. rewrite <- (decode_payload_kind _ _ _ Hp). by exists p.
  - intros (p & -> & Hp). simpl. by rewrite Hp.
Qed.

Lemma decode_spelling input limits f n : byte_list input -> zlen input <= i64_max ->
  decode input limits = Ok (f, n) <-> validate_limits limits = Ok tt /\ is_typed f /\ spelling f input n.
Proof using.
  intros Hb Hl. destruct (typed_type_facts f) as (_ & _ & Hs & Hbound). rewrite decode_parts.
  assert (forall ty len p rest, input = ty ++ len ++ p ++ rest -> byte_list p /\ zlen p <= i64_max) as Hpart.
  { intros ty len p rest ->. rewrite !zlen_app in Hl. pose proof (zlen_nonneg ty). pose proof (zlen_nonneg len). pose proof (zlen_nonneg rest).
    unfold byte_list in Hb. rewrite !Forall_app in Hb. split; [apply Hb|lia]. }
  split.
  - intros (p & Hone & Hp). apply decode_one_spelled in Hone as (Hv & _ & Hle & ty & len & rest & Hi & -> & ? & ?); [|done].
    rewrite Hbound in Hle. destruct (Hpart _ _ _ _ Hi) as [Hbp Hlp].
    destruct (decode_payload_canonical p f Hbp Hlp Hp) as [Ht Hof]. split_and!; try done. by exists ty, len, p, rest.
  - intros (Hv & Ht & ty & len & p & rest & Hi & -> & Hty & Hlen & Hle & Hof). destruct (Hpart _ _ _ _ Hi) as [Hbp Hlp].
    exists p. split; [|by apply decode_payload_of]. apply decode_one_spelled; [done|]. rewrite Hbound. split_and!; try done. by exists ty, len, rest.
Qed.

(** Of all spellings the encoder writes a shortest one. *)
Lemma encode_least input f n : byte_list input -> is_typed f -> spelling f input n -> exists payload,
  encode f [] = (Ok tt, frame_bytes (typed_frame_type f) payload) /\
  zlen (frame_bytes (typed_frame_type f) payload) <= n <= zlen input /\
  (canonical_kind f = true -> exists header, ztake n input = header ++ payload).
Proof using.
  intros Hb Ht (ty & len & p & rest & -> & -> & Hty & Hlen & Hle & Hof). unfold byte_list in Hb. rewrite !Forall_app in Hb. destruct Hb as (Hbt & Hbl & Hbp & _).
  destruct (encode_payload_least f p Hbp Ht Hof) as (q & Hq & Hz & Hsame). exists q. split_and!; [apply encode_fits; [done|done|lia]| | |].
  - destruct (decode_varint_inv _ _ _ Hbt Hty) as (_ & _ & _ & ?), (decode_varint_inv _ _ _ Hbl Hlen) as (_ & _ & _ & ?).
    pose proof (varint_bytes_mono (zlen q) (zlen p) Hz). unfold frame_bytes. rewrite !zlen_app. lia.
  - rewrite !zlen_app. pose proof (zlen_nonneg rest). lia.
  - intros Hk. rewrite (Hsame Hk). exists (ty ++ len). rewrite <- !zlen_app, !app_assoc. apply ztake_app.
Qed.

(** C31: the decoder accepts exactly the spellings of the encoder's frames.  Bytes decode to a frame, under some
    limits, exactly when the limits are valid, the frame holds only values of its Rust types, and the bytes
    begin with its type, its payload's length and its payload, the two fields each spelled as a varint and
    the payload within its type's bound.  The payload is byte for byte the one the encoder writes, save that
    a GOAWAY's cursor and an ERROR's code are varints too and may be spelled in more bytes.  Every frame the
    decoder accepts, the encoder accepts, and writes it in no more bytes: its two fields in fewest bytes and,
    but for those two kinds, the same payload. *)
Theorem typed_canonical input limits f n : byte_list input -> zlen input <= i64_max ->
  (decode input limits = Ok (f, n) <-> validate_limits limits = Ok tt /\ is_typed f /\ spelling f input n) /\
  (decode input limits = Ok (f, n) -> exists payload,
     encode f [] = (Ok tt, frame_bytes (typed_frame_type f) payload) /\
     zlen (frame_bytes (typed_frame_type f) payload) <= n <= zlen input /\
     (canonical_kind f = true -> exists header, ztake n input = header ++ payload)).
Proof using.
  intros Hb Hl. split; [by apply decode_spelling|]. rewrite decode_spelling by done. intros (_ & Ht & Hs). by eapply encode_least.
Qed.
End frames.

Definition any_pages : PageFormats := mkPageFormats (fun _ => true) (fun _ => true) (fun _ => true).
Definition demo_object : ObjectId := mkObjectId 1 (repeat 5 32) 200000.
Definition demo_frame : TypedFrame := THave (mkHave demo_object 7 [mkHaveRun 0 1; mkHaveRun 2 2]).
Definition demo_bytes : list Z := Eval vm_compute in snd (encode (F := any_pages) demo_frame []).

Lemma demo_frame_typed : is_typed demo_frame.
Proof.
  assert (byte_list (repeat 5 32)) by (by apply (bool_decide_unpack (Forall is_u8 _))).
  split_and!; [|by vm_compute|repeat constructor; by vm_compute]. unfold is_object. simpl. split_and!; done || by vm_compute.
Qed.

Lemma typed_roundtrip_witness : decode (F := any_pages) (demo_bytes ++ [1; 2]) default_limits = Ok (demo_frame, zlen demo_bytes).
Proof.
  apply (typed_roundtrip (F := any_pages) demo_frame demo_bytes default_limits [1; 2]);
    [exact demo_frame_typed|vm_compute; reflexivity|vm_compute; reflexivity].
Defined.

(** The same frame, its type spelled in two bytes and its length in four. *)
Definition demo_long_bytes : list Z := Eval vm_compute in
  match snd (encode_payload (F := any_pages) demo_frame []) with p => [0x40; frame_type.HAVE] ++ [0x80; 0; 0; zlen p] ++ p end.

Lemma typed_canonical_witness : is_typed demo_frame /\ spelling (F := any_pages) demo_frame (demo_long_bytes ++ [1; 2]) (zlen demo_long_bytes) /\
  exists payload, encode (F := any_pages) demo_frame [] = (Ok tt, frame_bytes (typed_frame_type demo_frame) payload) /\
    zlen (frame_bytes (typed_frame_type demo_frame) payload) <= zlen demo_long_bytes.
Proof.
  destruct (typed_canonical (F := any_pages) (demo_long_bytes ++ [1; 2]) default_limits demo_frame (zlen demo_long_bytes)) as [[H _] H2];
    [by apply (bool_decide_unpack (Forall is_u8 _))|by vm_compute|].
  assert (decode (F := any_pages) (demo_long_bytes ++ [1; 2]) default_limits = Ok (demo_frame, zlen demo_long_bytes)) as Hd
    by (vm_compute; reflexivity).
  destruct (H Hd) as (_ & Ht & Hs). destruct (H2 Hd) as (p & He & [Hz _] & _).
  split; [exact Ht|]. split; [exact Hs|]. exists p. split; [exact He|exact Hz].
Defined.
