(* ===== verification/SessionError.v ===== *)
(** * Session vocabulary: states, sides and errors
    ([crates/vot-session/src/error.rs], the enums of [negotiation.rs] and
    [frame_policy.rs], and the transport errors of [vot-transport-api])

    Every failure carries the registered code the session closes under, and
    [is_peer_fault] decides whether it closes at all. *)

From S2P Require Import Prelude Codec Registry FramesSession.

(** How far a session has got. *)
Inductive State :=
| Connecting | ControlReserved | HelloSent | SettingsExchanged | Negotiated | Authenticated | Closed.
#[export] Instance State_eq_dec : EqDecision State.
Proof. solve_decision. Defined.

Definition is_ready (s : State) : bool := match s with Authenticated => true | _ => false end.
Definition is_negotiated (s : State) : bool := match s with Negotiated | Authenticated => true | _ => false end.

(** Whose limits a frame is measured against: what this endpoint advertised, or
    what the peer did. *)
Inductive Side := Local | Peer.

Inductive Lane := Control | Reliable.

(** [vot_transport_api::Error]. *)
Inductive TransportError :=
| InvalidConfiguration | RecordTooLarge | OutboundQueueFull | InboundQueueFull | StagingExhausted
| ArithmeticOverflow | Unsupported | Backend | LaneLimitExceeded | AccountingPoisoned.

(** [vot_transport_api::ReceiveLimits]. *)
Record ReceiveLimits := mkReceiveLimits { control_payload : Z; rl_lanes : Z }.

Inductive PresentationError :=
| PE_NothingToAnswer (state : State)
| PE_AttemptsSpent (attempts : Z)
| PE_IdentifierReused
| PE_FormatNotOffered (format : Z)
| PE_FormatRetired (format : Z)
| PE_BindingProof (binding : Binding) (proof_bytes : Z).

Inductive ErrorKind :=
| EK_Hello (e : HelloError)
| EK_Settings (e : SettingsError)
| EK_Decode (e : DecodeError)
| EK_OutOfSequence (frame_type : Z) (state : State)
| EK_NotNegotiated (frame_type : Z)
| EK_NotAuthenticated (frame_type : Z)
| EK_CapabilityRequired (formats : Z)
| EK_AuthContextInvalid
| EK_SessionOpenInvalid
| EK_SessionAnswerInvalid (frame_type : Z)
| EK_SessionIdentifierMismatch
| EK_GrantedScopeMismatch
| EK_SessionAnswerUnencodable
| EK_PresentationInvalid (reason : PresentationError)
| EK_BindingProofMismatch (binding : Binding) (proof_bytes : Z)
| EK_SessionIdentifierReused
| EK_CapabilityFormatNotOffered (format : Z)
| EK_TooManyAuthenticationAttempts (attempts : Z)
| EK_AuthenticationRoleMismatch (role : EndpointRole)
| EK_Interrupted (state : State)
| EK_NotReady (state : State)
| EK_PendingRecordsExhausted (bytes count : Z)
| EK_HandshakeUnsent (remaining : Z)
| EK_FrameExceedsLimit (frame_type bytes limit : Z) (side : Side)
| EK_LaneLimitExceeded (limit : Z) (side : Side)
| EK_NotExactlyOneFrame (frame_type declared found : Z) (side : Side)
| EK_ExperimentNotNegotiated (frame_type extension : Z) (side : Side)
| EK_RequiredExtensionUnavailable (extension : Z)
| EK_NegotiationFrameFromApplication (frame_type : Z)
| EK_FrameOnTheWrongLane (frame_type : Z) (lane : Lane) (side : Side)
| EK_FrameFromWrongRole (frame_type : Z) (role : EndpointRole) (side : Side)
| EK_Transport (e : TransportError)
| EK_ReceiveLimitMismatch (advertised_control advertised_lanes : Z) (backend : ReceiveLimits).

Record Error := mkError { kind : ErrorKind; close_code : Z }.

Definition is_peer_fault (k : ErrorKind) : bool :=
  match k with
  | EK_Hello _ | EK_Settings _ | EK_Decode _ | EK_OutOfSequence _ _ | EK_NotNegotiated _ | EK_NotAuthenticated _
  | EK_AuthContextInvalid | EK_SessionOpenInvalid | EK_SessionAnswerInvalid _ | EK_SessionIdentifierMismatch
  | EK_GrantedScopeMismatch | EK_BindingProofMismatch _ _ | EK_SessionIdentifierReused
  | EK_CapabilityFormatNotOffered _ | EK_TooManyAuthenticationAttempts _ | EK_CapabilityRequired _
  | EK_PendingRecordsExhausted _ _ => true
  | EK_FrameExceedsLimit _ _ _ side | EK_LaneLimitExceeded _ side | EK_NotExactlyOneFrame _ _ _ side
  | EK_ExperimentNotNegotiated _ _ side | EK_FrameOnTheWrongLane _ _ side | EK_FrameFromWrongRole _ _ side =>
      match side with Local => true | Peer => false end
  | EK_NotReady _ | EK_Transport _ | EK_Interrupted _ | EK_ReceiveLimitMismatch _ _ _
  | EK_NegotiationFrameFromApplication _ | EK_SessionAnswerUnencodable | EK_PresentationInvalid _
  | EK_AuthenticationRoleMismatch _ | EK_RequiredExtensionUnavailable _ | EK_HandshakeUnsent _ => false
  end.

Definition presentation_error (reason : PresentationError) : Error :=
  mkError (EK_PresentationInvalid reason) error_code.AUTHENTICATION_FAILED.

Definition decode_error (error : DecodeError) : Error := mkError (EK_Decode error) (protocol_code error).

Definition transport_error (error : TransportError) : Error :=
  mkError (EK_Transport error)
    (match error with
     | RecordTooLarge => error_code.FRAME_TOO_LARGE
     | OutboundQueueFull | InboundQueueFull | StagingExhausted => error_code.RESOURCE_LIMIT
     | _ => error_code.MALFORMED_FRAME
     end).
