(* ===== verification/Negotiation.v ===== *)
(** * The handshake and authentication state machine
    ([crates/vot-session/src/negotiation.rs], [authentication.rs])

    [Negotiation] is the exchange of both roles with no carrier and no buffers.
    An operation that takes [&mut self] is a computation of the error-state monad
    over it: what it changed before it failed stays changed, as in the source. *)

From S2P Require Import Prelude BTree Cbor Exact Codec Registry FrameCbor FramesSession Frames SessionError.

Definition MAX_AUTHENTICATION_ATTEMPTS : Z := 3.

Definition no_capability (nonce : list Z) : AuthContext := mkAuthContext nonce BindingNone [].

Inductive Accepted :=
| Consumed (reply : list (list Z))
| Application
| AuthorizationRequired
| PresentationRequired.

Record Negotiation := mkNegotiation {
  n_role : EndpointRole;
  n_state : State;
  n_local : Settings;
  n_extensions : list Z;
  n_challenge : AuthContext;
  n_challenge_read : bool;
  n_presenting : bool;
  n_open : option SessionOpen;
  n_attempted : list (list Z);
  n_granted : option SessionAccept;
  n_refusal : option SessionReject;
  n_peer_hello : option Hello;
  n_peer_settings : option Settings }.

(** Assignments to one field. *)
Definition set_state v n := mkNegotiation (n_role n) v (n_local n) (n_extensions n) (n_challenge n)
  (n_challenge_read n) (n_presenting n) (n_open n) (n_attempted n) (n_granted n) (n_refusal n) (n_peer_hello n) (n_peer_settings n).
Definition set_challenge v n := mkNegotiation (n_role n) (n_state n) (n_local n) (n_extensions n) v
  true (n_presenting n) (n_open n) (n_attempted n) (n_granted n) (n_refusal n) (n_peer_hello n) (n_peer_settings n).
Definition set_open v n := mkNegotiation (n_role n) (n_state n) (n_local n) (n_extensions n) (n_challenge n)
  (n_challenge_read n) (n_presenting n) v (n_attempted n) (n_granted n) (n_refusal n) (n_peer_hello n) (n_peer_settings n).
Definition push_attempted v n := mkNegotiation (n_role n) (n_state n) (n_local n) (n_extensions n) (n_challenge n)
  (n_challenge_read n) (n_presenting n) (n_open n) (n_attempted n ++ [v]) (n_granted n) (n_refusal n) (n_peer_hello n) (n_peer_settings n).
Definition set_granted v n := mkNegotiation (n_role n) (n_state n) (n_local n) (n_extensions n) (n_challenge n)
  (n_challenge_read n) (n_presenting n) (n_open n) (n_attempted n) v (n_refusal n) (n_peer_hello n) (n_peer_settings n).
Definition set_refusal v n := mkNegotiation (n_role n) (n_state n) (n_local n) (n_extensions n) (n_challenge n)
  (n_challenge_read n) (n_presenting n) (n_open n) (n_attempted n) (n_granted n) v (n_peer_hello n) (n_peer_settings n).
Definition set_peer_hello v n := mkNegotiation (n_role n) (n_state n) (n_local n) (n_extensions n) (n_challenge n)
  (n_challenge_read n) (n_presenting n) (n_open n) (n_attempted n) (n_granted n) (n_refusal n) v (n_peer_settings n).
Definition set_peer_settings v n := mkNegotiation (n_role n) (n_state n) (n_local n) (n_extensions n) (n_challenge n)
  (n_challenge_read n) (n_presenting n) (n_open n) (n_attempted n) (n_granted n) (n_refusal n) (n_peer_hello n) v.

Definition N (A : Type) : Type := M Negotiation Error A.
Definition get : N Negotiation := fun n => (Ok n, n).
Definition modify (f : Negotiation -> Negotiation) : N unit := fun n => (Ok tt, f n).

(** ** Constructors and observers *)

Definition new (role : EndpointRole) (local : Settings) (extensions : list Z) (challenge : AuthContext)
    (presenting : bool) : Negotiation :=
  mkNegotiation role Connecting local extensions challenge false presenting None [] None None None None.

Definition client (local : Settings) (extensions : list Z) : Negotiation :=
  new Client local extensions (no_capability (repeat 0 32)) false.
Definition presenting_client (local : Settings) (extensions : list Z) : Negotiation :=
  new Client local extensions (no_capability (repeat 0 32)) true.
Definition server (local : Settings) (extensions : list Z) (challenge : AuthContext) : Negotiation :=
  new Server local extensions challenge false.

Definition negotiated_extensions (self : Negotiation) : list Z :=
  match n_peer_hello self with
  | None => []
  | Some hello => List.filter (fun e => set_contains e (extensions hello)) (n_extensions self)
  end.

Definition extension_is_negotiated (self : Negotiation) (extension : Z) : bool :=
  match n_peer_hello self with
  | None => false
  | Some hello => set_contains extension (n_extensions self) && set_contains extension (extensions hello)
  end.

Definition pending_authorization (self : Negotiation) : option (AuthContext * SessionOpen) :=
  match n_open self with Some open => Some (n_challenge self, open) | None => None end.

Definition pending_presentation (self : Negotiation) : option AuthContext :=
  match n_role self, n_state self, n_presenting self, n_challenge_read self, n_open self with
  | Client, Negotiated, true, true, None => Some (n_challenge self)
  | _, _, _, _, _ => None
  end.

Definition attempts_remaining (self : Negotiation) : Z :=
  Z.max 0 (MAX_AUTHENTICATION_ATTEMPTS - zlen (n_attempted self)).

(** ** Frames the exchange sends *)

(** [let mut v = Vec::new(); f(&mut v)?; v]. *)
Definition encoded {E} (m : M (list Z) E unit) : result (list Z) E :=
  match m [] with (Ok _, out) => Ok out | (Err e, _) => Err e end.

Definition frame (frame_type : Z) (payload : list Z) : result (list Z) Error :=
  map_err decode_error (encoded (encode_frame frame_type payload)).

Definition settings_ack_frame : result (list Z) Error := frame frame_type.SETTINGS_ACK [].

Definition hello_frame (hello : Hello) : result (list Z) Error :=
  let? payload := map_err (fun e => mkError (EK_Hello e) (hello_protocol_code e)) (encoded (encode_hello hello)) in
  frame frame_type.HELLO payload.

Definition settings_frame (self : Negotiation) : result (list Z) Error :=
  let? payload := map_err (fun e => mkError (EK_Settings e) (settings_protocol_code e))
    (encoded (encode_settings (n_local self))) in
  frame frame_type.SETTINGS payload.

(** The payload limit the settings put on a frame type
    ([negotiated_payload_limit] of [frame_policy.rs]). *)
Definition negotiated_payload_limit (ft : Z) (settings : Settings) : Z :=
  let ceiling := max_control_frame_payload settings in
  if ft =? frame_type.DATA_RECORD then max_data_record_payload settings else
  if (ft =? frame_type.MANIFEST_PAGE) || (ft =? frame_type.PROGRESSIVE_PAGE)
  then Z.min (max_manifest_page_payload settings) ceiling else ceiling.

Definition within_peer_control_limit (self : Negotiation) (frame : list Z) : result unit Error :=
  match n_peer_settings self with
  | None => Ok tt
  | Some peer =>
      let? envelope := map_err decode_error (peek_envelope frame (mkLimits HARD_MAX_FRAME_PAYLOAD 1)) in
      let bytes := payload_length envelope in
      let limit := negotiated_payload_limit (Codec.frame_type envelope) peer in
      if bytes <=? limit then Ok tt else
      Err (mkError (EK_FrameExceedsLimit (Codec.frame_type envelope) bytes limit Peer) error_code.FRAME_TOO_LARGE)
  end.

Definition auth_context_frame (self : Negotiation) : result (list Z) Error :=
  let? payload := map_err (fun _ => mkError EK_AuthContextInvalid error_code.MALFORMED_FRAME)
    (encoded (encode_auth_context (n_challenge self))) in
  let? frame := map_err (fun e => mkError (EK_Decode e) error_code.MALFORMED_FRAME)
    (encoded (encode_frame frame_type.AUTH_CONTEXT payload)) in
  let? _ := within_peer_control_limit self frame in
  Ok frame.

Definition out_of_sequence (self : Negotiation) (ft : Z) : Error :=
  mkError (EK_OutOfSequence ft (n_state self)) error_code.MALFORMED_FRAME.

Definition binding_proof_agrees (binding : Binding) (proof : list Z) : bool :=
  match binding with
  | BindingNone => bool_decide (proof = [])
  | ProofOfPossession => negb (bool_decide (proof = []))
  end.

Section negotiation.
Context `{F : PageFormats}.

Definition session_frame (f : TypedFrame) : result (list Z) Error :=
  map_err (fun _ => mkError EK_SessionAnswerUnencodable error_code.MALFORMED_FRAME) (encoded (encode f)).

(** ** The exchange *)

Definition begin : N (list (list Z)) :=
  let! self := get in
  if negb (bool_decide (n_state self = Connecting)) then fail (out_of_sequence self frame_type.HELLO) else
  modify (set_state ControlReserved) ;!
  if bool_decide (n_role self = Server) then ret [] else
  let hello := mkHello DRAFT_REVISION Client (n_extensions self) in
  let! h := lift (hello_frame hello) in
  let! s := lift (settings_frame self) in
  modify (set_state HelloSent) ;!
  ret [h; s].

Definition abandon : Negotiation -> Negotiation := set_state Closed.

Definition carrier_closed : N unit :=
  let! self := get in
  let previous := n_state self in
  modify (set_state Closed) ;!
  if is_ready previous || bool_decide (previous = Closed) then ret tt else
  fail (mkError (EK_Interrupted previous) error_code.MALFORMED_FRAME).

Definition accept_hello (payload : list Z) : N Accepted :=
  let! self := get in
  let '(expected_state, peer_role) :=
    match n_role self with Server => (ControlReserved, Client) | Client => (HelloSent, Server) end in
  if negb (bool_decide (n_state self = expected_state)) || bool_decide (is_Some (n_peer_hello self))
  then fail (out_of_sequence self frame_type.HELLO) else
  let! hello := lift (map_err (fun e => mkError (EK_Hello e) (hello_protocol_code e)) (decode_hello payload peer_role)) in
  modify (set_peer_hello (Some hello)) ;!
  modify (set_state HelloSent) ;!
  ret (Consumed []).

(** [vot_codec::decode_settings]; on bytes its fuel always suffices and the
    fallback is not taken ([decoded_settings_exact]). *)
Definition decoded_settings (payload : list Z) : result Settings SettingsError :=
  default (Err (SE_Malformed InvalidLimits)) (decode_settings payload).

Definition accept_settings (payload : list Z) : N Accepted :=
  let! self := get in
  if bool_decide (is_Some (n_peer_settings self)) then fail (out_of_sequence self frame_type.SETTINGS) else
  if negb (bool_decide (n_state self = HelloSent)) || bool_decide (n_peer_hello self = None)
  then fail (out_of_sequence self frame_type.SETTINGS) else
  let! settings := lift (map_err (fun e => mkError (EK_Settings e) (settings_protocol_code e)) (decoded_settings payload)) in
  modify (set_peer_settings (Some settings)) ;!
  modify (set_state SettingsExchanged) ;!
  match n_role self with
  | Client => ret (Consumed [])
  | Server =>
      let! self := get in
      let answer := mkHello DRAFT_REVISION Server (negotiated_extensions self) in
      let! h := lift (hello_frame answer) in
      let! s := lift (settings_frame self) in
      let! a := lift settings_ack_frame in
      let! c := lift (auth_context_frame self) in
      modify (set_state (if bool_decide (formats (n_challenge self) = []) then Authenticated else Negotiated)) ;!
      ret (Consumed [h; s; a; c])
  end.

Definition accept_settings_ack : N Accepted :=
  let! self := get in
  if bool_decide (n_role self = Client) && is_negotiated (n_state self) then ret (Consumed []) else
  if negb (bool_decide (n_role self = Client)) || negb (bool_decide (n_state self = SettingsExchanged))
  then fail (out_of_sequence self frame_type.SETTINGS_ACK) else
  modify (set_state Negotiated) ;!
  ret (Consumed []).

Definition accept_auth_context (payload : list Z) : N Accepted :=
  let! self := get in
  if negb (bool_decide (n_role self = Client)) || negb (bool_decide (n_state self = Negotiated)) || n_challenge_read self
  then fail (out_of_sequence self frame_type.AUTH_CONTEXT) else
  let! context := lift (map_err (fun _ => mkError EK_AuthContextInvalid error_code.MALFORMED_FRAME)
    (decode_auth_context payload)) in
  if bool_decide (formats context = []) then
    modify (set_challenge context) ;! modify (set_state Authenticated) ;! ret (Consumed [])
  else if negb (n_presenting self) then
    fail (mkError (EK_CapabilityRequired (zlen (formats context))) error_code.AUTHENTICATION_FAILED)
  else modify (set_challenge context) ;! ret PresentationRequired.

Definition answered_attempt (self : Negotiation) (ft : Z) : result (list Z) Error :=
  match n_role self, n_state self, n_open self with
  | Client, Negotiated, Some open => Ok (session_id open)
  | _, _, _ => Err (out_of_sequence self ft)
  end.

Definition require_answers_attempt (answered sent : list Z) : result unit Error :=
  if bool_decide (answered = sent) then Ok tt else
  Err (mkError EK_SessionIdentifierMismatch error_code.AUTHENTICATION_FAILED).

Definition accept_session_accept (payload : list Z) : N Accepted :=
  let! self := get in
  let! sent := lift (answered_attempt self frame_type.SESSION_ACCEPT) in
  let! accept := lift (map_err
    (fun _ => mkError (EK_SessionAnswerInvalid frame_type.SESSION_ACCEPT) error_code.MALFORMED_FRAME)
    (decode_session_accept payload)) in
  lift (require_answers_attempt (accept_id accept) sent) ;!
  modify (set_open None) ;!
  modify (set_refusal None) ;!
  modify (set_granted (Some accept)) ;!
  modify (set_state Authenticated) ;!
  ret (Consumed []).

Definition accept_session_reject (payload : list Z) : N Accepted :=
  let! self := get in
  let! sent := lift (answered_attempt self frame_type.SESSION_REJECT) in
  let! reject := lift (map_err
    (fun _ => mkError (EK_SessionAnswerInvalid frame_type.SESSION_REJECT) error_code.MALFORMED_FRAME)
    (decode_session_reject payload)) in
  lift (require_answers_attempt (reject_id reject) sent) ;!
  modify (set_open None) ;!
  modify (set_refusal (Some reject)) ;!
  ret PresentationRequired.

Definition accept_session_open (payload : list Z) : N Accepted :=
  let! self := get in
  if negb (bool_decide (n_role self = Server)) || negb (bool_decide (n_state self = Negotiated)) ||
     bool_decide (formats (n_challenge self) = []) || bool_decide (is_Some (n_open self))
  then fail (out_of_sequence self frame_type.SESSION_OPEN) else
  if MAX_AUTHENTICATION_ATTEMPTS <=? zlen (n_attempted self) then
    fail (mkError (EK_TooManyAuthenticationAttempts (zlen (n_attempted self))) error_code.AUTHENTICATION_FAILED) else
  let! open := lift (map_err (fun _ => mkError EK_SessionOpenInvalid error_code.MALFORMED_FRAME)
    (decode_session_open payload)) in
  if bool_decide (session_id open ∈ n_attempted self) then
    fail (mkError EK_SessionIdentifierReused error_code.REPLAY_REJECTED) else
  if negb (bool_decide (capability_format open ∈ formats (n_challenge self))) then
    fail (mkError (EK_CapabilityFormatNotOffered (capability_format open)) error_code.AUTHENTICATION_FAILED) else
  if negb (binding_proof_agrees (binding (n_challenge self)) (binding_proof open)) then
    fail (mkError (EK_BindingProofMismatch (binding (n_challenge self)) (zlen (binding_proof open)))
      error_code.AUTHENTICATION_FAILED) else
  modify (push_attempted (session_id open)) ;!
  modify (set_open (Some open)) ;!
  ret AuthorizationRequired.

Definition accept_application (ft : Z) : N Accepted :=
  let! self := get in
  if negb (is_negotiated (n_state self)) then fail (mkError (EK_NotNegotiated ft) error_code.MALFORMED_FRAME) else
  if negb (is_ready (n_state self)) && requires_authentication ft then
    fail (mkError (EK_NotAuthenticated ft) error_code.AUTHENTICATION_FAILED) else
  ret Application.

Definition accept_known (ft : Z) (payload : list Z) : N Accepted :=
  if ft =? frame_type.HELLO then accept_hello payload else
  if ft =? frame_type.SETTINGS then accept_settings payload else
  if ft =? frame_type.SETTINGS_ACK then accept_settings_ack else
  if ft =? frame_type.AUTH_CONTEXT then accept_auth_context payload else
  if ft =? frame_type.SESSION_OPEN then accept_session_open payload else
  if ft =? frame_type.SESSION_ACCEPT then accept_session_accept payload else
  if ft =? frame_type.SESSION_REJECT then accept_session_reject payload else
  accept_application ft.

Definition accept_control (frame : list Z) : N Accepted :=
  let! self := get in
  let limits := mkLimits (max_control_frame_payload (n_local self)) 1 in
  let! (decoded, consumed) := lift (map_err decode_error (decode_one frame limits)) in
  if negb (consumed =? zlen frame) then
    fail (mkError (EK_Decode (LengthOverflow consumed)) error_code.MALFORMED_FRAME) else
  match decoded with
  | SkippedOptional _ _ => ret (Consumed [])
  | Known ft payload => accept_known ft payload
  end.

Definition present (request : SessionOpen) : N (list (list Z)) :=
  let! self := get in
  if bool_decide (pending_presentation self = None) then
    fail (presentation_error (PE_NothingToAnswer (n_state self))) else
  if attempts_remaining self =? 0 then
    fail (presentation_error (PE_AttemptsSpent (zlen (n_attempted self)))) else
  if bool_decide (session_id request ∈ n_attempted self) then
    fail (presentation_error PE_IdentifierReused) else
  if negb (bool_decide (capability_format request ∈ formats (n_challenge self))) then
    fail (presentation_error (PE_FormatNotOffered (capability_format request))) else
  if negb (binding_proof_agrees (binding (n_challenge self)) (binding_proof request)) then
    fail (presentation_error (PE_BindingProof (binding (n_challenge self)) (zlen (binding_proof request)))) else
  let! frame := lift (session_frame (TSessionOpen request)) in
  lift (within_peer_control_limit self frame) ;!
  modify (push_attempted (session_id request)) ;!
  modify (set_refusal None) ;!
  modify (set_open (Some request)) ;!
  ret [frame].

Definition grant (scope : list Z) : N (list (list Z)) :=
  let! self := get in
  let! open := lift (ok_or (n_open self) (out_of_sequence self frame_type.SESSION_ACCEPT)) in
  let accept := mkSessionAccept (session_id open) scope in
  let! frame := lift (session_frame (TSessionAccept accept)) in
  lift (within_peer_control_limit self frame) ;!
  modify (set_granted (Some accept)) ;!
  modify (set_open None) ;!
  modify (set_state Authenticated) ;!
  ret [frame].

Definition refuse (reason : Z) (detail : list Z) : N (list (list Z)) :=
  let! self := get in
  let! open := lift (ok_or (n_open self) (out_of_sequence self frame_type.SESSION_REJECT)) in
  let reject := mkSessionReject (session_id open) reason detail in
  let! frame := lift (session_frame (TSessionReject reject)) in
  lift (within_peer_control_limit self frame) ;!
  modify (set_open None) ;!
  ret [frame].
End negotiation.
