(* ===== verification/NegotiationSafety.v ===== *)
(** * What the handshake guarantees ([crates/vot-session/src/negotiation.rs])

    [transition] is the exchange as a protocol: the moves an endpoint may make,
    each with its guard and with no bytes in sight.  Every call of the code on
    any input is one of these moves ([call_refines_transition]), so the invariants are
    proved once, by rule induction, and hold whatever a peer sends. *)

From S2P Require Import Prelude BTree Cbor Exact Codec Registry FrameCbor FramesSession Frames SessionError Negotiation.

Definition other_role (r : EndpointRole) : EndpointRole := match r with Client => Server | Server => Client end.

(** The request [o] is one the challenge of [n] allows. *)
Definition request_fits (n : Negotiation) (o : SessionOpen) : Prop :=
  (session_id o ∉ n_attempted n) /\ zlen (n_attempted n) < MAX_AUTHENTICATION_ATTEMPTS /\
  (capability_format o ∈ formats (n_challenge n)) /\ binding_proof_agrees (binding (n_challenge n)) (binding_proof o) = true.

Inductive transition (policy : option (list Z)) (n : Negotiation) : Negotiation -> Prop :=
| tr_stay : transition policy n n
| tr_reserve : n_state n = Connecting -> transition policy n (set_state ControlReserved n)
| tr_speak : n_state n = Connecting -> n_role n = Client ->
    transition policy n (set_state HelloSent (set_state ControlReserved n))
| tr_hello h : n_state n = (match n_role n with Server => ControlReserved | Client => HelloSent end) ->
    n_peer_hello n = None -> hello_valid h -> endpoint_role h = other_role (n_role n) ->
    transition policy n (set_state HelloSent (set_peer_hello (Some h) n))
| tr_settings s : n_state n = HelloSent -> is_Some (n_peer_hello n) -> n_peer_settings n = None ->
    settings_valid s = true -> transition policy n (set_state SettingsExchanged (set_peer_settings (Some s) n))
| tr_answer s : n_role n = Server -> n_state n = HelloSent -> is_Some (n_peer_hello n) -> n_peer_settings n = None ->
    settings_valid s = true ->
    transition policy n (set_state (if bool_decide (formats (n_challenge n) = []) then Authenticated else Negotiated)
      (set_state SettingsExchanged (set_peer_settings (Some s) n)))
| tr_ack : n_role n = Client -> n_state n = SettingsExchanged -> transition policy n (set_state Negotiated n)
| tr_open_door c : n_role n = Client -> n_state n = Negotiated -> n_challenge_read n = false -> formats c = [] ->
    transition policy n (set_state Authenticated (set_challenge c n))
| tr_challenge c : n_role n = Client -> n_state n = Negotiated -> n_challenge_read n = false -> formats c <> [] ->
    n_presenting n = true -> transition policy n (set_challenge c n)
| tr_present o : n_role n = Client -> n_state n = Negotiated -> n_challenge_read n = true -> n_open n = None ->
    request_fits n o -> transition policy n (set_open (Some o) (set_refusal None (push_attempted (session_id o) n)))
| tr_accept o a : n_role n = Client -> n_state n = Negotiated -> n_open n = Some o -> accept_id a = session_id o ->
    transition policy n (set_state Authenticated (set_granted (Some a) (set_refusal None (set_open None n))))
| tr_reject o r : n_role n = Client -> n_state n = Negotiated -> n_open n = Some o -> reject_id r = session_id o ->
    transition policy n (set_refusal (Some r) (set_open None n))
| tr_request o : n_role n = Server -> n_state n = Negotiated -> formats (n_challenge n) <> [] -> n_open n = None ->
    request_fits n o -> transition policy n (set_open (Some o) (push_attempted (session_id o) n))
| tr_grant o scope : policy = Some scope -> n_open n = Some o ->
    transition policy n (set_state Authenticated (set_open None (set_granted (Some (mkSessionAccept (session_id o) scope)) n)))
| tr_refuse o : n_open n = Some o -> transition policy n (set_open None n)
| tr_close : transition policy n (set_state Closed n).

(** Runs the monad. *)
Ltac run := unfold bind, get, modify, lift, fail, ret, map_err, ok_or in *; simpl in *.

Section safety.
Context `{F : PageFormats}.

(** Everything that can happen to an endpoint: what its caller does and what its
    carrier delivers. *)
Inductive Call :=
| CBegin | CReceive (frame : list Z) | CPresent (request : SessionOpen) | CGrant (scope : list Z)
| CRefuse (reason : Z) (detail : list Z) | CAbandon | CCarrierClosed.

(** The state a call leaves, whether it succeeded or not. *)
Definition call (c : Call) (n : Negotiation) : Negotiation :=
  match c with
  | CBegin => (begin n).2
  | CReceive frame => (accept_control frame n).2
  | CPresent request => (present request n).2
  | CGrant scope => (grant scope n).2
  | CRefuse reason detail => (refuse reason detail n).2
  | CAbandon => abandon n
  | CCarrierClosed => (carrier_closed n).2
  end.

(** Whether it succeeded. *)
Definition succeeds (c : Call) (n : Negotiation) : bool :=
  match c with
  | CBegin => is_ok (begin n).1
  | CReceive frame => is_ok (accept_control frame n).1
  | CPresent request => is_ok (present request n).1
  | CGrant scope => is_ok (grant scope n).1
  | CRefuse reason detail => is_ok (refuse reason detail n).1
  | CAbandon => true
  | CCarrierClosed => is_ok (carrier_closed n).1
  end.

(** Any call may be made in any state; what the carrier delivers is a slice of
    bytes. *)
Definition callable (c : Call) : Prop :=
  match c with CReceive frame => byte_list frame /\ zlen frame <= i64_max | _ => True end.

Inductive reachable (start : Negotiation) : Negotiation -> Prop :=
| reach_start : reachable start start
| reach_call n c : reachable start n -> callable c -> reachable start (call c n).

(** ** Every call is a move *)

#[local] Opaque settings_ack_frame.

Lemma decoded_settings_exact payload : byte_list payload -> zlen payload <= i64_max ->
  decode_settings payload = Some (decoded_settings payload) /\
  forall s, decoded_settings payload = Ok s -> settings_valid s = true.
Proof using.
  intros Hb Hl. unfold decode_settings, decoded_settings, decode_settings.
  destruct (decode_settings_loop_total (S (length payload)) payload 0 [] default_settings) as (r & -> & Hr);
    [done| |done| |done|by split]; pose proof (zlen_nonneg payload); unfold zlen in *; lia.
Qed.

Lemma begin_refines {g} n : transition g n (begin n).2.
Proof using.
  unfold begin. run. destruct (bool_decide_reflect (n_state n = Connecting)) as [Hs|]; simpl; [|constructor].
  destruct (bool_decide_reflect (n_role n = Server)) as [|Hr]; simpl; [by apply tr_reserve|].
  destruct (hello_frame _); simpl; [|by apply tr_reserve].
  destruct (settings_frame _); simpl; [|by apply tr_reserve].
  apply tr_speak; [done|]. by destruct (n_role n).
Qed.

Lemma hello_refines {g} payload n : byte_list payload -> transition g n (accept_hello payload n).2.
Proof using.
  intros Hb. unfold accept_hello. run.
  destruct (match n_role n with Client => _ | Server => _ end) as [st role] eqn:Hr.
  destruct (bool_decide_reflect (n_state n = st)) as [Hs|]; simpl; [|constructor].
  destruct (bool_decide_reflect (is_Some (n_peer_hello n))) as [|Hn]; simpl; [constructor|].
  destruct (decode_hello payload role) as [h|] eqn:Hd; simpl; [|constructor].
  destruct (decode_hello_valid payload role h Hb Hd) as [Hv Hrole].
  apply tr_hello; [by destruct (n_role n); simplify_eq| |done|by destruct (n_role n); simplify_eq].
  by destruct (n_peer_hello n); [destruct Hn|].
Qed.

Lemma settings_refines {g} payload n : byte_list payload -> zlen payload <= i64_max ->
  transition g n (accept_settings payload n).2.
Proof using.
  intros Hb Hl. unfold accept_settings. run.
  destruct (bool_decide_reflect (is_Some (n_peer_settings n))) as [|Hp]; simpl; [constructor|].
  destruct (bool_decide_reflect (n_state n = HelloSent)) as [Hs|]; simpl; [|constructor].
  destruct (bool_decide_reflect (n_peer_hello n = None)) as [|Hh]; simpl; [constructor|].
  destruct (decoded_settings payload) as [s|] eqn:Hd; simpl; [|constructor].
  apply (decoded_settings_exact payload Hb Hl) in Hd.
  assert (is_Some (n_peer_hello n)) by (by destruct (n_peer_hello n); [eexists|]).
  assert (n_peer_settings n = None) by (by destruct (n_peer_settings n); [destruct Hp|]).
  destruct (n_role n) eqn:Hr; simpl; [by apply tr_settings|].
  destruct (hello_frame _); simpl; [|by apply tr_settings].
  destruct (settings_frame _); simpl; [|by apply tr_settings].
  destruct (settings_ack_frame); simpl; [|by apply tr_settings].
  destruct (auth_context_frame _); simpl; [by apply tr_answer|by apply tr_settings].
Qed.

Lemma ack_refines {g} n : transition g n (accept_settings_ack n).2.
Proof using.
  unfold accept_settings_ack. run.
  destruct (bool_decide_reflect (n_role n = Client)) as [Hr|]; simpl; [|constructor].
  destruct (is_negotiated (n_state n)); simpl; [constructor|].
  destruct (bool_decide_reflect (n_state n = SettingsExchanged)) as [Hs|]; simpl; [|constructor]. by apply tr_ack.
Qed.

Lemma auth_context_refines {g} payload n : transition g n (accept_auth_context payload n).2.
Proof using.
  unfold accept_auth_context. run.
  destruct (bool_decide_reflect (n_role n = Client)) as [Hr|]; simpl; [|constructor].
  destruct (bool_decide_reflect (n_state n = Negotiated)) as [Hs|]; simpl; [|constructor].
  destruct (n_challenge_read n) eqn:Hc; simpl; [constructor|].
  destruct (decode_auth_context payload) as [c|]; simpl; [|constructor].
  destruct (bool_decide_reflect (formats c = [])); simpl; [by apply tr_open_door|].
  destruct (n_presenting n) eqn:Hp; simpl; [by apply tr_challenge|constructor].
Qed.

Lemma answered_attempt_ok n ft id : answered_attempt n ft = Ok id ->
  exists o, n_role n = Client /\ n_state n = Negotiated /\ n_open n = Some o /\ id = session_id o.
Proof using.
  unfold answered_attempt. destruct (n_role n), (n_state n), (n_open n) as [o|]; try done. intros [= <-]. by exists o.
Qed.

Lemma session_accept_refines {g} payload n : transition g n (accept_session_accept payload n).2.
Proof using.
  unfold accept_session_accept. run. destruct (answered_attempt n _) as [id|] eqn:Ha; simpl; [|constructor].
  apply answered_attempt_ok in Ha as (o & Hr & Hs & Ho & ->).
  destruct (decode_session_accept payload) as [a|]; simpl; [|constructor]. unfold require_answers_attempt.
  destruct (bool_decide_reflect (accept_id a = session_id o)); simpl; [by eapply tr_accept|constructor].
Qed.

Lemma session_reject_refines {g} payload n : transition g n (accept_session_reject payload n).2.
Proof using.
  unfold accept_session_reject. run. destruct (answered_attempt n _) as [id|] eqn:Ha; simpl; [|constructor].
  apply answered_attempt_ok in Ha as (o & Hr & Hs & Ho & ->).
  destruct (decode_session_reject payload) as [r|]; simpl; [|constructor]. unfold require_answers_attempt.
  destruct (bool_decide_reflect (reject_id r = session_id o)); simpl; [by eapply tr_reject|constructor].
Qed.

Lemma session_open_refines {g} payload n : transition g n (accept_session_open payload n).2.
Proof using.
  unfold accept_session_open. run.
  destruct (bool_decide_reflect (n_role n = Server)) as [Hr|]; simpl; [|constructor].
  destruct (bool_decide_reflect (n_state n = Negotiated)) as [Hs|]; simpl; [|constructor].
  destruct (bool_decide_reflect (formats (n_challenge n) = [])) as [|Hf]; simpl; [constructor|].
  destruct (bool_decide_reflect (is_Some (n_open n))) as [|Ho]; simpl; [constructor|].
  destruct (Z.leb_spec MAX_AUTHENTICATION_ATTEMPTS (zlen (n_attempted n))); simpl; [constructor|].
  destruct (decode_session_open payload) as [o|]; simpl; [|constructor].
  destruct (bool_decide_reflect (session_id o ∈ n_attempted n)); simpl; [constructor|].
  destruct (bool_decide_reflect (capability_format o ∈ formats (n_challenge n))); simpl; [|constructor].
  destruct (binding_proof_agrees _ _) eqn:Hb; simpl; [|constructor].
  apply tr_request; [done|done|done| |done]. by destruct (n_open n); [destruct Ho|].
Qed.

Lemma present_refines {g} o n : transition g n (present o n).2.
Proof using.
  unfold present. run. unfold pending_presentation.
  destruct (n_role n) eqn:Hr, (n_state n) eqn:Hs, (n_presenting n) eqn:Hp, (n_challenge_read n) eqn:Hc, (n_open n) eqn:Ho;
    simpl; try constructor.
  destruct (Z.eqb_spec (attempts_remaining n) 0) as [|Ha]; simpl; [constructor|].
  destruct (bool_decide_reflect (session_id o ∈ n_attempted n)); simpl; [constructor|].
  destruct (bool_decide_reflect (capability_format o ∈ formats (n_challenge n))); simpl; [|constructor].
  destruct (binding_proof_agrees _ _) eqn:Hb; simpl; [|constructor].
  destruct (session_frame _); simpl; [|constructor].
  destruct (within_peer_control_limit _ _); simpl; [|constructor].
  apply tr_present; try done. split_and!; try done. unfold attempts_remaining in Ha. lia.
Qed.

Lemma grant_refines scope n : transition (Some scope) n (grant scope n).2.
Proof using.
  unfold grant. run. destruct (n_open n) as [o|] eqn:Ho; simpl; [|constructor].
  destruct (session_frame _); simpl; [|constructor].
  destruct (within_peer_control_limit _ _); simpl; [|constructor]. by apply tr_grant.
Qed.

Lemma refuse_refines {g} reason detail n : transition g n (refuse reason detail n).2.
Proof using.
  unfold refuse. run. destruct (n_open n) as [o|] eqn:Ho; simpl; [|constructor].
  destruct (session_frame _); simpl; [|constructor].
  destruct (within_peer_control_limit _ _); simpl; [|constructor]. by eapply tr_refuse.
Qed.

Lemma application_stays ft n : (accept_application ft n).2 = n.
Proof using. unfold accept_application. run. by destruct (is_negotiated _), (is_ready _), (requires_authentication ft). Qed.

Lemma known_refines {g} ft payload n : byte_list payload -> zlen payload <= i64_max ->
  transition g n (accept_known ft payload n).2.
Proof using.
  intros Hb Hl. unfold accept_known.
  repeat match goal with |- context[if ?b then _ else _] => destruct b end;
    eauto using hello_refines, settings_refines, ack_refines, auth_context_refines, session_open_refines,
      session_accept_refines, session_reject_refines.
  rewrite application_stays. constructor.
Qed.

(** The scope the caller's policy grants, in a call that grants one. *)
Definition granting (c : Call) : option (list Z) := match c with CGrant scope => Some scope | _ => None end.

Lemma call_refines_transition c n : callable c -> transition (granting c) n (call c n).
Proof using.
  destruct c as [|frame|o|scope|reason detail| |]; simpl; intros Hc;
    [apply begin_refines| |apply present_refines|apply grant_refines|apply refuse_refines|apply tr_close|].
  - destruct Hc as [Hb Hl]. unfold accept_control. run.
    destruct (decode_one _ _) as [[[ft p|ft len] m]|] eqn:Hd; simpl; [| |constructor].
    + destruct (Z.eqb_spec m (zlen frame)); simpl; [|constructor].
      destruct (decode_one_known _ _ _ _ _ Hb Hd) as (h & Hh & Hm & ->).
      apply known_refines; [unfold slice, ztake, zdrop; by apply Forall_take, Forall_drop|].
      rewrite zlen_slice by lia. lia.
    + destruct (Z.eqb_spec m (zlen frame)); simpl; constructor.
  - unfold carrier_closed. run.
    destruct (is_ready (n_state n)), (bool_decide (n_state n = Closed)); simpl; apply tr_close.
Qed.

(** ** The invariant *)

Record negotiation_ok (n : Negotiation) : Prop := mkOk {
  ok_attempts : NoDup (n_attempted n) /\ zlen (n_attempted n) <= MAX_AUTHENTICATION_ATTEMPTS;
  ok_open : forall o, n_open n = Some o ->
    (session_id o ∈ n_attempted n) /\ (capability_format o ∈ formats (n_challenge n)) /\
    binding_proof_agrees (binding (n_challenge n)) (binding_proof o) = true /\
    (n_state n = Negotiated \/ n_state n = Closed) /\ (n_role n = Client -> n_challenge_read n = true);
  ok_hello : forall h, n_peer_hello n = Some h -> hello_valid h /\ endpoint_role h = other_role (n_role n);
  ok_settings : forall s, n_peer_settings n = Some s -> settings_valid s = true /\ is_Some (n_peer_hello n);
  ok_peer : n_state n = SettingsExchanged \/ is_negotiated (n_state n) = true -> is_Some (n_peer_settings n);
  ok_open_peer : is_Some (n_open n) -> is_Some (n_peer_settings n);
  ok_granted : forall a, n_granted n = Some a -> accept_id a ∈ n_attempted n;
  ok_ready : n_state n = Authenticated ->
    (formats (n_challenge n) = [] \/ is_Some (n_granted n)) /\ (n_role n = Client -> n_challenge_read n = true) }.

Lemma zlen_snoc {A} (l : list A) x : zlen (l ++ [x]) = zlen l + 1.
Proof using. rewrite zlen_app. unfold zlen. simpl. lia. Qed.

Lemma transition_ok g n n' : transition g n n' -> negotiation_ok n -> negotiation_ok n'.
Proof using.
  intros Ht [[Hnd Hlen] Ho Hh Hs Hp Hop Hg Hr].
  assert (forall o, request_fits n o ->
    NoDup (n_attempted n ++ [session_id o]) /\ zlen (n_attempted n ++ [session_id o]) <= MAX_AUTHENTICATION_ATTEMPTS) as Hfit.
  { intros o (Hi & Hl & _). rewrite zlen_snoc. split; [|lia]. apply NoDup_app. split_and!; [done| |apply NoDup_singleton].
    set_solver. }
  destruct Ht; constructor; simpl; try assumption; try (by split); try (by apply Hfit);
    try (by intros o' Ho'; destruct (Ho o' Ho') as (? & ? & ? & [] & Hread); try congruence; specialize (Hread ltac:(done)); congruence);
    try (by intros [?|?]); try (by intros ? [= <-]); try (by intros _; apply Hp; auto); try (by intros [? [=]]); try (by intros _; eauto); try (by intros Hx; specialize (Hop Hx); eauto).
  - intros o' Ho'. destruct (Ho o' Ho') as (_ & _ & _ & [] & _), (n_role n); congruence.
  - intros s Hsome. by destruct (Hs s Hsome).
  - destruct (bool_decide_reflect (formats (n_challenge n) = [])); [|done]. intros _. split; [by left|congruence].
  - intros _. apply Hp. right. by rewrite H0.
  - congruence.
  - intros ? [= <-]. destruct H3 as (_ & _ & ? & ?). split_and!; [set_solver|done|done|by left|done].
  - intros _. apply Hp. right. by rewrite H0.
  - intros a Ha. apply elem_of_app. left. by apply Hg.
  - intros ? [= <-]. rewrite H2. by apply Ho.
  - intros _. split; [right; by eexists|]. by apply (Ho o).
  - intros ? [= <-]. destruct H3 as (_ & _ & ? & ?). split_and!; [set_solver|done|done|by left|congruence].
  - intros _. apply Hp. right. by rewrite H0.
  - intros a Ha. apply elem_of_app. left. by apply Hg.
  - intros ? [= <-]. by apply (Ho o).
  - intros _. split; [right; by eexists|]. by apply (Ho o).
  - intros o Hsome. destruct (Ho o Hsome) as (? & ? & ? & ? & ?). split_and!; auto.
Qed.

Lemma new_ok role local ext challenge presenting : negotiation_ok (new role local ext challenge presenting).
Proof using. constructor; simpl; try done; [split; [constructor|done]|by intros [|]]. Qed.

Lemma reachable_ok start n : reachable start n -> negotiation_ok start -> negotiation_ok n.
Proof using. induction 1; [done|]. eauto using transition_ok, call_refines_transition. Qed.

Lemma reachable_trans n1 n2 n3 : reachable n1 n2 -> reachable n2 n3 -> reachable n1 n3.
Proof using. intros H. induction 1; [done|]. by apply reach_call. Qed.

(** ** What a reachable endpoint has *)

(** What a call that failed leaves as it was: it records no attempt, request
    or grant, and does not open the gate. *)
Definition harmless (n n' : Negotiation) : Prop :=
  n_open n' = n_open n /\ n_attempted n' = n_attempted n /\ n_granted n' = n_granted n /\
  (is_ready (n_state n') = true -> is_ready (n_state n) = true).

Lemma harmless_refl n : harmless n n.
Proof using. done. Qed.

(** Follows a computation into its failures. *)
Ltac failures := run; repeat (case_match; simpl in *; simplify_eq); try done; intros _; repeat split; done.

Lemma known_harmless ft payload n : is_ok (accept_known ft payload n).1 = false -> harmless n (accept_known ft payload n).2.
Proof using.
  unfold accept_known. repeat match goal with |- context[if ?b then _ else _] => destruct b end.
  - unfold accept_hello. failures.
  - unfold accept_settings. failures.
  - unfold accept_settings_ack. failures.
  - unfold accept_auth_context. failures.
  - unfold accept_session_open. failures.
  - unfold accept_session_accept. failures.
  - unfold accept_session_reject. failures.
  - unfold accept_application. failures.
Qed.

Lemma failure_harmless c n : succeeds c n = false -> harmless n (call c n).
Proof using.
  destruct c as [|frame|o|scope|reason detail| |]; simpl.
  - unfold begin. failures.
  - unfold accept_control. run. destruct (decode_one _ _) as [[[ft p|ft len] m]|]; simpl; [| |done].
    + destruct (m =? zlen frame); simpl; [apply known_harmless|done].
    + by destruct (m =? zlen frame).
  - unfold present. failures.
  - unfold grant. failures.
  - unfold refuse. failures.
  - done.
  - unfold carrier_closed. failures.
Qed.

(** C19: the code implements the protocol.  Whatever an endpoint's role and state, every call its caller makes,
    in or out of turn, and every byte string its carrier delivers moves it along one transition of the
    protocol or leaves it where it was; and a call that fails records no attempt, no request and no grant,
    and does not open the gate.  The protocol's grant is the code's: it asks only for a request that is held,
    so it includes the grant on a closed exchange and the grant a client makes for itself. *)
Theorem negotiation_refines_protocol c n : callable c ->
  transition (granting c) n (call c n) /\ (succeeds c n = false -> harmless n (call c n)).
Proof using. intros Hc. split; [by apply call_refines_transition|apply failure_harmless]. Qed.

(** ** Where a grant comes from *)

(** The call [c] on [n] made the grant [a]: it answers the request [o]
    outstanding in [n], and is the caller's own decision or, on a client, the
    reading of an acceptance off the carrier. *)
Definition answers (c : Call) (n : Negotiation) (o : SessionOpen) (a : SessionAccept) : Prop :=
  n_open n = Some o /\ accept_id a = session_id o /\
  (c = CGrant (granted_scope a) \/
   n_role n = Client /\ exists frame payload, c = CReceive frame /\
     decode_one frame (mkLimits (max_control_frame_payload (n_local n)) 1) =
       Ok (Known frame_type.SESSION_ACCEPT payload, zlen frame) /\
     decode_session_accept payload = Ok a).

(** The call [c] on [n] made the request [o]: a server read it off the carrier,
    a client's caller presented it. *)
Definition asks (c : Call) (n : Negotiation) (o : SessionOpen) : Prop :=
  match n_role n with
  | Server => exists frame payload, c = CReceive frame /\
      decode_one frame (mkLimits (max_control_frame_payload (n_local n)) 1) =
        Ok (Known frame_type.SESSION_OPEN payload, zlen frame) /\
      decode_session_open payload = Ok o
  | Client => c = CPresent o
  end.

(** Some call in the past of [n] was [P]. *)
Definition past (start n : Negotiation) (P : Call -> Negotiation -> Prop) : Prop :=
  exists c n0, reachable start n0 /\ callable c /\ reachable (call c n0) n /\ P c n0.

(** A field that only calls [P] fill was filled by one of them. *)
Lemma filled_in_past {X} (field : Negotiation -> option X) (P : X -> Call -> Negotiation -> Prop) start n x :
  (forall c n, field (call c n) = Some x -> field n = Some x \/ P x c n) ->
  field start = None -> reachable start n -> field n = Some x -> past start n (P x).
Proof using.
  intros Hstep Hstart Hr. induction Hr as [|n c Hr IH Hc]; intros Hx; [congruence|].
  destruct (Hstep c n Hx) as [Hold|Hnew].
  - destruct (IH Hold) as (c0 & n0 & ? & ? & ? & ?). exists c0, n0. split_and!; try done. by apply reach_call.
  - exists c, n. split_and!; try done. apply reach_start.
Qed.

(** Follows a computation that leaves a field as it was. *)
Ltac untouched := run; repeat (case_match; simpl in *; simplify_eq); try (by left); try done.

Lemma known_granted ft payload n a : n_granted (accept_known ft payload n).2 = Some a ->
  n_granted n = Some a \/ ft = frame_type.SESSION_ACCEPT /\ n_granted (accept_session_accept payload n).2 = Some a.
Proof using.
  unfold accept_known.
  destruct (ft =? frame_type.HELLO); [unfold accept_hello; untouched|].
  destruct (ft =? frame_type.SETTINGS); [unfold accept_settings; untouched|].
  destruct (ft =? frame_type.SETTINGS_ACK); [unfold accept_settings_ack; untouched|].
  destruct (ft =? frame_type.AUTH_CONTEXT); [unfold accept_auth_context; untouched|].
  destruct (ft =? frame_type.SESSION_OPEN); [unfold accept_session_open; untouched|].
  destruct (Z.eqb_spec ft frame_type.SESSION_ACCEPT); [by right|].
  destruct (ft =? frame_type.SESSION_REJECT); [unfold accept_session_reject; untouched|].
  rewrite application_stays. by left.
Qed.

Lemma known_open ft payload n o : n_open (accept_known ft payload n).2 = Some o ->
  n_open n = Some o \/ ft = frame_type.SESSION_OPEN /\ n_open (accept_session_open payload n).2 = Some o.
Proof using.
  unfold accept_known.
  destruct (ft =? frame_type.HELLO); [unfold accept_hello; untouched|].
  destruct (ft =? frame_type.SETTINGS); [unfold accept_settings; untouched|].
  destruct (ft =? frame_type.SETTINGS_ACK); [unfold accept_settings_ack; untouched|].
  destruct (ft =? frame_type.AUTH_CONTEXT); [unfold accept_auth_context; untouched|].
  destruct (Z.eqb_spec ft frame_type.SESSION_OPEN); [by right|].
  destruct (ft =? frame_type.SESSION_ACCEPT); [unfold accept_session_accept; untouched|].
  destruct (ft =? frame_type.SESSION_REJECT); [unfold accept_session_reject; untouched|].
  rewrite application_stays. by left.
Qed.

(** What a received frame changes, [accept_known] changes. *)
Lemma received frame n : (accept_control frame n).2 = n \/ exists ft payload,
  decode_one frame (mkLimits (max_control_frame_payload (n_local n)) 1) = Ok (Known ft payload, zlen frame) /\
  (accept_control frame n).2 = (accept_known ft payload n).2.
Proof using.
  unfold accept_control. run. destruct (decode_one _ _) as [[[ft p|ft len] m]|]; simpl; [| |by left].
  - destruct (Z.eqb_spec m (zlen frame)) as [->|]; simpl; [right; by exists ft, p|by left].
  - destruct (m =? zlen frame); by left.
Qed.

Lemma granted_step a c n : n_granted (call c n) = Some a ->
  n_granted n = Some a \/ exists o, answers c n o a.
Proof using.
  destruct c as [|frame|o|scope|reason detail| |]; simpl.
  - unfold begin. untouched.
  - destruct (received frame n) as [->|(ft & p & Hd & ->)]; [by left|].
    intros [?|[-> Ha]]%known_granted; [by left|]. revert Ha. unfold accept_session_accept. run.
    destruct (answered_attempt n _) as [id|] eqn:Hat; simpl; [|by left].
    apply answered_attempt_ok in Hat as (o & Hr & _ & Ho & ->).
    destruct (decode_session_accept p) as [a'|] eqn:Hp; simpl; [|by left]. unfold require_answers_attempt.
    destruct (bool_decide_reflect (accept_id a' = session_id o)); simpl; [|by left]. intros [= ->].
    right. exists o. split_and!; try done. right. split; [done|]. by exists frame, p.
  - unfold present. untouched.
  - unfold grant. run. destruct (n_open n) as [o|] eqn:Ho; simpl; [|by left].
    destruct (session_frame _); simpl; [|by left]. destruct (within_peer_control_limit _ _); simpl; [|by left].
    intros [= <-]. right. exists o. split_and!; try done. by left.
  - unfold refuse. untouched.
  - by left.
  - unfold carrier_closed. untouched.
Qed.

Lemma request_step o c n : n_open (call c n) = Some o -> n_open n = Some o \/ asks c n o.
Proof using.
  destruct c as [|frame|o'|scope|reason detail| |]; simpl.
  - unfold begin. untouched.
  - destruct (received frame n) as [->|(ft & p & Hd & ->)]; [by left|].
    intros [?|[-> Ha]]%known_open; [by left|]. revert Ha. unfold accept_session_open, asks. untouched.
    intros [= <-]. right. by exists frame, p.
  - unfold present, pending_presentation, asks. untouched; intros ?; simplify_eq; by right.
  - unfold grant. untouched; intros ?; left; congruence.
  - unfold refuse. untouched; intros ?; left; congruence.
  - by left.
  - unfold carrier_closed. untouched.
Qed.

(** The challenge a server issues, and the one a client read, stand. *)
Lemma challenge_stands n n' : reachable n n' -> n_role n = Server \/ n_challenge_read n = true ->
  n_challenge n' = n_challenge n /\ (n_role n' = Server \/ n_challenge_read n' = true).
Proof using.
  induction 1 as [|n' c Hr IH Hc]; [done|]. intros Hn. destruct (IH Hn) as [<- Hn']. clear IH Hn Hr.
  by destruct (call_refines_transition c n' Hc); simpl; try done; destruct Hn'; try congruence; auto.
Qed.

(** C17: what a ready endpoint has.  However an endpoint came to be ready, and whatever calls its caller made and
    bytes its carrier delivered on the way, it holds a valid HELLO from the other role and valid settings, and
    a client has read the challenge.  Then either the challenge asks for no capability, or the endpoint holds a
    grant, and in its past is the call that made it: the grant names the request outstanding at that call; the
    request uses a format the challenge offers and proves the binding it demands; the challenge is still the
    same; and the request came from the peer on a server, from the caller on a client.  That call was the
    endpoint's own caller granting, or on a client the reading of an acceptance that carries the grant.  At most
    three attempts are made, under distinct identifiers.  (That a server's caller verifies a capability before
    granting it, and that a client's caller does not grant its own request, the exchange leaves to them.) *)
Theorem ready_means_authenticated role local ext challenge presenting n :
  let start := new role local ext challenge presenting in
  reachable start n ->
  NoDup (n_attempted n) /\ zlen (n_attempted n) <= MAX_AUTHENTICATION_ATTEMPTS /\
  (is_ready (n_state n) = true ->
    (exists h, n_peer_hello n = Some h /\ hello_valid h /\ endpoint_role h = other_role (n_role n)) /\
    (exists s, n_peer_settings n = Some s /\ settings_valid s = true) /\
    (n_role n = Client -> n_challenge_read n = true) /\
    (formats (n_challenge n) = [] \/
     exists a o, n_granted n = Some a /\ (accept_id a ∈ n_attempted n) /\ (capability_format o ∈ formats (n_challenge n)) /\
       binding_proof_agrees (binding (n_challenge n)) (binding_proof o) = true /\
       past start n (fun c before => answers c before o a /\ n_challenge before = n_challenge n /\
         past start before (fun c earlier => asks c earlier o)))).
Proof using.
  intros start Hr. assert (Hstart : negotiation_ok start) by apply new_ok.
  destruct (reachable_ok _ _ Hr Hstart) as [[Hnd Hlen] _ Hh Hs Hp _ Hgranted Hready].
  split_and!; try done. intros Hrd.
  assert (Hst : n_state n = Authenticated) by (by destruct (n_state n)).
  destruct (Hp ltac:(right; by rewrite Hst)) as [s Hset]. destruct (Hs s Hset) as [Hv [h Hhello]].
  destruct (Hready Hst) as [Hgate Hread]. split_and!; [by exists h; auto|by exists s|done|].
  destruct Hgate as [?|[a Ha]]; [by left|right].
  destruct (filled_in_past n_granted (fun a c n => exists o, answers c n o a) start n a (granted_step a) eq_refl Hr Ha)
    as (c & n0 & Hr0 & Hc & Hn & o & Hans).
  pose proof (reachable_ok _ _ Hr0 Hstart) as Hok. assert (Hopen := proj1 Hans).
  destruct (ok_open n0 Hok o Hopen) as (_ & Hfmt & Hbind & _ & Hclient).
  destruct (challenge_stands n0 n) as [Hch _]; [by eapply reachable_trans; [by apply reach_call, Hc; apply reach_start|]| |].
  { destruct (n_role n0); auto. }
  exists a, o. rewrite Hch. split_and!; auto. exists c, n0. split_and!; try done.
  by apply (filled_in_past n_open (fun o c n => asks c n o) start n0 o (request_step o)).
Qed.

(** Where a state stands in the exchange. *)
Definition rank (s : State) : Z :=
  match s with
  | Connecting => 0 | ControlReserved => 1 | HelloSent => 2 | SettingsExchanged => 3 | Negotiated => 4
  | Authenticated => 5 | Closed => 6
  end.

(** Fields a later move leaves alone. *)
Definition kept {A} (before after : option A) : Prop := before = None \/ before = after.

Lemma transition_kept g n n' : transition g n n' ->
  kept (n_peer_hello n) (n_peer_hello n') /\ kept (n_peer_settings n) (n_peer_settings n') /\
  (n_role n = Server \/ n_challenge_read n = true -> n_challenge n' = n_challenge n) /\
  (exists later, n_attempted n' = n_attempted n ++ later) /\
  (rank (n_state n) <= rank (n_state n') \/ is_Some g /\ is_Some (n_open n)) /\
  n_role n' = n_role n /\ n_local n' = n_local n /\ n_extensions n' = n_extensions n.
Proof using.
  intros [].
  all: split_and!; simpl; try (by right); try (by left); try done; try (by exists []; rewrite app_nil_r);
    try (by eexists); try (by intros [|]; congruence); try (by left; rewrite H); try (by left; rewrite H0);
    try (by left; case_bool_decide; rewrite H0); try (by left; destruct (n_state n)); try (by right; split; eexists).
  left. rewrite H. by destruct (n_role n).
Qed.

(** the exchange is written once.  Whatever happens next, the HELLO and the settings a peer sent, and
    the challenge a client read, are never replaced; attempted identifiers are never forgotten; what this
    endpoint advertised does not change; and the state only moves forward, except that a grant of a request
    still held reopens a closed exchange. *)
Theorem exchange_is_write_once c n : callable c ->
  kept (n_peer_hello n) (n_peer_hello (call c n)) /\ kept (n_peer_settings n) (n_peer_settings (call c n)) /\
  (n_role n = Server \/ n_challenge_read n = true -> n_challenge (call c n) = n_challenge n) /\
  (exists later, n_attempted (call c n) = n_attempted n ++ later) /\
  (rank (n_state n) <= rank (n_state (call c n)) \/ is_Some (granting c) /\ is_Some (n_open n)) /\
  n_role (call c n) = n_role n /\ n_local (call c n) = n_local n /\ n_extensions (call c n) = n_extensions n.
Proof using. intros Hc. by apply transition_kept, call_refines_transition. Qed.

(** how the data plane opens.  An endpoint becomes ready in exactly these ways.  Its own caller grants
    the request that is held, and then it holds exactly that grant.  A server answers the client's settings
    under a challenge that asks for no capability.  A client reads a challenge that asks for no capability, or
    an acceptance that names the request it has outstanding. *)
Theorem gate_opens_only n c : callable c ->
  is_ready (n_state n) = false -> is_ready (n_state (call c n)) = true ->
  (exists o scope, c = CGrant scope /\ n_open n = Some o /\
     n_granted (call c n) = Some (mkSessionAccept (session_id o) scope)) \/
  match n_role n with
  | Server => n_state n = HelloSent /\ formats (n_challenge n) = []
  | Client =>
      n_state n = Negotiated /\
      ((n_challenge_read n = false /\ formats (n_challenge (call c n)) = []) \/
       exists o a, n_open n = Some o /\ n_granted (call c n) = Some a /\ accept_id a = session_id o)
  end.
Proof using.
  intros Hc Hb Ha. pose proof (call_refines_transition c n Hc) as Ht. revert Ha.
  destruct Ht as [|Hs|Hs Hrole|h Hs _ _ _|s Hs _ _ _|s Hrole Hs _ _ _|Hrole Hs|ch Hrole Hs Hread Hf|ch Hrole Hs _ _ _|
    o Hrole Hs _ _ _|o a Hrole Hs Ho Hid|o r Hrole Hs _ _|o Hrole Hs _ _ _|o scope Hg Ho|o _|];
    simpl; try congruence; intros Ha; try rewrite Hrole.
  - right. destruct (bool_decide_reflect (formats (n_challenge n) = [])); done.
  - right. split; [done|]. left. done.
  - right. split; [done|]. right. by exists o, a.
  - left. exists o, scope. by destruct c; simpl in Hg; simplify_eq.
Qed.

(** The frames the exchange answers itself. *)
Definition exchange_types : list Z :=
  [frame_type.HELLO; frame_type.SETTINGS; frame_type.SETTINGS_ACK; frame_type.AUTH_CONTEXT;
   frame_type.SESSION_OPEN; frame_type.SESSION_ACCEPT; frame_type.SESSION_REJECT].

(** The exchange's own frames are consumed. *)
Ltac never := run; repeat (case_match; simpl in *); by intros [=].

Lemma hello_never_application payload n n' : accept_hello payload n <> (Ok Application, n').
Proof using. unfold accept_hello. never. Qed.
Lemma settings_never_application payload n n' : accept_settings payload n <> (Ok Application, n').
Proof using. unfold accept_settings. never. Qed.
Lemma ack_never_application n n' : accept_settings_ack n <> (Ok Application, n').
Proof using. unfold accept_settings_ack. never. Qed.
Lemma auth_context_never_application payload n n' : accept_auth_context payload n <> (Ok Application, n').
Proof using. unfold accept_auth_context. never. Qed.
Lemma session_open_never_application payload n n' : accept_session_open payload n <> (Ok Application, n').
Proof using. unfold accept_session_open. never. Qed.
Lemma session_accept_never_application payload n n' : accept_session_accept payload n <> (Ok Application, n').
Proof using. unfold accept_session_accept. never. Qed.
Lemma session_reject_never_application payload n n' : accept_session_reject payload n <> (Ok Application, n').
Proof using. unfold accept_session_reject. never. Qed.

Lemma accept_control_application frame n n' :
  accept_control frame n = (Ok Application, n') ->
  n' = n /\ exists ft payload,
    decode_one frame (mkLimits (max_control_frame_payload (n_local n)) 1) = Ok (Known ft payload, zlen frame) /\
    (ft ∉ exchange_types) /\ is_negotiated (n_state n) = true /\
    (requires_authentication ft = true -> n_state n = Authenticated).
Proof using.
  unfold accept_control. run. destruct (decode_one _ _) as [[[ft p|ft len] m]|] eqn:Hd; simpl; [| |done].
  2: { by destruct (Z.eqb_spec m (zlen frame)). }
  destruct (Z.eqb_spec m (zlen frame)) as [->|]; simpl; [|done]. unfold accept_known.
  destruct (Z.eqb_spec ft frame_type.HELLO); [by intros ?%hello_never_application|].
  destruct (Z.eqb_spec ft frame_type.SETTINGS); [by intros ?%settings_never_application|].
  destruct (Z.eqb_spec ft frame_type.SETTINGS_ACK); [by intros ?%ack_never_application|].
  destruct (Z.eqb_spec ft frame_type.AUTH_CONTEXT); [by intros ?%auth_context_never_application|].
  destruct (Z.eqb_spec ft frame_type.SESSION_OPEN); [by intros ?%session_open_never_application|].
  destruct (Z.eqb_spec ft frame_type.SESSION_ACCEPT); [by intros ?%session_accept_never_application|].
  destruct (Z.eqb_spec ft frame_type.SESSION_REJECT); [by intros ?%session_reject_never_application|].
  unfold accept_application. run. destruct (is_negotiated (n_state n)) eqn:Hn; simpl; [|done].
  destruct (negb (is_ready (n_state n)) && requires_authentication ft) eqn:Hq; simpl; [done|].
  intros [= <-]. split; [done|]. exists ft, p. split_and!; [done| |done|].
  - unfold exchange_types. rewrite !elem_of_cons, elem_of_nil. tauto.
  - intros Hreq. rewrite Hreq, andb_true_r in Hq. by destruct (n_state n).
Qed.

(** what reaches the application.  A frame that [accept_control] hands to the application left the
    exchange untouched, is a whole known frame that is not one of the exchange's own, arrived after
    negotiation, and, when the registry requires authentication for its type, after authentication. *)
Theorem application_frames_gated frame n n' :
  accept_control frame n = (Ok Application, n') ->
  n' = n /\ exists ft payload,
    decode_one frame (mkLimits (max_control_frame_payload (n_local n)) 1) = Ok (Known ft payload, zlen frame) /\
    (ft ∉ exchange_types) /\ is_negotiated (n_state n) = true /\
    (requires_authentication ft = true -> n_state n = Authenticated).
Proof using. apply accept_control_application. Qed.
End safety.
