(* ===== verification/Handshake.v ===== *)
(** * Two endpoints and the wire between them ([crates/vot-session/src/negotiation.rs])

    A client and a server, each a [Negotiation], with every frame one of them
    sends delivered to the other in order.  The handshake completes and leaves
    both with the same picture; a presented capability reaches the server's
    policy, and its answer reaches the client. *)

From S2P Require Import Prelude BTree Cbor Exact Codec Registry FrameCbor FramesSession Frames SessionError Negotiation NegotiationSafety.

Section handshake.
Context `{F : PageFormats}.

(** Frames delivered in order, to an endpoint that must accept each. *)
Fixpoint deliver (frames : list (list Z)) : N (list Accepted) :=
  match frames with
  | [] => ret []
  | f :: rest => let! a := accept_control f in let! later := deliver rest in ret (a :: later)
  end.

(** ** Frames that fit *)

Lemma settings_control s : settings_valid s = true -> 1024 <= max_control_frame_payload s <= HARD_MAX_FRAME_PAYLOAD.
Proof using.
  unfold settings_valid, advertised. simpl. intros Hv. apply andb_prop in Hv as [Hv _]. revert Hv.
  unfold setting_in_range. simpl. unfold HARD_MAX_FRAME_PAYLOAD. lia.
Qed.

(** A registered frame type, whose payload bound does not depend on the receiver's limits. *)
Definition registered (ft : Z) : Prop :=
  is_varint ft /\ is_known ft = true /\ is_skipped ft = false /\
  forall u, payload_bound u ft = payload_bound DEFAULT_MAX_UNKNOWN_PAYLOAD ft.

Lemma frame_exact ft p : is_varint ft -> zlen p <= payload_bound DEFAULT_MAX_UNKNOWN_PAYLOAD ft ->
  frame ft p = Ok (frame_bytes ft p).
Proof using. intros Hv Hl. unfold frame, encoded. by rewrite (writes_frame ft p Hv Hl []). Qed.

Lemma delivered ft p n : registered ft -> settings_valid (n_local n) = true ->
  zlen p <= payload_bound DEFAULT_MAX_UNKNOWN_PAYLOAD ft ->
  accept_control (frame_bytes ft p) n = accept_known ft p n.
Proof using.
  intros (Hv & Hk & Hs & Hb) Hset Hl. unfold accept_control, bind, get, lift.
  set (limits := mkLimits _ 1).
  assert (validate_limits limits = Ok tt) as Hlim.
  { pose proof (settings_control _ Hset). unfold validate_limits, limits. cbn [max_unknown_payload max_frames].
    destruct (Z.ltb_spec HARD_MAX_FRAME_PAYLOAD (max_control_frame_payload (n_local n))); [lia|done]. }
  pose proof (decode_one_written limits (ft, p) [] Hlim) as Hd. unfold decoded_as in Hd. simpl in Hd. rewrite Hs, app_nil_r in Hd.
  rewrite Hd by (split_and!; simpl; [done|by rewrite Hb|by left]). simpl. by rewrite Z.eqb_refl.
Qed.

Lemma within_limit ft p n s : registered ft -> n_peer_settings n = Some s ->
  zlen p <= payload_bound DEFAULT_MAX_UNKNOWN_PAYLOAD ft -> zlen p <= negotiated_payload_limit ft s ->
  within_peer_control_limit n (frame_bytes ft p) = Ok tt.
Proof using.
  intros (Hv & Hk & Hs & Hb) Hn Hl Hneg. unfold within_peer_control_limit, peek_envelope. rewrite Hn. unfold frame_bytes.
  rewrite parse_envelope_written; [|done|done|].
  2: { pose proof (zlen_nonneg p). pose proof (payload_bound_le DEFAULT_MAX_UNKNOWN_PAYLOAD ft).
       unfold is_varint, MAX_QUIC_VARINT, HARD_MAX_FRAME_PAYLOAD in *. lia. }
  cbn zeta. cbn [max_unknown_payload]. rewrite Hb.
  destruct (Z.ltb_spec (payload_bound DEFAULT_MAX_UNKNOWN_PAYLOAD ft) (zlen p)); [lia|].
  rewrite Hk. simpl. destruct (Z.leb_spec (zlen p) (negotiated_payload_limit ft s)); [done|lia].
Qed.

Lemma zlen_varints vs : zlen (varints_bytes vs) <= 8 * zlen vs.
Proof using.
  unfold varints_bytes. induction vs as [|v vs IH]; [done|]. simpl. rewrite zlen_app, zlen_cons.
  pose proof (varint_bytes_len v). lia.
Qed.

Lemma hello_frame_exact h : hello_valid h ->
  hello_frame h = Ok (frame_bytes frame_type.HELLO (hello_bytes h)) /\
  zlen (hello_bytes h) <= payload_bound DEFAULT_MAX_UNKNOWN_PAYLOAD frame_type.HELLO.
Proof using.
  intros Hh. assert (zlen (hello_bytes h) <= payload_bound DEFAULT_MAX_UNKNOWN_PAYLOAD frame_type.HELLO) as Hl.
  { change (payload_bound _ _) with 4096. unfold hello_bytes. rewrite !zlen_app.
    pose proof (varint_bytes_len (draft_revision h)). pose proof (varint_bytes_len (role_value (endpoint_role h))).
    pose proof (varint_bytes_len (zlen (extensions h))). pose proof (zlen_varints (extensions h)).
    destruct Hh as (_ & _ & _ & He). unfold MAX_EXTENSIONS_PER_HELLO in He. lia. }
  split; [|done]. unfold hello_frame, encoded. rewrite (writes_hello h Hh []). by apply frame_exact.
Qed.

Lemma settings_fit s :
  zlen (rows_bytes (advertised s)) <= payload_bound DEFAULT_MAX_UNKNOWN_PAYLOAD frame_type.SETTINGS.
Proof using.
  change (payload_bound _ _) with 16384. pose proof (zlen_rows_bytes (advertised s)) as Hz.
  change (zlen (advertised s)) with 5 in Hz. lia.
Qed.

Lemma settings_frame_exact n : settings_valid (n_local n) = true ->
  settings_frame n = Ok (frame_bytes frame_type.SETTINGS (rows_bytes (advertised (n_local n)))).
Proof using.
  intros Hs. unfold settings_frame, encoded, encode_settings. rewrite (writes_settings_rows _ Hs []).
  apply frame_exact; [by vm_compute|apply settings_fit].
Qed.

Lemma settings_decoded s : settings_valid s = true -> decoded_settings (rows_bytes (advertised s)) = Ok s.
Proof using.
  intros Hs. unfold decoded_settings. rewrite (proj1 (settings_roundtrip s) (rows_bytes (advertised s))); [done|].
  apply (writes_settings_rows _ Hs []).
Qed.

(** A challenge a server may advertise. *)
Definition challenge_ok (c : AuthContext) : Prop := is_auth_context c /\ validate_auth_context c = Ok tt.

Lemma zlen_head_le major v : zlen (head [] major v) <= 9.
Proof using. rewrite zlen_head. unfold head_len. zcases; lia. Qed.

Lemma zlen_uints vs : zlen (concat (map (uint []) vs)) <= 9 * zlen vs.
Proof using.
  induction vs as [|v vs IH]; [done|]. cbn [map concat]. rewrite zlen_app, zlen_cons.
  assert (zlen (uint [] v) <= 9) by apply zlen_head_le. lia.
Qed.

Lemma challenge_encoded c : challenge_ok c -> exists p, encode_auth_context c [] = (Ok tt, p) /\
  zlen p <= 1024 /\ decode_auth_context p = Ok c.
Proof using.
  intros [Ht Hv]. pose proof (auth_context_bounds c Hv) as [Hn Hf]. unfold MAX_AUTH_NONCE, MAX_CAPABILITY_FORMATS in *.
  eassert (emits (E := FrameCbor.Error) (put_map 4 ;! put_uint 0 ;! put_uint 0 ;! put_uint 1 ;! put_bytes (nonce c) ;!
    put_uint 2 ;! put_uint (to_wire (binding c)) ;! put_uint 3 ;! put_array (zlen (formats c)) ;!
    put_each put_uint (formats c)) _) as He by solve_emits.
  eexists. assert (encode_auth_context c [] = (Ok tt, _)) as Henc by (by apply (emits_checked _ _ _ [] _ He)).
  rewrite app_nil_l in Henc.
  match type of Henc with _ = (_, ?p) => assert (zlen p <= 1024) as Hl end.
  { rewrite !zlen_app. pose proof (zlen_uints (formats c)). unfold bytes. rewrite zlen_app.
    assert (forall v, zlen (uint [] v) <= 9) as Hu by (intros v; apply zlen_head_le).
    pose proof (Hu 0). pose proof (Hu 1). pose proof (Hu 2). pose proof (Hu 3). pose proof (Hu (to_wire (binding c))).
    assert (zlen (array [] (zlen (formats c))) <= 9) by apply zlen_head_le.
    assert (zlen (map_head [] 4) <= 9) by apply zlen_head_le.
    pose proof (zlen_head_le BYTES (zlen (nonce c))). lia. }
  split; [exact Henc|]. split; [exact Hl|]. apply auth_context_exact; [|done|exact Henc]. unfold i64_max. lia.
Qed.

(** ** One frame at a time *)

Ltac is_registered := split; [by vm_compute|split; [done|split; [done|intros u; reflexivity]]].

Lemma hello_delivered h n : settings_valid (n_local n) = true -> hello_valid h ->
  endpoint_role h = other_role (n_role n) -> n_peer_hello n = None ->
  n_state n = (match n_role n with Server => ControlReserved | Client => HelloSent end) ->
  accept_control (frame_bytes frame_type.HELLO (hello_bytes h)) n =
    (Ok (Consumed []), set_state HelloSent (set_peer_hello (Some h) n)).
Proof using.
  intros Hs Hh Hr Hp Hst. rewrite delivered; [|is_registered|done|by apply hello_frame_exact].
  change (accept_known _ ?p) with (accept_hello p). unfold accept_hello. run. rewrite Hp, Hst.
  destruct (n_role n); simpl in *; rewrite decode_hello_written, Hr by done; simpl; done.
Qed.

Lemma settings_delivered s n : settings_valid (n_local n) = true -> settings_valid s = true ->
  is_Some (n_peer_hello n) -> n_peer_settings n = None -> n_state n = HelloSent -> n_role n = Client ->
  accept_control (frame_bytes frame_type.SETTINGS (rows_bytes (advertised s))) n =
    (Ok (Consumed []), set_state SettingsExchanged (set_peer_settings (Some s) n)).
Proof using.
  intros Hl Hs [h Hh] Hp Hst Hr.
  rewrite delivered; [|is_registered|done|apply settings_fit].
  change (accept_known _ ?p) with (accept_settings p). unfold accept_settings. run.
  rewrite Hp, Hst, Hh, Hr, settings_decoded by done. done.
Qed.

Lemma settings_ack_exact : settings_ack_frame = Ok (frame_bytes frame_type.SETTINGS_ACK []).
Proof using. reflexivity. Qed.

Lemma auth_context_frame_exact n s p : n_peer_settings n = Some s -> settings_valid s = true ->
  encode_auth_context (n_challenge n) [] = (Ok tt, p) -> zlen p <= 1024 ->
  auth_context_frame n = Ok (frame_bytes frame_type.AUTH_CONTEXT p).
Proof using.
  intros Hn Hs He Hl. pose proof (settings_control s Hs).
  assert (zlen p <= payload_bound DEFAULT_MAX_UNKNOWN_PAYLOAD frame_type.AUTH_CONTEXT) by (change (payload_bound _ _) with 65536; lia).
  unfold auth_context_frame, encoded. rewrite He. simpl map_err. cbv iota beta.
  rewrite (writes_frame frame_type.AUTH_CONTEXT p ltac:(by vm_compute) ltac:(done) []). simpl map_err. cbv iota beta.
  rewrite (within_limit frame_type.AUTH_CONTEXT p n s); [done|is_registered|done|done|].
  change (negotiated_payload_limit frame_type.AUTH_CONTEXT s) with (max_control_frame_payload s). lia.
Qed.

Lemma settings_answered s n p : settings_valid (n_local n) = true -> settings_valid s = true ->
  is_Some (n_peer_hello n) -> n_peer_settings n = None -> n_state n = HelloSent -> n_role n = Server ->
  hello_valid (mkHello DRAFT_REVISION Server (negotiated_extensions n)) ->
  encode_auth_context (n_challenge n) [] = (Ok tt, p) -> zlen p <= 1024 ->
  accept_control (frame_bytes frame_type.SETTINGS (rows_bytes (advertised s))) n =
    (Ok (Consumed
      [frame_bytes frame_type.HELLO (hello_bytes (mkHello DRAFT_REVISION Server (negotiated_extensions n)));
       frame_bytes frame_type.SETTINGS (rows_bytes (advertised (n_local n)));
       frame_bytes frame_type.SETTINGS_ACK []; frame_bytes frame_type.AUTH_CONTEXT p]),
     set_state (if bool_decide (formats (n_challenge n) = []) then Authenticated else Negotiated)
       (set_state SettingsExchanged (set_peer_settings (Some s) n))).
Proof using.
  intros Hl Hs [h Hh] Hp Hst Hr Hv He Hz. rewrite delivered; [|is_registered|done|apply settings_fit].
  change (accept_known _ ?p) with (accept_settings p). unfold accept_settings, bind, get, modify, lift, ret. cbv beta iota.
  rewrite Hp, Hst, Hh, Hr, settings_decoded by done. cbn [map_err]. cbv beta iota.
  rewrite bool_decide_eq_false_2 by (by intros [? [=]]). rewrite bool_decide_eq_true_2, bool_decide_eq_false_2 by done.
  cbn [negb orb]. cbv beta iota zeta. set (n' := set_state SettingsExchanged _).
  change (negotiated_extensions n') with (negotiated_extensions n).
  rewrite (proj1 (hello_frame_exact _ Hv)), (settings_frame_exact n') by done.
  rewrite settings_ack_exact, (auth_context_frame_exact n' s p) by done. done.
Qed.

Lemma ack_delivered n : settings_valid (n_local n) = true -> n_role n = Client -> n_state n = SettingsExchanged ->
  accept_control (frame_bytes frame_type.SETTINGS_ACK []) n = (Ok (Consumed []), set_state Negotiated n).
Proof using.
  intros Hl Hr Hs. rewrite delivered; [|is_registered|done|by vm_compute].
  change (accept_known _ ?p) with accept_settings_ack. unfold accept_settings_ack. run. by rewrite Hr, Hs.
Qed.

Lemma challenge_delivered c p n : settings_valid (n_local n) = true -> n_role n = Client -> n_state n = Negotiated ->
  n_challenge_read n = false -> decode_auth_context p = Ok c -> zlen p <= 1024 ->
  (formats c <> [] -> n_presenting n = true) ->
  accept_control (frame_bytes frame_type.AUTH_CONTEXT p) n =
    (Ok (if bool_decide (formats c = []) then Consumed [] else PresentationRequired),
     set_state (if bool_decide (formats c = []) then Authenticated else Negotiated) (set_challenge c n)).
Proof using.
  intros Hl Hr Hs Hc Hd Hz Hp. rewrite delivered; [|is_registered|done|change (payload_bound _ _) with 65536; lia].
  change (accept_known _ ?p) with (accept_auth_context p). unfold accept_auth_context. run. rewrite Hr, Hs, Hc, Hd. simpl.
  destruct (bool_decide_reflect (formats c = [])) as [|Hf]; [done|]. rewrite (Hp Hf). simpl. unfold set_challenge, set_state. simpl. by rewrite Hs.
Qed.

(** ** The handshake *)

(** Extensions an endpoint may offer. *)
Definition offer_ok (ext : list Z) : Prop :=
  set_sorted ext /\ Forall is_varint ext /\ zlen ext <= MAX_EXTENSIONS_PER_HELLO.

Lemma offer_hello role ext : offer_ok ext -> hello_valid (mkHello DRAFT_REVISION role ext).
Proof using. intros (? & ? & ?). by split_and!. Qed.

Lemma offer_filter (f : Z -> bool) ext : offer_ok ext -> offer_ok (List.filter f ext).
Proof using.
  intros (Hs & Hv & Hl). split_and!.
  - unfold set_sorted in *. induction Hs as [|x l Hl' IH Hx]; [constructor|]. simpl. inversion Hv; subst.
    rewrite zlen_cons in Hl. specialize (IH ltac:(done) ltac:(lia)).
    destruct (f x); [|done]. constructor; [done|]. rewrite List.Forall_forall in *. intros y [Hy _]%filter_In. by apply Hx.
  - rewrite List.Forall_forall in *. intros y [Hy _]%filter_In. by apply Hv.
  - pose proof (filter_length_le f ext). unfold zlen in *. lia.
Qed.

Lemma elem_of_filtered (f : Z -> bool) l x : x ∈ List.filter f l <-> x ∈ l /\ f x = true.
Proof using. rewrite !list_elem_of_In. apply filter_In. Qed.

Lemma agreed_extensions c s hc hs : n_peer_hello s = Some hc -> extensions hc = n_extensions c -> offer_ok (n_extensions c) ->
  offer_ok (n_extensions s) -> n_peer_hello c = Some hs -> extensions hs = negotiated_extensions s ->
  negotiated_extensions c = negotiated_extensions s /\
  forall e, e ∈ negotiated_extensions c <-> e ∈ n_extensions c /\ e ∈ n_extensions s.
Proof using.
  intros Hhc Hec Hoc Hos Hhs Hes.
  assert (forall e, e ∈ negotiated_extensions s <-> e ∈ n_extensions s /\ e ∈ n_extensions c) as Hs.
  { intros e. unfold negotiated_extensions. rewrite Hhc, elem_of_filtered. unfold set_contains.
    by rewrite bool_decide_eq_true, Hec. }
  assert (forall e, e ∈ negotiated_extensions c <-> e ∈ n_extensions c /\ e ∈ n_extensions s) as Hc.
  { intros e. unfold negotiated_extensions at 1. rewrite Hhs, elem_of_filtered. unfold set_contains.
    rewrite bool_decide_eq_true, Hes, Hs. tauto. }
  split; [|done]. apply set_sorted_ext; [| |intros e; rewrite Hc, Hs; tauto].
  - unfold negotiated_extensions. rewrite Hhs. by apply offer_filter.
  - unfold negotiated_extensions. rewrite Hhc. by apply offer_filter.
Qed.

Lemma deliver_cons f rest n a n' : accept_control f n = (Ok a, n') ->
  deliver (f :: rest) n = match deliver rest n' with (Ok l, m) => (Ok (a :: l), m) | (Err e, m) => (Err e, m) end.
Proof using. intros H. simpl. unfold bind, ret. rewrite H. by destruct (deliver rest n') as [[]]. Qed.

Lemma client_begins lc ec presenting : settings_valid lc = true -> offer_ok ec ->
  let c0 := new Client lc ec (no_capability (repeat 0 32)) presenting in
  begin c0 = (Ok [frame_bytes frame_type.HELLO (hello_bytes (mkHello DRAFT_REVISION Client ec));
                  frame_bytes frame_type.SETTINGS (rows_bytes (advertised lc))],
              set_state HelloSent (set_state ControlReserved c0)).
Proof using.
  intros Hl He c0. unfold begin, bind, get, modify, lift, ret. cbv beta iota.
  change (n_state c0) with Connecting. change (n_role c0) with Client. rewrite bool_decide_eq_true_2 by done.
  cbn [negb]. cbv beta iota. rewrite bool_decide_eq_false_2 by done. cbv beta iota zeta.
  change (n_extensions c0) with ec. rewrite (proj1 (hello_frame_exact _ (offer_hello Client ec He))).
  rewrite (settings_frame_exact c0) by done. done.
Qed.

(** Two ends of one exchange, between attempts. *)
Record paired (c s : Negotiation) : Prop := mkPaired {
  pair_roles : n_role c = Client /\ n_role s = Server;
  pair_states : n_state c = Negotiated /\ n_state s = Negotiated;
  pair_local : settings_valid (n_local c) = true /\ settings_valid (n_local s) = true;
  pair_settings : n_peer_settings c = Some (n_local s) /\ n_peer_settings s = Some (n_local c);
  pair_challenge : n_challenge c = n_challenge s /\ formats (n_challenge s) <> [];
  pair_answering : n_presenting c = true /\ n_challenge_read c = true;
  pair_idle : n_open c = None /\ n_open s = None;
  pair_attempts : n_attempted c = n_attempted s }.

(** C18: the handshake completes, and both ends agree.  For any two endpoints with settings inside their
    ranges, any extension offers within bounds and any challenge a server may advertise (one the client is
    prepared to answer), delivering each side's frames to the other in order succeeds at every step.  Both
    ends reach the same state, ready when the challenge asks for nothing and negotiated when it asks for a
    capability; each holds the other's settings exactly, both compute the same negotiated extensions, the
    intersection of the two offers, and when a capability is asked for the two are paired for an attempt. *)
Theorem handshake_completes lc ls ec es challenge presenting :
  settings_valid lc = true -> settings_valid ls = true -> offer_ok ec -> offer_ok es -> challenge_ok challenge ->
  (formats challenge <> [] -> presenting = true) ->
  exists offer reply c1 s1 c2 s2,
    begin (new Client lc ec (no_capability (repeat 0 32)) presenting) = (Ok offer, c1) /\
    begin (server ls es challenge) = (Ok [], s1) /\
    deliver offer s1 = (Ok [Consumed []; Consumed reply], s2) /\
    deliver reply c1 = (Ok [Consumed []; Consumed []; Consumed [];
      if bool_decide (formats challenge = []) then Consumed [] else PresentationRequired], c2) /\
    n_state c2 = (if bool_decide (formats challenge = []) then Authenticated else Negotiated) /\ n_state s2 = n_state c2 /\
    n_peer_settings s2 = Some lc /\ n_peer_settings c2 = Some ls /\ n_challenge c2 = challenge /\
    (formats challenge <> [] -> paired c2 s2) /\
    negotiated_extensions c2 = negotiated_extensions s2 /\
    (forall e, e ∈ negotiated_extensions c2 <-> e ∈ ec /\ e ∈ es).
Proof using.
  intros Hlc Hls Hec Hes Hch Hpres. destruct (challenge_encoded challenge Hch) as (p & He & Hz & Hd).
  set (c0 := new Client lc ec (no_capability (repeat 0 32)) presenting).
  set (s0 := server ls es challenge). set (hc := mkHello DRAFT_REVISION Client ec).
  set (s1 := set_state HelloSent (set_peer_hello (Some hc) (set_state ControlReserved s0))).
  set (answer := mkHello DRAFT_REVISION Server (negotiated_extensions s1)).
  assert (hello_valid answer) as Hans by (apply offer_hello, offer_filter; exact Hes).
  assert (hello_valid hc) as Hhc by (by apply offer_hello).
  set (c1 := set_state HelloSent (set_state ControlReserved c0)).
  do 6 eexists. split; [by apply client_begins|]. split; [reflexivity|]. fold c0 c1 s0 hc.
  split.
  { erewrite deliver_cons by (apply hello_delivered; done). fold s1.
    erewrite deliver_cons by (apply (settings_answered lc s1 p); [done|done|by eexists|done|done|done|exact Hans|done|done]).
    reflexivity. }
  change (n_local s1) with ls. fold answer.
  set (c2 := set_state HelloSent (set_peer_hello (Some answer) c1)).
  set (c3 := set_state SettingsExchanged (set_peer_settings (Some ls) c2)).
  split.
  { erewrite deliver_cons by (apply hello_delivered; done). fold c2.
    erewrite deliver_cons by (apply settings_delivered; by try eexists). fold c3.
    erewrite deliver_cons by (apply ack_delivered; done).
    erewrite deliver_cons by (by apply (challenge_delivered challenge p)). reflexivity. }
  do 5 (split; [done|]). split.
  { intros Hf. specialize (Hpres Hf). constructor; simpl; try done. by rewrite bool_decide_eq_false_2. }
  match goal with |- negotiated_extensions ?c = negotiated_extensions ?s /\ _ => by apply (agreed_extensions c s hc answer) end.
Qed.

(** ** An attempt *)

Lemma session_frame_exact f bytes : is_typed f -> session_frame f = Ok bytes -> exists p,
  encode_payload f [] = (Ok tt, p) /\ bytes = frame_bytes (typed_frame_type f) p /\
  zlen p <= payload_bound DEFAULT_MAX_UNKNOWN_PAYLOAD (typed_frame_type f) /\ zlen p <= i64_max.
Proof using.
  intros Ht. unfold session_frame, encoded. destruct (encode f []) as [[[]|] out] eqn:He; [|done]. intros [= <-].
  destruct (encode_ok f out Ht He) as (p & Hp & -> & Hl). exists p. split_and!; try done.
  pose proof (payload_bound_le DEFAULT_MAX_UNKNOWN_PAYLOAD (typed_frame_type f)). unfold HARD_MAX_FRAME_PAYLOAD in *. mlia.
Qed.

Lemma deliver_one f n a n' : accept_control f n = (Ok a, n') -> deliver [f] n = (Ok [a], n').
Proof using. intros H. by erewrite deliver_cons. Qed.

Lemma request_delivered o bytes n : settings_valid (n_local n) = true -> is_session_open o ->
  session_frame (TSessionOpen o) = Ok bytes -> n_role n = Server -> n_state n = Negotiated ->
  formats (n_challenge n) <> [] -> n_open n = None -> request_fits n o ->
  accept_control bytes n = (Ok AuthorizationRequired, set_open (Some o) (push_attempted (session_id o) n)).
Proof using.
  intros Hl Ht Hf Hr Hs Hc Ho (Hi & Hn & Hfmt & Hb).
  destruct (session_frame_exact (TSessionOpen o) _ Ht Hf) as (p & Hp & -> & Hz & Hz').
  rewrite delivered; [|is_registered|done|done]. change (accept_known _ ?p) with (accept_session_open p).
  unfold accept_session_open. run. rewrite Hr, Hs, Ho. rewrite (bool_decide_eq_false_2 _ Hc). simpl.
  destruct (Z.leb_spec MAX_AUTHENTICATION_ATTEMPTS (zlen (n_attempted n))); [lia|].
  rewrite (proj2 session_open_exact o p Hz' Ht Hp). simpl.
  by rewrite (bool_decide_eq_false_2 _ Hi), (bool_decide_eq_true_2 _ Hfmt), Hb.
Qed.

Lemma acceptance_delivered a o bytes n : settings_valid (n_local n) = true -> is_session_accept a ->
  session_frame (TSessionAccept a) = Ok bytes -> n_role n = Client -> n_state n = Negotiated -> n_open n = Some o ->
  accept_id a = session_id o ->
  accept_control bytes n =
    (Ok (Consumed []), set_state Authenticated (set_granted (Some a) (set_refusal None (set_open None n)))).
Proof using.
  intros Hl Ht Hf Hr Hs Ho Hid. destruct (session_frame_exact (TSessionAccept a) _ Ht Hf) as (p & Hp & -> & Hz & Hz').
  rewrite delivered; [|is_registered|done|done]. change (accept_known _ ?p) with (accept_session_accept p).
  unfold accept_session_accept, answered_attempt, require_answers_attempt. run. rewrite Hr, Hs, Ho. simpl.
  rewrite (proj2 session_accept_exact a p Hz' Ht Hp). simpl. by rewrite (bool_decide_eq_true_2 _ Hid).
Qed.

Lemma refusal_delivered r o bytes n : settings_valid (n_local n) = true -> is_session_reject r ->
  session_frame (TSessionReject r) = Ok bytes -> n_role n = Client -> n_state n = Negotiated -> n_open n = Some o ->
  reject_id r = session_id o ->
  accept_control bytes n = (Ok PresentationRequired, set_refusal (Some r) (set_open None n)).
Proof using.
  intros Hl Ht Hf Hr Hs Ho Hid. destruct (session_frame_exact (TSessionReject r) _ Ht Hf) as (p & Hp & -> & Hz & Hz').
  rewrite delivered; [|is_registered|done|done]. change (accept_known _ ?p) with (accept_session_reject p).
  unfold accept_session_reject, answered_attempt, require_answers_attempt. run. rewrite Hr, Hs, Ho. simpl.
  rewrite (proj2 session_reject_exact r p Hz' Ht Hp). simpl. by rewrite (bool_decide_eq_true_2 _ Hid).
Qed.

(** What the three local calls did, when they succeeded. *)
Lemma present_ok o n frames n' : present o n = (Ok frames, n') -> exists f, frames = [f] /\
  session_frame (TSessionOpen o) = Ok f /\ request_fits n o /\
  n' = set_open (Some o) (set_refusal None (push_attempted (session_id o) n)).
Proof using.
  unfold present. run. destruct (bool_decide (pending_presentation n = None)); simpl; [done|].
  destruct (Z.eqb_spec (attempts_remaining n) 0) as [|Ha]; simpl; [done|].
  destruct (bool_decide_reflect (session_id o ∈ n_attempted n)); simpl; [done|].
  destruct (bool_decide_reflect (capability_format o ∈ formats (n_challenge n))); simpl; [|done].
  destruct (binding_proof_agrees _ _) eqn:Hb; simpl; [|done].
  destruct (session_frame _) as [f|]; simpl; [|done].
  destruct (within_peer_control_limit _ _); simpl; [|done]. intros [= <- <-]. exists f. split_and!; try done.
  split_and!; try done. unfold attempts_remaining in Ha. lia.
Qed.

Lemma grant_ok scope n frames n' : grant scope n = (Ok frames, n') -> exists o f, n_open n = Some o /\ frames = [f] /\
  session_frame (TSessionAccept (mkSessionAccept (session_id o) scope)) = Ok f /\
  n' = set_state Authenticated (set_open None (set_granted (Some (mkSessionAccept (session_id o) scope)) n)).
Proof using.
  unfold grant. run. destruct (n_open n) as [o|]; simpl; [|done].
  destruct (session_frame _) as [f|] eqn:Hf; simpl; [|done].
  destruct (within_peer_control_limit _ _); simpl; [|done]. intros [= <- <-]. by exists o, f.
Qed.

Lemma refuse_ok reason detail n frames n' : refuse reason detail n = (Ok frames, n') -> exists o f,
  n_open n = Some o /\ frames = [f] /\
  session_frame (TSessionReject (mkSessionReject (session_id o) reason detail)) = Ok f /\ n' = set_open None n.
Proof using.
  unfold refuse. run. destruct (n_open n) as [o|]; simpl; [|done].
  destruct (session_frame _) as [f|] eqn:Hf; simpl; [|done].
  destruct (within_peer_control_limit _ _); simpl; [|done]. intros [= <- <-]. by exists o, f.
Qed.

(** an attempt reaches the policy and its answer comes back.  Between paired endpoints, a request the
    client's [present] accepts is one the server accepts too: its policy is asked to decide on exactly that
    request under exactly the challenge the client answered.  A grant the server can send makes both ends
    ready with the same grant.  A refusal the server can send reaches the client with its reason, leaves the
    two paired again, and costs one attempt. *)
Theorem attempt_is_answered c s request frames c1 :
  paired c s -> is_session_open request -> present request c = (Ok frames, c1) ->
  exists s1, deliver frames s = (Ok [AuthorizationRequired], s1) /\
    pending_authorization s1 = Some (n_challenge c, request) /\
    (forall scope answer s2, byte_list scope -> grant scope s1 = (Ok answer, s2) ->
       exists c2, deliver answer c1 = (Ok [Consumed []], c2) /\ n_state c2 = Authenticated /\ n_state s2 = Authenticated /\
         n_granted c2 = Some (mkSessionAccept (session_id request) scope) /\ n_granted s2 = n_granted c2) /\
    (forall reason detail answer s2, is_u64 reason -> byte_list detail -> utf8_valid detail = true ->
       refuse reason detail s1 = (Ok answer, s2) ->
       exists c2, deliver answer c1 = (Ok [PresentationRequired], c2) /\ paired c2 s2 /\
         n_refusal c2 = Some (mkSessionReject (session_id request) reason detail) /\
         attempts_remaining c2 = attempts_remaining c - 1).
Proof using.
  intros [[Hrc Hrs] [Hsc Hss] [Hlc Hls] [Hpc Hps] [Hch Hf] [Hpr Hrd] [Hoc Hos] Hat] Ht Hp.
  destruct (present_ok _ _ _ _ Hp) as (f & -> & Hsf & Hfit & ->). pose proof Ht as ((Hid & Hidl) & _).
  assert (request_fits s request) as Hfit' by (unfold request_fits in *; by rewrite <- Hat, <- Hch).
  eexists. split; [by apply deliver_one, request_delivered|]. split; [by rewrite Hch|]. split.
  - intros scope answer s2 Hb Hg. destruct (grant_ok _ _ _ _ Hg) as (o & g & [= <-] & -> & Hgf & ->).
    eexists. split; [apply deliver_one; eapply acceptance_delivered; try done; split; [by split|done || by split_and!]|done].
  - intros reason detail answer s2 Hu Hb Hutf Hg. destruct (refuse_ok _ _ _ _ _ Hg) as (o & g & [= <-] & -> & Hgf & ->).
    eexists. split; [apply deliver_one; eapply refusal_delivered; try done; split; [by split|done || by split_and!]|]. split_and!; [|done|].
    + constructor; simpl; try done. by rewrite Hat.
    + unfold attempts_remaining. simpl. rewrite zlen_snoc. destruct Hfit as (_ & Hn & _).
      unfold MAX_AUTHENTICATION_ATTEMPTS in *. pose proof (zlen_nonneg (n_attempted c)). lia.
Qed.
(** A frame this endpoint encoded can only be too large for the peer. *)
Lemma limit_error f bytes n e : is_typed f -> session_frame f = Ok bytes ->
  within_peer_control_limit n bytes = Err e -> is_peer_fault (kind e) = false.
Proof using.
  intros Ht Hf. destruct (session_frame_exact f bytes Ht Hf) as (p & _ & -> & Hl & _).
  destruct (typed_type_facts f) as (Hv & Hk & Hs & Hb).
  unfold within_peer_control_limit, peek_envelope, frame_bytes. destruct (n_peer_settings n) as [s|]; [|done].
  rewrite parse_envelope_written; [|done|done|].
  2: { pose proof (zlen_nonneg p). pose proof (payload_bound_le DEFAULT_MAX_UNKNOWN_PAYLOAD (typed_frame_type f)).
       unfold is_varint, MAX_QUIC_VARINT, HARD_MAX_FRAME_PAYLOAD in *. lia. }
  cbn zeta. cbn [max_unknown_payload]. rewrite Hb.
  destruct (Z.ltb_spec (payload_bound DEFAULT_MAX_UNKNOWN_PAYLOAD (typed_frame_type f)) (zlen p)); [lia|].
  rewrite Hk. simpl. destruct (_ <=? _); [done|]. by intros [= <-].
Qed.

(** a local answer that fails changes nothing.  A request that cannot be presented, a grant that cannot
    be sent and a refusal that cannot be sent leave the exchange exactly as it was, so the caller can make
    another; and a request that cannot be presented is never blamed on the peer, so it never closes the
    session. *)
Theorem failed_answers_change_nothing n :
  (forall request e n', present request n = (Err e, n') ->
     n' = n /\ (is_session_open request -> is_peer_fault (kind e) = false)) /\
  (forall scope e n', grant scope n = (Err e, n') -> n' = n) /\
  (forall reason detail e n', refuse reason detail n = (Err e, n') -> n' = n).
Proof using.
  split_and!.
  - intros o e n'. unfold present. run. destruct (bool_decide (pending_presentation n = None)); simpl; [by intros [= <- <-]|].
    destruct (attempts_remaining n =? 0); simpl; [by intros [= <- <-]|].
    destruct (bool_decide (session_id o ∈ n_attempted n)); simpl; [by intros [= <- <-]|].
    destruct (bool_decide (capability_format o ∈ formats (n_challenge n))); simpl; [|by intros [= <- <-]].
    destruct (binding_proof_agrees _ _); simpl; [|by intros [= <- <-]].
    destruct (session_frame _) as [f|] eqn:Hf; simpl.
    + destruct (within_peer_control_limit n f) as [|e'] eqn:Hw; simpl; [done|]. intros [= <- <-]. split; [done|].
      intros Ht. by apply (limit_error (TSessionOpen o) f n).
    + intros [= <- <-]. split; [done|]. intros _. unfold session_frame in Hf. destruct (encoded _); simplify_eq/=. done.
  - intros scope e n'. unfold grant. run. destruct (n_open n) as [o|]; simpl; [|by intros [= _ <-]].
    destruct (session_frame _) as [f|]; simpl; [|by intros [= _ <-]].
    destruct (within_peer_control_limit n f); simpl; [done|by intros [= _ <-]].
  - intros reason detail e n'. unfold refuse. run. destruct (n_open n) as [o|]; simpl; [|by intros [= _ <-]].
    destruct (session_frame _) as [f|]; simpl; [|by intros [= _ <-]].
    destruct (within_peer_control_limit n f); simpl; [done|by intros [= _ <-]].
Qed.
End handshake.

(** ** A concrete exchange *)

Definition demo_challenge : AuthContext := mkAuthContext (repeat 7 16) ProofOfPossession [2].
Definition demo_request : SessionOpen := mkSessionOpen (repeat 9 16) 2 [1; 2; 3] [] [5].

Lemma demo_challenge_ok : challenge_ok demo_challenge.
Proof. split; [split; by apply (bool_decide_unpack (Forall _ _))|by vm_compute]. Qed.

Lemma demo_offer_ok : offer_ok [1; 8].
Proof. split_and!; [repeat constructor|by apply (bool_decide_unpack (Forall _ _))|by vm_compute]. Qed.

Definition demo_client0 : Negotiation := presenting_client default_settings [1; 8].
Definition demo_server0 : Negotiation := server default_settings [8] demo_challenge.
Definition ok_frames (r : result (list (list Z)) Error) : list (list Z) := match r with Ok l => l | Err _ => [] end.
Definition demo_offer : list (list Z) := Eval vm_compute in ok_frames (begin demo_client0).1.
Definition demo_server : Negotiation := Eval vm_compute in (deliver demo_offer (begin demo_server0).2).2.
Definition demo_reply : list (list Z) := Eval vm_compute in
  match (deliver demo_offer (begin demo_server0).2).1 with Ok [_; Consumed reply] => reply | _ => [] end.
Definition demo_client : Negotiation := Eval vm_compute in (deliver demo_reply (begin demo_client0).2).2.
Definition demo_open : list Z := Eval vm_compute in
  match ok_frames (present (F := any_pages) demo_request demo_client).1 with [f] => f | _ => [] end.
Definition demo_pending : Negotiation := Eval vm_compute in (accept_control demo_open demo_server).2.

Lemma demo_paired : paired demo_client demo_server.
Proof. constructor; vm_compute; done. Qed.

Lemma handshake_completes_witness : exists c2 s2, n_state s2 = n_state c2 /\ paired c2 s2.
Proof.
  destruct (handshake_completes default_settings default_settings [1; 8] [1; 8] demo_challenge true) as
    (offer & reply & c1 & s1 & c2 & s2 & _ & _ & _ & _ & _ & Hs & _ & _ & _ & Hp & _);
    [by vm_compute|by vm_compute|apply demo_offer_ok|apply demo_offer_ok|apply demo_challenge_ok|done|].
  exists c2, s2. split; [exact Hs|by apply Hp].
Defined.

Lemma attempt_is_answered_witness : exists s1, pending_authorization s1 = Some (demo_challenge, demo_request).
Proof.
  destruct (attempt_is_answered (F := any_pages) demo_client demo_server demo_request [demo_open]
    (present (F := any_pages) demo_request demo_client).2) as (s1 & _ & Hp & _); [apply demo_paired| |by vm_compute|].
  - repeat split; try (by apply (bool_decide_unpack (Forall _ _))); by vm_compute.
  - exists s1. exact Hp.
Defined.

Lemma failed_answers_change_nothing_witness :
  exists e, present (F := any_pages) demo_request demo_pending = (Err e, demo_pending).
Proof.
  destruct (failed_answers_change_nothing (F := any_pages) demo_pending) as (Hp & _).
  destruct (present (F := any_pages) demo_request demo_pending) as [[frames|e] n'] eqn:He;
    [vm_compute in He; discriminate|]. destruct (Hp _ _ _ He) as [-> _]. by exists e.
Defined.

(** ** The safety theorems on the concrete exchange *)

Definition demo_hello : list Z := Eval vm_compute in nth 0 demo_offer [].
Definition demo_settings : list Z := Eval vm_compute in nth 1 demo_offer [].

Lemma demo_server_reachable : reachable (F := any_pages) demo_server0 demo_pending.
Proof.
  assert (demo_pending = call (F := any_pages) (CReceive demo_open) (call (F := any_pages) (CReceive demo_settings)
    (call (F := any_pages) (CReceive demo_hello) (call (F := any_pages) CBegin demo_server0)))) as -> by (by vm_compute).
  assert (forall f, bool_decide (Forall is_u8 f) && (zlen f <=? i64_max) = true -> byte_list f /\ zlen f <= i64_max) as Hf.
  { intros f [Hb%bool_decide_eq_true Hl%Z.leb_le]%andb_true_iff. done. }
  do 4 (apply reach_call; [|try exact I; apply Hf; by vm_compute]). apply reach_start.
Qed.

Definition demo_granted : Negotiation := Eval vm_compute in (grant (F := any_pages) [] demo_pending).2.

Lemma demo_granted_reachable : reachable (F := any_pages) demo_server0 demo_granted.
Proof.
  assert (demo_granted = call (F := any_pages) (CGrant []) demo_pending) as -> by (by vm_compute).
  apply reach_call; [apply demo_server_reachable|by vm_compute].
Qed.

Lemma negotiation_refines_protocol_witness :
  transition None demo_server0 (call (F := any_pages) (CReceive demo_hello) demo_server0) /\
  n_granted (call (F := any_pages) (CReceive demo_hello) demo_server0) = n_granted demo_server0.
Proof.
  destruct (negotiation_refines_protocol (F := any_pages) (CReceive demo_hello) demo_server0) as [Ht Hf].
  - split; [by apply (bool_decide_unpack (Forall _ _))|by vm_compute].
  - split; [exact Ht|]. apply Hf. by vm_compute.
Defined.

Lemma ready_means_authenticated_witness : exists a o, n_granted demo_granted = Some a /\
  past (F := any_pages) demo_server0 demo_granted (fun c before => answers c before o a).
Proof.
  destruct (ready_means_authenticated (F := any_pages) Server default_settings [8] demo_challenge false demo_granted)
    as (_ & _ & Hr); [apply demo_granted_reachable|].
  destruct (Hr ltac:(by vm_compute)) as (_ & _ & _ & [Hf|(a & o & Ha & _ & _ & _ & c & n0 & H1 & H2 & H3 & H4 & _)]);
    [vm_compute in Hf; discriminate|].
  exists a, o. split; [exact Ha|]. exists c, n0. split; [exact H1|]. split; [exact H2|]. split; [exact H3|exact H4].
Defined.

Lemma exchange_is_write_once_witness : n_challenge (call (F := any_pages) (CReceive demo_open) demo_pending) = n_challenge demo_pending.
Proof.
  apply (exchange_is_write_once (F := any_pages) (CReceive demo_open) demo_pending).
  - split; [by apply (bool_decide_unpack (Forall _ _))|by vm_compute].
  - by left.
Defined.

Lemma gate_opens_only_witness : exists o scope, CGrant [] = CGrant scope /\ n_open demo_pending = Some o.
Proof.
  destruct (gate_opens_only (F := any_pages) demo_pending (CGrant []))
    as [(o & scope & Hc & Ho & _)|[Hs _]].
  - exact I.
  - by vm_compute.
  - by vm_compute.
  - exists o, scope. split; [exact Hc|exact Ho].
  - vm_compute in Hs. discriminate.
Defined.

Lemma application_frames_gated_witness : exists ft, requires_authentication ft = true -> n_state demo_granted = Authenticated.
Proof.
  destruct (application_frames_gated (0x2d :: [0]) demo_granted demo_granted) as (_ & ft & _ & _ & _ & _ & Ha);
    [by vm_compute|]. exists ft. exact Ha.
Defined.

(** C37: [grant] asks only whether a request is held, not whether the exchange is
    still open: a server whose peer broke the exchange while a request was
    pending is closed, [Session::pending_authorization] shows nothing, and a
    late [grant] still succeeds and moves the closed exchange to ready. *)
Theorem grant_reopens_closed : exists n frames n',
  reachable (F := any_pages) demo_server0 n /\ n_state n = Closed /\
  grant (F := any_pages) [] n = (Ok frames, n') /\ n_state n' = Authenticated.
Proof.
  exists (call (F := any_pages) CAbandon demo_pending), (ok_frames (grant (F := any_pages) [] (abandon demo_pending)).1),
    (grant (F := any_pages) [] (abandon demo_pending)).2.
  split; [apply reach_call; [apply demo_server_reachable|exact I]|]. by vm_compute.
Qed.
