(* ===== verification/SessionPolicy.v ===== *)
(** * Per-frame checks and the pre-readiness buffer
    ([crates/vot-session/src/frame_policy.rs], [pending.rs], and the events of
    [vot-transport-api])

    [check_frame] is the one place a negotiated limit is applied, in both
    directions.  [PendingEvents] holds what a peer sent before readiness, within
    a bound on bytes and on count. *)

From S2P Require Import Prelude BTree Codec Registry SessionError Negotiation.

(** ** Events a carrier delivers *)

Inductive DatagramSendState := Queued | Sent | Acknowledged | SuspectedLost | Canceled.

Inductive Event :=
| EConnected (connection : Z)
| EDisconnected (connection : Z)
| EControl (bytes : list Z)
| EReliable (stream sequence : Z) (bytes : list Z)
| EAcknowledged (stream sequence : Z)
| EDatagramState (context : Z) (state : DatagramSendState)
| EDatagram (bytes : list Z).

(** ** Lanes, directions and limits *)

Definition lane_allowed (lanes : list Z) (stream limit : Z) (side : Side) : result unit Error :=
  if set_contains stream lanes || (zlen lanes <? limit) then Ok tt else
  Err (mkError (EK_LaneLimitExceeded limit side) error_code.RESOURCE_LIMIT).

Definition carries (lane : Lane) (ft : Z) : bool :=
  let payload := ft =? frame_type.DATA_RECORD in
  match lane with Control => negb payload | Reliable => payload end.

Definition is_exchange_frame (ft : Z) : bool :=
  (ft =? frame_type.HELLO) || (ft =? frame_type.SETTINGS) || (ft =? frame_type.SETTINGS_ACK) ||
  (ft =? frame_type.AUTH_CONTEXT) || (ft =? frame_type.SESSION_OPEN) || (ft =? frame_type.SESSION_ACCEPT) ||
  (ft =? frame_type.SESSION_REJECT).

Definition sender_role (local : EndpointRole) (side : Side) : EndpointRole :=
  match local, side with
  | role, Peer => role
  | Client, Local => Server
  | Server, Local => Client
  end.

Definition direction_allowed (ft : Z) (local_role : EndpointRole) (push : bool) (side : Side) : bool :=
  let sender := sender_role local_role side in
  let publisher := if push then Client else Server in
  let requester := if push then Server else Client in
  if (ft =? frame_type.PACKAGE_DESCRIPTOR) || (ft =? frame_type.MANIFEST_PAGE) || (ft =? frame_type.PROGRESSIVE_PAGE) ||
     (ft =? frame_type.SEAL) || (ft =? frame_type.PROOF_BUNDLE) || (ft =? frame_type.DATA_RECORD)
  then bool_decide (sender = publisher) else
  if (ft =? frame_type.MANIFEST_REQUEST) || (ft =? frame_type.HAVE) || (ft =? frame_type.RANGE_REQUEST) ||
     (ft =? frame_type.RANGE_CANCEL)
  then bool_decide (sender = requester) else true.

Definition check_direction (ft : Z) (negotiation : Negotiation) (local_role : EndpointRole) (side : Side) : result unit Error :=
  let push := extension_is_negotiated negotiation extension_id.PUSH in
  if direction_allowed ft local_role push side then Ok tt else
  Err (mkError (EK_FrameFromWrongRole ft (sender_role local_role side) side) error_code.MALFORMED_FRAME).

(** [ExtensionPolicy::Negotiated] carries the negotiation, so it is passed. *)
Definition check_frame (frame : list Z) (settings : Settings) (negotiation : Negotiation) (lane : Lane) (side : Side)
    (local_role : EndpointRole) (enforce_direction : bool) : result unit Error :=
  let limits := mkLimits (max_control_frame_payload settings) 1 in
  let? envelope := map_err decode_error (peek_envelope frame limits) in
  let ft := Codec.frame_type envelope in
  if negb (total_length envelope =? zlen frame) then
    Err (mkError (EK_NotExactlyOneFrame ft (total_length envelope) (zlen frame) side) error_code.MALFORMED_FRAME) else
  if negb (carries lane ft) then
    Err (mkError (EK_FrameOnTheWrongLane ft lane side) error_code.MALFORMED_FRAME) else
  if (match side with Peer => true | Local => false end) && is_exchange_frame ft then
    Err (mkError (EK_NegotiationFrameFromApplication ft) error_code.MALFORMED_FRAME) else
  let? _ := (match required_extension ft with
    | Some extension => if extension_is_negotiated negotiation extension then Ok tt else
        Err (mkError (EK_ExperimentNotNegotiated ft extension side) error_code.EXPERIMENT_NOT_NEGOTIATED)
    | None => Ok tt
    end) in
  let payload := payload_length envelope in
  let limit := negotiated_payload_limit ft settings in
  if limit <? payload then
    Err (mkError (EK_FrameExceedsLimit ft payload limit side) error_code.FRAME_TOO_LARGE) else
  if enforce_direction then check_direction ft negotiation local_role side else Ok tt.

(** ** The pre-readiness buffer *)

Definition MAX_DATA_RECORD_WIRE_BYTES : Z := 256 * 1024 + 16.
Definition DEFAULT_PENDING_RECORD_BYTES : Z := 4 * MAX_DATA_RECORD_WIRE_BYTES.
Definition DEFAULT_PENDING_RECORD_COUNT : Z := 64.

Record PendingEvents := mkPendingEvents { events : list Event; p_bytes : Z; byte_limit : Z; count_limit : Z }.

Definition pending_default : PendingEvents :=
  mkPendingEvents [] 0 DEFAULT_PENDING_RECORD_BYTES DEFAULT_PENDING_RECORD_COUNT.

Definition cost (event : Event) : Z := match event with EReliable _ _ bytes => zlen bytes | _ => 0 end.

Definition exhausted_error (self : PendingEvents) : Error :=
  mkError (EK_PendingRecordsExhausted (p_bytes self) (zlen (events self))) error_code.RESOURCE_LIMIT.

Definition try_hold (event : Event) : M PendingEvents Error unit := fun self =>
  match checked_add (p_bytes self) (cost event) with
  | None => (Err (exhausted_error self), self)
  | Some next =>
      if (byte_limit self <? next) || (count_limit self <=? zlen (events self)) then (Err (exhausted_error self), self) else
      (Ok tt, mkPendingEvents (events self ++ [event]) next (byte_limit self) (count_limit self))
  end.

Definition pop_front (self : PendingEvents) : option Event * PendingEvents :=
  match events self with
  | [] => (None, self)
  | event :: rest =>
      (Some event, mkPendingEvents rest (Z.max 0 (p_bytes self - cost event)) (byte_limit self) (count_limit self))
  end.

(** The buffer's books: what it says it holds is what it holds. *)
Definition charged (p : PendingEvents) : Prop := p_bytes p = foldr (fun e acc => cost e + acc) 0 (events p).

(** The buffer [p'] left of [p] has the same limits, and where it holds more than
    [p] did it is within them. *)
Definition within_limits (p p' : PendingEvents) : Prop :=
  byte_limit p' = byte_limit p /\ count_limit p' = count_limit p /\
  p_bytes p' <= Z.max (p_bytes p) (byte_limit p) /\ zlen (events p') <= Z.max (zlen (events p)) (count_limit p).

#[export] Instance within_limits_preorder : PreOrder within_limits.
Proof. split; [intros p; unfold within_limits; lia|]. intros p1 p2 p3 (? & ? & ? & ?) (? & ? & ? & ?). unfold within_limits. lia. Qed.

Lemma cost_nonneg e : 0 <= cost e.
Proof. destruct e; simpl; try done. apply zlen_nonneg. Qed.

Lemma costs_snoc l e : foldr (fun e acc => cost e + acc) 0 (l ++ [e]) = foldr (fun e acc => cost e + acc) 0 l + cost e.
Proof. rewrite foldr_app. simpl. induction l as [|x l IH]; simpl; [lia|]. rewrite IH. lia. Qed.

Lemma costs_nonneg l : 0 <= foldr (fun e acc => cost e + acc) 0 l.
Proof. induction l as [|x l IH]; simpl; [done|]. pose proof (cost_nonneg x). lia. Qed.

Lemma try_hold_spec e p r p' : charged p -> try_hold e p = (r, p') ->
  charged p' /\ within_limits p p' /\
  match r with
  | Ok _ => events p' = events p ++ [e]
  | Err error => p' = p /\ error = exhausted_error p /\
      (byte_limit p < p_bytes p + cost e \/ u64_max < p_bytes p + cost e \/ count_limit p <= zlen (events p))
  end.
Proof.
  intros Hb. unfold try_hold. destruct (checked_add (p_bytes p) (cost e)) as [next|] eqn:Ha.
  - apply checked_add_Some in Ha as [-> Ha].
    destruct (Z.ltb_spec (byte_limit p) (p_bytes p + cost e)), (Z.leb_spec (count_limit p) (zlen (events p))); simpl;
      intros [= <- <-]; split_and!; try done; try (by auto).
    + unfold charged in *. simpl. rewrite costs_snoc. lia.
    + unfold within_limits. simpl. rewrite zlen_app. unfold zlen in *. simpl. lia.
  - intros [= <- <-]. split_and!; try done. right. left. apply checked_add_None in Ha. lia.
Qed.

Lemma pop_front_spec p e p' : charged p -> pop_front p = (e, p') ->
  charged p' /\ within_limits p p' /\
  events p = (match e with Some e => e :: events p' | None => events p' end) /\ (e = None -> events p = []).
Proof.
  intros Hb. unfold pop_front. destruct (events p) as [|x l] eqn:He; intros [= <- <-]; [by rewrite He|].
  unfold charged in *. rewrite He in Hb. simpl in *. pose proof (cost_nonneg x). pose proof (costs_nonneg l).
  split_and!; try done; [lia|]. unfold within_limits. rewrite He, zlen_cons. simpl. lia.
Qed.
