(* ===== verification/Session.v ===== *)
(** * A session over a transport ([crates/vot-session/src/session.rs])

    The negotiation gates the data plane of a carrier.  The carrier is whatever
    implements [TransportAdapter]; a session owns it, and every call is a
    computation over the session's state that may fail with what it changed
    kept, as in the source. *)

From S2P Require Import Prelude BTree Codec Registry FramesSession Frames SessionError Negotiation SessionPolicy.

Definition RETIRED_NONCE_ONLY_CAPABILITY_FORMAT : Z := 0x0001.
Definition CHANNEL_BOUND_CAPABILITY_FORMAT : Z := 0x0002.

Inductive Authentication :=
| NotRequired (nonce : list Z)
| Capability (challenge : AuthContext)
| Presenting.

(** The trait a backend implements.  [poll] returns the next event, if any. *)
Class TransportAdapter (A : Type) := mkTransportAdapter {
  a_channel_binding : A -> result (list Z) TransportError;
  a_send_control : list Z -> M A TransportError unit;
  a_send_control_shared : list Z -> M A TransportError unit;
  a_send_reliable : Z -> list Z -> M A TransportError unit;
  a_send_reliable_shared : Z -> list Z -> M A TransportError unit;
  a_send_datagram : Z -> list Z -> M A TransportError unit;
  a_flush : M A TransportError unit;
  a_poll : A -> option Event * A;
  a_close : Z -> M A TransportError unit;
  a_receive_limits : A -> option ReceiveLimits;
  a_set_control_payload_limit : Z -> M A TransportError unit }.

Definition match_settings (limits : ReceiveLimits) (settings : Settings) : bool :=
  (control_payload limits =? max_control_frame_payload settings) && (rl_lanes limits =? reliable_lane_limit settings).

Record Session (A : Type) := mkSession {
  adapter : A;
  negotiation : Negotiation;
  authentication : Authentication;
  outbound : list (list Z);
  pending : PendingEvents;
  lanes : list Z;
  control_limit_applied : bool;
  channel_binding : option (list Z);
  binding_required : bool;
  required_extensions : list Z;
  expected_granted_scope : option (list Z) }.
Arguments mkSession {A}.
Arguments adapter {A}. Arguments negotiation {A}. Arguments authentication {A}. Arguments outbound {A}.
Arguments pending {A}. Arguments lanes {A}. Arguments control_limit_applied {A}. Arguments channel_binding {A}.
Arguments binding_required {A}. Arguments required_extensions {A}. Arguments expected_granted_scope {A}.

Section session.
Context {A : Type} `{TA : TransportAdapter A} `{F : PageFormats}.
Local Notation S := (Session A).

(** Assignments to one field. *)
Definition set_adapter (v : A) (s : S) : S := mkSession v (negotiation s) (authentication s) (outbound s) (pending s) (lanes s)
  (control_limit_applied s) (channel_binding s) (binding_required s) (required_extensions s) (expected_granted_scope s).
Definition set_negotiation (v : Negotiation) (s : S) : S := mkSession (adapter s) v (authentication s) (outbound s) (pending s) (lanes s)
  (control_limit_applied s) (channel_binding s) (binding_required s) (required_extensions s) (expected_granted_scope s).
Definition set_outbound (v : list (list Z)) (s : S) : S := mkSession (adapter s) (negotiation s) (authentication s) v (pending s) (lanes s)
  (control_limit_applied s) (channel_binding s) (binding_required s) (required_extensions s) (expected_granted_scope s).
Definition set_pending (v : PendingEvents) (s : S) : S := mkSession (adapter s) (negotiation s) (authentication s) (outbound s) v (lanes s)
  (control_limit_applied s) (channel_binding s) (binding_required s) (required_extensions s) (expected_granted_scope s).
Definition set_lanes (v : list Z) (s : S) : S := mkSession (adapter s) (negotiation s) (authentication s) (outbound s) (pending s) v
  (control_limit_applied s) (channel_binding s) (binding_required s) (required_extensions s) (expected_granted_scope s).
Definition set_control_limit_applied (v : bool) (s : S) : S := mkSession (adapter s) (negotiation s) (authentication s) (outbound s) (pending s) (lanes s)
  v (channel_binding s) (binding_required s) (required_extensions s) (expected_granted_scope s).
Definition set_binding (v : option (list Z)) (required : bool) (s : S) : S := mkSession (adapter s) (negotiation s) (authentication s) (outbound s) (pending s) (lanes s)
  (control_limit_applied s) v required (required_extensions s) (expected_granted_scope s).
Definition set_required_extensions (v : list Z) (s : S) : S := mkSession (adapter s) (negotiation s) (authentication s) (outbound s) (pending s) (lanes s)
  (control_limit_applied s) (channel_binding s) (binding_required s) v (expected_granted_scope s).
Definition set_expected_granted_scope (v : option (list Z)) (s : S) : S := mkSession (adapter s) (negotiation s) (authentication s) (outbound s) (pending s) (lanes s)
  (control_limit_applied s) (channel_binding s) (binding_required s) (required_extensions s) v.

Definition self : M S Error S := fun s => (Ok s, s).
Definition update (f : S -> S) : M S Error unit := fun s => (Ok tt, f s).

(** A call on the adapter, the negotiation or the buffer the session owns. *)
Definition on_adapter {X} (m : M A TransportError X) : M S TransportError X := fun s =>
  let '(r, a) := m (adapter s) in (r, set_adapter a s).
Definition on_negotiation {X} (m : M Negotiation Error X) : M S Error X := fun s =>
  let '(r, n) := m (negotiation s) in (r, set_negotiation n s).
Definition on_pending {X} (m : M PendingEvents Error X) : M S Error X := fun s =>
  let '(r, p) := m (pending s) in (r, set_pending p s).
(** [let _ = ...]. *)
Definition ignore {X E} (m : M S E X) : M S Error unit := fun s => (Ok tt, (m s).2).

(** ** Construction *)

Definition session_new (a : A) (n : Negotiation) (auth : Authentication) : S :=
  mkSession a n auth [] pending_default [] false None false [] None.

Definition session_client (a : A) (local : Settings) (extensions : list Z) (auth : Authentication) : S :=
  session_new a (match auth with Presenting => presenting_client local extensions | _ => client local extensions end) auth.

Definition session_server (a : A) (local : Settings) (extensions : list Z) (auth : Authentication) : S :=
  let challenge := match auth with
    | Capability challenge => challenge
    | NotRequired nonce => no_capability nonce
    | Presenting => no_capability (repeat 0 32)
    end in
  session_new a (server local extensions challenge) auth.

Definition set_pending_limits (bytes count : Z) : M S Error unit :=
  if (bytes <? MAX_DATA_RECORD_WIRE_BYTES) || (count =? 0)
  then fail (mkError (EK_Transport InvalidConfiguration) error_code.RESOURCE_LIMIT) else
  update (fun s => set_pending (mkPendingEvents (events (pending s)) (p_bytes (pending s)) bytes count) s).

Definition require_extension (extension : Z) (s : S) : S :=
  set_required_extensions (set_insert extension (required_extensions s)) s.
Definition require_granted_scope (scope : list Z) (s : S) : S := set_expected_granted_scope (Some scope) s.

(** ** Sending *)

(** The loop of [drain_outbound], over the frames still queued. *)
Fixpoint drain_frames (frames : list (list Z)) : M S TransportError unit :=
  match frames with
  | [] => ret tt
  | frame :: rest => fun s =>
      match on_adapter (a_send_control frame) s with
      | (Ok _, s) => drain_frames rest (set_outbound rest s)
      | (Err OutboundQueueFull, s) => (Ok tt, s)
      | (Err error, s) => (Err error, s)
      end
  end.

Definition drain_outbound : M S Error unit :=
  let! s := self in
  mmap_err transport_error (drain_frames (outbound s)) ;!
  mmap_err transport_error (on_adapter a_flush).

Definition submit (frames : list (list Z)) : M S Error unit :=
  update (fun s => set_outbound (outbound s ++ frames) s) ;!
  drain_outbound.

Definition may_negotiate (s : S) : bool := negb (bool_decide (n_state (negotiation s) = Closed)).

Definition flush : M S Error unit :=
  let! s := self in
  if may_negotiate s then drain_outbound else mmap_err transport_error (on_adapter a_flush).

Definition require_sendable (s : S) : result unit Error :=
  if negb (is_ready (n_state (negotiation s))) then
    Err (mkError (EK_NotReady (n_state (negotiation s))) error_code.MALFORMED_FRAME) else
  if negb (bool_decide (outbound s = [])) then
    Err (mkError (EK_HandshakeUnsent (zlen (outbound s))) error_code.RESOURCE_LIMIT) else Ok tt.

Definition check_outbound (s : S) (frame : list Z) (lane : Lane) : result unit Error :=
  match n_peer_settings (negotiation s) with
  | None => Ok tt
  | Some peer => check_frame frame peer (negotiation s) lane Peer (n_role (negotiation s)) (is_ready (n_state (negotiation s)))
  end.

Definition check_inbound (s : S) (frame : list Z) (lane : Lane) : result unit Error :=
  check_frame frame (n_local (negotiation s)) (negotiation s) lane Local (n_role (negotiation s))
    (is_ready (n_state (negotiation s))).

Definition require_lane_allowed (s : S) (stream : Z) : result unit Error :=
  match n_peer_settings (negotiation s) with
  | None => Ok tt
  | Some peer => lane_allowed (lanes s) stream (reliable_lane_limit peer) Peer
  end.

Definition send_control_by (m : list Z -> M A TransportError unit) (frame : list Z) : M S Error unit :=
  let! s := self in
  lift (require_sendable s) ;!
  lift (check_outbound s frame Control) ;!
  mmap_err transport_error (on_adapter (m frame)).
Definition send_control : list Z -> M S Error unit := send_control_by a_send_control.
Definition send_control_shared : list Z -> M S Error unit := send_control_by a_send_control_shared.

Definition send_reliable_by (m : Z -> list Z -> M A TransportError unit) (stream : Z) (record : list Z) : M S Error unit :=
  let! s := self in
  lift (require_sendable s) ;!
  lift (check_outbound s record Reliable) ;!
  lift (require_lane_allowed s stream) ;!
  mmap_err transport_error (on_adapter (m stream record)) ;!
  update (fun s => set_lanes (set_insert stream (lanes s)) s).
Definition send_reliable : Z -> list Z -> M S Error unit := send_reliable_by a_send_reliable.
Definition send_reliable_shared : Z -> list Z -> M S Error unit := send_reliable_by a_send_reliable_shared.

Definition send_datagram (context : Z) (payload : list Z) : M S Error unit :=
  let! s := self in
  lift (require_sendable s) ;!
  mmap_err transport_error (on_adapter (a_send_datagram context payload)).

(** ** Starting *)

Definition check_authentication_role (s : S) : result unit Error :=
  let role := n_role (negotiation s) in
  let fits := match authentication s, role with
    | NotRequired _, _ | Capability _, Server | Presenting, Client => true
    | Capability _, Client | Presenting, Server => false
    end in
  if fits then Ok tt else Err (mkError (EK_AuthenticationRoleMismatch role) error_code.MALFORMED_FRAME).

Definition check_local_authentication_policy (s : S) : result unit Error :=
  match authentication s with
  | Capability challenge =>
      let advertises_retired := bool_decide (RETIRED_NONCE_ONLY_CAPABILITY_FORMAT ∈ formats challenge) in
      let leaves_active_unbound := bool_decide (CHANNEL_BOUND_CAPABILITY_FORMAT ∈ formats challenge) &&
        (match binding challenge with ProofOfPossession => false | BindingNone => true end) in
      if advertises_retired || leaves_active_unbound
      then Err (mkError EK_AuthContextInvalid error_code.MALFORMED_FRAME) else Ok tt
  | _ => Ok tt
  end.

Definition check_receive_limit (s : S) : result unit Error :=
  match a_receive_limits (adapter s) with
  | None => Ok tt
  | Some backend =>
      let advertised := n_local (negotiation s) in
      if match_settings backend advertised then Ok tt else
      Err (mkError (EK_ReceiveLimitMismatch (max_control_frame_payload advertised) (reliable_lane_limit advertised) backend)
        error_code.INVALID_SETTING)
  end.

Definition session_begin : M S Error unit :=
  let! s := self in
  lift (check_authentication_role s) ;!
  lift (check_local_authentication_policy s) ;!
  update (fun s => set_binding (channel_binding s)
    (match authentication s with
     | Capability challenge => match binding challenge with ProofOfPossession => true | BindingNone => false end
     | _ => false
     end) s) ;!
  let! s := self in
  lift (check_receive_limit s) ;!
  let! frames := on_negotiation begin in
  submit frames.

(** ** Receiving *)

(** A peer fault closes the carrier and the exchange. *)
Definition session_fail (error : Error) (s : S) : S :=
  if is_peer_fault (kind error) then
    let s := set_binding None false s in
    let s := (on_adapter (a_close (close_code error)) s).2 in
    set_negotiation (abandon (negotiation s)) s
  else s.

Definition latch_required_channel_binding : M S Error unit := fun s =>
  if binding_required s && bool_decide (channel_binding s = None) then
    match a_channel_binding (adapter s) with
    | Ok b => (Ok tt, set_binding (Some b) (binding_required s) s)
    | Err transport =>
        let error := transport_error transport in
        let s := set_binding None (binding_required s) s in
        let s := (on_adapter (a_close (close_code error)) s).2 in
        (Err error, set_negotiation (abandon (negotiation s)) s)
    end
  else (Ok tt, s).

Definition apply_peer_limits (s : S) : S :=
  match n_peer_settings (negotiation s) with
  | None => s
  | Some peer =>
      match on_adapter (a_set_control_payload_limit (max_control_frame_payload peer)) s with
      | (Ok _, s) => set_control_limit_applied true s
      | (Err _, s) => set_control_limit_applied false s
      end
  end.

Definition session_accept_control (bytes : list Z) : M S Error (option Event) :=
  let! accepted := on_negotiation (accept_control bytes) in
  match accepted with
  | Application => ret (Some (EControl bytes))
  | Consumed reply =>
      let! s := self in
      let negotiated := is_negotiated (n_state (negotiation s)) in
      submit reply ;!
      (if negotiated then update apply_peer_limits else ret tt) ;!
      ret None
  | AuthorizationRequired => latch_required_channel_binding ;! ret None
  | PresentationRequired =>
      let! s := self in
      (match pending_presentation (negotiation s) with
       | Some challenge =>
           match binding challenge with
           | ProofOfPossession =>
               update (fun s => set_binding (channel_binding s) true s) ;! latch_required_channel_binding
           | BindingNone => ret tt
           end
       | None => ret tt
       end) ;!
      ret None
  end.

Definition hold (record : Event) : M S Error unit := on_pending (try_hold record).

Definition take_pending : M S Error (option Event) := fun s =>
  let '(e, p) := pop_front (pending s) in
  let s := set_pending p s in
  match e with
  | None => (Ok None, s)
  | Some (EReliable stream sequence bytes) =>
      match check_inbound s bytes Reliable with
      | Ok _ => (Ok (Some (EReliable stream sequence bytes)), s)
      | Err error => (Err error, s)
      end
  | Some event => (Ok (Some event), s)
  end.

(** The body of the [Event::Control] arm; [Some r] returns [r] from [poll],
    [None] goes on. *)
Definition on_control (bytes : list Z) : M S Error (option (option Event)) :=
  let! s := self in
  lift (check_inbound s bytes Control) ;!
  let! accepted := session_accept_control bytes in
  let! s := self in
  let n := negotiation s in
  if bool_decide (is_Some (n_refusal n)) then ret (Some None) else
  if (match expected_granted_scope s, n_granted n with
      | Some expected, Some granted => negb (bool_decide (granted_scope granted = expected))
      | _, _ => false
      end)
  then
    let error := mkError EK_GrantedScopeMismatch error_code.AUTHORIZATION_FAILED in
    update (session_fail error) ;! fail error
  else
  match (if bool_decide (is_Some (n_peer_hello n))
         then List.find (fun e => negb (extension_is_negotiated n e)) (required_extensions s) else None) with
  | Some extension =>
      ignore (on_adapter (a_close error_code.EXPERIMENT_NOT_NEGOTIATED)) ;!
      update (fun s => set_negotiation (abandon (negotiation s)) s) ;!
      fail (mkError (EK_RequiredExtensionUnavailable extension) error_code.EXPERIMENT_NOT_NEGOTIATED)
  | None =>
      match accepted with
      | Some event => ret (Some (Some event))
      | None => ret None
      end
  end.

(** One event of the [while let] of [poll_inner]. *)
Definition on_event (event : Event) : M S Error (option (option Event)) :=
  match event with
  | EConnected connection => latch_required_channel_binding ;! ret (Some (Some (EConnected connection)))
  | EControl bytes => on_control bytes
  | EDisconnected connection =>
      update (set_binding None false) ;!
      on_negotiation carrier_closed ;!
      ret (Some (Some (EDisconnected connection)))
  | EReliable stream sequence bytes =>
      let! s := self in
      lift (check_inbound s bytes Reliable) ;!
      if is_ready (n_state (negotiation s)) then ret (Some (Some (EReliable stream sequence bytes))) else
      hold (EReliable stream sequence bytes) ;! ret None
  | EDatagram bytes =>
      let! s := self in
      if is_ready (n_state (negotiation s)) && extension_is_negotiated (negotiation s) extension_id.DATAGRAM_FEC
      then ret (Some (Some (EDatagram bytes))) else ret None
  | other => ret (Some (Some other))
  end.

(** Releases a held record once the session is ready. *)
Definition release : M S Error (option Event) :=
  let! s := self in
  if is_ready (n_state (negotiation s)) then take_pending else ret None.

(** The [while let Some(event) = self.adapter.poll()] loop; [None] when the
    fuel runs out. *)
Fixpoint poll_events (fuel : nat) (s : S) : option (result (option Event) Error * S) :=
  match fuel with
  | O => None
  | Datatypes.S fuel =>
      let '(event, a) := a_poll (adapter s) in
      let s := set_adapter a s in
      match event with
      | None => Some (Ok None, s)
      | Some event =>
          match on_event event s with
          | (Err error, s) => Some (Err error, s)
          | (Ok (Some answer), s) => Some (Ok answer, s)
          | (Ok None, s) =>
              match release s with
              | (Err error, s) => Some (Err error, s)
              | (Ok (Some event), s) => Some (Ok (Some event), s)
              | (Ok None, s) => poll_events fuel s
              end
          end
      end
  end.

Fixpoint drain_lifecycle (fuel : nat) (s : S) : option (result (option Event) Error * S) :=
  match fuel with
  | O => None
  | Datatypes.S fuel =>
      let '(event, a) := a_poll (adapter s) in
      let s := set_adapter a s in
      match event with
      | None => Some (Ok None, s)
      | Some (EControl _ | EReliable _ _ _ | EDatagram _) => drain_lifecycle fuel s
      | Some lifecycle => Some (Ok (Some lifecycle), s)
      end
  end.

Definition poll_inner (fuel : nat) (s : S) : option (result (option Event) Error * S) :=
  match (if may_negotiate s && negb (bool_decide (outbound s = [])) then drain_outbound else ret tt) s with
  | (Err error, s) => Some (Err error, s)
  | (Ok _, s) =>
      if bool_decide (n_state (negotiation s) = Closed) then drain_lifecycle fuel s else
      match release s with
      | (Err error, s) => Some (Err error, s)
      | (Ok (Some event), s) => Some (Ok (Some event), s)
      | (Ok None, s) => poll_events fuel s
      end
  end.

Definition poll (fuel : nat) (s : S) : option (result (option Event) Error * S) :=
  match poll_inner fuel s with
  | Some (Err error, s) => Some (Err error, session_fail error s)
  | polled => polled
  end.

(** ** Authentication *)

Definition session_pending_authorization (s : S) : option (AuthContext * SessionOpen) :=
  if bool_decide (n_state (negotiation s) = Closed) then None else pending_authorization (negotiation s).
Definition session_pending_presentation (s : S) : option AuthContext :=
  if bool_decide (n_state (negotiation s) = Closed) then None else pending_presentation (negotiation s).

Definition session_present (request : SessionOpen) : M S Error unit :=
  if capability_format request =? RETIRED_NONCE_ONLY_CAPABILITY_FORMAT then
    fail (mkError (EK_PresentationInvalid (PE_FormatRetired (capability_format request))) error_code.AUTHENTICATION_FAILED) else
  let! reply := on_negotiation (present request) in
  submit reply.

Definition session_grant (scope : list Z) : M S Error unit :=
  let! reply := on_negotiation (grant scope) in
  submit reply.

Definition session_refuse (reason : Z) (detail : list Z) : M S Error unit :=
  let! reply := on_negotiation (refuse reason detail) in
  submit reply.
End session.
