(* ===== verification/SessionSafety.v ===== *)
(** * What a session guarantees ([crates/vot-session/src/session.rs])

    Most facts are about what a call may do to a session, whatever its result.
    [stable R m] says that [m] relates the states before and after it by the
    preorder [R]; [Steps] is a preorder every primitive step but polling the
    carrier respects, and a [Discipline] one that polling respects too; then every
    call does ([poll_stable] and the lemmas before it). *)

From S2P Require Import Prelude BTree Cbor Codec Registry FramesSession Frames SessionError Negotiation NegotiationSafety SessionPolicy Session.

Section stable.
Context {A : Type} `{TA : TransportAdapter A} `{F : PageFormats}.
Local Notation S := (Session A).

Definition stable {E X} (R : S -> S -> Prop) (m : M S E X) : Prop := forall s, R s (m s).2.

(** What a caller or a carrier may hand a session. *)
Definition delivered_bytes (e : Event) : Prop :=
  match e with EControl b | EReliable _ _ b | EDatagram b => byte_list b /\ zlen b <= i64_max | _ => True end.

(** A backend that delivers bytes. *)
Definition delivers : Prop := forall a e a', a_poll a = (Some e, a') -> delivered_bytes e.

Class Steps (R : S -> S -> Prop) := mkSteps {
  d_pre :: PreOrder R;
  d_submit : forall frames, stable R (submit frames);
  d_flush : stable R (on_adapter a_flush);
  d_close : forall code, stable R (on_adapter (a_close code));
  d_limit : forall n, stable R (on_adapter (a_set_control_payload_limit n));
  d_applied : forall b s, R s (set_control_limit_applied b s);
  d_binding : forall b r s, R s (set_binding b r s);
  d_call : forall c s, callable c -> R s (set_negotiation (call c (negotiation s)) s);
  d_hold : forall stream sequence bytes, stable R (hold (EReliable stream sequence bytes));
  d_take : stable R take_pending }.

Class Discipline (R : S -> S -> Prop) := mkDiscipline {
  d_steps :: Steps R;
  d_poll : forall s, R s (set_adapter (a_poll (adapter s)).2 s) }.

Section rules.
Context (R : S -> S -> Prop) `{HR : !PreOrder R}.

Lemma stable_ret {E X} (x : X) : stable (E := E) R (ret x).
Proof using HR. intros s. simpl. reflexivity. Qed.
Lemma stable_fail {E X} (e : E) : stable (X := X) R (fail e).
Proof using HR. intros s. simpl. reflexivity. Qed.
Lemma stable_lift {E X} (r : result X E) : stable R (lift r).
Proof using HR. intros s. simpl. reflexivity. Qed.
Lemma stable_self : stable R self.
Proof using HR. intros s. simpl. reflexivity. Qed.
Lemma stable_bind {E X Y} (m : M S E X) (k : X -> M S E Y) : stable R m -> (forall x, stable R (k x)) -> stable R (bind m k).
Proof using HR.
  intros Hm Hk s. unfold bind. pose proof (Hm s) as H. destruct (m s) as [[x|e] s']; simpl in *; [|done].
  etrans; [exact H|apply Hk].
Qed.
Lemma stable_map_err {E G X} (f : E -> G) (m : M S E X) : stable R m -> stable R (mmap_err f m).
Proof using. intros Hm s. unfold mmap_err. pose proof (Hm s). by destruct (m s) as [[]]. Qed.
Lemma stable_update f : (forall s, R s (f s)) -> stable R (update f).
Proof using. intros Hf s. apply Hf. Qed.
Lemma stable_ignore {E X} (m : M S E X) : stable R m -> stable R (ignore m).
Proof using. intros Hm s. apply Hm. Qed.
End rules.

Section steps.
Context (R : S -> S -> Prop) `{D : !Steps R}.

Lemma drain_outbound_stable : stable R drain_outbound.
Proof using D.
  intros s. pose proof (d_submit (R := R) [] s) as H. unfold submit, bind, update in H.
  by rewrite app_nil_r in H; destruct s.
Qed.

Lemma negotiation_stable {X} (m : M Negotiation Error X) c : (forall n, (m n).2 = call c n) ->
  callable c -> stable R (on_negotiation m).
Proof using D.
  intros Hm Hc s. unfold on_negotiation. pose proof (Hm (negotiation s)) as H. destruct (m (negotiation s)) as [r n]. simpl in *.
  subst n. by apply d_call.
Qed.

Lemma latch_stable : stable R latch_required_channel_binding.
Proof using D.
  intros s. unfold latch_required_channel_binding. destruct (_ && _); [|simpl; reflexivity].
  destruct (a_channel_binding (adapter s)) as [b|e]; simpl; [apply d_binding|].
  etrans; [apply (d_binding None (binding_required s))|]. etrans; [apply (d_close (close_code (transport_error e)))|].
  apply (d_call CAbandon). exact I.
Qed.

Lemma fail_stable e s : R s (session_fail e s).
Proof using D.
  unfold session_fail. destruct (is_peer_fault (kind e)); [|reflexivity].
  etrans; [apply (d_binding None false)|]. etrans; [apply (d_close (close_code e))|]. apply (d_call CAbandon). exact I.
Qed.

Lemma apply_limits_stable s : R s (apply_peer_limits s).
Proof using D.
  unfold apply_peer_limits. destruct (n_peer_settings (negotiation s)) as [peer|]; [|reflexivity].
  pose proof (d_limit (R := R) (max_control_frame_payload peer) s) as H.
  destruct (on_adapter _ s) as [[]]; simpl in *; (etrans; [exact H|apply d_applied]).
Qed.

Ltac go := repeat match goal with
  | |- stable _ (bind _ _) => eapply stable_bind; [typeclasses eauto| |intros ?]
  | |- stable _ (mmap_err _ _) => apply stable_map_err
  | |- stable _ (ret _) => apply stable_ret; typeclasses eauto
  | |- stable _ (fail _) => apply stable_fail; typeclasses eauto
  | |- stable _ (lift _) => apply stable_lift; typeclasses eauto
  | |- stable _ self => apply stable_self; typeclasses eauto
  | |- stable _ (update apply_peer_limits) => apply stable_update, apply_limits_stable
  | |- stable _ (update (session_fail _)) => apply stable_update, fail_stable
  | |- stable _ (update _) => apply stable_update; intros ?; first [apply d_binding | apply (d_call CAbandon); exact I]
  | |- stable _ (ignore _) => apply stable_ignore
  | |- stable _ (submit _) => apply d_submit
  | |- stable _ (on_adapter a_flush) => apply d_flush
  | |- stable _ (on_adapter (a_close _)) => apply d_close
  | |- stable _ (hold _) => apply d_hold
  | |- stable _ take_pending => apply d_take
  | |- stable _ drain_outbound => apply drain_outbound_stable
  | |- stable _ latch_required_channel_binding => apply latch_stable
  | |- stable _ (match ?x with _ => _ end) => destruct x
  end.

Lemma accept_stable bytes : byte_list bytes -> zlen bytes <= i64_max -> stable R (session_accept_control bytes).
Proof using D.
  intros Hb Hl. unfold session_accept_control. eapply stable_bind; [typeclasses eauto| |intros accepted; go].
  by apply (negotiation_stable _ (CReceive bytes)).
Qed.

Lemma release_stable : stable R release.
Proof using D. unfold release. go. Qed.

Lemma on_control_stable bytes : byte_list bytes -> zlen bytes <= i64_max -> stable R (on_control bytes).
Proof using D. intros Hb Hl. unfold on_control. go. by apply accept_stable. Qed.

Lemma on_event_stable e : delivered_bytes e -> stable R (on_event e).
Proof using D.
  intros He. unfold on_event. destruct e; go; [by apply (negotiation_stable _ CCarrierClosed)|].
  by apply on_control_stable; destruct He.
Qed.

End steps.

Section discipline.
Context (R : S -> S -> Prop) `{D : !Discipline R} (HD : delivers).

Lemma poll_events_stable fuel s r s' : poll_events fuel s = Some (r, s') -> R s s'.
Proof using D HD.
  revert s. induction fuel as [|fuel IH]; intros s; simpl; [done|].
  pose proof (d_poll (R := R) s) as Hp. destruct (a_poll (adapter s)) as [[e|] a] eqn:Ha; simpl in Hp; [|by intros [= _ <-]].
  pose proof (on_event_stable R e (HD _ _ _ Ha) (set_adapter a s)) as He.
  destruct (on_event e (set_adapter a s)) as [[[answer|]|error] s1]; simpl in He;
    [intros [= _ <-]; by etrans| |intros [= _ <-]; by etrans].
  pose proof (release_stable R s1) as Hr. destruct (release s1) as [[[e'|]|error] s2]; simpl in Hr;
    [intros [= _ <-]| |intros [= _ <-]]; try (etrans; [exact Hp|]; by etrans).
  intros H%IH. etrans; [exact Hp|]. etrans; [exact He|]. by etrans.
Qed.

Lemma drain_lifecycle_stable fuel s r s' : drain_lifecycle fuel s = Some (r, s') -> R s s'.
Proof using D.
  revert s. induction fuel as [|fuel IH]; intros s; simpl; [done|].
  pose proof (d_poll (R := R) s) as Hp. destruct (a_poll (adapter s)) as [[[]|] a]; simpl in Hp;
    first [by intros [= _ <-] | intros H%IH; by etrans].
Qed.

Lemma poll_stable fuel s r s' : poll fuel s = Some (r, s') -> R s s'.
Proof using D HD.
  assert (forall r1 s1, poll_inner fuel s = Some (r1, s1) -> R s s1) as Hin.
  { intros r1 s1. unfold poll_inner. set (m := (if may_negotiate s && negb (bool_decide (outbound s = [])) then drain_outbound else ret tt)).
    assert (stable R m) as Hm.
    { unfold m. destruct (_ && _); [apply drain_outbound_stable; typeclasses eauto|apply stable_ret; typeclasses eauto]. }
    pose proof (Hm s) as H. destruct (m s) as [[[]|e] s2]; simpl in H; [|by intros [= _ <-]].
    destruct (bool_decide (n_state (negotiation s2) = Closed)); [intros H2%drain_lifecycle_stable; by etrans|].
    pose proof (release_stable R s2) as Hr. destruct (release s2) as [[[e'|]|error] s3]; simpl in Hr;
      [intros [= _ <-]; by etrans| |intros [= _ <-]; by etrans].
    intros H3%poll_events_stable. etrans; [exact H|]. by etrans. }
  unfold poll. destruct (poll_inner fuel s) as [[[e|error] s1]|] eqn:Hp; [| |done]; intros [= <- <-].
  - by eapply Hin.
  - etrans; [by eapply Hin|by apply fail_stable, d_steps].
Qed.
End discipline.
End stable.
