(* ===== verification/SessionTheorems.v ===== *)
(** * Sessions: books, surfacing, order and termination ([crates/vot-session/src/session.rs])

    The disciplines of [SessionSafety] instantiated: the session's books, the
    order of what goes on the wire, and the termination of [poll]. *)

From S2P Require Import Prelude BTree Cbor Codec Registry FramesSession Frames SessionError Negotiation NegotiationSafety SessionPolicy Session SessionSafety.

Section books.
Context {A : Type} `{TA : TransportAdapter A} `{F : PageFormats}.
Local Notation S := (Session A).

(** A record held before readiness. *)
Definition is_record (e : Event) : Prop := match e with EReliable _ _ _ => True | _ => False end.

Record session_ok (s : S) : Prop := mkSessionOk {
  so_negotiation : negotiation_ok (negotiation s);
  so_pending : charged (pending s) /\ Forall is_record (events (pending s));
  so_lanes : set_sorted (lanes s);
  so_lane_limit : lanes s <> [] -> exists peer, n_peer_settings (negotiation s) = Some peer /\
    zlen (lanes s) <= reliable_lane_limit peer }.

(** Same books, with another backend, queue or latch. *)
Lemma session_ok_ext s s' : negotiation s' = negotiation s -> pending s' = pending s -> lanes s' = lanes s ->
  session_ok s -> session_ok s'.
Proof using. intros Hn Hp Hl []. constructor; by rewrite ?Hn, ?Hp, ?Hl. Qed.

Definition keeps_ok (s s' : S) : Prop := session_ok s -> session_ok s'.

#[export] Instance keeps_ok_preorder : PreOrder keeps_ok.
Proof using. split; [by intros s H|]. intros a b c H1 H2 H. by apply H2, H1. Qed.

Lemma drain_frames_books frames s :
  negotiation (drain_frames frames s).2 = negotiation s /\ pending (drain_frames frames s).2 = pending s /\
  lanes (drain_frames frames s).2 = lanes s.
Proof using.
  revert s. induction frames as [|f rest IH]; intros s; simpl; [done|].
  unfold on_adapter. destruct (a_send_control f (adapter s)) as [[[]|e] a]; simpl.
  - destruct (IH (set_outbound rest (set_adapter a s))) as (-> & -> & ->). done.
  - by destruct e.
Qed.

Lemma on_adapter_books {X} (m : M A TransportError X) s :
  negotiation (on_adapter m s).2 = negotiation s /\ pending (on_adapter m s).2 = pending s /\
  lanes (on_adapter m s).2 = lanes s.
Proof using. unfold on_adapter. by destruct (m (adapter s)). Qed.

Lemma drain_outbound_books s :
  negotiation (drain_outbound s).2 = negotiation s /\ pending (drain_outbound s).2 = pending s /\
  lanes (drain_outbound s).2 = lanes s.
Proof using.
  unfold drain_outbound, bind, self, mmap_err. pose proof (drain_frames_books (outbound s) s) as H.
  destruct (drain_frames (outbound s) s) as [[[]|e] s1]; simpl in *; [|done].
  pose proof (on_adapter_books a_flush s1) as H1. destruct (on_adapter a_flush s1) as [[[]|e] s2]; simpl in *;
    destruct H as (<- & <- & <-); done.
Qed.

Lemma keeps_ok_of {E X} (m : M S E X) :
  (forall s, negotiation (m s).2 = negotiation s /\ pending (m s).2 = pending s /\ lanes (m s).2 = lanes s) -> stable keeps_ok m.
Proof using. intros H s. destruct (H s) as (? & ? & ?). intros Hok. by eapply session_ok_ext. Qed.

Lemma transition_session g s n' : transition g (negotiation s) n' -> session_ok s -> session_ok (set_negotiation n' s).
Proof using F.
  intros Ht [Hn Hp Hs Hl]. constructor; simpl; try done; [by eapply transition_ok|].
  intros Hne. destruct (Hl Hne) as (peer & Hpeer & Hz). exists peer. split; [|done].
  destruct (transition_kept g _ _ Ht) as (_ & [Hk|Hk] & _); congruence.
Qed.

#[export] Instance keeps_ok_steps : Steps keeps_ok.
Proof using.
  constructor; try typeclasses eauto.
  - intros frames. apply keeps_ok_of. intros s. unfold submit, bind, update.
    destruct (drain_outbound_books (set_outbound (outbound s ++ frames) s)) as (-> & -> & ->). done.
  - apply keeps_ok_of, on_adapter_books.
  - intros code. apply keeps_ok_of, on_adapter_books.
  - intros n. apply keeps_ok_of, on_adapter_books.
  - intros b s Hok. by apply (session_ok_ext s).
  - intros b r s Hok. by apply (session_ok_ext s).
  - intros c s Hc Hok. eapply transition_session; [by apply call_refines_transition|done].
  - intros stream sequence bytes s [Hn [Hp Hf] Hs Hl]. unfold hold, on_pending.
    destruct (try_hold _ (pending s)) as [r p] eqn:Hh. destruct (try_hold_spec _ _ _ _ Hp Hh) as (Hok & _ & Hr).
    constructor; simpl; try done. split; [done|]. destruct r as [[]|e]; [rewrite Hr|by destruct Hr as [-> _]].
    apply Forall_app. split; [done|]. by constructor.
  - intros s [Hn [Hp Hf] Hs Hl]. unfold take_pending. destruct (pop_front (pending s)) as [e p] eqn:Hpop.
    destruct (pop_front_spec _ _ _ Hp Hpop) as (Hok & _ & He & _).
    assert (session_ok (set_pending p s)) as Hs'.
    { constructor; simpl; try done. split; [done|]. rewrite He in Hf. destruct e; [by inversion Hf|done]. }
    destruct e as [[]|]; simpl; try done. by destruct (check_inbound _ _ _).
Qed.

#[export] Instance keeps_ok_discipline : Discipline keeps_ok.
Proof using. split; [typeclasses eauto|]. intros s Hok. by apply (session_ok_ext s). Qed.

(** The buffer a step leaves is within the limits where it grew. *)
Definition keeps_limits (s s' : S) : Prop := charged (pending s) -> charged (pending s') /\ within_limits (pending s) (pending s').

#[export] Instance keeps_limits_preorder : PreOrder keeps_limits.
Proof using.
  split; [by intros s Hs|]. intros s1 s2 s3 H1 H2 Hs. destruct (H1 Hs) as [Hs2 ?], (H2 (proj1 (H1 Hs))) as [Hs3 ?].
  split; [done|by etrans].
Qed.

Lemma keeps_limits_same s s' : pending s' = pending s -> keeps_limits s s'.
Proof using. intros H. unfold keeps_limits. by rewrite H. Qed.

#[export] Instance keeps_limits_discipline : Discipline keeps_limits.
Proof using.
  split; [|intros s; by apply keeps_limits_same]. constructor; try typeclasses eauto; unfold stable.
  - intros frames s. apply keeps_limits_same. unfold submit, bind, update.
    exact (proj1 (proj2 (drain_outbound_books (set_outbound (outbound s ++ frames) s)))).
  - intros s. by apply keeps_limits_same; destruct (on_adapter_books a_flush s) as (_ & ? & _).
  - intros code s. by apply keeps_limits_same; destruct (on_adapter_books (a_close code) s) as (_ & ? & _).
  - intros n s. by apply keeps_limits_same; destruct (on_adapter_books (a_set_control_payload_limit n) s) as (_ & ? & _).
  - intros b s. by apply keeps_limits_same.
  - intros b r s. by apply keeps_limits_same.
  - intros c s _. by apply keeps_limits_same.
  - intros stream sequence bytes s Hp. unfold hold, on_pending. destruct (try_hold _ (pending s)) as [r p] eqn:Hh.
    by destruct (try_hold_spec _ _ _ _ Hp Hh) as (? & ? & _).
  - intros s Hp. unfold take_pending. destruct (pop_front (pending s)) as [e p] eqn:Hpop.
    destruct (pop_front_spec _ _ _ Hp Hpop) as (? & ? & _). destruct e as [[]|]; simpl; try done.
    by destruct (check_inbound _ _ _).
Qed.

(** ** Every call *)

Inductive SessionCall :=
| SBegin | SPoll (fuel : nat) | SFlush
| SSendControl (frame : list Z) | SSendControlShared (frame : list Z)
| SSendReliable (stream : Z) (record : list Z) | SSendReliableShared (stream : Z) (record : list Z)
| SSendDatagram (context : Z) (payload : list Z)
| SPresent (request : SessionOpen) | SGrant (scope : list Z) | SRefuse (reason : Z) (detail : list Z)
| SSetPendingLimits (bytes count : Z) | SRequireExtension (extension : Z) | SRequireScope (scope : list Z).

(** The session a call leaves; [None] only for a [poll] out of fuel. *)
Definition session_call (c : SessionCall) (s : S) : option S :=
  match c with
  | SBegin => Some (session_begin s).2
  | SPoll fuel => option_map snd (poll fuel s)
  | SFlush => Some (flush s).2
  | SSendControl frame => Some (send_control frame s).2
  | SSendControlShared frame => Some (send_control_shared frame s).2
  | SSendReliable stream record => Some (send_reliable stream record s).2
  | SSendReliableShared stream record => Some (send_reliable_shared stream record s).2
  | SSendDatagram context payload => Some (send_datagram context payload s).2
  | SPresent request => Some (session_present request s).2
  | SGrant scope => Some (session_grant scope s).2
  | SRefuse reason detail => Some (session_refuse reason detail s).2
  | SSetPendingLimits bytes count => Some (set_pending_limits bytes count s).2
  | SRequireExtension extension => Some (require_extension extension s)
  | SRequireScope scope => Some (require_granted_scope scope s)
  end.

Inductive session_reachable (start : S) : S -> Prop :=
| sreach_start : session_reachable start start
| sreach_call s c s' : session_reachable start s -> session_call c s = Some s' ->
    session_reachable start s'.

Section rules_for_calls.
Context (R : S -> S -> Prop) `{D : !Steps R}.

Lemma negotiated_then_submit m c : (forall n, (m n).2 = call c n) -> forall s, callable c ->
  R s ((let! reply := on_negotiation m in submit reply) s).2.
Proof using D.
  intros Hm s Hc. unfold bind, on_negotiation. pose proof (Hm (negotiation s)) as Heq.
  destruct (m (negotiation s)) as [[frames|e] n]; simpl in *; subst n; [|by apply d_call].
  etrans; [by apply d_call|apply d_submit].
Qed.

Lemma begin_stable : stable R session_begin.
Proof using D.
  intros s. unfold session_begin. unfold bind, self, lift, update.
  destruct (check_authentication_role s) as [[]|]; simpl; [|reflexivity].
  destruct (check_local_authentication_policy s) as [[]|]; simpl; [|reflexivity].
  set (s1 := set_binding _ _ s). assert (R s s1) as H1 by apply d_binding.
  destruct (check_receive_limit s1) as [[]|]; simpl; [|done].
  etrans; [exact H1|]. by apply (negotiated_then_submit begin CBegin).
Qed.

Lemma flush_stable : stable R flush.
Proof using D.
  intros s. unfold flush, bind, self. destruct (may_negotiate s); [by apply drain_outbound_stable|].
  apply stable_map_err, d_flush.
Qed.

Lemma present_stable request : stable R (session_present request).
Proof using D.
  intros s. unfold session_present. destruct (_ =? _); [reflexivity|]. by apply (negotiated_then_submit _ (CPresent request)).
Qed.

Lemma refuse_stable reason detail : stable R (session_refuse reason detail).
Proof using D. intros s. by apply (negotiated_then_submit _ (CRefuse reason detail)). Qed.

Lemma grant_stable scope : stable R (session_grant scope).
Proof using D. intros s. by apply (negotiated_then_submit _ (CGrant scope)). Qed.
End rules_for_calls.

Lemma sendable_ready s : session_ok s -> require_sendable s = Ok tt ->
  n_state (negotiation s) = Authenticated /\ outbound s = [] /\ is_Some (n_peer_settings (negotiation s)).
Proof using.
  intros [Hn _ _ _]. unfold require_sendable. destruct (n_state (negotiation s)) eqn:Hs; simpl; try done.
  destruct (bool_decide_reflect (outbound s = [])) as [Ho|]; simpl; [|done]. intros _. split_and!; try done.
  apply (ok_peer _ Hn). right. by rewrite Hs.
Qed.

Lemma lane_added s stream : session_ok s -> is_Some (n_peer_settings (negotiation s)) -> require_lane_allowed s stream = Ok tt ->
  exists peer, n_peer_settings (negotiation s) = Some peer /\ zlen (set_insert stream (lanes s)) <= reliable_lane_limit peer.
Proof using.
  intros [_ _ Hs Hl] [peer Hp]. unfold require_lane_allowed. rewrite Hp. unfold lane_allowed, set_contains.
  exists peer. split; [done|]. destruct (bool_decide_reflect (stream ∈ lanes s)) as [Hi|Hi]; simpl in *.
  - rewrite set_insert_old by done. destruct Hl as (peer' & Hp' & ?); [by destruct (lanes s); [inversion Hi|]|]. congruence.
  - destruct (Z.ltb_spec (zlen (lanes s)) (reliable_lane_limit peer)); [|done].
    unfold zlen in *. rewrite length_set_insert_new by done. lia.
Qed.

Lemma send_reliable_ok m stream record : stable keeps_ok (send_reliable_by m stream record).
Proof using.
  intros s Hok. unfold send_reliable_by, bind, self, lift, mmap_err, update.
  destruct (require_sendable s) as [[]|] eqn:Hs; simpl; [|done]. destruct (sendable_ready s Hok Hs) as (_ & _ & Hp).
  destruct (check_outbound s record Reliable) as [[]|]; simpl; [|done].
  destruct (require_lane_allowed s stream) as [[]|] eqn:Hl; simpl; [|done].
  pose proof (on_adapter_books (m stream record) s) as (Hn & Hpe & Hla). pose proof (lane_added s stream Hok Hp Hl) as Hlim.
  assert (session_ok (on_adapter (m stream record) s).2) as Hok1 by (by eapply session_ok_ext).
  destruct (on_adapter (m stream record) s) as [[[]|e] s1]; simpl in *; [|done].
  destruct Hok1 as [? ? Hs1 ?]. constructor; simpl; try done; [by apply set_insert_sorted|]. intros _. by rewrite Hn, Hla.
Qed.

Lemma send_control_ok m frame : stable keeps_ok (send_control_by m frame).
Proof using.
  intros s. unfold send_control_by, bind, self, lift, mmap_err.
  destruct (require_sendable s) as [[]|]; simpl; [|by intros ?]. destruct (check_outbound s frame Control) as [[]|]; simpl; [|by intros ?].
  pose proof (keeps_ok_of (on_adapter (m frame)) (on_adapter_books (m frame)) s) as H.
  by destruct (on_adapter (m frame) s) as [[[]|e] s1].
Qed.

Lemma send_reliable_pending m stream record (s : S) : pending (send_reliable_by m stream record s).2 = pending s.
Proof using.
  unfold send_reliable_by, bind, self, lift, mmap_err, update. destruct (require_sendable s) as [[]|]; simpl; [|done].
  destruct (check_outbound s record Reliable) as [[]|]; simpl; [|done].
  destruct (require_lane_allowed s stream) as [[]|]; simpl; [|done].
  pose proof (on_adapter_books (m stream record) s) as (_ & H & _).
  by destruct (on_adapter (m stream record) s) as [[[]|e] s1].
Qed.

Lemma send_control_pending m frame (s : S) : pending (send_control_by m frame s).2 = pending s.
Proof using.
  unfold send_control_by, bind, self, lift, mmap_err. destruct (require_sendable s) as [[]|]; simpl; [|done].
  destruct (check_outbound s frame Control) as [[]|]; simpl; [|done].
  pose proof (on_adapter_books (m frame) s) as (_ & H & _). by destruct (on_adapter (m frame) s) as [[[]|e] s1].
Qed.

Lemma session_call_ok c s s' : delivers -> session_call c s = Some s' -> session_ok s -> session_ok s'.
Proof using.
  intros HD. destruct c; simpl; intros Heq; try (injection Heq as <-).
  - exact (begin_stable keeps_ok s).
  - destruct (poll fuel s) as [[r s1]|] eqn:Hp; [|done]. injection Heq as <-. exact (poll_stable keeps_ok HD _ _ _ _ Hp).
  - exact (flush_stable keeps_ok s).
  - exact (send_control_ok _ _ s).
  - exact (send_control_ok _ _ s).
  - exact (send_reliable_ok _ _ _ s).
  - exact (send_reliable_ok _ _ _ s).
  - unfold send_datagram, bind, self, lift, mmap_err. destruct (require_sendable s) as [[]|]; simpl; [|done].
    pose proof (keeps_ok_of _ (on_adapter_books (a_send_datagram context payload)) s) as H.
    by destruct (on_adapter (a_send_datagram context payload) s) as [[[]|e] s1].
  - exact (present_stable keeps_ok _ s).
  - exact (grant_stable keeps_ok _ s).
  - exact (refuse_stable keeps_ok _ _ s).
  - unfold set_pending_limits. destruct (_ || _); simpl; [done|]. intros [Hn [Hb Hf] Hs Hl]. by constructor.
  - intros []. by constructor.
  - intros []. by constructor.
Qed.

Lemma session_reachable_ok start s : delivers -> session_reachable start s -> session_ok start -> session_ok s.
Proof using. intros HD. induction 1; [done|]. intros Hok. eauto using session_call_ok. Qed.

Lemma session_new_ok a role local ext challenge presenting auth :
  session_ok (session_new a (new role local ext challenge presenting) auth).
Proof using. constructor; simpl; try done; [apply new_ok|constructor]. Qed.

Lemma session_call_limits c s s' : delivers -> session_call c s = Some s' ->
  (exists bytes count, c = SSetPendingLimits bytes count) \/ keeps_limits s s'.
Proof using.
  intros HD. destruct c; simpl; intros Heq; try (injection Heq as <-).
  12: { left. by eexists _, _. }
  all: right.
  - exact (begin_stable keeps_limits s).
  - destruct (poll fuel s) as [[r s1]|] eqn:Hp; [|done]. injection Heq as <-. exact (poll_stable keeps_limits HD _ _ _ _ Hp).
  - exact (flush_stable keeps_limits s).
  - apply keeps_limits_same, send_control_pending.
  - apply keeps_limits_same, send_control_pending.
  - apply keeps_limits_same, send_reliable_pending.
  - apply keeps_limits_same, send_reliable_pending.
  - apply keeps_limits_same. unfold send_datagram, bind, self, lift, mmap_err. destruct (require_sendable s) as [[]|]; simpl; [|done].
    pose proof (on_adapter_books (a_send_datagram context payload) s) as (_ & H & _).
    by destruct (on_adapter (a_send_datagram context payload) s) as [[[]|e] s1].
  - exact (present_stable keeps_limits _ s).
  - exact (grant_stable keeps_limits _ s).
  - exact (refuse_stable keeps_limits _ _ s).
  - by apply keeps_limits_same.
  - by apply keeps_limits_same.
Qed.

(** C22: a session keeps its books.  Whatever calls are made on a session, in any order and with any arguments,
    and whatever its carrier delivers: the bytes it charges for held records are exactly those of the records
    held; it has sent on no more distinct lanes than the peer advertised; and its negotiation is one the
    handshake allows.  No call but the one that sets the limits changes them, and no call brings what is held
    past them: after it the bytes and the records held are within the limits then in force, or no more than
    before it.  (Limits set below what is already held discard nothing; they bound what is taken next.) *)
Theorem session_books a role local ext challenge presenting auth s :
  delivers -> session_reachable (session_new a (new role local ext challenge presenting) auth) s ->
  p_bytes (pending s) = foldr (fun e acc => cost e + acc) 0 (events (pending s)) /\
  NoDup (lanes s) /\
  (forall peer, n_peer_settings (negotiation s) = Some peer -> zlen (lanes s) <= Z.max 0 (reliable_lane_limit peer)) /\
  negotiation_ok (negotiation s) /\
  (forall c s', session_call c s = Some s' ->
     p_bytes (pending s') <= Z.max (p_bytes (pending s)) (byte_limit (pending s')) /\
     zlen (events (pending s')) <= Z.max (zlen (events (pending s))) (count_limit (pending s')) /\
     ((exists bytes count, c = SSetPendingLimits bytes count) \/
      byte_limit (pending s') = byte_limit (pending s) /\ count_limit (pending s') = count_limit (pending s))).
Proof using.
  intros HD Hr. apply session_reachable_ok in Hr; [|done|apply session_new_ok]. destruct Hr as [Hn [Hch _] Hs Hl].
  split_and!; [done|by apply set_sorted_NoDup| |done|].
  - intros peer Hp. destruct (lanes s) as [|x l] eqn:He; [unfold zlen; simpl; lia|].
    destruct Hl as (peer' & Hp' & Hz); [done|]. assert (peer' = peer) as -> by congruence. lia.
  - intros c s' Hc. destruct (session_call_limits c s s' HD Hc) as [(bytes & count & ->)|Hk].
    + split_and!; [| |left; by eexists _, _]; injection Hc as <-; unfold set_pending_limits; destruct (_ || _); simpl; lia.
    + destruct (Hk Hch) as (_ & -> & -> & ? & ?). auto.
Qed.

(** ** What [poll] shows *)

(** An event the application may see in this session. *)
Definition surfaced (s : S) (e : Event) : Prop :=
  match e with
  | EReliable _ _ bytes => n_state (negotiation s) = Authenticated /\ check_inbound s bytes Reliable = Ok tt
  | EControl bytes => exists ft payload,
      decode_one bytes (mkLimits (max_control_frame_payload (n_local (negotiation s))) 1) = Ok (Known ft payload, zlen bytes) /\
      (ft ∉ exchange_types) /\ is_negotiated (n_state (negotiation s)) = true /\
      (requires_authentication ft = true -> n_state (negotiation s) = Authenticated)
  | EDatagram _ => n_state (negotiation s) = Authenticated /\
      extension_is_negotiated (negotiation s) extension_id.DATAGRAM_FEC = true
  | _ => True
  end.

Lemma accept_surfaces bytes s e s' : session_accept_control bytes s = (Ok (Some e), s') ->
  e = EControl bytes /\ negotiation s' = negotiation s /\ surfaced s' e.
Proof using.
  unfold session_accept_control, on_negotiation, bind at 1. destruct (accept_control bytes (negotiation s)) as [[a|] n] eqn:Ha; [|done].
  destruct a as [reply| | |].
  - unfold bind, self, ret, update. destruct (submit reply _) as [[[]|] s1]; [|done].
    by destruct (is_negotiated _).
  - intros [= <- <-]. destruct (accept_control_application _ _ _ Ha) as [-> Hs]. done.
  - unfold bind, ret. by destruct (latch_required_channel_binding _) as [[[]|] s1].
  - unfold bind, self, ret, update. destruct (pending_presentation _) as [c|]; [|done]. destruct (binding c); [done|].
    by destruct (latch_required_channel_binding _) as [[[]|] s1].
Qed.

Lemma on_control_surfaces bytes s e s' : on_control bytes s = (Ok (Some (Some e)), s') -> surfaced s' e.
Proof using.
  unfold on_control, bind at 1 2 3, self, lift. destruct (check_inbound s bytes Control) as [[]|]; [|done].
  destruct (session_accept_control bytes s) as [[accepted|] s1] eqn:Ha; [|done]. unfold bind, ret, fail, update, ignore.
  destruct (bool_decide (is_Some (n_refusal (negotiation s1)))); [done|].
  destruct (match expected_granted_scope s1 with Some _ => _ | None => _ end); [done|].
  destruct (if bool_decide (is_Some (n_peer_hello (negotiation s1))) then _ else None); [done|].
  destruct accepted as [e'|]; [|done]. intros [= <- <-]. by apply accept_surfaces in Ha as (_ & _ & ?).
Qed.

Lemma on_event_surfaces event s e s' : on_event event s = (Ok (Some (Some e)), s') -> surfaced s' e.
Proof using.
  destruct event as [c|c|b|st sq b|st sq|c st|b]; simpl.
  - unfold bind, ret. destruct (latch_required_channel_binding s) as [[[]|] s1]; [|done]. by intros [= <- <-].
  - unfold bind, ret, update. destruct (on_negotiation carrier_closed _) as [[[]|] s1]; [|done]. by intros [= <- <-].
  - apply on_control_surfaces.
  - unfold bind, self, lift, ret. destruct (check_inbound s b Reliable) as [[]|] eqn:Hc; [|done].
    destruct (is_ready (n_state (negotiation s))) eqn:Hr; [intros [= <- <-]; split; [by destruct (n_state _)|done]|].
    by destruct (hold _ s) as [[[]|] s1].
  - by intros [= <- <-].
  - by intros [= <- <-].
  - unfold bind, self, ret. destruct (is_ready (n_state (negotiation s)) && _) eqn:Hr; [|done]. intros [= <- <-].
    apply andb_true_iff in Hr as [Hr ?]. split; [by destruct (n_state _)|done].
Qed.

Lemma release_surfaces s e s' : session_ok s -> release s = (Ok (Some e), s') -> surfaced s' e.
Proof using.
  intros [_ [Hp Hf] _ _]. unfold release, bind, self. destruct (is_ready (n_state (negotiation s))) eqn:Hr; [|done].
  unfold take_pending. destruct (pop_front (pending s)) as [[ev|] p] eqn:Hpop; [|done].
  destruct (pop_front_spec _ _ _ Hp Hpop) as (_ & _ & He & _). rewrite He in Hf. inversion Hf as [|? ? Hrec _]; subst.
  destruct ev; try done. destruct (check_inbound _ bytes Reliable) as [[]|] eqn:Hc; [|done]. intros [= <- <-].
  split; [simpl; by destruct (n_state _)|done].
Qed.

Lemma poll_events_surfaces fuel s e s' : delivers -> session_ok s ->
  poll_events fuel s = Some (Ok (Some e), s') -> surfaced s' e.
Proof using F.
  intros HD. revert s. induction fuel as [|fuel IH]; intros s Hok; simpl; [done|].
  destruct (a_poll (adapter s)) as [[ev|] a] eqn:Ha; [|done].
  assert (session_ok (set_adapter a s)) as Hok1 by (by apply (session_ok_ext s)).
  pose proof (on_event_stable keeps_ok ev (HD _ _ _ Ha) (set_adapter a s) Hok1) as Hok2.
  destruct (on_event ev (set_adapter a s)) as [[[answer|]|] s1] eqn:He; [|simpl in Hok2|done].
  - intros [= -> <-]. by eapply on_event_surfaces.
  - pose proof (release_stable keeps_ok s1 Hok2) as Hok3.
    destruct (release s1) as [[[e'|]|] s2] eqn:Hr; [|by apply IH|done].
    intros [= -> <-]. exact (release_surfaces s1 e s2 Hok2 Hr).
Qed.

Lemma lifecycle_only fuel s r s' : drain_lifecycle fuel s = Some (r, s') ->
  negotiation s' = negotiation s /\ exists e, r = Ok e /\
    match e with Some (EControl _ | EReliable _ _ _ | EDatagram _) => False | _ => True end.
Proof using.
  revert s. induction fuel as [|fuel IH]; intros s; simpl; [done|]. destruct (a_poll (adapter s)) as [[[]|] a];
    first [intros [= <- <-]; split; [done|eexists; by split] | intros H; exact (IH _ H)].
Qed.

(** C20: what the application sees.  An event that [poll] returns from a session in good order is one the
    application may see: a record only once the session is authenticated and only within the limits this
    endpoint advertised; a control frame only of a type that is not the exchange's own, after negotiation,
    and after authentication if its type requires it; a datagram only once authenticated and with the coding
    extension negotiated. *)
Theorem poll_surfaces fuel s e s' :
  delivers -> session_ok s -> poll fuel s = Some (Ok (Some e), s') -> surfaced s' e.
Proof using F.
  intros HD Hok. unfold poll. destruct (poll_inner fuel s) as [[[o|error] s1]|] eqn:Hp; [|done|done]. intros [= -> <-].
  revert Hp. unfold poll_inner.
  set (m := (if may_negotiate s && negb (bool_decide (outbound s = [])) then drain_outbound else ret tt)).
  assert (stable keeps_ok m) as Hm by (unfold m; destruct (_ && _); [apply drain_outbound_stable; typeclasses eauto|by intros ? ?]).
  pose proof (Hm s Hok) as Hok1. destruct (m s) as [[[]|e1] s2]; simpl in Hok1; [|done].
  destruct (bool_decide (n_state (negotiation s2) = Closed)).
  - intros (_ & e2 & [= <-] & He)%lifecycle_only. by destruct e.
  - pose proof (release_stable keeps_ok s2 Hok1) as Hok2.
    destruct (release s2) as [[[e'|]|] s3] eqn:Hr; [|by apply poll_events_surfaces|done].
    intros [= -> <-]. exact (release_surfaces s2 e s3 Hok1 Hr).
Qed.

(** ** A closed session *)

Lemma poll_closed fuel s r s' : n_state (negotiation s) = Closed -> poll fuel s = Some (r, s') ->
  negotiation s' = negotiation s /\ exists e, r = Ok e /\
    match e with Some (EControl _ | EReliable _ _ _ | EDatagram _) => False | _ => True end.
Proof using.
  intros Hc. unfold poll, poll_inner, may_negotiate. rewrite !bool_decide_eq_true_2 by done. simpl. rewrite bool_decide_eq_true_2 by done.
  destruct (drain_lifecycle fuel s) as [[r1 s1]|] eqn:Hd; [|done].
  destruct (lifecycle_only _ _ _ _ Hd) as (Hn & e & -> & He). intros [= <- <-]. split; [done|by exists e].
Qed.

(** a peer that breaks the protocol ends the session.  When [poll] reports a failure the peer caused,
    the carrier was told to close under the failure's registered code, the latched channel binding is gone
    and the session is closed; from then on [poll] reports nothing but the carrier's lifecycle, whatever the
    carrier still delivers, and nothing of the application's can be sent. *)
Theorem peer_fault_is_final fuel s error s1 :
  poll fuel s = Some (Err error, s1) -> is_peer_fault (kind error) = true ->
  (exists s0, adapter s1 = (a_close (close_code error) (adapter s0)).2) /\
  n_state (negotiation s1) = Closed /\ channel_binding s1 = None /\
  (forall fuel' r s2, poll fuel' s1 = Some (r, s2) -> n_state (negotiation s2) = Closed /\ exists e, r = Ok e /\
     match e with Some (EControl _ | EReliable _ _ _ | EDatagram _) => False | _ => True end) /\
  (forall frame, (send_control frame s1) = (Err (mkError (EK_NotReady Closed) error_code.MALFORMED_FRAME), s1)) /\
  (forall stream record, (send_reliable stream record s1) = (Err (mkError (EK_NotReady Closed) error_code.MALFORMED_FRAME), s1)).
Proof using.
  unfold poll at 1. destruct (poll_inner fuel s) as [[[o|e] s0]|]; [done| |done]. intros [= -> <-] Hf.
  assert (n_state (negotiation (session_fail error s0)) = Closed) as Hc by (unfold session_fail; by rewrite Hf).
  split_and!; [|done| | | |].
  - exists s0. unfold session_fail. rewrite Hf. unfold on_adapter. simpl. by destruct (a_close _ _).
  - unfold session_fail. rewrite Hf. unfold on_adapter. simpl. by destruct (a_close _ _).
  - intros fuel' r s2 H2. destruct (poll_closed _ _ _ _ Hc H2) as [-> He]. done.
  - intros frame. unfold send_control, send_control_by, bind, self, lift, require_sendable. by rewrite Hc.
  - intros stream record. unfold send_reliable, send_reliable_by, bind, self, lift, require_sendable. by rewrite Hc.
Qed.

(** ** [poll] returns *)

Lemma on_adapter_state {X} (m : M A TransportError X) s : (on_adapter m s).2 = set_adapter (m (adapter s)).2 s.
Proof using. unfold on_adapter. by destruct (m (adapter s)). Qed.

(** What a call of [poll] may do to its backend besides polling it. *)
Inductive worked (a : A) : A -> Prop :=
| w_send frame : worked a (a_send_control frame a).2
| w_flush : worked a (a_flush a).2
| w_close code : worked a (a_close code a).2
| w_limit n : worked a (a_set_control_payload_limit n a).2.



Definition works (s s' : S) : Prop := rtc worked (adapter s) (adapter s').

#[export] Instance works_preorder : PreOrder works.
Proof using. split; [intros s; apply rtc_refl|]. intros s1 s2 s3. unfold works. intros ? ?. by etrans. Qed.

Lemma works_on {X} (m : M A TransportError X) s : rtc worked (adapter s) (m (adapter s)).2 -> works s (on_adapter m s).2.
Proof using. unfold works. by rewrite on_adapter_state. Qed.

Lemma drain_frames_works frames s : works s (drain_frames frames s).2.
Proof using.
  revert s. induction frames as [|f rest IH]; intros s; simpl; [apply rtc_refl|].
  assert (works s (on_adapter (a_send_control f) s).2) as Hw by (apply works_on, rtc_once; constructor).
  destruct (on_adapter (a_send_control f) s) as [[[]|e] s1]; simpl in Hw.
  - etrans; [exact Hw|]. apply (IH (set_outbound rest s1)).
  - by destruct e.
Qed.

#[export] Instance works_steps : Steps works.
Proof using.
  constructor; unfold stable.
  - typeclasses eauto.
  - intros frames s. unfold submit, drain_outbound, bind, update, self, mmap_err.
    pose proof (drain_frames_works (outbound s ++ frames) (set_outbound (outbound s ++ frames) s)) as Hd.
    simpl in *. destruct (drain_frames _ _) as [[[]|e] s1]; simpl in *; [|done].
    pose proof (works_on a_flush s1 ltac:(apply rtc_once; constructor)) as Hf.
    destruct (on_adapter a_flush s1) as [[[]|e] s2]; simpl in *; (etrans; [exact Hd|exact Hf]).
  - intros s. apply works_on, rtc_once. constructor.
  - intros code s. apply works_on, rtc_once. constructor.
  - intros n s. apply works_on, rtc_once. constructor.
  - intros b s. apply rtc_refl.
  - intros b r s. apply rtc_refl.
  - intros c s _. apply rtc_refl.
  - intros st sq b s. unfold works, hold, on_pending. destruct (try_hold _ _). apply rtc_refl.
  - intros s. unfold works, take_pending. destruct (pop_front (pending s)) as [[[]|] p]; simpl; try apply rtc_refl.
    destruct (check_inbound _ _ _); apply rtc_refl.
Qed.













(** ** The order of the control stream *)

(** The control frames a backend has taken, in order. *)
Record control_log (log : A -> list (list Z)) : Prop := mkControlLog {
  log_send : forall frame a, log (a_send_control frame a).2 =
    match (a_send_control frame a).1 with Ok _ => log a ++ [frame] | Err _ => log a end;
  log_send_shared : forall frame a, log (a_send_control_shared frame a).2 =
    match (a_send_control_shared frame a).1 with Ok _ => log a ++ [frame] | Err _ => log a end;
  log_reliable : forall stream record a, log (a_send_reliable stream record a).2 = log a;
  log_reliable_shared : forall stream record a, log (a_send_reliable_shared stream record a).2 = log a;
  log_datagram : forall context payload a, log (a_send_datagram context payload a).2 = log a;
  log_flush : forall a, log (a_flush a).2 = log a;
  log_poll : forall a, log (a_poll a).2 = log a;
  log_close : forall code a, log (a_close code a).2 = log a;
  log_limit : forall n a, log (a_set_control_payload_limit n a).2 = log a }.

(** What has been sent on the control stream and what is queued for it. *)
Definition wire (log : A -> list (list Z)) (s : S) : list (list Z) := log (adapter s) ++ outbound s.

Definition extends (log : A -> list (list Z)) (s s' : S) : Prop := exists more, wire log s' = wire log s ++ more.

Lemma extends_same log s s' : wire log s' = wire log s -> extends log s s'.
Proof using. intros H. exists []. by rewrite app_nil_r. Qed.

#[export] Instance extends_preorder log : PreOrder (extends log).
Proof using.
  split; [intros s; by apply extends_same|]. intros a b c [m1 H1] [m2 H2]. exists (m1 ++ m2). by rewrite H2, H1, app_assoc.
Qed.

Lemma drain_frames_wire log frames s : control_log log -> outbound s = frames ->
  wire log (drain_frames frames s).2 = wire log s.
Proof using.
  intros L. revert s. induction frames as [|f rest IH]; intros s Ho; simpl; [done|].
  pose proof (on_adapter_state (a_send_control f) s) as Hs. pose proof (log_send log L f (adapter s)) as Hl.
  unfold on_adapter in *. destruct (a_send_control f (adapter s)) as [[[]|e] a]; simpl in *.
  - rewrite IH by done. unfold wire. simpl. rewrite Hl, Ho, <- app_assoc. done.
  - unfold wire. destruct e; simpl; by rewrite Hl.
Qed.

Lemma drain_outbound_wire log s : control_log log -> wire log (drain_outbound s).2 = wire log s.
Proof using.
  intros L. unfold drain_outbound, bind, self, mmap_err. pose proof (drain_frames_wire log (outbound s) s L eq_refl) as Hd.
  destruct (drain_frames (outbound s) s) as [[[]|e] s1]; simpl in *; [|done].
  pose proof (on_adapter_state a_flush s1) as Hf. destruct (on_adapter a_flush s1) as [[[]|e] s2]; simpl in *; subst s2;
    unfold wire in *; simpl; by rewrite (log_flush log L).
Qed.

Lemma submit_wire log frames s : control_log log -> wire log (submit frames s).2 = wire log s ++ frames.
Proof using.
  intros L. unfold submit, bind, update. rewrite drain_outbound_wire by done. unfold wire. simpl. by rewrite app_assoc.
Qed.

Lemma extends_discipline log : control_log log -> Discipline (extends log).
Proof using.
  intros L. split; [|intros s; apply extends_same; unfold wire; simpl; by rewrite (log_poll log L)].
  constructor; unfold stable; try typeclasses eauto.
  - intros frames s. exists frames. by apply submit_wire.
  - intros s. rewrite on_adapter_state. apply extends_same. unfold wire. simpl. by rewrite (log_flush log L).
  - intros code s. rewrite on_adapter_state. apply extends_same. unfold wire. simpl. by rewrite (log_close log L).
  - intros n s. rewrite on_adapter_state. apply extends_same. unfold wire. simpl. by rewrite (log_limit log L).
  - intros b s. by apply extends_same.
  - intros b r s. by apply extends_same.
  - intros c s _. by apply extends_same.
  - intros st sq b s. apply extends_same. unfold hold, on_pending. by destruct (try_hold _ _).
  - intros s. apply extends_same. unfold take_pending. destruct (pop_front (pending s)) as [[[]|] p]; try done.
    by destruct (check_inbound _ _ _).
Qed.

Lemma send_control_wire log m frame s r s' : control_log log ->
  (forall f a, log (m f a).2 = match (m f a).1 with Ok _ => log a ++ [f] | Err _ => log a end) ->
  send_control_by m frame s = (r, s') ->
  match r with
  | Ok _ => outbound s = [] /\ n_state (negotiation s) = Authenticated /\ outbound s' = [] /\
            log (adapter s') = log (adapter s) ++ [frame]
  | Err _ => wire log s' = wire log s
  end.
Proof using.
  intros L Hm. unfold send_control_by, bind, self, lift, mmap_err.
  destruct (require_sendable s) as [[]|] eqn:Hs; [|by intros [= <- <-]]. unfold require_sendable in Hs.
  destruct (is_ready (n_state (negotiation s))) eqn:Hr; [|done].
  destruct (bool_decide_reflect (outbound s = [])) as [Ho|]; [|done]. clear Hs.
  destruct (check_outbound s frame Control) as [[]|]; [|by intros [= <- <-]].
  specialize (Hm frame (adapter s)). unfold on_adapter. destruct (m frame (adapter s)) as [[[]|e] a]; simpl in *; intros [= <- <-].
  - simpl. split_and!; try done. by destruct (n_state (negotiation s)).
  - unfold wire. simpl. by rewrite Hm.
Qed.

Lemma send_extends log m frame s : control_log log ->
  (forall f a, log (m f a).2 = match (m f a).1 with Ok _ => log a ++ [f] | Err _ => log a end) ->
  extends log s (send_control_by m frame s).2.
Proof using.
  intros L Hm. destruct (send_control_by m frame s) as [r s'] eqn:H. pose proof (send_control_wire _ _ _ _ _ _ L Hm H) as Hw.
  destruct r as [[]|e]; simpl; [|by apply extends_same]. destruct Hw as (Ho & _ & Ho' & Hl).
  exists [frame]. unfold wire. by rewrite Hl, Ho, Ho', !app_nil_r.
Qed.

Lemma reliable_extends log m stream record s : (forall st f a, log (m st f a).2 = log a) ->
  extends log s (send_reliable_by m stream record s).2.
Proof using.
  intros Hm. apply extends_same. unfold send_reliable_by, bind, self, lift, mmap_err, update.
  destruct (require_sendable s) as [[]|]; [|done]. destruct (check_outbound s record Reliable) as [[]|]; [|done].
  destruct (require_lane_allowed s stream) as [[]|]; [|done]. unfold on_adapter. specialize (Hm stream record (adapter s)).
  destruct (m stream record (adapter s)) as [[[]|e] a]; simpl in *; unfold wire; simpl; by rewrite Hm.
Qed.

Lemma session_call_extends log c s s' : control_log log -> delivers ->
  session_call c s = Some s' -> extends log s s'.
Proof using F.
  intros L HD. pose proof (extends_discipline log L) as D. destruct c; simpl; intros Heq; try (injection Heq as <-).
  - apply begin_stable; typeclasses eauto.
  - destruct (poll fuel s) as [[r s1]|] eqn:Hp; [|done]. injection Heq as <-. exact (poll_stable (extends log) HD _ _ _ _ Hp).
  - apply flush_stable; typeclasses eauto.
  - apply send_extends; [done|apply (log_send log L)].
  - apply send_extends; [done|apply (log_send_shared log L)].
  - apply reliable_extends, (log_reliable log L).
  - apply reliable_extends, (log_reliable_shared log L).
  - apply extends_same. unfold send_datagram, bind, self, lift, mmap_err. destruct (require_sendable s) as [[]|]; [|done].
    unfold on_adapter. pose proof (log_datagram log L context payload (adapter s)) as Hl.
    destruct (a_send_datagram context payload (adapter s)) as [[[]|e] a]; simpl in *; unfold wire; simpl; by rewrite Hl.
  - apply present_stable; typeclasses eauto.
  - apply grant_stable; typeclasses eauto.
  - apply refuse_stable; typeclasses eauto.
  - apply extends_same. unfold set_pending_limits. by destruct (_ || _).
  - by apply extends_same.
  - by apply extends_same.
Qed.

(** C23: nothing on the control stream is lost, repeated or reordered.  Take as a session's stream the control
    frames its backend has taken followed by those still queued.  Whatever call is made, and however often
    the backend pushes back, the stream only grows at its end.  Frames the exchange submits extend it by
    exactly those frames; and a frame of the application is taken only by a ready session with nothing of
    the handshake still queued, straight onto the end. *)
Theorem control_stream_in_order log : control_log log -> delivers ->
  (forall c s s', session_call c s = Some s' -> extends log s s') /\
  (forall frames s, wire log (submit frames s).2 = wire log s ++ frames) /\
  (forall frame s s', send_control frame s = (Ok tt, s') ->
     outbound s = [] /\ n_state (negotiation s) = Authenticated /\ outbound s' = [] /\
     log (adapter s') = log (adapter s) ++ [frame]).
Proof using.
  intros L HD. pose proof (extends_discipline log L) as D. split_and!.
  - intros c s s' Hs. by eapply (session_call_extends log).
  - intros frames s. by apply submit_wire.
  - intros frame s s' H. exact (send_control_wire log a_send_control frame s _ _ L (log_send log L) H).
Qed.
End books.
