(* ===== verification/SessionLink.v ===== *)
(** * Two sessions on one link ([crates/vot-session/src/session.rs])

    What a frame that passes the sender's checks meets at the receiver, and a
    concrete backend on which the theorems about sessions are applied. *)

From S2P Require Import Prelude BTree Cbor Codec Registry FramesSession Frames SessionError Negotiation NegotiationSafety Handshake SessionPolicy Session SessionSafety SessionTheorems.

Section link.
Context {A : Type} `{TA : TransportAdapter A} `{F : PageFormats}.
Local Notation S := (Session A).

(** ** What one end sends, the other accepts *)

(** Two ends of an authenticated session, as a completed handshake leaves them. *)
Definition linked (a b : Negotiation) : Prop :=
  n_role b = other_role (n_role a) /\ n_state a = Authenticated /\ n_state b = Authenticated /\
  n_peer_settings a = Some (n_local b) /\ negotiated_extensions a = negotiated_extensions b.

Lemma extension_contained n e : extension_is_negotiated n e = set_contains e (negotiated_extensions n).
Proof using.
  unfold extension_is_negotiated, negotiated_extensions, set_contains. destruct (n_peer_hello n) as [h|]; [|done].
  apply eq_true_iff_eq. rewrite andb_true_iff, !bool_decide_eq_true, !list_elem_of_In, filter_In, bool_decide_eq_true, !list_elem_of_In.
  done.
Qed.

Lemma check_frame_ok frame settings n lane side role b : check_frame frame settings n lane side role b = Ok tt <->
  exists env, peek_envelope frame (mkLimits (max_control_frame_payload settings) 1) = Ok env /\
    total_length env = zlen frame /\ carries lane (Codec.frame_type env) = true /\
    (side = Peer -> is_exchange_frame (Codec.frame_type env) = false) /\
    (forall e, required_extension (Codec.frame_type env) = Some e -> extension_is_negotiated n e = true) /\
    payload_length env <= negotiated_payload_limit (Codec.frame_type env) settings /\
    (b = true -> direction_allowed (Codec.frame_type env) role (extension_is_negotiated n extension_id.PUSH) side = true).
Proof using.
  unfold check_frame. destruct (peek_envelope _ _) as [env|]; simpl; [|split; [done|by intros (? & ? & _)]].
  set (ft := Codec.frame_type env). split.
  - destruct (Z.eqb_spec (total_length env) (zlen frame)) as [Ht|]; simpl; [|done].
    destruct (carries lane ft) eqn:Hc; simpl; [|done].
    destruct (match side with Peer => true | Local => false end && is_exchange_frame ft) eqn:Hx; [done|].
    destruct (match required_extension ft with Some _ => _ | None => _ end) as [[]|] eqn:He; [|done].
    destruct (Z.ltb_spec (negotiated_payload_limit ft settings) (payload_length env)); [done|]. intros Hd.
    exists env. fold ft. split_and!; try done; [by intros ->| |].
    + intros e Hreq. rewrite Hreq in He. by destruct (extension_is_negotiated n e).
    + intros ->. unfold check_direction in Hd. by destruct (direction_allowed _ _ _ _).
  - intros (env' & [= <-] & -> & Hc & Hx & He & Hl & Hd). fold ft in Hc, Hx, He, Hl, Hd. rewrite Z.eqb_refl, Hc. simpl.
    replace (match side with Peer => true | Local => false end && is_exchange_frame ft) with false
      by (destruct side; [done|by rewrite Hx]).
    replace (match required_extension ft with Some _ => _ | None => _ end) with (@Ok unit Error tt)
      by (destruct (required_extension ft) as [e|]; [by rewrite (He e)|done]).
    destruct (Z.ltb_spec (negotiated_payload_limit ft settings) (payload_length env)); [lia|].
    destruct b; [|done]. unfold check_direction. by rewrite Hd.
Qed.

Lemma checked_inbound (sa sb : S) frame lane : linked (negotiation sa) (negotiation sb) ->
  check_outbound sa frame lane = Ok tt -> check_inbound sb frame lane = Ok tt.
Proof using.
  intros (Hr & Ha & Hb & Hp & Hx). unfold check_outbound, check_inbound. rewrite Hp, Ha, Hb, !check_frame_ok.
  intros (env & He & Ht & Hc & Hex & Hreq & Hl & Hd). exists env. split_and!; try done.
  - intros e Hsome. rewrite extension_contained, <- Hx, <- extension_contained. by apply Hreq.
  - intros _. specialize (Hd eq_refl). rewrite extension_contained, <- Hx, <- extension_contained, Hr.
    unfold direction_allowed in *. by destruct (n_role (negotiation sa)).
Qed.

Lemma application_accepted frame n env :
  peek_envelope frame (mkLimits (max_control_frame_payload (n_local n)) 1) = Ok env -> skipped env = false ->
  total_length env = zlen frame -> is_exchange_frame (Codec.frame_type env) = false -> n_state n = Authenticated ->
  accept_control frame n = (Ok Application, n).
Proof using.
  intros He Hs Ht Hx Hn. unfold peek_envelope in He.
  assert (Hd : exists p, decode_one frame (mkLimits (max_control_frame_payload (n_local n)) 1) = Ok (Known (Codec.frame_type env) p, zlen frame)).
  { unfold decode_one. rewrite He. simpl. destruct (Z.ltb_spec (zlen frame) (total_length env)); [lia|]. rewrite Hs, Ht. by eexists. }
  destruct Hd as [p Hd]. unfold accept_control, bind, get, lift. rewrite Hd. simpl. rewrite Z.eqb_refl. simpl.
  unfold is_exchange_frame in Hx. repeat apply orb_false_elim in Hx as [Hx ?].
  unfold accept_known. rewrite Hx, H, H0, H1, H2, H3, H4. unfold accept_application, bind, get, ret. by rewrite Hn.
Qed.

Lemma accepted_through frame (s : S) env :
  peek_envelope frame (mkLimits (max_control_frame_payload (n_local (negotiation s))) 1) = Ok env -> skipped env = false ->
  total_length env = zlen frame -> is_exchange_frame (Codec.frame_type env) = false -> n_state (negotiation s) = Authenticated ->
  session_accept_control frame s = (Ok (Some (EControl frame)), s).
Proof using.
  intros He Hs Ht Hx Hn. unfold session_accept_control, bind, on_negotiation.
  rewrite (application_accepted frame (negotiation s) env He Hs Ht Hx Hn). simpl. by destruct s.
Qed.

(** The receiver has no requirement of its own outstanding. *)
Definition settled (s : S) : Prop :=
  n_refusal (negotiation s) = None /\ Forall (fun e => extension_is_negotiated (negotiation s) e = true) (required_extensions s) /\
  (forall scope g, expected_granted_scope s = Some scope -> n_granted (negotiation s) = Some g -> granted_scope g = scope).

Lemma granted_as_expected (s : S) : settled s ->
  match expected_granted_scope s, n_granted (negotiation s) with
  | Some expected, Some granted => negb (bool_decide (granted_scope granted = expected))
  | _, _ => false
  end = false.
Proof using.
  intros (_ & _ & H). destruct (expected_granted_scope s) as [scope|]; [|done]. destruct (n_granted _) as [g|]; [|done].
  by rewrite bool_decide_eq_true_2 by (by eapply H).
Qed.

Lemma find_settled (s : S) : settled s ->
  List.find (fun e => negb (extension_is_negotiated (negotiation s) e)) (required_extensions s) = None.
Proof using.
  intros (_ & H & _). induction H as [|e es He _ IH]; simpl; [done|]. by rewrite He.
Qed.

(** A frame of an unregistered optional type is passed over. *)
Lemma skipped_accepted frame n env :
  peek_envelope frame (mkLimits (max_control_frame_payload (n_local n)) 1) = Ok env -> skipped env = true ->
  total_length env = zlen frame -> accept_control frame n = (Ok (Consumed []), n).
Proof using.
  intros He Hs Ht. unfold peek_envelope in He. unfold accept_control, bind, get, lift, decode_one. rewrite He. simpl.
  destruct (Z.ltb_spec (zlen frame) (total_length env)); [lia|]. rewrite Hs, Ht. simpl. by rewrite Z.eqb_refl.
Qed.

(** The session keeps its negotiation and its caller's requirements. *)
Definition same_terms (s s' : S) : Prop :=
  negotiation s' = negotiation s /\ required_extensions s' = required_extensions s /\
  expected_granted_scope s' = expected_granted_scope s.

#[local] Instance same_terms_preorder : PreOrder same_terms.
Proof using. split; [done|]. intros s1 s2 s3 (? & ? & ?) (? & ? & ?). unfold same_terms. split_and!; congruence. Qed.

Lemma drain_frames_terms frames s : same_terms s (drain_frames frames s).2.
Proof using.
  revert s. induction frames as [|f rest IH]; intros s; simpl; [done|]. unfold on_adapter.
  destruct (a_send_control f (adapter s)) as [[[]|e] a]; simpl; [|by destruct e].
  etrans; [|apply (IH (set_outbound rest (set_adapter a s)))]. done.
Qed.

(** What has still to be sent is sent: the session keeps its terms, and a
    failure is the backend's. *)
Lemma submit_terms frames s : same_terms s (submit frames s).2 /\
  match (submit frames s).1 with Ok _ => True | Err e => exists transport, e = transport_error transport end.
Proof using.
  unfold submit, drain_outbound, bind, update, self, mmap_err.
  pose proof (drain_frames_terms (outbound s ++ frames) (set_outbound (outbound s ++ frames) s)) as Hd. simpl in *.
  destruct (drain_frames _ _) as [[[]|e] s1]; simpl in *; [|split; [done|by eexists]].
  unfold on_adapter. destruct (a_flush (adapter s1)) as [[[]|e] a]; simpl; (split; [done|]); [done|by eexists].
Qed.

Lemma apply_limits_terms s : same_terms s (apply_peer_limits s).
Proof using.
  unfold apply_peer_limits, on_adapter. destruct (n_peer_settings _) as [peer|]; [|done].
  by destruct (a_set_control_payload_limit _ _) as [[[]|] a].
Qed.

Lemma skipped_through frame (s : S) env : settled s ->
  peek_envelope frame (mkLimits (max_control_frame_payload (n_local (negotiation s))) 1) = Ok env -> skipped env = true ->
  total_length env = zlen frame -> check_inbound s frame Control = Ok tt ->
  exists r s', on_event (EControl frame) s = (r, s') /\ same_terms s s' /\ (r = Ok None \/ exists transport, r = Err (transport_error transport)).
Proof using.
  intros Hset He Hs Ht Hin. simpl. unfold on_control, bind, self, lift. rewrite Hin.
  unfold session_accept_control, bind, self, on_negotiation, ret, update. rewrite (skipped_accepted frame _ env He Hs Ht). simpl.
  replace (set_negotiation (negotiation s) s) with s by (by destruct s).
  destruct (submit_terms [] s) as [Hsub Hres]. destruct (submit [] s) as [[[]|e] s1]; simpl in *; [|exists (Err e), s1; auto].
  2: { destruct Hres as [t ->]. split_and!; [done|done|]. right. by exists t. }
  set (s2 := (if is_negotiated _ then _ else _) : M S Error unit).
  assert (exists s2', s2 s1 = (Ok tt, s2') /\ same_terms s s2') as (s2' & -> & Hterms).
  { unfold s2. destruct (is_negotiated _); [|by exists s1]. exists (apply_peer_limits s1). split; [done|].
    etrans; [exact Hsub|apply apply_limits_terms]. }
  assert (settled s2') as Hset'. { destruct Hterms as (Hn & Hr & Hx). unfold settled. by rewrite Hn, Hr, Hx. }
  pose proof Hset' as (-> & _). rewrite (bool_decide_eq_false_2 (is_Some None)) by (by intros [? [=]]).
  rewrite granted_as_expected, find_settled by done. exists (Ok None), s2'. split_and!; [by destruct (bool_decide _)|done|by left].
Qed.

(** C21: what one end may send, the other end accepts.  Between two authenticated ends of one session, a frame
    that passes the sender's checks passes the receiver's.  On a lane the record goes straight to the
    receiving application, with the receiver's session unchanged.  On the control stream, where the receiver
    has no requirement of its own outstanding (no refusal, no extension its caller requires and the peer
    lacks, no scope other than the one its caller expects): a frame of a registered type goes straight to the
    application, with the session unchanged; and one of an unregistered optional type, which the protocol
    lets a receiver pass over, is taken without an event and leaves the negotiation and the caller's
    requirements alone, the only failure being the backend's own as the session sends what it had queued. *)
Theorem sent_frames_are_accepted (sa sb : S) frame lane :
  linked (negotiation sa) (negotiation sb) -> check_outbound sa frame lane = Ok tt ->
  check_inbound sb frame lane = Ok tt /\
  (lane = Reliable -> forall stream sequence,
     on_event (EReliable stream sequence frame) sb = (Ok (Some (Some (EReliable stream sequence frame))), sb)) /\
  (lane = Control -> settled sb -> exists env,
     peek_envelope frame (mkLimits (max_control_frame_payload (n_local (negotiation sb))) 1) = Ok env /\
     if skipped env
     then exists r s', on_event (EControl frame) sb = (r, s') /\ same_terms sb s' /\
       (r = Ok None \/ exists transport, r = Err (transport_error transport))
     else on_event (EControl frame) sb = (Ok (Some (Some (EControl frame))), sb)).
Proof using.
  intros Hlink Hc. pose proof (checked_inbound sa sb frame lane Hlink Hc) as Hin. pose proof Hlink as (_ & _ & Hb & Hp & _).
  split_and!; [done| |].
  - intros -> stream sequence. simpl. unfold bind, self, lift, ret. by rewrite Hin, Hb.
  - intros -> Hset. unfold check_outbound in Hc. rewrite Hp in Hc. apply check_frame_ok in Hc as (env & He & Ht & _ & Hex & _).
    exists env. split; [done|]. destruct (skipped env) eqn:Hsk; [by eapply skipped_through|].
    simpl. unfold on_control, bind, self, lift. rewrite Hin.
    rewrite (accepted_through frame sb env He Hsk Ht (Hex eq_refl) Hb), (proj1 Hset). rewrite (bool_decide_eq_false_2 (is_Some None)) by (by intros [? [=]]).
    rewrite granted_as_expected, find_settled by done. by destruct (bool_decide _).
Qed.

(** C38: after a refusal a peer's report is lost.  Between a refusal and the next attempt, a control frame that
    may reach the application without authentication, such as an ERROR, passes the session's checks and is
    accepted as the application's, and [poll] then returns no event: the frame has been taken off the
    carrier, nothing else of the session has changed, and no later call returns it. *)
Theorem refusal_hides_control_frame fuel (s : S) frame a' :
  is_Some (n_refusal (negotiation s)) -> n_state (negotiation s) = Negotiated -> outbound s = [] ->
  a_poll (adapter s) = (Some (EControl frame), a') -> check_inbound s frame Control = Ok tt ->
  accept_control frame (negotiation s) = (Ok Application, negotiation s) ->
  poll (Datatypes.S fuel) s = Some (Ok None, set_adapter a' s).
Proof using.
  intros Hr Hn Ho Hp Hc Ha. unfold poll, poll_inner, may_negotiate. rewrite Ho, Hn. simpl.
  unfold release at 1, bind, self. rewrite Hn. simpl. rewrite Hp. simpl. unfold on_control, bind, self, lift.
  change (check_inbound (set_adapter a' s) frame Control) with (check_inbound s frame Control). rewrite Hc.
  unfold session_accept_control, bind, on_negotiation. change (negotiation (set_adapter a' s)) with (negotiation s). rewrite Ha. simpl.
  by rewrite bool_decide_eq_true_2 by done.
Qed.
End link.

(** ** A concrete backend *)

(** A backend that hands out the events put on it, byte records only, and
    keeps the control frames it takes; [room] bounds how many it takes. *)
Record Loop := mkLoop { incoming : list Event; taken : list (list Z); room : nat; told : list Z }.

Definition deliverable (e : Event) : bool :=
  match e with
  | EControl b | EReliable _ _ b | EDatagram b => forallb (fun x => (0 <=? x) && (x <=? u8_max)) b && (zlen b <=? i64_max)
  | _ => true
  end.

Definition loop_send (frame : list Z) : M Loop TransportError unit := fun a =>
  if (length (taken a) <? room a)%nat then (Ok tt, mkLoop (incoming a) (taken a ++ [frame]) (room a) (told a))
  else (Err OutboundQueueFull, a).

#[export] Instance Loop_adapter : TransportAdapter Loop := {
  a_channel_binding := fun _ => Ok (repeat 0 32);
  a_send_control := loop_send;
  a_send_control_shared := loop_send;
  a_send_reliable := fun _ _ a => (Ok tt, a);
  a_send_reliable_shared := fun _ _ a => (Ok tt, a);
  a_send_datagram := fun _ _ a => (Ok tt, a);
  a_flush := fun a => (Ok tt, a);
  a_poll := fun a => match incoming a with
    | [] => (None, a)
    | e :: rest => (if deliverable e then Some e else None, mkLoop rest (taken a) (room a) (told a))
    end;
  a_close := fun code a => (Ok tt, mkLoop (incoming a) (taken a) (room a) (told a ++ [code]));
  a_receive_limits := fun _ => None;
  a_set_control_payload_limit := fun _ a => (Ok tt, a) }.

Lemma loop_delivers : delivers (A := Loop).
Proof.
  intros a e a'. simpl. destruct (incoming a) as [|e0 rest]; [done|]. destruct (deliverable e0) eqn:Hd; [|done]. intros [= <- <-].
  assert (forall b, forallb (fun x => (0 <=? x) && (x <=? u8_max)) b && (zlen b <=? i64_max) = true -> byte_list b /\ zlen b <= i64_max) as Hb.
  { intros b [H1 H2]%andb_true_iff. split; [|lia]. apply Forall_forall. rewrite forallb_forall in H1.
    intros x Hx%list_elem_of_In. specialize (H1 x Hx). unfold is_u8. lia. }
  destruct e0; simpl in *; try done; by apply Hb.
Qed.



Lemma loop_log : control_log taken.
Proof.
  constructor; simpl; try done; [| |intros a; by destruct (incoming a)]; intros frame a; unfold loop_send; by destruct (_ <? _)%nat.
Qed.

(** ** Two sessions that meet *)

Definition loop (events : list Event) : Loop := mkLoop events [] 64 [].
Definition run_session (c : SessionCall) (s : Session Loop) : Session Loop :=
  default s (session_call (F := any_pages) c s).
(** Puts control frames on a session's carrier and polls once. *)
Definition hear (frames : list (list Z)) (s : Session Loop) : Session Loop :=
  run_session (SPoll 20) (set_adapter (mkLoop (incoming (adapter s) ++ map EControl frames) (taken (adapter s)) (room (adapter s)) (told (adapter s))) s).

Definition met_client0 : Session Loop := session_client (loop []) default_settings [1; 8] (NotRequired (repeat 0 32)).
Definition met_server0 : Session Loop := session_server (loop []) default_settings [8] (NotRequired (repeat 5 32)).
Definition met_server : Session Loop := Eval vm_compute in
  hear (taken (adapter (run_session SBegin met_client0))) (run_session SBegin met_server0).
Definition met_client : Session Loop := Eval vm_compute in
  hear (taken (adapter met_server)) (run_session SBegin met_client0).

(** A client whose carrier already holds the server's half of the handshake. *)
Definition fed_client0 (more : list Event) : Session Loop :=
  session_client (loop (map EControl (taken (adapter met_server)) ++ more)) default_settings [1; 8] (NotRequired (repeat 0 32)).
Definition fed_client (more : list Event) : Session Loop := run_session SBegin (fed_client0 more).
(** A server whose carrier already holds the client's half. *)
Definition fed_server (more : list Event) : Session Loop := run_session SBegin
  (session_server (loop (map EControl (taken (adapter (run_session SBegin met_client0))) ++ more)) default_settings [8] (NotRequired (repeat 5 32))).
(** A DATA_RECORD of two bytes. *)
Definition met_record : list Z := [frame_type.DATA_RECORD; 2; 1; 2].

Lemma run_reachable start s c : session_reachable (F := any_pages) start s ->
  is_Some (session_call (F := any_pages) c s) -> session_reachable (F := any_pages) start (run_session c s).
Proof.
  intros Hr [s' Hs]. unfold run_session. rewrite Hs. by eapply sreach_call.
Qed.

Lemma fed_server_ok more : session_ok (fed_server more).
Proof.
  eapply (session_reachable_ok (F := any_pages)); [apply loop_delivers| |apply session_new_ok].
  apply run_reachable; [apply sreach_start|by eexists].
Qed.

(** A client that is sent two records before the handshake and told, with both
    held, to hold one. *)
Definition held_client : Session Loop := run_session (SSetPendingLimits DEFAULT_PENDING_RECORD_BYTES 1)
  (run_session (SPoll 20) (session_client (loop [EReliable 3 0 met_record; EReliable 3 1 met_record]) default_settings [1; 8] (NotRequired (repeat 0 32)))).

Lemma session_books_witness :
  zlen (events (pending held_client)) = 2 /\ count_limit (pending held_client) = 1 /\ negotiation_ok (negotiation held_client) /\
  forall s', session_call (F := any_pages) (SPoll 20) held_client = Some s' -> zlen (events (pending s')) <= 2.
Proof.
  destruct (session_books (F := any_pages) (loop [EReliable 3 0 met_record; EReliable 3 1 met_record]) Client default_settings [1; 8]
    (no_capability (repeat 0 32)) false (NotRequired (repeat 0 32)) held_client) as (_ & _ & _ & Hn & Hcall); [apply loop_delivers| |].
  - apply run_reachable; [|by eexists]. apply run_reachable; [apply sreach_start|by vm_compute; eexists].
  - split; [by vm_compute|]. split; [by vm_compute|]. split; [exact Hn|].
    intros s' Hs. destruct (Hcall _ _ Hs) as (_ & Hz & [(? & ? & ?)|[_ Hl]]); [done|]. rewrite Hl in Hz. exact Hz.
Defined.

Lemma poll_surfaces_witness : exists s', poll 20 (fed_server [EReliable 3 0 met_record]) = Some (Ok (Some (EReliable 3 0 met_record)), s') /\
  n_state (negotiation s') = Authenticated.
Proof.
  destruct (poll 20 (fed_server [EReliable 3 0 met_record])) as [[r s']|] eqn:Hp; [|by vm_compute in Hp].
  assert (r = Ok (Some (EReliable 3 0 met_record))) as -> by (vm_compute in Hp; by injection Hp as <- _).
  exists s'. split; [done|].
  apply (poll_surfaces (F := any_pages) 20 (fed_server [EReliable 3 0 met_record]) (EReliable 3 0 met_record) s'
    loop_delivers (fed_server_ok _) Hp).
Defined.

Lemma peer_fault_is_final_witness : exists error s1, poll 20 (fed_client [EControl met_record]) = Some (Err error, s1) /\
  n_state (negotiation s1) = Closed.
Proof.
  destruct (poll 20 (fed_client [EControl met_record])) as [[[o|error] s1]|] eqn:Hp; try by vm_compute in Hp.
  exists error, s1. split; [done|].
  apply (peer_fault_is_final 20 (fed_client [EControl met_record]) error s1 Hp).
  vm_compute in Hp. injection Hp as <- _. done.
Defined.


Lemma control_stream_in_order_witness : extends taken (fed_client0 []) (fed_client []).
Proof.
  destruct (control_stream_in_order (F := any_pages) taken loop_log loop_delivers) as (H & _).
  by apply (H SBegin).
Defined.

Lemma met_linked : linked (negotiation met_client) (negotiation met_server).
Proof. by vm_compute. Qed.

(** A frame of an unregistered even type. *)
Definition optional_frame : list Z := frame_bytes 0x7ffe [1; 2; 3].

Lemma sent_frames_are_accepted_witness :
  on_event (EReliable 3 0 met_record) met_server = (Ok (Some (Some (EReliable 3 0 met_record))), met_server) /\
  exists s', on_event (EControl optional_frame) met_server = (Ok None, s').
Proof.
  split.
  - apply (sent_frames_are_accepted met_client met_server met_record Reliable); [apply met_linked|by vm_compute|done].
  - destruct (sent_frames_are_accepted met_client met_server optional_frame Control) as (_ & _ & Hc);
      [apply met_linked|by vm_compute|].
    destruct (Hc eq_refl) as (env & He & Hon); [split; [by vm_compute|split; [by constructor|by intros ? ? [=]]]|].
    vm_compute in He. injection He as <-. destruct Hon as (r & s' & Hon & _ & [->|[t ->]]); [by exists s'|].
    vm_compute in Hon. discriminate.
Defined.

(** A server that asks for a capability and refuses what it is shown, and the
    client it refused, to which the server then reports an error. *)
Definition cap_client0 : Session Loop := run_session SBegin (session_client (loop []) default_settings [1; 8] Presenting).
Definition cap_server0 : Session Loop := Eval vm_compute in hear (taken (adapter cap_client0))
  (run_session SBegin (session_server (loop []) default_settings [8] (Capability demo_challenge))).
Definition cap_client1 : Session Loop := Eval vm_compute in
  run_session (SPresent demo_request) (hear (taken (adapter cap_server0)) cap_client0).
Definition cap_refusals : list (list Z) := Eval vm_compute in
  let server := hear (drop 2 (taken (adapter cap_client1))) cap_server0 in
  drop (length (taken (adapter server))) (taken (adapter (run_session (SRefuse error_code.AUTHENTICATION_FAILED []) server))).
Definition cap_refused : Session Loop := Eval vm_compute in hear cap_refusals cap_client1.
Definition error_report : list Z := frame_bytes frame_type.ERROR [].

(** The refused client once the report is on its carrier. *)
Definition cap_reported : Session Loop := set_adapter (loop [EControl error_report]) cap_refused.

Lemma refusal_hides_control_frame_witness : poll 1 cap_reported = Some (Ok None, set_adapter (loop []) cap_reported) /\
  requires_authentication frame_type.ERROR = false.
Proof.
  split; [|done].
  apply (refusal_hides_control_frame 0 cap_reported error_report (loop [])); done.
Defined.
