(* ===== verification/Crc32c.v ===== *)
(** * CRC32C ([crates/vot-journal/src/crc32c.rs])

    The checksum of the journal, its incremental update, and the combination of
    the checksums of two strings by squaring a 32 by 32 matrix over GF(2),
    which is shown to be the checksum of the concatenation. *)

From S2P Require Import Prelude.

Definition CRC32C_EMPTY : Z := 0.

(** [!x] on a [u32]. *)
Definition not_u32 (x : Z) : Z := Z.lxor x u32_max.

(** One turn of the inner loop; [0.wrapping_sub(b)] is taken modulo 2^32. *)
Definition crc_bit (running : Z) : Z :=
  Z.lxor (Z.shiftr running 1) (Z.land 0x82f63b78 ((0 - Z.land running 1) mod 2 ^ 32)).

Definition crc_byte (running byte : Z) : Z := Nat.iter 8 crc_bit (Z.lxor running byte).

Definition crc32c_update (crc : Z) (bytes : list Z) : Z := not_u32 (foldl crc_byte (not_u32 crc) bytes).

Definition crc32c (bytes : list Z) : Z := crc32c_update CRC32C_EMPTY bytes.

(** The sum of the columns a vector selects, from column [index] on. *)
Fixpoint apply_from (index : Z) (matrix : list Z) (vector sum : Z) : Z :=
  match matrix with
  | [] => sum
  | column :: rest =>
      apply_from (Z.succ index) rest vector
        (if negb (Z.land (Z.shiftr vector index) 1 =? 0) then Z.lxor sum column else sum)
  end.
Definition apply (matrix : list Z) (vector : Z) : Z := apply_from 0 matrix vector 0.

Definition square (matrix : list Z) : list Z := map (apply matrix) matrix.

(** The entries after the first: [*entry = row; row <<= 1]. *)
Fixpoint shifted_rows (count : nat) (row : Z) : list Z :=
  match count with O => [] | S count => row :: shifted_rows count (Z.shiftl row 1 mod 2 ^ 32) end.

(** The counted loop; [odd] is squared into [even] and the two swapped. *)
Fixpoint combine_loop (turns : nat) (odd : list Z) (remaining advanced : Z) : Z :=
  match turns with
  | O => advanced
  | S turns =>
      if remaining =? 0 then advanced else
      let even := square odd in
      let advanced := if negb (Z.land remaining 1 =? 0) then apply even advanced else advanced in
      combine_loop turns even (Z.shiftr remaining 1) advanced
  end.

Definition crc32c_combine (a b len_b : Z) : Z :=
  if len_b =? 0 then a else
  let odd := 0x82f63b78 :: shifted_rows 31 1 in
  let even := square odd in
  let odd := square even in
  Z.lxor (combine_loop 64 odd len_b a) b.

(** ** Linear maps over GF(2) *)

Definition linear (f : Z -> Z) : Prop := forall x y, f (Z.lxor x y) = Z.lxor (f x) (f y).
Definition is_word (x : Z) : Prop := 0 <= x < 2 ^ 32.
Definition keeps_word (f : Z -> Z) : Prop := forall x, is_word x -> is_word (f x).

Lemma is_word_bits x : is_word x <-> 0 <= x /\ forall i, 32 <= i -> Z.testbit x i = false.
Proof.
  unfold is_word. split.
  - intros [H0 H1]. split; [done|]. intros i Hi. rewrite <- (Z.mod_small x (2 ^ 32)) by lia. apply Z.mod_pow2_bits_high. lia.
  - intros [H0 Hb]. split; [done|].
    assert (x = x mod 2 ^ 32) as ->; [|apply Z.mod_pos_bound; lia].
    apply Z.bits_inj'. intros i Hi. destruct (Z.lt_ge_cases i 32).
    + by rewrite Z.mod_pow2_bits_low.
    + rewrite Z.mod_pow2_bits_high by lia. by apply Hb.
Qed.

Lemma word_lxor x y : is_word x -> is_word y -> is_word (Z.lxor x y).
Proof.
  rewrite !is_word_bits. intros [Hx Hx'] [Hy Hy']. split; [apply Z.lxor_nonneg; tauto|].
  intros i Hi. by rewrite Z.lxor_spec, Hx', Hy'.
Qed.

Lemma linear_0 f : linear f -> f 0 = 0.
Proof. intros H. rewrite <- (Z.lxor_nilpotent 0) at 1. by rewrite H, Z.lxor_nilpotent. Qed.

Lemma iter_linear n f : linear f -> linear (Nat.iter n f).
Proof. intros H. induction n as [|n IH]; intros x y; simpl; [done|]. by rewrite IH, H. Qed.

Lemma iter_keeps n f : keeps_word f -> keeps_word (Nat.iter n f).
Proof. intros H. induction n as [|n IH]; intros x Hx; simpl; [done|]. by apply H, IH. Qed.

Lemma crc_bit_spec x : crc_bit x = Z.lxor (Z.shiftr x 1) (if Z.testbit x 0 then 0x82f63b78 else 0).
Proof.
  unfold crc_bit. f_equal. replace (Z.land x 1) with (Z.b2z (Z.testbit x 0)); [by destruct (Z.testbit x 0)|].
  change 1 with (Z.ones 1). rewrite Z.land_ones, <- Z.bit0_mod by lia. done.
Qed.

Lemma crc_bit_linear : linear crc_bit.
Proof.
  intros x y. rewrite !crc_bit_spec, Z.shiftr_lxor, Z.lxor_spec.
  destruct (Z.testbit x 0), (Z.testbit y 0); simpl; apply Z.bits_inj'; intros i _;
    rewrite !Z.lxor_spec, ?Z.bits_0; repeat (destruct (Z.testbit _ i)); done.
Qed.

Lemma crc_bit_keeps : keeps_word crc_bit.
Proof.
  intros x Hx. rewrite crc_bit_spec. apply word_lxor.
  - destruct Hx. unfold is_word. rewrite Z.shiftr_div_pow2 by lia. split; [apply Z.div_pos; lia|]. apply Z.div_lt_upper_bound; lia.
  - destruct (Z.testbit x 0); unfold is_word; lia.
Qed.

(** ** Matrices *)

(** The matrix of a map: its columns are the images of the single bits. *)
Definition represents (m : list Z) (f : Z -> Z) : Prop := m = map (fun i => f (2 ^ i)) (seqZ 0 32).

Lemma apply_from_sum index matrix vector sum :
  apply_from index matrix vector sum = Z.lxor sum (apply_from index matrix vector 0).
Proof.
  revert index sum. induction matrix as [|c m IH]; intros index sum; simpl; [by rewrite Z.lxor_0_r|].
  destruct (negb _); [|apply IH]. by rewrite (IH _ (Z.lxor sum c)), (IH _ (Z.lxor 0 c)), Z.lxor_0_l, Z.lxor_assoc.
Qed.

Lemma bit_selected v i : 0 <= i -> negb (Z.land (Z.shiftr v i) 1 =? 0) = Z.testbit v i.
Proof.
  intros Hi. change 1 with (Z.shiftl 1 0). rewrite bit_test by lia. by rewrite Z.shiftr_spec, Z.add_0_l by lia.
Qed.

(** The low bits of a vector, one more at a time. *)
Lemma low_bits v n : 0 <= n -> v mod 2 ^ Z.succ n = Z.lxor (v mod 2 ^ n) (if Z.testbit v n then 2 ^ n else 0).
Proof.
  intros Hn. apply Z.bits_inj'. intros i Hi. rewrite Z.lxor_spec.
  assert (Z.testbit (if Z.testbit v n then 2 ^ n else 0) i = Z.testbit v n && (n =? i)) as ->.
  { destruct (Z.testbit v n); [by rewrite Z.pow2_bits_eqb by lia|by rewrite Z.bits_0]. }
  destruct (Z.lt_trichotomy i n) as [H|[->|H]].
  - rewrite !Z.mod_pow2_bits_low by lia. destruct (Z.eqb_spec n i); [lia|]. by rewrite andb_false_r, xorb_false_r.
  - rewrite Z.mod_pow2_bits_low, Z.mod_pow2_bits_high, Z.eqb_refl by lia. by destruct (Z.testbit v n).
  - rewrite !Z.mod_pow2_bits_high by lia. destruct (Z.eqb_spec n i); [lia|]. by rewrite andb_false_r.
Qed.

Lemma apply_from_columns f v k n : linear f -> 0 <= k ->
  apply_from k (map (fun i => f (2 ^ i)) (seqZ k (Z.of_nat n))) v 0 =
    Z.lxor (f (v mod 2 ^ (k + Z.of_nat n))) (f (v mod 2 ^ k)).
Proof.
  intros Hf. revert k. induction n as [|n IH]; intros k Hk.
  - replace (k + Z.of_nat 0) with k by lia. by rewrite Z.lxor_nilpotent.
  - rewrite Nat2Z.inj_succ, seqZ_cons by lia. simpl. rewrite Z.pred_succ, bit_selected by done.
    rewrite apply_from_sum, IH by lia. rewrite low_bits, Hf by lia.
    replace (Z.succ k + Z.of_nat n) with (k + Z.succ (Z.of_nat n)) by lia.
    replace (f (if Z.testbit v k then 2 ^ k else 0)) with (if Z.testbit v k then f (2 ^ k) else 0)
      by (destruct (Z.testbit v k); [done|by rewrite linear_0]).
    set (a := f _). set (b := f _). set (c := f _). destruct (Z.testbit v k);
      apply Z.bits_inj'; intros i _; rewrite !Z.lxor_spec, ?Z.bits_0; repeat (destruct (Z.testbit _ i)); done.
Qed.

Lemma apply_represents m f v : represents m f -> linear f -> is_word v -> apply m v = f v.
Proof.
  intros -> Hf Hv. unfold apply. change 32 with (Z.of_nat 32) at 1. rewrite apply_from_columns by done.
  rewrite Z.mod_1_r, linear_0, Z.lxor_0_r by done. f_equal. apply Z.mod_small. exact Hv.
Qed.

Lemma square_represents m f : represents m f -> linear f -> keeps_word f -> represents (square m) (fun x => f (f x)).
Proof.
  intros Hm Hf Hk. unfold represents, square. rewrite Hm at 2. rewrite map_map. apply map_ext_in.
  intros i Hi%list_elem_of_In%elem_of_seqZ. apply apply_represents; try done. apply Hk. split; [lia|].
  apply Z.pow_lt_mono_r; lia.
Qed.

Lemma first_matrix : represents (0x82f63b78 :: shifted_rows 31 1) crc_bit.
Proof. by vm_compute. Qed.

(** ** The loop advances by the length *)

Lemma iter_twice n (f : Z -> Z) x : Nat.iter n (fun y => f (f y)) x = Nat.iter (2 * n) f x.
Proof. induction n as [|n IH]; [done|]. replace (2 * S n)%nat with (S (S (2 * n))) by lia. simpl Nat.iter at 1. by rewrite IH. Qed.

Lemma combine_loop_spec turns m f r x : represents m f -> linear f -> keeps_word f -> 0 <= r < 2 ^ Z.of_nat turns -> is_word x ->
  combine_loop turns m r x = Nat.iter (Z.to_nat r) (fun y => f (f y)) x.
Proof.
  revert m f r x. induction turns as [|turns IH]; intros m f r x Hm Hf Hk Hr Hx; simpl.
  - replace r with 0 by (simpl in Hr; lia). done.
  - rewrite Nat2Z.inj_succ, Z.pow_succ_r in Hr by lia. destruct (Z.eqb_spec r 0) as [->|Hne]; [done|].
    assert (linear (fun y => f (f y))) as Hf2 by (intros a b; by rewrite !Hf).
    assert (keeps_word (fun y => f (f y))) as Hk2 by (intros a Ha; by apply Hk, Hk).
    pose proof (square_represents m f Hm Hf Hk) as Hm2. rewrite (apply_represents _ _ x Hm2 Hf2 Hx).
    pose proof (Z.div_mod r 2 ltac:(lia)) as Hd. pose proof (Z.mod_pos_bound r 2 ltac:(lia)).
    rewrite Z.shiftr_div_pow2, Z.pow_1_r by lia.
    change 1 with (Z.shiftl 1 0) at 1. rewrite bit_test, Z.bit0_odd, Zodd_mod by lia.
    rewrite (IH _ (fun y => f (f y))); [|done..| |by destruct (_ =? _); [apply Hk2|]].
    2: { split; [apply Z.div_pos; lia|apply Z.div_lt_upper_bound; lia]. }
    rewrite (iter_twice _ (fun y => f (f y))).
    replace (Z.to_nat r) with (2 * Z.to_nat (r / 2) + Z.to_nat (r mod 2))%nat by lia. rewrite Nat.iter_add.
    assert (r mod 2 = 0 \/ r mod 2 = 1) as [->| ->] by lia; done.
Qed.

(** ** A checksum over a concatenation *)

Definition advance (n : nat) : Z -> Z := Nat.iter (8 * n) crc_bit.

Lemma advance_linear n : linear (advance n).
Proof. apply iter_linear, crc_bit_linear. Qed.

Lemma running_split bytes s : foldl crc_byte s bytes = Z.lxor (advance (length bytes) s) (foldl crc_byte 0 bytes).
Proof.
  revert s. induction bytes as [|b bytes IH]; intros s; simpl; [by rewrite Z.lxor_0_r|].
  rewrite IH, (IH (crc_byte 0 b)), <- Z.lxor_assoc. f_equal. unfold crc_byte.
  rewrite (iter_linear 8 crc_bit crc_bit_linear s b), Z.lxor_0_l, advance_linear. f_equal.
  unfold advance. replace (8 * S (length bytes))%nat with (8 * length bytes + 8)%nat by lia. by rewrite Nat.iter_add.
Qed.

Lemma not_word x : is_word x -> is_word (not_u32 x).
Proof. intros Hx. apply word_lxor; [done|]. unfold is_word, u32_max. lia. Qed.

Lemma crc_byte_word r b : is_word r -> is_u8 b -> is_word (crc_byte r b).
Proof.
  intros Hr Hb. apply (iter_keeps 8 crc_bit crc_bit_keeps), word_lxor; [done|]. unfold is_word. mlia.
Qed.

Lemma crc32c_word bytes : byte_list bytes -> is_word (crc32c bytes).
Proof.
  intros Hb. apply not_word. assert (is_word (not_u32 CRC32C_EMPTY)) as H by (by vm_compute).
  revert H. generalize (not_u32 CRC32C_EMPTY). induction Hb as [|b bytes Hx _ IH]; intros r Hr; simpl; [done|].
  apply IH. by apply crc_byte_word.
Qed.

Lemma lxor_cancel a x y : Z.lxor x (Z.lxor a (Z.lxor a y)) = Z.lxor x y.
Proof. by rewrite <- (Z.lxor_assoc a), Z.lxor_nilpotent, Z.lxor_0_l. Qed.

Lemma iter_bytes n x : Nat.iter n (Nat.iter 8 crc_bit) x = advance n x.
Proof.
  unfold advance. induction n as [|n IH]; [done|]. replace (8 * S n)%nat with (8 + 8 * n)%nat by lia.
  rewrite Nat.iter_add, <- IH. done.
Qed.

(** combining two checksums gives the checksum of the concatenation, for strings of any length a 64-bit
    count can name; and a running checksum can be taken in pieces. *)
Theorem crc32c_combine_exact a b : byte_list a -> zlen b <= u64_max ->
  crc32c_combine (crc32c a) (crc32c b) (zlen b) = crc32c (a ++ b) /\
  crc32c_update (crc32c_update CRC32C_EMPTY a) b = crc32c (a ++ b).
Proof.
  intros Ha Hl. assert (forall x, not_u32 (not_u32 x) = x) as Hnn.
  { intros x. unfold not_u32. by rewrite Z.lxor_assoc, Z.lxor_nilpotent, Z.lxor_0_r. }
  split; [|by unfold crc32c, crc32c_update; rewrite Hnn, foldl_app].
  unfold crc32c_combine. destruct (Z.eqb_spec (zlen b) 0) as [H0|Hne].
  { destruct b as [|x b]; [by rewrite app_nil_r|]. rewrite zlen_cons in H0. pose proof (zlen_nonneg b). lia. }
  pose proof (square_represents _ _ first_matrix crc_bit_linear crc_bit_keeps) as H2.
  assert (linear (fun x => crc_bit (crc_bit x))) as L2 by exact (iter_linear 2 crc_bit crc_bit_linear).
  assert (keeps_word (fun x => crc_bit (crc_bit x))) as K2 by exact (iter_keeps 2 crc_bit crc_bit_keeps).
  pose proof (square_represents _ _ H2 L2 K2) as H4.
  rewrite (combine_loop_spec 64 _ _ (zlen b) (crc32c a) H4);
    [|exact (iter_linear 4 crc_bit crc_bit_linear)|exact (iter_keeps 4 crc_bit crc_bit_keeps)| |by apply crc32c_word].
  2: { pose proof (zlen_nonneg b). unfold u64_max in Hl. lia. }
  match goal with |- Z.lxor ?t _ = _ => change t with (Nat.iter (Z.to_nat (zlen b)) (Nat.iter 8 crc_bit) (crc32c a)) end.
  rewrite iter_bytes. replace (Z.to_nat (zlen b)) with (length b) by (unfold zlen; lia).
  unfold crc32c, crc32c_update. rewrite foldl_app, (running_split b (foldl _ _ a)), (running_split b (not_u32 _)).
  unfold not_u32 at 1 3 6. rewrite advance_linear. change (not_u32 CRC32C_EMPTY) with u32_max.
  change (Z.lxor CRC32C_EMPTY u32_max) with u32_max. unfold not_u32.
  by rewrite (Z.lxor_assoc (advance _ u32_max)), Z.lxor_assoc, lxor_cancel, Z.lxor_assoc.
Qed.

Lemma crc32c_combine_exact_witness :
  crc32c_combine (crc32c [49; 50; 51; 52]) (crc32c [53; 54; 55; 56; 57]) 5 = 0xe3069283.
Proof.
  destruct (crc32c_combine_exact [49; 50; 51; 52] [53; 54; 55; 56; 57]) as [H _]; [repeat constructor; done|done|].
  change 5 with (zlen [53; 54; 55; 56; 57]). rewrite H. by vm_compute.
Defined.
