(* ===== verification/Journal.v ===== *)
(** * The commit journal: records and replay ([crates/vot-journal/src/])

    Records are framed by a fixed header and a CRC32C; replay reads a whole
    file, stops at a torn tail, and refuses anything else that is not a run of
    records of the current incarnation. *)

From S2P Require Import Prelude Crc32c.

Inductive Error :=
| Io | Poisoned | PayloadTooLarge | InvalidHeader | Checksum | SequenceGap | SequenceConflict | StaleIncarnation
| InvalidState | Empty | Locked | TooLarge | Full.

#[export] Instance Error_eq_dec : EqDecision Error.
Proof. solve_decision. Defined.

(** ** Format *)

(** ["VOTJ"]. *)
Definition MAGIC : list Z := [86; 79; 84; 74].
Definition VERSION : Z := 0.
Definition HEADER_LEN : Z := 4 + 1 + 16 + 8 + 1 + 4.
Definition MAX_PAYLOAD : Z := 1048576.
Definition CHECKPOINT_FLAG : Z := 0x80.

Record JournalRecord := mkRecord {
  incarnation : list Z; sequence : Z; state : Z; payload : list Z; checkpoint : bool }.

#[export] Instance JournalRecord_eq_dec : EqDecision JournalRecord.
Proof. solve_decision. Defined.

Record Header := mkHeader {
  h_incarnation : list Z; h_sequence : Z; h_state : Z; h_checkpoint : bool; h_payload_length : Z }.

(** [uN::to_le_bytes] and [uN::from_le_bytes]. *)
Definition to_le_bytes (w : nat) (v : Z) : list Z := rev (to_be_bytes w v).
Definition from_le_bytes (l : list Z) : Z := from_be_bytes (rev l).

(** On a slice of [HEADER_LEN] bytes. *)
Definition header_decode (bytes : list Z) : result Header Error :=
  if negb (bool_decide (slice bytes 0 4 = MAGIC)) || negb (nth 4 bytes 0 =? VERSION) then Err InvalidHeader else
  let encoded_state := nth 29 bytes 0 in
  Ok (mkHeader (slice bytes 5 21) (from_le_bytes (slice bytes 21 29))
    (Z.land encoded_state (u8_max - CHECKPOINT_FLAG)) (negb (Z.land encoded_state CHECKPOINT_FLAG =? 0))
    (from_le_bytes (slice bytes 30 34))).

Definition header_encode (h : Header) : list Z :=
  MAGIC ++ [VERSION] ++ h_incarnation h ++ to_le_bytes 8 (h_sequence h) ++
  [if h_checkpoint h then h_state h + CHECKPOINT_FLAG else h_state h] ++ to_le_bytes 4 (h_payload_length h).

Definition encode (record : JournalRecord) : result (list Z) Error :=
  if MAX_PAYLOAD <? zlen (payload record) then Err PayloadTooLarge else
  if negb (Z.land (state record) CHECKPOINT_FLAG =? 0) then Err InvalidState else
  let header := mkHeader (incarnation record) (sequence record) (state record) (checkpoint record) (zlen (payload record)) in
  let bytes := header_encode header ++ payload record in
  Ok (bytes ++ to_le_bytes 4 (crc32c bytes)).

(** ** Replay *)

Definition MAX_JOURNAL_BYTES : Z := 67108864.

Record Replay := mkReplay { records : list JournalRecord; torn_tail : bool; valid_bytes : Z }.

Definition successor (sequence : Z) : result Z Error := ok_or (checked_add sequence 1) SequenceGap.

Definition next_sequence_after (last : option JournalRecord) : result Z Error :=
  match last with None => Ok 0 | Some record => successor (sequence record) end.

(** What a record read after [records] does to them. *)
Definition admit_record (records : list JournalRecord) (record : JournalRecord) : result (list JournalRecord) Error :=
  match last records with
  | Some previous =>
      if sequence record =? sequence previous then
        if bool_decide (record = previous) then Ok records else Err SequenceConflict
      else if bool_decide (successor (sequence previous) = Ok (sequence record)) then Ok (records ++ [record])
      else Err SequenceGap
  | None => if (sequence record =? 0) || checkpoint record then Ok (records ++ [record]) else Err SequenceGap
  end.

(** The [while] loop; [None] when the fuel runs out. *)
Fixpoint replay_loop (fuel : nat) (bytes current_incarnation : list Z) (offset : Z) (records : list JournalRecord) :
    option (result Replay Error) :=
  match fuel with
  | O => None
  | S fuel =>
      if zlen bytes <=? offset then Some (Ok (mkReplay records false offset)) else
      if zlen bytes - offset <? HEADER_LEN + 4 then Some (Ok (mkReplay records true offset)) else
      match header_decode (slice bytes offset (offset + HEADER_LEN)) with
      | Err e => Some (Err e)
      | Ok header =>
          if negb (bool_decide (h_incarnation header = current_incarnation)) then Some (Err StaleIncarnation) else
          if MAX_PAYLOAD <? h_payload_length header then Some (Err PayloadTooLarge) else
          match checked_add offset (HEADER_LEN + h_payload_length header + 4) with
          | None => Some (Err PayloadTooLarge)
          | Some record_end =>
              if zlen bytes <? record_end then Some (Ok (mkReplay records true offset)) else
              let checksum_at := record_end - 4 in
              let expected := from_le_bytes (slice bytes checksum_at record_end) in
              if negb (crc32c (slice bytes offset checksum_at) =? expected) then Some (Err Checksum) else
              let record := mkRecord (h_incarnation header) (h_sequence header) (h_state header)
                (slice bytes (offset + HEADER_LEN) checksum_at) (h_checkpoint header) in
              match admit_record records record with
              | Err e => Some (Err e)
              | Ok records => replay_loop fuel bytes current_incarnation record_end records
              end
          end
      end
  end.

(** Each turn consumes a record of at least one byte, so one turn more than
    the file has bytes is never reached ([replay_loop_total]). *)
Definition replay_reader (bytes current_incarnation : list Z) : result Replay Error :=
  if MAX_JOURNAL_BYTES <? zlen bytes then Err TooLarge else
  match replay_loop (S (length bytes)) bytes current_incarnation 0 [] with
  | Some r => r
  | None => Err InvalidHeader
  end.

Definition grown_within_ceiling (bytes added : Z) : result Z Error :=
  let? grown := ok_or (checked_add bytes added) Full in
  if MAX_JOURNAL_BYTES <? grown then Err Full else Ok grown.

(** ** Little-endian words *)

Lemma to_le_len w v : zlen (to_le_bytes w v) = Z.of_nat w.
Proof. unfold to_le_bytes, zlen. by rewrite length_rev, length_to_be_bytes. Qed.

Lemma to_le_byte_list w v : byte_list (to_le_bytes w v).
Proof. apply Forall_rev, to_be_bytes_byte_list. Qed.

Lemma from_to_le w v : 0 <= v < 256 ^ Z.of_nat w -> from_le_bytes (to_le_bytes w v) = v.
Proof. intros. unfold from_le_bytes, to_le_bytes. rewrite rev_involutive. by apply from_to_be_bytes. Qed.

Lemma to_from_le w l : byte_list l -> zlen l = Z.of_nat w -> to_le_bytes w (from_le_bytes l) = l.
Proof.
  intros Hl Hw. assert (w = length l) as -> by (unfold zlen in Hw; lia). unfold from_le_bytes, to_le_bytes. rewrite <- (length_rev l), to_from_be_bytes by (by apply Forall_rev).
  apply rev_involutive.
Qed.

Lemma from_le_bound l : byte_list l -> 0 <= from_le_bytes l < 256 ^ zlen l.
Proof.
  intros Hl. unfold from_le_bytes. replace (zlen l) with (zlen (rev l)) by (unfold zlen; by rewrite length_rev).
  by apply from_be_bytes_bound, Forall_rev.
Qed.

(** ** A record and its bytes *)

(** What the writer writes. *)
Record record_ok (r : JournalRecord) : Prop := mkRecordOk {
  ro_incarnation : byte_list (incarnation r) /\ zlen (incarnation r) = 16;
  ro_sequence : is_u64 (sequence r);
  ro_state : 0 <= state r < CHECKPOINT_FLAG;
  ro_payload : byte_list (payload r) /\ zlen (payload r) <= MAX_PAYLOAD }.

Definition record_header (r : JournalRecord) : Header :=
  mkHeader (incarnation r) (sequence r) (state r) (checkpoint r) (zlen (payload r)).
Definition record_body (r : JournalRecord) : list Z := header_encode (record_header r) ++ payload r.
Definition record_bytes (r : JournalRecord) : list Z := record_body r ++ to_le_bytes 4 (crc32c (record_body r)).

Lemma land_128 s : 0 <= s < 256 -> Z.land s CHECKPOINT_FLAG = if s <? 128 then 0 else 128.
Proof. intros Hs. assert (forall n : nat, (n < 256)%nat -> Z.land (Z.of_nat n) 128 = if Z.of_nat n <? 128 then 0 else 128) as H.
  { intros n Hn. do 256 (destruct n as [|n]; [done|]). lia. }
  specialize (H (Z.to_nat s) ltac:(lia)). by rewrite Z2Nat.id in H by lia.
Qed.

Lemma land_127 s : 0 <= s < 256 -> Z.land s (u8_max - CHECKPOINT_FLAG) = if s <? 128 then s else s - 128.
Proof. intros Hs. change (u8_max - CHECKPOINT_FLAG) with (Z.ones 7). rewrite Z.land_ones by lia.
  destruct (Z.ltb_spec s 128); [apply Z.mod_small; lia|]. symmetry. apply (Z.mod_unique _ _ 1); lia.
Qed.

Lemma encode_record_ok r : record_ok r -> encode r = Ok (record_bytes r).
Proof.
  intros [_ _ Hs [_ Hp]]. unfold encode. destruct (Z.ltb_spec MAX_PAYLOAD (zlen (payload r))); [lia|].
  unfold CHECKPOINT_FLAG in Hs. rewrite land_128 by lia. destruct (Z.ltb_spec (state r) 128); [done|lia].
Qed.

Lemma header_encode_len h : zlen (h_incarnation h) = 16 -> zlen (header_encode h) = HEADER_LEN.
Proof. intros H. unfold header_encode. rewrite !zlen_app, H, !to_le_len. done. Qed.

Lemma record_bytes_len r : record_ok r -> zlen (record_bytes r) = HEADER_LEN + zlen (payload r) + 4.
Proof.
  intros [[_ Hi] _ _ _]. unfold record_bytes, record_body. rewrite !zlen_app, header_encode_len, to_le_len by done. lia.
Qed.

Lemma header_byte_list h : byte_list (h_incarnation h) -> 0 <= h_state h < CHECKPOINT_FLAG -> byte_list (header_encode h).
Proof.
  intros Hi Hs. unfold header_encode, byte_list. rewrite !Forall_app, !Forall_singleton.
  split_and!; try apply to_le_byte_list; [repeat constructor; done|done|done|].
  unfold CHECKPOINT_FLAG in *. destruct (h_checkpoint h); mlia.
Qed.

(** A slice that is a known middle part. *)
Lemma slice_part {A} (whole l k m : list A) a b : whole = l ++ k ++ m -> a = zlen l -> b = zlen l + zlen k -> slice whole a b = k.
Proof. intros -> -> ->. apply slice_app_mid. Qed.

Lemma nth_part {A} (whole l m : list A) x d n : whole = l ++ x :: m -> n = length l -> nth n whole d = x.
Proof. intros -> ->. rewrite app_nth2, Nat.sub_diag by lia. done. Qed.

Record header_ok (h : Header) : Prop := mkHeaderOk {
  ho_incarnation : byte_list (h_incarnation h) /\ zlen (h_incarnation h) = 16;
  ho_sequence : is_u64 (h_sequence h);
  ho_state : 0 <= h_state h < CHECKPOINT_FLAG;
  ho_length : 0 <= h_payload_length h < 2 ^ 32 }.

Lemma header_decode_encode h : header_ok h -> header_decode (header_encode h) = Ok h.
Proof.
  intros [[_ Hi] Hq Hs Hl]. unfold header_decode.
  set (st := if h_checkpoint h then h_state h + CHECKPOINT_FLAG else h_state h).
  set (q := to_le_bytes 8 (h_sequence h)). set (pl := to_le_bytes 4 (h_payload_length h)).
  assert (zlen q = 8 /\ zlen pl = 4) as [Hlq Hlp] by (split; apply to_le_len).
  assert (length (h_incarnation h) = 16%nat /\ length q = 8%nat) as [Hni Hnq] by (unfold zlen in *; lia).
  assert (header_encode h = MAGIC ++ [VERSION] ++ h_incarnation h ++ q ++ [st] ++ pl) as He by done.
  rewrite (slice_part (header_encode h) [] MAGIC ([VERSION] ++ h_incarnation h ++ q ++ [st] ++ pl) 0 4) by done.
  rewrite (slice_part (header_encode h) (MAGIC ++ [VERSION]) (h_incarnation h) (q ++ [st] ++ pl) 5 21) by (rewrite ?Hi; done).
  rewrite (slice_part (header_encode h) (MAGIC ++ [VERSION] ++ h_incarnation h) q ([st] ++ pl) 21 29)
    by (rewrite ?He, ?zlen_app, ?Hi, ?Hlq, <- ?app_assoc; done).
  rewrite (slice_part (header_encode h) (MAGIC ++ [VERSION] ++ h_incarnation h ++ q ++ [st]) pl [] 30 34)
    by (rewrite ?He, ?app_nil_r, ?zlen_app, ?Hi, ?Hlq, ?Hlp, <- ?app_assoc; done).
  rewrite (nth_part (header_encode h) (MAGIC ++ [VERSION] ++ h_incarnation h ++ q) pl st 0 29)
    by (rewrite ?He, ?length_app, ?Hni, ?Hnq, <- ?app_assoc; done).
  rewrite bool_decide_eq_true_2 by done. rewrite (nth_part (header_encode h) MAGIC (h_incarnation h ++ q ++ [st] ++ pl) VERSION) by done.
  simpl. unfold q, pl. rewrite !from_to_le by mlia. unfold st, CHECKPOINT_FLAG in *.
  destruct h as [inc sq stt [] len]; simpl in *; rewrite land_127, land_128 by lia; zcases; try lia; simpl; do 2 f_equal; lia.
Qed.

Lemma slice_one {A} (l : list A) (i : nat) d : (i < length l)%nat -> slice l (Z.of_nat i) (Z.of_nat i + 1) = [nth i l d].
Proof.
  intros Hi. unfold slice, ztake, zdrop. replace (Z.of_nat i + 1 - Z.of_nat i) with 1 by lia. rewrite Nat2Z.id.
  revert l Hi. induction i as [|i IH]; intros [|x l] Hi; simpl in *; try lia; [by destruct l|]. apply IH. lia.
Qed.

Lemma slice_bytes l a b : byte_list l -> byte_list (slice l a b).
Proof. intros H. by apply Forall_take, Forall_drop. Qed.

Lemma header_decode_sound bytes h : byte_list bytes -> zlen bytes = HEADER_LEN -> header_decode bytes = Ok h ->
  header_encode h = bytes /\ header_ok h.
Proof.
  intros Hb Hl. unfold header_decode. destruct (bool_decide_reflect (slice bytes 0 4 = MAGIC)) as [Hm|]; [|done].
  destruct (Z.eqb_spec (nth 4 bytes 0) VERSION) as [Hv|]; [|done]. simpl. intros [= <-].
  unfold HEADER_LEN in Hl. simpl in Hl. assert (length bytes = 34%nat) as Hn by (unfold zlen in Hl; lia).
  set (st := nth 29 bytes 0).
  assert (0 <= st < 256) as Hst.
  { assert (is_u8 st) as H; [|mlia]. unfold byte_list in Hb. rewrite Forall_forall in Hb. apply Hb, list_elem_of_In, nth_In. lia. }
  rewrite land_127, land_128 by done. split.
  - unfold header_encode. simpl h_incarnation. simpl h_sequence. simpl h_payload_length.
    rewrite <- Hm, <- Hv.
    rewrite <- (slice_one bytes 4 0 ltac:(lia) : slice bytes 4 5 = _).
    rewrite !to_from_le by (try apply slice_bytes; try done; by rewrite zlen_slice by lia).
    replace [_] with (slice bytes 29 30).
    2: { rewrite (slice_one bytes 29 0 ltac:(lia) : slice bytes 29 30 = _). fold st. simpl. f_equal. unfold CHECKPOINT_FLAG. zcases; simpl; lia. }
    rewrite !slice_cat by lia. by apply slice_all.
  - pose proof (from_le_bound (slice bytes 21 29) (slice_bytes _ _ _ Hb)) as Hq.
    pose proof (from_le_bound (slice bytes 30 34) (slice_bytes _ _ _ Hb)) as Hp.
    rewrite zlen_slice in Hq, Hp by lia.
    constructor; simpl; [split; [by apply slice_bytes|by rewrite zlen_slice by lia]|mlia| |lia].
    unfold CHECKPOINT_FLAG. zcases; lia.
Qed.

(** ** Logs *)

Definition log_bytes (l : list JournalRecord) : list Z := concat (map record_bytes l).

Definition follows (l : list JournalRecord) (r : JournalRecord) : Prop :=
  match last l with None => sequence r = 0 \/ checkpoint r = true | Some p => sequence r = sequence p + 1 end.

(** A run of records of one incarnation: the first starts the journal or is a
    checkpoint, each other carries the next sequence. *)
Inductive chain (inc : list Z) : list JournalRecord -> Prop :=
| chain_nil : chain inc []
| chain_snoc l r : chain inc l -> record_ok r -> incarnation r = inc -> follows l r -> chain inc (l ++ [r]).

Lemma log_bytes_app a b : log_bytes (a ++ b) = log_bytes a ++ log_bytes b.
Proof. unfold log_bytes. by rewrite map_app, concat_app. Qed.

Lemma log_bytes_cons r l : log_bytes (r :: l) = record_bytes r ++ log_bytes l.
Proof. done. Qed.

Lemma chain_inv inc l r : chain inc (l ++ [r]) -> chain inc l /\ record_ok r /\ incarnation r = inc /\ follows l r.
Proof.
  intros H. inversion H as [Hn|l' r' ? ? ? ? He]; [by destruct l|]. apply app_inj_tail in He as [-> ->]. done.
Qed.

Lemma chain_prefix inc a b : chain inc (a ++ b) -> chain inc a.
Proof.
  induction b as [|r b IH] using rev_ind; [by rewrite app_nil_r|]. rewrite app_assoc. intros (H & _)%chain_inv. by apply IH.
Qed.

Lemma chain_cons_inv inc a r b : chain inc (a ++ r :: b) -> record_ok r /\ incarnation r = inc /\ follows a r.
Proof. rewrite (app_assoc a [r] b : a ++ r :: b = (a ++ [r]) ++ b). intros (_ & H)%chain_prefix%chain_inv. done. Qed.

Lemma chain_records inc l : chain inc l -> Forall record_ok l.
Proof. induction 1; [constructor|]. apply Forall_app. split; [done|by constructor]. Qed.

Lemma record_bytes_pos r : record_ok r -> HEADER_LEN + 4 <= zlen (record_bytes r).
Proof. intros H. rewrite record_bytes_len by done. pose proof (zlen_nonneg (payload r)). lia. Qed.

Lemma admit_follows l r : follows l r -> is_u64 (sequence r) -> admit_record l r = Ok (l ++ [r]).
Proof.
  unfold follows, admit_record. destruct (last l) as [p|].
  - intros -> Hu. destruct (Z.eqb_spec (sequence p + 1) (sequence p)); [lia|].
    rewrite bool_decide_eq_true_2; [done|]. unfold successor, checked_add. zcases; [done|mlia].
  - intros [H|H] _; rewrite H; [done|by rewrite orb_true_r].
Qed.

Lemma record_header_ok r : record_ok r -> header_ok (record_header r).
Proof.
  intros [? ? ? [_ Hp]]. constructor; simpl; try done. pose proof (zlen_nonneg (payload r)). unfold MAX_PAYLOAD in Hp. lia.
Qed.

Lemma header_of_record r : record_ok r -> slice (record_bytes r) 0 HEADER_LEN = header_encode (record_header r).
Proof.
  intros H. pose proof (ro_incarnation _ H) as [_ Hi].
  eapply (slice_part _ [] _ (payload r ++ to_le_bytes 4 (crc32c (record_body r)))); [|done|].
  - unfold record_bytes, record_body. by rewrite <- app_assoc.
  - by rewrite header_encode_len.
Qed.

Lemma record_body_bytes r : record_ok r -> byte_list (record_body r).
Proof.
  intros [[Hi _] _ Hs [Hp _]]. unfold record_body. apply Forall_app. split; [by apply header_byte_list|done].
Qed.

Lemma record_body_len r : zlen (record_bytes r) = zlen (record_body r) + 4.
Proof. unfold record_bytes. by rewrite zlen_app, to_le_len. Qed.

(** The parts replay takes out of a file at a record. *)
Lemma record_slices pre r rest : record_ok r ->
  let whole := pre ++ record_bytes r ++ rest in let stop := zlen pre + zlen (record_bytes r) in
  slice whole (zlen pre) (stop - 4) = record_body r /\
  from_le_bytes (slice whole (stop - 4) stop) = crc32c (record_body r) /\
  slice whole (zlen pre + HEADER_LEN) (stop - 4) = payload r.
Proof.
  intros Hr whole stop. pose proof (ro_incarnation _ Hr) as [_ Hi]. subst stop. rewrite record_body_len.
  set (w := to_le_bytes 4 (crc32c (record_body r))). assert (zlen w = 4) as Hw by apply to_le_len.
  assert (whole = pre ++ record_body r ++ w ++ rest) as He by (unfold whole, record_bytes; by rewrite <- app_assoc).
  split_and!.
  - apply (slice_part whole pre _ (w ++ rest)); [done|done|lia].
  - rewrite (slice_part whole (pre ++ record_body r) w rest); [|by rewrite He, <- app_assoc|rewrite zlen_app; lia..].
    apply from_to_le. pose proof (crc32c_word _ (record_body_bytes r Hr)) as Hc. unfold is_word in Hc. simpl. lia.
  - apply (slice_part whole (pre ++ header_encode (record_header r)) _ (w ++ rest)).
    + rewrite He. unfold record_body. by rewrite <- !app_assoc.
    + by rewrite zlen_app, header_encode_len.
    + unfold record_body. rewrite !zlen_app. lia.
Qed.

(** One turn on a complete record. *)
Lemma replay_turn fuel pre r rest recs inc : record_ok r -> incarnation r = inc ->
  zlen (pre ++ record_bytes r ++ rest) <= MAX_JOURNAL_BYTES ->
  replay_loop (S fuel) (pre ++ record_bytes r ++ rest) inc (zlen pre) recs =
    match admit_record recs r with
    | Err e => Some (Err e)
    | Ok recs => replay_loop fuel (pre ++ record_bytes r ++ rest) inc (zlen pre + zlen (record_bytes r)) recs
    end.
Proof.
  intros Hr Hi Hmax. pose proof (record_bytes_len r Hr) as Hlen. rewrite !zlen_app in Hmax.
  pose proof (zlen_nonneg pre). pose proof (zlen_nonneg rest). pose proof (zlen_nonneg (payload r)).
  pose proof (ro_payload _ Hr) as [Hpb Hp]. unfold MAX_JOURNAL_BYTES in Hmax.
  assert (HEADER_LEN = 34) as HH by done.
  cbn [replay_loop]. rewrite !zlen_app. destruct (Z.leb_spec (zlen pre + (zlen (record_bytes r) + zlen rest)) (zlen pre)); [lia|].
  destruct (Z.ltb_spec (zlen pre + (zlen (record_bytes r) + zlen rest) - zlen pre) (HEADER_LEN + 4)); [lia|].
  rewrite <- (Z.add_0_r (zlen pre)) at 1. rewrite (slice_shift pre _ 0 HEADER_LEN) by lia. rewrite slice_app_l by lia.
  rewrite header_of_record, header_decode_encode by (done || by apply record_header_ok). simpl h_incarnation.
  rewrite bool_decide_eq_true_2 by done. cbn [negb h_payload_length record_header].
  destruct (Z.ltb_spec MAX_PAYLOAD (zlen (payload r))); [lia|].
  unfold checked_add. destruct (Z.leb_spec (zlen pre + (HEADER_LEN + zlen (payload r) + 4)) u64_max); [|mlia].
  rewrite <- Hlen. destruct (Z.ltb_spec (zlen pre + (zlen (record_bytes r) + zlen rest)) (zlen pre + zlen (record_bytes r))); [lia|].
  destruct (record_slices pre r rest Hr) as (-> & -> & ->). rewrite Z.eqb_refl. by destruct r.
Qed.

(** The last turn, on what a crash left of a record. *)
Lemma replay_torn fuel pre r t recs inc : record_ok r -> incarnation r = inc -> t `prefix_of` record_bytes r -> zlen t < zlen (record_bytes r) ->
  zlen (pre ++ t) <= MAX_JOURNAL_BYTES ->
  replay_loop (S fuel) (pre ++ t) inc (zlen pre) recs = Some (Ok (mkReplay recs (negb (zlen t =? 0)) (zlen pre))).
Proof.
  intros Hr Hi [t' Ht] Hlt Hmax. pose proof (record_bytes_len r Hr) as Hlen. rewrite zlen_app in Hmax.
  pose proof (zlen_nonneg pre). pose proof (zlen_nonneg t). pose proof (zlen_nonneg (payload r)).
  pose proof (ro_payload _ Hr) as [_ Hp]. unfold MAX_JOURNAL_BYTES in Hmax. assert (HEADER_LEN = 34) as HH by done.
  cbn [replay_loop]. rewrite zlen_app. destruct (Z.leb_spec (zlen pre + zlen t) (zlen pre)).
  { by destruct (Z.eqb_spec (zlen t) 0); [|lia]. }
  destruct (Z.eqb_spec (zlen t) 0); [lia|]. destruct (Z.ltb_spec (zlen pre + zlen t - zlen pre) (HEADER_LEN + 4)); [done|].
  rewrite <- (Z.add_0_r (zlen pre)) at 1. rewrite (slice_shift pre _ 0 HEADER_LEN) by lia.
  rewrite <- (slice_app_l t t' 0 HEADER_LEN), <- Ht by lia.
  rewrite header_of_record, header_decode_encode by (done || by apply record_header_ok). simpl h_incarnation.
  rewrite bool_decide_eq_true_2 by done. cbn [negb h_payload_length record_header].
  destruct (Z.ltb_spec MAX_PAYLOAD (zlen (payload r))); [lia|].
  unfold checked_add. destruct (Z.leb_spec (zlen pre + (HEADER_LEN + zlen (payload r) + 4)) u64_max); [|unfold MAX_PAYLOAD in Hp; mlia].
  rewrite <- Hlen. by destruct (Z.ltb_spec (zlen pre + zlen t) (zlen pre + zlen (record_bytes r))); [|lia].
Qed.

(** The records of a log that lie whole within its first [n] bytes. *)
Fixpoint complete (l : list JournalRecord) (n : Z) : list JournalRecord :=
  match l with
  | [] => []
  | r :: l => if zlen (record_bytes r) <=? n then r :: complete l (n - zlen (record_bytes r)) else []
  end.

Lemma replay_log_loop l : forall done fuel c inc, chain inc (done ++ l) -> c `prefix_of` log_bytes l ->
  (length (complete l (zlen c)) < fuel)%nat ->
  zlen (log_bytes done ++ c) <= MAX_JOURNAL_BYTES ->
  let r := complete l (zlen c) in
  replay_loop fuel (log_bytes done ++ c) inc (zlen (log_bytes done)) done =
    Some (Ok (mkReplay (done ++ r) (negb (zlen (log_bytes r) =? zlen c)) (zlen (log_bytes (done ++ r))))).
Proof.
  induction l as [|x l IH]; intros done fuel c inc Hch Hc Hf Hmax.
  - apply prefix_nil_inv in Hc as ->. destruct fuel as [|fuel]; [simpl in Hf; lia|]. simpl. rewrite !app_nil_r.
    by rewrite Z.leb_refl.
  - destruct (chain_cons_inv _ _ _ _ Hch) as (Hx & Hi & Hfo). destruct fuel as [|fuel]; [simpl in Hf; lia|].
    rewrite log_bytes_cons in Hc. cbn [complete] in Hf |- *. destruct (Z.leb_spec (zlen (record_bytes x)) (zlen c)) as [Hle|Hgt].
    + destruct (prefix_split _ _ _ Hc Hle) as (c' & -> & Hc').
      rewrite replay_turn by done. rewrite admit_follows by (try done; apply ro_sequence, Hx).
      rewrite zlen_app, Z.add_simpl_l in Hf |- *.
      rewrite (app_assoc done [x] l : done ++ x :: l = (done ++ [x]) ++ l) in Hch.
      specialize (IH (done ++ [x]) fuel c' inc Hch Hc' ltac:(simpl in Hf; lia)).
      rewrite log_bytes_app, log_bytes_cons, app_nil_r, <- app_assoc in IH.
      rewrite <- (zlen_app (log_bytes done) (record_bytes x)), IH by done.
      rewrite log_bytes_cons, zlen_app, <- app_assoc. simpl app. do 3 f_equal.
      destruct (Z.eqb_spec (zlen (log_bytes (complete l (zlen c')))) (zlen c')), (Z.eqb_spec (zlen (record_bytes x) + zlen (log_bytes (complete l (zlen c')))) (zlen (record_bytes x) + zlen c')); try done; lia.
    + rewrite (replay_torn fuel (log_bytes done) x c done inc); try done; [|by eapply prefix_short].
      rewrite app_nil_r. simpl. by rewrite Z.eqb_sym.
Qed.

Lemma complete_prefix l n : exists rest, l = complete l n ++ rest /\ match rest with [] => True | r :: _ => n < zlen (log_bytes (complete l n ++ [r])) end.
Proof.
  revert n. induction l as [|x l IH]; intros n; simpl; [by exists []|]. destruct (Z.leb_spec (zlen (record_bytes x)) n) as [H|H].
  - destruct (IH (n - zlen (record_bytes x))) as (rest & He & Hr). exists rest. split; [simpl; by rewrite <- He|].
    destruct rest as [|r rest]; [done|]. simpl app. rewrite log_bytes_cons, zlen_app. lia.
  - exists (x :: l). split; [done|]. simpl. rewrite log_bytes_cons, app_nil_r. lia.
Qed.

Lemma kept_bytes l c : c `prefix_of` log_bytes l -> log_bytes (complete l (zlen c)) `prefix_of` c.
Proof.
  revert c. induction l as [|x l IH]; intros c Hc; simpl; [apply prefix_nil|].
  destruct (Z.leb_spec (zlen (record_bytes x)) (zlen c)); [|apply prefix_nil]. rewrite log_bytes_cons in Hc |- *.
  destruct (prefix_split _ _ _ Hc H) as (c' & -> & Hc'). rewrite zlen_app, Z.add_simpl_l. by apply prefix_app, IH.
Qed.

Lemma log_bytes_long l : Forall record_ok l -> (length l <= length (log_bytes l))%nat.
Proof.
  induction 1 as [|r l Hr _ IH]; [done|]. rewrite log_bytes_cons, length_app. pose proof (record_bytes_pos r Hr) as Hp.
  unfold zlen, HEADER_LEN in Hp. simpl. lia.
Qed.

Lemma replay_log inc l c : chain inc l -> c `prefix_of` log_bytes l -> zlen c <= MAX_JOURNAL_BYTES ->
  let kept := complete l (zlen c) in
  replay_reader c inc = Ok (mkReplay kept (negb (zlen (log_bytes kept) =? zlen c)) (zlen (log_bytes kept))).
Proof.
  intros Hch Hc Hmax kept. unfold replay_reader. destruct (Z.ltb_spec MAX_JOURNAL_BYTES (zlen c)); [lia|].
  pose proof (replay_log_loop l [] (S (length c)) c inc Hch Hc) as H0. cbn [log_bytes map concat app] in H0.
  change (zlen []) with 0 in H0. rewrite H0; [done| |done].
  destruct (complete_prefix l (zlen c)) as (rest & He & _). rewrite He in Hch. apply chain_prefix, chain_records, log_bytes_long in Hch.
  pose proof (prefix_length _ _ (kept_bytes l c Hc)). lia.
Qed.

(** C28: a crash never invents a transition and never hides a complete one.  Cut the bytes of a log anywhere:
    replay succeeds and returns exactly the records that lie whole within what is left, a prefix of the log;
    it counts their bytes as valid, and reports a torn tail exactly when bytes are left over. *)
Theorem replay_of_crashed_log inc l (cut : nat) : chain inc l -> zlen (take cut (log_bytes l)) <= MAX_JOURNAL_BYTES ->
  exists kept lost torn, l = kept ++ lost /\
    replay_reader (take cut (log_bytes l)) inc = Ok (mkReplay kept torn (zlen (log_bytes kept))) /\
    log_bytes kept `prefix_of` take cut (log_bytes l) /\
    (torn = true <-> log_bytes kept <> take cut (log_bytes l)) /\
    match lost with [] => True | next :: _ => zlen (take cut (log_bytes l)) < zlen (log_bytes (kept ++ [next])) end.
Proof.
  intros Hch Hmax. set (c := take cut (log_bytes l)) in *. assert (c `prefix_of` log_bytes l) as Hc by apply prefix_take.
  destruct (complete_prefix l (zlen c)) as (lost & He & Hn). pose proof (kept_bytes l c Hc) as Hp.
  exists (complete l (zlen c)), lost, (negb (zlen (log_bytes (complete l (zlen c))) =? zlen c)).
  split_and!; [done|by apply replay_log|done| |done].
  rewrite negb_true_iff, Z.eqb_neq. split; intros H Heq; apply H; [by rewrite Heq|].
  apply prefix_length_eq; [done|]. by rewrite (Nat2Z.inj _ _ Heq).
Qed.

(** ** What replay accepts *)

Lemma header_length_bound bytes h : byte_list bytes -> header_decode bytes = Ok h -> 0 <= h_payload_length h.
Proof.
  intros Hb. unfold header_decode. destruct (_ || _); [done|]. intros [= <-]. cbn [h_payload_length].
  apply (from_le_bound (slice bytes 30 34)), slice_bytes, Hb.
Qed.

Lemma replay_loop_total fuel bytes inc offset recs : byte_list bytes -> Z.max 0 (zlen bytes - offset) < Z.of_nat fuel ->
  is_Some (replay_loop fuel bytes inc offset recs).
Proof.
  intros Hb. revert offset recs. induction fuel as [|fuel IH]; intros offset recs Hf; [simpl in Hf; lia|]. cbn [replay_loop].
  destruct (Z.leb_spec (zlen bytes) offset); [by eexists|].
  destruct (_ <? _); [by eexists|]. destruct (header_decode _) as [h|] eqn:Hh; [|by eexists].
  apply header_length_bound in Hh; [|by apply slice_bytes].
  destruct (negb _); [by eexists|]. destruct (MAX_PAYLOAD <? _); [by eexists|].
  destruct (checked_add _ _) as [stop|] eqn:Hs; [|by eexists]. apply checked_add_Some in Hs as [-> _].
  destruct (zlen bytes <? _); [by eexists|]. destruct (negb _); [by eexists|].
  destruct (admit_record _ _) as [recs'|]; [|by eexists]. apply IH. unfold HEADER_LEN. lia.
Qed.

Lemma record_parts bytes offset h stop : byte_list bytes -> 0 <= offset ->
  header_decode (slice bytes offset (offset + HEADER_LEN)) = Ok h -> h_payload_length h <= MAX_PAYLOAD ->
  stop = offset + (HEADER_LEN + h_payload_length h + 4) -> stop <= zlen bytes ->
  crc32c (slice bytes offset (stop - 4)) = from_le_bytes (slice bytes (stop - 4) stop) ->
  let r := mkRecord (h_incarnation h) (h_sequence h) (h_state h) (slice bytes (offset + HEADER_LEN) (stop - 4)) (h_checkpoint h) in
  record_ok r /\ slice bytes offset stop = record_bytes r.
Proof.
  intros Hb Ho Hh Hp -> Hs Hcrc r. pose proof (header_length_bound _ _ (slice_bytes _ _ _ Hb) Hh) as Hl.
  assert (HEADER_LEN = 34) as HH by done. set (stop := offset + (HEADER_LEN + h_payload_length h + 4)) in *.
  destruct (header_decode_sound _ h (slice_bytes bytes offset (offset + HEADER_LEN) Hb)) as [He [Hi Hq Hst Hlen]];
    [rewrite zlen_slice; lia|done|].
  assert (zlen (payload r) = h_payload_length h) as Hpl by (unfold r; cbn [payload]; rewrite zlen_slice; lia).
  split; [constructor; try done; split; [by apply slice_bytes|lia]|].
  assert (record_body r = slice bytes offset (stop - 4)) as Hbody.
  { unfold record_body. rewrite <- (slice_cat bytes offset (offset + HEADER_LEN) (stop - 4)) by lia. f_equal.
    rewrite <- He. unfold record_header. rewrite Hpl. by destruct h. }
  unfold record_bytes. rewrite Hbody, Hcrc, to_from_le by (try apply slice_bytes; try done; rewrite zlen_slice; lia).
  by rewrite slice_cat by lia.
Qed.

Lemma replay_turn_inv fuel bytes inc offset recs rp : byte_list bytes -> 0 <= offset ->
  replay_loop (S fuel) bytes inc offset recs = Some (Ok rp) ->
  (exists torn, rp = mkReplay recs torn offset /\ (torn = false -> zlen bytes <= offset)) \/
  exists r recs', record_ok r /\ incarnation r = inc /\ offset + zlen (record_bytes r) <= zlen bytes /\
    slice bytes offset (offset + zlen (record_bytes r)) = record_bytes r /\ admit_record recs r = Ok recs' /\
    replay_loop fuel bytes inc (offset + zlen (record_bytes r)) recs' = Some (Ok rp).
Proof.
  intros Hb Ho. cbn [replay_loop]. destruct (Z.leb_spec (zlen bytes) offset); [intros [= <-]; left; by eexists|].
  destruct (_ <? _); [intros [= <-]; left; by eexists|]. destruct (header_decode _) as [h|] eqn:Hh; [|done].
  destruct (bool_decide_reflect (h_incarnation h = inc)) as [Hi|]; [|done]. simpl negb. cbv iota.
  destruct (Z.ltb_spec MAX_PAYLOAD (h_payload_length h)); [done|].
  destruct (checked_add _ _) as [stop|] eqn:Hs; [|done]. apply checked_add_Some in Hs as [Hs _].
  destruct (Z.ltb_spec (zlen bytes) stop); [intros [= <-]; left; by eexists|].
  destruct (Z.eqb_spec (crc32c (slice bytes offset (stop - 4))) (from_le_bytes (slice bytes (stop - 4) stop))) as [Hc|]; [|done].
  simpl negb. cbv iota. set (r := mkRecord _ _ _ _ _). destruct (admit_record recs r) as [recs'|] eqn:Ha; [|done]. intros Hl.
  destruct (record_parts bytes offset h stop Hb Ho Hh ltac:(done) Hs ltac:(done) Hc) as [Hr Hsl]. fold r in Hr, Hsl.
  pose proof (header_length_bound _ _ (slice_bytes _ _ _ Hb) Hh).
  assert (zlen (record_bytes r) = stop - offset) as Hz by (rewrite <- Hsl, zlen_slice; unfold HEADER_LEN in *; lia).
  right. exists r, recs'. rewrite Hz. replace (offset + (stop - offset)) with stop by lia. done.
Qed.

(** A log with immediate repetitions of a record taken as one. *)
Definition collapse (l : list JournalRecord) : list JournalRecord :=
  foldl (fun acc r => if bool_decide (last acc = Some r) then acc else acc ++ [r]) [] l.

Lemma collapse_snoc l r : collapse (l ++ [r]) = if bool_decide (last (collapse l) = Some r) then collapse l else collapse l ++ [r].
Proof. unfold collapse. by rewrite foldl_app. Qed.

(** An admitted record repeats the last or follows it. *)
Lemma admit_inv recs r recs' inc : admit_record recs r = Ok recs' -> chain inc recs -> record_ok r -> incarnation r = inc ->
  chain inc recs' /\ recs' = if bool_decide (last recs = Some r) then recs else recs ++ [r].
Proof.
  unfold admit_record. intros Ha Hch Hr Hi. destruct (last recs) as [p|] eqn:Hl.
  - destruct (Z.eqb_spec (sequence r) (sequence p)).
    + destruct (bool_decide_reflect (r = p)) as [->|]; [|done]. injection Ha as <-. by rewrite bool_decide_eq_true_2.
    + destruct (bool_decide_reflect (successor (sequence p) = Ok (sequence r))) as [Hs|]; [|done]. injection Ha as <-.
      rewrite bool_decide_eq_false_2 by congruence. split; [|done]. constructor; try done. unfold follows. rewrite Hl.
      unfold successor in Hs. destruct (checked_add _ _) as [q|] eqn:Hq; [|done]. apply checked_add_Some in Hq. simpl in Hs. injection Hs. lia.
  - destruct (_ || _) eqn:Ho; [|done]. injection Ha as <-. split; [|done]. constructor; try done. unfold follows. rewrite Hl.
    apply orb_true_iff in Ho as [Ho|Ho]; [left; lia|by right].
Qed.

Lemma replay_sound_loop fuel bytes inc written recs rp : byte_list bytes -> log_bytes written `prefix_of` bytes -> Forall record_ok written ->
  recs = collapse written -> chain inc recs -> replay_loop fuel bytes inc (zlen (log_bytes written)) recs = Some (Ok rp) ->
  exists more, Forall record_ok more /\ log_bytes (written ++ more) `prefix_of` bytes /\ records rp = collapse (written ++ more) /\
    chain inc (records rp) /\ valid_bytes rp = zlen (log_bytes (written ++ more)) /\
    (torn_tail rp = false -> valid_bytes rp = zlen bytes).
Proof.
  intros Hb. revert written recs. induction fuel as [|fuel IH]; intros written recs Hw Hok Hc Hch Hl; [done|].
  apply replay_turn_inv in Hl as [(torn & -> & Ht)|(r & recs' & Hr & Hi & Hle & Hsl & Ha & Hl)]; [| |done|apply zlen_nonneg].
  - exists []. rewrite app_nil_r. split_and!; try done. simpl. intros H. specialize (Ht H). destruct Hw as [k ->].
    rewrite zlen_app in *. pose proof (zlen_nonneg k). lia.
  - destruct (admit_inv _ _ _ inc Ha Hch Hr Hi) as [Hch' He].
    destruct Hw as [k Hk]. destruct (IH (written ++ [r]) recs') as (more & Hm); try done.
    + rewrite log_bytes_app, log_bytes_cons, app_nil_r. rewrite Hk. apply prefix_app. rewrite Hk in Hsl, Hle.
      rewrite <- (Z.add_0_r (zlen (log_bytes written))) in Hsl at 1. rewrite slice_shift in Hsl by lia. rewrite <- Hsl.
      unfold slice. apply prefix_take.
    + apply Forall_app. split; [done|by constructor].
    + by rewrite collapse_snoc, <- Hc.
    + by rewrite log_bytes_app, log_bytes_cons, app_nil_r, zlen_app.
    + exists (r :: more). rewrite (app_assoc written [r] more : written ++ r :: more = (written ++ [r]) ++ more).
      destruct Hm as (Hf & Hm). split; [by constructor|done].
Qed.

(** replay accepts nothing but records.  Whatever bytes a file holds, replay answers; and when it accepts,
    the bytes it counts as valid are exactly the encodings of whole records, each with its checksum, of the
    current incarnation, numbered without a gap from zero or from a checkpoint, an immediate repetition of a
    record being counted once; with no torn tail they are the whole file. *)
Theorem replay_accepts_only_logs bytes inc rp : byte_list bytes -> replay_reader bytes inc = Ok rp ->
  exists written, Forall record_ok written /\ ztake (valid_bytes rp) bytes = log_bytes written /\
    records rp = collapse written /\ chain inc (records rp) /\ (torn_tail rp = false -> valid_bytes rp = zlen bytes).
Proof.
  intros Hb. unfold replay_reader. destruct (_ <? _); [done|].
  destruct (replay_loop_total (S (length bytes)) bytes inc 0 [] Hb) as [r Hr]; [unfold zlen; lia|]. rewrite Hr. intros ->.
  destruct (replay_sound_loop (S (length bytes)) bytes inc [] [] rp Hb) as (more & Hf & [k Hk] & Hrec & Hch & Hv & Ht); try done;
    [apply prefix_nil|constructor|].
  exists more. split_and!; try done. rewrite Hv, Hk. apply ztake_app.
Qed.
