(* ===== verification/JournalWriter.v ===== *)
(** * The commit journal: the writer and the disk under it ([crates/vot-journal/src/io_impl.rs])

    A journal is an open file that is appended to, repaired and replaced.  The
    disk is modelled by what a file holds and what of it a power loss must
    leave: each call of the operating system the writer makes is written out,
    with its outcome an argument of the operation. *)

From S2P Require Import Prelude Crc32c Journal.

(** ** Files *)

(** What reading a file gives now, and what was there at its last
    synchronization. *)
Record File := mkFile { content : list Z; durable : list Z }.

(** [write_all] at a position within the file; [sync_data]; [set_len]. *)
Definition write_at (position : Z) (bytes : list Z) (f : File) : File :=
  mkFile (ztake position (content f) ++ bytes ++ zdrop (position + zlen bytes) (content f)) (durable f).
Definition sync_data (f : File) : File := mkFile (content f) (content f).
Definition set_len (n : Z) (f : File) : File :=
  mkFile (ztake n (content f) ++ repeat 0 (Z.to_nat (n - zlen (content f)))) (durable f).

(** The files of a directory, the one the journal's name is bound to, and the
    one it is bound to in the directory's last synchronization. *)
Record Disk := mkDisk { inodes : list File; name : nat; name_durable : nat }.

Definition inode (d : Disk) (i : nat) : File := default (mkFile [] []) (inodes d !! i).
Definition on_inode (i : nat) (f : File -> File) (d : Disk) : Disk := mkDisk (alter f i (inodes d)) (name d) (name_durable d).
Definition sync_parent (d : Disk) : Disk := mkDisk (inodes d) (name d) (name d).

(** ** The writer *)

(** [file] is the open file and [position] where its handle stands. *)
Record Journal := mkJournal {
  file : nat; position : Z; bytes : Z; j_incarnation : list Z; next_sequence : Z; poisoned : bool }.

Definition poison (j : Journal) : Journal :=
  mkJournal (file j) (position j) (bytes j) (j_incarnation j) (next_sequence j) true.
Definition seek (p : Z) (j : Journal) : Journal :=
  mkJournal (file j) p (bytes j) (j_incarnation j) (next_sequence j) (poisoned j).

Definition get_all : M (Journal * Disk) Error (Journal * Disk) := fun s => (Ok s, s).
Definition put_all (j : Journal) (d : Disk) : M (Journal * Disk) Error unit := fun _ => (Ok tt, (j, d)).

(** Whether a call succeeds. *)
Definition check_io (ok : bool) : M (Journal * Disk) Error unit := if ok then ret tt else fail Io.

(** [claimed]: the error of opening and locking the file, if any. *)
Record CreateIo := mkCreateIo { c_claimed : option Error; c_parent : bool }.

(** The path did not exist; a failure removes what was created. *)
Definition create_at (io : CreateIo) (incarnation : list Z) : result (Journal * Disk) Error :=
  match c_claimed io with
  | Some e => Err e
  | None => if c_parent io then Ok (mkJournal 0 0 0 incarnation 0 false, mkDisk [mkFile [] []] 0 0) else Err Io
  end.

Record OpenIo := mkOpenIo { o_claimed : option Error; o_read : bool; o_set_len : bool; o_sync : bool; o_seek : bool }.

Definition open_at (io : OpenIo) (incarnation : list Z) (d : Disk) : result (Journal * Replay) Error * Disk :=
  let file := name d in
  match o_claimed io with
  | Some e => (Err e, d)
  | None =>
      if negb (o_read io) then (Err Io, d) else
      match replay_reader (content (inode d file)) incarnation with
      | Err e => (Err e, d)
      | Ok replay =>
          match next_sequence_after (last (records replay)) with
          | Err e => (Err e, d)
          | Ok next =>
              let opened d :=
                if negb (o_seek io) then (Err Io, d) else
                let size := zlen (content (inode d file)) in
                (Ok (mkJournal file size size incarnation next false, replay), d) in
              if torn_tail replay then
                if negb (o_set_len io) then (Err Io, d) else
                let d := on_inode file (set_len (valid_bytes replay)) d in
                if negb (o_sync io) then (Err Io, d) else
                opened (on_inode file sync_data d)
              else opened d
          end
      end
  end.

(** [a_landed]: how many bytes landed when the write failed. *)
Record AppendIo := mkAppendIo { a_landed : option nat; a_sync : bool }.

Definition append_durable (io : AppendIo) (state : Z) (payload : list Z) : M (Journal * Disk) Error Z :=
  let! (j, d) := get_all in
  if poisoned j then fail Poisoned else
  if MAX_PAYLOAD <? zlen payload then fail PayloadTooLarge else
  if negb (Z.land state CHECKPOINT_FLAG =? 0) then fail InvalidState else
  let sequence := next_sequence j in
  let! following := lift (successor sequence) in
  let record := mkRecord (j_incarnation j) sequence state payload false in
  let! encoded := lift (encode record) in
  let! grown := lift (grown_within_ceiling (bytes j) (zlen encoded)) in
  let wrote part := on_inode (file j) (write_at (position j) part) d in
  match a_landed io with
  | Some n => put_all (poison (seek (position j + zlen (take n encoded)) j)) (wrote (take n encoded)) ;! fail Io
  | None =>
      let stand := position j + zlen encoded in
      if a_sync io then
        put_all (mkJournal (file j) stand grown (j_incarnation j) following (poisoned j))
          (on_inode (file j) sync_data (wrote encoded)) ;!
        ret sequence
      else put_all (poison (seek stand j)) (wrote encoded) ;! fail Io
  end.

Definition sync_replay (ok : bool) : M (Journal * Disk) Error unit :=
  let! (j, d) := get_all in
  if poisoned j then fail Poisoned else
  check_io ok ;!
  put_all j (on_inode (file j) sync_data d).

Record RepairIo := mkRepairIo { r_same : bool; r_read : bool; r_set_len : bool; r_sync : bool; r_seek : bool }.

Definition repair_poisoned (io : RepairIo) : M (Journal * Disk) Error Replay :=
  let! (j, d) := get_all in
  if negb (poisoned j) then fail InvalidState else
  check_io (r_same io) ;!
  if negb (file j =? name d)%nat then fail InvalidState else
  let j := seek 0 j in
  put_all j d ;!
  check_io (r_read io) ;!
  let j := seek (zlen (content (inode d (file j)))) j in
  put_all j d ;!
  let! replay := lift (replay_reader (content (inode d (file j))) (j_incarnation j)) in
  (if torn_tail replay then check_io (r_set_len io) else ret tt) ;!
  let d := if torn_tail replay then on_inode (file j) (set_len (valid_bytes replay)) d else d in
  put_all j d ;!
  check_io (r_sync io) ;!
  let d := on_inode (file j) sync_data d in
  put_all j d ;!
  check_io (r_seek io) ;!
  let size := zlen (content (inode d (file j))) in
  put_all (seek size j) d ;!
  let! next := lift (next_sequence_after (last (records replay))) in
  put_all (mkJournal (file j) size size (j_incarnation j) next false) d ;!
  ret replay.

(** [renamed]: the rename took effect; [k_rename]: it was reported to. *)
Record CompactIo := mkCompactIo {
  k_prepare : option Error; k_renamed : bool; k_rename : bool; k_parent : bool; k_read : bool }.

Definition finish_compaction (io : CompactIo) (replacement : nat) (next : Z) : M (Journal * Disk) Error unit :=
  let! (j, d) := get_all in
  check_io (k_parent io) ;!
  let d := sync_parent d in
  put_all j d ;!
  check_io (k_read io) ;!
  let! replayed := lift (replay_reader (content (inode d replacement)) (j_incarnation j)) in
  if torn_tail replayed || negb (length (records replayed) =? 1)%nat then fail InvalidHeader else
  let size := zlen (content (inode d replacement)) in
  put_all (mkJournal replacement size size (j_incarnation j) next false) d.

(** [inspect_err(|_| self.poisoned = true)]. *)
Definition poisoning {X} (m : M (Journal * Disk) Error X) : M (Journal * Disk) Error X := fun s =>
  match m s with (Err e, (j, d)) => (Err e, (poison j, d)) | r => r end.

Definition compact_checkpoint (io : CompactIo) (state : Z) (payload : list Z) : M (Journal * Disk) Error unit :=
  let! (j, d) := get_all in
  if poisoned j then fail Poisoned else
  if negb (Z.land state CHECKPOINT_FLAG =? 0) then fail InvalidState else
  if MAX_PAYLOAD <? zlen payload then fail PayloadTooLarge else
  let next := next_sequence j in
  if next =? 0 then fail Empty else
  let record := mkRecord (j_incarnation j) (next - 1) state payload true in
  let! encoded := lift (encode record) in
  match k_prepare io with
  | Some e => fail e
  | None =>
      let replacement := length (inodes d) in
      let files := inodes d ++ [mkFile encoded encoded] in
      put_all j (mkDisk files (if k_renamed io || k_rename io then replacement else name d) (name_durable d)) ;!
      poisoning (check_io (k_rename io)) ;!
      poisoning (finish_compaction io replacement next)
  end.
