(* ===== verification/JournalCrash.v ===== *)
(** * The commit journal: what survives ([crates/vot-journal/src/io_impl.rs])

    Any sequence of calls of the writer, with any outcome of its system calls,
    and any sequence of restarts and power losses: each file keeps what was
    acknowledged in it ([history]), the caller finds what it was told is durable
    ([account]), and nothing is there that was not written. *)

From S2P Require Import Prelude Crc32c Journal JournalWriter.

(** ** Power loss *)

(** How many bytes two contents agree on. *)
Fixpoint agree (a b : list Z) : nat :=
  match a, b with
  | x :: a, y :: b => if x =? y then S (agree a b) else O
  | _, _ => O
  end.

(** A power loss leaves a file with a prefix of what it held or of what it
    held when last synchronized, and with every byte the two agree on. *)
Definition crash_content (f : File) (c : list Z) : Prop :=
  exists k, (agree (content f) (durable f) <= k)%nat /\ (c = take k (content f) \/ c = take k (durable f)).

(** It leaves the name bound as it was or as last synchronized. *)
Record crash_disk (d d' : Disk) : Prop := mkCrash {
  cd_files : length (inodes d') = length (inodes d);
  cd_content : forall i, (i < length (inodes d))%nat -> crash_content (inode d i) (content (inode d' i)) /\
    durable (inode d' i) = content (inode d' i);
  cd_name : name d' = name d \/ name d' = name_durable d;
  cd_durable : name_durable d' = name d' }.

Lemma write_end f l part : content f = log_bytes l -> content (write_at (zlen (log_bytes l)) part f) = log_bytes l ++ part.
Proof.
  intros H. unfold write_at. cbn [content]. rewrite H, ztake_all by lia. rewrite app_assoc. rewrite <- app_assoc.
  unfold zdrop. rewrite drop_ge; [by rewrite app_nil_r|]. pose proof (zlen_nonneg part). unfold zlen in *. lia.
Qed.

(** ** Histories *)

Section histories.
Context (inc : list Z).

Definition records_of (c : list Z) : list JournalRecord :=
  match replay_reader c inc with Ok replay => records replay | Err _ => [] end.

(** [ack i d s]: what file [i] holds in [d] is acknowledged. *)
Definition ack (i : nat) (d : Disk) (s : nat -> list JournalRecord) : nat -> list JournalRecord :=
  fun k => if decide (k = i) then records_of (content (inode d i)) else s k.

(** The writer, if one is open, and the disk; for each file the records a
    successful call has acknowledged it to hold; and every record ever handed
    to the journal.  A successful append, repair, compaction or
    synchronization acknowledges what the file then holds. *)
Inductive history : option Journal -> Disk -> (nat -> list JournalRecord) -> list JournalRecord -> Prop :=
| h_create io j d : create_at io inc = Ok (j, d) -> history (Some j) d (fun _ => []) []
| h_append io st p j d s t r j' d' : history (Some j) d s t -> is_u8 st -> byte_list p ->
    append_durable io st p (j, d) = (r, (j', d')) ->
    history (Some j') d' (if is_ok r then ack (file j') d' s else s) (t ++ [mkRecord inc (next_sequence j) st p false])
| h_sync ok j d s t r j' d' : history (Some j) d s t -> sync_replay ok (j, d) = (r, (j', d')) ->
    history (Some j') d' (if is_ok r then ack (file j') d' s else s) t
| h_repair io j d s t r j' d' : history (Some j) d s t -> repair_poisoned io (j, d) = (r, (j', d')) ->
    history (Some j') d' (if is_ok r then ack (file j') d' s else s) t
| h_compact io st p j d s t r j' d' : history (Some j) d s t -> is_u8 st -> byte_list p ->
    compact_checkpoint io st p (j, d) = (r, (j', d')) ->
    history (Some j') d' (ack (length (inodes d)) d' s) (t ++ [mkRecord inc (next_sequence j - 1) st p true])
| h_exit j d s t : history (Some j) d s t -> history None d s t
| h_open io d s t r d' : history None d s t -> open_at io inc d = (r, d') ->
    history (match r with Ok (j, _) => Some j | Err _ => None end) d' s t
| h_power o d s t d' : history o d s t -> crash_disk d d' -> history None d' s t.

(** ** What a file holds *)

Context (Hinc : byte_list inc /\ zlen inc = 16).

Definition told (t : list JournalRecord) (r : JournalRecord) : Prop := r ∈ t /\ sequence r < u64_max.

(** The bytes [c] are a log of told records cut somewhere after [s]. *)
Definition holds (c : list Z) (s t : list JournalRecord) : Prop :=
  exists a, chain inc a /\ c `prefix_of` log_bytes a /\ s `prefix_of` a /\ log_bytes s `prefix_of` c /\
    Forall (told t) a /\ zlen c <= MAX_JOURNAL_BYTES.

Definition file_ok (f : File) (s t : list JournalRecord) : Prop := holds (content f) s t /\ holds (durable f) s t.

Lemma holds_take c s t k : holds c s t -> (length (log_bytes s) <= k)%nat -> holds (take k c) s t.
Proof using.
  intros (a & Ha & Hc & Hs & Hl & Ht & Hm) Hk. exists a. split_and!; try done.
  - etrans; [apply prefix_take|done].
  - destruct Hl as [x ->]. rewrite take_app_ge by done. by apply prefix_app_r.
  - unfold zlen in *. rewrite length_take. lia.
Qed.

Lemma holds_log l t : chain inc l -> Forall (told t) l -> zlen (log_bytes l) <= MAX_JOURNAL_BYTES -> holds (log_bytes l) l t.
Proof using. intros. by exists l. Qed.

Lemma holds_mono c s t t' : (forall r, r ∈ t -> r ∈ t') -> holds c s t -> holds c s t'.
Proof using.
  intros Hsub (a & Ha & Hc & Hs & Hl & Ht & Hm). exists a. split_and!; try done.
  eapply Forall_impl; [done|]. intros r [Hr Hq]. split; [by apply Hsub|done].
Qed.

Lemma prefix_complete s a n : s `prefix_of` a -> zlen (log_bytes s) <= n -> s `prefix_of` complete a n.
Proof using.
  revert a n. induction s as [|x s IH]; intros a n Hs Hn; [apply prefix_nil|]. destruct Hs as [k ->]. simpl.
  rewrite log_bytes_cons, zlen_app in Hn. pose proof (zlen_nonneg (log_bytes s)).
  destruct (Z.leb_spec (zlen (record_bytes x)) n); [|lia]. apply prefix_cons, IH; [by apply prefix_app_r|lia].
Qed.

(** Replay of such bytes. *)
Lemma holds_replay c s t : holds c s t -> exists l torn, replay_reader c inc = Ok (mkReplay l torn (zlen (log_bytes l))) /\
  s `prefix_of` l /\ chain inc l /\ Forall (told t) l /\ log_bytes l `prefix_of` c /\ (torn = false -> c = log_bytes l).
Proof using.
  intros (a & Ha & Hc & Hs & Hl & Ht & Hm). rewrite (replay_log inc a c Ha Hc Hm).
  destruct (complete_prefix a (zlen c)) as (rest & He & _). pose proof (kept_bytes a c Hc) as Hp. do 2 eexists. split; [done|].
  split_and!; try done.
  - apply prefix_complete; [done|]. apply prefix_length in Hl. unfold zlen. lia.
  - rewrite He in Ha. by apply chain_prefix in Ha.
  - rewrite He, Forall_app in Ht. by destruct Ht.
  - intros Hf%negb_false_iff%Z.eqb_eq. symmetry. apply prefix_length_eq; [done|]. by rewrite (Nat2Z.inj _ _ Hf).
Qed.

Lemma next_of l t : Forall (told t) l -> Forall record_ok l -> exists n, next_sequence_after (last l) = Ok n /\ is_u64 n.
Proof using.
  intros Ht Ho. destruct (last l) as [r|] eqn:Hl; simpl; [|by exists 0].
  apply last_Some in Hl as [l' ->]. apply Forall_app in Ht as [_ [[_ Hq] _]%Forall_cons]. apply Forall_app in Ho as [_ [Ho _]%Forall_cons].
  unfold successor, checked_add. exists (sequence r + 1). pose proof (ro_sequence _ Ho). zcases; [split; [done|mlia]|mlia].
Qed.

Lemma agree_prefix p a b : p `prefix_of` a -> p `prefix_of` b -> (length p <= agree a b)%nat.
Proof using.
  intros [x ->] [y ->]. induction p as [|z p IH]; simpl; [lia|]. rewrite Z.eqb_refl. lia.
Qed.

Lemma crash_holds f s t c : file_ok f s t -> crash_content f c -> holds c s t.
Proof using.
  intros [H1 H2] (k & Hk & Hc).
  assert (length (log_bytes s) <= k)%nat as Hl.
  { destruct H1 as (? & _ & _ & _ & P1 & _), H2 as (? & _ & _ & _ & P2 & _). pose proof (agree_prefix _ _ _ P1 P2). lia. }
  destruct Hc as [-> | ->]; by apply holds_take.
Qed.

Lemma complete_all l : complete l (zlen (log_bytes l)) = l.
Proof using.
  induction l as [|r l IH]; [done|]. cbn [complete]. rewrite log_bytes_cons, zlen_app. pose proof (zlen_nonneg (log_bytes l)).
  destruct (Z.leb_spec (zlen (record_bytes r)) (zlen (record_bytes r) + zlen (log_bytes l))); [|lia].
  by rewrite Z.add_simpl_l, IH.
Qed.

Lemma replay_whole l : chain inc l -> zlen (log_bytes l) <= MAX_JOURNAL_BYTES ->
  replay_reader (log_bytes l) inc = Ok (mkReplay l false (zlen (log_bytes l))).
Proof using. intros Hl Hm. rewrite (replay_log inc l) by done. by rewrite complete_all, Z.eqb_refl. Qed.

Lemma records_of_log l : chain inc l -> zlen (log_bytes l) <= MAX_JOURNAL_BYTES -> records_of (log_bytes l) = l.
Proof using. intros Hl Hm. unfold records_of. by rewrite replay_whole. Qed.

Lemma holds_max c s t : holds c s t -> zlen c <= MAX_JOURNAL_BYTES.
Proof using. by intros (? & _ & _ & _ & _ & _ & H). Qed.

Lemma holds_full l s t : holds (log_bytes l) s t -> chain inc l -> s `prefix_of` l.
Proof using.
  intros H Hl. pose proof (holds_max _ _ _ H). destruct (holds_replay _ _ _ H) as (l' & torn & Hr & Hs & _).
  rewrite replay_whole in Hr by done. by injection Hr as <- _ _.
Qed.

(** ** The invariant *)

Definition disk_ok (d : Disk) (s : nat -> list JournalRecord) (t : list JournalRecord) : Prop :=
  (forall i, (i < length (inodes d))%nat -> file_ok (inode d i) (s i) t) /\
  (name d < length (inodes d))%nat /\ (name_durable d < length (inodes d))%nat.

(** An unpoisoned writer stands at the end of a whole log in the named file. *)
Definition writer_ok (j : Journal) (d : Disk) (t : list JournalRecord) : Prop :=
  (file j < length (inodes d))%nat /\ j_incarnation j = inc /\
  (poisoned j = false -> file j = name d /\ exists l, chain inc l /\ content (inode d (file j)) = log_bytes l /\
     Forall (told t) l /\ position j = zlen (log_bytes l) /\ bytes j = zlen (log_bytes l) /\
     next_sequence_after (last l) = Ok (next_sequence j)).

Lemma inode_on_inode i f d k : (i < length (inodes d))%nat ->
  inode (on_inode i f d) k = if decide (k = i) then f (inode d i) else inode d k.
Proof using.
  intros Hi. unfold inode, on_inode. simpl. destruct (decide (k = i)) as [->|Hne].
  - rewrite list_lookup_alter_eq. destruct (inodes d !! i) as [x|] eqn:He; [done|]. apply lookup_ge_None in He. lia.
  - by rewrite list_lookup_alter_ne.
Qed.

Lemma disk_ok_mono d s t t' : (forall r, r ∈ t -> r ∈ t') -> disk_ok d s t -> disk_ok d s t'.
Proof using.
  intros Hsub (H & Hn). split; [|done]. intros i Hi. destruct (H i Hi). split; by eapply holds_mono.
Qed.

Lemma writer_ok_mono j d t t' : (forall r, r ∈ t -> r ∈ t') -> writer_ok j d t -> writer_ok j d t'.
Proof using.
  intros Hsub (Hf & Hi & H). split_and!; try done. intros Hp. destruct (H Hp) as (Hn & l & Hl & Hc & Ht & Hr). split; [done|].
  exists l. split_and!; try done; try apply Hr. eapply Forall_impl; [done|]. intros r [? ?]. split; [by apply Hsub|done].
Qed.

Lemma disk_ok_update i f d s s' t : (i < length (inodes d))%nat -> disk_ok d s t -> file_ok (f (inode d i)) (s' i) t ->
  (forall k, k <> i -> s' k = s k) -> disk_ok (on_inode i f d) s' t.
Proof using.
  intros Hi (H & Hn) Hf Hs. unfold disk_ok. unfold on_inode at 1 3 4 5 6. cbn [inodes name name_durable]. rewrite length_alter. split; [|done].
  intros k Hk. rewrite inode_on_inode by done. destruct (decide (k = i)) as [->|Hne]; [done|]. rewrite Hs by done. by apply H.
Qed.

Lemma poison_ok j d t : (file j < length (inodes d))%nat -> j_incarnation j = inc -> poisoned j = true -> writer_ok j d t.
Proof using. intros. split_and!; try done. congruence. Qed.

Lemma ack_same i d s : ack i d s i = records_of (content (inode d i)).
Proof using. unfold ack. by rewrite decide_True. Qed.

Lemma ack_other i d s k : k <> i -> ack i d s k = s k.
Proof using. intros. unfold ack. by rewrite decide_False. Qed.

(** A step from [d] to [d'] leaves the directory alone, and where it succeeds the
    named file is the writer's and holds what it was known to hold and [rs]. *)
Definition vouched (s : nat -> list JournalRecord) (d d' : Disk) (ok : bool) (j' : Journal) (rs : list JournalRecord) : Prop :=
  name d' = name d /\ name_durable d' = name_durable d /\
  (ok = true -> file j' = name d' /\ exists l, records_of (content (inode d' (name d'))) = l /\ s (name d') `prefix_of` l /\
     Forall (fun r => r ∈ l) rs).

Lemma vouched_not s d d' j' rs : name d' = name d -> name_durable d' = name_durable d -> vouched s d d' false j' rs.
Proof using. by intros. Qed.

(** ** Appending *)

(** The record an append writes. *)
Lemma next_record l j st p : chain inc l -> next_sequence_after (last l) = Ok (next_sequence j) -> is_u8 st ->
  byte_list p -> zlen p <= MAX_PAYLOAD -> Z.land st CHECKPOINT_FLAG = 0 -> is_u64 (next_sequence j) ->
  let r := mkRecord inc (next_sequence j) st p false in record_ok r /\ chain inc (l ++ [r]).
Proof using Hinc.
  intros Hl Hn Hs Hp Hm Hz Hu r.
  assert (0 <= st < CHECKPOINT_FLAG) as Hst.
  { rewrite land_128 in Hz by mlia. unfold CHECKPOINT_FLAG. destruct (Z.ltb_spec st 128); mlia. }
  assert (record_ok r) as Hr by (by constructor). split; [done|]. constructor; try done.
  unfold follows. destruct (last l) as [q|]; simpl in Hn; [|injection Hn; by left].
  unfold successor in Hn. destruct (checked_add _ _) eqn:Hc; [|done]. apply checked_add_Some in Hc. simpl in Hn. simpl. injection Hn. lia.
Qed.

(** What a file holds after some part of the record has landed. *)
Lemma landed_ok d s t i l r part : disk_ok d s t -> (i < length (inodes d))%nat -> chain inc (l ++ [r]) ->
  content (inode d i) = log_bytes l -> Forall (told t) l -> sequence r < u64_max -> part `prefix_of` record_bytes r ->
  zlen (log_bytes (l ++ [r])) <= MAX_JOURNAL_BYTES ->
  disk_ok (on_inode i (write_at (zlen (log_bytes l)) part) d) s (t ++ [r]).
Proof using Hinc.
  intros Hd Hi Hch Hc Ht Hq Hpart Hm. pose proof (proj1 (chain_inv _ _ _ Hch)) as Hl.
  assert (forall x, x ∈ t -> x ∈ t ++ [r]) as Hsub by set_solver.
  destruct (disk_ok_mono _ _ _ _ Hsub Hd) as [Hf _]. destruct (Hf i Hi) as [Hc1 Hd1].
  apply (disk_ok_update _ _ _ s); [done|by eapply disk_ok_mono| |done]. split; [|done]. rewrite write_end by done. rewrite Hc in Hc1.
  rewrite log_bytes_app, log_bytes_cons, app_nil_r in Hm. rewrite zlen_app in Hm.
  exists (l ++ [r]). split_and!; try done.
  - rewrite log_bytes_app, log_bytes_cons, app_nil_r. by apply prefix_app.
  - apply prefix_app_r. by eapply holds_full.
  - apply prefix_app_r. by destruct Hc1 as (? & _ & _ & _ & P & _).
  - apply Forall_app. split; [|by constructor; [split; [set_solver|]|]].
    eapply Forall_impl; [done|]. intros x [? ?]. split; [by apply Hsub|done].
  - rewrite zlen_app. apply prefix_length in Hpart. unfold zlen in *. lia.
Qed.

Lemma append_room l r size following grown : size = zlen (log_bytes l) -> successor (sequence r) = Ok following ->
  grown_within_ceiling size (zlen (record_bytes r)) = Ok grown ->
  sequence r < u64_max /\ following = sequence r + 1 /\ grown = zlen (log_bytes (l ++ [r])) /\
  zlen (log_bytes (l ++ [r])) <= MAX_JOURNAL_BYTES.
Proof using.
  intros -> Hf Hg. rewrite log_bytes_app, log_bytes_cons, app_nil_r, zlen_app.
  unfold successor in Hf. destruct (checked_add (sequence r) 1) eqn:Hca; [|done]. apply checked_add_Some in Hca as [-> ?].
  injection Hf as <-. split; [lia|]. split; [done|]. unfold grown_within_ceiling in Hg.
  destruct (checked_add _ _) eqn:Hcb; [|done]. apply checked_add_Some in Hcb as [-> ?]. simpl in Hg. revert Hg. zcases; [done|]. by intros [= <-].
Qed.

(** Synchronizing a whole log makes it sure. *)
Lemma synced_ok d s t i l : disk_ok d s t -> (i < length (inodes d))%nat -> chain inc l -> content (inode d i) = log_bytes l ->
  Forall (told t) l -> let d' := on_inode i sync_data d in
  disk_ok d' (ack i d' s) t /\ content (inode d' i) = log_bytes l /\ length (inodes d') = length (inodes d).
Proof using.
  intros Hd Hi Hl Hc Ht d'. assert (inode d' i = sync_data (inode d i)) as He by (unfold d'; rewrite inode_on_inode by done; by rewrite decide_True).
  assert (zlen (log_bytes l) <= MAX_JOURNAL_BYTES) as Hm by (rewrite <- Hc; eapply holds_max, (proj1 Hd i Hi)).
  split_and!; [|by rewrite He|apply length_alter].
  apply (disk_ok_update _ _ _ s); [done|done| |by intros; apply ack_other].
  rewrite ack_same, He. unfold sync_data, file_ok. cbn [content durable]. rewrite Hc, records_of_log by done. split; by apply holds_log.
Qed.

Lemma append_inv io st p j d s t r j' d' : disk_ok d s t -> writer_ok j d t -> is_u8 st -> byte_list p ->
  append_durable io st p (j, d) = (r, (j', d')) ->
  let t' := t ++ [mkRecord inc (next_sequence j) st p false] in
  disk_ok d' (if is_ok r then ack (file j') d' s else s) t' /\ writer_ok j' d' t' /\
  vouched s d d' (is_ok r) j' [mkRecord inc (next_sequence j) st p false].
Proof using Hinc.
  intros Hd Hj Hs Hp Ha t'. assert (forall x, x ∈ t -> x ∈ t') as Hsub by (unfold t'; set_solver).
  assert (disk_ok d s t' /\ writer_ok j d t' /\ vouched s d d false j [mkRecord inc (next_sequence j) st p false]) as Hsame
    by (split_and!; [by eapply disk_ok_mono|by eapply writer_ok_mono|by apply vouched_not]).
  pose proof Hj as (Hf & Hi & Hw). revert Ha. unfold append_durable, bind, get_all, lift, fail, ret, put_all.
  destruct (poisoned j) eqn:Hpo; [by intros [= <- <- <-]|]. destruct (Hw eq_refl) as (Hna & l & Hl & Hc & Ht & Hpos & Hby & Hn).
  destruct (Z.ltb_spec MAX_PAYLOAD (zlen p)); [by intros [= <- <- <-]|].
  destruct (Z.eqb_spec (Z.land st CHECKPOINT_FLAG) 0) as [Hz|]; [|by intros [= <- <- <-]]. simpl negb. cbv iota.
  destruct (successor (next_sequence j)) as [following|] eqn:Hfo; [|by intros [= <- <- <-]].
  destruct (next_of l t Ht (chain_records _ _ Hl)) as (n & Hn' & Hu). rewrite Hn in Hn'. injection Hn' as <-.
  destruct (next_record l j st p Hl Hn Hs Hp ltac:(done) Hz Hu) as [Hr Hch]. rewrite Hi. rewrite (encode_record_ok _ Hr).
  set (rec := mkRecord inc (next_sequence j) st p false) in *.
  destruct (grown_within_ceiling (bytes j) (zlen (record_bytes rec))) as [grown|] eqn:Hg; [|by intros [= <- <- <-]].
  destruct (append_room l rec (bytes j) following grown Hby Hfo Hg) as (Hq & -> & -> & Hm).
  simpl negb. cbv iota. rewrite Hpos. clear Hsame. destruct (a_landed io) as [n|].
  { intros [= <- <- <-]. split_and!; [apply landed_ok; try done; apply prefix_take| |by apply vouched_not].
    apply poison_ok; [|done|done]. simpl. by rewrite length_alter. }
  pose proof (landed_ok d s t (file j) l rec (record_bytes rec) Hd Hf Hch Hc Ht Hq (reflexivity _) Hm) as Hd1. fold t' in Hd1.
  destruct (a_sync io); intros [= <- <- <-].
  2: { split_and!; [done| |by apply vouched_not]. apply poison_ok; [|done|done]. simpl. by rewrite length_alter. }
  set (d1 := on_inode (file j) (write_at (zlen (log_bytes l)) (record_bytes rec)) d) in *.
  assert (length (inodes d1) = length (inodes d)) as Hlen by apply length_alter.
  assert (content (inode d1 (file j)) = log_bytes (l ++ [rec])) as Hc1.
  { unfold d1. rewrite inode_on_inode, decide_True, write_end, log_bytes_app, log_bytes_cons, app_nil_r by done. done. }
  assert (Forall (told t') (l ++ [rec])) as Ht1.
  { apply Forall_app. split; [|constructor; [split; [unfold t'; set_solver|done]|constructor]].
    eapply Forall_impl; [done|]. intros x [? ?]. split; [by apply Hsub|done]. }
  destruct (synced_ok d1 s t' (file j) (l ++ [rec]) Hd1 ltac:(lia) Hch Hc1 Ht1) as (Hd2 & Hc2 & Hlen2). split_and!; [done| |].
  - split_and!; [cbn [file]; rewrite Hlen2; lia|done|]. intros _. split; [done|]. exists (l ++ [rec]). split_and!; try done.
    + by rewrite log_bytes_app, log_bytes_cons, app_nil_r, zlen_app.
    + by rewrite last_snoc.
  - split_and!; try done. intros _. split; [done|]. exists (l ++ [rec]). unfold d1. cbn [on_inode name]. rewrite <- Hna. fold d1. rewrite Hc2, records_of_log by done.
    split_and!; [done| |by constructor; [set_solver|]].
    apply prefix_app_r. eapply holds_full; [|done]. rewrite <- Hc. apply (proj1 Hd (file j) Hf).
Qed.

(** ** Recovery *)

Lemma sync_inv ok j d s t r j' d' : disk_ok d s t -> writer_ok j d t -> sync_replay ok (j, d) = (r, (j', d')) ->
  disk_ok d' (if is_ok r then ack (file j') d' s else s) t /\ writer_ok j' d' t /\ vouched s d d' (is_ok r) j' [].
Proof using.
  intros Hd Hj. pose proof Hj as (Hf & Hi & Hw). unfold sync_replay, bind, get_all, check_io, ret, fail, put_all.
  destruct (poisoned j) eqn:Hpo; [by intros [= <- <- <-]|]. destruct ok; [|by intros [= <- <- <-]]. intros [= <- <- <-].
  destruct (Hw eq_refl) as (Hn & l & Hl & Hc & Ht & Hr). destruct (synced_ok d s t (file j) l Hd Hf Hl Hc Ht) as (Hd2 & Hc2 & Hlen).
  assert (holds (log_bytes l) (s (file j)) t) as Hh by (rewrite <- Hc; apply (proj1 Hd (file j) Hf)).
  split_and!; [done|split_and!; [by rewrite Hlen|done|]; intros _; split; [done|]; by exists l|].
  split_and!; try done. intros _. split; [done|]. exists l. cbn [on_inode name]. rewrite <- Hn, Hc2, records_of_log by (done || by eapply holds_max).
  split_and!; [done|by eapply holds_full|done].
Qed.

(** Cutting off the torn tail. *)
Definition repaired (i : nat) (replay : Replay) (d : Disk) : Disk :=
  if torn_tail replay then on_inode i (set_len (valid_bytes replay)) d else d.

Lemma repaired_ok d s t i : disk_ok d s t -> (i < length (inodes d))%nat ->
  exists replay l, replay_reader (content (inode d i)) inc = Ok replay /\ records replay = l /\ chain inc l /\ Forall (told t) l /\
    s i `prefix_of` l /\ disk_ok (repaired i replay d) s t /\ content (inode (repaired i replay d) i) = log_bytes l /\
    length (inodes (repaired i replay d)) = length (inodes d).
Proof using.
  intros Hd Hi. destruct (proj1 Hd i Hi) as [Hh Hdu]. destruct (holds_replay _ _ _ Hh) as (l & torn & Hr & Hs & Hl & Ht & Hp & Hw).
  eexists _, l. split; [done|]. cbn [records]. do 4 (split; [done|]). unfold repaired. cbn [torn_tail valid_bytes].
  destruct torn; [|split_and!; try done; by apply Hw].
  assert (content (set_len (zlen (log_bytes l)) (inode d i)) = log_bytes l) as Hc.
  { unfold set_len. cbn [content]. destruct Hp as [k ->]. rewrite ztake_app, zlen_app. pose proof (zlen_nonneg k).
    replace (Z.to_nat _) with O by lia. apply app_nil_r. }
  split_and!; [|by rewrite inode_on_inode, decide_True by done|apply length_alter].
  apply (disk_ok_update _ _ _ s); [done|done| |done]. split; [|done]. rewrite Hc. destruct Hp as [k Hk].
  rewrite <- (take_app_length (log_bytes l) k), <- Hk. apply holds_take; [done|]. destruct Hs as [k' ->]. rewrite log_bytes_app, length_app. lia.
Qed.

Lemma opened_ok d t i l n : (i < length (inodes d))%nat -> i = name d -> chain inc l -> content (inode d i) = log_bytes l -> Forall (told t) l ->
  next_sequence_after (last l) = Ok n ->
  writer_ok (mkJournal i (zlen (content (inode d i))) (zlen (content (inode d i))) inc n false) d t.
Proof using.
  intros Hi Hn Hl Hc Ht Hx. split_and!; [done|done|]. intros _. split; [done|]. exists l. cbn [file position bytes next_sequence].
  rewrite Hc. done.
Qed.

Lemma synced_same d s t i : disk_ok d s t -> (i < length (inodes d))%nat -> disk_ok (on_inode i sync_data d) s t.
Proof using. intros Hd Hi. apply (disk_ok_update _ _ _ s); try done. destruct (proj1 Hd i Hi). by split. Qed.

Lemma repair_inv io j d s t r j' d' : disk_ok d s t -> writer_ok j d t -> repair_poisoned io (j, d) = (r, (j', d')) ->
  disk_ok d' (if is_ok r then ack (file j') d' s else s) t /\ writer_ok j' d' t /\
  vouched s d d' (is_ok r) j' (match r with Ok replay => records replay | Err _ => [] end).
Proof using.
  intros Hd Hj. pose proof Hj as (Hf & Hi & _). unfold repair_poisoned, bind, get_all, check_io, ret, fail, put_all, lift.
  assert (disk_ok d s t /\ writer_ok j d t /\ vouched s d d false j []) as Hsame by (split_and!; [done|done|by apply vouched_not]).
  destruct (poisoned j) eqn:Hpo; [|by intros [= <- <- <-]]. cbn [negb]. cbv iota.
  destruct (r_same io); [|by intros [= <- <- <-]].
  destruct (Nat.eqb_spec (file j) (name d)) as [Hn|]; [|by intros [= <- <- <-]]. cbn [negb]. cbv iota.
  destruct (r_read io); [|intros [= <- <- <-]; split_and!; [done|by apply poison_ok|by apply vouched_not]].
  destruct (repaired_ok d s t (file j) Hd Hf) as (replay & l & Hr & Hrec & Hl & Ht & Hs & Hd1 & Hc1 & Hlen1).
  cbn [seek file j_incarnation]. rewrite Hi, Hr, Hrec. fold (repaired (file j) replay d).
  destruct (next_of l t Ht (chain_records _ _ Hl)) as (n & Hnx & _). rewrite Hnx.
  destruct (synced_ok (repaired (file j) replay d) s t (file j) l Hd1 ltac:(lia) Hl Hc1 Ht) as (Hd2 & Hc2 & Hlen2).
  set (d1 := repaired (file j) replay d) in *. set (d2 := on_inode (file j) sync_data d1) in *.
  set (jr := seek (zlen (content (inode d (file j)))) (seek 0 j)).
  assert (forall dx, length (inodes dx) = length (inodes d) -> writer_ok jr dx t) as Hpo' by (intros dx Hx; apply poison_ok; simpl; try done; lia).
  assert (name d1 = name d /\ name_durable d1 = name_durable d) as [Hn1 Hnd1] by (unfold d1, repaired; by destruct (torn_tail replay)).
  destruct (torn_tail replay && negb (r_set_len io)) eqn:Hset.
  { apply andb_true_iff in Hset as [-> Hset]. destruct (r_set_len io); [done|]. intros [= <- <- <-]. split_and!; [done|by apply Hpo'|by apply vouched_not]. }
  replace ((if torn_tail replay then _ else _) (jr, d)) with (@Ok unit Error tt, (jr, d))
    by (destruct (torn_tail replay), (r_set_len io); done). cbv iota beta.
  destruct (r_sync io); [|intros [= <- <- <-]; split_and!; [done|by apply Hpo'|by apply vouched_not]].
  destruct (r_seek io); [|intros [= <- <- <-]; split_and!; [by apply synced_same; [|lia]|apply Hpo'; lia|by apply vouched_not]].
  intros [= <- <- <-]. split_and!; [done|apply (opened_ok d2 t (file j) l n); try done; [lia|by rewrite Hn]|].
  split_and!; try done. intros _. assert (name d2 = file j) as Hn2 by (by rewrite Hn). rewrite Hn2. split; [done|]. exists l.
  rewrite Hc2, records_of_log, Hrec by (done || rewrite <- Hc2; eapply holds_max, (proj1 Hd2); lia).
  split_and!; [done|done|]. by apply Forall_forall.
Qed.

(** ** Compaction *)

Lemma disk_ok_ext d s s' t : (forall i, (i < length (inodes d))%nat -> s' i = s i) -> disk_ok d s t -> disk_ok d s' t.
Proof using. intros Hs [H Hn]. split; [|done]. intros i Hi. rewrite Hs by done. by apply H. Qed.

(** The directory with the replacement in it. *)
Lemma added_ok d s t r n : disk_ok d s t -> chain inc [r] -> r ∈ t -> sequence r < u64_max -> (n <= length (inodes d))%nat ->
  let d' := mkDisk (inodes d ++ [mkFile (record_bytes r) (record_bytes r)]) n (name_durable d) in
  disk_ok d' (ack (length (inodes d)) d' s) t /\ content (inode d' (length (inodes d))) = log_bytes [r] /\
  zlen (log_bytes [r]) <= MAX_JOURNAL_BYTES.
Proof using.
  intros [Hd [_ Hnd]] Hch Hr Hq Hn d'. assert (record_bytes r = log_bytes [r]) as He by (unfold log_bytes; simpl; by rewrite app_nil_r).
  assert (zlen (log_bytes [r]) <= MAX_JOURNAL_BYTES) as Hm.
  { apply chain_records in Hch. inversion Hch as [|? ? Ho _]; subst. rewrite <- He, record_bytes_len by done.
    pose proof (ro_payload _ Ho). unfold MAX_PAYLOAD, HEADER_LEN, MAX_JOURNAL_BYTES in *. lia. }
  assert (inode d' (length (inodes d)) = mkFile (log_bytes [r]) (log_bytes [r])) as Hnew.
  { unfold inode, d'. cbn [inodes]. rewrite lookup_app_r, Nat.sub_diag by lia. by rewrite He. }
  assert (length (inodes d') = S (length (inodes d))) as Hlen by (unfold d'; cbn [inodes]; rewrite length_app; simpl; lia).
  split_and!; [|by rewrite Hnew|done]. unfold disk_ok. rewrite Hlen. split; [|unfold d'; cbn [name name_durable]; lia]. intros i Hi. destruct (decide (i = length (inodes d))) as [->|Hne].
  - rewrite ack_same, Hnew. unfold file_ok. cbn [content durable]. rewrite records_of_log by done.
    split; apply holds_log; try done; by constructor.
  - rewrite ack_other by done. replace (inode d' i) with (inode d i) by (unfold inode, d'; cbn [inodes]; by rewrite lookup_app_l by lia).
    apply Hd. lia.
Qed.

Lemma finish_inv io j d s t i rec nx r j' d' : disk_ok d (ack i d s) t -> content (inode d i) = log_bytes [rec] ->
  zlen (log_bytes [rec]) <= MAX_JOURNAL_BYTES -> (i < length (inodes d))%nat -> name d = i -> (file j < length (inodes d))%nat ->
  j_incarnation j = inc -> chain inc [rec] -> told t rec -> next_sequence_after (Some rec) = Ok nx ->
  poisoning (finish_compaction io i nx) (j, d) = (r, (j', d')) -> disk_ok d' (ack i d' s) t /\ writer_ok j' d' t.
Proof using.
  intros Hd Hc Hm Hi Hna Hf Hj Hch Ht Hn. unfold poisoning, finish_compaction, bind, get_all, check_io, ret, fail, put_all, lift.
  destruct (k_parent io); [|intros [= <- <- <-]; split; [done|by apply poison_ok]].
  assert (disk_ok (sync_parent d) (ack i (sync_parent d) s) t) as Hd2 by (destruct Hd as (H & Hx & Hy); split; done).
  destruct (k_read io); [|intros [= <- <- <-]; split; [done|by apply poison_ok]].
  assert (content (inode (sync_parent d) i) = log_bytes [rec]) as Hc2 by done. rewrite Hc2, Hj, replay_whole by done.
  cbn [torn_tail records length Nat.eqb negb orb]. cbv iota beta. intros [= <- <- <-].
  split; [done|]. rewrite <- Hc2. apply (opened_ok (sync_parent d) t i [rec] nx); try done. by constructor.
Qed.

Lemma finish_shape io i nx j d r j' d' : poisoning (finish_compaction io i nx) (j, d) = (r, (j', d')) ->
  d' = d /\ is_ok r = false \/ d' = sync_parent d.
Proof using.
  unfold poisoning, finish_compaction, bind, get_all, check_io, ret, fail, put_all, lift.
  destruct (k_parent io); [|intros [= <- <- <-]; by left]. destruct (k_read io); [|intros [= <- <- <-]; by right].
  destruct (replay_reader _ _) as [replayed|]; [|intros [= <- <- <-]; by right].
  destruct (_ || _); intros [= <- <- <-]; by right.
Qed.

(** What a compaction does to the directory: nothing, and it failed; or the name
    is bound to a new file that holds the checkpoint, for good if it succeeded. *)
Definition rebound (s : nat -> list JournalRecord) (d d' : Disk) (ok : bool) (j : Journal) (cp : JournalRecord) : Prop :=
  name d' = name d /\ name_durable d' = name_durable d /\ ok = false \/
  poisoned j = false /\ name d' = length (inodes d) /\ ack (length (inodes d)) d' s (length (inodes d)) = [cp] /\
    (name_durable d' = name_durable d \/ name_durable d' = name d') /\ (ok = true -> name_durable d' = name d').

Lemma compact_inv io st p j d s t r j' d' : disk_ok d s t -> writer_ok j d t -> is_u8 st -> byte_list p ->
  compact_checkpoint io st p (j, d) = (r, (j', d')) ->
  let t' := t ++ [mkRecord inc (next_sequence j - 1) st p true] in
  disk_ok d' (ack (length (inodes d)) d' s) t' /\ writer_ok j' d' t' /\
  rebound s d d' (is_ok r) j (mkRecord inc (next_sequence j - 1) st p true).
Proof using Hinc.
  intros Hd Hj Hs Hp Ha t'. assert (forall x, x ∈ t -> x ∈ t') as Hsub by (unfold t'; set_solver).
  assert (disk_ok d (ack (length (inodes d)) d s) t' /\ writer_ok j d t' /\
    rebound s d d false j (mkRecord inc (next_sequence j - 1) st p true)) as Hsame.
  { split_and!; [|by eapply writer_ok_mono|by left]. eapply disk_ok_ext; [|by eapply disk_ok_mono]. intros i Hi. apply ack_other. lia. }
  pose proof Hj as (Hf & Hi & Hw). revert Ha. unfold compact_checkpoint, bind, get_all, lift, fail, put_all.
  destruct (poisoned j) eqn:Hpo; [by intros [= <- <- <-]|]. destruct (Hw eq_refl) as (Hna & l & Hl & Hc & Ht & Hpos & Hby & Hn).
  destruct (Z.eqb_spec (Z.land st CHECKPOINT_FLAG) 0) as [Hz|]; [|by intros [= <- <- <-]]. cbn [negb]. cbv iota.
  destruct (Z.ltb_spec MAX_PAYLOAD (zlen p)); [by intros [= <- <- <-]|].
  destruct (Z.eqb_spec (next_sequence j) 0); [by intros [= <- <- <-]|].
  destruct (next_of l t Ht (chain_records _ _ Hl)) as (n' & Hn' & Hu). rewrite Hn in Hn'. injection Hn' as <-.
  set (rec := mkRecord inc (next_sequence j - 1) st p true) in *.
  assert (record_ok rec) as Hr.
  { rewrite land_128 in Hz by mlia. constructor; simpl; try done; [mlia|]. unfold CHECKPOINT_FLAG. destruct (Z.ltb_spec st 128); mlia. }
  assert (chain inc [rec]) as Hch by (apply (chain_snoc inc [] rec); try done; [constructor|by right]).
  rewrite Hi. fold rec. rewrite (encode_record_ok _ Hr). destruct (k_prepare io) as [e|]; [by intros [= <- <- <-]|]. clear Hsame.
  set (nm := if k_renamed io || k_rename io then length (inodes d) else name d).
  destruct (added_ok d s t' rec nm) as (Hd1 & Hc1 & Hm);
    [by eapply disk_ok_mono|done|unfold t'; set_solver|simpl; mlia|unfold nm; destruct (_ || _); [lia|destruct Hd; lia]|].
  set (d1 := mkDisk _ nm _) in *. assert (length (inodes d1) = S (length (inodes d))) as Hlen by (simpl; rewrite length_app; simpl; lia).
  assert (forall dx, inodes dx = inodes d1 -> ack (length (inodes d)) dx s (length (inodes d)) = [rec]) as Hack.
  { intros dx Hx. rewrite ack_same. replace (inode dx) with (inode d1) by (unfold inode; by rewrite Hx). rewrite Hc1. by apply records_of_log. }
  unfold poisoning at 1, check_io. destruct (k_rename io) eqn:Hk; cbn [ret fail]; cbv iota beta.
  2: { intros [= <- <- <-]. split_and!; [done|apply poison_ok; simpl; try done; rewrite length_app; simpl; lia|].
       unfold rebound. destruct (k_renamed io) eqn:Hkr; [right|by left]. split_and!; try done; [by apply Hack|by left]. }
  assert (name d1 = length (inodes d)) as Hn1 by (unfold d1, nm; by rewrite orb_true_r).
  intros Ha. cut (disk_ok d' (ack (length (inodes d)) d' s) t' /\ writer_ok j' d' t').
  { intros [? ?]. split_and!; try done. right. destruct (finish_shape _ _ _ _ _ _ _ _ Ha) as [[-> Hr0]| ->]; rewrite Hpo.
    - split_and!; [done|done|by apply Hack|by left|by rewrite Hr0].
    - split_and!; [done|done|by apply Hack|by right|done]. }
  revert Ha. apply (finish_inv io j d1 s t' (length (inodes d)) rec (next_sequence j)); try done; [lia|lia| |].
  - split; [unfold t'; set_solver|simpl; mlia].
  - unfold next_sequence_after, successor, checked_add. cbn [sequence rec]. zcases; [simpl; f_equal; lia|unfold is_u64 in Hu; lia].
Qed.

(** ** Opening *)

(** Every system call succeeds. *)
Definition open_well : OpenIo := mkOpenIo None true true true true.

Lemma open_inv io d s t : disk_ok d s t -> let '(r, d') := open_at io inc d in
  disk_ok d' s t /\ name d' = name d /\ name_durable d' = name_durable d /\
  match r with
  | Ok (j, replay) => writer_ok j d' t /\ s (name d) `prefix_of` records replay /\ chain inc (records replay) /\ Forall (told t) (records replay)
  | Err _ => io <> open_well
  end.
Proof using.
  intros Hd. pose proof Hd as (_ & Hi & _).
  destruct (repaired_ok d s t (name d) Hd Hi) as (replay & l & Hr & Hrec & Hl & Ht & Hs & Hd1 & Hc1 & Hlen1).
  destruct (next_of l t Ht (chain_records _ _ Hl)) as (n & Hnx & _). unfold open_at.
  destruct (o_claimed io) eqn:E1; [split_and!; try done; by intros ->|].
  destruct (o_read io) eqn:E2; [|split_and!; try done; by intros ->]. cbn [negb]. rewrite Hr, Hrec, Hnx. unfold repaired in *.
  destruct (torn_tail replay).
  - destruct (o_set_len io) eqn:E3; [|split_and!; try done; by intros ->]. cbn [negb].
    destruct (o_sync io) eqn:E4; [|split_and!; try done; by intros ->]. cbn [negb].
    set (d1 := on_inode (name d) (set_len (valid_bytes replay)) d) in *. set (d2 := on_inode (name d) sync_data d1).
    assert (disk_ok d2 s t) as Hd2 by (apply synced_same; [done|lia]).
    destruct (o_seek io) eqn:E5; [|split_and!; try done; by intros ->]. cbn [negb]. rewrite Hrec. split_and!; try done.
    apply (opened_ok d2 t (name d) l n); try done; [unfold d2, on_inode; cbn [inodes]; rewrite length_alter; lia|].
    unfold d2. rewrite inode_on_inode, decide_True by (done || lia). done.
  - destruct (o_seek io) eqn:E5; [|split_and!; try done; by intros ->]. cbn [negb]. rewrite Hrec. split_and!; try done.
    by apply (opened_ok d t (name d) l n).
Qed.

Lemma crash_inv d d' s t : disk_ok d s t -> crash_disk d d' -> disk_ok d' s t.
Proof using.
  intros (Hd & Hn & Hnd) [Hf Hc Hna Hdu]. split; [|rewrite Hdu, Hf; by destruct Hna as [-> | ->]].
  intros i Hi. rewrite Hf in Hi. destruct (Hc i Hi) as [Hcr Hdur]. pose proof (crash_holds _ _ _ _ (Hd i Hi) Hcr) as Hh.
  split; [done|by rewrite Hdur].
Qed.

Lemma history_ok o d s t : history o d s t -> disk_ok d s t /\ match o with Some j => writer_ok j d t | None => True end.
Proof using Hinc.
  induction 1 as [io j d Hc|io st p j d s t r j' d' _ [Hd Hj] Hs Hp Ha|ok j d s t r j' d' _ [Hd Hj] Ha|io j d s t r j' d' _ [Hd Hj] Ha
    |io st p j d s t r j' d' _ [Hd Hj] Hs Hp Ha|j d s t _ [Hd _]|io d s t r d' _ [Hd _] Ho|o d s t d' _ [Hd _] Hcr].
  - unfold create_at in Hc. destruct (c_claimed io); [done|]. destruct (c_parent io); [|done]. injection Hc as <- <-.
    assert (holds [] [] []) as Hh by (exists []; split_and!; try done; constructor).
    split; [split; [|simpl; lia]|split_and!; simpl; [lia|done|]].
    + intros i Hi. simpl in Hi. assert (i = O) as -> by lia. by split.
    + intros _. split; [done|]. exists []. split_and!; try done; constructor.
  - destruct (append_inv io st p j d s t r j' d' Hd Hj Hs Hp Ha) as (? & ? & _). done.
  - destruct (sync_inv ok j d s t r j' d' Hd Hj Ha) as (? & ? & _). done.
  - destruct (repair_inv io j d s t r j' d' Hd Hj Ha) as (? & ? & _). done.
  - destruct (compact_inv io st p j d s t r j' d' Hd Hj Hs Hp Ha) as (? & ? & _). done.
  - done.
  - pose proof (open_inv io d s t Hd) as H0. rewrite Ho in H0. destruct H0 as (Hd' & _ & _ & Hr). split; [done|]. destruct r as [[j replay]|]; [apply Hr|done].
  - split; [by eapply crash_inv|done].
Qed.

(** ** What the caller was told *)

(** The journal still answers for [r]: the record is in the log, or the log
    starts from a checkpoint taken at or after it. *)
Definition covered (r : JournalRecord) (l : list JournalRecord) : Prop :=
  r ∈ l \/ exists c, head l = Some c /\ checkpoint c = true /\ sequence r <= sequence c.

(** The records the caller was told are durable: [kept] by a call made when the
    directory on disk named the file written to, [exposed] by one made when it
    still named another. *)
Record Ledger := mkLedger { kept : list JournalRecord; exposed : list JournalRecord }.

Definition vouch (d : Disk) (rs : list JournalRecord) (b : Ledger) : Ledger :=
  if decide (name d = name_durable d) then mkLedger (kept b ++ rs) (exposed b) else mkLedger (kept b) (exposed b ++ rs).

(** The writer, if one is open, the disk, the ledger and every record handed to
    the journal.  An append that succeeds vouches for its record, a
    synchronization or a repair for the records the file holds, a compaction for
    its checkpoint and all that the checkpoint stands for.  A failed call, a
    restart and [open_at] vouch for nothing.  After a power loss that bound the
    name to the older file the exposed records are off the books. *)
Inductive account : option Journal -> Disk -> Ledger -> list JournalRecord -> Prop :=
| ac_create io j d : create_at io inc = Ok (j, d) -> account (Some j) d (mkLedger [] []) []
| ac_append io st p j d b t r j' d' : account (Some j) d b t -> is_u8 st -> byte_list p ->
    append_durable io st p (j, d) = (r, (j', d')) ->
    account (Some j') d' (if is_ok r then vouch d' [mkRecord inc (next_sequence j) st p false] b else b)
      (t ++ [mkRecord inc (next_sequence j) st p false])
| ac_sync ok j d b t r j' d' : account (Some j) d b t -> sync_replay ok (j, d) = (r, (j', d')) ->
    account (Some j') d' (if is_ok r then vouch d' (records_of (content (inode d' (file j')))) b else b) t
| ac_repair io j d b t r j' d' : account (Some j) d b t -> repair_poisoned io (j, d) = (r, (j', d')) ->
    account (Some j') d' (match r with Ok replay => vouch d' (records replay) b | Err _ => b end) t
| ac_compact io st p j d b t r j' d' : account (Some j) d b t -> is_u8 st -> byte_list p ->
    compact_checkpoint io st p (j, d) = (r, (j', d')) ->
    account (Some j') d'
      (if is_ok r then mkLedger (kept b ++ exposed b ++ [mkRecord inc (next_sequence j - 1) st p true]) [] else b)
      (t ++ [mkRecord inc (next_sequence j - 1) st p true])
| ac_exit j d b t : account (Some j) d b t -> account None d b t
| ac_open io d b t r d' : account None d b t -> open_at io inc d = (r, d') ->
    account (match r with Ok (j, _) => Some j | Err _ => None end) d' b t
| ac_power o d b t d' : account o d b t -> crash_disk d d' ->
    account None d' (mkLedger (kept b ++ if decide (name d' = name d) then exposed b else []) []) t.

Lemma covered_prefix r s l : s `prefix_of` l -> covered r s -> covered r l.
Proof using.
  intros [k ->] [Hr|(c & Hh & Hc)]; [left; apply elem_of_app; by left|right]. exists c. split; [|done]. by destruct s.
Qed.

(** A covered record is older than what is written next. *)
Lemma covered_next r l n : chain inc l -> covered r l -> next_sequence_after (last l) = Ok n -> sequence r < n.
Proof using.
  assert (forall l q, chain inc l -> last l = Some q -> Forall (fun x => sequence x <= sequence q) l) as Hle.
  { intros l' q Hch. revert q. induction Hch as [|l' x Hl IH _ _ Hf]; intros q; [done|]. rewrite last_snoc. intros [= ->].
    apply Forall_app. split; [|by constructor]. unfold follows in Hf. destruct (last l') as [y|] eqn:Hy.
    - eapply Forall_impl; [by apply IH|]. simpl. lia.
    - apply last_None in Hy as ->. constructor. }
  intros Hl Hc Hn. destruct (last l) as [q|] eqn:Hq; [|apply last_None in Hq as ->; destruct Hc as [Hr|(c & [=] & _)]; by apply elem_of_nil in Hr].
  pose proof (Hle l q Hl Hq) as Hall. rewrite Forall_forall in Hall. simpl in Hn. unfold successor in Hn.
  destruct (checked_add _ _) eqn:Ha; [|done]. apply checked_add_Some in Ha as [-> _]. injection Hn as <-.
  destruct Hc as [Hr|(c & Hh & _ & Hs)]; [apply Hall in Hr; lia|]. apply head_Some_elem_of, Hall in Hh. lia.
Qed.

(** Each kept record is covered by what is known of the file the name is bound
    to and of the one it is bound to on disk, each exposed one by the first. *)
Definition booked (d : Disk) (s : nat -> list JournalRecord) (b : Ledger) : Prop :=
  Forall (fun r => covered r (s (name d)) /\ covered r (s (name_durable d))) (kept b) /\
  Forall (fun r => covered r (s (name d))) (exposed b).

Lemma booked_grow d d' s s' b : name d' = name d -> name_durable d' = name_durable d ->
  s (name d) `prefix_of` s' (name d) -> s (name_durable d) `prefix_of` s' (name_durable d) -> booked d s b -> booked d' s' b.
Proof using.
  intros Hn Hnd H1 H2 [Hk He]. unfold booked. rewrite Hn, Hnd. split; (eapply Forall_impl; [done|]); simpl; intros r.
  - intros [? ?]. split; by eapply covered_prefix.
  - by apply covered_prefix.
Qed.

Lemma booked_same d d' s b : name d' = name d -> name_durable d' = name_durable d -> booked d s b -> booked d' s b.
Proof using. intros Hn Hnd. unfold booked. by rewrite Hn, Hnd. Qed.

Lemma booked_vouch d s b rs : booked d s b -> Forall (fun r => r ∈ s (name d)) rs -> booked d s (vouch d rs b).
Proof using.
  intros [Hk He] Hr. unfold vouch, booked. destruct (decide (name d = name_durable d)) as [Heq|]; cbn [kept exposed];
    (split; [|]; try done; apply Forall_app; split; [done|]).
  - rewrite <- Heq. eapply Forall_impl; [done|]. intros r ?. by split; left.
  - eapply Forall_impl; [done|]. intros r ?. by left.
Qed.

(** The step of a call that vouches. *)
Lemma booked_call s d d' ok (j' : Journal) rs rs' b : vouched s d d' ok j' rs ->
  (ok = true -> Forall (fun r => r ∈ rs \/ r ∈ records_of (content (inode d' (name d')))) rs') -> booked d s b ->
  booked d' (if ok then ack (file j') d' s else s) (if ok then vouch d' rs' b else b).
Proof using.
  intros (Hn & Hnd & Hv) Hrs Hb. destruct ok; [|by eapply booked_same].
  destruct (Hv eq_refl) as (Hf & l & Hl & Hs & Hin). specialize (Hrs eq_refl). rewrite Hf in *.
  assert (forall i, s i `prefix_of` ack (name d') d' s i) as Hg.
  { intros i. destruct (decide (i = name d')) as [->|]; [by rewrite ack_same, Hl|by rewrite ack_other]. }
  apply booked_vouch; [by apply (booked_grow d d' s)|]. rewrite ack_same, Hl in *. rewrite Forall_forall in Hin.
  eapply Forall_impl; [done|]. intros r [?|?]; [by apply Hin|done].
Qed.

Lemma booked_compact s d d' ok j t cp b : disk_ok d s t -> writer_ok j d t -> rebound s d d' ok j cp ->
  checkpoint cp = true -> sequence cp = next_sequence j - 1 -> booked d s b ->
  booked d' (ack (length (inodes d)) d' s) (if ok then mkLedger (kept b ++ exposed b ++ [cp]) [] else b).
Proof using.
  intros Hd Hj Hre Hcp Hsq Hb. pose proof Hd as (Hfiles & Hna & Hnda).
  destruct Hre as [(Hn & Hnd & ->)|(Hpo & Hn & Hack & Hnd & Hok)].
  { eapply booked_grow; [done|done| | |done]; by rewrite ack_other by lia. }
  destruct Hj as (_ & _ & Hw). destruct (Hw Hpo) as (Hf & l & Hl & Hc & _ & _ & _ & Hnext).
  assert (forall r, covered r (s (name d)) -> covered r [cp]) as Hold.
  { intros r Hr. right. exists cp. split_and!; try done. enough (sequence r < next_sequence j) by lia.
    eapply covered_next; [done| |done]. eapply covered_prefix; [|done]. eapply holds_full; [|done]. rewrite <- Hc, Hf. by apply Hfiles. }
  destruct Hb as [Hk He]. unfold booked. rewrite Hn, Hack. destruct ok.
  - rewrite (Hok eq_refl), Hn, Hack. cbn [kept exposed]. split; [|constructor]. rewrite !Forall_app. split_and!.
    + eapply Forall_impl; [done|]. simpl. intros r [? _]. auto.
    + eapply Forall_impl; [done|]. simpl. auto.
    + constructor; [|done]. split; left; apply elem_of_cons; by left.
  - split; (eapply Forall_impl; [done|]); simpl; [|done]. intros r [H1 H2]. split; [auto|].
    destruct Hnd as [-> | ->]; [by rewrite ack_other by lia|]. rewrite Hn, Hack. auto.
Qed.

Lemma booked_power d d' s b : crash_disk d d' -> booked d s b ->
  booked d' s (mkLedger (kept b ++ if decide (name d' = name d) then exposed b else []) []).
Proof using.
  intros [_ _ Hn Hnd] [Hk He]. unfold booked. rewrite Hnd. cbn [kept exposed]. split; [|constructor]. apply Forall_app. split.
  - eapply Forall_impl; [done|]. simpl. intros r [? ?]. by destruct Hn as [-> | ->].
  - destruct (decide (name d' = name d)) as [->|]; [|constructor]. eapply Forall_impl; [done|]. by simpl.
Qed.

Lemma account_history o d b t : account o d b t -> exists s, history o d s t /\ booked d s b.
Proof using Hinc.
  induction 1 as [io j d Hc|io st p j d b t r j' d' _ (s & Hh & Hb) Hs Hp Ha|ok j d b t r j' d' _ (s & Hh & Hb) Ha
    |io j d b t r j' d' _ (s & Hh & Hb) Ha|io st p j d b t r j' d' _ (s & Hh & Hb) Hs Hp Ha|j d b t _ (s & Hh & Hb)
    |io d b t r d' _ (s & Hh & Hb) Ho|o d b t d' _ (s & Hh & Hb) Hcr].
  - eexists. split; [by eapply h_create|]. split; constructor.
  - destruct (history_ok _ _ _ _ Hh) as [Hd Hj]. destruct (append_inv io st p j d s t r j' d' Hd Hj Hs Hp Ha) as (_ & _ & Hv).
    eexists. split; [by eapply h_append|]. eapply booked_call; [done| |done]. intros _. constructor; [left; set_solver|done].
  - destruct (history_ok _ _ _ _ Hh) as [Hd Hj]. destruct (sync_inv ok j d s t r j' d' Hd Hj Ha) as (_ & _ & Hv).
    eexists. split; [by eapply h_sync|]. eapply booked_call; [done| |done]. intros Hr. destruct Hv as (_ & _ & Hv).
    destruct (Hv Hr) as (-> & _). apply Forall_forall. auto.
  - destruct (history_ok _ _ _ _ Hh) as [Hd Hj]. destruct (repair_inv io j d s t r j' d' Hd Hj Ha) as (_ & _ & Hv).
    eexists. split; [by eapply h_repair|]. pose proof (booked_call s d d' (is_ok r) j' _ (match r with Ok replay => records replay | Err _ => [] end) b Hv) as H0.
    destruct r as [replay|e]; apply H0; try done. intros _. apply Forall_forall. auto.
  - destruct (history_ok _ _ _ _ Hh) as [Hd Hj]. destruct (compact_inv io st p j d s t r j' d' Hd Hj Hs Hp Ha) as (_ & _ & Hv).
    eexists. split; [by eapply h_compact|]. by eapply booked_compact.
  - eexists. split; [by eapply h_exit|done].
  - destruct (history_ok _ _ _ _ Hh) as [Hd _]. pose proof (open_inv io d s t Hd) as H0. rewrite Ho in H0. destruct H0 as (_ & Hn & Hnd & _).
    eexists. split; [by eapply h_open|]. by eapply booked_same.
  - eexists. split; [by eapply h_power|]. by eapply booked_power.
Qed.
End histories.

(** C27: what the journal told its caller is durable survives, and nothing else appears.  Take any run of a
    journal: appends, compactions, repairs, synchronizations, restarts and power losses, any system call
    failing at any point and any number of bytes of a failed write having landed.  Restart, or lose power and
    restart: opening the journal succeeds, and recovers a well-formed log of records handed to the journal
    that covers every record kept, one way or the other: the record is there, or the log starts from a
    checkpoint taken at or after it.  The records exposed, vouched for after a restart had adopted a file
    whose name was not yet on disk, are covered too unless the power loss bound the name to the older file;
    the next compaction that succeeds makes them kept. *)
Theorem acknowledged_records_survive inc o d b t d' : byte_list inc /\ zlen inc = 16 -> account inc o d b t ->
  d' = d \/ crash_disk d d' ->
  exists j replay d'', open_at open_well inc d' = (Ok (j, replay), d'') /\
    chain inc (records replay) /\ Forall (fun r => r ∈ t) (records replay) /\
    Forall (fun r => covered r (records replay)) (kept b) /\
    (name d' = name d -> Forall (fun r => covered r (records replay)) (exposed b)).
Proof.
  intros Hinc Ha Hd'. destruct (account_history inc Hinc _ _ _ _ Ha) as (s & Hh & Hk & He). apply history_ok in Hh as [Hd _]; [|done].
  assert (disk_ok inc d' s t /\ (name d' = name d \/ name d' = name_durable d)) as [Hok Hname].
  { destruct Hd' as [->|Hc]; [by auto|]. split; [by eapply crash_inv|apply (cd_name _ _ Hc)]. }
  pose proof (open_inv inc open_well d' s t Hok) as H. destruct (open_at open_well inc d') as [[[j replay]|e] d2]; [|by destruct H as (_ & _ & _ & [])].
  destruct H as (_ & _ & _ & _ & Hs & Hch & Ht). exists j, replay, d2. split_and!; try done.
  - eapply Forall_impl; [done|]. by intros r [? _].
  - eapply Forall_impl; [done|]. simpl. intros r [? ?]. eapply covered_prefix; [done|]. by destruct Hname as [-> | ->].
  - intros Hn. eapply Forall_impl; [done|]. simpl. intros r ?. eapply covered_prefix; [done|]. by rewrite Hn.
Qed.

(** ** A run *)

Definition demo_inc : list Z := repeat 7 16.
Definition append_well : AppendIo := mkAppendIo None true.
Definition demo_created : Journal * Disk := (mkJournal 0 0 0 demo_inc 0 false, mkDisk [mkFile [] []] 0 0).
Definition demo_appended : Journal * Disk := Eval vm_compute in (append_durable append_well 1 [1] demo_created).2.
(** A compaction whose rename took effect and whose directory was not
    synchronized; then a restart and another append. *)
Definition demo_compacted : Journal * Disk := Eval vm_compute in
  (compact_checkpoint (mkCompactIo None true true false true) 2 [2] demo_appended).2.
Definition demo_reopened : Journal * Disk := Eval vm_compute in
  match open_at open_well demo_inc demo_compacted.2 with (Ok (j, _), d) => (j, d) | (Err _, d) => (demo_compacted.1, d) end.
Definition demo_after : Journal * Disk := Eval vm_compute in (append_durable append_well 3 [3] demo_reopened).2.

Definition demo_record0 : JournalRecord := mkRecord demo_inc 0 1 [1] false.
Definition demo_record1 : JournalRecord := mkRecord demo_inc 1 3 [3] false.

Lemma demo_chain : chain demo_inc [demo_record0].
Proof.
  apply (chain_snoc _ []); [constructor|constructor; simpl; try done; [split; [|done]|split; [|done]]|done|by left]; repeat constructor; done.
Qed.

Lemma demo_inc_ok : byte_list demo_inc /\ zlen demo_inc = 16.
Proof. split; [repeat constructor; done|done]. Qed.

Lemma demo_appended_history : history demo_inc (Some demo_appended.1) demo_appended.2
  (ack demo_inc 0 demo_appended.2 (fun _ => [])) [demo_record0].
Proof.
  apply (h_append demo_inc append_well 1 [1] demo_created.1 demo_created.2 (fun _ => []) [] (Ok 0)); [|done|repeat constructor; done|by vm_compute].
  by apply (h_create demo_inc (mkCreateIo None true)).
Qed.

Lemma replay_of_crashed_log_witness : exists kept torn, replay_reader (take 20 (log_bytes [demo_record0])) demo_inc =
  Ok (mkReplay kept torn (zlen (log_bytes kept))).
Proof.
  destruct (replay_of_crashed_log demo_inc [demo_record0] 20 demo_chain ltac:(by vm_compute)) as (kept & lost & torn & _ & H & _).
  by exists kept, torn.
Defined.

Lemma replay_accepts_only_logs_witness : exists written, collapse written = [demo_record0].
Proof.
  destruct (replay_accepts_only_logs (log_bytes [demo_record0] ++ [86; 79]) demo_inc
    (mkReplay [demo_record0] true (zlen (log_bytes [demo_record0])))) as (written & _ & _ & H & _).
  - apply Forall_app. split; [|repeat constructor; done]. by vm_compute; repeat constructor.
  - by vm_compute.
  - by exists written.
Defined.

(** The appended record, then a compaction that succeeds. *)
Definition demo_checkpoint : JournalRecord := mkRecord demo_inc 0 2 [2] true.
Definition demo_finished : Journal * Disk := Eval vm_compute in
  (compact_checkpoint (mkCompactIo None true true true true) 2 [2] demo_appended).2.

Lemma demo_finished_account : account demo_inc (Some demo_finished.1) demo_finished.2
  (mkLedger [demo_record0; demo_checkpoint] []) [demo_record0; demo_checkpoint].
Proof.
  apply (ac_compact demo_inc (mkCompactIo None true true true true) 2 [2] demo_appended.1 demo_appended.2 (mkLedger [demo_record0] []) [demo_record0] (Ok tt));
    [|done|repeat constructor; done|by vm_compute].
  apply (ac_append demo_inc append_well 1 [1] demo_created.1 demo_created.2 (mkLedger [] []) [] (Ok 0)); [|done|repeat constructor; done|by vm_compute].
  by apply (ac_create demo_inc (mkCreateIo None true)).
Qed.

Lemma acknowledged_records_survive_witness : exists j replay d'',
  open_at open_well demo_inc demo_finished.2 = (Ok (j, replay), d'') /\ covered demo_record0 (records replay) /\
  covered demo_checkpoint (records replay).
Proof.
  destruct (acknowledged_records_survive demo_inc _ _ _ _ demo_finished.2 demo_inc_ok demo_finished_account ltac:(by left))
    as (j & replay & d'' & Ho & _ & _ & Hk & _).
  exists j, replay, d''. inversion Hk as [|? ? H0 Hk1]; subst. inversion Hk1 as [|? ? H1 _]; subst.
  split; [exact Ho|]. split; [exact H0|exact H1].
Defined.

(** The disk of [demo_after] with the name bound as last synchronized. *)
Definition demo_lost : Disk := mkDisk (map sync_data (inodes demo_after.2)) 0 0.

Lemma crash_kept f : crash_content f (content f).
Proof. exists (Nat.max (agree (content f) (durable f)) (length (content f))). split; [lia|]. left. symmetry. apply take_ge. lia. Qed.

(** C39: an acknowledged record can be lost after a restart that finds an unsynchronized rename.  A
    compaction renames its replacement and then synchronizes the directory; if that fails, or the process
    ends in between, the next [open_at] adopts the replacement without synchronizing the directory, appends
    to it are acknowledged, and a power loss may bind the name to the old file, in which they never were. *)
Theorem reopening_leaves_rename_unsynchronized : exists s t r,
  history demo_inc (Some demo_after.1) demo_after.2 s t /\ r ∈ s (name demo_after.2) /\ crash_disk demo_after.2 demo_lost /\
  exists j replay d', open_at open_well demo_inc demo_lost = (Ok (j, replay), d') /\ r ∉ records replay.
Proof.
  do 3 eexists. split_and!.
  - eapply (h_append demo_inc append_well 3 [3] demo_reopened.1 demo_reopened.2 _ _ (Ok 1)); [|done|repeat constructor; done|by vm_compute].
    eapply (h_open demo_inc open_well demo_compacted.2 _ _ (Ok (demo_reopened.1, _)) demo_reopened.2); [|by vm_compute].
    eapply h_exit, (h_compact demo_inc (mkCompactIo None true true false true) 2 [2] demo_appended.1 demo_appended.2 _ _ (Err Io));
      [apply demo_appended_history|done|repeat constructor; done|by vm_compute].
  - instantiate (1 := demo_record1). by vm_compute; set_solver.
  - constructor; [by vm_compute| |by right|done]. intros i Hi. destruct i as [|[|i]]; [| |simpl in Hi; lia].
    + split; [apply crash_kept|done].
    + split; [apply crash_kept|done].
  - do 3 eexists. split; [by vm_compute|]. by vm_compute; set_solver.
Qed.
