(* ===== verification/Permit.v ===== *)
(** * The permit ledger ([crates/vot-transport-api/src/permit.rs])

    A budget whose outstanding amount is owned by permits.  A permit belongs to
    one ledger, so the counters are the state and a permit is its amount. *)

From S2P Require Import Prelude SessionError.

Record Inner := mkInner { limit : Z; used : Z; poisoned : bool }.
Record Permit := mkPermit { amount : Z }.

Definition ledger_new (limit : Z) : result Inner TransportError :=
  if limit =? 0 then Err InvalidConfiguration else Ok (mkInner limit 0 false).

Definition charge (amount : Z) : M Inner TransportError unit := fun inner =>
  if amount =? 0 then (Err InvalidConfiguration, inner) else
  if poisoned inner then (Err AccountingPoisoned, inner) else
  match checked_add (used inner) amount with
  | None => (Err ArithmeticOverflow, inner)
  | Some next =>
      if limit inner <? next then (Err StagingExhausted, inner) else
      (Ok tt, mkInner (limit inner) next (poisoned inner))
  end.

Definition acquire (amount : Z) : M Inner TransportError Permit :=
  charge amount ;! ret (mkPermit amount).

(** The permit afterwards. *)
Definition permit_grow (p : Permit) (more : Z) : M Inner TransportError Permit :=
  let! total := lift (ok_or (checked_add (amount p) more) ArithmeticOverflow) in
  charge more ;! ret (mkPermit total).

(** What is left of the permit, and the new one. *)
Definition split (p : Permit) (take : Z) : result (Permit * Permit) TransportError :=
  if take =? 0 then Err InvalidConfiguration else
  if amount p <? take then Err InvalidConfiguration else Ok (mkPermit (amount p - take), mkPermit take).

Definition drop_permit (p : Permit) (inner : Inner) : Inner :=
  if amount p =? 0 then inner else
  if amount p <=? used inner then mkInner (limit inner) (used inner - amount p) (poisoned inner)
  else mkInner (limit inner) (limit inner) true.

Definition ledger_used (inner : Inner) : Z := if poisoned inner then limit inner else used inner.
Definition ledger_remaining (inner : Inner) : Z := if poisoned inner then 0 else saturating_sub (limit inner) (used inner).

(** ** Balance *)

Definition outstanding (ps : list Permit) : Z := foldr (fun p acc => amount p + acc) 0 ps.

(** A ledger and the permits alive on it, after any calls. *)
Inductive ledger_reach (total : Z) : Inner -> list Permit -> Prop :=
| lr_new inner : ledger_new total = Ok inner -> ledger_reach total inner []
| lr_acquire inner ps n r inner' : ledger_reach total inner ps -> 0 <= n -> acquire n inner = (r, inner') ->
    ledger_reach total inner' (match r with Ok p => ps ++ [p] | Err _ => ps end)
| lr_grow inner a p b n r inner' : ledger_reach total inner (a ++ p :: b) -> 0 <= n -> permit_grow p n inner = (r, inner') ->
    ledger_reach total inner' (a ++ match r with Ok p => p | Err _ => p end :: b)
| lr_split inner a p b n p1 p2 : ledger_reach total inner (a ++ p :: b) -> 0 <= n -> split p n = Ok (p1, p2) ->
    ledger_reach total inner (a ++ p1 :: p2 :: b)
| lr_drop inner a p b : ledger_reach total inner (a ++ p :: b) -> ledger_reach total (drop_permit p inner) (a ++ b).

Lemma outstanding_app a b : outstanding (a ++ b) = outstanding a + outstanding b.
Proof. induction a as [|p a IH]; simpl; [done|]. rewrite IH. lia. Qed.

Definition fits (n : Z) (inner : Inner) : Prop :=
  n <> 0 /\ poisoned inner = false /\ used inner + n <= Z.min (limit inner) u64_max.

Lemma charge_cases n inner :
  (charge n inner = (Ok tt, mkInner (limit inner) (used inner + n) (poisoned inner)) /\ fits n inner) \/
  (exists e, charge n inner = (Err e, inner) /\ ~ fits n inner).
Proof.
  unfold charge, fits. destruct (Z.eqb_spec n 0) as [->|Hn]; [right; eexists; naive_solver|].
  destruct (poisoned inner) eqn:Hp; [right; eexists; naive_solver|]. unfold checked_add.
  destruct (Z.leb_spec (used inner + n) u64_max); [|right; eexists; split; [done|lia]].
  destruct (Z.ltb_spec (limit inner) (used inner + n)); [right; eexists; split; [done|lia]|].
  left. split_and!; [done|done|done|lia].
Qed.

Lemma outstanding_nonneg ps : Forall (fun p => 0 <= amount p) ps -> 0 <= outstanding ps.
Proof. induction 1; simpl; lia. Qed.

(** Every ledger's books. *)
Definition balanced (total : Z) (inner : Inner) (ps : list Permit) : Prop :=
  limit inner = total /\ poisoned inner = false /\ used inner = outstanding ps /\ used inner <= total /\ Forall (fun p => 0 <= amount p) ps.

Lemma reach_balanced total inner ps : 0 <= total -> ledger_reach total inner ps -> balanced total inner ps.
Proof.
  intros Ht. induction 1 as [inner Hn|inner ps n r inner' _ IH Hn Ha|inner a p b n r inner' _ IH Hn Hg|inner a p b n p1 p2 _ IH Hn Hs|inner a p b _ IH].
  - unfold ledger_new in Hn. destruct (_ =? _); [done|]. injection Hn as <-. by split_and!.
  - destruct IH as (Hl & Hp & Hu & Hle & Hf). unfold acquire, bind, ret in Ha.
    destruct (charge_cases n inner) as [[Hc (_ & _ & Hm)]|(e & Hc & _)]; rewrite Hc in Ha; injection Ha as <- <-; [|done].
    split_and!; simpl; try done; [rewrite outstanding_app; simpl; lia|lia|]. apply Forall_app. split; [done|by constructor].
  - destruct IH as (Hl & Hp & Hu & Hle & Hf). unfold permit_grow, bind, lift, ret in Hg. unfold checked_add in Hg.
    destruct (_ <=? _); simpl in Hg; [|by injection Hg as <- <-].
    destruct (charge_cases n inner) as [[Hc (_ & _ & Hm)]|(e & Hc & _)]; rewrite Hc in Hg; injection Hg as <- <-; [|done].
    rewrite outstanding_app in Hu. simpl in Hu. apply Forall_app in Hf as [Ha Hb%Forall_cons].
    split_and!; simpl; try done; [rewrite outstanding_app; simpl; lia|lia|]. apply Forall_app. split; [done|]. constructor; [simpl; lia|apply Hb].
  - destruct IH as (Hl & Hp & Hu & Hle & Hf). unfold split in Hs. destruct (_ =? _); [done|].
    destruct (Z.ltb_spec (amount p) n); [done|]. injection Hs as <- <-. apply Forall_app in Hf as [Ha Hb%Forall_cons].
    split_and!; try done; [rewrite Hu, !outstanding_app; simpl; lia|]. apply Forall_app. split; [done|].
    constructor; [simpl; lia|]. constructor; [simpl; lia|apply Hb].
  - destruct IH as (Hl & Hp & Hu & Hle & Hf). apply Forall_app in Hf as [Ha [Hpa Hb]%Forall_cons]. rewrite outstanding_app in Hu. simpl in Hu.
    assert (0 <= outstanding a /\ 0 <= outstanding b) as [? ?] by (split; by apply outstanding_nonneg).
    assert (Forall (fun p => 0 <= amount p) (a ++ b)) as Hab by (by apply Forall_app). unfold drop_permit.
    destruct (Z.eqb_spec (amount p) 0); [split_and!; try done; rewrite outstanding_app; lia|].
    destruct (Z.leb_spec (amount p) (used inner)); [|lia]. split_and!; simpl; try done; [rewrite outstanding_app; lia|lia].
Qed.

(** a ledger balances.  After any acquisitions, growths, splits and drops, refused ones included, the
    amount a ledger reports used is exactly what its living permits hold, never more than its limit, and it
    is never poisoned; a request is granted exactly when it is positive and what remains covers it, and a
    refused one changes nothing. *)
Theorem ledger_balances total inner ps n : 0 <= total <= u64_max -> ledger_reach total inner ps -> 0 <= n ->
  ledger_used inner = outstanding ps /\ ledger_used inner + ledger_remaining inner = total /\ poisoned inner = false /\
  acquire n inner = (if (0 <? n) && (n <=? ledger_remaining inner) then
    (Ok (mkPermit n), mkInner total (used inner + n) false) else ((acquire n inner).1, inner)) /\
  (is_ok (acquire n inner).1 = true <-> 0 < n <= ledger_remaining inner).
Proof.
  intros Ht Hr Hn. apply reach_balanced in Hr as (Hl & Hp & Hu & Hle & Hf); [|lia].
  assert (0 <= outstanding ps) by (by apply outstanding_nonneg).
  unfold ledger_used, ledger_remaining, saturating_sub. rewrite Hp. split_and!; [done|lia|done| |]; unfold acquire, bind, ret.
  - destruct (charge_cases n inner) as [[-> (H1 & _ & Hm)]|(e & -> & Hno)]; simpl.
    + rewrite Hl, Hp. zcases; try done; lia.
    + zcases; try done. destruct Hno. split_and!; [lia|done|lia].
  - destruct (charge_cases n inner) as [[-> (H1 & _ & Hm)]|(e & -> & Hno)]; simpl; split; try done; [lia|].
    intros ?. destruct Hno. split_and!; [lia|done|lia].
Qed.

Lemma ledger_balances_witness : ledger_used (mkInner 10 3 false) = outstanding [mkPermit 3].
Proof.
  apply (ledger_balances 10 (mkInner 10 3 false) [mkPermit 3] 4); [mlia| |lia].
  apply (lr_acquire 10 (mkInner 10 0 false) [] 3 (Ok (mkPermit 3))); [by constructor|lia|done].
Defined.
