(* ===== verification/Framing.v ===== *)
(** * Stream reassembly ([crates/vot-transport-framing/src/lib.rs])

    A carrier delivers bytes in pieces of its own choosing.  Reassembly feeds
    them to [emit] one frame at a time, keeps what is left of a frame still
    arriving, and charges that to a budget the streams share. *)

From S2P Require Import Prelude Codec Registry SessionError SessionPolicy Permit.

Definition MAX_DATA_RECORD_BYTES : Z := 256 * 1024.
Definition MAX_FRAME_ENVELOPE_BYTES : Z := 16.
Definition MAX_PARTIAL_FRAME : Z := MAX_DATA_RECORD_WIRE_BYTES.

Inductive StreamKind := KControl | KReliable (lane : Z).

Definition payload_limit (kind : StreamKind) (control : Z) : Z :=
  match kind with KControl => control | KReliable _ => MAX_DATA_RECORD_BYTES end.

Definition partial_frame_limit (kind : StreamKind) (control : Z) : Z :=
  match kind with KControl => saturating_add control MAX_FRAME_ENVELOPE_BYTES | KReliable _ => MAX_PARTIAL_FRAME end.

Record FrameFault := mkFault { fault_error : TransportError; close : Z }.

Definition too_large : FrameFault := mkFault RecordTooLarge error_code.FRAME_TOO_LARGE.
Definition from_decode (error : DecodeError) : FrameFault := mkFault Backend (protocol_code error).
Definition exhausted : FrameFault := mkFault InboundQueueFull error_code.RESOURCE_LIMIT.

(** The trait of a budget: [reserve] and [grow] charge it or refuse, and
    dropping a hold returns what it covers. *)
Class AssemblyBudget (B H : Type) := mkBudget {
  reserve : Z -> B -> option (H * B);
  grow : H -> Z -> B -> option (H * B);
  drop_hold : H -> B -> B }.

(** A budget of its own, over the permit ledger; [None] when the ledger could
    not be made. *)
Definition StandaloneBudget : Type := option Inner.

Definition standalone_new (limit : Z) : StandaloneBudget :=
  match ledger_new limit with Ok inner => Some inner | Err _ => None end.

#[export] Instance standalone_budget : AssemblyBudget StandaloneBudget Permit := {
  reserve := fun bytes b => match b with
    | None => None
    | Some inner => match acquire bytes inner with (Ok p, inner) => Some (p, Some inner) | (Err _, _) => None end
    end;
  grow := fun p bytes b => match b with
    | None => None
    | Some inner => match permit_grow p bytes inner with (Ok p, inner) => Some (p, Some inner) | (Err _, _) => None end
    end;
  drop_hold := fun p b => option_map (drop_permit p) b }.

(** [usize::checked_next_power_of_two]. *)
Definition checked_next_power_of_two (n : Z) : option Z :=
  let p := 2 ^ Z.log2_up n in if p <=? u64_max then Some p else None.

Section framing.
Context {B H U : Type} `{AB : AssemblyBudget B H} (emit : list Z -> M U FrameFault unit).

Record Framing := mkFraming {
  pending : list Z; discarding : Z; f_hold : option H; charged : Z; kind : StreamKind }.

Definition framing_new (kind : StreamKind) : Framing := mkFraming [] 0 None 0 kind.

(** A stream, the budget it shares and what [emit] has made of its frames. *)
Record Stream := mkStream { framing : Framing; budget : B; out : U }.

Definition hold (bytes : list Z) (frame_length : option Z) : M Stream FrameFault unit := fun s =>
  let self := framing s in
  let required := zlen (pending self) + zlen bytes in
  let geometric := unwrap_or (checked_next_power_of_two required) required in
  let target := match frame_length with None => geometric | Some length => Z.min geometric length end in
  let growth := saturating_sub target (charged self) in
  let extended h b := (Ok tt, mkStream (mkFraming (pending self ++ bytes) (discarding self) h
    (if growth =? 0 then charged self else target) (kind self)) b (out s)) in
  if growth =? 0 then extended (f_hold self) (budget s) else
  match f_hold self with
  | Some h => match grow h growth (budget s) with Some (h, b) => extended (Some h) b | None => (Err exhausted, s) end
  | None => match reserve growth (budget s) with Some (h, b) => extended (Some h) b | None => (Err exhausted, s) end
  end.

(** The charge goes back with the buffer: [take_pending] and [release]. *)
Definition settled (discarding : Z) (s : Stream) : Stream :=
  let self := framing s in
  mkStream (mkFraming [] discarding None 0 (kind self))
    (match f_hold self with Some h => drop_hold h (budget s) | None => budget s end) (out s).

Definition read_envelope (kind : StreamKind) (control : Z) (input : list Z) : result (option FrameEnvelope) FrameFault :=
  match peek_envelope input (mkLimits (payload_limit kind control) 1) with
  | Ok envelope => if partial_frame_limit kind control <? total_length envelope then Err too_large else Ok (Some envelope)
  | Err (Incomplete _ _) => Ok None
  | Err error => Err (from_decode error)
  end.

Definition emit_frame (frame : list Z) : M Stream FrameFault unit := fun s =>
  let '(r, o) := emit frame (out s) in (r, mkStream (framing s) (budget s) o).

Definition set_discarding (n : Z) (s : Stream) : Stream :=
  let self := framing s in mkStream (mkFraming (pending self) n (f_hold self) (charged self) (kind self)) (budget s) (out s).

(** One turn of the [loop] of [accept] on input with a frame part-way through;
    [again] is the next turn. *)
Definition buffered_turn (control : Z) (again : list Z -> Stream -> option (result unit FrameFault * Stream))
    (input : list Z) (s : Stream) : option (result unit FrameFault * Stream) :=
  let self := framing s in
  match read_envelope (kind self) control (pending self) with
  | Err fault => Some (Err fault, s)
  | Ok None =>
      match hold (ztake 1 input) None s with
      | (Err fault, s) => Some (Err fault, s)
      | (Ok _, s) => again (zdrop 1 input) s
      end
  | Ok (Some envelope) =>
      let needed := total_length envelope - zlen (pending self) in
      let taken := Z.min needed (zlen input) in
      if skipped envelope then again (zdrop taken input) (settled (needed - taken) s) else
      match hold (ztake taken input) (Some (total_length envelope)) s with
      | (Err fault, s) => Some (Err fault, s)
      | (Ok _, s) =>
          let input := zdrop taken input in
          if zlen (pending (framing s)) <? total_length envelope then Some (Ok tt, s) else
          let complete := pending (framing s) in
          match emit_frame complete (settled (discarding (framing s)) s) with
          | (Err fault, s) => Some (Err fault, s)
          | (Ok _, s) => again input s
          end
      end
  end.

(** One turn with nothing buffered. *)
Definition fresh_turn (control : Z) (again : list Z -> Stream -> option (result unit FrameFault * Stream))
    (input : list Z) (s : Stream) : option (result unit FrameFault * Stream) :=
  match read_envelope (kind (framing s)) control input with
  | Err fault => Some (Err fault, s)
  | Ok None => Some (hold input None s)
  | Ok (Some envelope) =>
      if zlen input <? total_length envelope then
        if skipped envelope then Some (Ok tt, set_discarding (total_length envelope - zlen input) s)
        else Some (hold input (Some (total_length envelope)) s)
      else
      match (if skipped envelope then (Ok tt, s) else emit_frame (ztake (total_length envelope) input) s) with
      | (Err fault, s) => Some (Err fault, s)
      | (Ok _, s) => again (zdrop (total_length envelope) input) s
      end
  end.

(** The [loop] of [accept]; [None] when the fuel runs out. *)
Fixpoint accept_loop (fuel : nat) (control : Z) (input : list Z) (s : Stream) : option (result unit FrameFault * Stream) :=
  match fuel with
  | O => None
  | S fuel =>
      let dropped := Z.min (discarding (framing s)) (zlen input) in
      let s := set_discarding (discarding (framing s) - dropped) s in
      let input := zdrop dropped input in
      if negb (discarding (framing s) =? 0) then Some (Ok tt, s) else
      match input, pending (framing s) with
      | [], _ => Some (Ok tt, s)
      | _, _ :: _ => buffered_turn control (accept_loop fuel control) input s
      | _, [] => fresh_turn control (accept_loop fuel control) input s
      end
  end.

(** Every turn but the one that completes a buffered frame takes a byte, so
    two turns per byte and two more are enough ([accept_returns]). *)
Definition accept (control : Z) (bytes : list Z) (s : Stream) : option (result unit FrameFault * Stream) :=
  accept_loop (2 * length bytes + 2) control bytes s.
End framing.
