(* ===== verification/FramingTheorems.v ===== *)
(** * Stream reassembly: what it delivers and what it holds ([crates/vot-transport-framing/src/lib.rs])

    However a stream is cut into reads, the frames delivered are those of the
    stream; the storage held is bounded and is what the budget was charged. *)

From S2P Require Import Prelude Codec Registry SessionError SessionPolicy Permit Framing.

(** ** Envelopes of a growing input *)

(** A varint is read from its own bytes, or is incomplete. *)
Lemma decode_varint_cases s : byte_list s ->
  (exists n m, decode_varint s = Err (Incomplete n m) /\ zlen s < 8) \/
  (exists v w, decode_varint s = Ok (v, w) /\ 0 <= v /\ 1 <= w <= 8 /\ w <= zlen s).
Proof.
  intros Hb. destruct (decode_varint s) as [[v w]|e] eqn:He.
  - right. destruct (decode_varint_inv s v w Hb He) as ([? _] & ? & ? & _). by exists v, w.
  - left. unfold decode_varint in He. destruct s as [|first s]; [injection He as <-; by do 2 eexists|].
    inversion Hb as [|? ? Hf _]; subst. pose proof (width_bound first Hf).
    destruct (Z.ltb_spec (zlen (first :: s)) (varint_width first)); [|done]. injection He as <-. do 2 eexists. split; [done|lia].
Qed.

(** What the parser makes of the two fields of an envelope. *)
Definition envelope_of (limits : DecodeLimits) (ft type_width length length_width : Z) : result FrameEnvelope DecodeError :=
  let limit := Z.min (unwrap_or (registered_payload_limit ft) (max_unknown_payload limits)) HARD_MAX_FRAME_PAYLOAD in
  if limit <? length then Err (FrameTooLarge ft length limit) else
  if negb (is_known ft) && is_critical ft then Err (UnknownCritical ft) else
  let? header := ok_or (checked_add type_width length_width) (LengthOverflow length) in
  let? total := ok_or (checked_add header length) (LengthOverflow length) in
  Ok (mkEnvelope ft length header total (negb (is_known ft) || is_grease ft)).

Lemma peek_cases s limits : byte_list s ->
  (exists n m, peek_envelope s limits = Err (Incomplete n m) /\ zlen s < 16) \/
  (forall s', peek_envelope s' limits = Err InvalidLimits) \/
  (exists ft w1 v w2, 1 <= w1 <= 8 /\ 1 <= w2 <= 8 /\ w1 + w2 <= zlen s /\ 0 <= v /\
    decode_varint s = Ok (ft, w1) /\ decode_varint (zdrop w1 s) = Ok (v, w2) /\ peek_envelope s limits = envelope_of limits ft w1 v w2).
Proof.
  intros Hb. unfold peek_envelope, parse_envelope_prefix. destruct (validate_limits limits) as [[]|e] eqn:Hv; cycle 1.
  { right. left. unfold validate_limits in Hv. destruct (_ || _); [|done]. by injection Hv as <-. }
  destruct (decode_varint_cases s Hb) as [(n & m & He & Hl)|(ft & w1 & He & _ & Hw & Hl)]; rewrite He.
  { left. exists n, m. split; [done|lia]. }
  destruct (decode_varint_cases (zdrop w1 s)) as [(n & m & He2 & Hl2)|(v & w2 & He2 & Hv0 & Hw2 & Hl2)]; [by apply Forall_drop| |]; rewrite He2.
  all: rewrite zlen_zdrop in Hl2 by lia.
  { left. exists n, m. split; [done|lia]. }
  right. right. exists ft, w1, v, w2. split_and!; try done; lia.
Qed.

Lemma peek_fields s limits ft w1 v w2 : decode_varint s = Ok (ft, w1) -> decode_varint (zdrop w1 s) = Ok (v, w2) ->
  peek_envelope s limits = match validate_limits limits with Ok _ => envelope_of limits ft w1 v w2 | Err e => Err e end.
Proof. intros H1 H2. unfold peek_envelope, parse_envelope_prefix. destruct (validate_limits limits); [|done]. by rewrite H1, H2. Qed.

Lemma envelope_of_inv limits ft w1 v w2 env : 0 <= v -> envelope_of limits ft w1 v w2 = Ok env ->
  header_length env = w1 + w2 /\ payload_length env = v /\ total_length env = w1 + w2 + v.
Proof.
  intros Hv. unfold envelope_of. destruct (_ <? _); [done|]. destruct (_ && _); [done|].
  destruct (checked_add w1 w2) as [h|] eqn:H1; [|done]. apply checked_add_Some in H1 as [-> _]. simpl.
  destruct (checked_add (w1 + w2) v) as [t|] eqn:H2; [|done]. apply checked_add_Some in H2 as [-> _]. simpl. by intros [= <-].
Qed.

Lemma envelope_of_complete limits ft w1 v w2 n m : envelope_of limits ft w1 v w2 <> Err (Incomplete n m).
Proof.
  unfold envelope_of. destruct (_ <? _); [done|]. destruct (_ && _); [done|].
  destruct (checked_add w1 w2); [|done]. simpl. by destruct (checked_add _ v).
Qed.

Lemma read_cases k c s : byte_list s ->
  (read_envelope k c s = Ok None /\ zlen s < 16) \/
  (forall s', read_envelope k c s' = Err (from_decode InvalidLimits)) \/
  (exists ft w1 v w2, 1 <= w1 <= 8 /\ 1 <= w2 <= 8 /\ w1 + w2 <= zlen s /\ 0 <= v /\
    decode_varint s = Ok (ft, w1) /\ decode_varint (zdrop w1 s) = Ok (v, w2) /\ read_envelope k c s <> Ok None /\
    forall env, read_envelope k c s = Ok (Some env) -> header_length env = w1 + w2 /\ payload_length env = v /\
      total_length env = w1 + w2 + v /\ total_length env <= partial_frame_limit k c).
Proof.
  intros Hb. unfold read_envelope. set (lim := mkLimits _ _).
  destruct (peek_cases s lim Hb) as [(n & m & -> & Hl)|[Hi|(ft & w1 & v & w2 & H1 & H2 & H3 & H4 & H5 & H6 & ->)]];
    [by left|right; left; intros s'; by rewrite Hi|].
  right. right. exists ft, w1, v, w2. split_and!; try done; try lia.
  - pose proof (envelope_of_complete lim ft w1 v w2) as Hn.
    destruct (envelope_of lim ft w1 v w2) as [env|[]]; try done; [by destruct (_ <? _)|by destruct (Hn needed available)].
  - intros env. destruct (envelope_of lim ft w1 v w2) as [env'|e] eqn:He; [|by destruct e].
    destruct (Z.ltb_spec (partial_frame_limit k c) (total_length env')); [done|]. intros [= ->].
    destruct (envelope_of_inv _ _ _ _ _ _ H4 He) as (? & ? & ?). lia.
Qed.

(** Only the two fields are read. *)
Lemma read_local k c s x ft w1 v w2 : byte_list (s ++ x) -> 1 <= w1 -> 1 <= w2 -> w1 + w2 <= zlen s ->
  decode_varint (s ++ x) = Ok (ft, w1) -> decode_varint (zdrop w1 (s ++ x)) = Ok (v, w2) -> read_envelope k c (s ++ x) = read_envelope k c s.
Proof.
  intros Hb H1 H2 Hl D1 D2. assert (zdrop w1 (s ++ x) = zdrop w1 s ++ x) as Hd.
  { unfold zdrop. apply drop_app_le. unfold zlen in Hl. lia. }
  assert (decode_varint s = Ok (ft, w1)) as E1 by (apply (decode_varint_local s x w1); [done|lia|done]).
  assert (decode_varint (zdrop w1 s) = Ok (v, w2)) as E2.
  { rewrite Hd in D2. apply (decode_varint_local (zdrop w1 s) x w2); [|rewrite zlen_zdrop; lia|done].
    rewrite <- Hd. by apply Forall_drop. }
  unfold read_envelope. by rewrite (peek_fields _ _ _ _ _ _ D1 D2), (peek_fields _ _ _ _ _ _ E1 E2).
Qed.

(** The answer does not change as bytes arrive, once there is one. *)
Lemma read_mono k c s x : byte_list (s ++ x) -> read_envelope k c s <> Ok None -> read_envelope k c (s ++ x) = read_envelope k c s.
Proof.
  intros Hb Hn. pose proof (proj1 (Forall_app _ _ _) Hb) as [Hs _].
  destruct (read_cases k c s Hs) as [[? _]|[Hi|(ft & w1 & v & w2 & H1 & H2 & H3 & H4 & H5 & H6 & _)]]; [done|by rewrite !Hi|].
  apply (read_local k c s x ft w1 v w2); try lia; [done|by apply (decode_varint_local s x w1); [|lia|]|].
  replace (zdrop w1 (s ++ x)) with (zdrop w1 s ++ x) by (unfold zdrop; rewrite drop_app_le; [done|unfold zlen in *; lia]).
  apply (decode_varint_local (zdrop w1 s) x w2); [|rewrite zlen_zdrop; lia|done].
  apply Forall_app. apply Forall_app in Hb as [? ?]. split; [by apply Forall_drop|done].
Qed.

Lemma read_short k c s x env : byte_list (s ++ x) -> read_envelope k c (s ++ x) = Ok (Some env) -> header_length env <= zlen s ->
  read_envelope k c s = Ok (Some env).
Proof.
  intros Hb He Hl. destruct (read_cases k c (s ++ x) Hb) as [[? _]|[Hi|(ft & w1 & v & w2 & H1 & H2 & H3 & H4 & H5 & H6 & _ & Hx)]];
    [congruence|by rewrite Hi in He|]. destruct (Hx env He) as (Hh & _). rewrite <- He. symmetry.
  by apply (read_local k c s x ft w1 v w2); try lia.
Qed.

Lemma read_env k c s env : byte_list s -> read_envelope k c s = Ok (Some env) ->
  2 <= header_length env <= zlen s /\ 0 <= payload_length env /\ total_length env = header_length env + payload_length env /\
  total_length env <= partial_frame_limit k c.
Proof.
  intros Hb He. destruct (read_cases k c s Hb) as [[? _]|[Hi|(ft & w1 & v & w2 & H1 & H2 & H3 & H4 & H5 & H6 & _ & Hx)]];
    [congruence|by rewrite Hi in He|]. destruct (Hx env He) as (? & ? & ? & ?). lia.
Qed.

Lemma read_none k c s : byte_list s -> read_envelope k c s = Ok None -> zlen s < 16.
Proof.
  intros Hb He. destruct (read_cases k c s Hb) as [[_ ?]|[Hi|(? & ? & ? & ? & _ & _ & _ & _ & _ & _ & ? & _)]]; [done|by rewrite Hi in He|done].
Qed.

(** ** The frames of a stream *)

(** How a stream ends: within a frame, within a frame being skipped, or in a
    fault. *)
Inductive ending := Rest (p : list Z) | Skipping (n : Z) | Faulted (f : FrameFault).

Section stream.
Context (k : StreamKind) (c : Z).

(** The frames of a stream read at once. *)
Inductive parses : list Z -> list (list Z) -> ending -> Prop :=
| p_nil : parses [] [] (Rest [])
| p_header s : s <> [] -> read_envelope k c s = Ok None -> parses s [] (Rest s)
| p_fault s f : s <> [] -> read_envelope k c s = Err f -> parses s [] (Faulted f)
| p_partial s env : s <> [] -> read_envelope k c s = Ok (Some env) -> zlen s < total_length env ->
    parses s [] (if skipped env then Skipping (total_length env - zlen s) else Rest s)
| p_frame s env fs o : s <> [] -> read_envelope k c s = Ok (Some env) -> total_length env <= zlen s ->
    parses (zdrop (total_length env) s) fs o ->
    parses s ((if skipped env then [] else [ztake (total_length env) s]) ++ fs) o.

Lemma parses_det s fs o fs' o' : parses s fs o -> parses s fs' o' -> fs = fs' /\ o = o'.
Proof using.
  intros H. revert fs' o'. induction H as [|s H1 H2|s f H1 H2|s env H1 H2 H3|s env fs o H1 H2 H3 H4 IH]; intros fs' o' H';
    inversion H' as [|? G1 G2|? ? G1 G2|? env' G1 G2 G3|? env' gs o'' G1 G2 G3 G4]; subst; try done; try congruence;
    rewrite H2 in G2; injection G2 as <-; try done; try lia.
  by destruct (IH _ _ G4) as [-> ->].
Qed.

(** A whole frame in front. *)
Lemma parses_frame s env x fs o : byte_list (s ++ x) -> s <> [] -> read_envelope k c s = Ok (Some env) -> total_length env <= zlen s ->
  parses (zdrop (total_length env) s ++ x) fs o ->
  parses (s ++ x) ((if skipped env then [] else [ztake (total_length env) s]) ++ fs) o.
Proof using.
  intros Hb Hs He Hl Hp. pose proof (proj1 (Forall_app _ _ _) Hb) as [Hbs _]. destruct (read_env _ _ _ _ Hbs He) as (? & ? & ? & _).
  assert (ztake (total_length env) s = ztake (total_length env) (s ++ x)) as ->.
  { unfold ztake. rewrite take_app_le; [done|unfold zlen in *; lia]. }
  apply p_frame; [by destruct s|by rewrite read_mono, He by congruence|rewrite zlen_app; pose proof (zlen_nonneg x); lia|].
  replace (zdrop (total_length env) (s ++ x)) with (zdrop (total_length env) s ++ x); [done|].
  unfold zdrop. rewrite drop_app_le; [done|unfold zlen in *; lia].
Qed.

Lemma parses_rest s fs p : parses s fs (Rest p) -> forall x gs o, byte_list (s ++ x) -> parses (p ++ x) gs o -> parses (s ++ x) (fs ++ gs) o.
Proof using.
  intros H. remember (Rest p) as r eqn:Hr. induction H as [|s H1 H2|s f H1 H2|s env H1 H2 H3|s env fs o H1 H2 H3 H4 IH]; intros x gs o' Hb Hp.
  - by injection Hr as <-.
  - by injection Hr as <-.
  - done.
  - destruct (skipped env); [done|]. by injection Hr as <-.
  - rewrite <- app_assoc. apply parses_frame; try done. apply IH; try done.
    apply Forall_app in Hb as [? ?]. apply Forall_app. split; [by apply Forall_drop|done].
Qed.

Lemma parses_fault s fs f x : byte_list (s ++ x) -> parses s fs (Faulted f) -> parses (s ++ x) fs (Faulted f).
Proof using.
  intros Hb H. remember (Faulted f) as r eqn:Hr. induction H as [|s H1 H2|s f' H1 H2|s env H1 H2 H3|s env fs o H1 H2 H3 H4 IH]; try done.
  - subst. injection Hr as ->. apply p_fault; [by destruct s|]. by rewrite read_mono, H2 by congruence.
  - by destruct (skipped env).
  - apply parses_frame; try done. apply IH; [|done].
    apply Forall_app in Hb as [? ?]. apply Forall_app. split; [by apply Forall_drop|done].
Qed.

Lemma parses_skip s fs n : parses s fs (Skipping n) -> 0 < n /\ forall x, byte_list (s ++ x) ->
  (zlen x < n -> parses (s ++ x) fs (Skipping (n - zlen x))) /\
  (n <= zlen x -> forall gs o, parses (zdrop n x) gs o -> parses (s ++ x) (fs ++ gs) o).
Proof using.
  intros H. remember (Skipping n) as r eqn:Hr. induction H as [|s H1 H2|s f H1 H2|s env H1 H2 H3|s env fs o H1 H2 H3 H4 IH]; try done.
  - destruct (skipped env) eqn:Hs; [|done]. injection Hr as <-. split; [lia|]. intros x Hb.
    assert (read_envelope k c (s ++ x) = Ok (Some env)) as He by (by rewrite read_mono, H2 by congruence).
    assert (s ++ x <> []) by (by destruct s). split.
    + intros Hx. pose proof (p_partial (s ++ x) env ltac:(done) He) as Hp. rewrite Hs, zlen_app in Hp.
      replace (total_length env - zlen s - zlen x) with (total_length env - (zlen s + zlen x)) by lia. apply Hp. lia.
    + intros Hx gs o Hg. pose proof (p_frame (s ++ x) env gs o ltac:(done) He) as Hp. rewrite Hs in Hp. apply Hp; [rewrite zlen_app; lia|].
      replace (zdrop (total_length env) (s ++ x)) with (zdrop (total_length env - zlen s) x); [done|].
      unfold zdrop. rewrite drop_app_ge by (unfold zlen in *; lia). f_equal. unfold zlen. lia.
  - destruct (IH Hr) as [Hn Hx]. split; [done|]. intros x Hb.
    assert (byte_list (zdrop (total_length env) s ++ x)) as Hb'.
    { apply Forall_app in Hb as [? ?]. apply Forall_app. split; [by apply Forall_drop|done]. }
    destruct (Hx x Hb') as [Ha Hc]. split.
    + intros Hl. apply parses_frame; try done. by apply Ha.
    + intros Hl gs o' Hg. rewrite <- app_assoc. apply parses_frame; try done. by apply Hc.
Qed.

(** ** Reassembly follows the stream *)

Context {B H : Type} `{AB : AssemblyBudget B H}.

(** An [emit] that keeps every frame. *)
Definition collect (frame : list Z) : M (list (list Z)) FrameFault unit := fun frames => (Ok tt, frames ++ [frame]).

Local Notation St := (@Stream B H (list (list Z))).

(** A buffered frame is not past its end, and whole only when it is bare. *)
Definition partial (p : list Z) : Prop := forall env, read_envelope k c p = Ok (Some env) ->
  zlen p <= total_length env /\ (zlen p = total_length env -> payload_length env = 0).

(** [s] has been read: all of it but the buffered bytes is delivered, or it
    ends within a frame being skipped. *)
Definition delivered (s : list Z) (st : St) : Prop :=
  kind (framing st) = k /\
  ((discarding (framing st) = 0 /\ exists s0, s = s0 ++ pending (framing st) /\ parses s0 (out st) (Rest []) /\ partial (pending (framing st))) \/
   (pending (framing st) = [] /\ 0 < discarding (framing st) /\ parses s (out st) (Skipping (discarding (framing st))))).

Lemma hold_cases bytes fl (st : St) : hold bytes fl st = (Err exhausted, st) \/
  exists h ch b, hold bytes fl st = (Ok tt, mkStream (mkFraming (pending (framing st) ++ bytes) (discarding (framing st)) h ch (kind (framing st))) b (out st)).
Proof using.
  unfold hold. destruct (_ =? 0); [right; by do 3 eexists|]. destruct (f_hold (framing st)) as [h|].
  - destruct (grow _ _ _) as [[h' b]|]; [right; by do 3 eexists|by left].
  - destruct (reserve _ _) as [[h' b]|]; [right; by do 3 eexists|by left].
Qed.

(** A frame completed from the buffer. *)
Lemma completed s0 fs p t env : byte_list (s0 ++ p ++ t) -> parses s0 fs (Rest []) -> p <> [] -> read_envelope k c p = Ok (Some env) ->
  zlen (p ++ t) = total_length env -> parses (s0 ++ p ++ t) (fs ++ (if skipped env then [] else [p ++ t])) (Rest []).
Proof using.
  intros Hb Hp Hne He Hl. eapply parses_rest; [done|done|]. simpl app. pose proof (proj1 (Forall_app _ _ _) Hb) as [_ Hb2].
  rewrite <- (app_nil_r (if skipped env then _ else _)).
  replace [p ++ t] with [ztake (total_length env) (p ++ t)] by (by rewrite ztake_all by lia).
  apply p_frame; [by destruct p|by rewrite read_mono, He by (done || congruence)|lia|].
  replace (zdrop (total_length env) (p ++ t)) with (@nil Z); [constructor|]. unfold zdrop. rewrite drop_ge; [done|unfold zlen in *; lia].
Qed.

Lemma bytes_split s x n : byte_list (s ++ x) -> byte_list ((s ++ ztake n x) ++ zdrop n x).
Proof using. intros Hb. by rewrite <- app_assoc, ztake_zdrop. Qed.

(** One more byte of an incomplete header. *)
Lemma partial_snoc p b : byte_list (p ++ [b]) -> read_envelope k c p = Ok None -> partial (p ++ [b]).
Proof using.
  intros Hb Hn env He. destruct (read_env _ _ _ _ Hb He) as (Hh & Hp & Ht & _). rewrite zlen_app in *. change (zlen [b]) with 1 in *.
  assert (zlen p < header_length env) as Hgt.
  { destruct (Z.lt_ge_cases (zlen p) (header_length env)) as [|Hle]; [done|]. pose proof (read_short k c p [b] env Hb He Hle). congruence. }
  lia.
Qed.

Lemma partial_nil : partial [].
Proof using. intros env He. destruct (read_env k c [] env) as ([? Hl] & _); [constructor|done|]. change (zlen []) with 0 in Hl. lia. Qed.

(** What a run over [input] after [s] leaves. *)
Definition outcome (s input : list Z) (r : result unit FrameFault) (st : St) : Prop :=
  match r with
  | Ok _ => delivered (s ++ input) st
  | Err f => f = exhausted \/ parses (s ++ input) (out st) (Faulted f)
  end.

Definition runs (again : list Z -> St -> option (result unit FrameFault * St)) : Prop :=
  forall s input st r st', delivered s st -> byte_list (s ++ input) -> again input st = Some (r, st') -> outcome s input r st'.

(** The rest of the input, after [n] bytes of it. *)
Lemma runs_after again s input n st r st' : runs again -> delivered (s ++ ztake n input) st -> byte_list (s ++ input) ->
  again (zdrop n input) st = Some (r, st') -> outcome s input r st'.
Proof using.
  intros Hr Hd Hb Ha. specialize (Hr _ _ _ _ _ Hd (bytes_split _ _ _ Hb) Ha). unfold outcome in *.
  by rewrite <- app_assoc, ztake_zdrop in Hr.
Qed.

Lemma fresh_runs again s input st r st' : runs again -> kind (framing st) = k -> discarding (framing st) = 0 -> pending (framing st) = [] ->
  parses s (out st) (Rest []) -> input <> [] -> byte_list (s ++ input) ->
  fresh_turn collect c again input st = Some (r, st') -> outcome s input r st'.
Proof using.
  intros Hag Hk Hd Hpe Hp Hne Hb. pose proof (proj1 (Forall_app _ _ _) Hb) as [_ Hbi]. unfold fresh_turn. rewrite Hk.
  destruct (read_envelope k c input) as [[env|]|f] eqn:He.
  - destruct (read_env _ _ _ _ Hbi He) as (Hh & Hpl & Ht & _). destruct (Z.ltb_spec (zlen input) (total_length env)) as [Hlt|Hge].
    + destruct (skipped env) eqn:Hs.
      * intros [= <- <-]. split; [done|]. right. split_and!; simpl; [done|lia|]. rewrite <- (app_nil_r (out st)).
        eapply parses_rest; [done|done|]. pose proof (p_partial input env Hne He Hlt) as Hx. by rewrite Hs in Hx.
      * destruct (hold_cases input (Some (total_length env)) st) as [-> |(h & ch & b & ->)]; intros [= <- <-]; [by left|].
        split; [done|]. left. split; [done|]. exists s. simpl. rewrite Hpe. split_and!; [done|done|].
        intros env' He'. simpl in He'. assert (env' = env) as -> by congruence. simpl. lia.
    + intros Ha. apply (runs_after again s input (total_length env)
        (if skipped env then st else mkStream (framing st) (budget st) (out st ++ [ztake (total_length env) input])) r st' Hag);
        [|done|by destruct (skipped env)].
      assert (byte_list (s ++ ztake (total_length env) input)) as Hb'.
      { apply Forall_app in Hb as [? ?]. apply Forall_app. split; [done|by apply Forall_take]. }
      pose proof (completed s (out st) (ztake (total_length env) input) [] env) as Hcm. rewrite app_nil_r in Hcm.
      assert (read_envelope k c (ztake (total_length env) input) = Ok (Some env)) as He'.
      { apply (read_short k c _ (zdrop (total_length env) input)); rewrite ?ztake_zdrop, ?zlen_ztake by lia; try done. lia. }
      specialize (Hcm Hb' Hp ltac:(intros H0; apply (f_equal zlen) in H0; rewrite zlen_ztake in H0 by lia; change (zlen []) with 0 in H0; lia) He' ltac:(apply zlen_ztake; lia)).
      split; [by destruct (skipped env)|]. left. split; [by destruct (skipped env)|]. exists (s ++ ztake (total_length env) input).
      destruct (skipped env); simpl; rewrite Hpe, app_nil_r; split_and!; try apply partial_nil; try done. by rewrite app_nil_r in Hcm.
  - destruct (hold_cases input None st) as [-> |(h & ch & b & ->)]; intros [= <- <-]; [by left|].
    split; [done|]. left. split; [done|]. exists s. simpl. rewrite Hpe. split_and!; [done|done|]. intros env' He'. simpl in He'. congruence.
  - intros [= <- <-]. right. rewrite <- (app_nil_r (out st)). eapply parses_rest; [done|done|]. by apply p_fault.
Qed.

Lemma buffered_runs again s0 input st r st' : runs again -> kind (framing st) = k -> discarding (framing st) = 0 -> pending (framing st) <> [] ->
  parses s0 (out st) (Rest []) -> partial (pending (framing st)) -> input <> [] -> byte_list ((s0 ++ pending (framing st)) ++ input) ->
  buffered_turn collect c again input st = Some (r, st') -> outcome (s0 ++ pending (framing st)) input r st'.
Proof using.
  intros Hag Hk Hd Hpe Hp Hpa Hne Hb. unfold buffered_turn. rewrite Hk. set (p := pending (framing st)) in *.
  pose proof (proj1 (Forall_app _ _ _) Hb) as [Hb0 Hbi]. pose proof (proj1 (Forall_app _ _ _) Hb0) as [Hbs Hbp].
  assert (forall n, byte_list (p ++ ztake n input)) as Hbt by (intros n; apply Forall_app; split; [done|by apply Forall_take]).
  assert (1 <= zlen input) as Hl by (destruct input; [done|]; rewrite zlen_cons; pose proof (zlen_nonneg input); lia).
  destruct (read_envelope k c p) as [[env|]|f] eqn:He.
  - destruct (Hpa env He) as [Hle _]. set (needed := total_length env - zlen p). set (taken := Z.min needed (zlen input)).
    assert (0 <= taken <= zlen input) as Htk by (unfold taken, needed; lia).
    assert (byte_list (s0 ++ p ++ ztake taken input)) as Hb3 by (apply Forall_app; split; [done|apply Hbt]).
    assert (zlen (p ++ ztake taken input) = zlen p + taken) as Hz by (rewrite zlen_app, zlen_ztake; lia).
    destruct (skipped env) eqn:Hs.
    + intros Ha. eapply (runs_after again _ input taken); [done| |done|exact Ha]. split; [done|]. rewrite <- app_assoc.
      destruct (Z.eq_dec (needed - taken) 0) as [H0|Hn].
      * left. split; [done|]. exists (s0 ++ p ++ ztake taken input). simpl. rewrite app_nil_r. split_and!; [done| |apply partial_nil].
        pose proof (completed s0 (out st) p (ztake taken input) env Hb3 Hp Hpe He ltac:(rewrite Hz; unfold needed in H0; lia)) as Hcm.
        rewrite Hs, app_nil_r in Hcm. exact Hcm.
      * right. split_and!; [done|simpl; unfold taken; lia|]. rewrite <- (app_nil_r (out _)). eapply parses_rest; [exact Hp|done|].
        pose proof (p_partial (p ++ ztake taken input) env) as Hx. rewrite Hs, Hz in Hx. simpl.
        replace (needed - taken) with (total_length env - (zlen p + taken)) by (unfold needed; lia).
        apply Hx; [by destruct p|by rewrite read_mono, He by (done || congruence)|unfold needed in *; lia].
    + destruct (hold_cases (ztake taken input) (Some (total_length env)) st) as [-> |(h & ch & b & ->)]; [intros [= <- <-]; by left|].
      cbn [framing pending discarding]. fold p. rewrite Hz. destruct (Z.ltb_spec (zlen p + taken) (total_length env)) as [Hlt|Hge].
      * intros [= <- <-]. assert (taken = zlen input) as Hti by (unfold taken, needed in *; lia).
        split; [done|]. left. split; [done|]. exists s0. simpl. fold p. rewrite Hti, ztake_all in Hz |- * by lia. split_and!; [by rewrite <- app_assoc|done|].
        intros env' He'. rewrite read_mono, He in He' by ((rewrite <- (ztake_all (zlen input) input) by lia; done) || congruence).
        injection He' as <-. lia.
      * intros Ha. eapply (runs_after again _ input taken); [done| |done|exact Ha]. split; [done|]. left. split; [done|].
        exists (s0 ++ p ++ ztake taken input). simpl. fold p. rewrite app_nil_r, <- app_assoc. split_and!; [done| |apply partial_nil].
        pose proof (completed s0 (out st) p (ztake taken input) env Hb3 Hp Hpe He ltac:(rewrite Hz; unfold taken, needed in *; lia)) as Hcm.
        rewrite Hs in Hcm. exact Hcm.
  - destruct (hold_cases (ztake 1 input) None st) as [-> |(h & ch & b & ->)]; [intros [= <- <-]; by left|].
    intros Ha. eapply (runs_after again _ input 1); [done| |done|exact Ha]. split; [done|]. left. split; [done|].
    exists s0. simpl. fold p. split_and!; [by rewrite <- app_assoc|done|].
    destruct input as [|x input]; [done|]. specialize (Hbt 1). change (ztake 1 (x :: input)) with [x] in *. by apply partial_snoc.
  - intros [= <- <-]. right. eapply parses_fault; [done|]. rewrite <- (app_nil_r (out st)). eapply parses_rest; [done|done|]. by apply p_fault.
Qed.

Lemma accept_loop_runs fuel : runs (accept_loop collect fuel c).
Proof using.
  induction fuel as [|fuel IH]; intros s input st r st' Hd Hb Ha; [done|]. cbn [accept_loop] in Ha.
  set (n := discarding (framing st)) in *. set (dropped := Z.min n (zlen input)) in *. pose proof (zlen_nonneg input) as Hzi.
  assert (0 <= n) as Hn by (destruct Hd as [_ [[H0 _]|(_ & H0 & _)]]; lia).
  set (st1 := set_discarding (n - dropped) st) in *.
  assert (delivered (s ++ ztake dropped input) st1) as Hd1.
  { destruct Hd as [Hk [(H0 & s0 & Hs & Hp & Hpa)|(Hpe & Hpos & Hp)]]; (split; [done|]).
    - assert (dropped = 0) as -> by lia. unfold ztake. simpl. rewrite app_nil_r. left. split; [simpl; lia|by exists s0].
    - destruct (parses_skip s (out st) n Hp) as [_ Hsk].
      assert (byte_list (s ++ ztake dropped input)) as Hb' by (apply Forall_app in Hb as [? ?]; apply Forall_app; split; [done|by apply Forall_take]).
      assert (zlen (ztake dropped input) = dropped) as Hz by (apply zlen_ztake; lia). destruct (Hsk _ Hb') as [Ha1 Ha2]. rewrite Hz in Ha1, Ha2.
      destruct (Z.lt_ge_cases dropped n) as [Hlt|Hge].
      + right. split_and!; simpl; [done|lia|by apply Ha1].
      + left. split; [simpl; lia|]. exists (s ++ ztake dropped input). simpl. rewrite Hpe, app_nil_r. split_and!; [done| |apply partial_nil].
        rewrite <- (app_nil_r (out st)). apply Ha2; [done|]. replace (zdrop n (ztake dropped input)) with (@nil Z); [constructor|].
        unfold zdrop. rewrite drop_ge; [done|unfold zlen in Hz; lia]. }
  apply bytes_split with (n := dropped) in Hb as Hb1.
  replace input with (ztake dropped input ++ zdrop dropped input) by apply ztake_zdrop.
  assert (outcome (s ++ ztake dropped input) (zdrop dropped input) r st' -> outcome s (ztake dropped input ++ zdrop dropped input) r st') as Hout
    by (unfold outcome; by rewrite <- app_assoc). apply Hout. clear Hout.
  destruct (Z.eqb_spec (discarding (framing st1)) 0) as [H0|Hn0]; cbn [negb] in Ha; cycle 1.
  { injection Ha as <- <-. simpl in Hn0. assert (zdrop dropped input = []) as -> by (unfold zdrop; apply drop_ge; unfold dropped, zlen in *; lia).
    simpl. by rewrite app_nil_r. }
  destruct Hd1 as [Hk1 [(_ & s0 & Hs & Hp & Hpa)|(_ & Hpos & _)]]; [|lia].
  destruct (zdrop dropped input) as [|x rest] eqn:Hin.
  { injection Ha as <- <-. simpl. rewrite app_nil_r. split; [done|]. left. split; [done|]. by exists s0. }
  rewrite Hs in *. destruct (pending (framing st1)) as [|y p] eqn:Hpe.
  - rewrite app_nil_r in *. by eapply (fresh_runs (accept_loop collect fuel c)).
  - rewrite <- Hpe in *. eapply (buffered_runs (accept_loop collect fuel c)); try done. by rewrite Hpe.
Qed.

(** ** Reassembly returns *)

Definition turns (input : list Z) (st : St) : nat := 2 * length input + match pending (framing st) with [] => 1 | _ :: _ => 2 end.

Lemma accept_loop_total fuel input (st : St) : byte_list input -> (turns input st <= fuel)%nat -> is_Some (accept_loop collect fuel c input st).
Proof using.
  revert input st. induction fuel as [|fuel IH]; intros input st Hb Hf; [unfold turns in Hf; destruct (pending _); lia|]. cbn [accept_loop].
  set (dropped := Z.min _ _). set (st1 := set_discarding _ st). destruct (negb _); [by eexists|].
  assert (length (zdrop dropped input) <= length input)%nat as Hle by (unfold zdrop; rewrite length_drop; lia).
  assert (byte_list (zdrop dropped input)) as Hb1 by (by apply Forall_drop).
  assert (pending (framing st1) = pending (framing st)) as Hpe by done. revert Hle Hb1. generalize (zdrop dropped input). intros rest Hle Hb1.
  assert (turns rest st1 <= S fuel)%nat as Hf1 by (unfold turns in *; rewrite Hpe; lia). clear Hf Hle Hb Hpe.
  destruct rest as [|x rest]; [by eexists|].
  assert (forall n, 1 <= n -> (length (zdrop n (x :: rest)) <= length rest)%nat) as Hdr by (intros n Hn; unfold zdrop; rewrite length_drop; simpl; lia).
  assert (forall n, byte_list (zdrop n (x :: rest))) as Hbd by (intros n; by apply Forall_drop).
  assert (forall n, (length (zdrop n (x :: rest)) <= S (length rest))%nat) as Hdl by (intros n; unfold zdrop; rewrite length_drop; simpl; lia).
  unfold turns in Hf1. destruct (pending (framing st1)) as [|y p] eqn:Hp; simpl in Hf1.
  - unfold fresh_turn. destruct (read_envelope _ _ _) as [[env|]|] eqn:He; [|by eexists..].
    destruct (read_env _ _ _ _ Hb1 He) as (? & ? & ? & _). destruct (_ <? _); [destruct (skipped env); by eexists|].
    destruct (skipped env); simpl; (apply IH; [done|]; unfold turns; specialize (Hdr (total_length env) ltac:(lia)); simpl in Hp |- *; rewrite Hp; lia).
  - unfold buffered_turn. destruct (read_envelope _ _ _) as [[env|]|] eqn:He; [| |by eexists].
    + destruct (skipped env); [apply IH; [done|]; unfold turns; cbn [pending settled framing]; match goal with |- context [zdrop ?n _] => specialize (Hdl n) end; lia|].
      destruct (hold_cases (ztake (Z.min (total_length env - zlen (pending (framing st1))) (zlen (x :: rest))) (x :: rest)) (Some (total_length env)) st1)
        as [-> |(h & ch & b & ->)]; [by eexists|]. destruct (_ <? _); [by eexists|]. simpl.
      apply IH; [done|]. unfold turns. cbn [pending settled framing]. match goal with |- context [zdrop ?n _] => specialize (Hdl n) end. lia.
    + destruct (hold_cases (ztake 1 (x :: rest)) None st1) as [-> |(h & ch & b & ->)]; [by eexists|].
      apply IH; [done|]. unfold turns. specialize (Hdr 1 ltac:(lia)). cbn [framing pending]. destruct (_ ++ _); lia.
Qed.

(** The reads of a stream, one after the other, up to the first fault. *)
Fixpoint feed (reads : list (list Z)) (st : St) : option (result unit FrameFault * St) :=
  match reads with
  | [] => Some (Ok tt, st)
  | bytes :: reads => match accept collect c bytes st with Some (Ok _, st) => feed reads st | other => other end
  end.

Lemma feed_app reads more st : feed (reads ++ more) st =
  match feed reads st with Some (Ok _, st) => feed more st | other => other end.
Proof using.
  revert st. induction reads as [|x reads IH]; intros st; simpl; [done|]. destruct (accept _ _ _ _) as [[[]]|]; [apply IH|done..].
Qed.

Lemma feed_runs reads s st : delivered s st -> byte_list (s ++ concat reads) ->
  exists r st', feed reads st = Some (r, st') /\ outcome s (concat reads) r st'.
Proof using.
  revert s st. induction reads as [|x reads IH]; intros s st Hd Hb; simpl.
  { exists (Ok tt), st. simpl. by rewrite app_nil_r. }
  simpl in Hb. rewrite app_assoc in Hb. pose proof (proj1 (Forall_app _ _ _) Hb) as [Hb1 _]. pose proof (proj1 (Forall_app _ _ _) Hb1) as [_ Hbx].
  destruct (accept_loop_total (2 * length x + 2) x st Hbx) as [[r st1] Ha]; [unfold turns; destruct (pending _); lia|].
  unfold accept. rewrite Ha. pose proof (accept_loop_runs _ _ _ _ _ _ Hd Hb1 Ha) as Ho. destruct r as [[]|f].
  - destruct (IH (s ++ x) st1 Ho Hb) as (r & st2 & Hf & Ho2). exists r, st2. split; [done|]. unfold outcome in *. by rewrite app_assoc.
  - exists (Err f), st1. split; [done|]. destruct Ho as [->|Hp]; [by left|right]. rewrite app_assoc. by apply parses_fault.
Qed.

Lemma parses_total s : byte_list s -> exists fs e, parses s fs e.
Proof using.
  remember (length s) as n eqn:Hn. revert s Hn. induction n as [n IH] using lt_wf_ind. intros s -> Hb.
  destruct s as [|x s]; [do 2 eexists; apply p_nil|]. destruct (read_envelope k c (x :: s)) as [[env|]|f] eqn:He.
  - destruct (read_env _ _ _ _ Hb He) as (? & ? & ? & _). destruct (Z.lt_ge_cases (zlen (x :: s)) (total_length env)); [do 2 eexists; by apply p_partial|].
    destruct (IH (length (zdrop (total_length env) (x :: s)))) with (s := zdrop (total_length env) (x :: s)) as (fs & e & Hp); try done.
    + unfold zdrop. rewrite length_drop. simpl. lia.
    + by apply Forall_drop.
    + do 2 eexists. by apply p_frame.
  - do 2 eexists. by apply p_header.
  - do 2 eexists. by apply p_fault.
Qed.

(** A frame of [bytes] with nothing in it. *)
Definition bare (bytes : list Z) : Prop := exists env, read_envelope k c bytes = Ok (Some env) /\ total_length env = zlen bytes /\ payload_length env = 0.

Lemma partial_parses p : byte_list p -> partial p -> exists fs e, parses p fs e /\ (fs = [] \/ fs = [p] /\ bare p).
Proof using.
  intros Hb Hpa. destruct p as [|x p]; [exists [], (Rest []); split; [apply p_nil|by left]|].
  destruct (read_envelope k c (x :: p)) as [[env|]|f] eqn:He.
  - destruct (Hpa env He) as [Hle Hz]. destruct (Z.lt_ge_cases (zlen (x :: p)) (total_length env)).
    { do 2 eexists. split; [by apply p_partial|by left]. }
    assert (parses (x :: p) ((if skipped env then [] else [ztake (total_length env) (x :: p)]) ++ []) (Rest [])) as Hp.
    { apply p_frame; try done. replace (zdrop (total_length env) (x :: p)) with (@nil Z); [constructor|].
      unfold zdrop. rewrite drop_ge; [done|unfold zlen in *; lia]. }
    rewrite app_nil_r, ztake_all in Hp by lia. do 2 eexists. split; [done|].
    destruct (skipped env); [by left|right]. split; [done|]. exists env. split_and!; [done|lia|apply Hz; lia].
  - do 2 eexists. split; [by apply p_header|by left].
  - do 2 eexists. split; [by apply p_fault|by left].
Qed.

(** C25: how a stream is cut into reads does not matter.  A stream has one sequence of frames and one ending.
    Feeding it in any reads, under any budget, reassembly always answers: either it takes every read and has
    delivered exactly the frames of the stream, in order and whole, save at most one last frame with an
    empty payload that it still holds; or it stops because the budget refused it; or it stops at the
    stream's own fault, with exactly the frames before the fault delivered. *)
Theorem reassembly_ignores_reads reads b : byte_list (concat reads) ->
  exists r st frames e, feed reads (mkStream (framing_new k) b []) = Some (r, st) /\
    parses (concat reads) frames e /\ (forall frames' e', parses (concat reads) frames' e' -> frames' = frames /\ e' = e) /\
    match r with
    | Ok _ => frames = out st \/ (frames = out st ++ [pending (framing st)] /\ bare (pending (framing st)))
    | Err f => f = exhausted \/ (frames = out st /\ e = Faulted f)
    end.
Proof using.
  intros Hb. assert (delivered [] (mkStream (framing_new k) b [])) as Hd.
  { split; [done|]. left. split; [done|]. exists []. split_and!; [done|constructor|apply partial_nil]. }
  destruct (feed_runs reads [] _ Hd Hb) as (r & st & Hf & Ho). simpl in Ho. exists r, st.
  assert (forall fs e, parses (concat reads) fs e -> forall fs' e', parses (concat reads) fs' e' -> fs' = fs /\ e' = e) as Hdet
    by (intros; by eapply parses_det). destruct r as [[]|f]; simpl in Ho.
  - destruct Ho as [_ [(_ & s0 & Hs & Hp & Hpa)|(Hpe & _ & Hp)]]; [|by exists (out st), (Skipping (discarding (framing st))); eauto 10].
    rewrite Hs in Hb. pose proof (proj1 (Forall_app _ _ _) Hb) as [_ Hbp].
    destruct (partial_parses _ Hbp Hpa) as (gs & e & Hg & Hc). pose proof (parses_rest _ _ _ Hp _ _ _ Hb Hg) as Hall. rewrite <- Hs in Hall.
    exists (out st ++ gs), e. split_and!; [done|done|by apply Hdet|]. destruct Hc as [->|[-> ?]]; [left; by rewrite app_nil_r|by right].
  - destruct Ho as [->|Hp]; [|by exists (out st), (Faulted f); eauto 10].
    destruct (parses_total _ Hb) as (fs & e & Hp). exists fs, e. eauto 10.
Qed.
End stream.

(** ** What reassembly holds *)

(** What a budget promises: [held] is what it has charged, a hold [covers] what
    was reserved and grown, and dropping one returns that. *)
Class BudgetLaws (B H : Type) `{AB : AssemblyBudget B H} := mkBudgetLaws {
  held : B -> Z;
  covers : H -> Z;
  reserve_law : forall n b h b', 0 < n -> reserve n b = Some (h, b') -> covers h = n /\ held b' = held b + n;
  grow_law : forall h n b h' b', 0 < n -> grow h n b = Some (h', b') -> covers h' = covers h + n /\ held b' = held b + n;
  drop_law : forall h b, 0 <= covers h <= held b -> held (drop_hold h b) = held b - covers h }.

#[export] Instance standalone_laws : BudgetLaws StandaloneBudget Permit.
Proof.
  refine {| held := fun b => match b with Some inner => used inner | None => 0 end; covers := amount |}.
  - intros n [inner|] h b' Hn; [|done]. simpl. unfold acquire, bind, ret.
    destruct (charge_cases n inner) as [[-> _]|(e & -> & _)]; [|done]. by intros [= <- <-].
  - intros h n [inner|] h' b' Hn; [|done]. simpl. unfold permit_grow, bind, lift, ret.
    destruct (checked_add (amount h) n) as [total|] eqn:Ht; [|done]. apply checked_add_Some in Ht as [-> _]. simpl.
    destruct (charge_cases n inner) as [[-> _]|(e & -> & _)]; [|done]. by intros [= <- <-].
  - intros h [inner|] Hh; simpl; [|lia]. unfold drop_permit. zcases; simpl; lia.
Defined.

Lemma next_power n : 0 <= n -> n <= unwrap_or (checked_next_power_of_two n) n.
Proof.
  intros Hn. unfold checked_next_power_of_two. zcases; simpl; [|lia].
  destruct (Z.lt_ge_cases 1 n); [by apply Z.log2_up_spec|]. pose proof (Z.pow_pos_nonneg 2 (Z.log2_up n) ltac:(lia) (Z.log2_up_nonneg n)). lia.
Qed.

Lemma next_power_16 n : 0 <= n <= 16 -> unwrap_or (checked_next_power_of_two n) n <= 16.
Proof.
  intros Hn. unfold checked_next_power_of_two. zcases; simpl; [|lia].
  pose proof (Z.log2_up_le_mono n 16 ltac:(lia)) as Hl. change (Z.log2_up 16) with 4 in Hl.
  change 16 with (2 ^ 4). apply Z.pow_le_mono_r; lia.
Qed.

Section charges.
Context (k : StreamKind) (c : Z) {B H : Type} `{BL : BudgetLaws B H}.
Local Notation St := (@Stream B H (list (list Z))).

(** The most a stream may have charged. *)
Definition storage_bound : Z := Z.max MAX_FRAME_ENVELOPE_BYTES (partial_frame_limit k c).

Record charge_ok (base : Z) (st : St) : Prop := mkChargeOk {
  co_kind : kind (framing st) = k;
  co_pending : byte_list (pending (framing st));
  co_held : 0 <= base /\ held (budget st) = base + charged (framing st);
  co_hold : match f_hold (framing st) with None => charged (framing st) = 0 | Some h => covers h = charged (framing st) end;
  co_bound : zlen (pending (framing st)) <= charged (framing st) <= storage_bound }.

(** [hold] on bytes within the frame, or within what a header may take. *)
Lemma hold_charges base bytes fl (st : St) : charge_ok base st -> byte_list bytes ->
  match fl with Some total => zlen (pending (framing st)) + zlen bytes <= total <= partial_frame_limit k c
    | None => zlen (pending (framing st)) + zlen bytes <= 16 end ->
  charge_ok base (hold bytes fl st).2.
Proof using.
  intros Hco Hb Hfl. pose proof Hco as [Hk Hbp [Hb0 Hh] Hho Hbd]. unfold hold. pose proof (zlen_nonneg (pending (framing st))). pose proof (zlen_nonneg bytes).
  set (required := zlen (pending (framing st)) + zlen bytes) in *. set (geometric := unwrap_or (checked_next_power_of_two required) required).
  set (target := match fl with None => geometric | Some length => Z.min geometric length end).
  assert (required <= target <= storage_bound) as Ht.
  { pose proof (next_power required ltac:(lia)) as Hg. fold geometric in Hg. unfold target, storage_bound, MAX_FRAME_ENVELOPE_BYTES.
    destruct fl as [total|]; [lia|]. pose proof (next_power_16 required ltac:(lia)) as H16. fold geometric in H16. lia. }
  assert (byte_list (pending (framing st) ++ bytes)) as Hbb by (by apply Forall_app).
  assert (zlen (pending (framing st) ++ bytes) = required) as Hz by apply zlen_app. unfold saturating_sub.
  destruct (Z.eqb_spec (Z.max (target - charged (framing st)) 0) 0) as [Heq|Hn].
  { simpl. constructor; simpl; try done. rewrite Hz. lia. }
  assert (0 < Z.max (target - charged (framing st)) 0) as Hpos by lia. destruct (f_hold (framing st)) as [h|].
  - destruct (grow _ _ _) as [[h' b']|] eqn:Hg; [|done]. destruct (grow_law _ _ _ _ _ Hpos Hg) as [Hc Hd].
    constructor; simpl; try done; [rewrite Hd, Hh; lia|rewrite Hc, Hho; lia|rewrite Hz; lia].
  - destruct (reserve _ _) as [[h' b']|] eqn:Hg; [|done]. destruct (reserve_law _ _ _ _ Hpos Hg) as [Hc Hd].
    constructor; simpl; try done; [rewrite Hd, Hh; lia|rewrite Hc; lia|rewrite Hz; lia].
Qed.

Lemma settled_charges base n (st : St) : charge_ok base st -> charge_ok base (settled n st).
Proof using.
  intros [Hk _ [Hb0 Hh] Hho Hbd]. pose proof (zlen_nonneg (pending (framing st))). constructor; simpl; [done|constructor| |done|].
  - split; [done|]. destruct (f_hold (framing st)) as [h|]; [|lia]. rewrite drop_law by lia. lia.
  - change (zlen []) with 0. unfold storage_bound, MAX_FRAME_ENVELOPE_BYTES. lia.
Qed.

Lemma set_charges base (st : St) o d : charge_ok base st ->
  charge_ok base (mkStream (mkFraming (pending (framing st)) d (f_hold (framing st)) (charged (framing st)) (kind (framing st))) (budget st) o).
Proof using. intros []. by constructor. Qed.

Lemma out_charges base (st : St) o : charge_ok base st -> charge_ok base (mkStream (framing st) (budget st) o).
Proof using. intros []. by constructor. Qed.

Definition charges (again : list Z -> St -> option (result unit FrameFault * St)) : Prop :=
  forall base input st r st', charge_ok base st -> partial k c (pending (framing st)) -> byte_list input ->
    again input st = Some (r, st') -> charge_ok base st'.

Lemma fresh_charges again base input st r st' : charges again -> charge_ok base st -> pending (framing st) = [] -> byte_list input ->
  fresh_turn collect c again input st = Some (r, st') -> charge_ok base st'.
Proof using.
  intros Hag Hco Hpe Hb. unfold fresh_turn. rewrite (co_kind _ _ Hco).
  assert (partial k c (pending (framing st))) as Hpa by (rewrite Hpe; apply partial_nil).
  destruct (read_envelope k c input) as [[env|]|f] eqn:He; [| |by intros [= _ <-]].
  - destruct (read_env _ _ _ _ Hb He) as (Hh & Hpl & Ht & Hlim). destruct (Z.ltb_spec (zlen input) (total_length env)).
    + destruct (skipped env); intros [= Hr]; [subst; by apply (set_charges base st)|].
      replace st' with (hold input (Some (total_length env)) st).2 by (by rewrite Hr).
      apply hold_charges; rewrite ?Hpe; simpl; try done. change (zlen []) with 0. lia.
    + destruct (skipped env); simpl; intros Ha; (eapply Hag; [| | |exact Ha]); try done; try (by apply Forall_drop). by apply out_charges.
  - intros [= Hr]. replace st' with (hold input None st).2 by (by rewrite Hr). pose proof (read_none _ _ _ Hb He).
    apply hold_charges; rewrite ?Hpe; simpl; try done. change (zlen []) with 0. lia.
Qed.

Lemma buffered_charges again base input st r st' : charges again -> charge_ok base st -> partial k c (pending (framing st)) ->
  pending (framing st) <> [] -> input <> [] -> byte_list input ->
  buffered_turn collect c again input st = Some (r, st') -> charge_ok base st'.
Proof using.
  intros Hag Hco Hpa Hpe Hne Hb. unfold buffered_turn. rewrite (co_kind _ _ Hco). pose proof (co_pending _ _ Hco) as Hbp.
  set (p := pending (framing st)) in *. pose proof (zlen_nonneg input).
  assert (forall n, byte_list (ztake n input) /\ byte_list (zdrop n input)) as Hbt by (intros n; split; [by apply Forall_take|by apply Forall_drop]).
  destruct (read_envelope k c p) as [[env|]|f] eqn:He; [| |by intros [= _ <-]].
  - destruct (read_env _ _ _ _ Hbp He) as (Hh & Hpl & Ht & Hlim). destruct (Hpa env He) as [Hle _].
    set (taken := Z.min (total_length env - zlen p) (zlen input)).
    destruct (skipped env); [intros Ha; eapply Hag; [| | |exact Ha]; [by apply settled_charges|apply partial_nil|apply Hbt]|].
    assert (charge_ok base (hold (ztake taken input) (Some (total_length env)) st).2) as Hx.
    { apply hold_charges; [done|apply Hbt|]. fold p. rewrite zlen_ztake; unfold taken; lia. }
    destruct (hold (ztake taken input) (Some (total_length env)) st) as [[[]|f] st1]; simpl in Hx; [|by intros [= _ <-]].
    destruct (_ <? _); [by intros [= _ <-]|]. simpl. intros Ha. eapply Hag; [| | |exact Ha]; [|apply partial_nil|apply Hbt].
    by apply (out_charges base (settled (discarding (framing st1)) st1)), settled_charges.
  - pose proof (read_none _ _ _ Hbp He) as H16. assert (exists x rest, input = x :: rest) as (x & rest & ->) by (destruct input; [done|by do 2 eexists]).
    change (ztake 1 (x :: rest)) with [x]. assert (charge_ok base (hold [x] None st).2) as Hx.
    { apply hold_charges; [done|apply (Hbt 1)|]. fold p. change (zlen [x]) with 1. lia. }
    destruct (hold_cases [x] None st) as [Ho|(h & ch & b & Ho)]; rewrite Ho in Hx |- *; simpl in Hx; [by intros [= _ <-]|].
    intros Ha. eapply Hag; [| | |exact Ha]; [done| |apply (Hbt 1)]. simpl. apply partial_snoc; [|done]. apply Forall_app. split; [done|apply (Hbt 1)].
Qed.

Lemma accept_loop_charges fuel : charges (accept_loop collect fuel c).
Proof using.
  induction fuel as [|fuel IH]; intros base input st r st' Hco Hpa Hb Ha; [done|]. cbn [accept_loop] in Ha.
  set (dropped := Z.min _ _) in Ha. set (st1 := set_discarding _ st) in Ha.
  assert (charge_ok base st1) as Hco1 by (by apply (set_charges base st)). assert (byte_list (zdrop dropped input)) as Hb1 by (by apply Forall_drop).
  destruct (negb _); [by injection Ha as _ <-|]. destruct (zdrop dropped input) as [|x rest]; [by injection Ha as _ <-|].
  destruct (pending (framing st1)) as [|y p] eqn:Hpe; [by eapply fresh_charges|].
  eapply (buffered_charges (accept_loop collect fuel c)); try done; try exact Hpa; [by rewrite Hpe|congruence].
Qed.

Lemma delivered_partial s (st : St) : delivered k c s st -> partial k c (pending (framing st)).
Proof using. intros [_ [(_ & _ & _ & _ & H0)|(-> & _)]]; [done|apply partial_nil]. Qed.

Lemma feed_charges base reads s st r st' : delivered k c s st -> charge_ok base st -> byte_list (s ++ concat reads) ->
  feed c reads st = Some (r, st') -> charge_ok base st'.
Proof using.
  revert s st. induction reads as [|x reads IH]; intros s st Hd Hco Hb; simpl; [by intros [= _ <-]|].
  simpl in Hb. rewrite app_assoc in Hb. pose proof (proj1 (Forall_app _ _ _) Hb) as [Hb1 _]. pose proof (proj1 (Forall_app _ _ _) Hb1) as [_ Hbx].
  destruct (accept collect c x st) as [[r1 st1]|] eqn:Ha; [|done].
  pose proof (accept_loop_charges _ _ _ _ _ _ Hco (delivered_partial _ _ Hd) Hbx Ha) as Hco1.
  pose proof (accept_loop_runs k c _ _ _ _ _ _ Hd Hb1 Ha) as Ho. destruct r1 as [[]|f]; [|by intros [= _ <-]]. by apply (IH (s ++ x)).
Qed.

(** C26: reassembly holds little and charges exactly it.  Whatever bytes arrive and however they are cut, a
    stream buffers no more than it has charged, has charged no more than one envelope or the largest frame
    its lane admits, whichever is greater, and what it has charged is exactly what it has added to the
    budget: a completed, skipped or dropped frame returns its whole charge. *)
Theorem reassembly_charges_what_it_holds reads b r st : 0 <= held b -> byte_list (concat reads) ->
  feed c reads (mkStream (framing_new k) b []) = Some (r, st) ->
  held (budget st) = held b + charged (framing st) /\ 0 <= zlen (pending (framing st)) <= charged (framing st) /\
  charged (framing st) <= storage_bound.
Proof using BL.
  intros Hh Hb Hf.
  assert (charge_ok (held b) (mkStream (framing_new k) b [])) as Hco.
  { constructor; simpl; try done; [constructor|lia|]. change (zlen []) with 0. unfold storage_bound, MAX_FRAME_ENVELOPE_BYTES. lia. }
  assert (delivered k c [] (mkStream (framing_new k) b [] : St)) as Hd.
  { split; [done|]. left. split; [done|]. exists []. split_and!; [done|constructor|apply partial_nil]. }
  destruct (feed_charges (held b) reads [] _ r st Hd Hco Hb Hf) as [_ _ [_ H1] _ H2]. pose proof (zlen_nonneg (pending (framing st))). lia.
Qed.
End charges.

(** ** Witnesses and an example *)

(** A SETTINGS_ACK, then an empty SETTINGS, in three reads. *)
Definition demo_reads : list (list Z) := [[5]; [0; 3]; [0]].
Definition demo_budget : StandaloneBudget := Some (mkInner 100 0 false).

Lemma reassembly_ignores_reads_witness : exists r st, feed 1024 demo_reads (mkStream (framing_new KControl) demo_budget []) = Some (r, st).
Proof.
  destruct (reassembly_ignores_reads KControl 1024 demo_reads demo_budget) as (r & st & _ & _ & H & _); [repeat constructor; done|].
  by exists r, st.
Defined.

Lemma reassembly_charges_what_it_holds_witness : exists st, feed 1024 demo_reads (mkStream (framing_new KControl) demo_budget []) = Some (Ok tt, st) /\
  held (budget st) = charged (framing st).
Proof.
  destruct (feed 1024 demo_reads (mkStream (framing_new KControl) demo_budget [])) as [[r st]|] eqn:Hf; [|by vm_compute in Hf].
  destruct (reassembly_charges_what_it_holds KControl 1024 demo_reads demo_budget r st) as [H _]; [done|repeat constructor; done|done|].
  exists st. split; [|done]. vm_compute in Hf. by injection Hf as <- <-.
Defined.

(** ** A frame that is whole and not delivered *)

Section withheld.
Context (k : StreamKind) (c : Z) {B H : Type} `{AB : AssemblyBudget B H}.
Local Notation St := (@Stream B H (list (list Z))).

(** The stream has delivered nothing and holds [p]. *)
Definition holding (p : list Z) (st : St) : Prop :=
  kind (framing st) = k /\ discarding (framing st) = 0 /\ pending (framing st) = p /\ out st = [].

(** Stopped by the budget, or holding [p]. *)
Definition held_back (p : list Z) (o : option (result unit FrameFault * St)) : Prop :=
  exists r st, o = Some (r, st) /\ (r = Err exhausted \/ r = Ok tt /\ holding p st).

Context (f : list Z) (Hb : byte_list f) (Hbare : bare k c f).

(** Short of its last byte a bare frame is part of a header. *)
Lemma bare_prefix p x : f = p ++ x -> x <> [] -> read_envelope k c p = Ok None.
Proof using Hb Hbare.
  intros -> Hx. destruct Hbare as (env & He & Ht & Hp). destruct (read_envelope k c p) as [[env'|]|] eqn:Hr; [|done|].
  - rewrite read_mono, Hr in He by (done || congruence). injection He as ->.
    apply Forall_app in Hb as [Hbp _]. destruct (read_env _ _ _ _ Hbp Hr) as (? & _ & ? & _). rewrite zlen_app in Ht.
    destruct x as [|y x]; [done|]. rewrite zlen_cons in Ht. pose proof (zlen_nonneg x). lia.
  - rewrite read_mono, Hr in He by (done || congruence). done.
Qed.

Lemma set_holding p (st : St) : holding p st -> set_discarding 0 st = st.
Proof using. intros (_ & Hd & _). unfold set_discarding. destruct st as [[] ? ?]. simpl in *. by subst. Qed.

Lemma turn_held fuel p input (st : St) : holding p st -> input <> [] ->
  accept_loop collect (S fuel) c input st =
  match p with
  | [] => fresh_turn collect c (accept_loop collect fuel c) input st
  | _ :: _ => buffered_turn collect c (accept_loop collect fuel c) input st
  end.
Proof using.
  intros Hh Hi. pose proof Hh as (_ & Hd & Hp & _). cbn [accept_loop]. rewrite Hd. pose proof (zlen_nonneg input).
  rewrite Z.min_l by lia. change (0 - 0) with 0. rewrite (set_holding p st Hh), Hd, Hp. change (zdrop 0 input) with input. simpl.
  by destruct input, p.
Qed.

Lemma idle_held fuel p (st : St) : holding p st -> accept_loop collect (S fuel) c [] st = Some (Ok tt, st).
Proof using.
  intros Hh. pose proof Hh as (_ & Hd & _). cbn [accept_loop]. rewrite Hd. change (zlen []) with 0. change (0 `min` 0) with 0.
  change (0 - 0) with 0. rewrite (set_holding p st Hh), Hd. done.
Qed.

Lemma hold_held p bytes fl (st : St) : holding p st -> hold bytes fl st = (Err exhausted, st) \/
  exists st', hold bytes fl st = (Ok tt, st') /\ holding (p ++ bytes) st'.
Proof using.
  intros (Hk & Hd & Hp & Ho). destruct (hold_cases bytes fl st) as [->|(h & ch & b & ->)]; [by left|right].
  eexists. split; [done|]. by rewrite Hp.
Qed.

(** A header taken byte by byte. *)
Lemma header_held fuel x p y (st : St) : (length x < fuel)%nat -> holding p st -> p <> [] -> f = p ++ x ++ y ->
  held_back (p ++ x) (accept_loop collect fuel c x st).
Proof using Hb Hbare.
  revert fuel p st. induction x as [|b x IH]; intros [|fuel] p st Hf Hh Hne Heq; simpl in Hf; try lia.
  - rewrite app_nil_r. exists (Ok tt), st. split; [by eapply idle_held|by right].
  - rewrite (turn_held fuel p) by done. destruct p as [|a p]; [done|]. pose proof Hh as (Hk & Hd & Hp & Ho).
    unfold buffered_turn. rewrite Hk, Hp, (bare_prefix (a :: p) ((b :: x) ++ y) Heq ltac:(done)).
    change (ztake 1 (b :: x)) with [b]. change (zdrop 1 (b :: x)) with x.
    destruct (hold_held _ [b] None st Hh) as [->|(st' & -> & Hh')]; [exists (Err exhausted), st; auto|].
    destruct (IH fuel ((a :: p) ++ [b]) st') as (r & st2 & -> & Hr); [lia|done|done|by rewrite <- app_assoc|].
    exists r, st2. by rewrite <- app_assoc in Hr.
Qed.

Lemma read_held x p y (st : St) : holding p st -> f = p ++ x ++ y -> x <> f -> held_back (p ++ x) (accept collect c x st).
Proof using Hb Hbare.
  intros Hh Heq Hx. unfold accept. destruct p as [|a p]; [|by eapply header_held; [lia|..]].
  destruct x as [|b x]; [exists (Ok tt), st; split; [by eapply idle_held|by right]|].
  replace (2 * length (b :: x) + 2)%nat with (S (2 * length (b :: x) + 1)) by lia. rewrite (turn_held _ []) by done.
  pose proof Hh as (Hk & _). unfold fresh_turn. rewrite Hk, (bare_prefix (b :: x) y Heq).
  - destruct (hold_held _ (b :: x) None st Hh) as [->|(st' & -> & Hh')]; do 2 eexists; (split; [done|]); auto.
  - intros ->. rewrite app_nil_r in Heq. by subst.
Qed.

Lemma reads_held reads p (st : St) : holding p st -> f = p ++ concat reads -> (f ∉ reads) -> held_back f (feed c reads st).
Proof using Hb Hbare.
  revert p st. induction reads as [|x reads IH]; intros p st Hh Heq Hin; simpl.
  { simpl in Heq. rewrite app_nil_r in Heq. subst. exists (Ok tt), st. auto. }
  apply not_elem_of_cons in Hin as [Hx Hin]. simpl in Heq.
  destruct (read_held x p (concat reads) st Hh Heq ltac:(congruence)) as (r & st1 & -> & [->|[-> Hh1]]); [exists (Err exhausted), st1; auto|].
  apply (IH (p ++ x)); [done|by rewrite <- app_assoc|done].
Qed.

End withheld.

(** Delivered frames stay delivered. *)
Definition extends_out {B H} `{AB : AssemblyBudget B H} (again : list Z -> @Stream B H (list (list Z)) -> option (result unit FrameFault * @Stream B H (list (list Z)))) : Prop :=
  forall input st r st', again input st = Some (r, st') -> exists later, out st' = out st ++ later.

Lemma accept_loop_extends {B H} `{AB : AssemblyBudget B H} fuel c : extends_out (accept_loop (B := B) (H := H) collect fuel c).
Proof.
  assert (forall bytes fl (s : @Stream B H (list (list Z))), out (hold bytes fl s).2 = out s) as Hhold.
  { intros bytes fl s. by destruct (hold_cases bytes fl s) as [->|(? & ? & ? & ->)]. }
  assert (forall s : list (list Z), exists later, s = s ++ later) as Hsame by (intros s; exists []; by rewrite app_nil_r).
  induction fuel as [|fuel IH]; intros input st r st'; cbn [accept_loop]; [done|].
  set (st1 := set_discarding _ st). change (out st) with (out st1). generalize (zdrop (Z.min (discarding (framing st)) (zlen input)) input).
  generalize st1. clear st st1 input. intros st input. destruct (negb _); [by intros [= _ <-]|].
  destruct input as [|x input]; [by intros [= _ <-]|]. destruct (pending (framing st)) as [|y p].
  - unfold fresh_turn. destruct (read_envelope _ _ _) as [[env|]|]; [| |by intros [= _ <-]].
    + destruct (_ <? _); [destruct (skipped env); intros [= Hr]; [by subst|]|].
      * rewrite <- (Hhold (x :: input) (Some (total_length env)) st), Hr. done.
      * destruct (skipped env); simpl; [apply IH|]. intros (later & ->)%IH. simpl. rewrite <- app_assoc. by eexists.
    + intros [= Hr]. rewrite <- (Hhold (x :: input) None st), Hr. done.
  - unfold buffered_turn. destruct (read_envelope _ _ _) as [[env|]|]; [| |by intros [= _ <-]].
    + destruct (skipped env); [intros Ha%IH; exact Ha|]. set (taken := ztake _ _).
      rewrite <- (Hhold taken (Some (total_length env)) st). destruct (hold taken _ st) as [[[]|f] st1]; simpl; [|by intros [= _ <-]].
      destruct (_ <? _); [by intros [= _ <-]|]. intros (later & ->)%IH. simpl. rewrite <- app_assoc. by eexists.
    + rewrite <- (Hhold (ztake 1 (x :: input)) None st). destruct (hold _ None st) as [[[]|f] st1]; simpl; [|by intros [= _ <-]].
      apply IH.
Qed.

(** A held frame comes out with the next byte. *)
Lemma next_byte_releases {B H} `{AB : AssemblyBudget B H} k c f x env (st : @Stream B H (list (list Z))) :
  byte_list f -> byte_list x -> x <> [] -> read_envelope k c f = Ok (Some env) -> total_length env = zlen f -> skipped env = false ->
  holding k f st -> exists r st', accept collect c x st = Some (r, st') /\ (r = Err exhausted \/ exists later, out st' = f :: later).
Proof.
  intros Hbf Hbx Hx He Ht Hs Hh. destruct (accept_loop_total c (2 * length x + 2) x st Hbx) as [[r st'] Ha];
    [unfold turns; destruct (pending _); lia|]. exists r, st'. split; [exact Ha|]. revert Ha.
  replace (2 * length x + 2)%nat with (S (2 * length x + 1)) by lia. rewrite (turn_held k c _ f) by done.
  destruct (read_env _ _ _ _ Hbf He) as (Hhd & _). destruct f as [|a f]; [change (zlen []) with 0 in Hhd; lia|].
  pose proof Hh as (Hk & Hd & Hp & Ho). unfold buffered_turn. rewrite Hk, Hp, He, Hs, Ht. pose proof (zlen_nonneg x).
  rewrite Z.sub_diag, Z.min_l by lia. change (ztake 0 x) with (@nil Z).
  destruct (hold_held k _ [] (Some (zlen (a :: f))) st Hh) as [->|(st1 & -> & Hk1 & Hd1 & Hp1 & Ho1)]; [intros [= <- _]; by left|].
  rewrite Hp1, app_nil_r, Z.ltb_irrefl. intros (later & ->)%accept_loop_extends. simpl. rewrite Ho1. right. by exists later.
Qed.

(** A frame read at once is delivered at once. *)
Lemma whole_read_delivers {B H} `{AB : AssemblyBudget B H} k c f env b :
  byte_list f -> read_envelope k c f = Ok (Some env) -> total_length env = zlen f -> skipped env = false ->
  exists st, accept collect c f (mkStream (framing_new k) b [] : @Stream B H (list (list Z))) = Some (Ok tt, st) /\
    out st = [f] /\ pending (framing st) = [].
Proof.
  intros Hbf He Ht Hs. destruct (read_env _ _ _ _ Hbf He) as (Hhd & _).
  assert (f <> []) as Hne by (intros ->; change (zlen []) with 0 in Hhd; lia).
  assert (holding k [] (mkStream (framing_new k) b [] : @Stream B H (list (list Z)))) as Hh by done.
  unfold accept. replace (2 * length f + 2)%nat with (S (S (2 * length f))) by lia. rewrite (turn_held k c _ []) by done.
  unfold fresh_turn. simpl. rewrite He, Hs, Ht, Z.ltb_irrefl. 
  rewrite ztake_all by lia. unfold emit_frame, collect, zdrop. simpl. rewrite drop_ge by (unfold zlen; lia). by eexists.
Qed.

(** C40: a complete frame can be withheld.  Take any frame with an empty payload that the lane admits and that is
    not of a skipped type, on any stream kind, under any limit and budget.  Read at once it is delivered at
    once.  But cut into any reads, none of them the whole frame, it is not: once its last byte has been read
    the stream holds the complete frame and has delivered nothing, unless the budget refused it.  Whatever
    comes next, the next read that brings a byte brings the frame out, again unless the budget refuses. *)
Theorem bare_frame_is_withheld {B H} `{AB : AssemblyBudget B H} k c f env (b : B) :
  byte_list f -> read_envelope k c f = Ok (Some env) -> total_length env = zlen f -> payload_length env = 0 -> skipped env = false ->
  let start : @Stream B H (list (list Z)) := mkStream (framing_new k) b [] in
  (exists st, feed c [f] start = Some (Ok tt, st) /\ out st = [f] /\ pending (framing st) = []) /\
  (forall reads, concat reads = f -> (f ∉ reads) -> exists r st, feed c reads start = Some (r, st) /\
     (r = Err exhausted \/
      r = Ok tt /\ out st = [] /\ pending (framing st) = f /\
      forall x, byte_list x -> x <> [] -> exists r' st', feed c (reads ++ [x]) start = Some (r', st') /\
        (r' = Err exhausted \/ exists later, out st' = f :: later))).
Proof.
  intros Hb He Ht Hp Hs start. assert (bare k c f) as Hbare by (by exists env). split.
  - destruct (whole_read_delivers k c f env b Hb He Ht Hs) as (st & Ha & Ho & Hpe). exists st. subst start. cbn [feed]. by rewrite Ha.
  - intros reads Hc Hin. destruct (reads_held k c f Hb Hbare reads [] start) as (r & st & Hf & Hr); [done|done|done|].
    exists r, st. split; [done|]. destruct Hr as [->|[-> Hh]]; [by left|right]. pose proof Hh as (_ & _ & Hpe & Ho).
    split_and!; try done. intros x Hbx Hx. destruct (next_byte_releases k c f x env st Hb Hbx Hx He Ht Hs Hh) as (r' & st' & Ha & Hr').
    exists r', st'. split; [|done]. rewrite feed_app, Hf. cbn [feed]. rewrite Ha. by destruct r' as [[]|].
Qed.

Lemma bare_frame_is_withheld_witness : let ack := frame_bytes frame_type.SETTINGS_ACK [] in
  exists st, feed 1024 [[5]; [0]] (mkStream (framing_new KControl) demo_budget []) = Some (Ok tt, st) /\ out st = [] /\
    pending (framing st) = ack /\ read_envelope KControl 1024 ack = Ok (Some (mkEnvelope frame_type.SETTINGS_ACK 0 2 2 false)).
Proof.
  destruct (bare_frame_is_withheld KControl 1024 (frame_bytes frame_type.SETTINGS_ACK []) (mkEnvelope frame_type.SETTINGS_ACK 0 2 2 false) demo_budget)
    as [_ Hr]; [by repeat constructor|by vm_compute|done|done|done|].
  destruct (Hr [[5]; [0]]) as (r & st & Hf & [->|(-> & Ho & Hp & _)]); [done|by apply (bool_decide_unpack (_ ∉ _))|by vm_compute in Hf|].
  exists st. split; [exact Hf|]. split; [exact Ho|]. split; [exact Hp|by vm_compute].
Defined.
