(* ===== verification/Readers.v ===== *)
(** * Decoders followed by a comparison with the encoder

    The manifest and receipt decoders read, build a value and then compare its
    encoding with the input.  Two relations suffice for them: [reads], that a
    decoder reads back a value's bytes, and [yields], that whatever it returns is
    well typed; this file states both for the CBOR reader's methods behind any
    error mapping. *)

From S2P Require Import Prelude Cbor Exact.

Definition is_u16 (v : Z) : Prop := 0 <= v <= u16_max.

(** [[u8; N]]. *)
Definition is_bytes (n : Z) (bs : list Z) : Prop := byte_list bs /\ zlen bs = n.

Lemma is_bytes_small n bs : is_bytes n bs -> n <= i64_max -> zlen bs <= i64_max.
Proof. intros [_ ->]. done. Qed.

Definition option_is {A} (P : A -> Prop) (o : option A) : Prop := match o with Some v => P v | None => True end.

(** The bytes of a field that is present or absent. *)
Definition some_bytes {A} (f : A -> list Z) (o : option A) : list Z := match o with Some v => f v | None => [] end.

Lemma byte_list_check l : forallb (in_range 0 255) l = true -> byte_list l.
Proof.
  intros H. apply Forall_forall. intros b Hb%list_elem_of_In. rewrite forallb_forall in H. specialize (H b Hb).
  unfold in_range in H. rewrite andb_true_iff, !Z.leb_le in H. exact H.
Qed.

Lemma is_bytes_repeat n b : in_range 0 255 b = true -> is_bytes (Z.of_nat n) (repeat b n).
Proof.
  intros Hb. split; [|unfold zlen; by rewrite repeat_length]. apply byte_list_check, forallb_forall.
  by intros x ->%repeat_spec.
Qed.

Lemma head_len_range v : 1 <= head_len v <= 9.
Proof. unfold head_len. zcases; lia. Qed.

(** ** Reading a value's bytes *)

Section reads.
Context {E : Type}.

Lemma reads_mmap_err {F A} (f : F -> E) (m : M Reader F A) enc v : reads m enc v -> reads (mmap_err f m) enc v.
Proof. intros H pre post Hl. unfold mmap_err. by rewrite (H pre post Hl). Qed.

(** A step that reads nothing, a condition on what was read. *)
Lemma reads_silent {A B} (m : M Reader E A) (k : A -> M Reader E B) e a b :
  reads m [] a -> reads (k a) e b -> reads (bind m k) e b.
Proof. apply (reads_bind m k [] e). Qed.

Lemma reads_try_from {B} max v (k : Z -> M Reader E B) e enc b : v <= max ->
  reads (k v) enc b -> reads (let! w := lift (ok_or (try_from max v) e) in k w) enc b.
Proof. intros Hv Hk. eapply reads_silent; [|exact Hk]. unfold try_from. rewrite (proj2 (Z.leb_le _ _)) by done. apply reads_ret. Qed.

Lemma reads_each {A} (m : M Reader E A) enc l : Forall (fun v => reads m (enc v) v) l ->
  reads (read_each (length l) m) (concat (map enc l)) l.
Proof.
  induction 1 as [|v l Hv _ IH]; [apply reads_ret|]. simpl. eapply reads_bind; [exact Hv|].
  eapply reads_bind_nil; [exact IH|]. apply reads_ret.
Qed.

Context (f : Cbor.Error -> E).

Lemma exact_mapped_uint : exact_codec (mmap_err f reader_uint) (uint []) is_u64.
Proof. apply exact_codec_at, exact_mmap_err, exact_codec_at, exact_typed_head. unfold UNSIGNED. lia. Qed.

Lemma reads_uint v : is_u64 v -> reads (mmap_err f reader_uint) (uint [] v) v.
Proof. intros Hv. by apply exact_mapped_uint. Qed.

Lemma reads_head_of major v : 0 <= major <= 7 -> is_u64 v -> reads (mmap_err f (typed_head major)) (head [] major v) v.
Proof. intros Hm Hv. apply reads_mmap_err. by apply exact_typed_head. Qed.

Lemma reads_int v : i64_min <= v <= i64_max -> reads (mmap_err f reader_int) (int [] v) v.
Proof. intros H. apply reads_mmap_err. by apply int_exact. Qed.

Lemma reads_text limit bs : 0 <= limit <= u64_max -> byte_list bs -> utf8_valid bs = true -> zlen bs <= limit ->
  reads (mmap_err f (reader_text limit)) (text [] bs) bs.
Proof. intros Hl Hb Hu Hz. apply reads_mmap_err. by apply (reader_text_exact limit Hl). Qed.

Lemma reads_bytes limit bs : 0 <= limit <= u64_max -> byte_list bs -> zlen bs <= limit ->
  reads (mmap_err f (reader_bytes limit)) (bytes [] bs) bs.
Proof. intros Hl Hb Hz. apply reads_mmap_err. by apply (reader_bytes_exact limit Hl). Qed.

Lemma reads_id n bs : is_u64 n -> n <= i64_max -> is_bytes n bs -> reads (mmap_err f (fixed_bytes n)) (bytes [] bs) bs.
Proof. intros Hn Hm Hb. apply reads_mmap_err. by apply (exact_fixed_bytes n Hn Hm). Qed.

Lemma reads_array_len maximum v : is_u64 v -> v <= maximum -> reads (mmap_err f (array_len maximum)) (array [] v) v.
Proof. intros Hv Hm. apply reads_mmap_err, reads_length; [unfold ARRAY; lia|done|done]. Qed.

Lemma reads_map_len maximum v : is_u64 v -> v <= maximum -> reads (mmap_err f (map_len maximum)) (map_head [] v) v.
Proof. intros Hv Hm. apply reads_mmap_err, reads_length; [unfold MAP; lia|done|done]. Qed.
End reads.

(** ** Whole inputs *)

Section whole.
Context {E : Type}.

(** [reads_all m enc v]: on an input that ends with [enc], at [enc], [m] returns [v]. *)
Definition reads_all {A} (m : M Reader E A) (enc : list Z) (v : A) : Prop :=
  forall pre, zlen (pre ++ enc) <= i64_max -> fst (m (mkReader (pre ++ enc) (zlen pre))) = Ok v.

Lemma reads_all_bind {A B} (m : M Reader E A) (k : A -> M Reader E B) e1 e2 a b :
  reads m e1 a -> reads_all (k a) e2 b -> reads_all (bind m k) (e1 ++ e2) b.
Proof.
  intros Hm Hk pre Hl. rewrite (bind_ok _ _ _ _ _ (Hm pre e2 Hl)). specialize (Hk (pre ++ e1)).
  rewrite <- app_assoc, (zlen_app pre e1) in Hk. by apply Hk.
Qed.

Lemma reads_all_nil {A B} (m : M Reader E A) (k : A -> M Reader E B) e1 a b :
  reads m e1 a -> reads_all (k a) [] b -> reads_all (bind m k) e1 b.
Proof. intros Hm Hk. rewrite <- (app_nil_r e1). by eapply reads_all_bind. Qed.

Lemma reads_all_silent {A B} (m : M Reader E A) (k : A -> M Reader E B) e a b :
  reads m [] a -> reads_all (k a) e b -> reads_all (bind m k) e b.
Proof. apply (reads_all_bind m k [] e). Qed.

Lemma reads_all_finish {B} f (k : M Reader E B) b : reads_all k [] b -> reads_all (finished f ;! k) [] b.
Proof.
  intros Hk pre Hl. specialize (Hk pre Hl). rewrite app_nil_r in *. unfold bind, finished, finish. simpl.
  by rewrite Z.eqb_refl.
Qed.

Lemma reads_all_run {A} (m : M Reader E A) enc v : reads_all m enc v -> zlen enc <= i64_max -> fst (m (reader_new enc)) = Ok v.
Proof. intros H Hl. apply (H [] Hl). Qed.

(** ** What a decoder returns is well typed *)

Definition yields {A} (m : M Reader E A) (P : A -> Prop) : Prop :=
  forall r a r', reader_wf r -> m r = (Ok a, r') -> P a /\ reader_wf r'.

Lemma yields_bind {A B} (m : M Reader E A) (k : A -> M Reader E B) P Q :
  yields m P -> (forall a, P a -> yields (k a) Q) -> yields (bind m k) Q.
Proof. intros Hm Hk r b r' Hr (a & r1 & H1 & H2)%bind_ok_inv. destruct (Hm _ _ _ Hr H1) as [Ha Hr1]. by eapply Hk. Qed.

Lemma yields_ret {A} (a : A) (P : A -> Prop) : P a -> yields (ret a) P.
Proof. intros Ha r b r' Hr [= <- <-]. done. Qed.

Lemma yields_fail {A} e (P : A -> Prop) : yields (fail e) P.
Proof. by intros r b r' _ [=]. Qed.

Lemma yields_lift {A} (x : result A E) : yields (lift x) (fun a => x = Ok a).
Proof. intros r b r' Hr [= -> <-]. done. Qed.

Lemma yields_if {A} (b : bool) (m1 m2 : M Reader E A) P : yields m1 P -> yields m2 P -> yields (if b then m1 else m2) P.
Proof. by destruct b. Qed.

Lemma yields_finished f : yields (finished f) (fun _ => True).
Proof. intros r a r' Hr [= _ <-]. done. Qed.

Lemma yields_weaken {A} (m : M Reader E A) (P Q : A -> Prop) : yields m P -> (forall a, P a -> Q a) -> yields m Q.
Proof. intros Hm H r a r' Hr Ha. destruct (Hm _ _ _ Hr Ha). auto. Qed.

Lemma yields_exact {A} (m : M Reader E A) enc P : exact_codec m enc P -> yields m P.
Proof.
  intros [_ H] r a r' Hr Ha. destruct (H _ _ _ Hr Ha) as (Hp & -> & Hle & _). split; [done|].
  destruct Hr as (? & ? & ?). split_and!; simpl in *; try done. pose proof (zlen_nonneg (enc a)). lia.
Qed.

Lemma yields_mapped {F A} (f : F -> E) (m : M Reader F A) enc P : exact_codec m enc P -> yields (mmap_err f m) P.
Proof. intros H. apply (yields_exact _ enc). apply exact_codec_at, exact_mmap_err, exact_codec_at, H. Qed.

Lemma yields_try_from max v e : 0 <= v -> yields (lift (ok_or (try_from max v) e)) (fun w => 0 <= w <= max).
Proof. intros Hv. eapply yields_weaken; [apply yields_lift|]. intros a [-> ?]%try_from_ok. done. Qed.

Lemma yields_each {A} (m : M Reader E A) P n : yields m P -> yields (read_each n m) (Forall P).
Proof.
  intros Hm. induction n as [|n IH]; [by apply yields_ret|]. simpl. eapply yields_bind; [exact Hm|]. intros v Hv.
  eapply yields_bind; [exact IH|]. intros l Hl. apply yields_ret. by constructor.
Qed.

Lemma yields_run {A} (m : M Reader E A) Q input v : yields m Q -> byte_list input -> zlen input <= i64_max ->
  fst (m (reader_new input)) = Ok v -> Q v.
Proof.
  intros Hm Hb Hl Hv. destruct (m (reader_new input)) as [res r'] eqn:Hr. simpl in Hv. subst res.
  apply (Hm (reader_new input) v r'); [|done]. split_and!; simpl; try done. apply zlen_nonneg.
Qed.

Context (f : Cbor.Error -> E).

Lemma yields_uint : yields (mmap_err f reader_uint) is_u64.
Proof. apply (yields_exact _ _ _ (exact_mapped_uint f)). Qed.
Lemma yields_int : yields (mmap_err f reader_int) (fun v => i64_min <= v <= i64_max).
Proof. eapply yields_mapped, int_exact. Qed.
Lemma yields_text limit : 0 <= limit <= u64_max ->
  yields (mmap_err f (reader_text limit)) (fun bs => byte_list bs /\ zlen bs <= limit /\ utf8_valid bs = true).
Proof. intros H. eapply yields_mapped, (reader_text_exact limit H). Qed.
Lemma yields_bytes limit : 0 <= limit <= u64_max ->
  yields (mmap_err f (reader_bytes limit)) (fun bs => byte_list bs /\ zlen bs <= limit).
Proof. intros H. eapply yields_mapped, (reader_bytes_exact limit H). Qed.
Lemma yields_fixed n : is_u64 n -> n <= i64_max -> yields (mmap_err f (fixed_bytes n)) (is_bytes n).
Proof. intros H1 H2. eapply yields_mapped, (exact_fixed_bytes n H1 H2). Qed.
Lemma yields_head_of major : 0 <= major <= 7 -> yields (mmap_err f (typed_head major)) is_u64.
Proof. intros H. eapply yields_mapped, (exact_typed_head major H). Qed.
Lemma yields_array_len maximum : yields (mmap_err f (array_len maximum)) (fun v => is_u64 v /\ v <= maximum).
Proof.
  eapply (yields_mapped _ _ (array [])). split; [|apply reader_length_parses].
  intros v [Hv Hle]. apply reads_length; [unfold ARRAY; lia|done|done].
Qed.
Lemma yields_map_len maximum : yields (mmap_err f (map_len maximum)) (fun v => is_u64 v /\ v <= maximum).
Proof.
  eapply (yields_mapped _ _ (map_head [])). split; [|apply reader_length_parses].
  intros v [Hv Hle]. apply reads_length; [unfold MAP; lia|done|done].
Qed.

Lemma yields_optional {A} (m : M Reader E A) P : yields m P -> yields (optional f m) (option_is P).
Proof.
  intros Hm r a r' Hr. unfold optional. destruct (peek_null r).
  - intros (u & r1 & H & [= <- <-])%bind_ok_inv. split; [done|]. unfold mmap_err in H.
    destruct (reader_null r) as [[[]|] r2] eqn:Hn; [|done]. injection H as _ <-.
    apply bind_ok_inv in Hn as (b & r3 & Hb & Hn). destruct (b =? NULL); [|done]. injection Hn as <-.
    apply read_byte_inv in Hb as (_ & -> & Hle & _); [|done]. destruct Hr as (? & ? & ?). split_and!; simpl; try done; lia.
  - intros (v & r1 & H & [= <- <-])%bind_ok_inv. exact (Hm _ _ _ Hr H).
Qed.

Lemma reads_optional_uint o : option_is is_u64 o ->
  reads (optional f (mmap_err f reader_uint)) (optional_bytes (uint []) o) o.
Proof.
  intros Ho. apply (exact_optional f _ (uint []) is_u64); [apply exact_mapped_uint| |by destruct o].
  intros v Hv. unfold uint. rewrite head_split. eexists _, _. split; [done|].
  pose proof (head_additional_range v ltac:(mlia)). change (UNSIGNED * 32 mod 256) with 0. unfold NULL. lia.
Qed.
End whole.
