(* ===== verification/Text.v ===== *)
(** * Strings and byte order

    What the crates use of [str] and of the order of byte slices: the characters
    of a string, its encoding back to bytes, and the lexicographic order
    [Vec<u8>] derives.  A string is its UTF-8 bytes; a character is its scalar
    value. *)

From S2P Require Import Prelude Cbor.

(** ** [str::chars] and [char::encode_utf8] *)

Fixpoint chars (l : list Z) : list Z :=
  match l with
  | [] => []
  | b :: l1 =>
      if b <? 128 then b :: chars l1 else
      match l1 with
      | [] => []
      | c :: l2 =>
          if b <? 224 then (b - 192) * 64 + (c - 128) :: chars l2 else
          match l2 with
          | [] => []
          | d :: l3 =>
              if b <? 240 then (b - 224) * 4096 + (c - 128) * 64 + (d - 128) :: chars l3 else
              match l3 with
              | [] => []
              | e :: l4 => (b - 240) * 262144 + (c - 128) * 4096 + (d - 128) * 64 + (e - 128) :: chars l4
              end
          end
      end
  end.

Definition encode_utf8 (c : Z) : list Z :=
  if c <? 128 then [c] else
  if c <? 2048 then [192 + c / 64; 128 + c mod 64] else
  if c <? 65536 then [224 + c / 4096; 128 + c / 64 mod 64; 128 + c mod 64] else
  [240 + c / 262144; 128 + c / 4096 mod 64; 128 + c / 64 mod 64; 128 + c mod 64].

(** [chars.collect::<String>()]. *)
Definition collect (cs : list Z) : list Z := concat (map encode_utf8 cs).

(** [str::trim_end_matches] on characters. *)
Fixpoint trim_end_matches (p : Z -> bool) (cs : list Z) : list Z :=
  match cs with
  | [] => []
  | c :: rest => match trim_end_matches p rest with
                 | [] => if p c then [] else [c]
                 | kept => c :: kept
                 end
  end.

(** [cs.split(sep).next()]. *)
Fixpoint until (sep : Z) (cs : list Z) : list Z :=
  match cs with
  | [] => []
  | c :: rest => if c =? sep then [] else c :: until sep rest
  end.

(** [str::strip_prefix]. *)
Fixpoint strip_prefix (p cs : list Z) : option (list Z) :=
  match p, cs with
  | [], _ => Some cs
  | x :: p, c :: cs => if x =? c then strip_prefix p cs else None
  | _, [] => None
  end.

Definition starts_with (l p : list Z) : bool := match strip_prefix p l with Some _ => true | None => false end.

(** [[a, b].contains(&c)]. *)
Definition mem (c : Z) (l : list Z) : bool := existsb (Z.eqb c) l.

(** ** The order of byte slices *)

Fixpoint lex_compare (a b : list Z) : comparison :=
  match a, b with
  | [], [] => Eq
  | [], _ => Lt
  | _, [] => Gt
  | x :: a, y :: b => match x ?= y with Eq => lex_compare a b | c => c end
  end.

Definition lex_ltb (a b : list Z) : bool := match lex_compare a b with Lt => true | _ => false end.
Definition lex_leb (a b : list Z) : bool := match lex_compare a b with Gt => false | _ => true end.

Lemma lex_compare_eq a b : lex_compare a b = Eq <-> a = b.
Proof.
  revert b. induction a as [|x a IH]; intros [|y b]; simpl; try done.
  destruct (Z.compare_spec x y) as [->|?|?]; rewrite ?IH; [naive_solver|split; intros; [done|]..]; simplify_eq; lia.
Qed.

Lemma lex_compare_antisym a b : lex_compare b a = CompOpp (lex_compare a b).
Proof.
  revert b. induction a as [|x a IH]; intros [|y b]; simpl; try done.
  rewrite (Z.compare_antisym x y). destruct (x ?= y); simpl; [apply IH|done..].
Qed.

Lemma lex_ltb_irrefl a : lex_ltb a a = false.
Proof. unfold lex_ltb. by rewrite (proj2 (lex_compare_eq a a) eq_refl). Qed.

Lemma lex_leb_ltb a b : lex_leb a b = negb (lex_ltb b a).
Proof. unfold lex_leb, lex_ltb. rewrite lex_compare_antisym. by destruct (lex_compare b a). Qed.

Lemma lex_ltb_trans a b c : lex_ltb a b = true -> lex_ltb b c = true -> lex_ltb a c = true.
Proof.
  unfold lex_ltb. revert b c. induction a as [|x a IH]; intros [|y b] [|z c]; simpl; try done.
  destruct (Z.compare_spec x y) as [->|?|?], (Z.compare_spec y z) as [->|?|?]; try done; intros ? ?;
    try match goal with |- context [?x ?= ?z] => destruct (Z.compare_spec x z) as [|?|?] end; try done; try lia;
    eapply IH; eassumption.
Qed.

#[global] Instance lex_ltb_transitive : Transitive (fun a b => lex_ltb a b = true).
Proof. intros a b c. apply lex_ltb_trans. Qed.

Lemma lex_ltb_asym a b : lex_ltb a b = true -> lex_ltb b a = false.
Proof. intros H. destruct (lex_ltb b a) eqn:E; [|done]. by rewrite <- (lex_ltb_irrefl a), (lex_ltb_trans a b a H E). Qed.

Lemma lex_ltb_neq a b : lex_ltb a b = true -> a <> b.
Proof. intros H ->. by rewrite lex_ltb_irrefl in H. Qed.

Lemma lex_ltb_prefix a rest : lex_ltb (a ++ rest) a = false.
Proof. unfold lex_ltb. induction a as [|x a IH]; simpl; [by destruct rest|]. by rewrite Z.compare_refl. Qed.

Lemma starts_with_spec l p : starts_with l p = true <-> exists rest, l = p ++ rest.
Proof.
  unfold starts_with. revert l. induction p as [|x p IH]; intros l; [split; [by exists l|by destruct l]|].
  destruct l as [|y l]; simpl; [split; [done|by intros (? & [=])]|].
  destruct (Z.eqb_spec x y) as [->|Hn]; [rewrite IH|split; [done|by intros (? & [= -> ?])]].
  split; [intros (r & ->); by exists r|intros (r & [= ->]); by exists r].
Qed.

(** Everything between a slice and an extension of it by a zero byte extends it
    by a zero byte too, zero being the least byte. *)
Lemma lex_between a k rest : byte_list k -> lex_ltb a k = true -> lex_leb k (a ++ 0 :: rest) = true ->
  exists rest', k = a ++ 0 :: rest'.
Proof.
  unfold lex_ltb, lex_leb. revert k. induction a as [|x a IH]; intros [|y k] Hb; simpl; try done.
  - intros _. apply Forall_cons in Hb as [Hy _]. unfold is_u8 in Hy.
    destruct (Z.compare_spec y 0) as [->|?|?]; [by exists k|lia|done].
  - apply Forall_cons in Hb as [_ Hb]. destruct (Z.compare_spec x y) as [->|?|?]; [|intros _|done].
    + rewrite Z.compare_refl. intros H1 H2. destruct (IH k Hb H1 H2) as (r & ->). by exists r.
    + destruct (Z.compare_spec y x); [lia..|done].
Qed.

(** ** Characters and bytes *)

Lemma collect_app a b : collect (a ++ b) = collect a ++ collect b.
Proof. unfold collect. by rewrite map_app, concat_app. Qed.

Lemma collect_cons c cs : collect (c :: cs) = encode_utf8 c ++ collect cs.
Proof. done. Qed.

Ltac utf8_arith :=
  repeat (match goal with
    | H : context [in_range _ _ _] |- _ => unfold in_range in H
    | H : context [cont _] |- _ => unfold cont, in_range in H
    | H : _ && _ = true |- _ => apply andb_true_iff in H as [? ?]
    | H : (_ <=? _) = true |- _ => apply Z.leb_le in H
    | H : (_ <=? _) = false |- _ => apply Z.leb_gt in H
    | H : (_ =? _) = true |- _ => apply Z.eqb_eq in H
    | H : (_ =? _) = false |- _ => apply Z.eqb_neq in H
    end).

Ltac decide_ltb :=
  repeat match goal with |- context [?a <? ?b] =>
    first [rewrite (proj2 (Z.ltb_lt a b)) by lia | rewrite (proj2 (Z.ltb_ge a b)) by lia] end.

Ltac utf8_cases H :=
  revert H; repeat match goal with |- context [if ?c then _ else _] => destruct c eqn:? end;
  intros; utf8_arith; try done; split_and!; first [done|lia|intros; lia].

Lemma encode_two b c : 194 <= b <= 223 -> 128 <= c <= 191 -> encode_utf8 ((b - 192) * 64 + (c - 128)) = [b; c].
Proof.
  intros Hb Hc. unfold encode_utf8. zcases; [lia| |lia..].
  replace (((b - 192) * 64 + (c - 128)) / 64) with (b - 192) by (apply Z.div_unique with (c - 128); lia).
  replace (((b - 192) * 64 + (c - 128)) mod 64) with (c - 128) by (apply Z.mod_unique with (b - 192); lia).
  repeat f_equal; lia.
Qed.

Lemma encode_three b c d : 224 <= b <= 239 -> 128 <= c <= 191 -> 128 <= d <= 191 -> (b = 224 -> 160 <= c) ->
  encode_utf8 ((b - 224) * 4096 + (c - 128) * 64 + (d - 128)) = [b; c; d].
Proof.
  intros Hb Hc Hd Hl. unfold encode_utf8. set (v := (b - 224) * 4096 + (c - 128) * 64 + (d - 128)).
  assert (2048 <= v < 65536) by (destruct (decide (b = 224)); lia). zcases; try lia.
  replace (v / 4096) with (b - 224) by (apply Z.div_unique with ((c - 128) * 64 + (d - 128)); lia).
  replace (v / 64) with ((b - 224) * 64 + (c - 128)) by (apply Z.div_unique with (d - 128); lia).
  replace (((b - 224) * 64 + (c - 128)) mod 64) with (c - 128) by (apply Z.mod_unique with (b - 224); lia).
  replace (v mod 64) with (d - 128) by (apply Z.mod_unique with ((b - 224) * 64 + (c - 128)); lia).
  repeat f_equal; lia.
Qed.

Lemma encode_four b c d e : 240 <= b <= 244 -> 128 <= c <= 191 -> 128 <= d <= 191 -> 128 <= e <= 191 ->
  (b = 240 -> 144 <= c) ->
  encode_utf8 ((b - 240) * 262144 + (c - 128) * 4096 + (d - 128) * 64 + (e - 128)) = [b; c; d; e].
Proof.
  intros Hb Hc Hd He Hl. unfold encode_utf8.
  set (v := (b - 240) * 262144 + (c - 128) * 4096 + (d - 128) * 64 + (e - 128)).
  assert (65536 <= v) by (destruct (decide (b = 240)); lia). zcases; try lia.
  replace (v / 262144) with (b - 240) by (apply Z.div_unique with ((c - 128) * 4096 + (d - 128) * 64 + (e - 128)); lia).
  replace (v / 4096) with ((b - 240) * 64 + (c - 128)) by (apply Z.div_unique with ((d - 128) * 64 + (e - 128)); lia).
  replace (v / 64) with (((b - 240) * 64 + (c - 128)) * 64 + (d - 128)) by (apply Z.div_unique with (e - 128); lia).
  replace (((b - 240) * 64 + (c - 128)) mod 64) with (c - 128) by (apply Z.mod_unique with (b - 240); lia).
  replace ((((b - 240) * 64 + (c - 128)) * 64 + (d - 128)) mod 64) with (d - 128)
    by (apply Z.mod_unique with ((b - 240) * 64 + (c - 128)); lia).
  replace (v mod 64) with (e - 128) by (apply Z.mod_unique with (((b - 240) * 64 + (c - 128)) * 64 + (d - 128)); lia).
  repeat f_equal; lia.
Qed.

(** A well-formed string is a sequence of encoded scalar values, which is what
    [chars] returns. *)
Inductive text_of : list Z -> list Z -> Prop :=
| text_nil : text_of [] []
| text_cons c l cs : 0 <= c <= 1114111 -> text_of l cs -> text_of (encode_utf8 c ++ l) (c :: cs).

Lemma chars_text l : utf8_valid l = true -> text_of l (chars l).
Proof.
  remember (length l) as n eqn:Hn. revert l Hn.
  induction n as [n IH] using lt_wf_ind. intros l -> Hv.
  assert (forall k, (length k < length l)%nat -> utf8_valid k = true -> text_of k (chars k)) as IH'.
  { intros k Hk Hkv. by apply (IH (length k)). }
  clear IH. destruct l as [|b l1]; [constructor|]. cbn [utf8_valid] in Hv. cbn [chars].
  destruct (in_range 0 127 b) eqn:H0.
  { utf8_arith. decide_ltb. change (b :: l1) with ([b] ++ l1).
    replace [b] with (encode_utf8 b) by (unfold encode_utf8; by decide_ltb).
    constructor; [lia|apply IH'; simpl; done || lia]. }
  destruct l1 as [|c l2]; [done|]. destruct (in_range 194 223 b) eqn:H1.
  { utf8_arith. decide_ltb. change (b :: c :: l2) with ([b; c] ++ l2). rewrite <- encode_two by lia.
    constructor; [lia|apply IH'; simpl; done || lia]. }
  destruct l2 as [|d l3]; [done|].
  destruct ((b =? 224) || (in_range 225 236 b || in_range 238 239 b) || (b =? 237)) eqn:H3.
  { assert (224 <= b <= 239 /\ 128 <= c <= 191 /\ 128 <= d <= 191 /\ (b = 224 -> 160 <= c) /\ utf8_valid l3 = true)
      as (? & ? & ? & ? & ?) by utf8_cases Hv.
    decide_ltb. change (b :: c :: d :: l3) with ([b; c; d] ++ l3). rewrite <- encode_three by done || lia.
    constructor; [lia|apply IH'; simpl; done || lia]. }
  apply orb_false_iff in H3 as [[H3 H4]%orb_false_iff H5]. rewrite H3, H4, H5 in Hv.
  destruct l3 as [|e l4]; [done|].
  assert (240 <= b <= 244 /\ 128 <= c <= 191 /\ 128 <= d <= 191 /\ 128 <= e <= 191 /\ (b = 240 -> 144 <= c) /\
    (b = 244 -> c <= 143) /\ utf8_valid l4 = true) as (? & ? & ? & ? & ? & ? & ?) by utf8_cases Hv.
  decide_ltb. change (b :: c :: d :: e :: l4) with ([b; c; d; e] ++ l4). rewrite <- encode_four by done || lia.
  constructor; [destruct (decide (b = 244)); lia|apply IH'; simpl; done || lia].
Qed.

(** Decoding a string to characters and encoding them again is the identity. *)
Lemma collect_chars l : utf8_valid l = true -> collect (chars l) = l.
Proof. intros H%chars_text. induction H as [|c l cs Hc _ IH]; [done|]. by rewrite collect_cons, IH. Qed.

Definition is_char (c : Z) : Prop := 0 <= c <= 1114111.

Lemma chars_scalar l : utf8_valid l = true -> Forall is_char (chars l).
Proof. intros H%chars_text. induction H; by constructor. Qed.

Lemma encode_utf8_bytes c : 0 <= c <= 1114111 -> byte_list (encode_utf8 c).
Proof.
  intros Hc. unfold encode_utf8, byte_list, is_u8, u8_max.
  pose proof (Z.mod_pos_bound c 64). pose proof (Z.mod_pos_bound (c / 64) 64). pose proof (Z.mod_pos_bound (c / 4096) 64).
  zcases; repeat constructor; try lia.
  all: first [assert (c / 64 < 32) by (apply Z.div_lt_upper_bound; lia)
             |assert (c / 4096 < 16) by (apply Z.div_lt_upper_bound; lia)
             |assert (c / 262144 < 5) by (apply Z.div_lt_upper_bound; lia)|idtac];
    first [pose proof (Z.div_pos c 64)|idtac]; pose proof (Z.div_pos c 4096); pose proof (Z.div_pos c 262144); lia.
Qed.

(** Only the character zero has a zero byte. *)
Lemma encode_utf8_nonzero c : 0 < c -> 0 ∉ encode_utf8 c.
Proof.
  intros Hc. unfold encode_utf8.
  pose proof (Z.mod_pos_bound c 64). pose proof (Z.mod_pos_bound (c / 64) 64). pose proof (Z.mod_pos_bound (c / 4096) 64).
  pose proof (Z.div_pos c 64). pose proof (Z.div_pos c 4096). pose proof (Z.div_pos c 262144).
  zcases; rewrite !list_elem_of_In; simpl; lia.
Qed.
