(* ===== verification/ManifestPath.v ===== *)
(** * Package paths ([crates/vot-manifest/src/path.rs])

    A path is a non-empty list of components, portable Unicode names or raw
    POSIX bytes.  Its canonical key joins the components with a zero byte, the
    portable ones folded first, and decides order, collision and ancestry.
    Unicode normalization is the unicode_normalization crate's and the lowercase
    mapping is a table of the toolchain's Unicode version: both are parameters,
    [UnicodeOk] stating what the keys rely on. *)

From S2P Require Import Prelude Cbor Text.

Definition MAX_PATH_COMPONENTS : Z := 256.

Inductive Error :=
| InvalidPath | PathCollision | EntriesUnsorted | InvalidObject | PageTooLarge | WrongManifest
| WrongPageIndex | BrokenPageChain | SealedPageInProgressiveStream | Poisoned | InvalidSeal.

#[export] Instance Error_eq_dec : EqDecision Error.
Proof. solve_decision. Defined.

(** [str::nfc], [str::nfkc] and [char::to_lowercase], on characters. *)
Class Unicode := mkUnicode { nfc : list Z -> list Z; nfkc : list Z -> list Z; to_lowercase : Z -> list Z }.

Inductive PathProfile := Portable | RawPosix.

Inductive Component := Text (text : list Z) | Bytes (bytes : list Z).

Record PackagePath := mkPackagePath { path_profile : PathProfile; components : list Component }.

#[export] Instance PathProfile_eq_dec : EqDecision PathProfile.
Proof. solve_decision. Defined.
#[export] Instance Component_eq_dec : EqDecision Component.
Proof. solve_decision. Defined.
#[export] Instance PackagePath_eq_dec : EqDecision PackagePath.
Proof. solve_decision. Defined.

Section path.
Context `{U : Unicode}.

(** The closure over each character in [portable_fold]. *)
Definition fold_char (character : Z) : list Z :=
  if mem character [73; 105; 304; 305] then [105] else to_lowercase character.

Definition portable_fold (component : list Z) : list Z :=
  nfc (concat (map fold_char (nfc (chars component)))).

Definition is_device_digit (value : list Z) : bool :=
  match value with
  | [c] => in_range 49 57 c || mem c [185; 178; 179]
  | _ => false
  end.

Definition is_text (value expected : list Z) : bool := bool_decide (value = expected).

Definition forbidden (character : Z) : bool :=
  (character <=? 31) || mem character [8204; 8205] || in_range 8234 8238 character ||
  in_range 8294 8297 character || (character =? 65279).

Definition is_dot_or_space (character : Z) : bool := mem character [46; 32].

Definition ends_with (p : Z -> bool) (cs : list Z) : bool :=
  match last cs with Some c => p c | None => false end.

Definition validate_portable_component (component : list Z) : result unit Error :=
  if bool_decide (component = []) || (255 <? zlen component) ||
     existsb (fun c => mem c [0; 47; 92; 60; 62; 58; 34; 124; 63; 42]) (chars component) ||
     ends_with is_dot_or_space (chars component) || existsb forbidden (chars component)
  then Err InvalidPath else
  let compatibility := nfkc (chars component) in
  if is_text compatibility [46] || is_text compatibility [46; 46] then Err InvalidPath else
  let folded := portable_fold component in
  if is_text folded [] || is_text folded [46] || is_text folded [46; 46] then Err InvalidPath else
  let stem := until 46 folded in
  let reserved :=
    is_text stem [99; 111; 110] || is_text stem [112; 114; 110] || is_text stem [97; 117; 120] ||
    is_text stem [110; 117; 108] ||
    match strip_prefix [99; 111; 109] stem with Some d => is_device_digit d | None => false end ||
    match strip_prefix [108; 112; 116] stem with Some d => is_device_digit d | None => false end in
  if reserved then Err InvalidPath else Ok tt.

Definition valid_raw_component (component : list Z) : bool :=
  negb (bool_decide (component = [])) && (zlen component <=? 255) &&
  negb (is_text component [46]) && negb (is_text component [46; 46]) &&
  negb (mem 0 component) && negb (mem 47 component) && negb (mem 92 component).

Fixpoint validate_each (path : list Component) (profile : PathProfile) : result unit Error :=
  match path with
  | [] => Ok tt
  | component :: rest =>
      match profile, component with
      | Portable, Text text => let? _ := validate_portable_component text in validate_each rest profile
      | RawPosix, Bytes bytes => if valid_raw_component bytes then validate_each rest profile else Err InvalidPath
      | _, _ => Err InvalidPath
      end
  end.

Definition validate_components (path : list Component) (profile : PathProfile) : result unit Error :=
  if bool_decide (path = []) || (MAX_PATH_COMPONENTS <? zlen path) then Err InvalidPath else
  validate_each path profile.

(** [PackagePath::new]. *)
Definition path_new (components : list Component) (profile : PathProfile) : result PackagePath Error :=
  let? _ := validate_components components profile in Ok (mkPackagePath profile components).

(** What one component adds to a key.  [PackagePath::new] refuses the mixed
    components of the last arm, which the code marks unreachable: see
    [component_key_reached]. *)
Definition component_key (profile : PathProfile) (component : Component) : list Z :=
  match profile, component with
  | Portable, Text text => collect (trim_end_matches is_dot_or_space (portable_fold text))
  | RawPosix, Bytes bytes => bytes
  | _, _ => []
  end.

Definition path_key (path : PackagePath) : list Z :=
  foldl (fun key component =>
    (if bool_decide (key = []) then key else key ++ [0]) ++ component_key (path_profile path) component)
    [] (components path).

Definition canonical_path_key (path : PackagePath) (profile : PathProfile) : result (list Z) Error :=
  if negb (bool_decide (path_profile path = profile)) then Err InvalidPath else Ok (path_key path).

Definition is_path_prefix (ancestor descendant : list Z) : bool :=
  starts_with descendant ancestor && bool_decide (zget descendant (zlen ancestor) = Some 0).

End path.

(** ** Keys *)

(** What the keys rely on: normalization and lowercasing map scalar values to
    scalar values and to at least one of them, and neither makes a NUL, or a
    final full stop or space, out of anything else.  Unicode's stability policy
    for ASCII and the canonical mappings give each. *)
Class UnicodeOk (U : Unicode) : Prop := mkUnicodeOk {
  nfc_scalar s : Forall is_char s -> Forall is_char (nfc s);
  nfc_nul s : 0 ∉ s -> 0 ∉ nfc s;
  nfc_end s : ends_with is_dot_or_space (nfc s) = true -> ends_with is_dot_or_space s = true;
  lowercase_scalar c : is_char c -> Forall is_char (to_lowercase c);
  lowercase_nonempty c : to_lowercase c <> [];
  lowercase_nul c : c <> 0 -> 0 ∉ to_lowercase c;
  lowercase_end c : ends_with is_dot_or_space (to_lowercase c) = true -> is_dot_or_space c = true }.

Lemma is_path_prefix_spec a d : is_path_prefix a d = true <-> exists rest, d = a ++ 0 :: rest.
Proof.
  unfold is_path_prefix. rewrite andb_true_iff, starts_with_spec, bool_decide_eq_true.
  assert (forall rest, zget (a ++ rest) (zlen a) = rest !! 0%nat) as Hg.
  { intros rest. unfold zget, zlen. rewrite (proj2 (Z.leb_le 0 _)) by lia.
    by rewrite Nat2Z.id, lookup_app_r, Nat.sub_diag by done. }
  split.
  - intros ((rest & ->) & H). rewrite Hg in H. destruct rest as [|x rest]; [done|]. injection H as ->. by exists rest.
  - intros (rest & ->). split; [by eexists|]. by rewrite Hg.
Qed.

Lemma mem_In c l : mem c l = true <-> c ∈ l.
Proof. unfold mem. rewrite existsb_exists, list_elem_of_In. split; [intros (x & ? & ->%Z.eqb_eq); done|]. exists c. by rewrite Z.eqb_refl. Qed.

Lemma ends_with_snoc p l c : ends_with p (l ++ [c]) = p c.
Proof. unfold ends_with. by rewrite last_snoc. Qed.

Lemma ends_with_concat p (f : Z -> list Z) s : (forall c, f c <> []) ->
  ends_with p (concat (map f s)) = true -> exists c, last s = Some c /\ ends_with p (f c) = true.
Proof.
  intros Hf. destruct s as [|c s _] using rev_ind; [done|].
  rewrite map_app, concat_app, last_snoc. cbn [map concat]. rewrite app_nil_r. intros H. exists c. split; [done|].
  destruct (f c) as [|x l _] eqn:E using rev_ind; [by destruct (Hf c)|].
  rewrite app_assoc, ends_with_snoc in H. by rewrite ends_with_snoc.
Qed.

Lemma trim_end_id p cs : ends_with p cs = false -> trim_end_matches p cs = cs.
Proof.
  induction cs as [|c cs IH]; intros H; [done|]. destruct cs as [|d cs].
  - unfold ends_with in H. simpl in *. by rewrite H.
  - change (match trim_end_matches p (d :: cs) with [] => if p c then [] else [c] | kept => c :: kept end = c :: d :: cs).
    by rewrite IH.
Qed.

Lemma foldl_map {A B C} (f : A -> B -> A) (g : C -> B) acc l : foldl f acc (map g l) = foldl (fun a c => f a (g c)) acc l.
Proof. revert acc. induction l as [|c l IH]; intros acc; [done|]. simpl. apply IH. Qed.

Section keys.
Context `{U : Unicode}.

(** The key of a non-empty path whose components have keys [k :: ks]. *)
Definition joined (k : list Z) (ks : list (list Z)) : list Z := k ++ concat (map (cons 0) ks).

(** A component's key: not empty, with no zero byte, and made of bytes. *)
Definition separable (k : list Z) : Prop := k <> [] /\ (0 ∉ k) /\ byte_list k.

(** A path [PackagePath::new] returned, its text well-formed UTF-8. *)
Definition is_component (c : Component) : Prop :=
  match c with Text t => byte_list t /\ utf8_valid t = true | Bytes b => byte_list b end.
Definition is_path (p : PackagePath) : Prop :=
  Forall is_component (components p) /\ validate_components (components p) (path_profile p) = Ok tt.

Definition keys_of (p : PackagePath) : list (list Z) := map (component_key (path_profile p)) (components p).

Lemma validate_each_cons c rest profile : validate_each (c :: rest) profile = Ok tt ->
  match profile, c with
  | Portable, Text t => validate_portable_component t = Ok tt
  | RawPosix, Bytes b => valid_raw_component b = true
  | _, _ => False
  end /\ validate_each rest profile = Ok tt.
Proof.
  simpl. destruct profile, c as [t|b]; try done.
  - by destruct (validate_portable_component t) as [[]|].
  - by destruct (valid_raw_component b).
Qed.

(** The arm of [component_key] the code marks unreachable is. *)
Lemma component_key_reached p c : validate_components (components p) (path_profile p) = Ok tt -> c ∈ components p ->
  match path_profile p, c with Portable, Text _ | RawPosix, Bytes _ => True | _, _ => False end.
Proof.
  unfold validate_components. destruct (_ || _); [done|]. induction (components p) as [|d l IH]; [by intros _ ?%not_elem_of_nil|].
  intros [Hd Hl]%validate_each_cons [->|H]%elem_of_cons; [|by apply IH]. by destruct (path_profile p), d.
Qed.

Lemma portable_end `{!UnicodeOk U} t : ends_with is_dot_or_space (chars t) = false ->
  ends_with is_dot_or_space (portable_fold t) = false.
Proof.
  intros He. destruct (ends_with _ (portable_fold t)) eqn:E; [|done]. exfalso. unfold portable_fold in E.
  apply nfc_end, ends_with_concat in E as (c & Hl & Hc).
  - assert (is_dot_or_space c = true) as Hd.
    { unfold fold_char in Hc. destruct (mem c _) eqn:Hm; [done|by apply lowercase_end]. }
    rewrite (nfc_end (chars t)) in He; [done|]. unfold ends_with. by rewrite Hl.
  - intros c. unfold fold_char. destruct (mem c _); [done|apply lowercase_nonempty].
Qed.

Lemma portable_nul `{!UnicodeOk U} t : 0 ∉ chars t -> 0 ∉ portable_fold t.
Proof.
  intros H. unfold portable_fold. apply nfc_nul. rewrite list_elem_of_In, in_concat. intros (l & (c & <- & Hc)%in_map_iff & H0).
  assert (c <> 0) as Hne by (intros ->; by apply (nfc_nul _ H), list_elem_of_In).
  unfold fold_char in H0. destruct (mem c _); [by destruct H0 as [|[]]|].
  by apply (lowercase_nul c Hne), list_elem_of_In.
Qed.

Lemma portable_scalar `{!UnicodeOk U} t : utf8_valid t = true -> Forall is_char (portable_fold t).
Proof.
  intros H. unfold portable_fold. apply nfc_scalar, Forall_concat, Forall_map.
  eapply Forall_impl; [apply nfc_scalar, chars_scalar, H|]. intros c Hc. unfold fold_char.
  destruct (mem c [73; 105; 304; 305]); [|by apply lowercase_scalar]. repeat constructor; unfold is_char; lia.
Qed.

Lemma validate_portable_inv t : validate_portable_component t = Ok tt ->
  (0 ∉ chars t) /\ ends_with is_dot_or_space (chars t) = false /\ portable_fold t <> [] /\ zlen t <= 255 /\ t <> [].
Proof.
  unfold validate_portable_component. cbv zeta. case_match eqn:H1; [done|]. case_match; [done|].
  case_match eqn:H3; [done|]. intros _.
  apply orb_false_iff in H3 as [[H3 _]%orb_false_iff _]. apply bool_decide_eq_false in H3.
  apply orb_false_iff in H1 as [[[[Hz Hl]%orb_false_iff Hm]%orb_false_iff He]%orb_false_iff _].
  apply bool_decide_eq_false in Hz. apply Z.ltb_ge in Hl. split_and!; try done.
  intros H0%list_elem_of_In. rewrite <- not_true_iff_false, existsb_exists in Hm. apply Hm. by exists 0.
Qed.

Lemma valid_raw_inv b : valid_raw_component b = true -> b <> [] /\ (0 ∉ b) /\ zlen b <= 255.
Proof.
  unfold valid_raw_component. rewrite !andb_true_iff, !negb_true_iff. intros ((((((Hz & Hl) & _) & _) & H0) & _) & _).
  apply bool_decide_eq_false in Hz. apply Z.leb_le in Hl. split_and!; try done.
  intros Hin%mem_In. by rewrite Hin in H0.
Qed.

Lemma component_separable `{!UnicodeOk U} profile c rest : is_component c ->
  validate_each (c :: rest) profile = Ok tt -> separable (component_key profile c).
Proof.
  intros Hc [Hv _]%validate_each_cons. destruct profile, c as [t|b]; try done; simpl.
  - destruct Hc as [_ Hu]. apply validate_portable_inv in Hv as (H0 & He & Hf & _).
    rewrite trim_end_id by (by apply portable_end). apply portable_nul in H0. pose proof (portable_scalar _ Hu) as Hs.
    destruct (portable_fold t) as [|x l]; [done|]. clear Hf He Hu. split_and!.
    + rewrite collect_cons. unfold encode_utf8. by zcases.
    + intros Hin. unfold collect in Hin. rewrite list_elem_of_In, in_concat in Hin.
      destruct Hin as (k & (c & <- & Hin%list_elem_of_In)%in_map_iff & Hk%list_elem_of_In).
      rewrite Forall_forall in Hs. specialize (Hs c Hin). unfold is_char in Hs.
      assert (c <> 0) by (intros ->; done). by apply (encode_utf8_nonzero c ltac:(lia)).
    + apply Forall_concat, Forall_map. eapply Forall_impl; [exact Hs|]. intros c ?. by apply encode_utf8_bytes.
  - apply valid_raw_inv in Hv as (? & ? & _). done.
Qed.

Lemma keys_separable `{!UnicodeOk U} p : is_path p -> keys_of p <> [] /\ Forall separable (keys_of p).
Proof.
  intros [Hc Hv]. unfold validate_components in Hv. destruct (_ || _) eqn:Hb; [done|].
  apply orb_false_iff in Hb as [Hb _]. apply bool_decide_eq_false in Hb. unfold keys_of.
  split; [by destruct (components p)|]. clear Hb. induction Hc as [|c l Hc _ IH]; [constructor|].
  simpl. constructor; [by eapply component_separable|]. apply IH. by apply validate_each_cons in Hv as [_ ?].
Qed.

Lemma fold_keys acc ks : acc <> [] -> Forall separable ks ->
  foldl (fun key k => (if bool_decide (key = []) then key else key ++ [0]) ++ k) acc ks = joined acc ks.
Proof.
  unfold joined. intros Ha Hs. revert acc Ha. induction Hs as [|k ks Hk _ IH]; intros acc Ha; simpl.
  - by rewrite app_nil_r.
  - rewrite bool_decide_eq_false_2 by done. rewrite IH by (by destruct acc). by rewrite <- !app_assoc.
Qed.

Lemma path_key_joined `{!UnicodeOk U} p : is_path p -> exists k ks, keys_of p = k :: ks /\ path_key p = joined k ks /\
  Forall separable (k :: ks).
Proof.
  intros Hp. destruct (keys_separable p Hp) as [Hne Hs]. destruct (keys_of p) as [|k ks] eqn:E; [done|].
  exists k, ks. split_and!; [done| |done]. apply Forall_cons in Hs as [Hk Hs].
  rewrite <- (fold_keys k ks) by (done || apply Hk). unfold path_key.
  transitivity (foldl (fun key k => (if bool_decide (key = []) then key else key ++ [0]) ++ k) [] (keys_of p)).
  - unfold keys_of. by rewrite foldl_map.
  - by rewrite E.
Qed.

Lemma zero_split (a b x y : list Z) : 0 ∉ a -> 0 ∉ b -> (x = [] \/ exists x', x = 0 :: x') -> (y = [] \/ exists y', y = 0 :: y') ->
  a ++ x = b ++ y -> a = b /\ x = y.
Proof.
  revert b. induction a as [|c a IH]; intros [|d b]; simpl; intros Ha Hb Hx Hy He.
  - done.
  - destruct Hx as [->|(x' & ->)]; [done|]. injection He as <- _. destruct Hb. by left.
  - destruct Hy as [->|(y' & ->)]; [done|]. injection He as -> _. destruct Ha. by left.
  - injection He as -> He. apply not_elem_of_cons in Ha as [_ Ha], Hb as [_ Hb].
    by destruct (IH b Ha Hb Hx Hy He) as [-> ->].
Qed.

Lemma tail_shape ks : concat (map (cons 0) ks) = [] \/ exists x, concat (map (cons 0) ks) = 0 :: x.
Proof. destruct ks; [by left|right; by eexists]. Qed.

Lemma joined_prefix k ks k' ks' rest : Forall separable (k :: ks) -> Forall separable (k' :: ks') ->
  joined k' ks' = joined k ks ++ 0 :: rest -> exists more, more <> [] /\ k' :: ks' = (k :: ks) ++ more.
Proof.
  unfold joined. intros Hs Hs'. revert k' ks' Hs' Hs. revert k.
  induction ks as [|j ks IH]; intros k k' ks' [[_ [Hk' _]] Hs']%Forall_cons [[_ [Hk _]] Hs]%Forall_cons He; simpl in He.
  - rewrite app_nil_r in He. apply zero_split in He as [-> He]; [|done|done|apply tail_shape|by right; eexists].
    exists ks'. by destruct ks'.
  - rewrite <- app_assoc in He. apply zero_split in He as [-> He]; [|done|done|apply tail_shape|by right; eexists].
    destruct ks' as [|j' ks']; [done|]. simpl in He. injection He as He.
    destruct (IH j j' ks' Hs' Hs He) as (more & ? & Hm). exists more. split; [done|]. by rewrite Hm.
Qed.

Lemma joined_inj k ks k' ks' : Forall separable (k :: ks) -> Forall separable (k' :: ks') ->
  joined k' ks' = joined k ks -> k' :: ks' = k :: ks.
Proof.
  unfold joined. intros Hs Hs'. revert k' ks' Hs' Hs. revert k.
  induction ks as [|j ks IH]; intros k k' ks' [[_ [Hk' _]] Hs']%Forall_cons [[_ [Hk _]] Hs]%Forall_cons He.
  - apply zero_split in He as [-> He]; [|done|done|apply tail_shape..]. by destruct ks'.
  - apply zero_split in He as [-> He]; [|done|done|apply tail_shape..]. destruct ks' as [|j' ks']; [done|].
    simpl in He. injection He as He. by rewrite (IH j j' ks' Hs' Hs He).
Qed.

(** The canonical key decides collision and ancestry.  For two accepted paths
    the keys are equal exactly when the components agree one by one after folding,
    and one key is a path prefix of the other exactly when its components are a
    proper prefix of the other's: the joined bytes never confuse [foo] with
    [foobar] or one component with two. *)
Lemma path_keys_decide `{!UnicodeOk U} p q : is_path p -> is_path q ->
  (path_key p = path_key q <-> keys_of p = keys_of q) /\
  (is_path_prefix (path_key p) (path_key q) = true <-> exists more, more <> [] /\ keys_of q = keys_of p ++ more).
Proof.
  intros Hp Hq. destruct (path_key_joined p Hp) as (k & ks & Ek & -> & Hs).
  destruct (path_key_joined q Hq) as (k' & ks' & Ek' & -> & Hs'). rewrite Ek, Ek', is_path_prefix_spec. split; split.
  - by apply joined_inj.
  - by intros [= -> ->].
  - intros (rest & He). by apply (joined_prefix k ks k' ks' rest).
  - intros (more & Hm & [= -> ->]). destruct more as [|m more]; [done|]. unfold joined.
    rewrite map_app, concat_app. simpl. exists (m ++ concat (map (cons 0) more)). by rewrite app_assoc.
Qed.
End keys.

(** Unicode restricted to ASCII letters, for the witnesses: no normalization, and
    the lowercase of [A] to [Z]. *)
Definition ascii_unicode : Unicode :=
  mkUnicode id id (fun c => [if in_range 65 90 c then c + 32 else c]).

Lemma ascii_unicode_ok : UnicodeOk ascii_unicode.
Proof.
  split; unfold nfc, to_lowercase; simpl; try done; intros c; unfold in_range, is_char.
  - intros Hc. zcases; simpl; constructor; try constructor; lia.
  - intros Hc. zcases; simpl; rewrite list_elem_of_singleton; lia.
  - zcases; try done. unfold ends_with, is_dot_or_space, mem. simpl. zcases; try done; lia.
Qed.
