(* ===== verification/Manifest.v ===== *)
(** * Manifest pages and seals ([crates/vot-manifest/src/model.rs], [encode.rs], [decode.rs])

    Pages of sorted entries, the seal that commits to them, their validation,
    and their canonical CBOR.  A length computed before writing is state the
    counting functions thread; [u64] counts and [usize] lengths are [Z] on a
    64-bit target. *)

From S2P Require Import Prelude Cbor Exact Text ManifestPath.

Definition MAX_PAGE_BYTES : Z := 1048576.
Definition MAX_ENTRIES_PER_PAGE : Z := 8192.
Definition MAX_SEAL_FIXED_BYTES : Z := 113.
Definition MAX_ENCODED_PAGE_COMMITMENT_BYTES : Z := 39.
Definition MAX_PAGE_COMMITMENTS : Z := (MAX_PAGE_BYTES - MAX_SEAL_FIXED_BYTES) / MAX_ENCODED_PAGE_COMMITMENT_BYTES.

Inductive DecodeError :=
| DPageTooLarge | DTruncated | DInvalidCbor | DNonCanonical | DWrongType | DInvalidStructure | DTooManyEntries
| DTooManyComponents | DComponentTooLarge | DInvalidUtf8 | DSemantic (e : Error).

(** ** Model *)

Inductive EntryKind := File | Directory.

Record ObjectId := mkObjectId { suite : Z; root : list Z; object_length : Z }.

Inductive StorageRef :=
| Direct (object : ObjectId)
| Pack (pack : ObjectId) (offset length : Z) (logical : ObjectId).

Record FileMetadata := mkFileMetadata {
  mode : option Z; mtime_seconds : option Z; mtime_nanoseconds : option Z; media_type : option (list Z) }.

Record ManifestEntry := mkManifestEntry {
  path : PackagePath; kind : EntryKind; entry_length : option Z;
  storage : option StorageRef; metadata : option FileMetadata }.

Record ManifestPage := mkManifestPage {
  manifest_id : list Z; index : Z; total : option Z; previous_digest : list Z;
  profile : PathProfile; entries : list ManifestEntry }.

Record PageCommitment := mkPageCommitment { commitment_index : Z; digest : list Z }.

Record Seal := mkSeal {
  seal_manifest_id : list Z; final_page_count : Z; final_page_digest : list Z;
  package : ObjectId; pages : list PageCommitment }.

#[export] Instance EntryKind_eq_dec : EqDecision EntryKind.
Proof. solve_decision. Defined.
#[export] Instance ObjectId_eq_dec : EqDecision ObjectId.
Proof. solve_decision. Defined.
#[export] Instance StorageRef_eq_dec : EqDecision StorageRef.
Proof. solve_decision. Defined.
#[export] Instance FileMetadata_eq_dec : EqDecision FileMetadata.
Proof. solve_decision. Defined.
#[export] Instance ManifestEntry_eq_dec : EqDecision ManifestEntry.
Proof. solve_decision. Defined.
#[export] Instance ManifestPage_eq_dec : EqDecision ManifestPage.
Proof. solve_decision. Defined.
#[export] Instance PageCommitment_eq_dec : EqDecision PageCommitment.
Proof. solve_decision. Defined.
#[export] Instance Seal_eq_dec : EqDecision Seal.
Proof. solve_decision. Defined.

(** [o.is_none_or(p)]. *)
Definition is_none_or {A} (p : A -> bool) (o : option A) : bool := match o with Some v => p v | None => true end.
Definition is_some_and {A} (p : A -> bool) (o : option A) : bool := match o with Some v => p v | None => false end.
Definition is_some {A} (o : option A) : bool := match o with Some _ => true | None => false end.

Definition valid_object (object : ObjectId) : bool :=
  ((suite object =? 1) || (suite object =? 2)) && (object_length object <=? i64_max).

Definition valid_metadata (m : FileMetadata) : bool :=
  is_none_or (fun mode => mode <=? 511) (mode m) &&
  is_none_or (fun value => value <=? 999999999) (mtime_nanoseconds m) &&
  is_none_or (fun value => negb (bool_decide (value = [])) && (zlen value <=? 127)) (media_type m).

Definition valid_storage (storage : StorageRef) (entry_length : Z) : bool :=
  match storage with
  | Direct object => valid_object object && (object_length object =? entry_length)
  | Pack pack offset length logical =>
      valid_object pack && valid_object logical && (length =? entry_length) && (length <=? 262144) &&
      (object_length logical =? length) &&
      is_some_and (fun stop => stop <=? object_length pack) (checked_add offset length) &&
      (object_length pack <=? 134217728)
  end.

Definition validate_entry (entry : ManifestEntry) : result unit Error :=
  match kind entry with
  | File =>
      let? length := ok_or (entry_length entry) InvalidObject in
      let? storage := ok_or (storage entry) InvalidObject in
      if negb (valid_storage storage length) || is_some_and (fun m => negb (valid_metadata m)) (metadata entry)
      then Err InvalidObject else Ok tt
  | Directory =>
      if is_some (entry_length entry) || is_some (storage entry) || is_some (metadata entry)
      then Err InvalidObject else Ok tt
  end.

Definition validate_entry_count (entries : Z) : result unit Error :=
  if MAX_ENTRIES_PER_PAGE <? entries then Err PageTooLarge else Ok tt.

Definition validate_page_length (length : Z) : result unit Error :=
  if MAX_PAGE_BYTES <? length then Err PageTooLarge else Ok tt.

(** [page.index != index as u64] for some position, from [position]. *)
Fixpoint misplaced (position : Z) (pages : list PageCommitment) : bool :=
  match pages with
  | [] => false
  | page :: rest => negb (commitment_index page =? position) || misplaced (position + 1) rest
  end.

Definition validate_seal (seal : Seal) : result unit Error :=
  if final_page_count seal =? 0 then Err InvalidSeal else
  if negb (final_page_count seal =? zlen (pages seal)) then Err InvalidSeal else
  if MAX_PAGE_COMMITMENTS <? zlen (pages seal) then Err InvalidSeal else
  if negb (valid_object (package seal)) then Err InvalidSeal else
  if misplaced 0 (pages seal) then Err InvalidSeal else
  if negb (bool_decide (digest <$> last (pages seal) = Some (final_page_digest seal))) then Err InvalidSeal else
  Ok tt.

Section manifest.
Context `{U : Unicode}.

(** The loop of [validate_entries], its three mutable variables as arguments. *)
Fixpoint validate_entries_from (profile : PathProfile) (keys unique : list (list Z)) (previous_file : bool)
    (entries : list ManifestEntry) : result (list (list Z)) Error :=
  match entries with
  | [] => Ok keys
  | entry :: rest =>
      let? _ := validate_entry entry in
      if negb (bool_decide (path_profile (path entry) = profile)) then Err InvalidPath else
      let? key := canonical_path_key (path entry) profile in
      if bool_decide (key ∈ unique) then Err PathCollision else
      if is_some_and (fun previous => lex_leb key previous) (last keys) then Err EntriesUnsorted else
      if previous_file && is_some_and (fun previous => is_path_prefix previous key) (last keys)
      then Err PathCollision else
      validate_entries_from profile (keys ++ [key]) (key :: unique) (bool_decide (kind entry = File)) rest
  end.

Definition validate_entries (entries : list ManifestEntry) (profile : PathProfile) : result (list (list Z)) Error :=
  validate_entries_from profile [] [] false entries.

(** ** Lengths *)

(** [total = add(total, part)?], the running total being the state. *)
Definition add (part : Z) : M Z Error unit := fun total =>
  match checked_add total part with Some t => (Ok tt, t) | None => (Err PageTooLarge, total) end.

(** [let mut total = add(0, ..)?; ..; Ok(total)]. *)
Definition counted (m : M Z Error unit) : result Z Error :=
  match m 0 with (Ok _, total) => Ok total | (Err e, _) => Err e end.

Fixpoint add_each {A} (f : A -> M Z Error unit) (l : list A) : M Z Error unit :=
  match l with
  | [] => ret tt
  | x :: rest => f x ;! add_each f rest
  end.

Definition add_some {A} (f : A -> M Z Error unit) (o : option A) : M Z Error unit :=
  match o with Some v => f v | None => ret tt end.

Definition counted_fields (base : Z) (flags : list bool) : Z :=
  foldl (fun n (flag : bool) => n + (if flag then 1 else 0)) base flags.

Definition profile_code (p : PathProfile) : Z := match p with Portable => 0 | RawPosix => 1 end.
Definition kind_code (k : EntryKind) : Z := match k with File => 0 | Directory => 1 end.

Definition entry_fields (entry : ManifestEntry) : Z :=
  counted_fields 2 [is_some (entry_length entry); is_some (storage entry); is_some (metadata entry)].

Definition metadata_fields (m : FileMetadata) : Z :=
  counted_fields 0 [is_some (mode m); is_some (mtime_seconds m); is_some (mtime_nanoseconds m); is_some (media_type m)].

Definition object_encoded_len (object : ObjectId) : result Z Error :=
  counted (add (head_len 3) ;! add (head_len (suite object)) ;! add (payload_len (zlen (root object))) ;!
    add (head_len (object_length object))).

Definition storage_encoded_len (storage : StorageRef) : result Z Error :=
  match storage with
  | Direct object =>
      counted (add (head_len 2) ;! add (head_len 0) ;! let! n := lift (object_encoded_len object) in add n)
  | Pack pack offset length logical =>
      counted (add (head_len 5) ;! add (head_len 1) ;! (let! n := lift (object_encoded_len pack) in add n) ;!
        add (head_len offset) ;! add (head_len length) ;! let! n := lift (object_encoded_len logical) in add n)
  end.

Definition metadata_encoded_len (m : FileMetadata) : result Z Error :=
  counted (add (head_len (metadata_fields m)) ;!
    add_some (fun mode => add (head_len 0) ;! add (head_len mode)) (mode m) ;!
    add_some (fun seconds => add (head_len 1) ;! add (int_len seconds)) (mtime_seconds m) ;!
    add_some (fun nanoseconds => add (head_len 2) ;! add (head_len nanoseconds)) (mtime_nanoseconds m) ;!
    add_some (fun media_type => add (head_len 3) ;! add (payload_len (zlen media_type))) (media_type m)).

Definition component_len (component : Component) : Z :=
  match component with Text text => payload_len (zlen text) | Bytes bytes => payload_len (zlen bytes) end.

Definition entry_encoded_len (entry : ManifestEntry) : result Z Error :=
  counted (add (head_len (entry_fields entry)) ;!
    add (head_len 0) ;! add (head_len (zlen (components (path entry)))) ;!
    add_each (fun component => add (component_len component)) (components (path entry)) ;!
    add (head_len 1) ;! add (head_len (kind_code (kind entry))) ;!
    add_some (fun length => add (head_len 2) ;! add (head_len length)) (entry_length entry) ;!
    add_some (fun storage => add (head_len 3) ;! let! n := lift (storage_encoded_len storage) in add n) (storage entry) ;!
    add_some (fun m => add (head_len 4) ;! let! n := lift (metadata_encoded_len m) in add n) (metadata entry)).

Definition page_encoded_len (page : ManifestPage) : result Z Error :=
  let? _ := validate_entry_count (zlen (entries page)) in
  let? _ := validate_entries (entries page) (profile page) in
  let? total := counted (
    add (head_len 7) ;! add (head_len 0) ;! add (head_len 0) ;!
    add (head_len 1) ;! add (payload_len (zlen (manifest_id page))) ;!
    add (head_len 2) ;! add (head_len (index page)) ;!
    add (head_len 3) ;! add (match total page with Some t => head_len t | None => 1 end) ;!
    add (head_len 4) ;! add (payload_len (zlen (previous_digest page))) ;!
    add (head_len 5) ;! add (head_len (profile_code (profile page))) ;!
    add (head_len 6) ;! add (head_len (zlen (entries page))) ;!
    add_each (fun entry => let! n := lift (entry_encoded_len entry) in add n) (entries page)) in
  let? _ := validate_page_length total in
  Ok total.

Definition seal_encoded_len (seal : Seal) : result Z Error :=
  let? _ := validate_seal seal in
  let? total := counted (
    add (head_len 6) ;! add (head_len 0) ;! add (head_len 0) ;!
    add (head_len 1) ;! add (payload_len (zlen (seal_manifest_id seal))) ;!
    add (head_len 2) ;! add (head_len (final_page_count seal)) ;!
    add (head_len 3) ;! add (payload_len (zlen (final_page_digest seal))) ;!
    add (head_len 4) ;! add (head_len 4) ;! add (head_len 1) ;! add (head_len (suite (package seal))) ;!
    add (payload_len (zlen (root (package seal)))) ;! add (head_len (object_length (package seal))) ;!
    add (head_len 5) ;! add (head_len (zlen (pages seal))) ;!
    add_each (fun commitment =>
      add (head_len 3) ;! add (head_len (commitment_index commitment)) ;!
      add (payload_len (zlen (digest commitment))) ;! add (head_len 0)) (pages seal)) in
  let? _ := validate_page_length total in
  Ok total.

(** ** Writers *)

Definition W : Type := M (list Z) Error unit.

Definition put_int (v : Z) : W := put (fun out => int out v).

Definition put_some {A} (f : A -> W) (o : option A) : W := match o with Some v => f v | None => ret tt end.

Definition encode_object (object : ObjectId) : W :=
  put_array 3 ;! put_uint (suite object) ;! put_bytes (root object) ;! put_uint (object_length object).

Definition encode_storage (storage : StorageRef) : W :=
  match storage with
  | Direct object => put_array 2 ;! put_uint 0 ;! encode_object object
  | Pack pack offset length logical =>
      put_array 5 ;! put_uint 1 ;! encode_object pack ;! put_uint offset ;! put_uint length ;! encode_object logical
  end.

Definition encode_metadata (m : FileMetadata) : W :=
  put_map (metadata_fields m) ;!
  put_some (fun mode => put_uint 0 ;! put_uint mode) (mode m) ;!
  put_some (fun seconds => put_uint 1 ;! put_int seconds) (mtime_seconds m) ;!
  put_some (fun nanoseconds => put_uint 2 ;! put_uint nanoseconds) (mtime_nanoseconds m) ;!
  put_some (fun media_type => put_uint 3 ;! put_text media_type) (media_type m).

Definition put_component (component : Component) : W :=
  match component with Text text => put_text text | Bytes bytes => put_bytes bytes end.

Definition encode_entry (entry : ManifestEntry) : W :=
  put_map (entry_fields entry) ;!
  put_uint 0 ;! put_array (zlen (components (path entry))) ;! put_each put_component (components (path entry)) ;!
  put_uint 1 ;! put_uint (kind_code (kind entry)) ;!
  put_some (fun length => put_uint 2 ;! put_uint length) (entry_length entry) ;!
  put_some (fun storage => put_uint 3 ;! encode_storage storage) (storage entry) ;!
  put_some (fun m => put_uint 4 ;! encode_metadata m) (metadata entry).

(** [let mut out = Vec::with_capacity(expected); ..; if out.len() != expected { Err } else { Ok(out) }]. *)
Definition written (expected : Z) (write : W) : result (list Z) Error :=
  let out := snd (write []) in
  if negb (zlen out =? expected) then Err PageTooLarge else Ok out.

Definition encode_page (page : ManifestPage) : result (list Z) Error :=
  let? expected := page_encoded_len page in
  written expected (
    put_map 7 ;! put_uint 0 ;! put_uint 0 ;!
    put_uint 1 ;! put_bytes (manifest_id page) ;!
    put_uint 2 ;! put_uint (index page) ;!
    put_uint 3 ;! match total page with Some t => put_uint t | None => extend [246] end ;!
    put_uint 4 ;! put_bytes (previous_digest page) ;!
    put_uint 5 ;! put_uint (profile_code (profile page)) ;!
    put_uint 6 ;! put_array (zlen (entries page)) ;! put_each encode_entry (entries page)).

Definition encode_seal (seal : Seal) : result (list Z) Error :=
  let? expected := seal_encoded_len seal in
  written expected (
    put_map 6 ;! put_uint 0 ;! put_uint 0 ;!
    put_uint 1 ;! put_bytes (seal_manifest_id seal) ;!
    put_uint 2 ;! put_uint (final_page_count seal) ;!
    put_uint 3 ;! put_bytes (final_page_digest seal) ;!
    put_uint 4 ;! put_array 4 ;! put_uint 1 ;! put_uint (suite (package seal)) ;!
    put_bytes (root (package seal)) ;! put_uint (object_length (package seal)) ;!
    put_uint 5 ;! put_array (zlen (pages seal)) ;!
    put_each (fun commitment =>
      put_array 3 ;! put_uint (commitment_index commitment) ;! put_bytes (digest commitment) ;! put_array 0) (pages seal)).

(** ** Readers *)

Definition structural (error : Cbor.Error) : DecodeError :=
  match error with
  | Truncated => DTruncated
  | NonCanonical => DNonCanonical
  | WrongType => DWrongType
  | NotUtf8 => DInvalidUtf8
  | Malformed | Trailing => DInvalidCbor
  | TooLarge => DInvalidStructure
  end.

Definition R (A : Type) : Type := M Reader DecodeError A.

Definition read_uint : R Z := mmap_err structural reader_uint.
Definition read_int : R Z := mmap_err structural reader_int.

Definition collection_len (expected_major : Z) : R Z :=
  let! length := mmap_err structural (typed_head expected_major) in
  lift (ok_or (try_from u64_max length) DInvalidStructure).

Definition read_array_len : R Z := collection_len ARRAY.
Definition read_map_len : R Z := collection_len MAP.

Definition bounded_array_len (limit : Z) (error : DecodeError) : R Z :=
  let! length := read_array_len in
  if limit <? length then fail error else ret length.

Definition component_bound (error : Cbor.Error) : DecodeError :=
  match error with TooLarge => DComponentTooLarge | other => structural other end.

Definition read_bytes (limit : Z) : R (list Z) := mmap_err component_bound (reader_bytes limit).
Definition read_text (limit : Z) : R (list Z) := mmap_err component_bound (reader_text limit).
Definition read_fixed (n : Z) : R (list Z) := mmap_err structural (fixed_bytes n).

Definition exact_key (expected : Z) : R unit :=
  let! k := read_uint in if k =? expected then ret tt else fail DNonCanonical.

Definition read_finish : R unit := finished (fun _ => DInvalidStructure).

(** [Err(InvalidStructure)] unless the condition holds. *)
Definition ensure (b : bool) : R unit := if b then ret tt else fail DInvalidStructure.

Definition decode_object : R ObjectId :=
  let! n := read_array_len in
  ensure (n =? 3) ;!
  let! suite := read_uint in
  let! suite := lift (ok_or (try_from u16_max suite) DInvalidStructure) in
  let! root := read_fixed 32 in
  let! length := read_uint in
  ret (mkObjectId suite root length).

Definition decode_storage : R StorageRef :=
  let! n := read_array_len in
  if n =? 2 then
    let! tag := read_uint in
    ensure (tag =? 0) ;!
    let! object := decode_object in
    ret (Direct object)
  else if n =? 5 then
    let! tag := read_uint in
    ensure (tag =? 1) ;!
    let! pack := decode_object in
    let! offset := read_uint in
    let! length := read_uint in
    let! logical := decode_object in
    ret (Pack pack offset length logical)
  else fail DInvalidStructure.

Definition set_mode v m := mkFileMetadata (Some v) (mtime_seconds m) (mtime_nanoseconds m) (media_type m).
Definition set_seconds v m := mkFileMetadata (mode m) (Some v) (mtime_nanoseconds m) (media_type m).
Definition set_nanoseconds v m := mkFileMetadata (mode m) (mtime_seconds m) (Some v) (media_type m).
Definition set_media_type v m := mkFileMetadata (mode m) (mtime_seconds m) (mtime_nanoseconds m) (Some v).

(** The loop of [decode_metadata]. *)
Fixpoint metadata_loop (fields : nat) (previous_key : option Z) (m : FileMetadata) : R FileMetadata :=
  match fields with
  | O => ret m
  | S fields =>
      let! key := read_uint in
      if is_some_and (fun previous => key <=? previous) previous_key then fail DNonCanonical else
      let! m :=
        if key =? 0 then
          let! v := read_uint in
          let! v := lift (ok_or (try_from u16_max v) DInvalidStructure) in ret (set_mode v m)
        else if key =? 1 then let! v := read_int in ret (set_seconds v m)
        else if key =? 2 then
          let! v := read_uint in
          let! v := lift (ok_or (try_from u32_max v) DInvalidStructure) in ret (set_nanoseconds v m)
        else if key =? 3 then let! v := read_text 127 in ret (set_media_type v m)
        else fail DInvalidStructure in
      metadata_loop fields (Some key) m
  end.

Definition decode_metadata : R FileMetadata :=
  let! fields := read_map_len in
  ensure (fields <=? 4) ;!
  metadata_loop (Z.to_nat fields) None (mkFileMetadata None None None None).

(** The loop of [decode_entry] over the optional fields. *)
Fixpoint entry_loop (fields : nat) (previous_key : Z)
    (acc : option Z * option StorageRef * option FileMetadata) : R (option Z * option StorageRef * option FileMetadata) :=
  match fields with
  | O => ret acc
  | S fields =>
      let '(length, storage, metadata) := acc in
      let! key := read_uint in
      if key <=? previous_key then fail DNonCanonical else
      let! acc :=
        if key =? 2 then let! v := read_uint in ret (Some v, storage, metadata)
        else if key =? 3 then let! v := decode_storage in ret (length, Some v, metadata)
        else if key =? 4 then let! v := decode_metadata in ret (length, storage, Some v)
        else fail DInvalidStructure in
      entry_loop fields key acc
  end.

Definition read_component (profile : PathProfile) : R Component :=
  match profile with
  | Portable => let! text := read_text 255 in ret (Text text)
  | RawPosix => let! bytes := read_bytes 255 in ret (Bytes bytes)
  end.

Definition decode_entry (profile : PathProfile) : R ManifestEntry :=
  let! fields := read_map_len in
  ensure ((2 <=? fields) && (fields <=? 5)) ;!
  exact_key 0 ;!
  let! component_count := bounded_array_len MAX_PATH_COMPONENTS DTooManyComponents in
  ensure (negb (component_count =? 0)) ;!
  let! components := read_each (Z.to_nat component_count) (read_component profile) in
  let! path := lift (map_err DSemantic (path_new components profile)) in
  exact_key 1 ;!
  let! code := read_uint in
  let! kind := if code =? 0 then ret File else if code =? 1 then ret Directory else fail DInvalidStructure in
  let! optional_fields := entry_loop (Z.to_nat (fields - 2)) 1 (None, None, None) in
  let '(length, storage, metadata) := optional_fields in
  ret (mkManifestEntry path kind length storage metadata).

Definition decode_page (input : list Z) : result ManifestPage DecodeError :=
  let? _ := map_err (fun _ => DPageTooLarge) (validate_page_length (zlen input)) in
  fst ((let! n := read_map_len in
    ensure (n =? 7) ;!
    exact_key 0 ;!
    let! version := read_uint in
    ensure (version =? 0) ;!
    exact_key 1 ;!
    let! manifest_id := read_fixed 16 in
    exact_key 2 ;!
    let! index := read_uint in
    exact_key 3 ;!
    let! total := optional structural read_uint in
    exact_key 4 ;!
    let! previous_digest := read_fixed 32 in
    exact_key 5 ;!
    let! code := read_uint in
    let! profile := if code =? 0 then ret Portable else if code =? 1 then ret RawPosix else fail DInvalidStructure in
    exact_key 6 ;!
    let! entry_count := bounded_array_len MAX_ENTRIES_PER_PAGE DTooManyEntries in
    let! entries := read_each (Z.to_nat entry_count) (decode_entry profile) in
    read_finish ;!
    let page := mkManifestPage manifest_id index total previous_digest profile entries in
    let! canonical := lift (map_err DSemantic (encode_page page)) in
    if negb (bool_decide (canonical = input)) then fail DNonCanonical else ret page) (reader_new input)).

Definition read_commitment : R PageCommitment :=
  let! n := read_array_len in
  ensure (n =? 3) ;!
  let! index := read_uint in
  let! digest := read_fixed 32 in
  let! n := read_array_len in
  ensure (n =? 0) ;!
  ret (mkPageCommitment index digest).

Definition decode_seal (input : list Z) : result Seal DecodeError :=
  let? _ := map_err (fun _ => DPageTooLarge) (validate_page_length (zlen input)) in
  fst ((let! n := read_map_len in
    ensure (n =? 6) ;!
    exact_key 0 ;!
    let! version := read_uint in
    ensure (version =? 0) ;!
    exact_key 1 ;!
    let! manifest_id := read_fixed 16 in
    exact_key 2 ;!
    let! final_page_count := read_uint in
    exact_key 3 ;!
    let! final_page_digest := read_fixed 32 in
    exact_key 4 ;!
    let! n := read_array_len in
    ensure (n =? 4) ;!
    let! version := read_uint in
    ensure (version =? 1) ;!
    let! suite := read_uint in
    let! suite := lift (ok_or (try_from u16_max suite) DInvalidStructure) in
    let! root := read_fixed 32 in
    let! length := read_uint in
    exact_key 5 ;!
    let! page_count := bounded_array_len MAX_PAGE_COMMITMENTS DTooManyEntries in
    let! pages := read_each (Z.to_nat page_count) read_commitment in
    read_finish ;!
    let seal := mkSeal manifest_id final_page_count final_page_digest (mkObjectId suite root length) pages in
    lift (map_err DSemantic (validate_seal seal)) ;!
    let! canonical := lift (map_err DSemantic (encode_seal seal)) in
    if negb (bool_decide (canonical = input)) then fail DNonCanonical else ret seal) (reader_new input)).

End manifest.
