(* ===== verification/ManifestCodec.v ===== *)
(** * The manifest codec is canonical

    A page or a seal the encoder accepts is read back unchanged, what the decoder
    accepts is byte for byte what the encoder writes, and the length computed in
    advance is the length written, so the encoder's own comparison never fails.
    A valid seal always fits the page bound. *)

From S2P Require Import Prelude Cbor Exact Readers Text ManifestPath Manifest.

(** ** Counting and writing together *)

(** [counts m n]: [m] adds [n] to the running total, or reports that it passes [u64]. *)
Definition counts (m : M Z Error unit) (n : Z) : Prop :=
  0 <= n /\ forall t, 0 <= t <= u64_max ->
    (t + n <= u64_max -> m t = (Ok tt, t + n)) /\ (u64_max < t + n -> fst (m t) = Err PageTooLarge).

Definition measures (r : result Z Error) (n : Z) : Prop :=
  0 <= n /\ (n <= u64_max -> r = Ok n) /\ (u64_max < n -> r = Err PageTooLarge).

(** [tallies w m bs]: [w] writes [bs] and [m] counts them. *)
Definition tallies (w : W) (m : M Z Error unit) (bs : list Z) : Prop := emits w bs /\ counts m (zlen bs).

Definition tallied (w : W) (r : result Z Error) (bs : list Z) : Prop := emits w bs /\ measures r (zlen bs).

Lemma counts_add p : 0 <= p -> counts (add p) p.
Proof.
  intros Hp. split; [done|]. intros t Ht. unfold add, checked_add. split; intros H.
  - by rewrite (proj2 (Z.leb_le _ _)) by lia.
  - by rewrite (proj2 (Z.leb_gt _ _)) by lia.
Qed.

Lemma counts_bind m k a b : counts m a -> counts k b -> counts (m ;! k) (a + b).
Proof.
  intros [Ha Hm] [Hb Hk]. split; [lia|]. intros t Ht. destruct (Hm t Ht) as [H1 H2]. split; intros H.
  - rewrite (bind_ok _ _ _ _ _ (H1 ltac:(lia))). destruct (Hk (t + a)) as [H3 _]; [lia|]. rewrite H3 by lia. by rewrite Z.add_assoc.
  - destruct (Z.le_gt_cases (t + a) u64_max).
    + rewrite (bind_ok _ _ _ _ _ (H1 ltac:(lia))). apply Hk; lia.
    + unfold bind. specialize (H2 ltac:(lia)). destruct (m t) as [[]]; simpl in *; [done|]. by injection H2 as ->.
Qed.

Lemma counted_measures m n : counts m n -> measures (counted m) n.
Proof.
  intros [Hn Hm]. destruct (Hm 0) as [H1 H2]; [mlia|]. unfold counted. split_and!; [done| |]; intros H.
  - by rewrite H1 by lia.
  - specialize (H2 ltac:(lia)). destruct (m 0) as [[]]; simpl in *; [done|]. by injection H2 as ->.
Qed.

Lemma counts_lift r n : measures r n -> counts (let! v := lift r in add v) n.
Proof.
  intros (Hn & H1 & H2). split; [done|]. intros t Ht. unfold bind, lift. destruct (Z.le_gt_cases n u64_max) as [Hle|Hgt].
  - rewrite (H1 Hle). by apply counts_add.
  - rewrite (H2 Hgt). split; [lia|done].
Qed.

Lemma tallies_bind w m bs w' m' bs' : tallies w m bs -> tallies w' m' bs' -> tallies (w ;! w') (m ;! m') (bs ++ bs').
Proof. intros [] []. split; [by apply emits_bind|]. rewrite zlen_app. by apply counts_bind. Qed.

Lemma tallies_nil : tallies (ret tt) (ret tt) [].
Proof.
  split; [apply emits_ret|]. split; [done|]. intros t Ht. rewrite zlen_nil, Z.add_0_r. split; [done|lia].
Qed.

Lemma tallies_head (put_head : Z -> W) major v : (forall o, put_head v o = (Ok tt, head o major v)) ->
  tallies (put_head v) (add (head_len v)) (head [] major v).
Proof.
  intros Hw. split.
  - intros o. by rewrite Hw, head_app.
  - rewrite zlen_head. apply counts_add. unfold head_len. zcases; lia.
Qed.

Lemma tallies_uint v : tallies (put_uint v) (add (head_len v)) (uint [] v).
Proof. by apply tallies_head. Qed.
Lemma tallies_array v : tallies (put_array v) (add (head_len v)) (array [] v).
Proof. by apply tallies_head. Qed.
Lemma tallies_map v : tallies (put_map v) (add (head_len v)) (map_head [] v).
Proof. by apply tallies_head. Qed.

Lemma payload_len_nonneg n : 0 <= n -> 0 <= payload_len n.
Proof. unfold payload_len, saturating_add, head_len. zcases; mlia. Qed.

Lemma tallies_bytes bs : zlen bs <= i64_max -> tallies (put_bytes bs) (add (payload_len (zlen bs))) (bytes [] bs).
Proof.
  intros H. split; [apply emits_bytes|]. rewrite zlen_bytes by done. apply counts_add, payload_len_nonneg, zlen_nonneg.
Qed.
Lemma tallies_text bs : zlen bs <= i64_max -> tallies (put_text bs) (add (payload_len (zlen bs))) (text [] bs).
Proof.
  intros H. split; [apply emits_text|]. rewrite zlen_text by done. apply counts_add, payload_len_nonneg, zlen_nonneg.
Qed.

Lemma int_app o v : int o v = o ++ int [] v.
Proof. unfold int. zcases; apply head_app. Qed.

Lemma zlen_int v : zlen (int [] v) = int_len v.
Proof. unfold int, int_len. zcases; apply zlen_head. Qed.

Lemma tallies_int v : tallies (put_int v) (add (int_len v)) (int [] v).
Proof.
  split; [intros o; unfold put_int, put; by rewrite int_app|]. rewrite zlen_int. apply counts_add.
  rewrite <- zlen_int. apply zlen_nonneg.
Qed.

Lemma tallies_lift w r bs : tallied w r bs -> tallies w (let! n := lift r in add n) bs.
Proof. intros [H1 H2]. split; [done|by apply counts_lift]. Qed.

Lemma tallied_counted w m bs : tallies w m bs -> tallied w (counted m) bs.
Proof. intros [H1 H2]. split; [done|by apply counted_measures]. Qed.

Lemma tallies_some {A} (w : A -> W) (m : A -> M Z Error unit) bs o (P : A -> Prop) :
  (forall v, P v -> tallies (w v) (m v) (bs v)) -> match o with Some v => P v | None => True end ->
  tallies (put_some w o) (add_some m o) (some_bytes bs o).
Proof. intros H Ho. destruct o; [by apply H|apply tallies_nil]. Qed.

Lemma tallies_each {A} (w : A -> W) (m : A -> M Z Error unit) bs l (P : A -> Prop) :
  (forall v, P v -> tallies (w v) (m v) (bs v)) -> Forall P l ->
  tallies (put_each w l) (add_each m l) (concat (map bs l)).
Proof. intros H Hl. induction Hl; [apply tallies_nil|]. simpl. apply tallies_bind; [by apply H|done]. Qed.

(** ** Values of the Rust types *)

Definition is_object (o : ObjectId) : Prop :=
  0 <= suite o <= u16_max /\ is_bytes 32 (root o) /\ is_u64 (object_length o).

Definition is_storage (s : StorageRef) : Prop :=
  match s with
  | Direct o => is_object o
  | Pack p offset length l => is_object p /\ is_u64 offset /\ is_u64 length /\ is_object l
  end.

Definition is_media_type (bs : list Z) : Prop := byte_list bs /\ utf8_valid bs = true /\ zlen bs <= i64_max.

Definition is_metadata (m : FileMetadata) : Prop :=
  option_is (fun v => 0 <= v <= u16_max) (mode m) /\ option_is (fun v => i64_min <= v <= i64_max) (mtime_seconds m) /\
  option_is is_u32 (mtime_nanoseconds m) /\ option_is is_media_type (media_type m).

Section codec.
Context `{U : Unicode}.

Definition is_entry (e : ManifestEntry) : Prop :=
  is_path (path e) /\ option_is is_u64 (entry_length e) /\ option_is is_storage (storage e) /\ option_is is_metadata (metadata e).

Definition is_page (p : ManifestPage) : Prop :=
  is_bytes 16 (manifest_id p) /\ is_u64 (index p) /\ option_is is_u64 (total p) /\ is_bytes 32 (previous_digest p) /\
  Forall is_entry (entries p).

Definition is_commitment (c : PageCommitment) : Prop := is_u64 (commitment_index c) /\ is_bytes 32 (digest c).

Definition is_seal (s : Seal) : Prop :=
  is_bytes 16 (seal_manifest_id s) /\ is_u64 (final_page_count s) /\ is_bytes 32 (final_page_digest s) /\
  is_object (package s) /\ Forall is_commitment (pages s).

(** ** The bytes of each value *)

Definition object_bytes (o : ObjectId) : list Z :=
  array [] 3 ++ uint [] (suite o) ++ bytes [] (root o) ++ uint [] (object_length o).

Definition storage_bytes (s : StorageRef) : list Z :=
  match s with
  | Direct o => array [] 2 ++ uint [] 0 ++ object_bytes o
  | Pack p offset length l =>
      array [] 5 ++ uint [] 1 ++ object_bytes p ++ uint [] offset ++ uint [] length ++ object_bytes l
  end.

Definition metadata_bytes (m : FileMetadata) : list Z :=
  map_head [] (metadata_fields m) ++
  some_bytes (fun v => uint [] 0 ++ uint [] v) (mode m) ++
  some_bytes (fun v => uint [] 1 ++ int [] v) (mtime_seconds m) ++
  some_bytes (fun v => uint [] 2 ++ uint [] v) (mtime_nanoseconds m) ++
  some_bytes (fun v => uint [] 3 ++ text [] v) (media_type m).

Definition component_bytes (c : Component) : list Z :=
  match c with Text t => text [] t | Bytes b => bytes [] b end.

Definition entry_bytes (e : ManifestEntry) : list Z :=
  map_head [] (entry_fields e) ++
  uint [] 0 ++ array [] (zlen (components (path e))) ++ concat (map component_bytes (components (path e))) ++
  uint [] 1 ++ uint [] (kind_code (kind e)) ++
  some_bytes (fun v => uint [] 2 ++ uint [] v) (entry_length e) ++
  some_bytes (fun v => uint [] 3 ++ storage_bytes v) (storage e) ++
  some_bytes (fun v => uint [] 4 ++ metadata_bytes v) (metadata e).

Definition page_bytes (p : ManifestPage) : list Z :=
  map_head [] 7 ++ uint [] 0 ++ uint [] 0 ++ uint [] 1 ++ bytes [] (manifest_id p) ++
  uint [] 2 ++ uint [] (index p) ++ uint [] 3 ++ optional_bytes (uint []) (total p) ++
  uint [] 4 ++ bytes [] (previous_digest p) ++ uint [] 5 ++ uint [] (profile_code (profile p)) ++
  uint [] 6 ++ array [] (zlen (entries p)) ++ concat (map entry_bytes (entries p)).

Definition commitment_bytes (c : PageCommitment) : list Z :=
  array [] 3 ++ uint [] (commitment_index c) ++ bytes [] (digest c) ++ array [] 0.

Definition seal_bytes (s : Seal) : list Z :=
  map_head [] 6 ++ uint [] 0 ++ uint [] 0 ++ uint [] 1 ++ bytes [] (seal_manifest_id s) ++
  uint [] 2 ++ uint [] (final_page_count s) ++ uint [] 3 ++ bytes [] (final_page_digest s) ++
  uint [] 4 ++ array [] 4 ++ uint [] 1 ++ uint [] (suite (package s)) ++ bytes [] (root (package s)) ++
  uint [] (object_length (package s)) ++ uint [] 5 ++ array [] (zlen (pages s)) ++
  concat (map commitment_bytes (pages s)).

(** Walks a writer and its count side by side. *)
Ltac tally :=
  repeat first
    [ apply tallies_bind
    | apply tallies_uint | apply tallies_array | apply tallies_map | apply tallies_int
    | apply tallies_bytes; solve [auto]
    | apply tallies_text; solve [auto]
    | apply tallies_lift; solve [auto] ].

Lemma tallied_object o : is_object o -> tallied (encode_object o) (object_encoded_len o) (object_bytes o).
Proof.
  intros (_ & Hr & _). apply tallied_counted. apply (is_bytes_small 32) in Hr; [|done]. unfold object_bytes. tally.
Qed.

Lemma tallied_storage s : is_storage s -> tallied (encode_storage s) (storage_encoded_len s) (storage_bytes s).
Proof.
  destruct s as [o|p offset length l]; cbn [is_storage storage_bytes].
  - intros Ho%tallied_object. apply tallied_counted. tally.
  - intros (Hp%tallied_object & _ & _ & Hl%tallied_object). apply tallied_counted. tally.
Qed.

Lemma tallied_metadata m : is_metadata m -> tallied (encode_metadata m) (metadata_encoded_len m) (metadata_bytes m).
Proof.
  intros (H1 & H2 & H3 & H4). apply tallied_counted. unfold metadata_bytes. apply tallies_bind; [tally|].
  repeat apply tallies_bind; eapply tallies_some; try eassumption; intros v Hv; cbn beta in *; tally.
  destruct Hv as (_ & _ & ?). tally.
Qed.

Lemma component_small p c : is_path p -> c ∈ components p ->
  match c with Text t => zlen t <= 255 | Bytes b => zlen b <= 255 end.
Proof.
  intros [Hc Hv] Hin. unfold validate_components in Hv. destruct (_ || _); [done|]. clear Hc.
  induction (components p) as [|d l IH]; [by apply not_elem_of_nil in Hin|].
  apply validate_each_cons in Hv as [Hd Hv]. apply elem_of_cons in Hin as [->|Hin]; [|by apply IH].
  destruct (path_profile p), d as [t|b]; try done; [apply validate_portable_inv in Hd|apply valid_raw_inv in Hd]; naive_solver.
Qed.

Lemma tallied_entry e : is_entry e -> tallied (encode_entry e) (entry_encoded_len e) (entry_bytes e).
Proof.
  intros (Hp & Hl & Hs & Hm). apply tallied_counted. unfold entry_bytes. do 3 (apply tallies_bind; [tally|]).
  apply tallies_bind.
  { eapply (tallies_each _ _ _ _ (fun c => c ∈ components (path e))); [|apply Forall_forall; auto].
    intros c Hc. pose proof (component_small _ _ Hp Hc) as Hz. destruct c as [t|b]; simpl; unfold put_component.
    - apply tallies_text. mlia.
    - apply tallies_bytes. mlia. }
  do 2 (apply tallies_bind; [tally|]). repeat apply tallies_bind; eapply tallies_some; try eassumption; intros v Hv; cbn beta in *; tally.
  - apply tallies_lift, tallied_storage, Hv.
  - apply tallies_lift, tallied_metadata, Hv.
Qed.

(** Once validated, a value encodes to its bytes unless they pass the page bound. *)
Lemma written_of w r bs : tallied w r bs ->
  (let? expected := (let? total := r in let? _ := validate_page_length total in Ok total) in written expected w) =
  if MAX_PAGE_BYTES <? zlen bs then Err PageTooLarge else Ok bs.
Proof.
  intros (Hw & _ & H1 & H2). destruct (Z.le_gt_cases (zlen bs) u64_max) as [Hle|Hgt].
  - rewrite (H1 Hle). unfold validate_page_length. destruct (Z.ltb_spec MAX_PAGE_BYTES (zlen bs)); [done|].
    unfold written. by rewrite (Hw []), app_nil_l, Z.eqb_refl.
  - rewrite (H2 Hgt), (proj2 (Z.ltb_lt _ _)); [done|]. unfold MAX_PAGE_BYTES. mlia.
Qed.

Lemma encode_page_ok p : is_page p ->
  encode_page p =
    (let? _ := validate_entry_count (zlen (entries p)) in
     let? _ := validate_entries (entries p) (profile p) in
     if MAX_PAGE_BYTES <? zlen (page_bytes p) then Err PageTooLarge else Ok (page_bytes p)).
Proof.
  intros (Hi & _ & Ht & Hd & He). unfold encode_page, page_encoded_len.
  destruct (validate_entry_count _) as [[]|]; [|done]. destruct (validate_entries _ _); [|done].
  apply written_of, tallied_counted. unfold page_bytes.
  apply (is_bytes_small 16) in Hi; [|done]. apply (is_bytes_small 32) in Hd; [|done].
  do 8 (apply tallies_bind; [tally|]). apply tallies_bind.
  { destruct (total p) as [t|]; [apply tallies_uint|]. split; [apply emits_extend|by apply counts_add]. }
  do 6 (apply tallies_bind; [tally|]). eapply tallies_each; [|exact He].
  intros e Hent. apply tallies_lift, tallied_entry, Hent.
Qed.

Lemma encode_seal_ok s : is_seal s ->
  encode_seal s =
    (let? _ := validate_seal s in
     if MAX_PAGE_BYTES <? zlen (seal_bytes s) then Err PageTooLarge else Ok (seal_bytes s)).
Proof.
  intros (Hi & _ & Hf & (_ & Hr & _) & Hp). unfold encode_seal, seal_encoded_len.
  destruct (validate_seal s) as [[]|]; [|done]. apply written_of, tallied_counted. unfold seal_bytes.
  apply (is_bytes_small 16) in Hi; [|done]. apply (is_bytes_small 32) in Hf; [|done]. apply (is_bytes_small 32) in Hr; [|done].
  do 17 (apply tallies_bind; [tally|]). eapply tallies_each; [|exact Hp].
  intros c [_ Hc%(is_bytes_small 32)]; [|done]. unfold commitment_bytes. tally.
Qed.

(** ** Reading what was written *)

Lemma reads_len major v : 0 <= major <= 7 -> is_u64 v -> reads (collection_len major) (head [] major v) v.
Proof.
  intros Hm Hv. eapply reads_bind_nil; [by apply reads_head_of|].
  unfold try_from. rewrite (proj2 (Z.leb_le _ _)) by mlia. apply reads_ret.
Qed.

Lemma reads_array v : is_u64 v -> reads read_array_len (array [] v) v.
Proof. apply reads_len. unfold ARRAY. lia. Qed.
Lemma reads_map v : is_u64 v -> reads read_map_len (map_head [] v) v.
Proof. apply reads_len. unfold MAP. lia. Qed.

Lemma reads_ensure b : b = true -> reads (ensure b) [] tt.
Proof. intros ->. apply reads_ret. Qed.

Lemma reads_key n : is_u64 n -> reads (exact_key n) (uint [] n) tt.
Proof. intros Hn. eapply reads_bind_nil; [by apply reads_uint|]. rewrite Z.eqb_refl. apply reads_ret. Qed.

Lemma reads_bounded limit e v : is_u64 v -> v <= limit -> reads (bounded_array_len limit e) (array [] v) v.
Proof.
  intros Hv Hl. eapply reads_bind_nil; [by apply reads_array|]. rewrite (proj2 (Z.ltb_ge _ _)) by done. apply reads_ret.
Qed.

Ltac read_side := first [assumption | reflexivity | mlia | done].
Ltac read_item :=
  first [ apply reads_uint | apply reads_key | apply reads_array | apply reads_map | apply reads_int
        | apply reads_id | apply reads_text | apply reads_bytes | apply reads_bounded ]; read_side.
(** Walks a decoder along the bytes of the value it should return. *)
Ltac read_step :=
  first [ apply reads_ret
        | eapply reads_silent; [apply reads_ensure; read_side|]
        | apply reads_try_from; [read_side|]
        | eapply reads_bind; [solve [read_item | eauto]|]
        | eapply reads_bind_nil; [solve [read_item | eauto]|] ]; cbv beta.

Lemma reads_object o : is_object o -> reads decode_object (object_bytes o) o.
Proof.
  destruct o as [s r l]. intros (Hs & Hr & Hl). cbn [suite root object_length] in *. unfold decode_object, object_bytes.
  assert (is_u64 s) by mlia. cbn [suite root object_length]. repeat read_step.
Qed.

Lemma reads_storage s : is_storage s -> reads decode_storage (storage_bytes s) s.
Proof.
  destruct s as [o|p offset length l]; cbn [is_storage storage_bytes]; unfold decode_storage.
  - intros Ho%reads_object. read_step. change (2 =? 2) with true. cbv iota. repeat read_step.
  - intros (Hp%reads_object & Ho & Hl & Hg%reads_object). read_step. change (5 =? 2) with false. change (5 =? 5) with true.
    cbv iota. repeat read_step.
Qed.

(** One round of the loop over a metadata map, for each key. *)
Section metadata_rounds.
Context (fields : nat) (previous : option Z) (m m' : FileMetadata) (rest : list Z).

Ltac round := cbn [metadata_loop]; read_step;
  match goal with H : is_some_and _ _ = false |- _ => rewrite H; cbv iota end; cbn [Z.eqb];
  eapply reads_bind; [|eassumption]; repeat read_step.

Lemma round_mode v : 0 <= v <= u16_max -> is_some_and (fun p => 0 <=? p) previous = false ->
  reads (metadata_loop fields (Some 0) (set_mode v m)) rest m' ->
  reads (metadata_loop (S fields) previous m) (uint [] 0 ++ uint [] v ++ rest) m'.
Proof. intros Hv Hp Hk. assert (is_u64 v) by mlia. round. Qed.

Lemma round_seconds v : i64_min <= v <= i64_max -> is_some_and (fun p => 1 <=? p) previous = false ->
  reads (metadata_loop fields (Some 1) (set_seconds v m)) rest m' ->
  reads (metadata_loop (S fields) previous m) (uint [] 1 ++ int [] v ++ rest) m'.
Proof. intros Hv Hp Hk. round. Qed.

Lemma round_nanoseconds v : is_u32 v -> is_some_and (fun p => 2 <=? p) previous = false ->
  reads (metadata_loop fields (Some 2) (set_nanoseconds v m)) rest m' ->
  reads (metadata_loop (S fields) previous m) (uint [] 2 ++ uint [] v ++ rest) m'.
Proof. intros Hv Hp Hk. assert (is_u64 v) by mlia. round. Qed.

Lemma round_media_type v : byte_list v -> utf8_valid v = true -> zlen v <= 127 -> is_some_and (fun p => 3 <=? p) previous = false ->
  reads (metadata_loop fields (Some 3) (set_media_type v m)) rest m' ->
  reads (metadata_loop (S fields) previous m) (uint [] 3 ++ text [] v ++ rest) m'.
Proof. intros Hv Hu Hz Hp Hk. round. Qed.
End metadata_rounds.

Lemma reads_metadata m : is_metadata m -> valid_metadata m = true -> reads decode_metadata (metadata_bytes m) m.
Proof.
  destruct m as [mo se na me]. intros (H1 & H2 & H3 & H4) Hv. unfold valid_metadata in Hv.
  cbn [mode mtime_seconds mtime_nanoseconds media_type] in *.
  assert (option_is (fun bs => byte_list bs /\ utf8_valid bs = true /\ zlen bs <= 127) me) as H5.
  { destruct me as [bs|]; [|done]. cbn [option_is is_none_or] in *. destruct H4 as (? & ? & _).
    rewrite !andb_true_iff, Z.leb_le in Hv. naive_solver. }
  clear Hv H4. rewrite <- (app_nil_r (metadata_bytes _)). unfold decode_metadata, metadata_bytes. rewrite <- !app_assoc.
  destruct mo as [mo|], se as [se|], na as [na|], me as [me|];
    cbn [option_is some_bytes mode mtime_seconds mtime_nanoseconds media_type] in *; destruct_and?;
    unfold metadata_fields, counted_fields; cbn [foldl is_some mode mtime_seconds mtime_nanoseconds media_type];
    rewrite <- ?app_assoc; cbn [app]; read_step; read_step;
    match goal with |- context [Z.to_nat ?n] => let v := eval vm_compute in (Z.to_nat n) in change (Z.to_nat n) with v end;
    repeat first [apply round_mode; [read_side..|] | apply round_seconds; [read_side..|] | apply round_nanoseconds; [read_side..|]
                 | apply round_media_type; [read_side..|]]; apply reads_ret.
Qed.

Section entry_rounds.
Context (fields : nat) (previous : Z) (l : option Z) (st : option StorageRef) (me : option FileMetadata).
Context (acc' : option Z * option StorageRef * option FileMetadata) (rest : list Z).

Ltac round := cbn [entry_loop]; read_step;
  rewrite (proj2 (Z.leb_gt _ _)) by lia; cbv iota; cbn [Z.eqb];
  eapply reads_bind; [|eassumption]; repeat read_step.

Lemma round_length v : is_u64 v -> previous < 2 ->
  reads (entry_loop fields 2 (Some v, st, me)) rest acc' ->
  reads (entry_loop (S fields) previous (l, st, me)) (uint [] 2 ++ uint [] v ++ rest) acc'.
Proof. intros Hv Hp Hk. round. Qed.

Lemma round_storage v : is_storage v -> previous < 3 ->
  reads (entry_loop fields 3 (l, Some v, me)) rest acc' ->
  reads (entry_loop (S fields) previous (l, st, me)) (uint [] 3 ++ storage_bytes v ++ rest) acc'.
Proof. intros Hv%reads_storage Hp Hk. round. Qed.

Lemma round_metadata v : is_metadata v -> valid_metadata v = true -> previous < 4 ->
  reads (entry_loop fields 4 (l, st, Some v)) rest acc' ->
  reads (entry_loop (S fields) previous (l, st, me)) (uint [] 4 ++ metadata_bytes v ++ rest) acc'.
Proof. intros Hv Hm Hp Hk. apply (reads_metadata _ Hv) in Hm. round. Qed.
End entry_rounds.

Lemma reads_optional_fields (l : option Z) st me : option_is is_u64 l -> option_is is_storage st -> option_is is_metadata me ->
  option_is (fun m => valid_metadata m = true) me ->
  reads (entry_loop (Z.to_nat (counted_fields 2 [is_some l; is_some st; is_some me] - 2)) 1 (None, None, None))
    (some_bytes (fun v => uint [] 2 ++ uint [] v) l ++ some_bytes (fun v => uint [] 3 ++ storage_bytes v) st ++
     some_bytes (fun v => uint [] 4 ++ metadata_bytes v) me) (l, st, me).
Proof.
  intros H1 H2 H3 H4. rewrite <- (app_nil_r (some_bytes _ me)).
  destruct l as [l|], st as [st|], me as [me|]; cbn [option_is some_bytes] in *;
    unfold counted_fields; cbn [foldl is_some]; rewrite <- ?app_assoc; cbn [app];
    match goal with |- context [Z.to_nat ?n] => let v := eval vm_compute in (Z.to_nat n) in change (Z.to_nat n) with v end;
    repeat first [apply round_length; [read_side..|] | apply round_storage; [read_side..|]
                 | apply round_metadata; [read_side..|]]; apply reads_ret.
Qed.

Lemma reads_component p c : is_path p -> c ∈ components p ->
  reads (read_component (path_profile p)) (component_bytes c) c.
Proof.
  intros Hp Hc. pose proof (component_small _ _ Hp Hc) as Hz. destruct Hp as [Hf Hv].
  pose proof (component_key_reached _ _ Hv Hc) as Hk. rewrite Forall_forall in Hf. specialize (Hf _ Hc).
  unfold read_component. destruct (path_profile p), c as [t|b]; try done; cbn [is_component component_bytes] in *.
  - destruct Hf. repeat read_step.
  - repeat read_step.
Qed.

Lemma path_count p : is_path p -> 0 < zlen (components p) <= MAX_PATH_COMPONENTS.
Proof.
  intros [_ Hv]. unfold validate_components in Hv. destruct (bool_decide _ || _) eqn:Hb; [done|].
  apply orb_false_iff in Hb as [Hb Hm]. apply bool_decide_eq_false in Hb. apply Z.ltb_ge in Hm. split; [|done].
  destruct (components p); [done|]. rewrite zlen_cons. pose proof (zlen_nonneg l). lia.
Qed.

Lemma reads_entry e : is_entry e -> validate_entry e = Ok tt ->
  reads (decode_entry (path_profile (path e))) (entry_bytes e) e.
Proof.
  intros (Hp & Hl & Hs & Hm) Hv. pose proof (path_count _ Hp) as Hn. unfold MAX_PATH_COMPONENTS in Hn.
  assert (option_is (fun m => valid_metadata m = true) (metadata e)) as Hmv.
  { unfold validate_entry in Hv. destruct (kind e).
    - destruct (entry_length e), (storage e); try done. simpl in Hv. destruct (negb _); [done|]. simpl in Hv.
      destruct (metadata e) as [m|]; [|done]. simpl in *. by destruct (valid_metadata m).
    - by destruct (entry_length e), (storage e), (metadata e). }
  unfold decode_entry, entry_bytes.
  assert (2 <= entry_fields e <= 5) as Hf by (unfold entry_fields, counted_fields; simpl; repeat case_match; lia).
  read_step. eapply reads_silent; [apply reads_ensure; rewrite andb_true_iff, !Z.leb_le; lia|]. read_step.
  eapply reads_bind; [apply reads_bounded; [mlia|unfold MAX_PATH_COMPONENTS; lia]|].
  eapply reads_silent; [apply reads_ensure; rewrite (proj2 (Z.eqb_neq _ _)) by lia; done|].
  eapply reads_bind.
  { unfold zlen. rewrite Nat2Z.id. apply reads_each, Forall_forall. intros c Hc. by apply reads_component. }
  eapply reads_silent.
  { unfold path_new. destruct Hp as [_ Hpv]. rewrite Hpv. apply reads_ret. }
  read_step. eapply reads_bind; [apply reads_uint; destruct (kind e); read_side|].
  eapply (reads_silent _ _ _ (kind e)); [destruct (kind e); apply reads_ret|].
  eapply reads_bind_nil; [by apply reads_optional_fields|].
  destruct e as [[prof comps] k len st me]. apply reads_ret.
Qed.

(** ** Whole inputs *)

Ltac whole_step :=
  first [ eapply reads_all_silent; [apply reads_ensure; read_side|]
        | eapply reads_all_bind; [solve [read_item | eauto]|] ]; cbv beta.

Lemma validate_entries_inv prof entries keys unique file ks :
  validate_entries_from prof keys unique file entries = Ok ks ->
  Forall (fun e => validate_entry e = Ok tt /\ path_profile (path e) = prof) entries.
Proof.
  revert keys unique file. induction entries as [|e l IH]; intros keys unique file H; [constructor|]. simpl in H.
  destruct (validate_entry e) as [[]|] eqn:Hv; [|done].
  destruct (bool_decide (path_profile (path e) = prof)) eqn:Hp; [|done]. apply bool_decide_eq_true in Hp. simpl in H.
  destruct (canonical_path_key _ _) as [key|]; [|done]. do 3 (case_match; [done|]). constructor; [done|]. by eapply IH.
Qed.

Lemma decode_encoded_page p : is_page p -> validate_entry_count (zlen (entries p)) = Ok tt ->
  is_ok (validate_entries (entries p) (profile p)) = true -> zlen (page_bytes p) <= MAX_PAGE_BYTES ->
  decode_page (page_bytes p) = Ok p.
Proof.
  intros Hp Hc Hv Hl. pose proof (encode_page_ok p Hp) as He. rewrite Hc in He.
  destruct (validate_entries _ _) as [keys|] eqn:Hk; [|done]. rewrite (proj2 (Z.ltb_ge _ _)) in He by done.
  apply validate_entries_inv in Hk. unfold decode_page. unfold validate_page_length.
  rewrite (proj2 (Z.ltb_ge _ _)) by done. cbn [map_err].
  destruct Hp as (Hi & Hx & Ht & Hd & Hes). unfold validate_entry_count in Hc.
  destruct (Z.ltb_spec MAX_ENTRIES_PER_PAGE (zlen (entries p))) as [|Hn]; [done|]. pose proof (zlen_nonneg (entries p)).
  apply reads_all_run; [|unfold MAX_PAGE_BYTES in Hl; mlia]. pose proof (reads_optional_uint structural (total p) Ht) as Htot.
  unfold page_bytes at 2. do 14 whole_step.
  eapply reads_all_bind; [apply reads_uint; destruct (profile p); read_side|].
  eapply (reads_all_silent _ _ _ (profile p)); [destruct (profile p); apply reads_ret|]. whole_step.
  eapply reads_all_bind; [apply reads_bounded; [unfold MAX_ENTRIES_PER_PAGE in *; mlia|done]|].
  eapply reads_all_nil.
  { unfold zlen. rewrite Nat2Z.id. apply reads_each, Forall_forall. intros e Hin. rewrite Forall_forall in Hes, Hk.
    destruct (Hk e Hin) as [Hev <-]. by apply reads_entry; [apply Hes|]. }
  apply reads_all_finish. cbv zeta. replace (mkManifestPage _ _ _ _ _ _) with p by (by destruct p).
  rewrite He. eapply reads_all_silent; [apply reads_ret|]. rewrite bool_decide_eq_true_2 by done. by intros pre _.
Qed.

Lemma decode_encoded_seal s : is_seal s -> validate_seal s = Ok tt -> zlen (seal_bytes s) <= MAX_PAGE_BYTES ->
  decode_seal (seal_bytes s) = Ok s.
Proof.
  intros Hs Hv Hl. pose proof (encode_seal_ok s Hs) as He. rewrite Hv, (proj2 (Z.ltb_ge _ _)) in He by done.
  unfold decode_seal, validate_page_length. rewrite (proj2 (Z.ltb_ge _ _)) by done. cbn [map_err].
  destruct Hs as (Hi & Hc & Hf & (Hsu & Hr & Ho) & Hp).
  assert (zlen (pages s) <= MAX_PAGE_COMMITMENTS) as Hn.
  { unfold validate_seal in Hv. do 2 (case_match; [done|]). case_match eqn:Hb; [done|]. by apply Z.ltb_ge in Hb. }
  assert (is_u64 (zlen (pages s))) by (pose proof (zlen_nonneg (pages s)); assert (MAX_PAGE_COMMITMENTS <= 26883) by done; mlia).
  assert (is_u64 (suite (package s))) by mlia.
  apply reads_all_run; [|unfold MAX_PAGE_BYTES in Hl; mlia].
  unfold seal_bytes at 2. do 17 whole_step.
  eapply (reads_all_silent _ _ _ (suite (package s))).
  { unfold try_from. rewrite (proj2 (Z.leb_le _ _)) by mlia. apply reads_ret. }
  do 3 whole_step. eapply reads_all_bind; [by apply reads_bounded|]. eapply reads_all_nil.
  { unfold zlen. rewrite Nat2Z.id. apply reads_each. eapply Forall_impl; [exact Hp|].
    intros [ix d] [Hx Hd]. cbn [commitment_index digest] in *. unfold read_commitment, commitment_bytes. repeat read_step. }
  apply reads_all_finish. cbv zeta. replace (mkSeal _ _ _ _ _) with s by (by destruct s as [? ? ? [] ?]).
  rewrite Hv, He. eapply reads_all_silent; [apply reads_ret|]. eapply reads_all_silent; [apply reads_ret|].
  rewrite bool_decide_eq_true_2 by done. by intros pre _.
Qed.

(** ** What a decoder returns is well typed *)

Lemma yields_len major : 0 <= major <= 7 -> yields (collection_len major) is_u64.
Proof.
  intros H. eapply yields_bind; [by apply yields_head_of|]. intros v Hv.
  eapply yields_weaken; [apply yields_lift|]. intros a [-> _]%try_from_ok. done.
Qed.
Lemma yields_ensure b : yields (ensure b) (fun _ => b = true).
Proof. unfold ensure. destruct b; [by apply yields_ret|apply yields_fail]. Qed.
Lemma yields_key n : yields (exact_key n) (fun _ => True).
Proof. eapply yields_bind; [apply yields_uint|]. intros k _. destruct (k =? n); [by apply yields_ret|apply yields_fail]. Qed.
Lemma yields_bounded limit e : yields (bounded_array_len limit e) is_u64.
Proof.
  eapply yields_bind; [apply yields_len; unfold ARRAY; lia|]. intros n Hn. destruct (limit <? n); [apply yields_fail|by apply yields_ret].
Qed.
Ltac yield_item :=
  first [ apply yields_uint | apply yields_key | apply yields_ensure | apply yields_finished | apply yields_int
        | apply yields_bounded
        | apply yields_len; unfold ARRAY, MAP; lia
        | apply yields_fixed; mlia | apply yields_text; mlia | apply yields_bytes; mlia
        | apply yields_optional, yields_uint
        | apply yields_try_from; mlia | apply yields_lift ].
Ltac yield_step :=
  first [ apply yields_ret | apply yields_fail
        | eapply yields_bind; [solve [yield_item | eauto]|intros ? ?; cbv beta in *]
        | apply yields_if ].

Lemma yields_object : yields decode_object is_object.
Proof. unfold decode_object. repeat yield_step. done. Qed.

Lemma yields_storage : yields decode_storage is_storage.
Proof. pose proof yields_object. unfold decode_storage. repeat yield_step; done. Qed.

Lemma yields_metadata_loop n previous m : is_metadata m -> yields (metadata_loop n previous m) is_metadata.
Proof.
  revert previous m. induction n as [|n IH]; intros previous m Hm; [by apply yields_ret|]. cbn [metadata_loop].
  yield_step. apply yields_if; [apply yields_fail|]. destruct Hm as (H1 & H2 & H3 & H4).
  eapply (yields_bind _ _ is_metadata); [|intros m' Hm'; by apply IH].
  repeat yield_step; split_and!; cbn [set_mode set_seconds set_nanoseconds set_media_type mode mtime_seconds mtime_nanoseconds
    media_type option_is]; try done. destruct_and?. split_and!; [done..|mlia].
Qed.

Lemma yields_metadata : yields decode_metadata is_metadata.
Proof. unfold decode_metadata. do 2 yield_step. by apply yields_metadata_loop. Qed.

Lemma yields_entry_loop n previous acc :
  let ok '(l, s, m) := option_is is_u64 l /\ option_is is_storage s /\ option_is is_metadata m in
  ok acc -> yields (entry_loop n previous acc) ok.
Proof.
  intros ok. revert previous acc. induction n as [|n IH]; intros previous acc Hacc; [by apply yields_ret|].
  destruct acc as [[l s] m]. cbn [entry_loop]. yield_step. apply yields_if; [apply yields_fail|].
  pose proof yields_storage. pose proof yields_metadata. destruct Hacc as (? & ? & ?).
  eapply (yields_bind _ _ ok); [|intros acc Ha; by apply IH]. repeat yield_step; done.
Qed.

Lemma yields_components prof : yields (read_component prof) is_component.
Proof. destruct prof; unfold read_component; repeat yield_step; simpl; naive_solver. Qed.

Lemma yields_entry prof : yields (decode_entry prof) is_entry.
Proof.
  unfold decode_entry. do 5 yield_step.
  eapply yields_bind; [apply yields_each, yields_components|]. intros comps Hc. yield_step. yield_step. yield_step.
  eapply (yields_bind _ _ (fun _ => True)); [repeat yield_step; done|]. intros k _.
  eapply yields_bind; [by apply yields_entry_loop|]. intros [[l s] m] (? & ? & ?). apply yields_ret.
  split_and!; try done. simpl. unfold map_err, path_new in *.
  destruct (validate_components comps prof) as [[]|] eqn:Hv; [|done]. simplify_eq. done.
Qed.

(** The comparison with the re-encoded value. *)
Lemma yields_canonical {A} (x : result (list Z) Error) input (v : A) (Q : A -> Prop) : (x = Ok input -> Q v) ->
  yields (let! canonical := lift (map_err DSemantic x) in
          if negb (bool_decide (canonical = input)) then fail DNonCanonical else ret v) Q.
Proof.
  intros HQ. eapply yields_bind; [apply yields_lift|]. intros c Hc. destruct x as [y|]; [|done]. injection Hc as ->.
  destruct (bool_decide (c = input)) eqn:Hd; [|apply yields_fail]. apply bool_decide_eq_true in Hd as ->.
  by apply yields_ret, HQ.
Qed.

Lemma decode_page_typed input p : byte_list input -> zlen input <= i64_max -> decode_page input = Ok p ->
  is_page p /\ encode_page p = Ok input.
Proof.
  intros Hb Hl. unfold decode_page. destruct (map_err _ _); [|done].
  refine (yields_run _ (fun p => is_page p /\ encode_page p = Ok input) _ _ _ Hb Hl).
  do 15 yield_step. eapply (yields_bind _ _ (fun _ => True)); [repeat yield_step; done|]. intros prof _. do 2 yield_step.
  eapply yields_bind; [apply yields_each, yields_entry|]. intros es Hes. yield_step. cbv zeta.
  apply yields_canonical. intros He. split; [|done]. done.
Qed.

Lemma decode_seal_typed input s : byte_list input -> zlen input <= i64_max -> decode_seal input = Ok s ->
  is_seal s /\ encode_seal s = Ok input.
Proof.
  intros Hb Hl. unfold decode_seal. destruct (map_err _ _); [|done].
  refine (yields_run _ (fun s => is_seal s /\ encode_seal s = Ok input) _ _ _ Hb Hl).
  do 22 yield_step.
  eapply yields_bind.
  { apply (yields_each _ is_commitment). unfold read_commitment. repeat yield_step. done. }
  intros ps Hps. do 2 yield_step. apply yields_canonical. intros He. split; [|done]. done.
Qed.

Lemma encoded_page_bytes p out : is_page p -> encode_page p = Ok out -> out = page_bytes p /\ decode_page out = Ok p.
Proof.
  intros Hp He. pose proof (encode_page_ok p Hp) as Hok. rewrite He in Hok.
  destruct (validate_entry_count _) as [[]|] eqn:Hc; [|done]. destruct (validate_entries _ _) eqn:Hv; [|done].
  destruct (Z.ltb_spec MAX_PAGE_BYTES (zlen (page_bytes p))); [done|]. injection Hok as ->. split; [done|].
  apply decode_encoded_page; try done. by rewrite Hv.
Qed.

(** C32: Manifest pages are canonical.  A page the decoder accepts is well typed and is byte for byte what
    the encoder writes for it; every page the encoder accepts decodes to itself; the length computed before
    writing is the length written, so encoding fails only on an invalid entry list or past the page bound. *)
Theorem page_codec_exact :
  (forall input p, byte_list input -> zlen input <= i64_max -> decode_page input = Ok p ->
     is_page p /\ encode_page p = Ok input) /\
  (forall p out, is_page p -> encode_page p = Ok out -> decode_page out = Ok p /\ zlen out <= MAX_PAGE_BYTES) /\
  (forall p, is_page p -> is_ok (validate_entries (entries p) (profile p)) = true -> zlen (entries p) <= MAX_ENTRIES_PER_PAGE ->
     is_ok (encode_page p) = (zlen (page_bytes p) <=? MAX_PAGE_BYTES)).
Proof.
  split_and!; [exact decode_page_typed| |].
  - intros p out Hp He. destruct (encoded_page_bytes p out Hp He) as [-> Hd]. split; [done|].
    rewrite (encode_page_ok p Hp) in He. destruct (validate_entry_count _); [|done]. destruct (validate_entries _ _); [|done].
    by destruct (Z.ltb_spec MAX_PAGE_BYTES (zlen (page_bytes p))).
  - intros p Hp Hv Hn. rewrite (encode_page_ok p Hp). unfold validate_entry_count. rewrite (proj2 (Z.ltb_ge _ _)) by done.
    destruct (validate_entries _ _); [|done]. rewrite Z.leb_antisym. by destruct (_ <? _).
Qed.

(** ** A valid seal fits *)

Lemma misplaced_bound position l c : misplaced position l = false -> c ∈ l ->
  position <= commitment_index c < position + zlen l.
Proof.
  revert position. induction l as [|d l IH]; intros position Hm Hin; [by apply not_elem_of_nil in Hin|].
  simpl in Hm. apply orb_false_iff in Hm as [Hd%negb_false_iff%Z.eqb_eq Hm]. rewrite zlen_cons. pose proof (zlen_nonneg l).
  apply elem_of_cons in Hin as [->|Hin]; [lia|]. specialize (IH _ Hm Hin). lia.
Qed.

Lemma zlen_commitments l : Forall is_commitment l -> (forall c, c ∈ l -> commitment_index c <= 65535) ->
  zlen (concat (map commitment_bytes l)) <= MAX_ENCODED_PAGE_COMMITMENT_BYTES * zlen l.
Proof.
  induction 1 as [|c l Hc _ IH]; intros Hi; [done|]. cbn [map concat]. rewrite zlen_app, zlen_cons.
  specialize (IH (fun c H => Hi c (list_elem_of_further _ _ _ H))). destruct Hc as [Hx [Hb Hz]].
  assert (zlen (commitment_bytes c) <= 39); [|unfold MAX_ENCODED_PAGE_COMMITMENT_BYTES in *; lia].
  unfold commitment_bytes, array, uint. rewrite !zlen_app, !zlen_head, zlen_bytes, Hz by mlia.
  assert (head_len (commitment_index c) <= 3).
  { specialize (Hi c (list_elem_of_here _ _)). unfold head_len. zcases; lia. }
  change (head_len 3) with 1. change (payload_len 32) with 34. change (head_len 0) with 1. lia.
Qed.

Lemma seal_size s : is_seal s -> validate_seal s = Ok tt ->
  zlen (seal_bytes s) <= MAX_SEAL_FIXED_BYTES + MAX_ENCODED_PAGE_COMMITMENT_BYTES * zlen (pages s) /\
  zlen (pages s) <= MAX_PAGE_COMMITMENTS.
Proof.
  intros (Hi & Hc & Hf & (Hsu & Hr & Ho) & Hp) Hv. unfold validate_seal in Hv.
  case_match; [done|]. case_match eqn:Hcount; [done|]. case_match eqn:Hn; [done|]. case_match eqn:Hob; [done|].
  case_match eqn:Hm; [done|]. clear Hv. apply Z.ltb_ge in Hn. apply negb_false_iff, Z.eqb_eq in Hcount.
  assert (MAX_PAGE_COMMITMENTS = 26883) as Hmax by done. rewrite Hmax in Hn.
  pose proof (zlen_commitments (pages s) Hp) as Hl. specialize (Hl ltac:(intros c Hin; pose proof (misplaced_bound _ _ _ Hm Hin); lia)).
  assert (head_len (suite (package s)) = 1) as Hs1.
  { apply negb_false_iff, andb_true_iff in Hob as [[->%Z.eqb_eq | ->%Z.eqb_eq]%orb_true_iff _]; done. }
  assert (forall v, v <= 65535 -> head_len v <= 3) as H3 by (intros v; unfold head_len; zcases; lia).
  pose proof (H3 (final_page_count s) ltac:(lia)). pose proof (H3 (zlen (pages s)) ltac:(lia)).
  pose proof (head_len_range (object_length (package s))).
  destruct Hi as [_ Hi], Hf as [_ Hf], Hr as [_ Hr].
  unfold seal_bytes, array, uint, map_head. rewrite !zlen_app, !zlen_head, !zlen_bytes, Hi, Hf, Hr, Hs1 by mlia.
  change (head_len 0) with 1. change (head_len 1) with 1. change (head_len 2) with 1. change (head_len 3) with 1.
  change (head_len 4) with 1. change (head_len 5) with 1. change (head_len 6) with 1.
  change (payload_len 16) with 17. change (payload_len 32) with 34.
  rewrite Hmax. unfold MAX_ENCODED_PAGE_COMMITMENT_BYTES, MAX_SEAL_FIXED_BYTES in *. lia.
Qed.

Lemma valid_seal_fits s : is_seal s -> validate_seal s = Ok tt -> zlen (seal_bytes s) <= MAX_PAGE_BYTES.
Proof.
  intros Hs Hv. destruct (seal_size s Hs Hv) as [Hz Hn]. assert (MAX_PAGE_COMMITMENTS = 26883) as Hmax by done. rewrite Hmax in Hn.
  unfold MAX_SEAL_FIXED_BYTES, MAX_ENCODED_PAGE_COMMITMENT_BYTES, MAX_PAGE_BYTES in *. lia.
Qed.

(** Seals are canonical and always fit.  A seal the decoder accepts is well typed and is exactly what the
    encoder writes for it; every valid seal encodes, within the page bound that limits its commitments, and
    decodes to itself. *)
Theorem seal_codec_exact :
  (forall input s, byte_list input -> zlen input <= i64_max -> decode_seal input = Ok s ->
     is_seal s /\ encode_seal s = Ok input) /\
  (forall s, is_seal s -> validate_seal s = Ok tt ->
     exists out, encode_seal s = Ok out /\ zlen out <= MAX_PAGE_BYTES /\ decode_seal out = Ok s).
Proof.
  split; [exact decode_seal_typed|]. intros s Hs Hv. pose proof (valid_seal_fits s Hs Hv) as Hf.
  exists (seal_bytes s). split_and!; [|done|by apply decode_encoded_seal].
  by rewrite (encode_seal_ok s Hs), Hv, (proj2 (Z.ltb_ge _ _)) by done.
Qed.
End codec.
