(* ===== verification/ManifestIngest.v ===== *)
(** * Progressive ingest and the path index ([crates/vot-manifest/src/progressive.rs], [index.rs])

    Pages of an unsealed manifest arrive in order, each linked to the digest of
    the one before it, and a seal closes them.  The theorems show that page by
    page acceptance is acceptance of the whole entry list, that no accepted file
    stands above another path, and that a seal determines the pages it verifies
    against. *)

From S2P Require Import Prelude Cbor Exact Readers Text Digest ManifestPath Manifest ManifestCodec.
From Stdlib Require Import Permutation.

Record ProgressiveIngest := mkIngest {
  ingest_manifest_id : list Z; ingest_profile : PathProfile; digests : list (list Z);
  last_path : option (list Z); last_file : bool; poisoned : bool }.

Lemma List_filter_none {A} (f : A -> bool) l : (forall x, x ∈ l -> f x = false) -> List.filter f l = [].
Proof.
  induction l as [|x l IH]; intros H; [done|]. simpl. rewrite (H x) by left. apply IH. intros y Hy. apply H. by right.
Qed.

Section ingest.
Context `{U : Unicode} `{B : Blake3}.

Definition ingest_new (manifest_id : list Z) (profile : PathProfile) : ProgressiveIngest :=
  mkIngest manifest_id profile [] None false false.

Definition poison (s : ProgressiveIngest) : ProgressiveIngest :=
  mkIngest (ingest_manifest_id s) (ingest_profile s) (digests s) (last_path s) (last_file s) true.

Definition accept_inner (page : ManifestPage) : M ProgressiveIngest Error (list Z) := fun s =>
  if negb (bool_decide (manifest_id page = ingest_manifest_id s)) || negb (bool_decide (profile page = ingest_profile s))
  then (Err WrongManifest, s) else
  if is_some (total page) then (Err SealedPageInProgressiveStream, s) else
  if negb (index page =? zlen (digests s)) then (Err WrongPageIndex, s) else
  let expected_previous := match last (digests s) with Some d => d | None => repeat 0 32 end in
  if negb (bool_decide (previous_digest page = expected_previous)) then (Err BrokenPageChain, s) else
  match validate_entries (entries page) (profile page) with
  | Err e => (Err e, s)
  | Ok keys =>
      match match last_path s, keys with
            | Some previous, first :: _ =>
                if lex_leb first previous then Err EntriesUnsorted else
                if last_file s && is_path_prefix previous first then Err PathCollision else Ok tt
            | _, _ => Ok tt
            end with
      | Err e => (Err e, s)
      | Ok _ =>
          match encode_page page with
          | Err e => (Err e, s)
          | Ok encoded =>
              let digest := blake3 encoded in
              let last_file' := match last (entries page) with
                                | Some entry => bool_decide (kind entry = File)
                                | None => last_file s
                                end in
              let last_path' := match last keys with Some key => Some key | None => last_path s end in
              (Ok digest, mkIngest (ingest_manifest_id s) (ingest_profile s) (digests s ++ [digest]) last_path' last_file' (poisoned s))
          end
      end
  end.

Definition accept (page : ManifestPage) : M ProgressiveIngest Error (list Z) := fun s =>
  if poisoned s then (Err Poisoned, s) else
  match accept_inner page s with
  | (Ok digest, s') => (Ok digest, s')
  | (Err e, s') => (Err e, poison s')
  end.

(** The loop of [verify_seal] over [seal.pages.iter().zip(&self.digests).enumerate()]. *)
Fixpoint commitments_match (index : Z) (pairs : list (PageCommitment * list Z)) : bool :=
  match pairs with
  | [] => true
  | (commitment, d) :: rest =>
      (commitment_index commitment =? index) && bool_decide (digest commitment = d) && commitments_match (index + 1) rest
  end.

Definition verify_seal (s : ProgressiveIngest) (seal : Seal) : result unit Error :=
  if poisoned s then Err Poisoned else
  match last (digests s) with
  | None => Err Poisoned
  | Some last_digest =>
      if negb (bool_decide (seal_manifest_id seal = ingest_manifest_id s)) ||
         negb (final_page_count seal =? zlen (digests s)) ||
         negb (bool_decide (final_page_digest seal = last_digest)) ||
         negb (zlen (pages seal) =? zlen (digests s)) || negb (valid_object (package seal))
      then Err InvalidSeal else
      if commitments_match 0 (combine (pages seal) (digests s)) then Ok tt else Err InvalidSeal
  end.

(** Pages fed one after the other, each accepted. *)
Fixpoint accept_all (s : ProgressiveIngest) (ps : list ManifestPage) : option ProgressiveIngest :=
  match ps with
  | [] => Some s
  | page :: rest => match accept page s with (Ok _, s') => accept_all s' rest | (Err _, _) => None end
  end.

(** ** The path index *)

Record IndexEntry := mkIndexEntry { fingerprint : list Z; entry_page : Z; entry_position : Z }.

Definition fingerprint_of (key : list Z) : list Z := take 16 (blake3 key).

Definition index_push (path : PackagePath) (profile : PathProfile) (page entry : Z) : M (list IndexEntry) Error unit :=
  fun index =>
  match canonical_path_key path profile with
  | Err e => (Err e, index)
  | Ok key => (Ok tt, index ++ [mkIndexEntry (fingerprint_of key) page entry])
  end.

Fixpoint insert_entry (e : IndexEntry) (l : list IndexEntry) : list IndexEntry :=
  match l with
  | [] => [e]
  | x :: rest => if lex_leb (fingerprint e) (fingerprint x) then e :: l else x :: insert_entry e rest
  end.

(** [sort_unstable_by_key]: one of the sorted orders it may leave; what
    [candidates] returns is stated for every sorted order. *)
Definition index_finish (index : list IndexEntry) : list IndexEntry := foldr insert_entry [] index.

(** [partition_point] on a slice the predicate partitions. *)
Fixpoint partition_point (p : IndexEntry -> bool) (l : list IndexEntry) : nat :=
  match l with
  | [] => O
  | x :: rest => if p x then S (partition_point p rest) else O
  end.

Definition candidates (index : list IndexEntry) (path : PackagePath) (profile : PathProfile) : list (Z * Z) :=
  match canonical_path_key path profile with
  | Err _ => []
  | Ok key =>
      let fp := fingerprint_of key in
      let first := partition_point (fun e => lex_ltb (fingerprint e) fp) index in
      let past := partition_point (fun e => lex_leb (fingerprint e) fp) index in
      map (fun e => (entry_page e, entry_position e)) (drop first (take past index))
  end.

(** ** Order of entries *)

Definition key_of (e : ManifestEntry) : list Z := path_key (path e).

(** [extends prof last file es]: the entries are valid, of one profile, strictly
    ascending from the key [last], and no file among them, nor the file at [last],
    stands directly above the next entry. *)
Fixpoint extends (prof : PathProfile) (last : option (list Z)) (file : bool) (es : list ManifestEntry) : Prop :=
  match es with
  | [] => True
  | e :: rest =>
      validate_entry e = Ok tt /\ path_profile (path e) = prof /\
      match last with
      | Some k => lex_ltb k (key_of e) = true /\ (file = true -> is_path_prefix k (key_of e) = false)
      | None => True
      end /\
      extends prof (Some (key_of e)) (bool_decide (kind e = File)) rest
  end.

Definition last_key (last0 : option (list Z)) (es : list ManifestEntry) : option (list Z) :=
  match last es with Some e => Some (key_of e) | None => last0 end.
Definition ends_in_file (file : bool) (es : list ManifestEntry) : bool :=
  match last es with Some e => bool_decide (kind e = File) | None => file end.

Lemma extends_app prof last0 file es es' :
  extends prof last0 file (es ++ es') <-> extends prof last0 file es /\ extends prof (last_key last0 es) (ends_in_file file es) es'.
Proof.
  revert last0 file. induction es as [|e es IH]; intros last0 file; simpl; [tauto|].
  rewrite IH. assert (last_key (Some (key_of e)) es = last_key last0 (e :: es)) as ->.
  { unfold last_key. destruct es; [done|]. simpl. by destruct (last (m :: es)) eqn:E; [|apply last_None in E]. }
  assert (ends_in_file (bool_decide (kind e = File)) es = ends_in_file file (e :: es)) as ->.
  { unfold ends_in_file. destruct es; [done|]. simpl. by destruct (last (m :: es)) eqn:E; [|apply last_None in E]. }
  tauto.
Qed.

Lemma StronglySorted_snoc {A} (R : A -> A -> Prop) l x : StronglySorted R l -> (forall y, y ∈ l -> R y x) ->
  StronglySorted R (l ++ [x]).
Proof.
  induction 1 as [|y l Hl IH Hy]; intros Hx; simpl; [repeat constructor|]. constructor.
  - apply IH. intros z Hz. apply Hx. by right.
  - apply Forall_app. split; [done|]. constructor; [|constructor]. apply Hx. by left.
Qed.

Definition lex_lt (a b : list Z) : Prop := lex_ltb a b = true.

(** Validation of a list is [extends] from the state its loop carries. *)
Lemma validate_entries_from_ok prof keys unique file es ks :
  StronglySorted lex_lt keys -> (forall k, k ∈ unique <-> k ∈ keys) ->
  validate_entries_from prof keys unique file es = Ok ks <-> ks = keys ++ map key_of es /\ extends prof (last keys) file es.
Proof.
  revert keys unique file. induction es as [|e es IH]; intros keys unique file Hs Hu; simpl.
  { rewrite app_nil_r. naive_solver. }
  destruct (validate_entry e) as [[]|]; [|naive_solver].
  destruct (bool_decide (path_profile (path e) = prof)) eqn:Hp; [apply bool_decide_eq_true in Hp|apply bool_decide_eq_false in Hp; naive_solver].
  unfold canonical_path_key. rewrite bool_decide_eq_true_2 by done. simpl. fold (key_of e). set (k := key_of e).
  destruct (bool_decide (k ∈ unique)) eqn:Hk.
  { apply bool_decide_eq_true, Hu in Hk. destruct (last keys) as [y|] eqn:Hy; [|apply last_None in Hy; subst; by apply not_elem_of_nil in Hk].
    split; [done|]. intros (_ & _ & _ & (Hlt & _) & _). exfalso.
    destruct (StronglySorted_last _ _ _ Hs Hy k Hk) as [->|Hky]; [by rewrite lex_ltb_irrefl in Hlt|].
    by rewrite (lex_ltb_asym k y Hky) in Hlt. }
  destruct (last keys) as [y|] eqn:Hy; cbn [is_some_and].
  - rewrite lex_leb_ltb. destruct (lex_ltb y k) eqn:Hlt; cbn [negb]; [|split; [done|by intros (_ & _ & _ & (? & _) & _)]].
    destruct (file && is_path_prefix y k) eqn:Hf.
    { split; [done|]. intros (_ & _ & _ & (_ & Hn) & _). apply andb_true_iff in Hf as [-> Hf]. by rewrite Hn in Hf. }
    rewrite IH, last_snoc, <- app_assoc.
    + apply andb_false_iff in Hf. simpl. split; [intros [-> ?]|intros (-> & _ & _ & _ & ?)]; split_and!; try done.
      intros ->. by destruct Hf.
    + apply StronglySorted_snoc; [done|]. intros x Hx. destruct (StronglySorted_last _ _ _ Hs Hy x Hx) as [->|H]; [done|].
      by eapply lex_ltb_trans.
    + intros x. rewrite elem_of_cons, elem_of_app, list_elem_of_singleton, Hu. tauto.
  - apply last_None in Hy. subst keys. rewrite andb_false_r, IH, last_snoc, <- app_assoc; [naive_solver| |].
    + repeat constructor.
    + intros x. rewrite elem_of_cons, elem_of_app, list_elem_of_singleton, Hu. tauto.
Qed.

Lemma validate_entries_ok prof es ks :
  validate_entries es prof = Ok ks <-> ks = map key_of es /\ extends prof None false es.
Proof. apply (validate_entries_from_ok prof [] [] false es ks); [constructor|]. done. Qed.

(** ** Nothing stands below a file *)

(** [e] comes before [e'] in the manifest: its key is smaller, and it is not a file
    above it. *)
Definition precedes (e e' : ManifestEntry) : Prop :=
  lex_lt (key_of e) (key_of e') /\ (kind e = File -> is_path_prefix (key_of e) (key_of e') = false).

Lemma extends_bytes_sorted prof last0 file es : extends prof last0 file es ->
  StronglySorted lex_lt (option_list last0 ++ map key_of es).
Proof.
  revert last0 file. induction es as [|e es IH]; intros last0 file; simpl.
  - intros _. destruct last0; repeat constructor.
  - intros (_ & _ & Hl & He). apply IH in He. simpl in He. destruct last0 as [k|]; simpl; [|done].
    constructor; [done|]. apply StronglySorted_inv in He as [_ Hall]. destruct Hl as [Hl _]. constructor; [done|].
    eapply Forall_impl; [exact Hall|]. intros x Hx. by eapply lex_ltb_trans.
Qed.

(** The adjacent checks of the loop reach every pair: whatever lies between a key
    and one below it lies below it as well. *)
Lemma extends_no_descendant prof k es : Forall (fun e => byte_list (key_of e)) es -> extends prof (Some k) true es ->
  Forall (fun e => is_path_prefix k (key_of e) = false) es.
Proof.
  intros Hb He. pose proof (extends_bytes_sorted _ _ _ _ He) as Hs. destruct es as [|e es]; [constructor|].
  destruct He as (_ & _ & (Hlt & Hp) & _). specialize (Hp eq_refl). constructor; [done|].
  simpl in Hs. apply StronglySorted_inv in Hs as [Hs _]. apply StronglySorted_inv in Hs as [_ Hs].
  apply Forall_cons in Hb as [Hbe _]. rewrite Forall_map in Hs. eapply Forall_impl; [exact Hs|].
  intros f Hf. simpl in Hf. destruct (is_path_prefix k (key_of f)) eqn:Hpf; [|done]. exfalso.
  apply is_path_prefix_spec in Hpf as (rest & Hr).
  destruct (lex_between k (key_of e) rest Hbe Hlt) as (rest' & Hr').
  { by rewrite <- Hr, lex_leb_ltb, (lex_ltb_asym _ _ Hf). }
  rewrite (proj2 (is_path_prefix_spec _ _)) in Hp; [done|]. by exists rest'.
Qed.

Lemma extends_precedes prof last0 file es : Forall (fun e => byte_list (key_of e)) es -> extends prof last0 file es ->
  StronglySorted precedes es.
Proof.
  revert last0 file. induction es as [|e es IH]; intros last0 file Hb He; [constructor|].
  apply Forall_cons in Hb as [Hbe Hb]. destruct He as (_ & _ & _ & He). constructor; [by eapply IH|].
  pose proof (extends_bytes_sorted _ _ _ _ He) as Hs. simpl in Hs. apply StronglySorted_inv in Hs as [_ Hs].
  rewrite Forall_map in Hs. apply Forall_forall. intros f Hf. rewrite Forall_forall in Hs. split; [by apply Hs|].
  intros Hk. rewrite (bool_decide_eq_true_2 _ Hk) in He. pose proof (extends_no_descendant _ _ _ Hb He) as Hd.
  rewrite Forall_forall in Hd. by apply Hd.
Qed.

(** ** Acceptance page by page *)

Definition page_digest (p : ManifestPage) : list Z := match encode_page p with Ok b => blake3 b | Err _ => [] end.

(** The pages carry the manifest's identity, count from where [ds] ends and link
    to its last digest, and each encodes. *)
Fixpoint chained (id : list Z) (prof : PathProfile) (ds : list (list Z)) (ps : list ManifestPage) : Prop :=
  match ps with
  | [] => True
  | p :: rest =>
      manifest_id p = id /\ profile p = prof /\ total p = None /\ index p = zlen ds /\
      previous_digest p = default (repeat 0 32) (last ds) /\ is_ok (encode_page p) = true /\
      chained id prof (ds ++ [page_digest p]) rest
  end.

Lemma extends_boundary prof last0 file es : extends prof last0 file es <->
  extends prof None false es /\
  match last0, es with
  | Some k, e :: _ => lex_ltb k (key_of e) = true /\ (file = true -> is_path_prefix k (key_of e) = false)
  | _, _ => True
  end.
Proof. destruct es as [|e es], last0 as [k|]; simpl; tauto. Qed.

(** The comparison of a page's first key with the last one accepted. *)
Lemma boundary_ok (last0 : option (list Z)) (file : bool) es :
  match last0, map key_of es with
  | Some previous, first :: _ =>
      if lex_leb first previous then Err EntriesUnsorted else
      if file && is_path_prefix previous first then Err PathCollision else Ok tt
  | _, _ => Ok tt
  end = Ok tt <->
  match last0, es with
  | Some k, e :: _ => lex_ltb k (key_of e) = true /\ (file = true -> is_path_prefix k (key_of e) = false)
  | _, _ => True
  end.
Proof.
  destruct last0 as [k|], es as [|e es]; simpl; try done. rewrite lex_leb_ltb.
  destruct (lex_ltb k (key_of e)); cbn [negb]; [|split; [done|by intros [? _]]].
  destruct file, (is_path_prefix k (key_of e)); simpl; naive_solver.
Qed.

Lemma last_map {X Y} (f : X -> Y) l : last (map f l) = f <$> last l.
Proof. induction l as [|x [|y l] IH]; [done..|]. exact IH. Qed.

Lemma encode_page_validates p : is_ok (encode_page p) = true -> validate_entries (entries p) (profile p) = Ok (map key_of (entries p)).
Proof.
  unfold encode_page, page_encoded_len. destruct (validate_entry_count _); [|done].
  destruct (validate_entries _ _) as [ks|] eqn:Hv; [|done]. by apply validate_entries_ok in Hv as [-> _].
Qed.

Definition accepted (s : ProgressiveIngest) (p : ManifestPage) : ProgressiveIngest :=
  mkIngest (ingest_manifest_id s) (ingest_profile s) (digests s ++ [page_digest p])
    (last_key (last_path s) (entries p)) (ends_in_file (last_file s) (entries p)) false.

Lemma accept_ok s p s' : poisoned s = false ->
  (exists d, accept p s = (Ok d, s')) <->
  chained (ingest_manifest_id s) (ingest_profile s) (digests s) [p] /\
  extends (ingest_profile s) (last_path s) (last_file s) (entries p) /\ s' = accepted s p.
Proof.
  intros Hpo. unfold accept, accept_inner. rewrite Hpo. rewrite (extends_boundary _ (last_path s)). cbn [chained].
  destruct (bool_decide (manifest_id p = _)) eqn:H1; [apply bool_decide_eq_true in H1|apply bool_decide_eq_false in H1; simpl; naive_solver].
  destruct (bool_decide (profile p = _)) eqn:H2; [apply bool_decide_eq_true in H2|apply bool_decide_eq_false in H2; simpl; naive_solver].
  cbn [negb orb]. destruct (total p) eqn:H3; [simpl; naive_solver|]. cbn [is_some].
  destruct (Z.eqb_spec (index p) (zlen (digests s))) as [H4|H4]; [|simpl; naive_solver]. cbn [negb].
  destruct (bool_decide (previous_digest p = _)) eqn:H5; [apply bool_decide_eq_true in H5|apply bool_decide_eq_false in H5; simpl; naive_solver].
  cbn [negb]. rewrite H2.
  destruct (validate_entries (entries p) (ingest_profile s)) as [ks|] eqn:Hv.
  2:{ split; [by intros (? & ?)|]. intros ((_ & _ & _ & _ & _ & Hok & _) & _). apply encode_page_validates in Hok. congruence. }
  apply validate_entries_ok in Hv as [-> He].
  rewrite <- boundary_ok. unfold accepted, page_digest, last_key, ends_in_file. rewrite last_map.
  destruct (match last_path s with Some _ => _ | None => _ end) as [[]|e]; [|split; [by intros (? & ?)|by intros (_ & [_ ?] & _)]].
  destruct (encode_page p) as [b|e]; [|split; [by intros (? & ?)|by intros ((_ & _ & _ & _ & _ & ? & _) & _)]].
  split.
  - intros (d & [= <- <-]). split_and!; try done. by destruct (last (entries p)).
  - intros (_ & _ & ->). exists (blake3 b). do 2 f_equal. by destruct (last (entries p)).
Qed.

Definition entries_of (ps : list ManifestPage) : list ManifestEntry := concat (map entries ps).

Lemma last_key_app last0 es es' : last_key last0 (es ++ es') = last_key (last_key last0 es) es'.
Proof.
  unfold last_key. destruct es' as [|x l _] using rev_ind; [by rewrite app_nil_r|]. by rewrite app_assoc, !last_snoc.
Qed.

Lemma ends_in_file_app file es es' : ends_in_file file (es ++ es') = ends_in_file (ends_in_file file es) es'.
Proof.
  unfold ends_in_file. destruct es' as [|x l _] using rev_ind; [by rewrite app_nil_r|]. by rewrite app_assoc, !last_snoc.
Qed.

Lemma accept_all_ok s ps s' : poisoned s = false ->
  accept_all s ps = Some s' <->
  chained (ingest_manifest_id s) (ingest_profile s) (digests s) ps /\
  extends (ingest_profile s) (last_path s) (last_file s) (entries_of ps) /\
  s' = mkIngest (ingest_manifest_id s) (ingest_profile s) (digests s ++ map page_digest ps)
         (last_key (last_path s) (entries_of ps)) (ends_in_file (last_file s) (entries_of ps)) false.
Proof.
  revert s. induction ps as [|p ps IH]; intros s Hpo; simpl.
  - rewrite app_nil_r. unfold last_key, ends_in_file. simpl. destruct s; simpl in *; subst. naive_solver.
  - unfold entries_of. simpl. rewrite extends_app, last_key_app, ends_in_file_app. fold (entries_of ps).
    pose proof (accept_ok s p (accepted s p) Hpo) as Hacc.
    destruct (accept p s) as [[d|e] s1] eqn:Ha.
    + destruct (proj1 (accept_ok s p s1 Hpo)) as (Hc & He & ->); [eauto|]. cbn [chained] in Hc.
      rewrite (IH (accepted s p)) by done. unfold accepted. simpl. rewrite <- app_assoc. simpl. naive_solver.
    + split; [done|]. intros ((? & ? & ? & ? & ? & ? & _) & (? & _) & _). exfalso.
      destruct (proj2 Hacc) as (d & ?); [|done]. split_and!; done.
Qed.

(** Page by page is all at once.  Feeding pages one after the other accepts all of them exactly when they
    carry the manifest's identity and profile, are unsealed, count up from zero, link each to the digest of the
    one before, each encode, and the concatenation of their entries is one valid entry list; the state then
    holds the digests of all pages, and nothing else of them but the last key and whether it was a file. *)
Theorem ingest_accepts_whole id prof ps s :
  accept_all (ingest_new id prof) ps = Some s <->
  chained id prof [] ps /\ is_ok (validate_entries (entries_of ps) prof) = true /\
  s = mkIngest id prof (map page_digest ps) (last_key None (entries_of ps)) (ends_in_file false (entries_of ps)) false.
Proof using.
  rewrite (accept_all_ok (ingest_new id prof) ps s eq_refl). simpl.
  assert (extends prof None false (entries_of ps) <-> is_ok (validate_entries (entries_of ps) prof) = true) as ->; [|done].
  destruct (validate_entries (entries_of ps) prof) as [ks|e] eqn:Hv; simpl.
  - apply validate_entries_ok in Hv. tauto.
  - split; [|done]. intros He. assert (validate_entries (entries_of ps) prof = Ok (map key_of (entries_of ps))) as Hok
      by (by apply validate_entries_ok). congruence.
Qed.

Lemma path_key_bytes `{!UnicodeOk U} p : is_path p -> byte_list (path_key p).
Proof.
  intros Hp. destruct (path_key_joined p Hp) as (k & ks & _ & -> & [[_ [_ Hk]] Hs]%Forall_cons). unfold joined.
  apply Forall_app. split; [done|]. apply Forall_concat, Forall_map. eapply Forall_impl; [exact Hs|].
  intros j (_ & _ & Hj). constructor; [split; done|done].
Qed.

Lemma StronglySorted_lookup {X} (R : X -> X -> Prop) l i j x y : StronglySorted R l -> (i < j)%nat ->
  l !! i = Some x -> l !! j = Some y -> R x y.
Proof.
  intros Hs. revert i j. induction Hs as [|z l Hs IH Hz]; intros [|i] [|j] Hij; simpl; try done; try lia.
  - intros [= ->] Hy. rewrite Forall_forall in Hz. apply Hz. by eapply list_elem_of_lookup_2.
  - apply IH. lia.
Qed.

(** C13: An accepted package is a tree.  In everything an ingest has accepted, over all pages, two entries never
    name the same path after folding, and no file is an ancestor of another entry: extraction never meets a
    file where it needs a directory. *)
Theorem accepted_package_is_a_tree `{!UnicodeOk U} id prof ps s i j e f :
  accept_all (ingest_new id prof) ps = Some s -> Forall is_page ps -> i <> j ->
  entries_of ps !! i = Some e -> entries_of ps !! j = Some f ->
  keys_of (path e) <> keys_of (path f) /\
  (kind e = File -> forall more, keys_of (path f) <> keys_of (path e) ++ more).
Proof using.
  intros Ha Hps Hij Hi Hj. apply (accept_all_ok (ingest_new id prof) ps s eq_refl) in Ha as (_ & He & _). simpl in He.
  assert (Forall is_entry (entries_of ps)) as Hent.
  { apply Forall_concat, Forall_map. eapply Forall_impl; [exact Hps|]. intros p (_ & _ & _ & _ & ?). done. }
  assert (Forall (fun e => is_path (path e)) (entries_of ps)) as Hpath by (eapply Forall_impl; [exact Hent|by intros ? []]).
  pose proof (extends_precedes _ _ _ _ ltac:(eapply Forall_impl; [exact Hpath|intros ?; apply path_key_bytes]) He) as Hs.
  rewrite Forall_lookup in Hpath. pose proof (Hpath _ _ Hi) as Hpe. pose proof (Hpath _ _ Hj) as Hpf.
  destruct (path_keys_decide (path e) (path f) Hpe Hpf) as [Heq Hpre].
  assert (key_of e <> key_of f) as Hne.
  { destruct (Nat.lt_total i j) as [Hlt|[->|Hlt]]; [|done|].
    - by apply lex_ltb_neq, (StronglySorted_lookup _ _ _ _ _ _ Hs Hlt Hi Hj).
    - symmetry. by apply lex_ltb_neq, (StronglySorted_lookup _ _ _ _ _ _ Hs Hlt Hj Hi). }
  assert (keys_of (path e) <> keys_of (path f)) as Hnk by (intros E; apply Hne, Heq, E). split; [done|].
  intros Hk [|m more] E; [by rewrite app_nil_r in E|]. assert (is_path_prefix (key_of e) (key_of f) = true) as Hp.
  { apply Hpre. by exists (m :: more). }
  destruct (Nat.lt_total i j) as [Hlt|[->|Hlt]]; [|done|].
  - destruct (StronglySorted_lookup _ _ _ _ _ _ Hs Hlt Hi Hj) as [_ Hn]. by rewrite (Hn Hk) in Hp.
  - destruct (StronglySorted_lookup _ _ _ _ _ _ Hs Hlt Hj Hi) as [Hfe _]. apply is_path_prefix_spec in Hp as (rest & Hr).
    unfold lex_lt in Hfe. rewrite Hr in Hfe. by rewrite lex_ltb_prefix in Hfe.
Qed.

(** ** Seals *)

Lemma commitments_match_spec i cs ds : length cs = length ds ->
  commitments_match i (combine cs ds) = true <-> misplaced i cs = false /\ map digest cs = ds.
Proof.
  revert i ds. induction cs as [|c cs IH]; intros i [|d ds] Hl; simpl in *; try done.
  rewrite !andb_true_iff, orb_false_iff, negb_false_iff, bool_decide_eq_true, IH by lia. naive_solver.
Qed.

Lemma zlen_eq_length {X Y} (l : list X) (k : list Y) : zlen l = zlen k <-> length l = length k.
Proof. unfold zlen. lia. Qed.

Lemma verify_seal_ok s seal : verify_seal s seal = Ok tt <->
  poisoned s = false /\ digests s <> [] /\ seal_manifest_id seal = ingest_manifest_id s /\
  final_page_count seal = zlen (digests s) /\ last (digests s) = Some (final_page_digest seal) /\
  valid_object (package seal) = true /\ misplaced 0 (pages seal) = false /\ map digest (pages seal) = digests s.
Proof.
  unfold verify_seal. destruct (poisoned s); [split; [done|by intros [? _]]|].
  destruct (last (digests s)) as [d|] eqn:Hl.
  2:{ apply last_None in Hl. rewrite Hl. split; [done|]. by intros (_ & ? & _). }
  assert (digests s <> []) as Hne by (intros E; by rewrite E in Hl).
  destruct (_ || _) eqn:Hb.
  - split; [done|]. intros (_ & _ & H1 & H2 & H3 & H4 & _ & H6). exfalso.
    rewrite !bool_decide_eq_true_2 in Hb by congruence. rewrite (proj2 (Z.eqb_eq _ _) H2), H4 in Hb. simpl in Hb.
    rewrite <- H6, (proj2 (Z.eqb_eq _ _)) in Hb; [done|]. apply zlen_eq_length. by rewrite length_map.
  - rewrite !orb_false_iff, !negb_false_iff, !bool_decide_eq_true, !Z.eqb_eq, zlen_eq_length in Hb.
    destruct Hb as ((((H1 & H2) & H3) & H4) & H5).
    pose proof (commitments_match_spec 0 (pages seal) (digests s) H4) as Hm.
    destruct (commitments_match _ _); split; try done.
    + intros _. destruct Hm as [Hm _]. destruct (Hm eq_refl). rewrite H3. done.
    + intros (_ & _ & _ & _ & _ & _ & ? & ?). destruct Hm as [_ Hm]. by discriminate Hm.
Qed.

Lemma page_digest_inj ps qs : Forall is_page ps -> Forall is_page qs ->
  Forall (fun p => is_ok (encode_page p) = true) ps -> Forall (fun p => is_ok (encode_page p) = true) qs ->
  blake3_no_collision (map page_bytes ps) (map page_bytes qs) -> map page_digest ps = map page_digest qs -> ps = qs.
Proof.
  intros Hp. revert qs. induction Hp as [|p ps Hp _ IH]; intros [|q qs] Hq Ep Eq Hn He; simpl in *; try done.
  apply Forall_cons in Hq as [Hq Hqs], Ep as [Ep Eps], Eq as [Eq Eqs]. injection He as He Hes. f_equal.
  2:{ apply IH; try done. intros x y Hx Hy. apply Hn; by right. }
  unfold page_digest in He. destruct (encode_page p) as [b|] eqn:Eb; [|done]. destruct (encode_page q) as [c|] eqn:Ec; [|done].
  destruct (encoded_page_bytes p b Hp Eb) as [-> Dp]. destruct (encoded_page_bytes q c Hq Ec) as [-> Dq].
  apply Hn in He; [|by left..]. rewrite He, Dq in Dp. by injection Dp as ->.
Qed.

Lemma chained_encodes id prof ds ps : chained id prof ds ps -> Forall (fun p => is_ok (encode_page p) = true) ps.
Proof. revert ds. induction ps as [|p ps IH]; intros ds; [constructor|]. intros (_ & _ & _ & _ & _ & ? & ?). constructor; eauto. Qed.

(** C12: A seal determines the manifest.  If two ingests, on any two carriers, each accepted a sequence of pages
    and each verified the same seal, they accepted the same pages, unless two of the encoded pages are a BLAKE3
    collision: neither the order, nor the count, nor a field of any entry can differ. *)
Theorem seal_determines_pages id id' prof prof' ps qs s t seal :
  Forall is_page ps -> Forall is_page qs ->
  accept_all (ingest_new id prof) ps = Some s -> accept_all (ingest_new id' prof') qs = Some t ->
  verify_seal s seal = Ok tt -> verify_seal t seal = Ok tt ->
  blake3_no_collision (map page_bytes ps) (map page_bytes qs) -> ps = qs.
Proof using.
  intros Hp Hq Hs Ht Vs Vt Hn.
  apply (accept_all_ok (ingest_new id prof)) in Hs as (Cs & _ & ->); [|done].
  apply (accept_all_ok (ingest_new id' prof')) in Ht as (Ct & _ & ->); [|done].
  apply verify_seal_ok in Vs as (_ & _ & _ & _ & _ & _ & _ & Ds), Vt as (_ & _ & _ & _ & _ & _ & _ & Dt). simpl in Ds, Dt.
  apply (page_digest_inj ps qs Hp Hq); [by eapply chained_encodes..|done|congruence].
Qed.

(** Poison is permanent and nothing is lost before it.  A refused page leaves the accepted digests as they
    were and poisons the ingest, after which every page and every seal is refused. *)
Theorem refusal_poisons page s e s' : poisoned s = false -> accept page s = (Err e, s') ->
  digests s' = digests s /\ last_path s' = last_path s /\ last_file s' = last_file s /\
  (forall page', accept page' s' = (Err Poisoned, s')) /\ (forall seal, verify_seal s' seal = Err Poisoned).
Proof using.
  intros Hpo Ha. assert (s' = poison s) as ->.
  { unfold accept in Ha. rewrite Hpo in Ha. destruct (accept_inner page s) as [[d|e'] s1] eqn:Hi; [done|].
    injection Ha as <- <-. f_equal. revert Hi. unfold accept_inner. repeat case_match; intros [= _ <-]; done. }
  done.
Qed.

(** The seal an honest sender writes for its pages. *)
Definition seal_of (id : list Z) (package : ObjectId) (ps : list ManifestPage) : Seal :=
  mkSeal id (zlen ps) (default [] (last (map page_digest ps))) package
    (imap (fun i p => mkPageCommitment (Z.of_nat i) (page_digest p)) ps).

Lemma misplaced_imap n ps : misplaced (Z.of_nat n) (imap (fun i p => mkPageCommitment (Z.of_nat (n + i)) (page_digest p)) ps) = false.
Proof.
  revert n. induction ps as [|p ps IH]; intros n; [done|]. simpl. rewrite Nat.add_0_r, Z.eqb_refl. simpl.
  replace (Z.of_nat n + 1) with (Z.of_nat (S n)) by lia.
  rewrite (imap_ext _ (fun i p => mkPageCommitment (Z.of_nat (S n + i)) (page_digest p))); [apply IH|].
  intros i x _. simpl. do 2 f_equal. lia.
Qed.

Lemma digests_imap n ps : map digest (imap (fun i p => mkPageCommitment (Z.of_nat (n + i)) (page_digest p)) ps) = map page_digest ps.
Proof.
  revert n. induction ps as [|p ps IH]; intros n; [done|]. simpl. f_equal.
  rewrite <- (IH (S n)). f_equal. apply imap_ext. intros i x _. simpl. do 2 f_equal. lia.
Qed.

(** An honest manifest is accepted.  Pages that chain from zero and hold together one valid entry list are
    all accepted, and the seal that lists their digests verifies. *)
Theorem honest_manifest_verifies id prof ps object :
  chained id prof [] ps -> is_ok (validate_entries (entries_of ps) prof) = true -> ps <> [] -> valid_object object = true ->
  exists s, accept_all (ingest_new id prof) ps = Some s /\ verify_seal s (seal_of id object ps) = Ok tt.
Proof using.
  intros Hc Hv Hne Ho. destruct (validate_entries (entries_of ps) prof) as [ks|] eqn:Hk; [|done].
  apply validate_entries_ok in Hk as [_ He]. eexists. split; [by apply (accept_all_ok (ingest_new id prof))|].
  apply verify_seal_ok. simpl. assert (map page_digest ps <> []) as Hm by (by destruct ps).
  split_and!; try done.
  - apply zlen_eq_length. by rewrite length_map.
  - by destruct (last (map page_digest ps)) eqn:E; [|apply last_None in E].
  - apply (misplaced_imap 0).
  - apply (digests_imap 0).
Qed.

(** ** The index finds every path *)

Definition fingerprint_le (a b : IndexEntry) : Prop := lex_leb (fingerprint a) (fingerprint b) = true.

#[local] Instance fingerprint_le_trans : Transitive fingerprint_le.
Proof.
  intros a b c. unfold fingerprint_le. rewrite !lex_leb_ltb, !negb_true_iff. intros H1 H2.
  destruct (lex_ltb (fingerprint c) (fingerprint a)) eqn:E; [|done]. exfalso.
  destruct (lex_compare (fingerprint a) (fingerprint b)) eqn:C1.
  - apply lex_compare_eq in C1. congruence.
  - assert (lex_ltb (fingerprint a) (fingerprint b) = true) as H by (unfold lex_ltb; by rewrite C1).
    by rewrite (lex_ltb_trans _ _ _ E H) in H2.
  - assert (lex_ltb (fingerprint b) (fingerprint a) = true) by (unfold lex_ltb; by rewrite lex_compare_antisym, C1). congruence.
Qed.

Lemma index_finish_sorted index : StronglySorted fingerprint_le (index_finish index) /\ Permutation (index_finish index) index.
Proof.
  induction index as [|e l [IHs IHp]]; simpl; [split; [constructor|done]|].
  rewrite <- IHp at 3. generalize (index_finish l) IHs. clear. intros k Hs. split.
  - induction Hs as [|x k Hs IH Hx]; simpl; [repeat constructor|].
    destruct (lex_leb (fingerprint e) (fingerprint x)) eqn:He.
    + constructor; [by constructor|]. constructor; [done|]. eapply Forall_impl; [exact Hx|]. intros y Hy. by transitivity x.
    + constructor; [done|]. assert (Permutation (insert_entry e k) (e :: k)) as ->.
      { clear. induction k as [|y k IH]; simpl; [done|]. destruct (lex_leb _ _); [done|]. rewrite IH. by constructor. }
      constructor; [|done]. unfold fingerprint_le. rewrite lex_leb_ltb in *. apply negb_false_iff in He. by rewrite (lex_ltb_asym _ _ He).
  - clear. induction k as [|y k IH]; simpl; [done|]. destruct (lex_leb _ _); [done|]. rewrite IH. by constructor.
Qed.

Lemma partition_bounds fp index : StronglySorted fingerprint_le index ->
  drop (partition_point (fun e => lex_ltb (fingerprint e) fp) index) (take (partition_point (fun e => lex_leb (fingerprint e) fp) index) index) =
  List.filter (fun e => bool_decide (fingerprint e = fp)) index.
Proof.
  induction 1 as [|x l Hs IH Hx]; simpl; [done|]. unfold lex_ltb at 1, lex_leb at 1.
  destruct (lex_compare (fingerprint x) fp) eqn:C.
  - apply lex_compare_eq in C. rewrite bool_decide_eq_true_2 by done. simpl. f_equal. rewrite <- IH.
    destruct l as [|y l]; [done|]. simpl. apply Forall_cons in Hx as [Hy _]. unfold fingerprint_le in Hy.
    rewrite C, lex_leb_ltb in Hy. apply negb_true_iff in Hy. by rewrite Hy.
  - rewrite bool_decide_eq_false_2; [exact IH|]. intros E. by rewrite E, (proj2 (lex_compare_eq fp fp) eq_refl) in C.
  - rewrite bool_decide_eq_false_2 by (intros E; by rewrite E, (proj2 (lex_compare_eq fp fp) eq_refl) in C). simpl.
    symmetry. apply List_filter_none. intros y Hy. apply bool_decide_eq_false. intros <-.
    rewrite Forall_forall in Hx. specialize (Hx y Hy). unfold fingerprint_le, lex_leb in Hx. by rewrite C in Hx.
Qed.

(** A run of [push] calls under one profile: the path and its position. *)
Fixpoint index_push_all (profile : PathProfile) (items : list (PackagePath * Z * Z)) : M (list IndexEntry) Error unit :=
  match items with
  | [] => ret tt
  | (path, page, entry) :: rest => index_push path profile page entry ;! index_push_all profile rest
  end.

Lemma index_push_all_ok prof items l l' : index_push_all prof items l = (Ok tt, l') ->
  l' = l ++ map (fun '(path, page, entry) => mkIndexEntry (fingerprint_of (path_key path)) page entry) items /\
  Forall (fun '(path, _, _) => path_profile path = prof) items.
Proof.
  revert l. induction items as [|[[path page] entry] items IH]; intros l; simpl.
  - intros [= <-]. rewrite app_nil_r. done.
  - unfold index_push at 1, canonical_path_key, bind. destruct (bool_decide (path_profile path = prof)) eqn:Hp; [|done]. simpl.
    intros [-> Hf]%IH. apply bool_decide_eq_true in Hp. rewrite <- app_assoc. split; [done|]. by constructor.
Qed.

(** The index is complete and precise.  After any pushes and any sort the library may perform, the candidates
    for a path are exactly the positions pushed for a path whose key has the same fingerprint: the path's own
    position is among them, and every other candidate is a collision of the truncated digest. *)
Theorem index_finds_exactly prof items l idx path :
  index_push_all prof items [] = (Ok tt, l) -> Permutation idx l -> StronglySorted fingerprint_le idx ->
  path_profile path = prof ->
  forall page entry, (page, entry) ∈ candidates idx path prof <->
    exists path', (path', page, entry) ∈ items /\ fingerprint_of (path_key path') = fingerprint_of (path_key path).
Proof using.
  intros Hpush Hperm Hs Hprof page entry. apply index_push_all_ok in Hpush as [-> Hf]. simpl in Hperm.
  unfold candidates, canonical_path_key. rewrite bool_decide_eq_true_2 by done. cbn [negb].
  rewrite (partition_bounds _ _ Hs). rewrite list_elem_of_In, in_map_iff. setoid_rewrite filter_In. split.
  - intros (e & [= <- <-] & Hin & Hfp%bool_decide_eq_true). rewrite <- list_elem_of_In, Hperm in Hin.
    apply list_elem_of_In, in_map_iff in Hin as ([[path' page'] entry'] & <- & Hin%list_elem_of_In). by exists path'.
  - intros (path' & Hin & Hfp). exists (mkIndexEntry (fingerprint_of (path_key path')) page entry). split_and!; [done| |].
    + rewrite <- list_elem_of_In, Hperm. apply list_elem_of_In, in_map_iff. exists (path', page, entry). by rewrite <- list_elem_of_In.
    + by apply bool_decide_eq_true.
Qed.
End ingest.

(** ** A small manifest: a directory, a file under it, and a second page with one file *)

Definition demo_object : ObjectId := mkObjectId 1 (repeat 7 32) 3.
Definition demo_path (names : list (list Z)) : PackagePath := mkPackagePath Portable (map Text names).
Definition demo_file (names : list (list Z)) : ManifestEntry :=
  mkManifestEntry (demo_path names) File (Some 3) (Some (Direct demo_object))
    (Some (mkFileMetadata (Some 420) (Some (-5)) None (Some [116; 47; 112]))).
Definition demo_directory (names : list (list Z)) : ManifestEntry := mkManifestEntry (demo_path names) Directory None None None.

#[local] Instance demo_unicode : Unicode := ascii_unicode.
#[local] Instance demo_unicode_ok : UnicodeOk demo_unicode := ascii_unicode_ok.
#[local] Instance demo_blake3 : Blake3 := toy_blake3.

(** [Docs], [docs/Read] and [zip]. *)
Definition demo_page0 : ManifestPage :=
  mkManifestPage (repeat 1 16) 0 None (repeat 0 32) Portable
    [demo_directory [[68; 111; 99; 115]]; demo_file [[100; 111; 99; 115]; [82; 101; 97; 100]]].
Definition demo_page1 : ManifestPage :=
  mkManifestPage (repeat 1 16) 1 None (page_digest demo_page0) Portable [demo_file [[122; 105; 112]]].
Definition demo_pages : list ManifestPage := [demo_page0; demo_page1].
Definition demo_seal : Seal := seal_of (repeat 1 16) demo_object demo_pages.
Definition demo_ingest : ProgressiveIngest :=
  Eval vm_compute in default (ingest_new [] Portable) (accept_all (ingest_new (repeat 1 16) Portable) demo_pages).

Lemma demo_pages_typed : Forall is_page demo_pages.
Proof.
  assert (forall names, forallb (fun n => forallb (in_range 0 255) n && utf8_valid n) names = true ->
    Forall is_component (map Text names)) as Hc.
  { intros names H. apply Forall_map, Forall_forall. intros n Hn%list_elem_of_In. rewrite forallb_forall in H.
    specialize (H n Hn). apply andb_true_iff in H as [H ?]. split; [by apply byte_list_check|done]. }
  pose proof is_bytes_repeat as Hr.
  assert (is_object demo_object) by (split; [done|]; split; [by apply (Hr 32%nat)|done]).
  assert (is_metadata (mkFileMetadata (Some 420) (Some (-5)) None (Some [116; 47; 112]))).
  { unfold is_metadata. simpl. split_and!; try mlia; try done. split; [by apply byte_list_check|done]. }
  assert (forall names, is_path (demo_path names) -> is_entry (demo_file names)) by (intros; split_and!; done).
  assert (forall names, is_path (demo_path names) -> is_entry (demo_directory names)) by (intros; split_and!; done).
  assert (forall names, forallb (fun n => forallb (in_range 0 255) n && utf8_valid n) names = true ->
    validate_components (map Text names) Portable = Ok tt -> is_path (demo_path names)) as Hp by (intros; split; [by apply Hc|done]).
  assert (is_bytes 32 (page_digest demo_page0)) as Hd by (split; [by apply byte_list_check|by vm_compute]).
  assert (Forall is_entry (entries demo_page0)) as H0e
    by (apply Forall_cons_2; [by apply H2, Hp|apply Forall_cons_2; [by apply H1, Hp|apply Forall_nil_2]]).
  assert (Forall is_entry (entries demo_page1)) as H1e by (apply Forall_cons_2; [by apply H1, Hp|apply Forall_nil_2]).
  assert (is_u64 0 /\ is_u64 1) as [Hz Ho] by mlia.
  apply Forall_cons_2; [|apply Forall_cons_2; [|apply Forall_nil_2]].
  - exact (conj (Hr 16%nat 1 eq_refl) (conj Hz (conj I (conj (Hr 32%nat 0 eq_refl) H0e)))).
  - exact (conj (Hr 16%nat 1 eq_refl) (conj Ho (conj I (conj Hd H1e)))).
Qed.

Lemma demo_accepted : accept_all (ingest_new (repeat 1 16) Portable) demo_pages = Some demo_ingest.
Proof. vm_compute. reflexivity. Qed.

Lemma accepted_package_is_a_tree_witness :
  keys_of (demo_path [[122; 105; 112]]) <> keys_of (demo_path [[68; 111; 99; 115]]) /\
  (File = File -> forall more, keys_of (demo_path [[68; 111; 99; 115]]) <> keys_of (demo_path [[122; 105; 112]]) ++ more).
Proof.
  apply (accepted_package_is_a_tree (repeat 1 16) Portable demo_pages demo_ingest 2 0
           (demo_file [[122; 105; 112]]) (demo_directory [[68; 111; 99; 115]]) demo_accepted demo_pages_typed);
    [discriminate|reflexivity|reflexivity].
Defined.

Lemma seal_determines_pages_witness : demo_pages = demo_pages.
Proof.
  apply (seal_determines_pages (repeat 1 16) (repeat 1 16) Portable Portable demo_pages demo_pages demo_ingest demo_ingest demo_seal
    demo_pages_typed demo_pages_typed demo_accepted demo_accepted); [vm_compute; reflexivity|vm_compute; reflexivity|].
  exact (collision_check_correct (H := toy_sha256) (map page_bytes demo_pages) (map page_bytes demo_pages) ltac:(vm_compute; reflexivity)).
Defined.

Lemma honest_manifest_verifies_witness :
  exists s, accept_all (ingest_new (repeat 1 16) Portable) demo_pages = Some s /\ verify_seal s demo_seal = Ok tt.
Proof.
  apply (honest_manifest_verifies (repeat 1 16) Portable demo_pages demo_object);
    [vm_compute; intuition congruence|vm_compute; reflexivity|discriminate|reflexivity].
Defined.

Lemma refusal_poisons_witness :
  let s' := poison demo_ingest in
  digests s' = digests demo_ingest /\ last_path s' = last_path demo_ingest /\ last_file s' = last_file demo_ingest /\
  (forall page', accept page' s' = (Err Poisoned, s')) /\ (forall seal, verify_seal s' seal = Err Poisoned).
Proof. apply (refusal_poisons demo_page0 demo_ingest WrongPageIndex); [reflexivity|vm_compute; reflexivity]. Defined.

Definition demo_items : list (PackagePath * Z * Z) :=
  [(demo_path [[122; 105; 112]], 1, 0); (demo_path [[68; 111; 99; 115]], 0, 0)].
Definition demo_index : list IndexEntry := snd (index_push_all Portable demo_items []).

Lemma index_finds_exactly_witness : forall page entry,
  (page, entry) ∈ candidates (index_finish demo_index) (demo_path [[100; 79; 67; 83]]) Portable <->
  exists path', (path', page, entry) ∈ demo_items /\
    fingerprint_of (path_key path') = fingerprint_of (path_key (demo_path [[100; 79; 67; 83]])).
Proof.
  apply (index_finds_exactly Portable demo_items demo_index);
    [vm_compute; reflexivity|apply index_finish_sorted|apply index_finish_sorted|reflexivity].
Defined.
