(* ===== verification/Receipt.v ===== *)
(** * Receipts ([crates/vot-receipt])

    The receipt value, its timestamp grammar, its canonical CBOR, the signing and
    MAC transcripts, chain verification and witness statements.  SHA-256, Ed25519
    and HMAC are parameters. *)

From S2P Require Import Prelude Cbor Exact Readers Text Digest CommitModel.

Inductive Error :=
| InvalidKey | InvalidKeyId | InvalidTimestamp | InvalidFlags | InvalidClockSource | InvalidSuite | InvalidProvider
| InvalidSubjectLength | InvalidSequence | Authentication | UnexpectedScheme | WitnessHeadMismatch | ChainBroken
| ChainSubjectMismatch | ChainIssuerMismatch | ChainScopeMismatch | AssuranceDidNotAdvance | PredecessorTooWeak
| PredecessorNotObserved | EmptyChain | InvalidEncoding | TooLarge | NonCanonical.

(** ** Timestamps ([time.rs]) *)

Definition is_ascii_digit (b : Z) : bool := in_range 48 57 b.

Definition decimal (bytes : list Z) : option Z :=
  foldl (fun acc byte => match acc with
    | Some value => if is_ascii_digit byte then Some (value * 10 + (byte - 48)) else None
    | None => None
    end) (Some 0) bytes.

Definition days_in_month (year month : Z) : Z :=
  if (month =? 2) && (year mod 4 =? 0) && (negb (year mod 100 =? 0) || (year mod 400 =? 0)) then 29
  else if month =? 2 then 28
  else if mem month [4; 6; 9; 11] then 30
  else 31.

(** [bytes.get(i) == Some(&b)], and [matches!(bytes.get(i), Some(..))]. *)
Definition byte_is (bytes : list Z) (i b : Z) : bool := bool_decide (zget bytes i = Some b).
Definition byte_in (bytes : list Z) (i : Z) (bs : list Z) : bool :=
  match zget bytes i with Some b => mem b bs | None => false end.

(** [iter().take_while(u8::is_ascii_digit).count()]. *)
Fixpoint digit_count (bytes : list Z) : Z :=
  match bytes with
  | [] => 0
  | b :: rest => if is_ascii_digit b then 1 + digit_count rest else 0
  end.

Definition valid_rfc3339 (bytes : list Z) : bool :=
  if (zlen bytes <? 20) || (35 <? zlen bytes) || negb (byte_is bytes 4 45) || negb (byte_is bytes 7 45) ||
     negb (byte_in bytes 10 [84; 116]) || negb (byte_is bytes 13 58) || negb (byte_is bytes 16 58) then false else
  match decimal (slice bytes 0 4), decimal (slice bytes 5 7), decimal (slice bytes 8 10),
        decimal (slice bytes 11 13), decimal (slice bytes 14 16), decimal (slice bytes 17 19) with
  | Some year, Some month, Some day, Some hour, Some minute, Some second =>
      if negb (in_range 1 12 month) || (day =? 0) || (days_in_month year month <? day) || (23 <? hour) ||
         (59 <? minute) || (60 <? second) then false else
      let offset := 19 in
      let fraction :=
        if byte_is bytes offset 46 then
          let fraction_start := offset + 1 in
          let digits := digit_count (zdrop fraction_start bytes) in
          if digits =? 0 then None else Some (fraction_start + digits)
        else Some offset in
      match fraction with
      | None => false
      | Some offset =>
          if byte_in bytes offset [90; 122] then offset + 1 =? zlen bytes
          else if byte_in bytes offset [43; 45] then
            (zlen bytes =? offset + 6) && byte_is bytes (offset + 3) 58 &&
            match decimal (slice bytes (offset + 1) (offset + 3)) with Some hours => hours <=? 23 | None => false end &&
            match decimal (slice bytes (offset + 4) (offset + 6)) with Some minutes => minutes <=? 59 | None => false end
          else false
      end
  | _, _, _, _, _, _ => false
  end.

(** ** Model ([model.rs]) *)

Inductive AssuranceLevel := AL_Admitted | AL_TransitVerified | AL_Durable | AL_AtRestVerified | AL_Published.
Inductive CommitProfile := CP_Fast | CP_Balanced | CP_Strict.
Inductive SubjectKind := SK_Object | SK_Package.

(** The discriminants. *)
Definition assurance_code (a : AssuranceLevel) : Z :=
  match a with AL_Admitted => 1 | AL_TransitVerified => 2 | AL_Durable => 3 | AL_AtRestVerified => 4 | AL_Published => 5 end.
Definition profile_code (p : CommitProfile) : Z := match p with CP_Fast => 1 | CP_Balanced => 2 | CP_Strict => 3 end.
Definition subject_code (k : SubjectKind) : Z := match k with SK_Object => 0 | SK_Package => 1 end.

Record Receipt := mkReceipt {
  subject_kind : SubjectKind; suite_id : Z; subject_digest : list Z; subject_length : Z;
  assurance : AssuranceLevel; receipt_profile : CommitProfile; actual_predecessor : AssuranceLevel;
  provider : Z; provider_version : list Z; session_id : list Z; incarnation_id : list Z;
  receipt_sequence : Z; observed_at : list Z; clock_source : Z; flags : Z; previous : option (list Z) }.

#[export] Instance AssuranceLevel_eq_dec : EqDecision AssuranceLevel.
Proof. solve_decision. Defined.
#[export] Instance CommitProfile_eq_dec : EqDecision CommitProfile.
Proof. solve_decision. Defined.
#[export] Instance SubjectKind_eq_dec : EqDecision SubjectKind.
Proof. solve_decision. Defined.
#[export] Instance Receipt_eq_dec : EqDecision Receipt.
Proof. solve_decision. Defined.

Definition validate (r : Receipt) : result unit Error :=
  if negb (in_range 1 2 (suite_id r)) then Err InvalidSuite else
  if negb (in_range 1 5 (provider r)) then Err InvalidProvider else
  if i64_max <? subject_length r then Err InvalidSubjectLength else
  if receipt_sequence r =? 0 then Err InvalidSequence else
  if negb (valid_rfc3339 (observed_at r)) then Err InvalidTimestamp else
  if 2 <? clock_source r then Err InvalidClockSource else
  if 15 <? flags r then Err InvalidFlags else Ok tt.

Definition W : Type := M (list Z) Error unit.

(** The writes of [canonical_bytes], after validation. *)
Definition write_receipt (r : Receipt) : W :=
  put_map (match previous r with Some _ => 15 | None => 14 end) ;!
  put_uint 0 ;! put_uint 0 ;!
  put_uint 1 ;! put_array 4 ;! put_uint (subject_code (subject_kind r)) ;! put_uint (suite_id r) ;!
  put_bytes (subject_digest r) ;! put_uint (subject_length r) ;!
  put_uint 2 ;! put_uint (assurance_code (assurance r)) ;!
  put_uint 3 ;! put_uint (profile_code (receipt_profile r)) ;!
  put_uint 4 ;! put_uint (assurance_code (actual_predecessor r)) ;!
  put_uint 5 ;! put_uint (provider r) ;!
  put_uint 6 ;! put_array 3 ;! put_each put_uint (provider_version r) ;!
  put_uint 7 ;! put_bytes (session_id r) ;!
  put_uint 8 ;! put_bytes (incarnation_id r) ;!
  put_uint 9 ;! put_uint (receipt_sequence r) ;!
  put_uint 10 ;! put_text (observed_at r) ;!
  put_uint 11 ;! put_uint (clock_source r) ;!
  put_uint 12 ;! put_uint (suite_id r) ;!
  put_uint 13 ;! put_uint (flags r) ;!
  match previous r with Some p => put_uint 17 ;! put_bytes p | None => ret tt end.

Definition canonical_bytes (r : Receipt) : result (list Z) Error :=
  let? _ := validate r in Ok (snd (write_receipt r [])).

Definition receipt_assurance (level : Assurance) : AssuranceLevel :=
  match level with
  | As_Admitted => AL_Admitted
  | As_TransitVerified => AL_TransitVerified
  | As_Durable => AL_Durable
  | As_AtRestVerified => AL_AtRestVerified
  | As_Published => AL_Published
  end.

Definition model_assurance (level : AssuranceLevel) : Assurance :=
  match level with
  | AL_Admitted => As_Admitted
  | AL_TransitVerified => As_TransitVerified
  | AL_Durable => As_Durable
  | AL_AtRestVerified => As_AtRestVerified
  | AL_Published => As_Published
  end.

Definition model_profile (p : CommitProfile) : Profile :=
  match p with CP_Fast => Pr_Fast | CP_Balanced => Pr_Balanced | CP_Strict => Pr_Strict end.

Definition required_predecessor (p : CommitProfile) : AssuranceLevel :=
  receipt_assurance (CommitModel.required_predecessor (model_profile p)).

(** ** Authentication ([authenticator.rs]) *)

Inductive AuthScheme := S_Ed25519 | S_HmacSha256.

#[export] Instance AuthScheme_eq_dec : EqDecision AuthScheme.
Proof. solve_decision. Defined.

Definition scheme_code (s : AuthScheme) : Z := match s with S_Ed25519 => 1 | S_HmacSha256 => 2 end.
Definition authenticator_len (s : AuthScheme) : Z := match s with S_Ed25519 => 64 | S_HmacSha256 => 32 end.
Definition from_registry (value : Z) : option AuthScheme :=
  if value =? 1 then Some S_Ed25519 else if value =? 2 then Some S_HmacSha256 else None.

Record AuthenticatedReceipt := mkAuthenticated {
  receipt : Receipt; scheme : AuthScheme; key_id : list Z; authentication : list Z }.

#[export] Instance AuthenticatedReceipt_eq_dec : EqDecision AuthenticatedReceipt.
Proof. solve_decision. Defined.

(** ["VOT receipt v0\0"]. *)
Definition DOMAIN : list Z := [86; 79; 84; 32; 114; 101; 99; 101; 105; 112; 116; 32; 118; 48; 0].

Definition validate_key_id (key_id : list Z) : result unit Error :=
  if bool_decide (key_id = []) || (64 <? zlen key_id) then Err InvalidKeyId else Ok tt.

Definition signing_input (scheme : AuthScheme) (key_id : list Z) (receipt : Receipt) : result (list Z) Error :=
  let? _ := validate_key_id key_id in
  let? key_id_len := ok_or (try_from u8_max (zlen key_id)) InvalidKeyId in
  let? canonical := canonical_bytes receipt in
  Ok (DOMAIN ++ to_be_bytes 2 (scheme_code scheme) ++ [key_id_len] ++ key_id ++ canonical).

(** ** Codec ([codec.rs]) *)

Definition write_authenticated (r : AuthenticatedReceipt) (canonical : list Z) : W :=
  put_map 4 ;! put_uint 0 ;! extend canonical ;! put_uint 1 ;! put_uint (scheme_code (scheme r)) ;!
  put_uint 2 ;! put_bytes (key_id r) ;! put_uint 3 ;! put_bytes (authentication r).

Definition encode_authenticated (r : AuthenticatedReceipt) : result (list Z) Error :=
  let? _ := validate_key_id (key_id r) in
  if negb (zlen (authentication r) =? authenticator_len (scheme r)) then Err Authentication else
  let? canonical := canonical_bytes (receipt r) in
  Ok (snd (write_authenticated r canonical [])).

Definition structural (error : Cbor.Error) : Error :=
  match error with
  | Cbor.NonCanonical => NonCanonical
  | Cbor.TooLarge => TooLarge
  | Truncated | Malformed | WrongType | NotUtf8 | Trailing => InvalidEncoding
  end.

Definition fixed_shape (error : Cbor.Error) : Error :=
  match error with Cbor.TooLarge => InvalidEncoding | other => structural other end.

Definition R (A : Type) : Type := M Reader Error A.

Definition read_uint : R Z := mmap_err structural reader_uint.
Definition read_u16 : R Z := let! v := read_uint in lift (ok_or (try_from u16_max v) InvalidEncoding).
Definition read_u8 : R Z := let! v := read_uint in lift (ok_or (try_from u8_max v) InvalidEncoding).
Definition read_map_len : R Z := mmap_err structural (map_len u64_max).
(** [if condition { Ok(()) } else { Err(InvalidEncoding) }]. *)
Definition ensure (b : bool) : R unit := if b then ret tt else fail InvalidEncoding.
Definition exact_key (expected : Z) : R unit := let! k := read_uint in ensure (k =? expected).
Definition exact_map (expected : Z) : R unit := let! n := read_map_len in ensure (n =? expected).
Definition exact_array (expected : Z) : R unit :=
  let! n := mmap_err structural (array_len u64_max) in ensure (n =? expected).
Definition read_bytes (maximum : Z) : R (list Z) := mmap_err structural (reader_bytes maximum).
Definition read_text (maximum : Z) : R (list Z) := mmap_err structural (reader_text maximum).
Definition read_fixed (n : Z) : R (list Z) := mmap_err fixed_shape (fixed_bytes n).

Definition decode_assurance (value : Z) : result AssuranceLevel Error :=
  if value =? 1 then Ok AL_Admitted else if value =? 2 then Ok AL_TransitVerified else
  if value =? 3 then Ok AL_Durable else if value =? 4 then Ok AL_AtRestVerified else
  if value =? 5 then Ok AL_Published else Err InvalidEncoding.

Definition decode_profile (value : Z) : result CommitProfile Error :=
  if value =? 1 then Ok CP_Fast else if value =? 2 then Ok CP_Balanced else if value =? 3 then Ok CP_Strict else
  Err InvalidEncoding.

Definition decode_subject (value : Z) : result SubjectKind Error :=
  if value =? 0 then Ok SK_Object else if value =? 1 then Ok SK_Package else Err InvalidEncoding.

Definition decode_receipt : R Receipt :=
  let! entries := read_map_len in
  ensure ((entries =? 14) || (entries =? 15)) ;!
  exact_key 0 ;!
  let! version := read_uint in
  ensure (version =? 0) ;!
  exact_key 1 ;!
  exact_array 4 ;!
  let! code := read_uint in
  let! subject_kind := lift (decode_subject code) in
  let! suite_id := read_u16 in
  let! subject_digest := read_fixed 32 in
  let! subject_length := read_uint in
  exact_key 2 ;!
  let! code := read_uint in
  let! assurance := lift (decode_assurance code) in
  exact_key 3 ;!
  let! code := read_uint in
  let! profile := lift (decode_profile code) in
  exact_key 4 ;!
  let! code := read_uint in
  let! actual_predecessor := lift (decode_assurance code) in
  exact_key 5 ;!
  let! provider := read_u16 in
  exact_key 6 ;!
  exact_array 3 ;!
  let! major := read_u16 in
  let! minor := read_u16 in
  let! patch := read_u16 in
  exact_key 7 ;!
  let! session_id := read_fixed 16 in
  exact_key 8 ;!
  let! incarnation_id := read_fixed 16 in
  exact_key 9 ;!
  let! sequence := read_uint in
  exact_key 10 ;!
  let! observed_at := read_text 35 in
  exact_key 11 ;!
  let! clock_source := read_u8 in
  exact_key 12 ;!
  let! suite_again := read_u16 in
  ensure (suite_again =? suite_id) ;!
  exact_key 13 ;!
  let! flags := read_u8 in
  let! previous := if entries =? 15 then exact_key 17 ;! let! p := read_fixed 32 in ret (Some p) else ret None in
  let receipt := mkReceipt subject_kind suite_id subject_digest subject_length assurance profile actual_predecessor
    provider [major; minor; patch] session_id incarnation_id sequence observed_at clock_source flags previous in
  lift (validate receipt) ;! ret receipt.

Definition decode_authenticated (input : list Z) : result AuthenticatedReceipt Error :=
  if 65536 <? zlen input then Err TooLarge else
  fst ((exact_map 4 ;!
    exact_key 0 ;!
    let! receipt := decode_receipt in
    exact_key 1 ;!
    let! code := read_uint in
    let! scheme := lift (ok_or (from_registry code) InvalidEncoding) in
    exact_key 2 ;!
    let! key_id := read_bytes 64 in
    (if bool_decide (key_id = []) then fail InvalidKeyId else ret tt) ;!
    exact_key 3 ;!
    let! authentication := read_bytes (authenticator_len scheme) in
    ensure (zlen authentication =? authenticator_len scheme) ;!
    finished (fun _ => InvalidEncoding) ;!
    let authenticated := mkAuthenticated receipt scheme key_id authentication in
    let! encoded := lift (encode_authenticated authenticated) in
    if negb (bool_decide (encoded = input)) then fail NonCanonical else ret authenticated) (reader_new input)).

(** ** Signing and verifying *)

(** The hmac crate's HMAC-SHA256. *)
Class Hmac := mkHmac { hmac_sha256 : list Z -> list Z -> list Z }.

Inductive VerifiedBy := By_Ed25519 (key : list Z) | By_HmacSha256.

#[export] Instance VerifiedBy_eq_dec : EqDecision VerifiedBy.
Proof. solve_decision. Defined.

Record VerifiedReceipt := mkVerified { authenticated : AuthenticatedReceipt; by_ : VerifiedBy }.

Definition verified_receipt (v : VerifiedReceipt) : Receipt := receipt (authenticated v).

Section authentication.
Context `{H : Sha256} `{E : Ed25519} `{K : Hmac}.

(** [AuthenticatedReceipt::digest]. *)
Definition digest (r : AuthenticatedReceipt) : result (list Z) Error :=
  let? encoded := encode_authenticated r in Ok (sha256 encoded).

Definition sign_ed25519 (receipt : Receipt) (key_id key : list Z) : result AuthenticatedReceipt Error :=
  let? input := signing_input S_Ed25519 key_id receipt in
  Ok (mkAuthenticated receipt S_Ed25519 key_id (sign key input)).

Definition verify_ed25519 (r : AuthenticatedReceipt) (key : list Z) : result VerifiedReceipt Error :=
  if negb (bool_decide (scheme r = S_Ed25519)) then Err UnexpectedScheme else
  if negb (zlen (authentication r) =? 64) then Err Authentication else
  let? input := signing_input S_Ed25519 (key_id r) (receipt r) in
  if verify_strict key input (authentication r) then Ok (mkVerified r (By_Ed25519 key)) else Err Authentication.

Definition authenticate_hmac_sha256 (receipt : Receipt) (key_id key : list Z) : result AuthenticatedReceipt Error :=
  if zlen key <? 32 then Err InvalidKey else
  let? input := signing_input S_HmacSha256 key_id receipt in
  Ok (mkAuthenticated receipt S_HmacSha256 key_id (hmac_sha256 key input)).

Definition verify_hmac_sha256 (r : AuthenticatedReceipt) (key : list Z) : result VerifiedReceipt Error :=
  if negb (bool_decide (scheme r = S_HmacSha256)) then Err UnexpectedScheme else
  if zlen key <? 32 then Err InvalidKey else
  let? input := signing_input S_HmacSha256 (key_id r) (receipt r) in
  if bool_decide (hmac_sha256 key input = authentication r) then Ok (mkVerified r By_HmacSha256) else Err Authentication.

(** ** Chains ([chain.rs]) *)

Definition subject_identity (r : Receipt) : SubjectKind * Z * list Z * Z :=
  (subject_kind r, suite_id r, subject_digest r, subject_length r).

Definition chain_scope (r : Receipt) : Z * list Z * list Z * list Z :=
  (provider r, provider_version r, session_id r, incarnation_id r).

Definition check_predecessor (r : Receipt) (observed : list AssuranceLevel) : result unit Error :=
  if negb (bool_decide (assurance r = AL_Published)) then Ok tt else
  let required := model_assurance (required_predecessor (receipt_profile r)) in
  if negb (bool_decide (model_assurance (actual_predecessor r) = required)) then Err PredecessorTooWeak else
  if negb (existsb (fun level => bool_decide (model_assurance level = required)) observed) then Err PredecessorNotObserved else
  Ok tt.

(** The loop over the entries after the first, its mutable variables as arguments. *)
Fixpoint verify_rest (subject : SubjectKind * Z * list Z * Z) (scope : Z * list Z * list Z * list Z) (by_0 : VerifiedBy)
    (previous_digest : list Z) (previous_sequence : Z) (previous_assurance : AssuranceLevel)
    (observed : list AssuranceLevel) (entries : list VerifiedReceipt) : result unit Error :=
  match entries with
  | [] => Ok tt
  | entry :: rest =>
      let r := verified_receipt entry in
      if negb (bool_decide (previous r = Some previous_digest)) then Err ChainBroken else
      if negb (bool_decide (subject_identity r = subject)) then Err ChainSubjectMismatch else
      if negb (bool_decide (by_ entry = by_0)) then Err ChainIssuerMismatch else
      if negb (bool_decide (chain_scope r = scope)) then Err ChainScopeMismatch else
      if receipt_sequence r <=? previous_sequence then Err InvalidSequence else
      if Assurance_ord (model_assurance (assurance r)) <=? Assurance_ord (model_assurance previous_assurance)
      then Err AssuranceDidNotAdvance else
      let? _ := check_predecessor r observed in
      let? d := digest (authenticated entry) in
      verify_rest subject scope by_0 d (receipt_sequence r) (assurance r) (observed ++ [assurance r]) rest
  end.

Definition verify_chain (chain : list VerifiedReceipt) : result unit Error :=
  match chain with
  | [] => Err EmptyChain
  | first :: rest =>
      let r := verified_receipt first in
      match previous r with
      | Some _ => Err ChainBroken
      | None =>
          let? d := digest (authenticated first) in
          let? _ := check_predecessor r [] in
          verify_rest (subject_identity r) (chain_scope r) (by_ first) d (receipt_sequence r) (assurance r) [assurance r] rest
      end
  end.

(** ** Witness statements ([witness.rs]) *)

(** ["VOT witness v0\0"]. *)
Definition WITNESS_DOMAIN : list Z := [86; 79; 84; 32; 119; 105; 116; 110; 101; 115; 115; 32; 118; 48; 0].

Record WitnessStatement := mkStatement { witness_head : list Z; witness_observed_at : list Z; witness_key_id : list Z }.
Record WitnessSignature := mkWitness { statement : WitnessStatement; witness_scheme : AuthScheme; witness_authentication : list Z }.

Definition statement_validate (s : WitnessStatement) : result unit Error :=
  let? _ := validate_key_id (witness_key_id s) in
  if negb (valid_rfc3339 (witness_observed_at s)) then Err InvalidTimestamp else Ok tt.

Definition write_statement (s : WitnessStatement) : W :=
  extend WITNESS_DOMAIN ;! put_map 3 ;! put_uint 0 ;! put_bytes (witness_head s) ;! put_uint 1 ;! put_text (witness_observed_at s) ;!
  put_uint 2 ;! put_bytes (witness_key_id s).

Definition statement_bytes (s : WitnessStatement) : result (list Z) Error :=
  let? _ := statement_validate s in Ok (snd (write_statement s [])).

Definition witness_ed25519 (s : WitnessStatement) (key : list Z) : result WitnessSignature Error :=
  let? bytes := statement_bytes s in Ok (mkWitness s S_Ed25519 (sign key bytes)).

Definition verify_witness (w : WitnessSignature) (expected key : list Z) : result unit Error :=
  if negb (bool_decide (witness_head (statement w) = expected)) then Err WitnessHeadMismatch else
  if negb (bool_decide (witness_scheme w = S_Ed25519)) then Err UnexpectedScheme else
  if negb (zlen (witness_authentication w) =? 64) then Err Authentication else
  let? bytes := statement_bytes (statement w) in
  if verify_strict key bytes (witness_authentication w) then Ok tt else Err Authentication.

End authentication.
