(* ===== verification/ReceiptCodec.v ===== *)
(** * The receipt codec and its transcripts

    Decoding accepts exactly what the encoder writes; the bytes an authenticator
    covers determine the scheme, the key label and the receipt, and are never the
    bytes a witness signs. *)

From S2P Require Import Prelude Cbor Exact Readers Text Digest CommitModel Receipt.

(** ** Values of the Rust types *)


Definition is_text (bs : list Z) : Prop := byte_list bs /\ utf8_valid bs = true /\ zlen bs <= i64_max.

Definition is_receipt (r : Receipt) : Prop :=
  is_u16 (suite_id r) /\ is_bytes 32 (subject_digest r) /\ is_u64 (subject_length r) /\ is_u16 (provider r) /\
  (Forall is_u16 (provider_version r) /\ length (provider_version r) = 3%nat) /\
  is_bytes 16 (session_id r) /\ is_bytes 16 (incarnation_id r) /\ is_u64 (receipt_sequence r) /\
  is_text (observed_at r) /\ is_u8 (clock_source r) /\ is_u8 (flags r) /\ option_is (is_bytes 32) (previous r).

Definition is_authenticated (a : AuthenticatedReceipt) : Prop :=
  is_receipt (receipt a) /\ byte_list (key_id a) /\ byte_list (authentication a).

(** ** The bytes of each value *)

Definition receipt_bytes (r : Receipt) : list Z :=
  map_head [] (match previous r with Some _ => 15 | None => 14 end) ++
  uint [] 0 ++ uint [] 0 ++
  uint [] 1 ++ array [] 4 ++ uint [] (subject_code (subject_kind r)) ++ uint [] (suite_id r) ++
  bytes [] (subject_digest r) ++ uint [] (subject_length r) ++
  uint [] 2 ++ uint [] (assurance_code (assurance r)) ++
  uint [] 3 ++ uint [] (profile_code (receipt_profile r)) ++
  uint [] 4 ++ uint [] (assurance_code (actual_predecessor r)) ++
  uint [] 5 ++ uint [] (provider r) ++
  uint [] 6 ++ array [] 3 ++ concat (map (uint []) (provider_version r)) ++
  uint [] 7 ++ bytes [] (session_id r) ++
  uint [] 8 ++ bytes [] (incarnation_id r) ++
  uint [] 9 ++ uint [] (receipt_sequence r) ++
  uint [] 10 ++ text [] (observed_at r) ++
  uint [] 11 ++ uint [] (clock_source r) ++
  uint [] 12 ++ uint [] (suite_id r) ++
  uint [] 13 ++ uint [] (flags r) ++
  some_bytes (fun p => uint [] 17 ++ bytes [] p) (previous r).

Definition authenticated_bytes (a : AuthenticatedReceipt) : list Z :=
  map_head [] 4 ++ uint [] 0 ++ receipt_bytes (receipt a) ++ uint [] 1 ++ uint [] (scheme_code (scheme a)) ++
  uint [] 2 ++ bytes [] (key_id a) ++ uint [] 3 ++ bytes [] (authentication a).

Lemma emits_receipt r : emits (write_receipt r) (receipt_bytes r).
Proof.
  unfold write_receipt, receipt_bytes. repeat (eapply emits_bind; [solve [eauto with emit]|]).
  destruct (previous r); [solve_emits|apply emits_ret].
Qed.

Lemma canonical_bytes_ok r : canonical_bytes r = (let? _ := validate r in Ok (receipt_bytes r)).
Proof. unfold canonical_bytes. by rewrite (emits_receipt r []). Qed.

Lemma encode_authenticated_ok a : encode_authenticated a =
  (let? _ := validate_key_id (key_id a) in
   if negb (zlen (authentication a) =? authenticator_len (scheme a)) then Err Authentication else
   let? _ := validate (receipt a) in Ok (authenticated_bytes a)).
Proof.
  unfold encode_authenticated. destruct (validate_key_id _); [|done]. destruct (negb _); [done|].
  rewrite canonical_bytes_ok. destruct (validate (receipt a)); [|done].
  assert (emits (write_authenticated a (receipt_bytes (receipt a))) (authenticated_bytes a)) as He
    by (unfold write_authenticated, authenticated_bytes; solve_emits).
  by rewrite (He []).
Qed.

(** ** Reading *)

Lemma validate_inv r : validate r = Ok tt ->
  1 <= suite_id r <= 2 /\ 1 <= provider r <= 5 /\ subject_length r <= i64_max /\ receipt_sequence r <> 0 /\
  valid_rfc3339 (observed_at r) = true /\ clock_source r <= 2 /\ flags r <= 15.
Proof.
  unfold validate, in_range. repeat match goal with |- (if ?c then _ else _) = _ -> _ => destruct c eqn:?; [done|] end. intros _.
  repeat match goal with H : negb _ = false |- _ => apply negb_false_iff in H end.
  rewrite ?andb_true_iff, ?Z.leb_le, ?Z.ltb_ge, ?Z.eqb_neq in *. split_and!; try lia; done.
Qed.

Lemma rfc3339_length bs : valid_rfc3339 bs = true -> 20 <= zlen bs <= 35.
Proof.
  unfold valid_rfc3339. destruct (_ || _) eqn:Hb; [done|]. intros _.
  do 5 (apply orb_false_iff in Hb as [Hb _]). apply orb_false_iff in Hb as [H1%Z.ltb_ge H2%Z.ltb_ge]. lia.
Qed.

Lemma reads_u16 v : is_u16 v -> reads read_u16 (uint [] v) v.
Proof.
  intros Hv. eapply reads_bind_nil; [apply reads_uint; unfold is_u16 in *; mlia|]. unfold try_from.
  rewrite (proj2 (Z.leb_le _ _)) by apply Hv. apply reads_ret.
Qed.
Lemma reads_u8 v : is_u8 v -> reads read_u8 (uint [] v) v.
Proof.
  intros Hv. eapply reads_bind_nil; [apply reads_uint; mlia|]. unfold try_from.
  rewrite (proj2 (Z.leb_le _ _)) by apply Hv. apply reads_ret.
Qed.
Lemma receipt_reads_ensure b : b = true -> reads (ensure b) [] tt.
Proof. intros ->. apply reads_ret. Qed.
Lemma receipt_reads_key n : is_u64 n -> reads (exact_key n) (uint [] n) tt.
Proof. intros Hn. eapply reads_bind_nil; [by apply reads_uint|]. by apply receipt_reads_ensure, Z.eqb_eq. Qed.
Lemma reads_exact_map n : is_u64 n -> reads (exact_map n) (map_head [] n) tt.
Proof. intros Hn. eapply reads_bind_nil; [apply reads_map_len; [done|mlia]|]. by apply receipt_reads_ensure, Z.eqb_eq. Qed.
Lemma reads_exact_array n : is_u64 n -> reads (exact_array n) (array [] n) tt.
Proof. intros Hn. eapply reads_bind_nil; [apply reads_array_len; [done|mlia]|]. by apply receipt_reads_ensure, Z.eqb_eq. Qed.

Lemma reads_lift {A} (x : result A Error) a : x = Ok a -> reads (lift x) [] a.
Proof. intros ->. apply reads_ret. Qed.

Ltac side := first [assumption | reflexivity | mlia | done].
Ltac item :=
  first [ apply receipt_reads_key | apply reads_u16 | apply reads_u8 | apply reads_exact_array | apply reads_exact_map
        | apply reads_uint | apply reads_id | apply reads_text | apply reads_bytes | apply reads_map_len ]; side.
Ltac step :=
  first [ eapply reads_silent; [apply receipt_reads_ensure; side|]
        | eapply reads_silent; [apply reads_lift; eassumption|]
        | eapply reads_bind; [item|]
        | eapply reads_bind_nil; [item|] ]; cbv beta.

Lemma reads_assurance_code a : is_u64 (assurance_code a) /\ decode_assurance (assurance_code a) = Ok a.
Proof. by destruct a. Qed.
Lemma reads_profile_code p : is_u64 (profile_code p) /\ decode_profile (profile_code p) = Ok p.
Proof. by destruct p. Qed.
Lemma reads_subject_code k : is_u64 (subject_code k) /\ decode_subject (subject_code k) = Ok k.
Proof. by destruct k. Qed.

Lemma reads_receipt r : is_receipt r -> validate r = Ok tt -> reads decode_receipt (receipt_bytes r) r.
Proof.
  intros (H1 & H2 & H3 & H4 & (H5 & H5') & H6 & H7 & H8 & (H9 & H9u & H9l) & H10 & H11 & H12) Hv.
  pose proof (validate_inv r Hv) as (_ & _ & _ & _ & Ht & _). apply rfc3339_length in Ht.
  destruct (reads_assurance_code (assurance r)) as [A1 A2]. destruct (reads_assurance_code (actual_predecessor r)) as [P1 P2].
  destruct (reads_profile_code (receipt_profile r)) as [C1 C2]. destruct (reads_subject_code (subject_kind r)) as [S1 S2].
  destruct (provider_version r) as [|v1 [|v2 [|v3 [|]]]] eqn:Ev; try done.
  apply Forall_cons in H5 as [V1 [V2 [V3 _]%Forall_cons]%Forall_cons].
  assert (forall e : Z, e = match previous r with Some _ => 15 | None => 14 end -> is_u64 e /\ ((e =? 14) || (e =? 15)) = true) as He
    by (intros e ->; by destruct (previous r)).
  unfold decode_receipt, receipt_bytes. rewrite Ev. cbn [map concat]. rewrite app_nil_r, <- !app_assoc.
  destruct (He _ eq_refl) as [He1 He2]. do 40 step.
  eapply reads_silent; [apply receipt_reads_ensure, Z.eqb_refl|]. do 2 step.
  eapply (reads_bind_nil _ _ _ (previous r)).
  { destruct (previous r) as [p|]; cbn [some_bytes]; [|apply reads_ret]. do 2 step. apply reads_ret. }
  cbv zeta. replace (mkReceipt _ _ _ _ _ _ _ _ _ _ _ _ _ _ _ _) with r by (rewrite <- Ev; by destruct r).
  step. apply reads_ret.
Qed.

Lemma from_registry_code s : is_u64 (scheme_code s) /\ from_registry (scheme_code s) = Some s.
Proof. by destruct s. Qed.

Lemma receipt_size r : is_receipt r -> validate r = Ok tt -> zlen (receipt_bytes r) <= 600.
Proof.
  intros (_ & [_ H2] & _ & _ & (_ & H5) & [_ H6] & [_ H7] & _ & (_ & _ & H9) & _ & _ & H12) Hv.
  pose proof (validate_inv r Hv) as (_ & _ & _ & _ & Ht & _). apply rfc3339_length in Ht.
  destruct (provider_version r) as [|v1 [|v2 [|v3 [|]]]] eqn:Ev; try done.
  unfold receipt_bytes. rewrite Ev. cbn [map concat]. unfold map_head, uint, array.
  rewrite !zlen_app, !zlen_head, !zlen_bytes, zlen_text, H2, H6, H7 by mlia.
  assert (zlen (some_bytes (fun p => head [] UNSIGNED 17 ++ bytes [] p) (previous r)) <= 40).
  { destruct (previous r) as [p|]; cbn [some_bytes option_is] in *; [|done]. destruct H12 as [_ Hp].
    rewrite zlen_app, zlen_head, zlen_bytes, Hp by mlia. done. }
  assert (payload_len (zlen (observed_at r)) <= 44).
  { unfold payload_len, saturating_add. pose proof (head_len_range (zlen (observed_at r))). lia. }
  change (payload_len 32) with 34. change (payload_len 16) with 17. change (zlen (@nil Z)) with 0.
  repeat match goal with |- context [head_len ?v] => let h := fresh in pose proof (head_len_range v) as h; revert h;
    generalize (head_len v); intros end. lia.
Qed.

Lemma validate_key_id_inv k : validate_key_id k = Ok tt <-> k <> [] /\ zlen k <= 64.
Proof.
  unfold validate_key_id. destruct (bool_decide (k = [])) eqn:Hk; [apply bool_decide_eq_true in Hk|apply bool_decide_eq_false in Hk];
    simpl; [naive_solver|]. destruct (Z.ltb_spec 64 (zlen k)); naive_solver lia.
Qed.

Lemma decode_encoded a : is_authenticated a -> validate_key_id (key_id a) = Ok tt ->
  zlen (authentication a) = authenticator_len (scheme a) -> validate (receipt a) = Ok tt ->
  decode_authenticated (authenticated_bytes a) = Ok a.
Proof.
  intros (Hr & Hk & Ha) Hkv Hz Hv. pose proof (encode_authenticated_ok a) as He.
  rewrite Hkv, (proj2 (Z.eqb_eq _ _) Hz), Hv in He. cbn [negb] in He. apply validate_key_id_inv in Hkv as [Hne Hkl].
  destruct (from_registry_code (scheme a)) as [S1 S2].
  assert (0 <= authenticator_len (scheme a) <= 64) as Hal by (destruct (scheme a); simpl; lia).
  pose proof (zlen_nonneg (key_id a)).
  assert (zlen (authenticated_bytes a) <= 1000) as Hlen.
  { unfold authenticated_bytes, uint, map_head. pose proof (receipt_size _ Hr Hv).
    rewrite !zlen_app, !zlen_head, !zlen_bytes by mlia. unfold payload_len, saturating_add.
    repeat match goal with |- context [head_len ?v] => let h := fresh in pose proof (head_len_range v) as h; revert h;
      generalize (head_len v); intros end. lia. }
  unfold decode_authenticated. rewrite (proj2 (Z.ltb_ge _ _)) by lia. apply reads_all_run; [|mlia].
  unfold authenticated_bytes at 2. do 2 (eapply reads_all_bind; [item|]).
  eapply reads_all_bind; [by apply reads_receipt|]. do 2 (eapply reads_all_bind; [item|]).
  eapply reads_all_silent; [apply reads_lift; by rewrite S2|]. do 2 (eapply reads_all_bind; [item|]).
  eapply reads_all_silent; [rewrite bool_decide_eq_false_2 by done; apply reads_ret|]. eapply reads_all_bind; [item|].
  eapply reads_all_nil; [item|].
  eapply reads_all_silent; [by apply receipt_reads_ensure, Z.eqb_eq|]. apply reads_all_finish. cbv zeta.
  replace (mkAuthenticated _ _ _ _) with a by (by destruct a). eapply reads_all_silent; [apply reads_lift, He|].
  rewrite bool_decide_eq_true_2 by done. by intros pre _.
Qed.

(** ** What decoding returns *)

Lemma yields_u16 : yields read_u16 is_u16.
Proof. eapply yields_bind; [apply yields_uint|]. intros v Hv. apply yields_try_from. mlia. Qed.
Lemma yields_u8 : yields read_u8 is_u8.
Proof. eapply yields_bind; [apply yields_uint|]. intros v Hv. apply yields_try_from. mlia. Qed.
Lemma receipt_yields_ensure b : yields (ensure b) (fun _ => b = true).
Proof. unfold ensure. destruct b; [by apply yields_ret|apply yields_fail]. Qed.
Lemma receipt_yields_key n : yields (exact_key n) (fun _ => True).
Proof. eapply yields_bind; [apply yields_uint|]. intros v _. eapply yields_weaken; [apply receipt_yields_ensure|done]. Qed.
Lemma yields_exact_map n : yields (exact_map n) (fun _ => True).
Proof. eapply yields_bind; [apply yields_map_len|]. intros v _. eapply yields_weaken; [apply receipt_yields_ensure|done]. Qed.
Lemma yields_exact_array n : yields (exact_array n) (fun _ => True).
Proof. eapply yields_bind; [apply yields_array_len|]. intros v _. eapply yields_weaken; [apply receipt_yields_ensure|done]. Qed.

Ltac yitem :=
  first [ apply receipt_yields_key | apply receipt_yields_ensure | apply yields_u16 | apply yields_u8 | apply yields_exact_array
        | apply yields_exact_map | apply yields_uint | apply yields_finished | apply yields_map_len
        | apply yields_fixed; mlia | apply yields_text; mlia | apply yields_bytes; mlia | apply yields_lift ].
Ltac ystep :=
  first [ apply yields_ret | eapply yields_bind; [yitem|intros ? ?; cbv beta in *] ].

Lemma yields_receipt : yields decode_receipt (fun r => is_receipt r /\ validate r = Ok tt).
Proof.
  unfold decode_receipt. do 43 ystep.
  eapply (yields_bind _ _ (option_is (is_bytes 32))).
  { apply yields_if; [|by apply yields_ret]. do 2 ystep. by apply yields_ret. }
  intros prev Hprev. cbv zeta. eapply yields_bind; [apply yields_lift|]. intros [] Hv. apply yields_ret.
  split; [|done]. destruct_and?. split_and!; simpl; try done; try mlia. 
  - by repeat first [apply Forall_cons_2 | apply Forall_nil_2].
  - split_and!; [done..|mlia].
Qed.

Lemma authenticator_len_range s : 0 <= authenticator_len s <= u64_max.
Proof. destruct s; simpl; mlia. Qed.

Lemma decode_typed input a : byte_list input -> zlen input <= i64_max -> decode_authenticated input = Ok a ->
  is_authenticated a /\ encode_authenticated a = Ok input.
Proof.
  intros Hb Hl. unfold decode_authenticated. destruct (65536 <? zlen input); [done|].
  refine (yields_run _ (fun a => is_authenticated a /\ encode_authenticated a = Ok input) _ _ _ Hb Hl).
  do 2 ystep. eapply yields_bind; [apply yields_receipt|]. intros r [Hr Hv]. do 5 ystep.
  eapply (yields_bind _ _ (fun _ => True)); [apply yields_if; [apply yields_fail|by apply yields_ret]|]. intros _ _.
  ystep. eapply yields_bind; [apply yields_bytes, authenticator_len_range|]. intros au [Hau _]. do 2 ystep. cbv zeta.
  eapply yields_bind; [apply yields_lift|]. intros enc He. destruct (bool_decide (enc = input)) eqn:Hd; [|apply yields_fail].
  apply bool_decide_eq_true in Hd as ->. apply yields_ret. split; [|done]. destruct_and?. done.
Qed.

Lemma encoded_bytes a out : is_authenticated a -> encode_authenticated a = Ok out ->
  out = authenticated_bytes a /\ decode_authenticated out = Ok a.
Proof.
  intros Ha He. rewrite encode_authenticated_ok in He.
  destruct (validate_key_id (key_id a)) as [[]|] eqn:Hk; [|done].
  destruct (Z.eqb_spec (zlen (authentication a)) (authenticator_len (scheme a))); [|done].
  destruct (validate (receipt a)) as [[]|] eqn:Hv; [|done]. injection He as <-. split; [done|by apply decode_encoded].
Qed.

(** Receipts are canonical.  Every envelope the decoder accepts is well typed and is byte for byte what the
    encoder writes for it, and every envelope the encoder accepts decodes to itself, whatever its key label,
    scheme and link: no receipt has a second accepted encoding, so its digest identifies it. *)
Theorem receipt_codec_exact :
  (forall input a, byte_list input -> zlen input <= i64_max -> decode_authenticated input = Ok a ->
     is_authenticated a /\ encode_authenticated a = Ok input) /\
  (forall a out, is_authenticated a -> encode_authenticated a = Ok out -> decode_authenticated out = Ok a).
Proof.
  split; [exact decode_typed|]. intros a out Ha He. by apply encoded_bytes.
Qed.

(** ** Transcripts *)

Lemma receipt_bytes_inj r r' : is_receipt r -> is_receipt r' -> validate r = Ok tt -> validate r' = Ok tt ->
  receipt_bytes r = receipt_bytes r' -> r = r'.
Proof.
  intros Hr Hr' Hv Hv' He. pose proof (reads_receipt r Hr Hv [] []) as H1. pose proof (reads_receipt r' Hr' Hv' [] []) as H2.
  rewrite app_nil_r, app_nil_l in H1, H2. rewrite <- He in H2. pose proof (receipt_size r Hr Hv).
  rewrite H1 in H2 by mlia. specialize (H2 ltac:(mlia)). by injection H2.
Qed.

Lemma signing_input_ok s k r : signing_input s k r =
  (let? _ := validate_key_id k in let? _ := validate r in
   Ok (DOMAIN ++ to_be_bytes 2 (scheme_code s) ++ [zlen k] ++ k ++ receipt_bytes r)).
Proof.
  unfold signing_input. destruct (validate_key_id k) as [[]|] eqn:Hk; [|done]. apply validate_key_id_inv in Hk as [_ Hk].
  unfold try_from. rewrite (proj2 (Z.leb_le _ _)) by mlia. simpl. rewrite canonical_bytes_ok. by destruct (validate r) as [[]|].
Qed.

Lemma statement_bytes_domain w i : statement_bytes w = Ok i -> exists rest, i = WITNESS_DOMAIN ++ rest.
Proof.
  unfold statement_bytes. destruct (statement_validate w); [|done].
  assert (emits (write_statement w) (WITNESS_DOMAIN ++ map_head [] 3 ++ uint [] 0 ++ bytes [] (witness_head w) ++ uint [] 1 ++
    text [] (witness_observed_at w) ++ uint [] 2 ++ bytes [] (witness_key_id w))) as Hw by (unfold write_statement; solve_emits).
  rewrite (Hw []). intros [= <-]. by eexists.
Qed.

(** What an authenticator covers determines the receipt.  Two transcripts are equal only for the same scheme,
    the same key label and the same receipt, and no receipt's transcript is what a witness signs: a signature
    cannot be moved to another scheme, relabelled, or presented for another statement. *)
Theorem transcripts_bind s k r s' k' r' i :
  is_receipt r -> is_receipt r' -> signing_input s k r = Ok i ->
  (signing_input s' k' r' = Ok i -> s = s' /\ k = k' /\ r = r') /\
  (forall w, statement_bytes w <> Ok i).
Proof.
  intros Hr Hr' Hi. rewrite signing_input_ok in Hi. destruct (validate_key_id k) as [[]|] eqn:Hk; [|done].
  destruct (validate r) as [[]|] eqn:Hv; [|done]. injection Hi as <-. split.
  - rewrite signing_input_ok. destruct (validate_key_id k') as [[]|]; [|done]. destruct (validate r') as [[]|] eqn:Hv'; [|done].
    intros [= _ Hs Hz He]. assert (s = s') as -> by (by destruct s, s').
    assert (length k' = length k) as Hl by (unfold zlen in Hz; lia).
    destruct (app_inj_1 k' k _ _ Hl He) as [-> Hb]. split_and!; [done..|]. symmetry in Hb. by apply receipt_bytes_inj.
  - intros w [rest Hw]%statement_bytes_domain. discriminate Hw.
Qed.

(** A receipt for an object at rest, and its transcript. *)
Definition demo_rest_receipt : Receipt :=
  mkReceipt SK_Object 1 (repeat 7 32) 4096 AL_AtRestVerified CP_Strict AL_AtRestVerified 1 [0; 3; 0]
    (repeat 2 16) (repeat 3 16) 4 [50; 48; 50; 54; 45; 48; 55; 45; 51; 49; 84; 49; 54; 58; 48; 48; 58; 48; 48; 90] 1 0 None.

Lemma demo_rest_typed : is_receipt demo_rest_receipt.
Proof.
  unfold is_receipt, demo_rest_receipt. simpl.
  repeat apply conj; try done; try mlia; try (by apply (is_bytes_repeat 32)); try (by apply (is_bytes_repeat 16)).
  - repeat (apply Forall_cons_2; [unfold is_u16; mlia|]). apply Forall_nil_2.
  - by apply byte_list_check.
Qed.

Definition demo_transcript : list Z := Eval vm_compute in match signing_input S_Ed25519 [107] demo_rest_receipt with Ok i => i | Err _ => [] end.

Lemma transcripts_bind_witness : S_Ed25519 = S_Ed25519 /\ [107] = [107] /\ demo_rest_receipt = demo_rest_receipt.
Proof.
  assert (signing_input S_Ed25519 [107] demo_rest_receipt = Ok demo_transcript) as Hi by (vm_compute; reflexivity).
  apply (transcripts_bind S_Ed25519 [107] demo_rest_receipt S_Ed25519 [107] demo_rest_receipt demo_transcript
    demo_rest_typed demo_rest_typed Hi). exact Hi.
Defined.
