(* ===== verification/ReceiptChain.v ===== *)
(** * What a verified chain of receipts proves

    A chain that verifies is one issuer's account of one subject in which
    assurance only advances and a publication follows the observation its profile
    requires; its head digest determines every entry before it; and the
    observations of any run of the commit machine, certified honestly, verify. *)

From S2P Require Import Prelude Cbor Exact Readers Text Digest CommitModel Receipt ReceiptCodec.

Section chain.
Context `{H : Sha256}.

(** The digest of an entry, where it encodes. *)
Definition digest_of (v : VerifiedReceipt) : option (list Z) :=
  match digest (authenticated v) with Ok d => Some d | Err _ => None end.

Definition level_of (v : VerifiedReceipt) : AssuranceLevel := assurance (verified_receipt v).
Definition rank (v : VerifiedReceipt) : Z := Assurance_ord (model_assurance (level_of v)).
Definition position_of (v : VerifiedReceipt) : Z := receipt_sequence (verified_receipt v).
Definition same_account (u v : VerifiedReceipt) : Prop :=
  subject_identity (verified_receipt u) = subject_identity (verified_receipt v) /\
  chain_scope (verified_receipt u) = chain_scope (verified_receipt v) /\ by_ u = by_ v.

(** An entry is a publication only after the assurance its profile requires. *)
Definition justified (observed : list AssuranceLevel) (v : VerifiedReceipt) : Prop :=
  level_of v = AL_Published ->
  actual_predecessor (verified_receipt v) = required_predecessor (receipt_profile (verified_receipt v)) /\
  required_predecessor (receipt_profile (verified_receipt v)) ∈ observed.

Lemma model_assurance_inj a b : model_assurance a = model_assurance b -> a = b.
Proof. by destruct a, b. Qed.

Lemma check_predecessor_ok v observed : check_predecessor (verified_receipt v) observed = Ok tt <-> justified observed v.
Proof.
  unfold check_predecessor, justified, level_of. destruct (bool_decide (assurance _ = AL_Published)) eqn:Hp; simpl.
  2:{ apply bool_decide_eq_false in Hp. naive_solver. }
  apply bool_decide_eq_true in Hp.
  destruct (bool_decide (model_assurance (actual_predecessor _) = _)) eqn:Ha; simpl.
  2:{ apply bool_decide_eq_false in Ha. split; [done|]. intros Hj. destruct (Hj Hp) as [E _]. by rewrite E in Ha. }
  apply bool_decide_eq_true, model_assurance_inj in Ha.
  destruct (existsb _ observed) eqn:He; simpl; split; try done.
  - intros _ _. split; [done|]. apply existsb_exists in He as (l & Hl & Hm%bool_decide_eq_true%model_assurance_inj).
    subst. by apply list_elem_of_In.
  - intros Hj. destruct (Hj Hp) as [_ Hin]. exfalso. rewrite <- not_true_iff_false in He. apply He, existsb_exists.
    eexists. split; [by apply list_elem_of_In|]. by apply bool_decide_eq_true.
Qed.

(** Entry [v] continues a chain that ends in [u] after [observed]. *)
Definition follows (u : VerifiedReceipt) (observed : list AssuranceLevel) (v : VerifiedReceipt) : Prop :=
  previous (verified_receipt v) = digest_of u /\ digest_of u <> None /\ same_account v u /\
  position_of u < position_of v /\ rank u < rank v /\ justified observed v.

Fixpoint continues (u : VerifiedReceipt) (observed : list AssuranceLevel) (vs : list VerifiedReceipt) : Prop :=
  match vs with
  | [] => digest_of u <> None
  | v :: rest => follows u observed v /\ continues v (observed ++ [level_of v]) rest
  end.

Lemma verify_rest_ok u d observed vs : digest_of u = Some d ->
  verify_rest (subject_identity (verified_receipt u)) (chain_scope (verified_receipt u)) (by_ u) d
    (position_of u) (level_of u) observed vs = Ok tt <-> continues u observed vs.
Proof.
  revert u d observed. induction vs as [|v vs IH]; intros u d observed Hd.
  { simpl. rewrite Hd. done. }
  cbn [verify_rest continues]. unfold follows, same_account. rewrite Hd.
  destruct (bool_decide (previous _ = Some d)) eqn:H1; [apply bool_decide_eq_true in H1|apply bool_decide_eq_false in H1; naive_solver].
  destruct (bool_decide (subject_identity _ = _)) eqn:H2; [apply bool_decide_eq_true in H2|apply bool_decide_eq_false in H2; naive_solver].
  destruct (bool_decide (by_ v = _)) eqn:H3; [apply bool_decide_eq_true in H3|apply bool_decide_eq_false in H3; naive_solver].
  destruct (bool_decide (chain_scope _ = _)) eqn:H4; [apply bool_decide_eq_true in H4|apply bool_decide_eq_false in H4; naive_solver].
  cbn [negb]. fold (position_of v) (level_of v). unfold rank.
  destruct (Z.leb_spec (position_of v) (position_of u)); [split; [done|lia]|].
  destruct (Z.leb_spec (Assurance_ord (model_assurance (level_of v))) (Assurance_ord (model_assurance (level_of u)))); [split; [done|lia]|].
  pose proof (check_predecessor_ok v observed) as Hc.
  destruct (check_predecessor (verified_receipt v) observed) as [[]|]; [|split; [done|]; intros ((_ & _ & _ & _ & _ & Hj) & _); by apply Hc in Hj].
  destruct (digest (authenticated v)) as [dv|] eqn:Hdv.
  2:{ split; [done|]. intros [_ Hcont]. exfalso. assert (digest_of v = None) as Hn by (unfold digest_of; by rewrite Hdv).
      destruct vs as [|w vs]; simpl in Hcont; [done|]. destruct Hcont as [(_ & Hw & _) _]. done. }
  assert (digest_of v = Some dv) as Hv by (unfold digest_of; by rewrite Hdv).
  rewrite <- H2, <- H3, <- H4, (IH v dv (observed ++ [level_of v]) Hv). naive_solver.
Qed.

Definition chain_holds (chain : list VerifiedReceipt) : Prop :=
  match chain with
  | [] => False
  | first :: rest => previous (verified_receipt first) = None /\ justified [] first /\ continues first [level_of first] rest
  end.

Lemma verify_chain_ok chain : verify_chain chain = Ok tt <-> chain_holds chain.
Proof.
  destruct chain as [|v vs]; [done|]. unfold verify_chain, chain_holds.
  destruct (previous (verified_receipt v)) as [p|]; [split; [done|by intros [? _]]|].
  pose proof (check_predecessor_ok v []) as Hc. fold (position_of v) (level_of v).
  destruct (digest (authenticated v)) as [d|] eqn:Hd.
  - assert (digest_of v = Some d) as Hv by (unfold digest_of; by rewrite Hd).
    destruct (check_predecessor (verified_receipt v) []) as [[]|]; [|split; [done|]; intros (_ & Hj & _); by apply Hc in Hj].
    rewrite (verify_rest_ok v d _ _ Hv). naive_solver.
  - split; [done|]. intros (_ & _ & Hcont). exfalso. assert (digest_of v = None) as Hn by (unfold digest_of; by rewrite Hd).
    destruct vs as [|w vs]; simpl in Hcont; [done|]. by destruct Hcont as [(_ & Hw & _) _].
Qed.

(** ** One account, only advancing *)

Definition advances (u v : VerifiedReceipt) : Prop := position_of u < position_of v /\ rank u < rank v /\ same_account u v.

Lemma continues_advances u observed vs : continues u observed vs -> StronglySorted advances (u :: vs).
Proof.
  revert u observed. induction vs as [|v vs IH]; intros u observed Hc; [repeat constructor|].
  destruct Hc as [(_ & _ & (Ha1 & Ha2 & Ha3) & Hs & Hr & _) Hc]. apply IH in Hc. constructor; [done|].
  apply StronglySorted_inv in Hc as [_ Hall]. assert (advances u v) as Huv by (split_and!; done).
  constructor; [done|]. eapply Forall_impl; [exact Hall|]. intros w (? & ? & (? & ? & ?)). destruct Huv as (? & ? & (? & ? & ?)).
  split; [lia|]. split; [lia|]. unfold same_account. split_and!; congruence.
Qed.

Lemma continues_justified u observed vs i v : continues u observed vs -> vs !! i = Some v ->
  justified (observed ++ map level_of (take i vs)) v.
Proof.
  revert u observed i. induction vs as [|w vs IH]; intros u observed i; [done|]. intros [(_ & _ & _ & _ & _ & Hj) Hc].
  destruct i as [|i]; simpl.
  - intros [= ->]. by rewrite app_nil_r.
  - intros Hi. specialize (IH _ _ _ Hc Hi). by rewrite <- app_assoc in IH.
Qed.

(** C14: A verified chain is one account that only advances.  Its entries are about one subject, under one
    provider, session and incarnation, checked by one key; from each entry to any later one the issuer sequence
    and the assurance strictly grow; and a publication names exactly the predecessor its profile requires in the
    commit model, which an earlier entry of the chain observed.  Only the last entry can be a publication. *)
Theorem verified_chain_only_advances chain : verify_chain chain = Ok tt ->
  StronglySorted advances chain /\
  (forall i v, chain !! i = Some v -> level_of v = AL_Published ->
     i = pred (length chain) /\
     actual_predecessor (verified_receipt v) = required_predecessor (receipt_profile (verified_receipt v)) /\
     exists j u, (j < i)%nat /\ chain !! j = Some u /\
       level_of u = required_predecessor (receipt_profile (verified_receipt v))).
Proof.
  intros Hv%verify_chain_ok. destruct chain as [|v0 vs]; [done|]. destruct Hv as (_ & Hj0 & Hc).
  pose proof (continues_advances _ _ _ Hc) as Hs. split; [done|]. intros i v Hi Hp. split.
  - destruct (decide (i = length vs)) as [->|Hne]; [done|]. exfalso.
    assert (i < length (v0 :: vs))%nat by (by eapply lookup_lt_Some). simpl in *.
    destruct (lookup_lt_is_Some_2 (v0 :: vs) (S i)) as [w Hw]; [simpl; lia|].
    assert (advances v w) as (_ & Hr & _).
    { clear -Hs Hi Hw. revert i Hi Hw. induction Hs as [|x l Hs IH Hx]; intros [|i] Hi Hw; simplify_eq/=; [|by eapply IH].
      rewrite Forall_lookup in Hx. by eapply Hx. }
    unfold rank in Hr. rewrite Hp in Hr. destruct (level_of w); simpl in Hr; lia.
  - destruct i as [|i]; simpl in Hi.
    + injection Hi as ->. destruct (Hj0 Hp) as [_ Hn]. by apply not_elem_of_nil in Hn.
    + destruct (continues_justified _ _ _ _ _ Hc Hi Hp) as [Ha Hin]. split; [done|].
      change ([level_of v0] ++ map level_of (take i vs)) with (map level_of (take (S i) (v0 :: vs))) in Hin.
      apply list_elem_of_fmap in Hin as (u & Hl & Hu). apply list_elem_of_lookup in Hu as [j Hu].
      apply lookup_take_Some in Hu as [Hu Hlt]. by exists j, u.
Qed.

(** ** The head determines the chain *)

(** Each entry links to the digest of the one before it, the first to nothing. *)
Definition back_linked (chain : list VerifiedReceipt) : Prop :=
  forall i v, chain !! i = Some v ->
    digest_of v <> None /\
    previous (verified_receipt v) = match i with O => None | S j => chain !! j ≫= digest_of end.

Lemma continues_linked u observed vs : continues u observed vs ->
  digest_of u <> None /\
  forall i v, vs !! i = Some v -> digest_of v <> None /\ previous (verified_receipt v) = (u :: vs) !! i ≫= digest_of.
Proof.
  revert u observed. induction vs as [|w vs IH]; intros u observed; [by split|].
  intros [(Hp & Hu & _) Hc]. destruct (IH _ _ Hc) as [Hw Hl]. split; [done|]. intros [|i] v; simpl.
  - intros [= <-]. split; [done|]. exact Hp.
  - apply Hl.
Qed.

Lemma verified_back_linked chain : verify_chain chain = Ok tt -> back_linked chain.
Proof.
  intros Hv%verify_chain_ok. destruct chain as [|v0 vs]; [done|]. destruct Hv as (Hp & _ & Hc).
  destruct (continues_linked _ _ _ Hc) as [Hd Hl]. intros [|i] v; simpl; [by intros [= <-]|apply Hl].
Qed.

Definition encodings (chain : list VerifiedReceipt) : list (list Z) :=
  map (fun v => authenticated_bytes (authenticated v)) chain.

Lemma digest_inj u v d : is_authenticated (authenticated u) -> is_authenticated (authenticated v) ->
  digest_of u = Some d -> digest_of v = Some d ->
  (sha256 (authenticated_bytes (authenticated u)) = sha256 (authenticated_bytes (authenticated v)) ->
     authenticated_bytes (authenticated u) = authenticated_bytes (authenticated v)) ->
  authenticated u = authenticated v.
Proof.
  intros Hu Hv Du Dv Hn. unfold digest_of, digest in Du, Dv.
  destruct (encode_authenticated (authenticated u)) as [eu|] eqn:Eu; [|done].
  destruct (encode_authenticated (authenticated v)) as [ev|] eqn:Ev; [|done]. simplify_eq.
  destruct (encoded_bytes _ _ Hu Eu) as [-> Ru]. destruct (encoded_bytes _ _ Hv Ev) as [-> Rv].
  rewrite (Hn ltac:(congruence)), Rv in Ru. by injection Ru.
Qed.

Lemma back_linked_snoc chain v : back_linked (chain ++ [v]) ->
  back_linked chain /\ digest_of v <> None /\ previous (verified_receipt v) = last chain ≫= digest_of.
Proof.
  intros Hb. split.
  - intros i w Hi. assert (i < length chain)%nat by (by eapply lookup_lt_Some). specialize (Hb i w).
    rewrite lookup_app_l in Hb by done. destruct (Hb Hi) as [? Hp]. split; [done|]. rewrite Hp. destruct i as [|i]; [done|].
    by rewrite lookup_app_l by lia.
  - destruct (Hb (length chain) v) as [? Hp]; [by rewrite lookup_app_r, Nat.sub_diag|]. split; [done|]. rewrite Hp.
    destruct chain as [|x l _] using rev_ind; [done|]. rewrite last_snoc, length_app. simpl.
    rewrite Nat.add_1_r. by rewrite <- app_assoc, lookup_app_r, Nat.sub_diag.
Qed.

(** C15: The head of a chain determines all of it.  Two chains that verify and end in entries with the same digest
    hold the same receipts, envelope by envelope from the first, unless two of their encodings collide under
    SHA-256: an observation cannot be rewritten, dropped or inserted without changing the head a witness signed. *)
Theorem head_determines_chain c1 c2 d :
  verify_chain c1 = Ok tt -> verify_chain c2 = Ok tt ->
  Forall (fun v => is_authenticated (authenticated v)) c1 -> Forall (fun v => is_authenticated (authenticated v)) c2 ->
  no_collision (encodings c1) (encodings c2) ->
  last c1 ≫= digest_of = Some d -> last c2 ≫= digest_of = Some d ->
  map authenticated c1 = map authenticated c2.
Proof.
  intros V1%verified_back_linked V2%verified_back_linked. revert c2 d V2.
  induction c1 as [|u c1 IH] using rev_ind; intros c2 d V2 T1 T2 Hn H1 H2; [done|].
  destruct c2 as [|v c2 _] using rev_ind; [done|]. rewrite last_snoc in H1, H2. simpl in H1, H2.
  apply back_linked_snoc in V1 as (L1 & D1 & P1), V2 as (L2 & D2 & P2).
  apply Forall_app in T1 as [T1 [Tu _]%Forall_cons], T2 as [T2 [Tv _]%Forall_cons].
  assert (authenticated u = authenticated v) as E.
  { eapply digest_inj; try done. intros Hh. apply Hn; [| |done]; unfold encodings; rewrite map_app; set_solver. }
  rewrite !map_app. simpl. rewrite E. f_equal.
  assert (last c1 ≫= digest_of = last c2 ≫= digest_of) as Hl by (rewrite <- P1, <- P2; unfold verified_receipt; by rewrite E).
  assert (forall c, back_linked c -> last c ≫= digest_of = None -> c = []) as Hnil.
  { intros c Hc Hd. destruct c as [|x l _] using rev_ind; [done|]. rewrite last_snoc in Hd. by apply back_linked_snoc in Hc as (_ & ? & _). }
  destruct (last c1 ≫= digest_of) as [d'|] eqn:E1.
  - eapply IH; try done. eapply no_collision_mono; [| |exact Hn]; unfold encodings; intros x; rewrite map_app; set_solver.
  - by rewrite (Hnil c1 L1 E1), (Hnil c2 L2 (eq_sym Hl)).
Qed.

(** ** A run of the machine certifies *)

Lemma run_history p obs m : run (new p) obs m -> exists s, map level obs = history p s.
Proof.
  intros Hr. pose proof (run_inv _ _ _ Hr (new_inv p)) as [_ Hinv]. apply run_performed in Hr as [Hp Hperf].
  simpl in Hperf. rewrite <- Hperf, Hp in *. change (profile (new p)) with p in Hinv. destruct (state m);
    first [ destruct Hinv as (? & ? & ? & ?); by eauto | destruct Hinv as (? & ? & ?); by eauto
          | destruct Hinv as (? & ?); by eauto ].
Qed.

Lemma history_justified p s i : history p s !! i = Some As_Published -> CommitModel.required_predecessor p ∈ take i (history p s).
Proof.
  destruct s, p; simpl; repeat (destruct i as [|i]; simpl; try done); intros _; apply list_elem_of_In; simpl; tauto.
Qed.

Lemma history_sorted p s : StronglySorted Z.lt (map Assurance_ord (history p s)).
Proof. destruct s, p; simpl; repeat constructor; lia. Qed.

(** [chain] reports the observations [obs] of a machine with profile [p], each entry linked to the one before it,
    all under one account, a publication naming the predecessor its profile requires. *)
Definition certifies (p : CommitProfile) (obs : list Observation) (chain : list VerifiedReceipt) : Prop :=
  Forall2 (fun o v => level_of v = receipt_assurance (level o) /\ position_of v = obs_sequence o /\
    receipt_profile (verified_receipt v) = p /\ actual_predecessor (verified_receipt v) = required_predecessor p) obs chain /\
  back_linked chain /\ (forall u v, u ∈ chain -> v ∈ chain -> same_account u v).

Lemma continues_intro u observed vs : StronglySorted advances (u :: vs) -> digest_of u <> None ->
  (forall i v, vs !! i = Some v -> digest_of v <> None /\ previous (verified_receipt v) = (u :: vs) !! i ≫= digest_of) ->
  (forall i v, vs !! i = Some v -> justified (observed ++ map level_of (take i vs)) v) -> continues u observed vs.
Proof.
  revert u observed. induction vs as [|v vs IH]; intros u observed Hs Hd Hl Hj; [done|].
  apply StronglySorted_inv in Hs as [Hs [Ha _]%Forall_cons]. destruct (Hl 0%nat v eq_refl) as [Hdv Hp].
  split.
  - destruct Ha as (? & ? & (? & ? & ?)). specialize (Hj 0%nat v eq_refl). simpl in Hj. rewrite app_nil_r in Hj.
    split_and!; try done.
  - apply IH; [done|done|intros i w Hi; apply (Hl (S i) w Hi)|]. intros i w Hi. specialize (Hj (S i) w Hi). simpl in Hj.
    by rewrite <- app_assoc.
Qed.

Lemma model_receipt_assurance a : model_assurance (receipt_assurance a) = a.
Proof. by destruct a. Qed.

(** What a certified run gives: the levels in order, the positions sorted. *)
Lemma certified_levels p obs chain : certifies p obs chain ->
  map level_of chain = map receipt_assurance (map level obs) /\ map position_of chain = map obs_sequence obs.
Proof.
  intros (Hf & _). induction Hf as [|o v obs chain Ho _ [I1 I2]]; [done|]. destruct Ho as (E1 & E2 & _).
  simpl. by rewrite E1, E2, I1, I2.
Qed.

Lemma sorted_lookup {A} (f : A -> Z) l i j x y : StronglySorted Z.lt (map f l) -> (i < j)%nat -> l !! i = Some x -> l !! j = Some y ->
  f x < f y.
Proof.
  revert i j. induction l as [|z l IH]; intros i j Hs Hij; [done|]. simpl in Hs. apply StronglySorted_inv in Hs as [Hs Hz].
  destruct i as [|i], j as [|j]; simpl; try lia; [|apply IH; [done|lia]].
  intros [= ->] Hy. rewrite Forall_forall in Hz. apply Hz. apply list_elem_of_fmap. exists y. split; [done|].
  by eapply list_elem_of_lookup_2.
Qed.

Lemma StronglySorted_intro {A} (R : A -> A -> Prop) l :
  (forall i j x y, (i < j)%nat -> l !! i = Some x -> l !! j = Some y -> R x y) -> StronglySorted R l.
Proof.
  induction l as [|z l IH]; intros HR; constructor.
  - apply IH. intros i j x y Hij Hx Hy. apply (HR (S i) (S j)); [lia|done|done].
  - apply Forall_lookup. intros j y Hy. apply (HR 0%nat (S j)); [lia|done|done].
Qed.

Lemma certified_advances p obs m chain : run (new (model_profile p)) obs m -> certifies p obs chain ->
  StronglySorted advances chain.
Proof.
  intros Hr Hc. destruct (certified_levels _ _ _ Hc) as [Hl Hp]. destruct (run_history _ _ _ Hr) as [s Hs].
  pose proof (run_sequences _ _ _ Hr) as [_ Hseq]. rewrite <- Hp in Hseq.
  assert (StronglySorted Z.lt (map rank chain)) as Hrank.
  { replace (map rank chain) with (map Assurance_ord (history (model_profile p) s)); [apply history_sorted|].
    rewrite <- Hs. transitivity (map (fun a => Assurance_ord (model_assurance a)) (map level_of chain)).
    - rewrite Hl, !map_map. apply map_ext. intros o. by rewrite model_receipt_assurance.
    - by rewrite map_map. }
  apply StronglySorted_intro. intros i j u v Hij Hu Hv. split; [by eapply (sorted_lookup position_of)|].
  split; [by eapply (sorted_lookup rank)|]. destruct Hc as (_ & _ & Hsame). apply Hsame; by eapply list_elem_of_lookup_2.
Qed.

Lemma certified_justified p obs m chain i v : run (new (model_profile p)) obs m -> certifies p obs chain ->
  chain !! i = Some v -> justified (map level_of (take i chain)) v.
Proof.
  intros Hr Hc Hi Hpub. destruct (certified_levels _ _ _ Hc) as [Hl _]. destruct (run_history _ _ _ Hr) as [s Hs].
  destruct Hc as (Hf & _ & _). apply Forall2_lookup_r with (i := i) (y := v) in Hf as (o & Ho & Hlev & _ & -> & ->); [|done].
  split; [done|]. assert (history (model_profile p) s !! i = Some As_Published) as Hpo.
  { rewrite <- Hs, list_lookup_fmap, Ho. simpl. f_equal. rewrite Hlev in Hpub. by destruct (level o). }
  apply history_justified in Hpo. unfold required_predecessor. rewrite <- firstn_map, Hl, Hs, firstn_map.
  by apply list_elem_of_fmap_2.
Qed.

(** C16: An honest account verifies.  Whatever run of the commit machine produced the observations, crashes and
    failed steps included, the chain that reports them in order, each linked to the one before, is accepted by the
    chain verifier under every profile. *)
Theorem certified_run_verifies p obs m chain : run (new (model_profile p)) obs m -> obs <> [] -> certifies p obs chain ->
  verify_chain chain = Ok tt.
Proof.
  intros Hr Hne Hc. apply verify_chain_ok. pose proof (certified_advances _ _ _ _ Hr Hc) as Hs.
  pose proof (fun i v => certified_justified _ _ _ _ i v Hr Hc) as Hj. destruct Hc as (Hf & Hb & _).
  destruct chain as [|v vs]; [by inversion Hf; subst|]. destruct (Hb 0%nat v eq_refl) as [Hd Hp]. split_and!.
  - done.
  - apply (Hj 0%nat v eq_refl).
  - apply continues_intro; try done.
    + intros i w Hi. apply (Hb (S i) w Hi).
    + intros i w Hi. apply (Hj (S i) w Hi).
Qed.
End chain.

(** ** A strict publication, certified *)

#[local] Instance demo_sha256 : Sha256 := toy_sha256.
#[local] Instance demo_ed25519 : Ed25519 := toy_ed25519.

(** ["2026-07-31T16:00:00Z"]. *)
Definition demo_time : list Z := [50; 48; 50; 54; 45; 48; 55; 45; 51; 49; 84; 49; 54; 58; 48; 48; 58; 48; 48; 90].

Definition demo_receipt (o : Observation) (prev : option (list Z)) : Receipt :=
  mkReceipt SK_Object 1 (repeat 7 32) 4096 (receipt_assurance (level o)) CP_Strict AL_AtRestVerified 1 [0; 3; 0]
    (repeat 2 16) (repeat 3 16) (obs_sequence o) demo_time 1 0 prev.

Fixpoint demo_issue (prev : option (list Z)) (obs : list Observation) : list VerifiedReceipt :=
  match obs with
  | [] => []
  | o :: rest =>
      match sign_ed25519 (demo_receipt o prev) [107] (repeat 5 32) with
      | Ok a => let v := mkVerified a (By_Ed25519 (repeat 5 32)) in v :: demo_issue (digest_of v) rest
      | Err _ => []
      end
  end.

Definition demo_obs : list Observation := fst (apply_all (new Pr_Strict) strict_publication).
Definition demo_chain : list VerifiedReceipt := Eval vm_compute in demo_issue None demo_obs.

Fixpoint linked_from `{Sha256} (prev : option (list Z)) (chain : list VerifiedReceipt) : bool :=
  match chain with
  | [] => true
  | v :: rest => match digest_of v with Some _ => true | None => false end &&
                 bool_decide (previous (verified_receipt v) = prev) && linked_from (digest_of v) rest
  end.

Lemma linked_from_sound `{Sha256} prev chain : linked_from prev chain = true ->
  forall i v, chain !! i = Some v -> digest_of v <> None /\
    previous (verified_receipt v) = match i with O => prev | S j => chain !! j ≫= digest_of end.
Proof.
  revert prev. induction chain as [|u chain IH]; intros prev Hl i v; [done|]. simpl in Hl.
  rewrite !andb_true_iff, bool_decide_eq_true in Hl. destruct Hl as [[Hd Hp] Hl]. destruct i as [|i]; simpl.
  - intros [= <-]. split; [|done]. by destruct (digest_of u).
  - intros Hi. destruct (IH _ Hl i v Hi) as [? Hq]. split; [done|]. rewrite Hq. by destruct i.
Qed.

Lemma demo_same_account u v : u ∈ demo_chain -> v ∈ demo_chain -> same_account u v.
Proof.
  assert (Forall (fun v => subject_identity (verified_receipt v) = (SK_Object, 1, repeat 7 32, 4096) /\
    chain_scope (verified_receipt v) = (1, [0; 3; 0], repeat 2 16, repeat 3 16) /\ by_ v = By_Ed25519 (repeat 5 32)) demo_chain) as Hf.
  { repeat constructor. }
  rewrite Forall_forall in Hf. intros (? & ? & ?)%Hf (? & ? & ?)%Hf. split_and!; congruence.
Qed.

Lemma demo_certifies : certifies CP_Strict demo_obs demo_chain.
Proof.
  split_and!; [|unfold back_linked; apply (linked_from_sound None); vm_compute; reflexivity|exact demo_same_account].
  vm_compute. repeat constructor.
Qed.

Lemma certified_run_verifies_witness : verify_chain demo_chain = Ok tt.
Proof.
  apply (certified_run_verifies CP_Strict demo_obs (snd (apply_all (new Pr_Strict) strict_publication)) demo_chain);
    [exact (apply_all_run strict_publication (new Pr_Strict))|vm_compute; discriminate|exact demo_certifies].
Defined.

Lemma verified_chain_only_advances_witness :
  StronglySorted advances demo_chain /\
  (forall i v, demo_chain !! i = Some v -> level_of v = AL_Published ->
     i = pred (length demo_chain) /\
     actual_predecessor (verified_receipt v) = required_predecessor (receipt_profile (verified_receipt v)) /\
     exists j u, (j < i)%nat /\ demo_chain !! j = Some u /\
       level_of u = required_predecessor (receipt_profile (verified_receipt v))).
Proof. apply (verified_chain_only_advances demo_chain). vm_compute. reflexivity. Defined.

Lemma demo_receipt_typed o d : is_u64 (obs_sequence o) -> option_is (is_bytes 32) d -> is_receipt (demo_receipt o d).
Proof.
  intros Ho Hd. unfold is_receipt, demo_receipt. simpl.
  repeat apply conj; try done; try mlia; try (by apply (is_bytes_repeat 32)); try (by apply (is_bytes_repeat 16)).
  - repeat (apply Forall_cons_2; [unfold is_u16; mlia|]). apply Forall_nil_2.
  - by apply byte_list_check.
Qed.

Lemma demo_authenticated_typed : Forall (fun v => is_authenticated (authenticated v)) demo_chain.
Proof.
  assert (forall v, v ∈ demo_chain -> exists o d au, authenticated v = mkAuthenticated (demo_receipt o d) S_Ed25519 [107] au /\
    (is_u64 (obs_sequence o) /\ option_is (fun d => forallb (in_range 0 255) d && (zlen d =? 32) = true) d) /\
    forallb (in_range 0 255) au = true) as Hv.
  { intros v Hin. repeat (apply elem_of_cons in Hin as [->|Hin]); [..|by apply not_elem_of_nil in Hin].
    all: match goal with |- context [authenticated {| authenticated := {| receipt := ?r; authentication := ?au |} |}] =>
      let q := eval vm_compute in (receipt_sequence r) in let d := eval vm_compute in (previous r) in
      let l := eval vm_compute in (assurance r) in
      exists (mkObservation (model_assurance l) q), d, au end.
    all: split; [reflexivity|split; [split; [by vm_compute|by vm_compute]|by vm_compute]]. }
  apply Forall_forall. intros v (o & d & au & -> & (Ho & Hd) & Ha)%Hv. split_and!.
  - apply demo_receipt_typed; [done|]. destruct d as [d|]; [|done]. simpl in *. apply andb_true_iff in Hd as [Hd Hz%Z.eqb_eq].
    split; [by apply byte_list_check|done].
  - by apply byte_list_check.
  - by apply byte_list_check.
Qed.

Lemma demo_prefix_no_collision : no_collision (encodings (take 2 demo_chain)) (encodings (take 2 demo_chain)).
Proof. apply collision_check_correct. vm_compute. reflexivity. Qed.

Lemma head_determines_chain_witness : map authenticated (take 2 demo_chain) = map authenticated (take 2 demo_chain).
Proof.
  destruct (last (take 2 demo_chain) ≫= digest_of) as [d|] eqn:Hd; [|vm_compute in Hd; discriminate Hd].
  apply (head_determines_chain (take 2 demo_chain) (take 2 demo_chain) d);
    [vm_compute; reflexivity|vm_compute; reflexivity|apply Forall_take, demo_authenticated_typed
    |apply Forall_take, demo_authenticated_typed|exact demo_prefix_no_collision|exact Hd|exact Hd].
Defined.
