(* ===== verification/Capability.v ===== *)
(** * Capabilities ([crates/vot-capability/src])

    What a capability says ([model.rs]), its canonical encoding ([codec.rs]), the
    issuer's signature over it ([signing.rs]), and the decision whether to believe
    one that was presented ([verify.rs]).  ed25519-dalek is the class [Ed25519];
    a [String] is its UTF-8 bytes, a [usize] is 64 bits, and a [ChannelBinding] is
    its 32 bytes. *)

From S2P Require Import Prelude Cbor Registry Codec FrameCbor Exact Readers Text Digest.

Inductive Error :=
| Encoding (e : Cbor.Error)
| UnsupportedVersion (version : Z)
| InvalidIdentity
| InvalidKeyId
| InvalidOperations
| InvalidLimits
| InvalidSuite (suite : Z)
| InvalidRange
| InvalidValidity
| UnsupportedDelegation (delegation : Z)
| InvalidLength
| Signature
| TooLarge.

#[export] Instance Error_eq_dec : EqDecision Error.
Proof. solve_decision. Defined.

(** [0x0002], and [b"VOT capability v0\0"]. *)
Definition FORMAT_ID : Z := 0x0002.
Definition DOMAIN : list Z := [86; 79; 84; 32; 99; 97; 112; 97; 98; 105; 108; 105; 116; 121; 32; 118; 48; 0].
Definition NO_FURTHER_DELEGATION : Z := 0.

Module bounds.
Definition KEY_ID : Z * Z := (1, 64).
Definition IDENTITY : Z * Z := (1, 128).
Definition OPERATIONS : Z * Z := (1, 16).
Definition LIMITS : Z := 16.
Definition RANGES : Z := 64.
Definition SIGNED : Z := 49152.
Definition SCOPE : Z := 4096.
End bounds.

(** [(low..=high).contains(&v)]. *)
Definition within (b : Z * Z) (v : Z) : bool := (fst b <=? v) && (v <=? snd b).

(** ** The model *)

Record Range := mkRange { range_offset : Z; range_length : Z }.

#[export] Instance Range_eq_dec : EqDecision Range.
Proof. solve_decision. Defined.

(** [Range::new], the only way to build one. *)
Definition range_new (offset length : Z) : result Range Error :=
  if (length =? 0) || match checked_add offset length with None => true | Some _ => false end then Err InvalidRange else
  Ok (mkRange offset length).

Definition range_end (r : Range) : Z := range_offset r + range_length r.

Record Scope := mkScope { suite : Z; root : list Z; length_ : option Z; ranges : list Range }.

#[export] Instance Scope_eq_dec : EqDecision Scope.
Proof. solve_decision. Defined.

Record Limit := mkLimit { limit_id : Z; limit_value : Z }.

#[export] Instance Limit_eq_dec : EqDecision Limit.
Proof. solve_decision. Defined.

Record Capability := mkCapability {
  issuer : list Z;
  audience : list Z;
  holder_key : list Z;
  operations : list Z;
  scope : Scope;
  limits : list Limit;
  not_before : Z;
  expiry : Z;
  token_id : list Z;
  delegation : Z }.

#[export] Instance Capability_eq_dec : EqDecision Capability.
Proof. solve_decision. Defined.

Record SignedCapability := mkSigned { key_id : list Z; capability : list Z; signature : list Z }.

(** The loop of [Scope::validate] over the ranges, from [previous_end]. *)
Fixpoint separated (length : option Z) (previous_end : option Z) (rs : list Range) : bool :=
  match rs with
  | [] => true
  | r :: rest =>
      negb (match previous_end with Some e => range_offset r <=? e | None => false end) &&
      negb (match length with Some l => l <? range_end r | None => false end) &&
      separated length (Some (range_end r)) rest
  end.

Definition scope_validate (s : Scope) : result unit Error :=
  if negb ((1 <=? suite s) && (suite s <=? 2)) then Err (InvalidSuite (suite s)) else
  if bounds.RANGES <? zlen (ranges s) then Err TooLarge else
  if separated (length_ s) None (ranges s) then Ok tt else Err InvalidRange.

Definition scope_allows (s : Scope) (range : Range) : bool :=
  let end_ := range_end range in
  match ranges s with
  | [] => match length_ s with Some l => end_ <=? l | None => true end
  | rs => existsb (fun allowed => (range_offset allowed <=? range_offset range) && (end_ <=? range_end allowed)) rs
  end.

(** [char::is_control]: the general category Cc. *)
Definition is_control (c : Z) : bool := in_range 0 31 c || in_range 127 159 c.

Definition validate_identity (value : list Z) : result unit Error :=
  if negb (within bounds.IDENTITY (zlen value)) then Err InvalidIdentity else
  if existsb is_control (chars value) then Err InvalidIdentity else Ok tt.

Definition validate_key_id (key_id : list Z) : result unit Error :=
  if within bounds.KEY_ID (zlen key_id) then Ok tt else Err InvalidKeyId.

(** [self.operations[0]] is read after the length was found to be at least one. *)
Definition validate (c : Capability) : result unit Error :=
  let? _ := validate_identity (issuer c) in
  let? _ := validate_identity (audience c) in
  if negb (within bounds.OPERATIONS (zlen (operations c))) then Err InvalidOperations else
  if bool_decide (hd 0 (operations c) = 0) || negb (ascending (operations c)) ||
     existsb (fun v => 0xffff <? v) (operations c) then Err InvalidOperations else
  if bounds.LIMITS <? zlen (limits c) then Err TooLarge else
  if match limits c with l :: _ => limit_id l =? 0 | [] => false end || negb (ascending (map limit_id (limits c)))
  then Err InvalidLimits else
  let? _ := scope_validate (scope c) in
  if expiry c <=? not_before c then Err InvalidValidity else
  if negb (delegation c =? NO_FURTHER_DELEGATION) then Err (UnsupportedDelegation (delegation c)) else Ok tt.

Definition is_current (c : Capability) (now : Z) : bool := (not_before c <=? now) && (now <? expiry c).

Definition capability_allows (c : Capability) (operation : Operation) : bool :=
  mem (operation_identifier operation) (operations c).

Definition carries (c : Capability) (identifier : Z) : bool := mem identifier (operations c).

Definition capability_limit (c : Capability) (id : Z) : option Z :=
  limit_value <$> List.find (fun l => limit_id l =? id) (limits c).

(** ** The encoding *)

Definition put_null {E} : M (list Z) E unit := put (fun output => null output).

Definition put_range (r : Range) : M (list Z) Error unit :=
  put_array 2 ;! put_uint (range_offset r) ;! put_uint (range_length r).

Definition scope_encode (s : Scope) : M (list Z) Error unit :=
  lift (scope_validate s) ;!
  put_map 4 ;!
  put_uint 0 ;! put_uint (suite s) ;!
  put_uint 1 ;! put_bytes (root s) ;!
  put_uint 2 ;! match length_ s with Some l => put_uint l | None => put_null end ;!
  put_uint 3 ;! put_array (zlen (ranges s)) ;! put_each put_range (ranges s).

(** The vector a writer leaves, started on an empty one. *)
Definition written (m : M (list Z) Error unit) : result (list Z) Error :=
  match m [] with (Ok _, out) => Ok out | (Err e, _) => Err e end.

Definition encode_scope (s : Scope) : result (list Z) Error := written (scope_encode s).

Abbreviation R := (M Reader Error).

Definition read_uint : R Z := mmap_err Encoding reader_uint.
Definition read_key (expected : Z) : R unit := mmap_err Encoding (key expected).
Definition read_map (expected : Z) : R unit := mmap_err Encoding (reader_map expected).
Definition read_map_len (maximum : Z) : R Z := mmap_err Encoding (map_len maximum).
Definition read_array (expected : Z) : R unit := mmap_err Encoding (reader_array expected).
Definition read_array_len (maximum : Z) : R Z := mmap_err Encoding (array_len maximum).
Definition read_bytes (maximum : Z) : R (list Z) := mmap_err Encoding (reader_bytes maximum).
Definition read_text (maximum : Z) : R (list Z) := mmap_err Encoding (reader_text maximum).
Definition read_fixed (n : Z) : R (list Z) := mmap_err Encoding (fixed_bytes n).
Definition read_finish : R unit := finished Encoding.

Definition decode_range : R Range :=
  read_array 2 ;!
  let! offset := read_uint in
  let! length := read_uint in
  lift (range_new offset length).

Definition scope_decode : R Scope :=
  read_map 4 ;!
  read_key 0 ;!
  let! value := read_uint in
  let! suite := lift (ok_or (try_from u16_max value) (InvalidSuite value)) in
  read_key 1 ;!
  let! root := read_fixed 32 in
  read_key 2 ;!
  let! length := optional Encoding read_uint in
  read_key 3 ;!
  let! count := read_array_len bounds.RANGES in
  let! ranges := read_each (Z.to_nat count) decode_range in
  let scope := mkScope suite root length ranges in
  lift (scope_validate scope) ;! ret scope.

Definition decode_scope (input : list Z) : result Scope Error :=
  if bounds.SCOPE <? zlen input then Err TooLarge else
  fst ((let! scope := scope_decode in read_finish ;! ret scope) (reader_new input)).

Definition encode (signed : SignedCapability) : result (list Z) Error :=
  let? _ := validate_key_id (key_id signed) in
  written (put_map 4 ;!
    put_uint 0 ;! put_uint 0 ;!
    put_uint 1 ;! put_bytes (key_id signed) ;!
    put_uint 2 ;! put_bytes (capability signed) ;!
    put_uint 3 ;! put_bytes (signature signed)).

Definition decode (input : list Z) : result SignedCapability Error :=
  if bounds.SIGNED <? zlen input then Err TooLarge else
  fst ((read_map 4 ;!
    read_key 0 ;!
    let! version := read_uint in
    if negb (version =? 0) then fail (UnsupportedVersion version) else
    read_key 1 ;!
    let! key_id := read_bytes (snd bounds.KEY_ID) in
    lift (validate_key_id key_id) ;!
    read_key 2 ;!
    let! capability := read_bytes bounds.SIGNED in
    read_key 3 ;!
    let! signature := read_fixed 64 in
    read_finish ;!
    ret (mkSigned key_id capability signature)) (reader_new input)).

Definition put_limit (l : Limit) : M (list Z) Error unit := put_uint (limit_id l) ;! put_uint (limit_value l).

Definition canonical_bytes (c : Capability) : result (list Z) Error :=
  let? _ := validate c in
  written (put_map 11 ;!
    put_uint 0 ;! put_uint 0 ;!
    put_uint 1 ;! put_text (issuer c) ;!
    put_uint 2 ;! put_text (audience c) ;!
    put_uint 3 ;! put_bytes (holder_key c) ;!
    put_uint 4 ;! put_array (zlen (operations c)) ;! put_each put_uint (operations c) ;!
    put_uint 5 ;! scope_encode (scope c) ;!
    put_uint 6 ;! put_map (zlen (limits c)) ;! put_each put_limit (limits c) ;!
    put_uint 7 ;! put_uint (not_before c) ;!
    put_uint 8 ;! put_uint (expiry c) ;!
    put_uint 9 ;! put_bytes (token_id c) ;!
    put_uint 10 ;! put_uint (delegation c)).

Definition decode_limit : R Limit :=
  let! value := read_uint in
  let! id := lift (ok_or (try_from u16_max value) InvalidLimits) in
  let! value := read_uint in
  ret (mkLimit id value).

Definition from_canonical_bytes (input : list Z) : result Capability Error :=
  fst ((read_map 11 ;!
    read_key 0 ;!
    let! version := read_uint in
    if negb (version =? 0) then fail (UnsupportedVersion version) else
    read_key 1 ;!
    let! issuer := read_text (snd bounds.IDENTITY) in
    read_key 2 ;!
    let! audience := read_text (snd bounds.IDENTITY) in
    read_key 3 ;!
    let! holder_key := read_fixed 32 in
    read_key 4 ;!
    let! count := read_array_len (snd bounds.OPERATIONS) in
    let! operations := read_each (Z.to_nat count) read_uint in
    read_key 5 ;!
    let! scope := scope_decode in
    read_key 6 ;!
    let! count := read_map_len bounds.LIMITS in
    let! limits := read_each (Z.to_nat count) decode_limit in
    read_key 7 ;!
    let! not_before := read_uint in
    read_key 8 ;!
    let! expiry := read_uint in
    read_key 9 ;!
    let! token_id := read_fixed 16 in
    read_key 10 ;!
    let! delegation := read_uint in
    read_finish ;!
    let capability := mkCapability issuer audience holder_key operations scope limits not_before expiry token_id delegation in
    lift (validate capability) ;! ret capability) (reader_new input)).

(** ** Signing *)

Definition signing_input (key_id capability : list Z) : result (list Z) Error :=
  let? _ := validate_key_id key_id in
  let? key_id_len := ok_or (try_from u8_max (zlen key_id)) InvalidKeyId in
  Ok (DOMAIN ++ to_be_bytes 2 FORMAT_ID ++ [key_id_len] ++ key_id ++ capability).

Section signing.
Context `{E : Ed25519}.

Definition sign (c : Capability) (key_id key : list Z) : result SignedCapability Error :=
  let? bytes := canonical_bytes c in
  let? input := signing_input key_id bytes in
  Ok (mkSigned key_id bytes (Digest.sign key input)).

Definition verify_signature (signed : SignedCapability) (key : list Z) : result unit Error :=
  let? input := signing_input (key_id signed) (capability signed) in
  if verify_strict key input (signature signed) then Ok tt else Err Signature.
End signing.

(** ** Verification *)

(** [b"VOT capability pop v1\0"]. *)
Definition PROOF_DOMAIN : list Z := [86; 79; 84; 32; 99; 97; 112; 97; 98; 105; 108; 105; 116; 121; 32; 112; 111; 112; 32; 118; 49; 0].

Record IssuerEntry := mkIssuerEntry {
  entry_key_id : list Z;
  entry_issuer : list Z;
  audiences : list (list Z);
  entry_key : list Z }.

(** [Anchors]: its entries; [Anchors::new] is the empty list. *)
Definition anchors_with (anchors : list IssuerEntry) (entry : IssuerEntry) : list IssuerEntry := anchors ++ [entry].

Definition candidates (anchors : list IssuerEntry) (key_id : list Z) : list IssuerEntry :=
  List.filter (fun entry => bool_decide (entry_key_id entry = key_id)) anchors.

Record Policy := mkPolicy {
  policy_audience : list Z;
  now : Z;
  skew : Z;
  denied : list (list Z);
  known_limits : list Z }.

Record Presentation := mkPresentation {
  nonce : list Z;
  session_id : list Z;
  channel_binding : list Z;
  proof : list Z }.

Inductive Denial :=
| Malformed (e : Error)
| UnknownKey
| IssuerNotAnchored
| AudienceNotPermitted
| AudienceIsAnother
| DSignature
| NotYetValid
| Expired
| Revoked
| ProofOfPossession
| LimitNotEnforceable (id : Z)
| OperationNotAllowed (operation : Z)
| RangeNotAllowed
| SubjectIsAnother.

#[export] Instance Denial_eq_dec : EqDecision Denial.
Proof. solve_decision. Defined.

Definition wire_reason (d : Denial) : Z :=
  match d with
  | Revoked => error_code.REPLAY_REJECTED
  | _ => error_code.AUTHENTICATION_FAILED
  end.

Inductive AuthorizedRequest :=
| RPublish (suite : Z) (root : list Z)
| RReadManifest (suite : Z) (root : list Z)
| RReadRanges (suite : Z) (root : list Z) (range : Range).

Definition request_operation (r : AuthorizedRequest) : Operation :=
  match r with RPublish _ _ => Publish | RReadManifest _ _ => ReadManifest | RReadRanges _ _ _ => ReadRanges end.

Definition request_suite (r : AuthorizedRequest) : Z :=
  match r with RPublish s _ | RReadManifest s _ | RReadRanges s _ _ => s end.

Definition request_root (r : AuthorizedRequest) : list Z :=
  match r with RPublish _ h | RReadManifest _ h | RReadRanges _ h _ => h end.

Record Authorized := mkAuthorized { authorized_capability : Capability }.

Definition authorized_allows (self : Authorized) (request : AuthorizedRequest) : result unit Denial :=
  let c := authorized_capability self in
  if negb (capability_allows c (request_operation request)) then
    Err (OperationNotAllowed (operation_identifier (request_operation request))) else
  if negb (request_suite request =? suite (scope c)) || negb (bool_decide (request_root request = root (scope c))) then
    Err SubjectIsAnother else
  match request with
  | RReadRanges _ _ range => if negb (scope_allows (scope c) range) then Err RangeNotAllowed else Ok tt
  | _ => Ok tt
  end.

Definition authorized_limit (self : Authorized) (id : Z) : option Z := capability_limit (authorized_capability self) id.

Definition proof_input (token_id session_id nonce channel_binding : list Z) : result (list Z) Error :=
  if negb (within (16, 64) (zlen nonce)) then Err InvalidLength else
  let? nonce_len := ok_or (try_from u16_max (zlen nonce)) InvalidLength in
  Ok (PROOF_DOMAIN ++ to_be_bytes 2 FORMAT_ID ++ token_id ++ session_id ++ to_be_bytes 2 nonce_len ++ nonce ++ channel_binding).

(** The loop of [finish] over the limits. *)
Fixpoint enforce (known : list Z) (ls : list Limit) : result unit Denial :=
  match ls with
  | [] => Ok tt
  | l :: rest => if negb (mem (limit_id l) known) then Err (LimitNotEnforceable (limit_id l)) else enforce known rest
  end.

Section verification.
Context `{E : Ed25519}.

Definition verify_proof_of_possession (c : Capability) (presented : Presentation) : result unit Denial :=
  if negb (within (16, 64) (zlen (nonce presented))) then Err ProofOfPossession else
  if negb (zlen (proof presented) =? 64) then Err ProofOfPossession else
  if negb (is_verifying_key (holder_key c)) then Err ProofOfPossession else
  let? input := map_err (fun _ => ProofOfPossession)
    (proof_input (token_id c) (session_id presented) (nonce presented) (channel_binding presented)) in
  if verify_strict (holder_key c) input (proof presented) then Ok tt else Err ProofOfPossession.

Definition finish (c : Capability) (entry : IssuerEntry) (presented : Presentation) (policy : Policy)
    : result Authorized Denial :=
  if negb (bool_decide (audience c ∈ audiences entry)) then Err AudienceNotPermitted else
  if negb (bool_decide (audience c = policy_audience policy)) then Err AudienceIsAnother else
  if saturating_add (now policy) (skew policy) <? not_before c then Err NotYetValid else
  if expiry c <=? saturating_sub (now policy) (skew policy) then Err Expired else
  if bool_decide (token_id c ∈ denied policy) then Err Revoked else
  let? _ := enforce (known_limits policy) (limits c) in
  let? _ := verify_proof_of_possession c presented in
  Ok (mkAuthorized c).

(** The loop of [authorize] over the candidates, from [key_known] and [issuer_known]. *)
Fixpoint consider (signed : SignedCapability) (presented : Presentation) (policy : Policy)
    (key_known issuer_known : bool) (entries : list IssuerEntry) : result Authorized Denial :=
  match entries with
  | [] => Err (if negb key_known then UnknownKey else if issuer_known then IssuerNotAnchored else DSignature)
  | entry :: rest =>
      match verify_signature signed (entry_key entry) with
      | Err _ => consider signed presented policy true issuer_known rest
      | Ok _ =>
          let? c := map_err Malformed (from_canonical_bytes (capability signed)) in
          if negb (bool_decide (issuer c = entry_issuer entry)) then consider signed presented policy true true rest else
          finish c entry presented policy
      end
  end.

Definition authorize (signed : SignedCapability) (presented : Presentation) (anchors : list IssuerEntry) (policy : Policy)
    : result Authorized Denial :=
  consider signed presented policy false false (candidates anchors (key_id signed)).

Definition prove_possession (c : Capability) (session_id nonce channel_binding key : list Z) : result (list Z) Error :=
  let? input := proof_input (token_id c) session_id nonce channel_binding in
  Ok (Digest.sign key input).
End verification.

Definition enforceable_limits : list Z := omap (try_from u16_max) REGISTERED_LIMITS.
