(* ===== verification/CapabilityCodec.v ===== *)
(** * Capability encodings are canonical

    The decoders of [codec.rs] do not compare with a re-encoding: that they accept
    one encoding per value is a property of the reader and of the order in which
    they call it.  Here it is proved for scopes, capabilities and signed
    envelopes, with the sizes the format's bounds give them. *)

From S2P Require Import Prelude Cbor Registry Codec FrameCbor Exact Readers Text Digest Capability.

(** ** Well-typed values: what the fields' Rust types hold *)

Definition is_range (r : Range) : Prop :=
  is_u64 (range_offset r) /\ is_u64 (range_length r) /\ range_length r <> 0 /\ range_end r <= u64_max.

Definition is_text (s : list Z) : Prop := byte_list s /\ utf8_valid s = true.

Definition is_scope (s : Scope) : Prop :=
  is_u16 (suite s) /\ is_bytes 32 (root s) /\ option_is is_u64 (length_ s) /\ Forall is_range (ranges s).

Definition is_limit (l : Limit) : Prop := is_u16 (limit_id l) /\ is_u64 (limit_value l).

Definition is_capability (c : Capability) : Prop :=
  is_text (issuer c) /\ is_text (audience c) /\ is_bytes 32 (holder_key c) /\ Forall is_u64 (operations c) /\
  is_scope (scope c) /\ Forall is_limit (limits c) /\ is_u64 (not_before c) /\ is_u64 (expiry c) /\
  is_bytes 16 (token_id c) /\ is_u64 (delegation c).

Definition is_signed (s : SignedCapability) : Prop :=
  byte_list (key_id s) /\ byte_list (capability s) /\ is_bytes 64 (signature s).

(** ** The bytes written *)

Definition range_bytes (r : Range) : list Z := array [] 2 ++ uint [] (range_offset r) ++ uint [] (range_length r).

Definition scope_bytes (s : Scope) : list Z :=
  map_head [] 4 ++ uint [] 0 ++ uint [] (suite s) ++ uint [] 1 ++ bytes [] (root s) ++
  uint [] 2 ++ optional_bytes (uint []) (length_ s) ++
  uint [] 3 ++ array [] (zlen (ranges s)) ++ concat (map range_bytes (ranges s)).

Definition limit_bytes (l : Limit) : list Z := uint [] (limit_id l) ++ uint [] (limit_value l).

Definition capability_bytes (c : Capability) : list Z :=
  map_head [] 11 ++ uint [] 0 ++ uint [] 0 ++ uint [] 1 ++ text [] (issuer c) ++ uint [] 2 ++ text [] (audience c) ++
  uint [] 3 ++ bytes [] (holder_key c) ++
  uint [] 4 ++ array [] (zlen (operations c)) ++ concat (map (uint []) (operations c)) ++
  uint [] 5 ++ scope_bytes (scope c) ++
  uint [] 6 ++ map_head [] (zlen (limits c)) ++ concat (map limit_bytes (limits c)) ++
  uint [] 7 ++ uint [] (not_before c) ++ uint [] 8 ++ uint [] (expiry c) ++
  uint [] 9 ++ bytes [] (token_id c) ++ uint [] 10 ++ uint [] (delegation c).

Definition signed_bytes (s : SignedCapability) : list Z :=
  map_head [] 4 ++ uint [] 0 ++ uint [] 0 ++ uint [] 1 ++ bytes [] (key_id s) ++ uint [] 2 ++ bytes [] (capability s) ++
  uint [] 3 ++ bytes [] (signature s).

Lemma emits_range r : emits (put_range r) (range_bytes r).
Proof. unfold put_range, range_bytes. solve_emits. Qed.

Lemma emits_limit l : emits (put_limit l) (limit_bytes l).
Proof. unfold put_limit, limit_bytes. solve_emits. Qed.

Lemma emits_length (l : option Z) :
  emits (E := Error) (match l with Some l => put_uint l | None => put_null end) (optional_bytes (uint []) l).
Proof. destruct l; [apply emits_uint|]. intros o. done. Qed.
#[local] Hint Resolve emits_range emits_limit emits_length : emit.

Lemma emits_lift_ok {E} (c : result unit E) m bs : c = Ok tt -> emits m bs -> emits (lift c ;! m) bs.
Proof. intros -> H o. apply (H o). Qed.

Lemma emits_scope s : scope_validate s = Ok tt -> emits (scope_encode s) (scope_bytes s).
Proof. intros Hv. unfold scope_encode, scope_bytes. apply emits_lift_ok; [done|]. solve_emits. Qed.

Lemma written_ok m bs : emits m bs -> written m = Ok bs.
Proof. intros H. unfold written. by rewrite (H []). Qed.

Lemma encode_scope_ok s : encode_scope s = (let? _ := scope_validate s in Ok (scope_bytes s)).
Proof.
  unfold encode_scope. destruct (scope_validate s) as [[]|e] eqn:Hv.
  - by rewrite (written_ok _ _ (emits_scope s Hv)).
  - unfold written, scope_encode, bind, lift. by rewrite Hv.
Qed.

Lemma encode_signed_ok s : encode s = (let? _ := validate_key_id (key_id s) in Ok (signed_bytes s)).
Proof.
  unfold encode. destruct (validate_key_id (key_id s)); [|done]. apply written_ok. unfold signed_bytes. solve_emits.
Qed.

Lemma validate_scope c : validate c = Ok tt -> scope_validate (scope c) = Ok tt.
Proof.
  unfold validate. destruct (validate_identity (issuer c)), (validate_identity (audience c)); try done. simpl.
  do 4 (case_match; [done|]). by destruct (scope_validate (scope c)) as [[]|].
Qed.

Lemma capability_bytes_ok c : canonical_bytes c = (let? _ := validate c in Ok (capability_bytes c)).
Proof.
  unfold canonical_bytes. destruct (validate c) as [[]|] eqn:Hv; [|done]. apply validate_scope in Hv. simpl.
  apply written_ok. pose proof (emits_scope _ Hv) as Hs. unfold capability_bytes.
  repeat first [eapply emits_bind; [solve [eauto with emit]|] | solve [eauto with emit]].
Qed.

(** ** The readers *)

Lemma exact_mapped {F E A} (f : F -> E) (m : M Reader F A) enc P : exact_codec m enc P -> exact_codec (mmap_err f m) enc P.
Proof. intros H. by apply exact_codec_at, exact_mmap_err, exact_codec_at. Qed.

Lemma exact_read_uint : exact_codec read_uint (uint []) is_u64.
Proof. apply exact_mapped, exact_typed_head. unfold UNSIGNED. lia. Qed.

Lemma exact_read_key n : is_u64 n -> exact_codec (read_key n) (fun _ => uint [] n) (fun _ => True).
Proof. intros Hn. apply exact_codec_at, exact_mmap_err, exact_head_is; [unfold UNSIGNED; lia|done]. Qed.

Lemma exact_read_map n : is_u64 n -> exact_codec (read_map n) (fun _ => map_head [] n) (fun _ => True).
Proof. intros Hn. apply exact_codec_at, exact_mmap_err, exact_head_is; [unfold MAP; lia|done]. Qed.

Lemma exact_read_array n : is_u64 n -> exact_codec (read_array n) (fun _ => array [] n) (fun _ => True).
Proof. intros Hn. apply exact_codec_at, exact_mmap_err, exact_head_is; [unfold ARRAY; lia|done]. Qed.

Lemma exact_read_array_len maximum : exact_codec (read_array_len maximum) (array []) (fun v => is_u64 v /\ v <= maximum).
Proof.
  apply exact_mapped. split; [|apply reader_length_parses]. intros v [Hv Hle]. apply reads_length; [unfold ARRAY; lia|done|done].
Qed.

Lemma exact_read_map_len maximum : exact_codec (read_map_len maximum) (map_head []) (fun v => is_u64 v /\ v <= maximum).
Proof.
  apply exact_mapped. split; [|apply reader_length_parses]. intros v [Hv Hle]. apply reads_length; [unfold MAP; lia|done|done].
Qed.

Lemma exact_read_bytes maximum : 0 <= maximum <= u64_max ->
  exact_codec (read_bytes maximum) (bytes []) (fun bs => byte_list bs /\ zlen bs <= maximum).
Proof. intros Hm. apply exact_mapped. by apply reader_bytes_exact. Qed.

Lemma exact_read_text maximum : 0 <= maximum <= u64_max ->
  exact_codec (read_text maximum) (text []) (fun bs => byte_list bs /\ zlen bs <= maximum /\ utf8_valid bs = true).
Proof. intros Hm. apply exact_mapped. by apply reader_text_exact. Qed.

Lemma exact_read_fixed n : is_u64 n -> n <= i64_max ->
  exact_codec (read_fixed n) (bytes []) (fun bs => byte_list bs /\ zlen bs = n).
Proof. intros Hn Hmax. apply exact_mapped. by apply exact_fixed_bytes. Qed.

Lemma exact_read_length : exact_codec (optional Encoding read_uint) (optional_bytes (uint []))
  (fun o => match o with Some v => is_u64 v | None => True end).
Proof.
  apply exact_optional; [apply exact_read_uint|]. intros v Hv. unfold uint, head, UNSIGNED, NULL.
  zcases; eexists _, _; (split; [reflexivity|]); change ((0 * 32) mod 256) with 0; try lia.
  unfold try_from_or_0, try_from. zcases; mlia.
Qed.

#[export] Hint Resolve exact_read_uint exact_read_array_len exact_read_map_len exact_read_length : exact.
#[export] Hint Extern 2 (exact_codec (read_key _) _ _) => apply exact_read_key; by vm_compute : exact.
#[export] Hint Extern 2 (exact_codec (read_map _) _ _) => apply exact_read_map; by vm_compute : exact.
#[export] Hint Extern 2 (exact_codec (read_array _) _ _) => apply exact_read_array; by vm_compute : exact.
#[export] Hint Extern 2 (exact_codec (read_bytes _) _ _) => apply exact_read_bytes; by vm_compute : exact.
#[export] Hint Extern 2 (exact_codec (read_text _) _ _) => apply exact_read_text; by vm_compute : exact.
#[export] Hint Extern 2 (exact_codec (read_fixed _) _ _) => apply exact_read_fixed; by vm_compute : exact.

#[export] Instance Range_inhabited : Inhabited Range := populate (mkRange 0 0).
#[export] Instance Limit_inhabited : Inhabited Limit := populate (mkLimit 0 0).

Lemma range_new_ok o l r : is_u64 o -> is_u64 l -> range_new o l = Ok r <-> r = mkRange o l /\ l <> 0 /\ o + l <= u64_max.
Proof.
  intros Ho Hl. unfold range_new, checked_add. destruct (Z.eqb_spec l 0); simpl; [naive_solver|].
  zcases; simpl; split; try done; [intros [= <-]; split_and!; [done|done|mlia]|by intros (-> & _)|intros (_ & _ & ?); mlia].
Qed.

Lemma exact_range : exact_codec decode_range range_bytes is_range.
Proof.
  apply exact_codec_at. unfold decode_range. eapply exact_iff.
  - codec_skip. codec_field range_offset. codec_field range_length. apply exact_lift. all: cbn beta.
    all: intros ? b ? Hb; try (apply range_new_ok in Hb as (-> & _); done).
    destruct Hb as [? Hb]. apply range_new_ok in Hb as (-> & _); done.
  - intros [o l]. unfold is_range, range_end. simpl. split.
    + intros (? & ? & ? & ?). split_and!; [done..|]. by apply range_new_ok.
    + intros (? & ? & Hn). apply range_new_ok in Hn as (_ & ? & ?); done.
  - intros [o l] _. cbn beta. by rewrite ?app_nil_r.
Qed.

Lemma exact_limit : exact_codec decode_limit limit_bytes is_limit.
Proof.
  apply exact_codec_at. unfold decode_limit. eapply exact_iff.
  - codec_field limit_id. codec_field limit_id. codec_field limit_value. codec_end. all: codec_fields.
  - unfold is_limit, is_u16. codec_conditions (fun (o : Scope) (_ : scope_validate o = Ok tt) => I).
  - codec_bytes.
Qed.
#[local] Hint Resolve exact_range exact_limit : exact.

Lemma scope_validate_inv s : scope_validate s = Ok tt ->
  1 <= suite s <= 2 /\ zlen (ranges s) <= 64 /\ separated (length_ s) None (ranges s) = true.
Proof. unfold scope_validate, bounds.RANGES. zcases; try done; destruct (separated _ _ _); try done; intros; split_and!; mlia. Qed.

Definition scope_ok (s : Scope) : Prop := is_scope s /\ scope_validate s = Ok tt.

Lemma exact_scope : exact_codec scope_decode scope_bytes scope_ok.
Proof.
  apply exact_codec_at. unfold scope_decode. eapply exact_iff.
  - codec_skip. codec_skip. codec_field suite. codec_field suite. codec_skip. codec_field root. codec_skip.
    codec_field length_. codec_skip. codec_field (fun s => zlen (ranges s)). codec_field ranges. codec_end. all: codec_fields.
  - unfold scope_ok, is_scope, is_u16, is_bytes, option_is. codec_conditions scope_validate_inv.
  - codec_bytes.
Qed.
#[local] Hint Resolve exact_scope : exact.

Lemma exact_whole_scope : exact_at true (let! s := scope_decode in read_finish ;! ret s) scope_bytes scope_ok.
Proof.
  eapply exact_iff.
  - codec_field (fun s : Scope => s). apply (exact_finished Encoding (Ok _)). by intros s b _ [= <-].
  - intros s. cbn beta. tauto.
  - intros s _. cbn beta. by rewrite app_nil_r.
Qed.

Lemma validate_identity_inv s : validate_identity s = Ok tt -> 1 <= zlen s <= 128.
Proof. unfold validate_identity, within, bounds.IDENTITY. simpl. zcases; try done; intros _; mlia. Qed.

Lemma capability_validate_inv c : validate c = Ok tt ->
  (1 <= zlen (issuer c) <= 128 /\ 1 <= zlen (audience c) <= 128) /\
  (1 <= zlen (operations c) <= 16 /\ hd 0 (operations c) <> 0 /\ ascending (operations c) = true /\
   Forall (fun v => v <= 0xffff) (operations c)) /\
  (zlen (limits c) <= 16 /\ ascending (map limit_id (limits c)) = true) /\
  scope_validate (scope c) = Ok tt /\ not_before c < expiry c /\ delegation c = 0.
Proof.
  intros Hv. pose proof (validate_scope c Hv) as Hs. revert Hv. unfold validate.
  destruct (validate_identity (issuer c)) as [[]|] eqn:H1, (validate_identity (audience c)) as [[]|] eqn:H2; try done.
  apply validate_identity_inv in H1, H2. rewrite Hs. simpl. unfold within, bounds.OPERATIONS, bounds.LIMITS. simpl.
  destruct ((1 <=? zlen (operations c)) && (zlen (operations c) <=? 16)) eqn:Ho; [|done]. simpl.
  destruct (bool_decide _ || _ || _) eqn:Ho2; [done|]. rewrite !orb_false_iff, bool_decide_eq_false, negb_false_iff in Ho2.
  destruct (Z.ltb_spec 16 (zlen (limits c))); [done|]. destruct (match limits c with [] => _ | _ => _ end || _) eqn:Hl; [done|].
  rewrite orb_false_iff, negb_false_iff in Hl. zcases; try done. intros _. destruct Ho2 as [[? ?] He].
  rewrite andb_true_iff, !Z.leb_le in Ho. unfold NO_FURTHER_DELEGATION in *. split_and!; try mlia; try tauto.
  apply Forall_forall. intros v Hv%list_elem_of_In. destruct (Z.ltb_spec 65535 v); [|lia].
  assert (existsb (fun v => 0xffff <? v) (operations c) = true) as Ht; [|congruence].
  apply existsb_exists. exists v. split; [done|]. by apply Z.ltb_lt.
Qed.

Definition capability_ok (c : Capability) : Prop := is_capability c /\ validate c = Ok tt.

(** The body of [from_canonical_bytes]. *)
Lemma exact_capability : exact_decode from_canonical_bytes capability_bytes capability_ok.
Proof.
  unfold from_canonical_bytes. apply exact_to_decode. eapply exact_iff.
  - codec_skip. codec_skip. codec_const Capability 0. codec_skip. codec_field issuer. codec_skip. codec_field audience.
    codec_skip. codec_field holder_key. codec_skip. codec_field (fun c => zlen (operations c)). codec_field operations.
    codec_skip. codec_field scope. codec_skip. codec_field (fun c => zlen (limits c)). codec_field limits.
    codec_skip. codec_field not_before. codec_skip. codec_field expiry. codec_skip. codec_field token_id.
    codec_skip. codec_field delegation. codec_end. all: codec_fields.
  - unfold capability_ok, is_capability, is_text, is_bytes, scope_ok. codec_conditions capability_validate_inv.
  - codec_bytes.
Qed.

Definition signed_ok (s : SignedCapability) : Prop := is_signed s /\ validate_key_id (key_id s) = Ok tt.

Lemma key_id_bounds k : validate_key_id k = Ok tt <-> 1 <= zlen k <= 64.
Proof. unfold validate_key_id, within, bounds.KEY_ID. simpl. zcases; split; try done; intros; mlia. Qed.

Lemma exact_signed : exact_at true (read_map 4 ;!
    read_key 0 ;!
    let! version := read_uint in
    if negb (version =? 0) then fail (UnsupportedVersion version) else
    read_key 1 ;!
    let! key_id := read_bytes (snd bounds.KEY_ID) in
    lift (validate_key_id key_id) ;!
    read_key 2 ;!
    let! capability := read_bytes bounds.SIGNED in
    read_key 3 ;!
    let! signature := read_fixed 64 in
    read_finish ;!
    ret (mkSigned key_id capability signature)) signed_bytes (fun s => signed_ok s /\ zlen (capability s) <= bounds.SIGNED).
Proof.
  eapply exact_iff.
  - codec_skip. codec_skip. codec_const SignedCapability 0. codec_skip. codec_field key_id.
    codec_field (fun _ : SignedCapability => tt). codec_skip. codec_field capability. codec_skip. codec_field signature.
    apply (exact_finished Encoding (Ok _)). all: try (by intros [] ? ? ?). all: codec_fields.
  - unfold signed_ok, is_signed, is_bytes. intros [k c g]. split; intros; codec_simpl; split_and?; try codec_arith.
    apply key_id_bounds in H2. unfold bounds.KEY_ID. simpl. mlia.
  - codec_bytes.
Qed.

(** ** Sizes *)

Lemma zlen_concat_le {A} (f : A -> list Z) l b : Forall (fun x => zlen (f x) <= b) l -> 0 <= b ->
  zlen (concat (map f l)) <= b * zlen l.
Proof.
  intros Hf Hb. induction Hf as [|x l Hx Hl IH]; cbn [map concat]; [unfold zlen; simpl; lia|].
  rewrite zlen_app, zlen_cons. lia.
Qed.

Lemma head_len_small v : v <= 65535 -> head_len v <= 3.
Proof. unfold head_len. zcases; lia. Qed.

(** Bounds every head by the width of its argument's class. *)
Ltac head_lens := repeat match goal with
  | |- context [head_len ?v] => let h := fresh in pose proof (head_len_range v) as h; revert h; generalize (head_len v); intros ? ? end.

Lemma scope_size s : scope_ok s -> zlen (scope_bytes s) <= 1300.
Proof.
  intros [(_ & [_ Hr] & Hl & Hrs) (Hs & Hn & _)%scope_validate_inv]. unfold scope_bytes, map_head, uint, array.
  rewrite !zlen_app, !zlen_head, !zlen_bytes, Hr by mlia. change (payload_len 32) with 34.
  assert (zlen (concat (map range_bytes (ranges s))) <= 19 * zlen (ranges s)).
  { apply zlen_concat_le; [|lia]. apply Forall_forall. intros r _. unfold range_bytes, array, uint.
    rewrite !zlen_app, !zlen_head. change (head_len 2) with 1. head_lens. lia. }
  assert (zlen (optional_bytes (fun v => head [] UNSIGNED v) (length_ s)) <= 9).
  { destruct (length_ s) as [v|]; cbn [optional_bytes]; [|done]. rewrite zlen_head. apply head_len_range. }
  pose proof (head_len_small (zlen (ranges s))). pose proof (head_len_small (suite s)).
  change (head_len 4) with 1. change (head_len 0) with 1. change (head_len 1) with 1.
  change (head_len 2) with 1. change (head_len 3) with 1. lia.
Qed.

Lemma payload_small n b : 0 <= n <= b -> b <= 65535 -> payload_len n <= 3 + b.
Proof. intros H Hb. unfold payload_len, saturating_add. pose proof (head_len_small n). mlia. Qed.

Lemma capability_size c : capability_ok c -> zlen (capability_bytes c) <= 2200.
Proof.
  intros [(_ & _ & [_ Hk] & _ & Hs & _ & _ & _ & [_ Ht] & _) Hv].
  pose proof (capability_validate_inv c Hv) as ((Hi & Ha) & (Ho & _ & _ & Hb) & (Hl & _) & Hsv & _).
  unfold capability_bytes, map_head, uint, array.
  rewrite !zlen_app, !zlen_head, !zlen_bytes, !zlen_text, Hk, Ht by mlia.
  change (payload_len 32) with 34. change (payload_len 16) with 17.
  pose proof (scope_size _ (conj Hs Hsv)). pose proof (payload_small (zlen (issuer c)) 128).
  pose proof (payload_small (zlen (audience c)) 128).
  assert (zlen (concat (map (fun v => head [] UNSIGNED v) (operations c))) <= 3 * zlen (operations c)).
  { apply zlen_concat_le; [|lia]. eapply Forall_impl; [exact Hb|]. intros v Hv'. rewrite zlen_head. by apply head_len_small. }
  assert (zlen (concat (map limit_bytes (limits c))) <= 18 * zlen (limits c)).
  { apply zlen_concat_le; [|lia]. apply Forall_forall. intros l _. unfold limit_bytes, uint. rewrite zlen_app, !zlen_head.
    head_lens. lia. }
  head_lens. lia.
Qed.

Lemma signed_size s b : signed_ok s -> zlen (capability s) <= b -> b <= 65535 -> zlen (signed_bytes s) <= 200 + b.
Proof.
  intros [(_ & _ & [_ Hg]) Hk%key_id_bounds] Hb Hb'. unfold signed_bytes, map_head, uint.
  pose proof (zlen_nonneg (capability s)).
  rewrite !zlen_app, !zlen_head, !zlen_bytes, Hg by mlia. change (payload_len 64) with 66.
  pose proof (payload_small (zlen (key_id s)) 64). pose proof (payload_small (zlen (capability s)) b).
  change (head_len 4) with 1. change (head_len 0) with 1. change (head_len 1) with 1.
  change (head_len 2) with 1. change (head_len 3) with 1. lia.
Qed.

(** ** Canonical encodings *)

Lemma decode_signed_ok input s : zlen input <= bounds.SIGNED -> byte_list input ->
  decode input = Ok s <-> (signed_ok s /\ zlen (capability s) <= bounds.SIGNED) /\ input = signed_bytes s.
Proof.
  intros Hz Hb. destruct (exact_to_decode _ _ _ exact_signed) as [H1 H2]. unfold decode, bounds.SIGNED in *.
  rewrite (proj2 (Z.ltb_ge _ _)) by done. split.
  - intros Hd. apply H1; [done|mlia|done].
  - intros [Hs ->]. apply H2; [done|mlia].
Qed.

Lemma decode_capability_ok input c : zlen input <= i64_max -> byte_list input ->
  from_canonical_bytes input = Ok c <-> capability_ok c /\ input = capability_bytes c.
Proof.
  intros Hz Hb. destruct exact_capability as [H1 H2]. split; [by apply H1|]. intros [Hc ->]. by apply H2.
Qed.

Lemma signed_holds s : zlen (capability s) <= zlen (signed_bytes s).
Proof.
  unfold signed_bytes, bytes, map_head, uint. rewrite !zlen_app, !zlen_head.
  pose proof (zlen_nonneg (key_id s)). pose proof (zlen_nonneg (signature s)). head_lens. lia.
Qed.

(** *** What is written is bytes *)

Lemma head_byte_list major v : 0 <= major <= 7 -> is_u64 v -> byte_list (head [] major v).
Proof.
  intros Hm Hv. unfold head. rewrite Z.mod_small by lia. unfold try_from_or_0.
  zcases; cbn [app]; repeat first [apply to_be_bytes_byte_list | apply Forall_nil_2 | apply Forall_cons_2; [unfold is_u8; mlia|]].
Qed.

Lemma concat_byte_list {A} (f : A -> list Z) l : Forall (fun x => byte_list (f x)) l -> byte_list (concat (map f l)).
Proof. induction 1; simpl; [apply Forall_nil_2|]. by apply Forall_app. Qed.

Lemma payload_byte_list major bs : 0 <= major <= 7 -> zlen bs <= u64_max -> byte_list bs -> byte_list (head [] major (zlen bs) ++ bs).
Proof.
  intros Hm Hz H. pose proof (zlen_nonneg bs). apply Forall_app. split; [by apply head_byte_list|done].
Qed.

Ltac written_bytes := unfold map_head, uint, array, bytes, text in *;
  repeat first [assumption | apply head_byte_list | apply payload_byte_list | apply Forall_app; split]; try done; try mlia.

Lemma scope_byte_list s : scope_ok s -> byte_list (scope_bytes s).
Proof.
  intros [(Hsu & [Hb Hr] & Hl & Hrs) (Hs & Hn & _)%scope_validate_inv]. unfold is_u16, scope_bytes in *.
  pose proof (zlen_nonneg (ranges s)). written_bytes.
  - destruct (length_ s); cbn [optional_bytes option_is] in *; [by apply head_byte_list|]. apply Forall_cons_2; [vm_compute; done|apply Forall_nil_2].
  - apply concat_byte_list. eapply Forall_impl; [exact Hrs|]. intros r (? & ? & _). unfold range_bytes. written_bytes.
Qed.

Lemma capability_byte_list c : capability_ok c -> byte_list (capability_bytes c).
Proof.
  intros [((Hi & _) & (Ha & _) & [Hk Hk'] & Ho & Hs & Hl & Hn & He & [Ht Ht'] & Hd) Hv].
  pose proof (capability_validate_inv c Hv) as ((? & ?) & (? & _) & (? & _) & Hsv & _). pose proof (zlen_nonneg (limits c)).
  unfold capability_bytes. pose proof (scope_byte_list _ (conj Hs Hsv)). written_bytes.
  - apply concat_byte_list. eapply Forall_impl; [exact Ho|]. intros v ?. by apply head_byte_list.
  - apply concat_byte_list. eapply Forall_impl; [exact Hl|]. intros l [? ?]. unfold limit_bytes, is_u16 in *. written_bytes.
Qed.

(** C33: Capability encodings are canonical.  A scope, a capability and a signed envelope each decode from exactly the
    bytes their encoder writes for them, so none has a second accepted encoding; a valid scope always fits the four
    kilobytes a session gives it, and an envelope decodes back whenever it fits the format's bound. *)
Theorem capability_codec_exact :
  ((forall input s, byte_list input -> decode_scope input = Ok s -> is_scope s /\ encode_scope s = Ok input) /\
   (forall s out, is_scope s -> encode_scope s = Ok out -> zlen out <= bounds.SCOPE /\ decode_scope out = Ok s)) /\
  ((forall input c, byte_list input -> zlen input <= i64_max -> from_canonical_bytes input = Ok c ->
      is_capability c /\ canonical_bytes c = Ok input) /\
   (forall c out, is_capability c -> canonical_bytes c = Ok out -> from_canonical_bytes out = Ok c)) /\
  ((forall input s, byte_list input -> decode input = Ok s -> is_signed s /\ encode s = Ok input) /\
   (forall s out, is_signed s -> encode s = Ok out -> zlen out <= bounds.SIGNED -> decode out = Ok s)).
Proof.
  split_and!.
  - intros input s Hb. unfold decode_scope, bounds.SCOPE. destruct (Z.ltb_spec 4096 (zlen input)); [done|]. intros Hd.
    destruct (exact_to_decode _ _ _ exact_whole_scope) as [H1 _].
    destruct (H1 input s Hb ltac:(mlia) Hd) as ([? Hv] & ->). split; [done|]. by rewrite encode_scope_ok, Hv.
  - intros s out Hs. rewrite encode_scope_ok. destruct (scope_validate s) as [[]|] eqn:Hv; [|done]. intros [= <-].
    pose proof (scope_size s (conj Hs Hv)). unfold decode_scope, bounds.SCOPE. split; [lia|]. rewrite (proj2 (Z.ltb_ge _ _)) by lia.
    destruct (exact_to_decode _ _ _ exact_whole_scope) as [_ H2]. apply H2; [done|mlia].
  - intros input c Hb Hz [[? Hv] ->]%decode_capability_ok; [|done..]. split; [done|]. by rewrite capability_bytes_ok, Hv.
  - intros c out Hc. rewrite capability_bytes_ok. destruct (validate c) as [[]|] eqn:Hv; [|done]. intros [= <-].
    pose proof (capability_size c (conj Hc Hv)). apply exact_capability; [done|mlia].
  - intros input s Hb Hd. assert (zlen input <= bounds.SIGNED) as Hz.
    { revert Hd. unfold decode. by destruct (Z.ltb_spec bounds.SIGNED (zlen input)). }
    apply decode_signed_ok in Hd as [[[? Hk] _] ->]; [|done..]. split; [done|]. by rewrite encode_signed_ok, Hk.
  - intros s out Hs. rewrite encode_signed_ok. destruct (validate_key_id (key_id s)) as [[]|] eqn:Hk; [|done]. intros [= <-] Hz.
    unfold decode. rewrite (proj2 (Z.ltb_ge _ _)) by done. destruct (exact_to_decode _ _ _ exact_signed) as [_ H2].
    unfold bounds.SIGNED in *. apply H2; [|mlia]. split; [done|]. pose proof (signed_holds s). lia.
Qed.
