(* ===== verification/CapabilityAuth.v ===== *)
(** * Authorization by capability

    When a presented capability is believed and what it then allows: the exact
    conditions of [authorize] and of each refusal that names the anchors, that an
    honest issuer and holder are believed, what each signature binds, and that the
    ranges a capability allows are exactly the bytes its scope covers. *)

From S2P Require Import Prelude Cbor Registry Codec FrameCbor Exact Readers Text Digest Receipt ReceiptCodec.
From S2P Require Import Capability CapabilityCodec.

(** ** What a scope covers *)

(** A byte offset is in the scope: inside one of its ranges, or, with no ranges,
    before the end of the object when the length is known. *)
Definition covers (s : Scope) (i : Z) : Prop :=
  match ranges s with
  | [] => match length_ s with Some l => i < l | None => True end
  | rs => exists r, r ∈ rs /\ range_offset r <= i < range_end r
  end.

Lemma separated_tail l p r rs : separated l p (r :: rs) = true ->
  separated l (Some (range_end r)) rs = true /\
  (forall e, p = Some e -> e < range_offset r) /\ (forall n, l = Some n -> range_end r <= n).
Proof.
  simpl. rewrite !andb_true_iff, !negb_true_iff. intros [[Hp Hl] Hr]. split_and!; [done| |].
  - intros e ->. by apply Z.leb_gt.
  - intros n ->. by apply Z.ltb_ge.
Qed.

Lemma separated_after l e rs : separated l (Some e) rs = true -> Forall is_range rs -> Forall (fun r => e < range_offset r) rs.
Proof.
  revert e. induction rs as [|r rs IH]; intros e Hs Hr; [done|]. apply Forall_cons in Hr as [Hr Hrs].
  apply separated_tail in Hs as (Hs & He & _). specialize (He e eq_refl). apply Forall_cons. split; [done|].
  eapply Forall_impl; [by apply IH|]. intros x Hx. simpl in *. destruct Hr as (_ & ? & ? & _). unfold range_end in *. mlia.
Qed.

(** No two ranges of a valid scope share or touch a byte: bytes next to each
    other lie in the same range. *)
Lemma neighbours_share l rs i r r' : separated l None rs = true -> Forall is_range rs -> r ∈ rs -> r' ∈ rs ->
  range_offset r <= i < range_end r -> range_offset r' <= i + 1 < range_end r' -> r = r'.
Proof.
  generalize (@None Z). induction rs as [|x rs IH]; intros p Hs Hf Hr Hr' Hi Hi'; [by apply not_elem_of_nil in Hr|].
  apply Forall_cons in Hf as [Hx Hf]. apply separated_tail in Hs as (Hs & _ & _).
  pose proof (separated_after _ _ _ Hs Hf) as Ha. rewrite Forall_forall in Ha.
  apply elem_of_cons in Hr as [->|Hr], Hr' as [->|Hr']; [done|..].
  - specialize (Ha _ Hr'). simpl in Ha. lia.
  - specialize (Ha _ Hr). simpl in Ha. lia.
  - by eapply IH.
Qed.

Lemma separated_inside l rs : separated (Some l) None rs = true -> Forall (fun r => range_end r <= l) rs.
Proof.
  generalize (@None Z). induction rs as [|x rs IH]; intros p Hs; [done|].
  apply separated_tail in Hs as (Hs & _ & Hl). apply Forall_cons. split; [by apply Hl|by eapply IH].
Qed.

Lemma scope_allows_one s r : ranges s <> [] -> scope_allows s r = true <->
  exists a, a ∈ ranges s /\ range_offset a <= range_offset r /\ range_end r <= range_end a.
Proof.
  unfold scope_allows. destruct (ranges s) as [|x rs]; [done|]. intros _. rewrite existsb_exists. setoid_rewrite list_elem_of_In.
  setoid_rewrite andb_true_iff. setoid_rewrite Z.leb_le. done.
Qed.

Lemma covered_by_one s r n : scope_ok s -> is_range r -> ranges s <> [] ->
  (forall i, range_offset r <= i <= range_offset r + Z.of_nat n -> covers s i) ->
  exists a, a ∈ ranges s /\ range_offset a <= range_offset r /\ range_offset r + Z.of_nat n < range_end a.
Proof.
  intros [(_ & _ & _ & Hf) (_ & _ & Hs)%scope_validate_inv] Hr Hne. unfold covers.
  destruct (ranges s) as [|x rs] eqn:E; [done|]. rewrite <- E in *. clear Hne.
  induction n as [|n IH]; intros Hc.
  - destruct (Hc (range_offset r)) as (a & Ha & ?); [lia|]. exists a. split_and!; [done|lia..].
  - destruct IH as (a & Ha & H1 & H2); [intros i Hi; apply Hc; lia|].
    destruct (Hc (range_offset r + Z.of_nat n + 1)) as (b & Hb & ?); [lia|].
    assert (a = b) as <- by (eapply (neighbours_share _ _ (range_offset r + Z.of_nat n)); try done; lia).
    exists a. split_and!; [done|lia..].
Qed.

(** A capability allows a read exactly when its scope covers every byte read.  For a valid scope the range check,
    which looks for one allowed range around the request, accepts precisely the ranges all of whose bytes are covered,
    since allowed ranges never touch; and no byte past a known length is covered. *)
Theorem scope_allows_covered s r : scope_ok s -> is_range r ->
  (scope_allows s r = true <-> forall i, range_offset r <= i < range_end r -> covers s i) /\
  (forall i l, length_ s = Some l -> covers s i -> i < l).
Proof.
  intros Hok Hr. split.
  - pose proof Hr as (_ & Hl & Hl0 & _). destruct (decide (ranges s = [])) as [E|Hne].
    + unfold scope_allows, covers. rewrite E. destruct (length_ s) as [l|]; [|done]. rewrite Z.leb_le.
      unfold range_end in *. split; [intros ? ? ?; lia|]. intros H. specialize (H (range_offset r + range_length r - 1)). mlia.
    + rewrite scope_allows_one by done. split.
      * intros (a & Ha & H1 & H2) i Hi. unfold covers. destruct (ranges s) eqn:E; [done|]. exists a. split; [done|]. lia.
      * intros Hc. destruct (covered_by_one s r (Z.to_nat (range_length r - 1)) Hok Hr Hne) as (a & Ha & H1 & H2).
        -- intros i Hi. apply Hc. unfold range_end. mlia.
        -- exists a. unfold range_end at 1. split_and!; [done|done|]. mlia.
  - intros i l El. destruct Hok as [_ (_ & _ & Hs)%scope_validate_inv]. unfold covers. rewrite El in *.
    destruct (ranges s) as [|x rs] eqn:E; [done|]. rewrite <- E in *. intros (a & Ha & ?).
    apply separated_inside in Hs. rewrite Forall_forall in Hs. specialize (Hs a Ha). simpl in Hs. lia.
Qed.

Definition demo_scope : Scope := mkScope 1 (repeat 7 32) (Some 4096) [mkRange 0 1024; mkRange 2048 1024].

Lemma demo_scope_ok : scope_ok demo_scope.
Proof.
  split; [|reflexivity]. unfold is_scope, demo_scope, is_u16. cbn [suite root length_ ranges option_is].
  repeat apply conj; try mlia; [by apply (is_bytes_repeat 32)..|]. repeat (apply Forall_cons_2; [unfold is_range, range_end; simpl; mlia|]).
  apply Forall_nil_2.
Qed.

Lemma scope_allows_covered_witness :
  (scope_allows demo_scope (mkRange 2100 900) = true <->
   forall i, range_offset (mkRange 2100 900) <= i < range_end (mkRange 2100 900) -> covers demo_scope i) /\
  (forall i l, length_ demo_scope = Some l -> covers demo_scope i -> i < l).
Proof. apply (scope_allows_covered demo_scope (mkRange 2100 900) demo_scope_ok). unfold is_range, range_end. simpl. mlia. Defined.

(** ** When a presentation is believed *)

Section decision.
Context `{E : Ed25519}.

(** The checks of [finish], as conditions.  The skew widens the window at both
    ends, and the sums cannot be cut short by the clock's width. *)
Definition acceptable (c : Capability) (entry : IssuerEntry) (p : Presentation) (policy : Policy) : Prop :=
  audience c ∈ audiences entry /\ audience c = policy_audience policy /\
  not_before c <= now policy + skew policy /\ now policy < expiry c + skew policy /\
  token_id c ∉ denied policy /\ Forall (fun l => limit_id l ∈ known_limits policy) (limits c) /\
  is_verifying_key (holder_key c) = true /\ zlen (proof p) = 64 /\
  exists input, proof_input (token_id c) (session_id p) (nonce p) (channel_binding p) = Ok input /\
    verify_strict (holder_key c) input (proof p) = true.

(** A check that failed: the call is a refusal and the condition is false. *)
Ltac refuse := split; [intros [=]|intros; destruct_and?; simplify_eq; try done; congruence].

Lemma mem_spec x l : mem x l = true <-> x ∈ l.
Proof.
  unfold mem. rewrite existsb_exists. setoid_rewrite Z.eqb_eq. rewrite list_elem_of_In. split; [by intros (? & ? & ->)|eauto].
Qed.

Lemma enforce_ok known ls : enforce known ls = Ok tt <-> Forall (fun l => limit_id l ∈ known) ls.
Proof.
  induction ls as [|l ls IH]; simpl; [by rewrite Forall_nil|]. rewrite Forall_cons, <- IH, <- mem_spec.
  destruct (mem (limit_id l) known); simpl; [tauto|refuse].
Qed.

Lemma possession_ok c p : verify_proof_of_possession c p = Ok tt <->
  is_verifying_key (holder_key c) = true /\ zlen (proof p) = 64 /\
  exists input, proof_input (token_id c) (session_id p) (nonce p) (channel_binding p) = Ok input /\
    verify_strict (holder_key c) input (proof p) = true.
Proof.
  unfold verify_proof_of_possession. destruct (within (16, 64) (zlen (nonce p))) eqn:Hn; simpl.
  - destruct (Z.eqb_spec (zlen (proof p)) 64); simpl; [|refuse].
    destruct (is_verifying_key (holder_key c)); simpl; [|refuse].
    destruct (proof_input _ _ _ _) as [i|]; simpl; [|split; [done|intros (_ & _ & i & [=] & _)]].
    destruct (verify_strict _ i _) eqn:Hv; [split; [eauto 6|done]|]. split; [done|]. by intros (_ & _ & j & [= <-] & ?); congruence.
  - split; [done|]. intros (_ & _ & i & Hi & _). unfold proof_input in Hi. by rewrite Hn in Hi.
Qed.

Definition clock_ok (policy : Policy) : Prop := is_u64 (now policy) /\ is_u64 (skew policy).

Lemma finish_ok c entry p policy a : capability_ok c -> clock_ok policy ->
  finish c entry p policy = Ok a <-> a = mkAuthorized c /\ acceptable c entry p policy.
Proof.
  intros [(_ & _ & _ & _ & _ & _ & Hnb & Hex & _) Hv] [Hn Hs]. apply capability_validate_inv in Hv as (_ & _ & _ & _ & Hlt & _).
  unfold finish, acceptable. rewrite <- enforce_ok, <- possession_ok. unfold saturating_add, saturating_sub.
  destruct (bool_decide_reflect (audience c ∈ audiences entry)); simpl; [|refuse].
  destruct (bool_decide_reflect (audience c = policy_audience policy)); simpl; [|refuse].
  destruct (Z.ltb_spec (Z.min (now policy + skew policy) u64_max) (not_before c)); [split; [done|]; intros (_ & _ & _ & ? & _); mlia|].
  destruct (Z.leb_spec (expiry c) (Z.max (now policy - skew policy) 0)); [split; [done|]; intros (_ & _ & _ & _ & ? & _); mlia|].
  destruct (bool_decide_reflect (token_id c ∈ denied policy)); simpl; [refuse|].
  destruct (enforce _ _) as [[]|]; simpl; [|refuse].
  destruct (verify_proof_of_possession _ _) as [[]|]; simpl; [|refuse].
  split; [intros [= <-]; split_and!; try done; mlia|by intros (-> & _)].
Qed.

(** An entry that vouches for the signature under the issuer the claims name. *)
Definition vouches (signed : SignedCapability) (c : Capability) (e : IssuerEntry) : Prop :=
  verify_signature signed (entry_key e) = Ok tt /\ entry_issuer e = issuer c.

#[export] Instance vouches_dec signed c e : Decision (vouches signed c e).
Proof.
  unfold vouches. apply and_dec; [|apply _]. destruct (verify_signature signed (entry_key e)) as [[]|]; [by left|by right].
Defined.

Lemma consider_first signed p policy kk ik es c : from_canonical_bytes (capability signed) = Ok c ->
  consider signed p policy kk ik es =
  match List.find (fun e => bool_decide (vouches signed c e)) es with
  | Some e => finish c e p policy
  | None => consider signed p policy kk ik es
  end.
Proof.
  intros Hc. revert kk ik. induction es as [|e es IH]; intros kk ik; [done|]. cbn [List.find].
  destruct (bool_decide_reflect (vouches signed c e)) as [[Hs Hi]|Hn].
  - simpl. rewrite Hs, Hc. simpl. by rewrite bool_decide_eq_true_2.
  - destruct (List.find _ es) eqn:Hfind; [|done]. simpl. unfold vouches in Hn.
    destruct (verify_signature signed (entry_key e)) as [[]|].
    + rewrite Hc. simpl. rewrite bool_decide_eq_false_2 by (intros ?; by apply Hn). simpl. apply IH.
    + apply IH.
Qed.

(** With no entry that vouches, the loop ends in a refusal. *)
Lemma consider_none signed p policy kk ik es a :
  (forall c e, from_canonical_bytes (capability signed) = Ok c -> e ∈ es -> ~ vouches signed c e) ->
  consider signed p policy kk ik es <> Ok a.
Proof.
  revert kk ik. induction es as [|e es IH]; intros kk ik Hn; [done|]. simpl.
  assert (forall kk ik, consider signed p policy kk ik es <> Ok a) as Hr.
  { intros. apply IH. intros c e' Hc He. apply Hn; [done|]. set_solver. }
  destruct (verify_signature signed (entry_key e)) as [[]|] eqn:Hs; [|done].
  destruct (from_canonical_bytes (capability signed)) as [c|] eqn:Hc; simpl; [|done].
  destruct (bool_decide_reflect (issuer c = entry_issuer e)); simpl; [|done].
  exfalso. apply (Hn c e eq_refl); [set_solver|done].
Qed.

(** C11: A presentation is believed exactly when it meets every condition.  [authorize] accepts when the signed bytes are
    one canonical capability, the first anchored entry that both names the key and vouches for the signature under the
    claimed issuer permits the audience, the audience is this deployment, the clock is inside the validity window
    widened by the declared skew, the token is not revoked, every limit it names can be enforced, and the holder's
    proof over this session's challenge verifies; and what it returns are those claims. *)
Theorem authorize_iff signed p anchors policy a : byte_list (capability signed) -> zlen (capability signed) <= i64_max ->
  clock_ok policy ->
  authorize signed p anchors policy = Ok a <->
  exists c e, a = mkAuthorized c /\ from_canonical_bytes (capability signed) = Ok c /\
    List.find (fun e => bool_decide (vouches signed c e)) (candidates anchors (key_id signed)) = Some e /\
    acceptable c e p policy.
Proof.
  intros Hb Hz Hclock. unfold authorize. set (es := candidates anchors (key_id signed)).
  destruct (from_canonical_bytes (capability signed)) as [c|] eqn:Hc.
  - pose proof (proj1 (decode_capability_ok _ c Hz Hb) Hc) as [Hok _]. rewrite (consider_first _ _ _ _ _ _ c Hc).
    destruct (List.find _ es) as [e|] eqn:Hf.
    + rewrite finish_ok by done. split; [intros [-> ?]; by exists c, e|]. intros (c' & e' & -> & [= <-] & [= <-]%(eq_trans (eq_sym Hf)) & ?). done.
    + split.
      * intros H. exfalso. revert H. apply consider_none. intros c' e [= <-]%(eq_trans (eq_sym Hc)) He%list_elem_of_In Hv.
        pose proof (find_none _ _ Hf e He) as Hn. simpl in Hn. by apply bool_decide_eq_false in Hn.
      * intros (c' & e' & _ & [= <-] & Hf' & _). by rewrite Hf in Hf'.
  - split; [|by intros (? & ? & _ & [=] & _)]. intros H. exfalso. revert H. apply consider_none. congruence.
Qed.

(** The refusals of the loop itself. *)
Definition about_trust (d : Denial) : bool :=
  match d with UnknownKey | DSignature | IssuerNotAnchored => true | _ => false end.

Lemma enforce_err known ls d : enforce known ls = Err d -> about_trust d = false.
Proof. induction ls as [|l ls IH]; simpl; [done|]. case_match; [|done]. by intros [= <-]. Qed.

Lemma possession_err c p d : verify_proof_of_possession c p = Err d -> about_trust d = false.
Proof.
  unfold verify_proof_of_possession. repeat case_match; try (by intros [= <-]); [].
  destruct (proof_input _ _ _ _); [done|]. injection H2 as <-. by intros [= <-].
Qed.

Lemma finish_err c e p policy d : finish c e p policy = Err d -> about_trust d = false.
Proof.
  unfold finish. do 4 (case_match; [by intros [= <-]|]). case_match; [by intros [= <-]|].
  destruct (enforce _ _) as [[]|] eqn:He; simpl; [|intros [= <-]; by eapply enforce_err].
  destruct (verify_proof_of_possession _ _) as [[]|] eqn:Hp; simpl; [done|]. intros [= <-]. by eapply possession_err.
Qed.

Lemma consider_trust signed p policy d kk ik es : about_trust d = true ->
  consider signed p policy kk ik es = Err d <->
  (forall e, e ∈ es -> verify_signature signed (entry_key e) = Ok tt ->
     exists c, from_canonical_bytes (capability signed) = Ok c /\ issuer c <> entry_issuer e) /\
  d = (if negb (kk || bool_decide (es <> [])) then UnknownKey
       else if ik || bool_decide (Exists (fun e => is_ok (verify_signature signed (entry_key e)) = true) es) then IssuerNotAnchored
       else DSignature).
Proof.
  intros Hd. revert kk ik. induction es as [|e es IH]; intros kk ik.
  - cbn [consider]. rewrite (bool_decide_eq_false_2 ([] <> [])), (bool_decide_eq_false_2 (Exists _ [])) by (first [intros Hx; by inversion Hx | intros Hx; by apply Hx]).
    rewrite !orb_false_r. split.
    + intros [= <-]. split; [|done]. intros e He. by apply not_elem_of_nil in He.
    + by intros [_ ->].
  - rewrite (bool_decide_eq_true_2 (e :: es <> [])), orb_true_r by done. cbn [consider negb].
    destruct (verify_signature signed (entry_key e)) as [[]|x] eqn:Hs.
    + rewrite (bool_decide_eq_true_2 (Exists _ (e :: es))), orb_true_r by (constructor; by rewrite Hs).
      destruct (from_canonical_bytes (capability signed)) as [c|] eqn:Hc; simpl.
      * destruct (bool_decide_reflect (issuer c = entry_issuer e)) as [Hi|Hi]; simpl.
        -- split; [intros Hf%finish_err; congruence|]. intros [Ha _]. destruct (Ha e) as (c' & [= <-] & ?); [set_solver|done|done].
        -- rewrite IH. simpl. split; (intros [Ha Hdd]; split; [|done]); intros e' He' Hv.
           ++ apply elem_of_cons in He' as [->|He']; [eauto|]. by apply Ha.
           ++ apply Ha; [set_solver|done].
      * split; [intros [= <-]; done|]. intros [Ha _]. destruct (Ha e) as (c' & [=] & ?); [set_solver|done].
    + rewrite IH. simpl. f_equiv.
      * split; intros Ha e' He' Hv.
        -- apply elem_of_cons in He' as [->|He']; [congruence|]. by apply Ha.
        -- apply Ha; [set_solver|done].
      * rewrite (bool_decide_ext (Exists _ (e :: es)) (Exists (fun e => is_ok (verify_signature signed (entry_key e)) = true) es)); [done|].
        rewrite Exists_cons, Hs. simpl. naive_solver.
Qed.

(** Refusals about trust name their cause.  With no entry for the key identifier the refusal is [UnknownKey], so
    an empty anchor set refuses everything; when entries name the key but none of their keys made the signature it is
    [Signature]; when signatures verify but only for entries of other issuers it is [IssuerNotAnchored]. *)
Theorem refusals_name_the_cause signed p anchors policy :
  let es := candidates anchors (key_id signed) in
  (authorize signed p anchors policy = Err UnknownKey <-> es = []) /\
  (authorize signed p anchors policy = Err DSignature <->
     es <> [] /\ forall e, e ∈ es -> verify_signature signed (entry_key e) <> Ok tt) /\
  (authorize signed p anchors policy = Err IssuerNotAnchored <->
     (exists e, e ∈ es /\ verify_signature signed (entry_key e) = Ok tt) /\
     forall e, e ∈ es -> verify_signature signed (entry_key e) = Ok tt ->
       exists c, from_canonical_bytes (capability signed) = Ok c /\ issuer c <> entry_issuer e).
Proof.
  cbv zeta. unfold authorize. rewrite !consider_trust by done. set (es := candidates anchors (key_id signed)).
  assert (Exists (fun e => is_ok (verify_signature signed (entry_key e)) = true) es <->
    exists e, e ∈ es /\ verify_signature signed (entry_key e) = Ok tt) as Hx.
  { rewrite Exists_exists. split; intros (e & ? & H); exists e; (split; [done|]); [|by rewrite H].
    by destruct (verify_signature _ _) as [[]|]. }
  simpl. destruct (decide (es = [])) as [Ees|Hne].
  - rewrite Ees, (bool_decide_eq_false_2 ([] <> [])) by tauto. simpl. split_and!.
    + split; [done|]. intros _. split; [|done]. intros e He. by apply not_elem_of_nil in He.
    + split; [by intros [_ ?]|by intros [? _]].
    + split; [by intros [_ ?]|]. intros [(e & He & _) _]. by apply not_elem_of_nil in He.
  - rewrite (bool_decide_eq_true_2 (es <> [])) by done. simpl. destruct (bool_decide_reflect (Exists (fun e => is_ok (verify_signature signed (entry_key e)) = true) es)) as [Hex|Hno].
    + split_and!; [split; [by intros [_ ?]|done]|split; [by intros [_ ?]|]|].
      * intros [_ Hn]. apply Hx in Hex as (e & He & Hv). by destruct (Hn e He).
      * rewrite <- Hx. tauto.
    + split_and!; [split; [by intros [_ ?]|done]|split|split; [by intros [_ ?]|]].
      * intros _. split; [done|]. intros e He Hv. apply Hno, Hx. eauto.
      * intros [_ Hn]. split; [|done]. intros e He Hv. by destruct (Hn e He).
      * intros [He _]. by apply Hx in He.
Qed.
End decision.

(** ** An honest issuer and holder *)

Lemma issuer_input_ok k bs : signing_input k bs =
  (let? _ := validate_key_id k in Ok (DOMAIN ++ to_be_bytes 2 FORMAT_ID ++ [zlen k] ++ k ++ bs)).
Proof.
  unfold signing_input. destruct (validate_key_id k) as [[]|] eqn:Hk; [|done]. apply key_id_bounds in Hk.
  unfold try_from. by rewrite (proj2 (Z.leb_le _ _)) by mlia.
Qed.

Section honest.
Context `{E : Ed25519} `{!Ed25519Ok E}.

Lemma sign_inv c k key signed : is_capability c -> byte_list k -> sign c k key = Ok signed ->
  capability_ok c /\ validate_key_id k = Ok tt /\ is_signed signed /\
  key_id signed = k /\ capability signed = capability_bytes c /\ verify_signature signed (verifying_key key) = Ok tt.
Proof.
  intros Hc Hkb. unfold sign. rewrite capability_bytes_ok. destruct (validate c) as [[]|] eqn:Hv; [|done]. simpl.
  rewrite issuer_input_ok. destruct (validate_key_id k) as [[]|] eqn:Hk; [|done]. intros Hs.
  injection Hs as <-. split_and!; try done.
  - split; [done|]. split; [by apply capability_byte_list|apply sign_bytes].
  - unfold verify_signature. cbn [key_id capability signature]. rewrite issuer_input_ok, Hk. simpl. by rewrite sign_verifies.
Qed.

(** A capability issued and presented as the format intends is believed.  When an issuer signs a valid capability
    and the holder it names proves possession of its key for this session's challenge, the envelope survives the wire
    and the verifier accepts it, provided the issuer's key is anchored under the claimed issuer, the entries of that
    issuer for that key identifier permit the audience, and the clock, deny list and limits admit it. *)
Theorem honest_holder_authorized c k issuer_key holder signed sid challenge binding pf anchors policy :
  is_capability c -> byte_list k -> holder_key c = verifying_key holder ->
  sign c k issuer_key = Ok signed -> prove_possession c sid challenge binding holder = Ok pf ->
  (exists e, e ∈ anchors /\ entry_key_id e = k /\ entry_key e = verifying_key issuer_key /\ entry_issuer e = issuer c) ->
  (forall e, e ∈ anchors -> entry_key_id e = k -> entry_issuer e = issuer c -> audience c ∈ audiences e) ->
  audience c = policy_audience policy -> clock_ok policy ->
  not_before c <= now policy + skew policy -> now policy < expiry c + skew policy ->
  token_id c ∉ denied policy -> Forall (fun l => limit_id l ∈ known_limits policy) (limits c) ->
  exists wire, encode signed = Ok wire /\ decode wire = Ok signed /\
    authorize signed (mkPresentation challenge sid binding pf) anchors policy = Ok (mkAuthorized c).
Proof.
  intros Hc Hkb Hh Hs Hp (e0 & He0 & Hk0 & Hkey0 & Hi0) Haud Hpa Hclock Hnb Hex Hden Hlim.
  destruct (sign_inv c k issuer_key signed Hc Hkb Hs) as (Hok & Hk & Hst & Hkid & Hcap & Hver).
  pose proof (capability_size c Hok) as Hsize. exists (signed_bytes signed).
  assert (signed_ok signed) as Hsok by (split; [done|by rewrite Hkid]).
  assert (zlen (capability signed) <= 2200) as Hcs by (by rewrite Hcap).
  pose proof (signed_size signed 2200 Hsok Hcs ltac:(lia)) as Hss. unfold bounds.SIGNED in *.
  split_and!.
  - by rewrite encode_signed_ok, Hkid, Hk.
  - unfold decode, bounds.SIGNED. rewrite (proj2 (Z.ltb_ge _ _)) by lia.
    apply (proj2 (exact_to_decode _ _ _ exact_signed)); [|mlia]. split; [done|]. unfold bounds.SIGNED. lia.
  - assert (from_canonical_bytes (capability signed) = Ok c) as Hd by (rewrite Hcap; apply exact_capability; [done|mlia]).
    unfold authorize. rewrite (consider_first _ _ _ _ _ _ c Hd).
    destruct (List.find _ _) as [e|] eqn:Hf.
    + apply find_some in Hf as [Hin [_ Hiss]%bool_decide_eq_true]. unfold candidates in Hin.
      apply filter_In in Hin as [Hin%list_elem_of_In Hkeq%bool_decide_eq_true]. apply finish_ok; [done|done|]. split; [done|].
      unfold prove_possession in Hp. destruct (proof_input _ _ _ _) as [i|] eqn:Hpi; [|done]. injection Hp as <-.
      unfold acceptable. cbn [session_id nonce channel_binding proof]. rewrite Hkid in Hkeq.
      split_and!; try done; [by apply Haud|rewrite Hh; apply verifying_key_parses|apply sign_bytes|].
      exists i. split; [done|]. rewrite Hh. apply sign_verifies.
    + exfalso. assert (e0 ∈ candidates anchors (key_id signed)) as Hin.
      { apply list_elem_of_In, filter_In. split; [by apply list_elem_of_In|]. apply bool_decide_eq_true. congruence. }
      apply list_elem_of_In in Hin. pose proof (find_none _ _ Hf e0 Hin) as Hn. simpl in Hn. apply bool_decide_eq_false in Hn.
      apply Hn. split; [by rewrite Hkey0|done].
Qed.
End honest.

(** ** What each signature binds *)

Lemma proof_input_ok t s n b i : proof_input t s n b = Ok i <->
  16 <= zlen n <= 64 /\ i = PROOF_DOMAIN ++ to_be_bytes 2 FORMAT_ID ++ t ++ s ++ to_be_bytes 2 (zlen n) ++ n ++ b.
Proof.
  unfold proof_input, within. simpl. unfold try_from. destruct (Z.leb_spec 16 (zlen n)), (Z.leb_spec (zlen n) 64); simpl;
    [|split; [done|intros [? _]; lia]..]. rewrite (proj2 (Z.leb_le (zlen n) u16_max)) by mlia. simpl.
  split; [intros [= <-]; split; [lia|done]|by intros [_ ->]].
Qed.

Lemma app_inj_len {A} (a b c d : list A) : a ++ b = c ++ d -> length a = length c -> a = c /\ b = d.
Proof. intros H Hl. by apply app_inj_1. Qed.

(** What is signed is unambiguous.  An issuer's transcript determines the key identifier and the capability bytes;
    a holder's determines the token, the session attempt, the challenge and the channel; and no transcript of one kind
    (issuer, holder, receipt or receipt witness) is a transcript of another. *)
Theorem capability_transcripts_bind :
  (forall k bs k' bs' i, signing_input k bs = Ok i -> signing_input k' bs' = Ok i -> k = k' /\ bs = bs') /\
  (forall t s n b t' s' n' b' i, length t = 16%nat -> length t' = 16%nat -> length s = 16%nat -> length s' = 16%nat ->
     proof_input t s n b = Ok i -> proof_input t' s' n' b' = Ok i -> t = t' /\ s = s' /\ n = n' /\ b = b') /\
  (forall k bs t s n b i, signing_input k bs = Ok i -> proof_input t s n b <> Ok i) /\
  (forall k bs sch k' r i, signing_input k bs = Ok i -> Receipt.signing_input sch k' r <> Ok i) /\
  (forall t s n b sch k' r i, proof_input t s n b = Ok i -> Receipt.signing_input sch k' r <> Ok i) /\
  (forall k bs w i, signing_input k bs = Ok i -> statement_bytes w <> Ok i) /\
  (forall t s n b w i, proof_input t s n b = Ok i -> statement_bytes w <> Ok i).
Proof.
  split_and!.
  - intros k bs k' bs' i. rewrite !issuer_input_ok. destruct (validate_key_id k) as [[]|]; [|done].
    destruct (validate_key_id k') as [[]|]; [|done]. intros [= <-] H. injection H as Hz H. unfold zlen in Hz.
    apply app_inj_len in H as [-> ->]; [done|lia].
  - intros t s n b t' s' n' b' i Ht Ht' Hs Hs' [Hn ->]%proof_input_ok [Hn' H]%proof_input_ok.
    apply app_inv_head in H. apply app_inv_head in H. apply app_inj_len in H as [-> H]; [|congruence].
    apply app_inj_len in H as [-> H]; [|congruence]. apply app_inj_len in H as [Hz H]; [|by rewrite !length_to_be_bytes].
    assert (zlen n = zlen n') as Hl.
    { rewrite <- (from_to_be_bytes 2 (zlen n)), <- (from_to_be_bytes 2 (zlen n')) by (simpl; lia). by rewrite Hz. }
    apply app_inj_len in H as [-> ->]; [done|]. unfold zlen in Hl. lia.
  - intros k bs t s n b i. rewrite issuer_input_ok. destruct (validate_key_id k) as [[]|]; [|done]. intros [= <-].
    by intros [_ H]%proof_input_ok.
  - intros k bs sch k' r i. rewrite issuer_input_ok, ReceiptCodec.signing_input_ok. destruct (validate_key_id k) as [[]|]; [|done].
    intros [= <-]. destruct (Receipt.validate_key_id k') as [[]|]; [|done]. by destruct (Receipt.validate r) as [[]|].
  - intros t s n b sch k' r i [_ ->]%proof_input_ok. rewrite ReceiptCodec.signing_input_ok.
    destruct (Receipt.validate_key_id k') as [[]|]; [|done]. by destruct (Receipt.validate r) as [[]|].
  - intros k bs w i. rewrite issuer_input_ok. destruct (validate_key_id k) as [[]|]; [|done]. intros [= <-] H.
    apply statement_bytes_domain in H as [rest H]. discriminate H.
  - intros t s n b w i [_ ->]%proof_input_ok H. apply statement_bytes_domain in H as [rest H]. discriminate H.
Qed.

(** ** A concrete capability *)

#[local] Instance demo_ed25519 : Ed25519 := toy_ed25519.
#[local] Instance demo_ed25519_ok : Ed25519Ok toy_ed25519 := toy_ed25519_ok.

(** The issuer ["i"], for the audience ["a"]. *)
Definition demo_capability : Capability :=
  mkCapability [105] [97] (repeat 5 32) [1; 3] demo_scope [mkLimit 1 100] 1000 2000 (repeat 9 16) 0.

Lemma demo_capability_typed : is_capability demo_capability.
Proof.
  unfold is_capability, demo_capability.
  cbn [issuer audience holder_key operations scope limits not_before expiry token_id delegation].
  pose proof demo_scope_ok as [Hs _].
  assert (forall b, in_range 0 255 b = true -> utf8_valid [b] = true -> is_text [b]) as Ht.
  { intros b Hb Hu. split; [|done]. apply byte_list_check. simpl. by rewrite Hb. }
  split; [by apply Ht|]. split; [by apply Ht|]. split; [by apply (is_bytes_repeat 32)|].
  split; [repeat (apply Forall_cons_2; [mlia|]); apply Forall_nil_2|]. split; [exact Hs|].
  split; [apply Forall_cons_2; [unfold is_limit, is_u16; simpl; mlia|apply Forall_nil_2]|].
  split; [mlia|]. split; [mlia|]. split; [by apply (is_bytes_repeat 16)|mlia].
Qed.

Definition demo_signed : SignedCapability :=
  Eval vm_compute in match sign demo_capability [107] (repeat 3 32) with Ok s => s | Err _ => mkSigned [] [] [] end.
Definition demo_proof : list Z :=
  Eval vm_compute in match prove_possession demo_capability (repeat 1 16) (repeat 2 32) (repeat 4 32) (repeat 5 32) with Ok p => p | Err _ => [] end.
Definition demo_anchors : list IssuerEntry := [mkIssuerEntry [107] [105] [[97]] (repeat 3 32)].
Definition demo_policy : Policy := mkPolicy [97] 1500 30 [] enforceable_limits.
Definition demo_presentation : Presentation := mkPresentation (repeat 2 32) (repeat 1 16) (repeat 4 32) demo_proof.

Lemma honest_holder_authorized_witness : exists wire, encode demo_signed = Ok wire /\ decode wire = Ok demo_signed /\
  authorize demo_signed demo_presentation demo_anchors demo_policy = Ok (mkAuthorized demo_capability).
Proof.
  apply (honest_holder_authorized demo_capability [107] (repeat 3 32) (repeat 5 32) demo_signed
    (repeat 1 16) (repeat 2 32) (repeat 4 32) demo_proof demo_anchors demo_policy).
  - exact demo_capability_typed.
  - apply byte_list_check. reflexivity.
  - reflexivity.
  - vm_compute. reflexivity.
  - vm_compute. reflexivity.
  - exists (mkIssuerEntry [107] [105] [[97]] (repeat 3 32)). split; [apply list_elem_of_here|]. split; [reflexivity|split; reflexivity].
  - intros e [->|[]%not_elem_of_nil]%elem_of_cons _ _. apply list_elem_of_here.
  - reflexivity.
  - unfold clock_ok, demo_policy. simpl. split; mlia.
  - vm_compute. discriminate.
  - reflexivity.
  - apply not_elem_of_nil.
  - apply Forall_cons_2; [apply list_elem_of_here|apply Forall_nil_2].
Defined.

Lemma authorize_iff_witness :
  authorize demo_signed demo_presentation demo_anchors demo_policy = Ok (mkAuthorized demo_capability) <->
  exists c e, mkAuthorized demo_capability = mkAuthorized c /\ from_canonical_bytes (capability demo_signed) = Ok c /\
    List.find (fun e => bool_decide (vouches demo_signed c e)) (candidates demo_anchors (key_id demo_signed)) = Some e /\
    acceptable c e demo_presentation demo_policy.
Proof.
  apply (authorize_iff demo_signed demo_presentation demo_anchors demo_policy (mkAuthorized demo_capability)).
  - apply byte_list_check. vm_compute. reflexivity.
  - vm_compute. discriminate.
  - unfold clock_ok, demo_policy. simpl. split; mlia.
Defined.
