(* ===== verification/Formats.v ===== *)
(** * The opaque payloads of typed frames

    The frame codec asks the manifest and receipt crates whether a page, a seal or
    a receipt decodes ([crates/vot-codec/src/frames/manifest.rs], [assurance.rs]).
    Here those questions are answered by the decoders of the components
    themselves, and what such a frame carries is stated end to end. *)

From S2P Require Import Text ManifestPath Manifest ManifestCodec Receipt ReceiptCodec.
From S2P Require Import Prelude Cbor Exact Codec Registry FrameCbor FramesTransfer Frames.

Section formats.
Context `{Unicode}.

(** [vot_manifest::decode_page], [vot_manifest::decode_seal] and
    [vot_receipt::decode_authenticated]. *)
#[export] Instance vot_formats : PageFormats := mkPageFormats
  (fun bs => is_ok (Manifest.decode_page bs)) (fun bs => is_ok (Manifest.decode_seal bs))
  (fun bs => is_ok (Receipt.decode_authenticated bs)).

(** A frame whose payload is bytes another crate vouches for. *)
Inductive opaque : TypedFrame -> list Z -> Prop :=
| opaque_page b : opaque (TManifestPage b) b
| opaque_seal b : opaque (TSeal b) b
| opaque_receipt b : opaque (TPublishReceipt b) b.

(** What vouches for it. *)
Definition vouched (f : TypedFrame) : bool :=
  match f with
  | TManifestPage b => page_decodes b
  | TSeal b => seal_decodes b
  | TPublishReceipt b => receipt_decodes b
  | _ => false
  end.

(** Finds the arm of [decode_payload] for a known kind. *)
Ltac payload_arm :=
  unfold decode_payload; cbn [typed_frame_type];
  repeat first [rewrite Z.eqb_refl | match goal with |- context [if ?a =? ?b then _ else _] => change (a =? b) with false end].

Lemma opaque_vouched f b input limits n : opaque f b -> byte_list input -> decode input limits = Ok (f, n) ->
  vouched f = true /\ byte_list b /\ zlen b <= zlen input.
Proof.
  intros Ho Hb. unfold decode. destruct (decode_one input limits) as [[[ft p|ft len] m]|] eqn:Hd; try done. cbn [map_err decoded_type].
  destruct (decode_payload ft p) as [g|] eqn:Hp; [|done]. intros [= -> ->]. pose proof (decode_payload_kind _ _ _ Hp) as ->.
  destruct (decode_one_known _ _ _ _ _ Hb Hd) as (h & Hh & Hn & ->).
  assert (byte_list (slice input h n) /\ zlen (slice input h n) <= zlen input) as Hs.
  { split; [unfold slice, ztake, zdrop; by apply Forall_take, Forall_drop|]. rewrite zlen_slice by lia. lia. }
  revert Hp. destruct Ho; payload_arm; unfold validate_manifest_page, validate_seal, validate_receipt; intros Hp;
    repeat case_match; simplify_eq; cbn [vouched]; split; done.
Qed.

Lemma opaque_travels f b : opaque f b -> vouched f = true ->
  zlen b <= payload_bound DEFAULT_MAX_UNKNOWN_PAYLOAD (typed_frame_type f) ->
  payload_past_limit (typed_frame_type f) (zlen b) = false ->
  exists bytes, encode f [] = (Ok tt, bytes) /\
    forall limits rest, validate_limits limits = Ok tt -> decode (bytes ++ rest) limits = Ok (f, zlen bytes).
Proof.
  intros Ho Hv Hl Hp. destruct (typed_type_facts f) as (Hft & Hk & Hs & Hu).
  exists (frame_bytes (typed_frame_type f) b). split.
  - assert (encode_payload f [] = (Ok tt, b)) as He.
    { revert Hv Hp. destruct Ho; cbn [vouched encode_payload typed_frame_type];
        unfold validate_manifest_page, validate_seal, validate_receipt, bind, lift; intros Hv Hp; rewrite ?Hp, Hv; done. }
    assert (encode f [] = mmap_err Envelope (encode_frame (typed_frame_type f) b) []) as ->.
    { destruct Ho; unfold encode; by rewrite He. }
    unfold mmap_err. by rewrite (writes_frame _ b Hft Hl []).
  - intros limits rest Hlim. unfold decode.
    pose proof (decode_one_written limits (typed_frame_type f, b) rest Hlim) as Hd. unfold decoded_as in Hd. simpl in Hd.
    rewrite Hs in Hd. rewrite Hd by (split_and!; simpl; [done|by rewrite Hu|by left]). cbn [map_err decoded_type].
    revert Hv Hp. destruct Ho; payload_arm; cbn [vouched typed_frame_type];
      unfold validate_manifest_page, validate_seal, validate_receipt; intros Hv Hp; by rewrite ?Hp, Hv.
Qed.

Lemma is_ok_inv {A E} (r : result A E) : is_ok r = true -> exists a, r = Ok a.
Proof. destruct r; [eauto|done]. Qed.

(** C34: Page, seal and receipt frames carry exactly pages, seals and receipts.  Whatever a peer sends, a decoded frame
    of these kinds holds the canonical encoding of a well-formed manifest page, seal or receipt.  Every page and every
    receipt that encodes fits its frame, and so does every valid seal of up to 6718 pages; each is read back from its
    frame, whatever follows and under any valid limits. *)
Theorem opaque_frames_carry :
  (forall input limits n b, byte_list input -> zlen input <= i64_max ->
     (decode input limits = Ok (TManifestPage b, n) -> exists p, ManifestCodec.is_page p /\ Manifest.encode_page p = Ok b) /\
     (decode input limits = Ok (TSeal b, n) -> exists s, ManifestCodec.is_seal s /\ Manifest.encode_seal s = Ok b) /\
     (decode input limits = Ok (TPublishReceipt b, n) ->
        exists a, ReceiptCodec.is_authenticated a /\ Receipt.encode_authenticated a = Ok b)) /\
  (forall f b, opaque f b ->
     match f with
     | TManifestPage _ => exists p, ManifestCodec.is_page p /\ Manifest.encode_page p = Ok b
     | TSeal _ => exists s, ManifestCodec.is_seal s /\ Manifest.encode_seal s = Ok b /\ zlen (Manifest.pages s) <= 6718
     | _ => exists a, ReceiptCodec.is_authenticated a /\ Receipt.encode_authenticated a = Ok b
     end ->
     exists bytes, encode f [] = (Ok tt, bytes) /\
       forall limits rest, validate_limits limits = Ok tt -> decode (bytes ++ rest) limits = Ok (f, zlen bytes)).
Proof.
  split.
  - intros input limits n b Hb Hz.
    split_and!; intros Hd; eapply opaque_vouched in Hd as ([v Hv]%is_ok_inv & Hbb & Hl); try exact Hb; try constructor; exists v.
    + apply ManifestCodec.decode_page_typed; [done|lia|done].
    + apply ManifestCodec.decode_seal_typed; [done|lia|done].
    + apply ReceiptCodec.decode_typed; [done|lia|done].
  - intros f b Ho Hf. destruct Ho as [b|b|b].
    + destruct Hf as (p & Ht & He). destruct (ManifestCodec.encoded_page_bytes p b Ht He) as [_ Hd].
      assert (zlen b <= 1048576) as Hz.
      { revert Hd. unfold Manifest.decode_page, Manifest.validate_page_length, Manifest.MAX_PAGE_BYTES. by destruct (Z.ltb_spec 1048576 (zlen b)). }
      eapply opaque_travels; [by constructor|cbn [vouched page_decodes vot_formats]; by rewrite Hd|exact Hz|].
      unfold payload_past_limit. simpl. by apply Z.ltb_ge.
    + destruct Hf as (s & Ht & He & Hn). pose proof (ManifestCodec.encode_seal_ok s Ht) as Hok. rewrite He in Hok.
      destruct (Manifest.validate_seal s) as [[]|] eqn:Hv; [|done]. cbv beta iota in Hok.
      destruct (ManifestCodec.seal_size s Ht Hv) as [Hz _]. pose proof (ManifestCodec.valid_seal_fits s Ht Hv) as Hfit.
      rewrite (proj2 (Z.ltb_ge _ _)) in Hok by done.
      assert (b = ManifestCodec.seal_bytes s) as -> by congruence.
      unfold Manifest.MAX_SEAL_FIXED_BYTES, Manifest.MAX_ENCODED_PAGE_COMMITMENT_BYTES in Hz.
      eapply opaque_travels; [by constructor| |change (zlen (ManifestCodec.seal_bytes s) <= 262144); lia|].
      * cbn [vouched seal_decodes vot_formats]. by rewrite (ManifestCodec.decode_encoded_seal s Ht Hv Hfit).
      * change ((262144 <? zlen (ManifestCodec.seal_bytes s)) = false). apply Z.ltb_ge. lia.
    + destruct Hf as (a & Ht & He). destruct (ReceiptCodec.encoded_bytes a b Ht He) as [_ Hd].
      assert (zlen b <= 65536) as Hz.
      { revert Hd. unfold Receipt.decode_authenticated. by destruct (Z.ltb_spec 65536 (zlen b)). }
      eapply opaque_travels; [by constructor|cbn [vouched receipt_decodes vot_formats]; by rewrite Hd|exact Hz|].
      change ((65536 <? zlen b) = false). by apply Z.ltb_ge.
Qed.
End formats.
