(* ===== verification/HashTree.v ===== *)
(** * Hash trees

    What the two proof suites share: cutting bytes into chunks, reducing a layer
    of nodes to its root, powers of two, and trees of digests.  A verifier that
    folds a proof computes the hash of a pruned tree; short of a collision, a
    pruned tree with the root of a whole one agrees with it at every tip. *)

From S2P Require Import Prelude.

(** ** Chunks: [slice::chunks(n)] *)

Fixpoint chunks_fuel {A} (fuel : nat) (n : Z) (l : list A) : list (list A) :=
  match fuel, l with
  | S fuel, _ :: _ => ztake n l :: chunks_fuel fuel n (zdrop n l)
  | _, _ => []
  end.
Definition chunks {A} (n : Z) (l : list A) : list (list A) := chunks_fuel (length l) n l.

(** [chunks_exact(n)] and its [remainder()]. *)
Definition chunks_exact {A} (n : Z) (l : list A) : list (list A) := chunks n (ztake (zlen l / n * n) l).
Definition chunks_remainder {A} (n : Z) (l : list A) : list A := zdrop (zlen l / n * n) l.

(** [Vec::resize]. *)
Definition resize_to {A} (l : list A) (n : Z) (x : A) : list A := ztake n l ++ repeat x (Z.to_nat (n - zlen l)).

(** [next_power_of_two], where it fits the width, and [trailing_zeros] of a [u64]. *)
Definition next_power_of_two (n : Z) : Z := 2 ^ Z.log2_up n.
Definition trailing_zeros (n : Z) : Z := if n =? 0 then 64 else Z.log2 (Z.land n (- n)).

Lemma slice_lookup_Some {A} (l : list A) a b i x : slice l a b !! i = Some x <-> Z.of_nat i < b - a /\ l !! (Z.to_nat a + i)%nat = Some x.
Proof. unfold slice, ztake, zdrop. rewrite lookup_take_Some, lookup_drop. split; intros [??]; (split; [|done || lia]); try done; lia. Qed.

Lemma slice_slice {A} (l : list A) a b c d : 0 <= a -> 0 <= c -> c <= d -> d <= b - a -> slice (slice l a b) c d = slice l (a + c) (a + d).
Proof.
  intros. apply list_eq. intros i. apply option_eq. intros x. rewrite !slice_lookup_Some.
  replace (Z.to_nat a + (Z.to_nat c + i))%nat with (Z.to_nat (a + c) + i)%nat by lia. intuition lia.
Qed.

Section chunks.
Context {A : Type} (n : Z) (Hn : 0 < n).

Lemma chunks_fuel_irrel fuel fuel' (l : list A) : (length l <= fuel)%nat -> (length l <= fuel')%nat ->
  chunks_fuel fuel n l = chunks_fuel fuel' n l.
Proof using Hn.
  revert fuel' l. induction fuel as [|f IH]; intros fuel' l Hf Hf'; [destruct l; [by destruct fuel'|simpl in Hf; lia]|].
  destruct l as [|x l]; [by destruct fuel'|]. destruct fuel' as [|f']; [simpl in Hf'; lia|]. cbn [chunks_fuel]. f_equal.
  apply IH; unfold zdrop; rewrite length_drop; simpl in *; lia.
Qed.

Lemma chunks_nil : chunks n (@nil A) = [].
Proof. done. Qed.

Lemma chunks_step (l : list A) : l <> [] -> chunks n l = ztake n l :: chunks n (zdrop n l).
Proof using Hn.
  intros Hl. unfold chunks. destruct l as [|x l]; [done|]. cbn [length chunks_fuel]. f_equal.
  apply chunks_fuel_irrel; unfold zdrop; rewrite length_drop; simpl; lia.
Qed.

Lemma chunks_small (l : list A) : l <> [] -> zlen l <= n -> chunks n l = [l].
Proof using Hn.
  intros Hl Hz. rewrite chunks_step by done. rewrite ztake_all by done.
  assert (zdrop n l = []) as ->; [|done]. unfold zdrop. apply drop_ge. unfold zlen in Hz. lia.
Qed.

Lemma zlen_zero (l : list A) : zlen l = 0 -> l = [].
Proof. destruct l; [done|]. rewrite zlen_cons. pose proof (zlen_nonneg l). lia. Qed.

Lemma chunks_app (l k : list A) : zlen l = n -> chunks n (l ++ k) = l :: chunks n k.
Proof using Hn.
  intros Hl. rewrite chunks_step; [|intros [-> _]%app_eq_nil; change (zlen (@nil A)) with 0 in Hl; lia].
  f_equal; [|f_equal]; [rewrite <- Hl; apply ztake_app|rewrite <- Hl; apply zdrop_app].
Qed.

Lemma chunks_app_multiple (l k : list A) m : zlen l = m * n -> 0 <= m -> chunks n (l ++ k) = chunks n l ++ chunks n k.
Proof using Hn.
  intros Hl Hm. revert l Hl. pattern m. apply natlike_ind; [..|done]; clear m Hm.
  - intros l Hl. rewrite Z.mul_0_l in Hl. apply zlen_zero in Hl as ->. done.
  - intros m Hm IH l Hl. assert (zlen (ztake n l) = n) as Ht by (apply zlen_ztake; nia).
    rewrite <- (ztake_zdrop n l), <- app_assoc, (chunks_app (ztake n l) (zdrop n l ++ k)), (chunks_app (ztake n l) (zdrop n l)) by done.
    simpl. f_equal. apply IH. rewrite zlen_zdrop by nia. nia.
Qed.

Lemma concat_chunks (l : list A) : concat (chunks n l) = l.
Proof using Hn.
  remember (length l) as k eqn:Hk. revert l Hk. induction (lt_wf k) as [k _ IH]. intros l ->.
  destruct (decide (l = [])) as [->|Hl]; [done|]. rewrite chunks_step by done. simpl.
  rewrite (IH (length (zdrop n l))); [apply ztake_zdrop| |done]. unfold zdrop. rewrite length_drop. destruct l; [done|]. simpl. lia.
Qed.

Lemma zlen_chunks (l : list A) : zlen (chunks n l) = div_ceil (zlen l) n.
Proof using Hn.
  remember (length l) as k eqn:Hk. revert l Hk. induction (lt_wf k) as [k _ IH]. intros l ->.
  destruct (decide (l = [])) as [->|Hl].
  { change (zlen (@nil A)) with 0. unfold div_ceil. rewrite Z.div_small by lia. done. }
  rewrite chunks_step, zlen_cons by done. destruct (Z.le_gt_cases (zlen l) n).
  - assert (zdrop n l = []) as ->. { unfold zdrop. apply drop_ge. unfold zlen in *. lia. }
    change (zlen (chunks n [])) with 0. assert (0 < zlen l). { destruct l; [done|]. rewrite zlen_cons. pose proof (zlen_nonneg l). lia. }
    unfold div_ceil. rewrite <- (Z.div_unique (zlen l + n - 1) n 1 (zlen l - 1)); lia.
  - rewrite (IH (length (zdrop n l))); [|unfold zdrop; rewrite length_drop; destruct l; [done|]; simpl; lia|done].
    rewrite zlen_zdrop by lia. unfold div_ceil. replace (zlen l + n - 1) with (zlen l - n + n - 1 + 1 * n) by lia.
    rewrite Z.div_add by lia. lia.
Qed.

Lemma chunks_lookup (l : list A) i c : chunks n l !! i = Some c <->
  Z.of_nat i * n < zlen l /\ c = slice l (Z.of_nat i * n) (Z.min (Z.of_nat i * n + n) (zlen l)).
Proof using Hn.
  revert l. induction i as [|i IH]; intros l.
  - destruct (decide (l = [])) as [->|Hl].
    { change (zlen (@nil A)) with 0. split; [done|intros [? _]; lia]. }
    rewrite chunks_step by done. simpl. unfold slice. rewrite Z.sub_0_r, Z.add_0_l, zdrop_0.
    assert (0 < zlen l). { destruct l; [done|]. rewrite zlen_cons. pose proof (zlen_nonneg l). lia. }
    assert (ztake (Z.min n (zlen l)) l = ztake n l) as ->.
    { destruct (Z.min_spec n (zlen l)) as [[? ->]|[? ->]]; [done|]. by rewrite !ztake_all by lia. }
    split; [intros [= <-]; done|by intros [_ ->]].
  - destruct (decide (l = [])) as [->|Hl].
    { change (zlen (@nil A)) with 0. split; [done|intros [? _]; nia]. }
    rewrite chunks_step by done. simpl lookup. rewrite IH. destruct (Z.le_gt_cases n (zlen l)).
    + rewrite zlen_zdrop by lia. unfold slice. rewrite zdrop_zdrop by lia.
      replace (Z.of_nat i * n + n) with (Z.of_nat (S i) * n) by lia.
      replace (Z.min (Z.of_nat (S i) * n) (zlen l - n) - Z.of_nat i * n) with (Z.min (Z.of_nat (S i) * n + n) (zlen l) - Z.of_nat (S i) * n) by lia.
      split; intros [? ->]; (split; [lia|done]).
    + assert (zdrop n l = []) as ->. { unfold zdrop. apply drop_ge. unfold zlen in *. lia. }
      change (zlen (@nil A)) with 0. split; intros [? _]; nia.
Qed.

Lemma chunk_bounds (l : list A) c : c ∈ chunks n l -> 1 <= zlen c <= n.
Proof using Hn.
  intros [i Hi]%list_elem_of_lookup. apply chunks_lookup in Hi as [Hlt ->]. rewrite zlen_slice by lia. lia.
Qed.

Lemma chunks_slice (l : list A) a e : 0 <= a -> a * n < e -> e <= zlen l -> (e = zlen l \/ e mod n = 0) ->
  chunks n (slice l (a * n) e) = slice (chunks n l) a (div_ceil e n).
Proof using Hn.
  intros Ha He Hl Hend. pose proof (div_ceil_spec e n Hn) as Hd.
  assert (0 <= a * n) as Han by nia. apply list_eq. intros i. apply option_eq. intros c.
  rewrite chunks_lookup, zlen_slice, slice_lookup_Some, chunks_lookup by lia.
  replace (Z.of_nat (Z.to_nat a + i)) with (a + Z.of_nat i) by lia.
  assert (Z.of_nat i * n < e - a * n <-> Z.of_nat i < div_ceil e n - a) as Hiff by (split; intros; nia).
  split; [intros [Hi ->]|intros [Hi [Hi' ->]]]; (split; [by apply Hiff|]).
  - split; [nia|]. rewrite slice_slice by lia. f_equal; [lia|]. destruct Hend as [->|Hm]; [lia|].
    apply Z.mod_divide in Hm as [q ->]; [|lia]. assert (a + Z.of_nat i < q) by nia. nia.
  - apply Hiff in Hi. rewrite slice_slice by lia. f_equal; [lia|]. destruct Hend as [->|Hm]; [lia|].
    apply Z.mod_divide in Hm as [q ->]; [|lia]. assert (a + Z.of_nat i < q) by nia. nia.
Qed.
End chunks.

Lemma zlen_mapped {A C} (f : A -> C) l : zlen (map f l) = zlen l.
Proof. unfold zlen. by rewrite length_map. Qed.

(** ** Layers *)

Section tree.
Context {T : Type} (par : T -> T -> T).

(** [chunks_exact(2).map(|pair| parent(&pair[0], &pair[1])).collect()]. *)
Fixpoint pair_up (l : list T) : list T :=
  match l with
  | a :: b :: rest => par a b :: pair_up rest
  | _ => []
  end.

(** The loop [while nodes.len() > 1], whose every turn halves the nodes: their
    number is fuel enough. *)
Fixpoint reduce_fuel (fuel : nat) (l : list T) : list T :=
  match fuel with
  | O => l
  | S fuel => if 1 <? zlen l then reduce_fuel fuel (pair_up l) else l
  end.

(** The layers of a tree above its base: [while layers.last().len() > 1]. *)
Fixpoint layers_fuel (fuel : nat) (l : list T) : list (list T) :=
  match fuel with
  | O => [l]
  | S fuel => if 1 <? zlen l then l :: layers_fuel fuel (pair_up l) else [l]
  end.

(** ** Trees *)

Inductive tree := Tip (h : T) | Bin (l r : tree).

Fixpoint thash (t : tree) : T :=
  match t with Tip h => h | Bin l r => par (thash l) (thash r) end.

(** The pairs hashed in computing [thash t]. *)
Fixpoint tpairs (t : tree) : list (T * T) :=
  match t with Tip _ => [] | Bin l r => (thash l, thash r) :: tpairs l ++ tpairs r end.

(** The first tree is the second with some subtrees replaced by tips. *)
Inductive pruned : tree -> tree -> Prop :=
| pruned_tip h t : pruned (Tip h) t
| pruned_bin l r l' r' : pruned l l' -> pruned r r' -> pruned (Bin l r) (Bin l' r').

(** Each tip of the first is the hash of the subtree it stands for. *)
Inductive agrees : tree -> tree -> Prop :=
| agrees_tip t : agrees (Tip (thash t)) t
| agrees_bin l r l' r' : agrees l l' -> agrees r r' -> agrees (Bin l r) (Bin l' r').

(** No pair of the first list hashes to the hash of another pair of the second. *)
Definition pairs_apart (xs ys : list (T * T)) : Prop :=
  forall a b c d, (a, b) ∈ xs -> (c, d) ∈ ys -> par a b = par c d -> a = c /\ b = d.

Lemma pairs_apart_mono xs ys xs' ys' : xs ⊆ xs' -> ys ⊆ ys' -> pairs_apart xs' ys' -> pairs_apart xs ys.
Proof. intros Hx Hy H a b c d Ha Hc. by apply H; [apply Hx|apply Hy]. Qed.

Lemma pruned_agrees t t' : pruned t t' -> pairs_apart (tpairs t) (tpairs t') -> thash t = thash t' -> agrees t t'.
Proof.
  induction 1 as [h t|l r l' r' Hl IHl Hr IHr]; intros Hp He; [simpl in He; subst; constructor|]. simpl in *.
  destruct (Hp (thash l) (thash r) (thash l') (thash r')) as [E1 E2]; [by left|by left|done|].
  constructor; [apply IHl|apply IHr]; try done; (eapply pairs_apart_mono; [| |exact Hp]; intros x Hx; right; apply elem_of_app; tauto).
Qed.

(** The whole tree of [2 ^ k] leaves from leaf [i * 2 ^ k] on. *)
Fixpoint full (leaf : Z -> T) (k : nat) (i : Z) : tree :=
  match k with
  | O => Tip (leaf i)
  | S k => Bin (full leaf k (2 * i)) (full leaf k (2 * i + 1))
  end.
Definition node (leaf : Z -> T) (k : nat) (i : Z) : T := thash (full leaf k i).

Lemma node_step leaf k i : node leaf (S k) i = par (node leaf k (2 * i)) (node leaf k (2 * i + 1)).
Proof. done. Qed.

Lemma full_ext leaf leaf' k i : (forall j, i * 2 ^ Z.of_nat k <= j < (i + 1) * 2 ^ Z.of_nat k -> leaf j = leaf' j) ->
  full leaf k i = full leaf' k i.
Proof.
  revert i. induction k as [|k IH]; intros i Hj; simpl; [f_equal; apply Hj; simpl; lia|].
  rewrite Nat2Z.inj_succ, Z.pow_succ_r in Hj by lia. f_equal; apply IH; intros j Hr; apply Hj; lia.
Qed.

Lemma node_ext leaf leaf' k i : (forall j, i * 2 ^ Z.of_nat k <= j < (i + 1) * 2 ^ Z.of_nat k -> leaf j = leaf' j) ->
  node leaf k i = node leaf' k i.
Proof. intros H. unfold node. f_equal. by apply full_ext. Qed.

Lemma node_node leaf k j i : node (node leaf k) j i = node leaf (j + k) i.
Proof. revert i. induction j as [|j IH]; intros i; [done|]. cbn [Nat.add]. rewrite !node_step. by rewrite !IH. Qed.

Lemma full_agrees leaf leaf' k i : agrees (full leaf k i) (full leaf' k i) ->
  forall j, i * 2 ^ Z.of_nat k <= j < (i + 1) * 2 ^ Z.of_nat k -> leaf j = leaf' j.
Proof.
  revert i. induction k as [|k IH]; intros i Ha j Hj.
  - simpl in *. replace j with i by lia. by inversion Ha.
  - rewrite Nat2Z.inj_succ, Z.pow_succ_r in Hj by lia. simpl in Ha. inversion_clear Ha as [|? ? ? ? H1 H2].
    destruct (Z.lt_ge_cases j ((2 * i + 1) * 2 ^ Z.of_nat k)); [apply (IH _ H1)|apply (IH _ H2)]; lia.
Qed.

Lemma full_pruned leaf leaf' k i : pruned (full leaf k i) (full leaf' k i).
Proof. revert i. induction k; intros i; simpl; constructor; auto. Qed.

(** ** Reducing a layer *)

Lemma pair_up_nodes (f : Z -> T) i (m : nat) :
  pair_up (map f (seqZ (2 * i) (2 * Z.of_nat m))) = map (fun j => par (f (2 * j)) (f (2 * j + 1))) (seqZ i (Z.of_nat m)).
Proof.
  revert i. induction m as [|m IH]; intros i; [done|].
  rewrite (seqZ_cons (2 * i)) by lia. rewrite (seqZ_cons (Z.succ (2 * i))) by lia. rewrite (seqZ_cons i) by lia. cbn [map pair_up].
  replace (Z.succ (2 * i)) with (2 * i + 1) by lia. f_equal.
  replace (Z.succ (2 * i + 1)) with (2 * Z.succ i) by lia. replace (Z.pred (Z.pred (2 * Z.of_nat (S m)))) with (2 * Z.of_nat m) by lia.
  rewrite IH. do 2 f_equal. lia.
Qed.

Lemma zlen_map_seqZ (f : Z -> T) i n : 0 <= n -> zlen (map f (seqZ i n)) = n.
Proof. intros Hn. unfold zlen. rewrite length_map, length_seqZ. lia. Qed.

(** One turn of the loop on a layer of a tree gives the next layer. *)
Lemma pair_up_layer leaf j k i :
  pair_up (map (node leaf j) (seqZ (i * 2 ^ Z.of_nat (S k)) (2 ^ Z.of_nat (S k)))) =
  map (node leaf (S j)) (seqZ (i * 2 ^ Z.of_nat k) (2 ^ Z.of_nat k)).
Proof.
  assert (0 < 2 ^ Z.of_nat k) as Hp by (apply Z.pow_pos_nonneg; lia).
  rewrite Nat2Z.inj_succ, Z.pow_succ_r by lia.
  replace (i * (2 * 2 ^ Z.of_nat k)) with (2 * (i * 2 ^ Z.of_nat k)) by lia.
  replace (2 ^ Z.of_nat k) with (Z.of_nat (Z.to_nat (2 ^ Z.of_nat k))) at 2 4 by lia. by rewrite pair_up_nodes.
Qed.

Lemma reduce_fuel_single fuel x : reduce_fuel fuel [x] = [x].
Proof. by destruct fuel. Qed.

Lemma reduce_layer leaf k : forall fuel j i, (k <= fuel)%nat ->
  reduce_fuel fuel (map (node leaf j) (seqZ (i * 2 ^ Z.of_nat k) (2 ^ Z.of_nat k))) = [node leaf (k + j) i].
Proof.
  induction k as [|k IH]; intros fuel j i Hf.
  - change (2 ^ Z.of_nat 0) with 1. rewrite Z.mul_1_r, (seqZ_cons i 1) by lia. cbn. apply reduce_fuel_single.
  - destruct fuel as [|fuel]; [lia|]. cbn [reduce_fuel].
    assert (1 < 2 ^ Z.of_nat (S k)) as Hp by (apply Z.pow_gt_1; lia).
    rewrite zlen_map_seqZ by lia. rewrite (proj2 (Z.ltb_lt 1 _)) by done. rewrite pair_up_layer, IH by lia. by rewrite Nat.add_succ_r.
Qed.

Lemma layers_nodes leaf k : forall fuel j i, (k <= fuel)%nat -> forall l, (l <= k)%nat ->
  layers_fuel fuel (map (node leaf j) (seqZ (i * 2 ^ Z.of_nat k) (2 ^ Z.of_nat k))) !! l =
  Some (map (node leaf (j + l)) (seqZ (i * 2 ^ Z.of_nat (k - l)) (2 ^ Z.of_nat (k - l)))).
Proof.
  induction k as [|k IH]; intros fuel j i Hf l Hl.
  - replace l with O by lia. rewrite Nat.add_0_r, Nat.sub_0_r. change (2 ^ Z.of_nat 0) with 1. rewrite Z.mul_1_r, (seqZ_cons i 1) by lia.
    by destruct fuel.
  - destruct fuel as [|fuel]; [lia|]. cbn [layers_fuel].
    assert (1 < 2 ^ Z.of_nat (S k)) as Hp by (apply Z.pow_gt_1; lia).
    rewrite zlen_map_seqZ by lia. rewrite (proj2 (Z.ltb_lt 1 _)) by done. rewrite pair_up_layer.
    destruct l as [|l]; [by rewrite Nat.add_0_r, Nat.sub_0_r|]. cbn [lookup list_lookup]. rewrite IH by lia.
    by rewrite Nat.add_succ_r.
Qed.

Lemma length_layers leaf k : forall fuel j i, (k <= fuel)%nat ->
  length (layers_fuel fuel (map (node leaf j) (seqZ (i * 2 ^ Z.of_nat k) (2 ^ Z.of_nat k)))) = S k.
Proof.
  induction k as [|k IH]; intros fuel j i Hf.
  - change (2 ^ Z.of_nat 0) with 1. rewrite Z.mul_1_r, (seqZ_cons i 1) by lia. by destruct fuel.
  - destruct fuel as [|fuel]; [lia|]. cbn [layers_fuel].
    assert (1 < 2 ^ Z.of_nat (S k)) as Hp by (apply Z.pow_gt_1; lia).
    rewrite zlen_map_seqZ by lia. rewrite (proj2 (Z.ltb_lt 1 _)) by done. rewrite pair_up_layer. simpl. by rewrite IH by lia.
Qed.
End tree.

Arguments Tip {T}. Arguments Bin {T}.

Lemma lookup_repeated {A} (x : A) m j : (j < m)%nat -> repeat x m !! j = Some x.
Proof. revert j. induction m as [|m IH]; intros [|j] Hj; simpl; try lia; [done|]. apply IH. lia. Qed.

(** The leaves a layer padded with [z] stands for. *)
Definition padded {T} (z : T) (l : list T) (i : Z) : T := default z (l !! Z.to_nat i).

Lemma resize_padded {T} (z : T) (l : list T) (k : nat) : zlen l <= 2 ^ Z.of_nat k ->
  resize_to l (2 ^ Z.of_nat k) z = map (padded z l) (seqZ 0 (2 ^ Z.of_nat k)).
Proof.
  intros Hle. unfold resize_to. rewrite ztake_all by lia. apply list_eq. intros j. destruct (decide (j < Z.to_nat (2 ^ Z.of_nat k))%nat) as [Hj|Hj].
  - change (map (padded z l)) with (fmap (padded z l) : list Z -> _). rewrite list_lookup_fmap, lookup_seqZ_lt by lia. cbn [fmap option_fmap option_map].
    unfold padded. rewrite Z.add_0_l, Nat2Z.id. destruct (decide (j < length l)%nat).
    + rewrite lookup_app_l by done. destruct (lookup_lt_is_Some_2 l j ltac:(done)) as [x Hx]. by rewrite Hx.
    + rewrite lookup_app_r, (lookup_ge_None_2 l j) by lia. cbn [default].
      rewrite lookup_repeated; [done|]. unfold zlen in *. lia.
  - rewrite !lookup_ge_None_2; [done| |].
    + rewrite length_map, length_seqZ. lia.
    + rewrite length_app, repeat_length. unfold zlen in *. lia.
Qed.

(** Padding a layer to a power of two and reducing it gives the root over its leaves. *)
Lemma reduce_padded {T} (par : T -> T -> T) d z (l : list T) (k : nat) : zlen l <= 2 ^ Z.of_nat k ->
  hd d (reduce_fuel par (length (resize_to l (2 ^ Z.of_nat k) z)) (resize_to l (2 ^ Z.of_nat k) z)) = node par (padded z l) k 0.
Proof.
  intros Hle. rewrite resize_padded by done. rewrite length_map, length_seqZ.
  pose proof (reduce_layer par (padded z l) k (Z.to_nat (2 ^ Z.of_nat k)) 0 0) as E. rewrite Z.mul_0_l, Nat.add_0_r in E.
  change (map (node par (padded z l) 0)) with (map (padded z l)) in E. rewrite E; [done|].
  assert (Z.of_nat k < 2 ^ Z.of_nat k) by (apply Z.pow_gt_lin_r; lia). lia.
Qed.

(** ** Powers of two *)

Lemma next_power_bounds n : 1 <= n -> n <= next_power_of_two n < 2 * n.
Proof.
  intros Hn. unfold next_power_of_two. destruct (Z.eq_dec n 1) as [->|]; [done|].
  destruct (Z.log2_up_spec n ltac:(lia)) as [Hlo Hhi]. split; [done|].
  pose proof (Z.log2_up_pos n ltac:(lia)).
  assert (2 ^ Z.log2_up n = 2 * 2 ^ Z.pred (Z.log2_up n)) by (rewrite <- Z.pow_succ_r, Z.succ_pred by lia; done). lia.
Qed.

(** A positive number is a power of two times an odd number. *)
Lemma odd_part n : 0 < n -> exists (k : nat) y, 0 <= y /\ n = 2 ^ Z.of_nat k * (2 * y + 1).
Proof.
  intros Hn. remember (Z.to_nat n) as m eqn:Hm. revert n Hn Hm. induction (lt_wf m) as [m _ IH]. intros n Hn ->.
  destruct (Z.odd n) eqn:Ho.
  - exists O, (n / 2). rewrite Zodd_mod, Z.eqb_eq in Ho. pose proof (Z.div_mod n 2 ltac:(lia)). split; [apply Z.div_pos; lia|]. simpl. lia.
  - assert (n mod 2 = 0) as He. { rewrite Zodd_mod in Ho. apply Z.eqb_neq in Ho. pose proof (Z.mod_pos_bound n 2). lia. }
    pose proof (Z.div_mod n 2 ltac:(lia)). destruct (IH (Z.to_nat (n / 2)) ltac:(lia) (n / 2) ltac:(lia) eq_refl) as (k & y & Hy & E).
    exists (S k), y. split; [done|]. rewrite Nat2Z.inj_succ, Z.pow_succ_r by lia. lia.
Qed.

Lemma land_neg_odd y : Z.land (2 * y + 1) (2 * (- y - 1) + 1) = 1.
Proof.
  apply Z.bits_inj'. intros i Hi. rewrite Z.land_spec. destruct (Z.eq_dec i 0) as [->|].
  - by rewrite !Z.testbit_odd_0.
  - replace i with (Z.succ (Z.pred i)) by lia. rewrite !Z.testbit_odd_succ by lia.
    replace (- y - 1) with (Z.lnot y) by (unfold Z.lnot; lia). rewrite Z.lnot_spec by lia.
    change 1 with (2 * 0 + 1). rewrite Z.testbit_odd_succ, Z.bits_0 by lia. by destruct (Z.testbit y _).
Qed.

Lemma trailing_zeros_odd (k : nat) y : trailing_zeros (2 ^ Z.of_nat k * (2 * y + 1)) = Z.of_nat k.
Proof.
  assert (0 < 2 ^ Z.of_nat k) as Hp by (apply Z.pow_pos_nonneg; lia).
  unfold trailing_zeros. rewrite (proj2 (Z.eqb_neq _ 0)) by (intros [?|?]%Z.mul_eq_0; lia).
  replace (- (2 ^ Z.of_nat k * (2 * y + 1))) with ((2 * (- y - 1) + 1) * 2 ^ Z.of_nat k) by lia. rewrite (Z.mul_comm (2 ^ _)).
  rewrite <- !Z.shiftl_mul_pow2, <- Z.shiftl_land, land_neg_odd, Z.shiftl_mul_pow2, Z.mul_1_l by lia. apply Z.log2_pow2. lia.
Qed.

Lemma trailing_zeros_pow (k : nat) : trailing_zeros (2 ^ Z.of_nat k) = Z.of_nat k.
Proof. pose proof (trailing_zeros_odd k 0) as E. by rewrite Z.mul_0_r, Z.add_0_l, Z.mul_1_r in E. Qed.
