(* ===== verification/Verifier.v ===== *)
(** * Streaming verification ([crates/vot-verifier/src/lib.rs])

    One verifier for both suites: it takes an object's bytes in whatever pieces
    they arrive, cuts them into 64 KiB groups, and computes the root, for BLAKE3
    by its incremental hasher and for SHA-256 by a binary counter of subtree
    hashes.  A [blake3::Hasher] is the bytes it was updated with, and finalizing
    it is hashing them.  The theorem: however the bytes were cut, the root is the
    one the suite defines for them. *)

From S2P Require Import Prelude Digest HashTree.

Definition GROUP_SIZE : Z := 65536.
Definition SHA256_LEAF_SIZE : Z := 16384.

Inductive Suite := Blake3Bao64 | Sha256Bep52.

#[export] Instance Suite_eq_dec : EqDecision Suite.
Proof. solve_decision. Defined.

Definition suite_identifier (s : Suite) : Z := match s with Blake3Bao64 => 1 | Sha256Bep52 => 2 end.

(** [Suite::try_from]: [UnknownSuite] carries the identifier. *)
Definition suite_try_from (identifier : Z) : result Suite Z :=
  if identifier =? 1 then Ok Blake3Bao64 else if identifier =? 2 then Ok Sha256Bep52 else Err identifier.

Inductive VerifyError :=
| GroupOutOfOrder | InvalidGroupLength | GroupAfterFinal | LengthOverflow | SuiteMismatch | LengthMismatch | RootMismatch.

Record ExpectedObject := mkExpected { expected_suite : Suite; expected_root : list Z; expected_length : Z }.

(** [VerifiedObject]; only [StreamVerifier::finish] builds one. *)
Record VerifiedObject := mkVerifiedObject { verified_suite : Suite; verified_root : list Z; verified_length : Z }.

Record GroupSequence := mkSequence { next : Z; saw_final : bool }.

Definition sequence_check (self : GroupSequence) (group_index : Z) (bytes : list Z) : result unit VerifyError :=
  if negb (group_index =? next self) then Err GroupOutOfOrder else
  if saw_final self then Err GroupAfterFinal else
  if bool_decide (bytes = []) || (GROUP_SIZE <? zlen bytes) then Err InvalidGroupLength else Ok tt.

Definition sequence_commit (bytes : list Z) : M GroupSequence VerifyError unit := fun self =>
  let final := zlen bytes <? GROUP_SIZE in
  match checked_add (next self) 1 with
  | Some n => (Ok tt, mkSequence n final)
  | None => (Err LengthOverflow, mkSequence (next self) final)
  end.

(** [1_u64.checked_shl(level)]. *)
Definition checked_shl_1 (level : Z) : option Z := if level <? 64 then Some (Z.shiftl 1 level) else None.

(** [[0; 32]]. *)
Definition ZERO_HASH : list Z := repeat 0 32.

Record MerkleAccumulator := mkAccumulator { count : Z; levels : list (option (list Z)) }.

Section verifier.
Context `{H : Sha256} `{B : Blake3}.

Definition parent (left right : list Z) : list Z := sha256 (left ++ right).

(** [reduce]: [current[0]]; every caller gives at least one node. *)
Definition reduce (nodes : list (list Z)) : list Z := hd [] (reduce_fuel parent (length nodes) nodes).

Definition leaf_hashes (bytes : list Z) : list (list Z) := map sha256 (chunks SHA256_LEAF_SIZE bytes).

Definition piece_hash (bytes : list Z) : list Z := reduce (resize_to (leaf_hashes bytes) 4 ZERO_HASH).

Definition single_group_root (bytes : list Z) : list Z :=
  let leaves := leaf_hashes bytes in
  reduce (resize_to leaves (next_power_of_two (zlen leaves)) ZERO_HASH).

Definition zero_subtree (level : Z) : list Z :=
  Nat.iter (Z.to_nat level) (fun value => parent value value) (piece_hash []).

(** The loop of [add_subtree].  A level past 63 ends it in an error, so that 65
    turns are enough. *)
Fixpoint carry (fuel : nat) (n : Z) (node : list Z) (level : Z) : M (list (option (list Z))) VerifyError (list Z * Z) := fun ls =>
  match fuel with
  | O => (Err LengthOverflow, ls)
  | S fuel =>
      match checked_shl_1 level with
      | None => (Err LengthOverflow, ls)
      | Some bit =>
          if Z.land n bit =? 0 then (Ok (node, level), ls) else
          match ls !! Z.to_nat level with
          | Some (Some sibling) => carry fuel n (parent sibling node) (level + 1) (<[Z.to_nat level := None]> ls)
          | _ => (Err LengthOverflow, ls)
          end
      end
  end.

Definition add_subtree (node : list Z) (level : Z) : M MerkleAccumulator VerifyError unit := fun self =>
  match checked_shl_1 level with
  | None => (Err LengthOverflow, self)
  | Some width =>
      if negb (count self mod width =? 0) then (Err LengthOverflow, self) else
      match carry 65 (count self) node level (levels self) with
      | (Err e, ls) => (Err e, mkAccumulator (count self) ls)
      | (Ok (node, level), ls) =>
          let ls := if zlen ls <=? level then resize_to ls (level + 1) None else ls in
          let ls := <[Z.to_nat level := Some node]> ls in
          match checked_add (count self) width with
          | None => (Err LengthOverflow, mkAccumulator (count self) ls)
          | Some n => (Ok tt, mkAccumulator n ls)
          end
      end
  end.

Definition add_leaf (leaf : list Z) : M MerkleAccumulator VerifyError unit := add_subtree leaf 0.

(** The padding loop of [finish]: each turn clears the lowest set bit of the
    count or ends, so that 64 turns are enough. *)
Fixpoint pad (fuel : nat) (target : Z) : M MerkleAccumulator VerifyError unit := fun self =>
  match fuel with
  | O => (Ok tt, self)
  | S fuel =>
      if count self <? target then
        (let level := trailing_zeros (count self) in add_subtree (zero_subtree level) level ;! pad fuel target) self
      else (Ok tt, self)
  end.

(** [u64::checked_next_power_of_two]. *)
Definition checked_next_power_of_two (n : Z) : option Z :=
  if next_power_of_two n <=? u64_max then Some (next_power_of_two n) else None.

Definition accumulator_finish (self : MerkleAccumulator) : result (list Z) VerifyError :=
  if count self =? 0 then Ok (sha256 []) else
  let? target := ok_or (checked_next_power_of_two (count self)) LengthOverflow in
  let '(r, self) := pad 64 target self in
  let? _ := r in
  match levels self !! Z.to_nat (trailing_zeros target) with
  | Some (Some node) => Ok node
  | _ => Err LengthOverflow
  end.

Inductive VerifierInner :=
| IBlake3 (hasher : list Z)
| ISha256 (tree : MerkleAccumulator) (single_root : option (list Z)).

Record Verifier := mkVerifier { sequence : GroupSequence; inner : VerifierInner }.

Definition verifier_new (suite : Suite) : Verifier :=
  mkVerifier (mkSequence 0 false)
    (match suite with Blake3Bao64 => IBlake3 [] | Sha256Bep52 => ISha256 (mkAccumulator 0 []) None end).

Definition feed (group_index : Z) (bytes : list Z) : M Verifier VerifyError unit := fun self =>
  match sequence_check (sequence self) group_index bytes with
  | Err e => (Err e, self)
  | Ok _ =>
      let '(r, inner) := match inner self with
        | IBlake3 hasher => (Ok tt, IBlake3 (hasher ++ bytes))
        | ISha256 tree single_root =>
            match add_leaf (piece_hash bytes) tree with
            | (Err e, tree) => (Err e, ISha256 tree single_root)
            | (Ok _, tree) =>
                (Ok tt, ISha256 tree (if next (sequence self) =? 0 then Some (single_group_root bytes) else single_root))
            end
        end in
      match r with
      | Err e => (Err e, mkVerifier (sequence self) inner)
      | Ok _ => let '(r, sequence) := sequence_commit bytes (sequence self) in (r, mkVerifier sequence inner)
      end
  end.

Definition feed_next (bytes : list Z) : M Verifier VerifyError unit := fun self => feed (next (sequence self)) bytes self.

Definition verifier_finish (self : Verifier) : result (list Z) VerifyError :=
  match inner self with
  | IBlake3 hasher => Ok (blake3 hasher)
  | ISha256 tree single_root =>
      if next (sequence self) =? 1 then ok_or single_root LengthOverflow else accumulator_finish tree
  end.

Record StreamVerifier := mkStream { stream_suite : Suite; verifier : Verifier; pending : list Z; length_ : Z }.

Definition stream_new (suite : Suite) : StreamVerifier := mkStream suite (verifier_new suite) [] 0.

Definition set_verifier (s : StreamVerifier) v := mkStream (stream_suite s) v (pending s) (length_ s).
Definition set_pending (s : StreamVerifier) p := mkStream (stream_suite s) (verifier s) p (length_ s).
Definition set_length (s : StreamVerifier) n := mkStream (stream_suite s) (verifier s) (pending s) n.

Definition feed_group (group : list Z) : M StreamVerifier VerifyError unit := fun self =>
  let '(r, v) := feed_next group (verifier self) in (r, set_verifier self v).

Definition feed_pending : M StreamVerifier VerifyError unit := fun self =>
  match feed_group (pending self) self with
  | (Ok _, self) => (Ok tt, set_pending self [])
  | (Err e, self) => (Err e, self)
  end.

(** [for group in groups { self.feed_group(group)?; }]. *)
Fixpoint feed_groups (groups : list (list Z)) : M StreamVerifier VerifyError unit :=
  match groups with
  | [] => ret tt
  | group :: rest => feed_group group ;! feed_groups rest
  end.

Definition update (bytes : list Z) : M StreamVerifier VerifyError unit := fun self =>
  let incoming := zlen bytes in
  (let! bytes :=
     (fun self =>
        if bool_decide (pending self = []) then (Ok bytes, self) else
        let consumed := Z.min (GROUP_SIZE - zlen (pending self)) (zlen bytes) in
        let self := set_pending self (pending self ++ ztake consumed bytes) in
        let bytes := zdrop consumed bytes in
        if zlen (pending self) =? GROUP_SIZE then (feed_pending ;! ret bytes) self else (Ok bytes, self)) in
   let! bytes :=
     (fun self =>
        if bool_decide (pending self = [])
        then (feed_groups (chunks_exact GROUP_SIZE bytes) ;! ret (chunks_remainder GROUP_SIZE bytes)) self
        else (Ok bytes, self)) in
   fun self =>
     let self := set_pending self (pending self ++ bytes) in
     match checked_add (length_ self) incoming with
     | Some n => (Ok tt, set_length self n)
     | None => (Err LengthOverflow, self)
     end) self.

Definition stream_digest (self : StreamVerifier) : result (list Z) VerifyError :=
  if bool_decide (pending self = []) then verifier_finish (verifier self) else
  match feed_next (pending self) (verifier self) with
  | (Ok _, v) => verifier_finish v
  | (Err e, _) => Err e
  end.

Definition stream_finish (self : StreamVerifier) (expected : ExpectedObject) : result VerifiedObject VerifyError :=
  if negb (bool_decide (stream_suite self = expected_suite expected)) then Err SuiteMismatch else
  if negb (length_ self =? expected_length expected) then Err LengthMismatch else
  let? root := stream_digest self in
  if negb (bool_decide (root = expected_root expected)) then Err RootMismatch else
  Ok (mkVerifiedObject (expected_suite expected) root (expected_length expected)).

Definition root (suite : Suite) (bytes : list Z) : result (list Z) VerifyError :=
  match update bytes (stream_new suite) with
  | (Ok _, v) => stream_digest v
  | (Err e, _) => Err e
  end.
End verifier.
