(* ===== verification/VerifierRoot.v ===== *)
(** * The root of a stream

    The roots the two suites define, and that the streaming verifier computes
    them however the bytes were cut. *)

From S2P Require Import Prelude Digest HashTree Verifier.

(** ** What the suites define *)

Section roots.
Context `{H : Sha256} `{B : Blake3}.

Definition zero_piece : list Z := piece_hash [].

(** The 64 KiB pieces of an object, hashed. *)
Definition pieces (data : list Z) : list (list Z) := map piece_hash (chunks GROUP_SIZE data).

(** The leaves of the piece tree: the pieces, then zero pieces without end. *)
Definition leaf_of (ps : list (list Z)) (i : Z) : list Z := default zero_piece (ps !! Z.to_nat i).

(** The depth of the tree over [n] leaves. *)
Definition depth (n : Z) : nat := Z.to_nat (Z.log2_up n).

Definition tree_root (ps : list (list Z)) : list Z := node parent (leaf_of ps) (depth (zlen ps)) 0.

(** BEP 52: nothing, one group by its own leaves, or the padded piece tree. *)
Definition bep52_root (data : list Z) : list Z :=
  if bool_decide (data = []) then sha256 [] else
  if zlen data <=? GROUP_SIZE then single_group_root data else tree_root (pieces data).

Definition suite_root (s : Suite) (data : list Z) : list Z :=
  match s with Blake3Bao64 => blake3 data | Sha256Bep52 => bep52_root data end.

(** ** The binary counter *)

(** After [n] leaves, the level of each set bit of [n] holds the subtree that
    ends where the higher bits end. *)
Definition holds (f : Z -> list Z) (n : Z) (ls : list (option (list Z))) (from : nat) : Prop :=
  forall l : nat, (from <= l)%nat -> Z.odd (n / 2 ^ Z.of_nat l) = true ->
    ls !! l = Some (Some (node parent f l (n / 2 ^ Z.of_nat l - 1))).

Definition counts (f : Z -> list Z) (n : Z) (acc : MerkleAccumulator) : Prop := count acc = n /\ holds f n (levels acc) 0.

Lemma land_odd n l : 0 <= n -> (Z.land n (Z.shiftl 1 (Z.of_nat l)) =? 0) = negb (Z.odd (n / 2 ^ Z.of_nat l)).
Proof.
  intros Hn. rewrite <- Z.shiftr_div_pow2, <- Z.testbit_odd, <- bit_test by lia. by rewrite negb_involutive.
Qed.

Lemma half_div n (l : nat) : n / 2 ^ Z.of_nat (S l) = n / 2 ^ Z.of_nat l / 2.
Proof.
  rewrite Nat2Z.inj_succ, Z.pow_succ_r by lia. rewrite (Z.mul_comm 2). symmetry. apply Z.div_div; [|lia].
  apply Z.pow_nonzero; lia.
Qed.

(** The carry climbs past the trailing ones of [n / 2 ^ l]. *)
Lemma carry_ok f n : forall fuel l ls, 0 <= n < 2 ^ 63 -> holds f n ls l -> (64 <= fuel + l)%nat -> (l <= 63)%nat ->
  exists (m : nat) q ls', (l <= m <= 63)%nat /\
    n / 2 ^ Z.of_nat l = (2 * q + 1) * 2 ^ Z.of_nat (m - l) - 1 /\ 0 <= q /\
    carry fuel n (node parent f l (n / 2 ^ Z.of_nat l)) (Z.of_nat l) ls =
      (Ok (node parent f m (n / 2 ^ Z.of_nat m), Z.of_nat m), ls') /\
    length ls' = length ls /\ forall j : nat, (m <= j)%nat -> ls' !! j = ls !! j.
Proof.
  induction fuel as [|fuel IH]; intros l ls Hn Hh Hf Hl; [lia|]. cbn [carry]. unfold checked_shl_1.
  rewrite (proj2 (Z.ltb_lt (Z.of_nat l) 64)) by lia. rewrite land_odd by lia.
  assert (0 < 2 ^ Z.of_nat l) as Hp by (apply Z.pow_pos_nonneg; lia).
  destruct (Z.odd (n / 2 ^ Z.of_nat l)) eqn:Ho; cbn [negb].
  - assert (l < 63)%nat as Hl63.
    { destruct (decide (l = 63%nat)) as [->|]; [|lia]. change (Z.of_nat 63) with 63 in Ho. rewrite Z.div_small in Ho by lia. done. }
    rewrite Nat2Z.id. rewrite (Hh l) by (done || lia).
    assert (n / 2 ^ Z.of_nat l = 2 * (n / 2 ^ Z.of_nat (S l)) + 1) as Eq.
    { rewrite half_div. rewrite Zodd_mod, Z.eqb_eq in Ho. pose proof (Z.div_mod (n / 2 ^ Z.of_nat l) 2 ltac:(lia)). lia. }
    assert (parent (node parent f l (n / 2 ^ Z.of_nat l - 1)) (node parent f l (n / 2 ^ Z.of_nat l)) =
      node parent f (S l) (n / 2 ^ Z.of_nat (S l))) as ->.
    { rewrite node_step, Eq. do 2 f_equal. lia. }
    replace (Z.of_nat l + 1) with (Z.of_nat (S l)) by lia.
    destruct (IH (S l) (<[l := None]> ls)) as (m & q & ls' & Hm & E & Hq & Hc & Hlen & Hj); [done| |lia|lia|].
    { intros j Hj Hodd. rewrite list_lookup_insert_ne by lia. apply Hh; [lia|done]. }
    exists m, q, ls'. split_and!; try done; try lia.
    + rewrite Eq, E. replace (m - l)%nat with (S (m - S l)) by lia. rewrite Nat2Z.inj_succ, Z.pow_succ_r by lia. lia.
    + rewrite Hlen. apply length_insert.
    + intros j Hj'. rewrite Hj by done. apply list_lookup_insert_ne. lia.
  - exists l, (n / 2 ^ Z.of_nat l / 2), ls. rewrite Nat.sub_diag. change (2 ^ Z.of_nat 0) with 1.
    assert (n / 2 ^ Z.of_nat l mod 2 = 0) as E2.
    { rewrite Zodd_mod in Ho. apply Z.eqb_neq in Ho. pose proof (Z.mod_pos_bound (n / 2 ^ Z.of_nat l) 2). lia. }
    pose proof (Z.div_mod (n / 2 ^ Z.of_nat l) 2 ltac:(lia)). split_and!; try done; try lia.
    apply Z.div_pos; [apply Z.div_pos|]; lia.
Qed.

(** Bits of a count just after a carry. *)
Lemma carried_bits q (m j : nat) : 0 <= q ->
  ((j < m)%nat -> Z.odd ((2 * q + 1) * 2 ^ Z.of_nat m / 2 ^ Z.of_nat j) = false) /\
  (j = m -> (2 * q + 1) * 2 ^ Z.of_nat m / 2 ^ Z.of_nat j = 2 * q + 1) /\
  ((m < j)%nat -> (2 * q + 1) * 2 ^ Z.of_nat m / 2 ^ Z.of_nat j = q / 2 ^ Z.of_nat (j - S m) /\
    forall r, 0 <= r < 2 ^ Z.of_nat m -> (2 * q * 2 ^ Z.of_nat m + r) / 2 ^ Z.of_nat j = q / 2 ^ Z.of_nat (j - S m)).
Proof.
  intros Hq. assert (forall k : nat, 0 < 2 ^ Z.of_nat k) as Hp by (intros k; apply Z.pow_pos_nonneg; lia). split_and!.
  - intros Hj. replace (Z.of_nat m) with (Z.of_nat (m - S j) + 1 + Z.of_nat j) by lia.
    rewrite Z.pow_add_r, Z.mul_assoc, Z.div_mul by (first [lia|specialize (Hp j); lia]).
    rewrite Z.pow_add_r by lia. change (2 ^ 1) with 2. rewrite Z.mul_assoc, Z.odd_mul. by rewrite andb_false_r.
  - intros ->. apply Z.div_mul. specialize (Hp m). lia.
  - intros Hj. replace (Z.of_nat j) with (Z.of_nat m + 1 + Z.of_nat (j - S m)) by lia.
    rewrite Z.pow_add_r by lia. assert (0 < 2 ^ (Z.of_nat m + 1)) as Hp1 by (apply Z.pow_pos_nonneg; lia).
    assert (forall r, 0 <= r < 2 * 2 ^ Z.of_nat m -> (2 * q * 2 ^ Z.of_nat m + r) / (2 ^ (Z.of_nat m + 1) * 2 ^ Z.of_nat (j - S m)) =
      q / 2 ^ Z.of_nat (j - S m)) as Hd.
    { intros r Hr. rewrite <- Z.div_div by (first [lia|specialize (Hp (j - S m)%nat); lia]). f_equal.
      rewrite Z.pow_add_r by lia. change (2 ^ 1) with 2. symmetry. apply Z.div_unique with r; lia. }
    split.
    + replace ((2 * q + 1) * 2 ^ Z.of_nat m) with (2 * q * 2 ^ Z.of_nat m + 2 ^ Z.of_nat m) by lia. apply Hd. specialize (Hp m). lia.
    + intros r Hr. apply Hd. lia.
Qed.

Lemma add_subtree_ok f n (l : nat) acc : 0 <= n -> n + 2 ^ Z.of_nat l <= 2 ^ 63 -> n mod 2 ^ Z.of_nat l = 0 -> counts f n acc ->
  exists acc', add_subtree (node parent f l (n / 2 ^ Z.of_nat l)) (Z.of_nat l) acc = (Ok tt, acc') /\
    counts f (n + 2 ^ Z.of_nat l) acc'.
Proof.
  intros Hn Hmax Hmod [Hc Hh]. assert (forall k : nat, 0 < 2 ^ Z.of_nat k) as Hp by (intros k; apply Z.pow_pos_nonneg; lia).
  pose proof (Hp l) as Hpl. assert (l <= 63)%nat as Hl63.
  { destruct (decide (l <= 63)%nat); [done|]. pose proof (Z.pow_lt_mono_r 2 63 (Z.of_nat l) ltac:(lia) ltac:(lia) ltac:(lia)). lia. }
  unfold add_subtree, checked_shl_1. rewrite (proj2 (Z.ltb_lt (Z.of_nat l) 64)) by lia. rewrite Z.shiftl_1_l, Hc, Hmod. cbn [negb Z.eqb].
  destruct (carry_ok f n 65 l (levels acc)) as (m & q & ls' & Hm & E & Hq & Hcar & Hlen & Hj); [lia| |lia|done|].
  { intros j _. apply Hh. lia. }
  rewrite Hcar. clear Hcar.
  assert (n + 2 ^ Z.of_nat l = (2 * q + 1) * 2 ^ Z.of_nat m) as En.
  { pose proof (Z.div_mod n (2 ^ Z.of_nat l) ltac:(lia)) as Hdm. rewrite E, Hmod in Hdm.
    replace (Z.of_nat m) with (Z.of_nat (m - l) + Z.of_nat l) by lia. rewrite Z.pow_add_r by lia. nia. }
  assert (checked_add n (2 ^ Z.of_nat l) = Some (n + 2 ^ Z.of_nat l)) as ->.
  { apply checked_add_Some. split; [done|]. mlia. }
  eexists. split; [reflexivity|]. split; [done|]. cbn [levels]. intros j _ Hodd. rewrite En in *.
  destruct (carried_bits q m j Hq) as (Hlow & Hmid & Hhigh).
  set (ls2 := if zlen ls' <=? Z.of_nat m then resize_to ls' (Z.of_nat m + 1) None else ls').
  assert (m < length ls2)%nat as Hlt.
  { unfold ls2. destruct (Z.leb_spec (zlen ls') (Z.of_nat m)) as [Hz|Hz]; [|unfold zlen in Hz; lia].
    unfold resize_to, ztake. rewrite length_app, length_take, repeat_length. unfold zlen in *. lia. }
  destruct (lt_eq_lt_dec j m) as [[Hjm| ->]|Hjm].
  - by rewrite Hlow in Hodd.
  - rewrite Hmid by done. rewrite Nat2Z.id, list_lookup_insert_eq by done. do 3 f_equal.
    pose proof (Z.pow_le_mono_r 2 (Z.of_nat l) (Z.of_nat m) ltac:(lia) ltac:(lia)).
    symmetry. apply Z.div_unique with (2 ^ Z.of_nat m - 2 ^ Z.of_nat l); lia.
  - destruct (Hhigh Hjm) as [E1 E2]. rewrite E1 in *.
    assert (n / 2 ^ Z.of_nat j = q / 2 ^ Z.of_nat (j - S m)) as En'.
    { rewrite <- (E2 (2 ^ Z.of_nat m - 2 ^ Z.of_nat l)); [f_equal; lia|].
      pose proof (Z.pow_le_mono_r 2 (Z.of_nat l) (Z.of_nat m) ltac:(lia) ltac:(lia)). lia. }
    rewrite Nat2Z.id, list_lookup_insert_ne by lia. rewrite <- En' in *. specialize (Hh j ltac:(lia) Hodd).
    assert (ls' !! j = levels acc !! j) as Hjj by (apply Hj; lia). rewrite <- Hjj in Hh. unfold ls2.
    destruct (Z.leb_spec (zlen ls') (Z.of_nat m)) as [Hz|Hz]; [|done]. apply lookup_lt_Some in Hh. unfold zlen in Hz. lia.
Qed.

Lemma counts_ext f g n acc : 0 <= n -> (forall j, 0 <= j < n -> f j = g j) -> counts f n acc -> counts g n acc.
Proof.
  intros Hn Hfg [Hc Hh]. split; [done|]. intros l _ Hodd. rewrite (Hh l) by (done || lia). do 2 f_equal.
  assert (0 < 2 ^ Z.of_nat l) as Hp by (apply Z.pow_pos_nonneg; lia).
  pose proof (Z.mul_div_le n (2 ^ Z.of_nat l) Hp). pose proof (Z.div_pos n (2 ^ Z.of_nat l) Hn Hp).
  assert (n / 2 ^ Z.of_nat l <> 0) by (intros E; rewrite E in Hodd; done).
  apply node_ext. intros j Hj. apply Hfg. nia.
Qed.

Lemma node_zero f (l : nat) i : (forall j, i * 2 ^ Z.of_nat l <= j < (i + 1) * 2 ^ Z.of_nat l -> f j = zero_piece) ->
  node parent f l i = zero_subtree (Z.of_nat l).
Proof.
  revert i. induction l as [|l IH]; intros i Hz; [apply Hz; simpl; lia|].
  assert (0 < 2 ^ Z.of_nat l) as Hp by (apply Z.pow_pos_nonneg; lia).
  rewrite Nat2Z.inj_succ, Z.pow_succ_r in Hz by lia. rewrite node_step, !IH by (intros j Hj; apply Hz; lia).
  unfold zero_subtree. rewrite !Nat2Z.id. done.
Qed.

(** Padding with zero pieces up to a power of two. *)
Lemma pad_ok f n0 (K : nat) : (K <= 63)%nat -> 1 <= n0 -> (forall j, n0 <= j -> f j = zero_piece) ->
  forall fuel (j : nat) c acc, counts f (2 ^ Z.of_nat j * c) acc -> n0 <= 2 ^ Z.of_nat j * c <= 2 ^ Z.of_nat K -> (K <= fuel + j)%nat ->
  exists acc', pad fuel (2 ^ Z.of_nat K) acc = (Ok tt, acc') /\ counts f (2 ^ Z.of_nat K) acc'.
Proof.
  intros HK Hn0 Hz. assert (forall k : nat, 0 < 2 ^ Z.of_nat k) as Hp by (intros k; apply Z.pow_pos_nonneg; lia).
  induction fuel as [|fuel IH]; intros j c acc Hc Hn Hf.
  - exists acc. split; [done|]. replace (2 ^ Z.of_nat K) with (2 ^ Z.of_nat j * c); [done|].
    pose proof (Z.pow_le_mono_r 2 (Z.of_nat K) (Z.of_nat j) ltac:(lia) ltac:(lia)). specialize (Hp j).
    assert (0 < c) by nia. pose proof (Z.mul_le_mono_nonneg_l 1 c (2 ^ Z.of_nat j) ltac:(lia) ltac:(lia)). lia.
  - cbn [pad]. destruct Hc as [Hcount Hh]. rewrite Hcount. destruct (Z.ltb_spec (2 ^ Z.of_nat j * c) (2 ^ Z.of_nat K)) as [Hlt|Hge].
    + assert (0 < c) as Hc0 by (specialize (Hp j); nia). destruct (odd_part c Hc0) as (k & y & Hy & ->).
      assert (2 ^ Z.of_nat j * (2 ^ Z.of_nat k * (2 * y + 1)) = 2 ^ Z.of_nat (j + k) * (2 * y + 1)) as E.
      { rewrite Nat2Z.inj_add, Z.pow_add_r by lia. lia. }
      rewrite E in *. rewrite trailing_zeros_odd. pose proof (Hp (j + k)%nat) as Hpk.
      assert (j + k < K)%nat as Hjk.
      { destruct (decide (j + k < K)%nat); [done|]. pose proof (Z.pow_le_mono_r 2 (Z.of_nat K) (Z.of_nat (j + k)) ltac:(lia) ltac:(lia)). nia. }
      assert (2 ^ Z.of_nat (j + k) * (2 * y + 1) + 2 ^ Z.of_nat (j + k) = 2 ^ Z.of_nat (S j) * (2 ^ Z.of_nat k * (y + 1))) as E2.
      { rewrite Nat2Z.inj_add, Nat2Z.inj_succ, Z.pow_add_r, Z.pow_succ_r by lia. ring. }
      assert (2 ^ Z.of_nat (j + k) * (2 * y + 1) + 2 ^ Z.of_nat (j + k) <= 2 ^ Z.of_nat K) as Hle.
      { assert (2 ^ Z.of_nat K = 2 ^ Z.of_nat (j + k) * (2 * 2 ^ Z.of_nat (K - S (j + k)))) as EK.
        { replace (Z.of_nat K) with (Z.of_nat (j + k) + (1 + Z.of_nat (K - S (j + k)))) by lia. by rewrite !Z.pow_add_r by lia. }
        rewrite EK in Hlt |- *. apply (Z.mul_lt_mono_pos_l _ _ _ Hpk) in Hlt.
        rewrite <- (Z.mul_1_r (2 ^ Z.of_nat (j + k))) at 2. rewrite <- Z.mul_add_distr_l. apply Z.mul_le_mono_nonneg_l; lia. }
      pose proof (Z.pow_le_mono_r 2 (Z.of_nat K) 63 ltac:(lia) ltac:(lia)) as H63.
      assert (2 ^ Z.of_nat (j + k) * (2 * y + 1) / 2 ^ Z.of_nat (j + k) = 2 * y + 1) as Ediv by (rewrite Z.mul_comm; apply Z.div_mul; lia).
      destruct (add_subtree_ok f (2 ^ Z.of_nat (j + k) * (2 * y + 1)) (j + k) acc) as (acc1 & Ha & Hc1);
        [nia|lia|rewrite Z.mul_comm; apply Z.mod_mul; lia|by split|].
      rewrite Ediv, node_zero in Ha by (intros x Hx; apply Hz; lia). rewrite (bind_ok _ _ _ _ _ Ha).
      rewrite E2 in Hc1. apply (IH (S j) _ acc1 Hc1); [|lia]. rewrite <- E2. lia.
    + exists acc. split; [done|]. replace (2 ^ Z.of_nat K) with (2 ^ Z.of_nat j * c) by lia. done.
Qed.

Lemma accumulator_root f n acc : 1 <= n <= 2 ^ 62 -> (forall j, n <= j -> f j = zero_piece) -> counts f n acc ->
  accumulator_finish acc = Ok (node parent f (depth n) 0).
Proof.
  intros Hn Hz Hc. pose proof Hc as [Hcount _]. unfold accumulator_finish. rewrite Hcount, (proj2 (Z.eqb_neq n 0)) by lia.
  pose proof (Z.log2_up_nonneg n). assert (Z.log2_up n <= 62) as H62.
  { apply Z.log2_up_le_pow2; lia. }
  assert (next_power_of_two n = 2 ^ Z.of_nat (depth n)) as En by (unfold next_power_of_two, depth; f_equal; lia).
  pose proof (next_power_bounds n ltac:(lia)) as Hb. unfold checked_next_power_of_two.
  rewrite (proj2 (Z.leb_le (next_power_of_two n) u64_max)) by mlia. cbn [ok_or]. rewrite En in *.
  destruct (pad_ok f n (depth n) ltac:(unfold depth; lia) ltac:(lia) Hz 64 0 n acc) as (acc' & Hpad & Hc' & Hh').
  { change (2 ^ Z.of_nat 0) with 1. by rewrite Z.mul_1_l. }
  { change (2 ^ Z.of_nat 0) with 1. lia. }
  { unfold depth. lia. }
  rewrite Hpad, trailing_zeros_pow, Nat2Z.id. rewrite (Hh' (depth n)); [|lia|]; rewrite Z.div_same by (apply Z.pow_nonzero; lia); done.
Qed.

(** ** Groups *)

Lemma leaf_of_app ps qs j : 0 <= j < zlen ps -> leaf_of (ps ++ qs) j = leaf_of ps j.
Proof. intros Hj. unfold leaf_of. rewrite lookup_app_l; [done|]. unfold zlen in Hj. lia. Qed.

Lemma leaf_of_end ps q : leaf_of (ps ++ [q]) (zlen ps) = q.
Proof. unfold leaf_of, zlen. rewrite Nat2Z.id, lookup_app_r, Nat.sub_diag by done. done. Qed.

Lemma leaf_of_past ps j : zlen ps <= j -> leaf_of ps j = zero_piece.
Proof. intros Hj. unfold leaf_of. rewrite lookup_ge_None_2; [done|]. unfold zlen in Hj. lia. Qed.

(** The verifier after the groups [gs]. *)
Definition fed (s : Suite) (gs : list (list Z)) (v : Verifier) : Prop :=
  next (sequence v) = zlen gs /\
  match s with
  | Blake3Bao64 => inner v = IBlake3 (concat gs)
  | Sha256Bep52 => exists acc, inner v = ISha256 acc (single_group_root <$> head gs) /\ counts (leaf_of (map piece_hash gs)) (zlen gs) acc
  end.

Lemma fed_new s : fed s [] (verifier_new s) /\ saw_final (sequence (verifier_new s)) = false.
Proof.
  destruct s; split; try done. split; [done|]. exists (mkAccumulator 0 []). split; [done|]. split; [done|].
  intros l _. change (zlen (@nil (list Z))) with 0. rewrite Z.div_0_l by (apply Z.pow_nonzero; lia). done.
Qed.

Lemma feed_next_ok s gs v g : fed s gs v -> saw_final (sequence v) = false -> 1 <= zlen g <= GROUP_SIZE -> zlen gs < 2 ^ 62 ->
  exists v', feed_next g v = (Ok tt, v') /\ fed s (gs ++ [g]) v' /\ saw_final (sequence v') = (zlen g <? GROUP_SIZE).
Proof.
  intros [Hnext Hin] Hfin Hg Hmax. unfold feed_next, feed, sequence_check. rewrite Z.eqb_refl, Hfin. cbn [negb].
  rewrite bool_decide_eq_false_2 by (intros ->; change (zlen (@nil Z)) with 0 in Hg; lia).
  rewrite (proj2 (Z.ltb_ge GROUP_SIZE (zlen g))) by lia. cbn [orb]. pose proof (zlen_nonneg gs) as Hpos.
  assert (checked_add (next (sequence v)) 1 = Some (zlen (gs ++ [g]))) as Hadd.
  { rewrite Hnext. apply checked_add_Some. rewrite zlen_app. change (zlen [g]) with 1. split; [done|]. mlia. }
  destruct s.
  - rewrite Hin. unfold sequence_commit. rewrite Hadd. eexists. split; [reflexivity|]. split; [|done].
    split; [done|]. cbn [inner]. by rewrite concat_app; cbn [concat]; rewrite app_nil_r.
  - destruct Hin as (acc & -> & Hc). pose proof (zlen_mapped piece_hash gs) as Hz.
    apply (counts_ext _ (leaf_of (map piece_hash (gs ++ [g])))) in Hc; [|done|].
    2:{ intros j Hj. rewrite map_app, leaf_of_app by lia. done. }
    destruct (add_subtree_ok _ (zlen gs) 0 acc ltac:(lia) ltac:(change (2 ^ Z.of_nat 0) with 1; lia)
      ltac:(change (2 ^ Z.of_nat 0) with 1; apply Z.mod_1_r) Hc) as (acc' & Ha & Hc').
    change (2 ^ Z.of_nat 0) with 1 in *. rewrite Z.div_1_r in Ha. unfold add_leaf.
    change (node parent (leaf_of (map piece_hash (gs ++ [g]))) 0 (zlen gs)) with (leaf_of (map piece_hash (gs ++ [g])) (zlen gs)) in Ha.
    rewrite map_app in Ha. cbn [map] in Ha. rewrite <- Hz, leaf_of_end in Ha. change (Z.of_nat 0) with 0 in Ha. rewrite Ha. unfold sequence_commit. rewrite Hadd.
    eexists. split; [reflexivity|]. split; [|done]. split; [done|]. exists acc'. cbn [inner]. split.
    + f_equal. rewrite Hnext. destruct gs as [|g0 gs]; [done|]. rewrite zlen_cons. pose proof (zlen_nonneg gs).
      rewrite (proj2 (Z.eqb_neq _ 0)) by lia. done.
    + rewrite zlen_app. exact Hc'.
Qed.

Definition groups_root (s : Suite) (gs : list (list Z)) : list Z :=
  match s, gs with
  | Blake3Bao64, _ => blake3 (concat gs)
  | Sha256Bep52, [] => sha256 []
  | Sha256Bep52, [g] => single_group_root g
  | Sha256Bep52, _ => tree_root (map piece_hash gs)
  end.

Lemma verifier_finish_ok s gs v : fed s gs v -> zlen gs <= 2 ^ 62 -> verifier_finish v = Ok (groups_root s gs).
Proof.
  intros [Hnext Hin] Hmax. unfold verifier_finish. destruct s; [by rewrite Hin|]. destruct Hin as (acc & -> & Hc). rewrite Hnext.
  destruct gs as [|g [|g' gs]].
  - destruct Hc as [Hcount _]. change (zlen (@nil (list Z))) with 0 in *. cbn [Z.eqb]. unfold accumulator_finish. by rewrite Hcount.
  - done.
  - assert (2 <= zlen (g :: g' :: gs)) as H2 by (rewrite !zlen_cons; pose proof (zlen_nonneg gs); lia).
    rewrite (proj2 (Z.eqb_neq _ 1)) by lia. cbn [groups_root]. unfold tree_root.
    rewrite (zlen_mapped piece_hash (g :: g' :: gs)). apply accumulator_root; [lia| |done].
    intros j Hj. apply leaf_of_past. by rewrite zlen_mapped.
Qed.

Lemma groups_root_chunks s data : groups_root s (chunks GROUP_SIZE data) = suite_root s data.
Proof.
  assert (0 < GROUP_SIZE) as HG by done. destruct s; [simpl; by rewrite concat_chunks|]. unfold suite_root, bep52_root.
  destruct (bool_decide_reflect (data = [])) as [->|Hne]; [done|]. destruct (Z.leb_spec (zlen data) GROUP_SIZE).
  - by rewrite chunks_small.
  - unfold groups_root, pieces. pose proof (zlen_chunks GROUP_SIZE HG data) as Hz. pose proof (div_ceil_spec (zlen data) GROUP_SIZE HG).
    destruct (chunks GROUP_SIZE data) as [|g [|g' gs]] eqn:E; [| |done].
    + change (zlen (@nil (list Z))) with 0 in Hz. lia.
    + change (zlen [g]) with 1 in Hz. lia.
Qed.

(** ** Streams *)

(** The stream after [data]: whole groups fed, the rest pending. *)
Definition streamed (s : Suite) (data : list Z) (st : StreamVerifier) : Prop :=
  stream_suite st = s /\ length_ st = zlen data /\ saw_final (sequence (verifier st)) = false /\
  exists whole m, data = whole ++ pending st /\ zlen whole = m * GROUP_SIZE /\ 0 <= m /\ zlen (pending st) < GROUP_SIZE /\
    fed s (chunks GROUP_SIZE whole) (verifier st).

Lemma feed_group_ok s gs st g : fed s gs (verifier st) -> saw_final (sequence (verifier st)) = false -> zlen g = GROUP_SIZE ->
  zlen gs < 2 ^ 62 ->
  exists v, feed_group g st = (Ok tt, set_verifier st v) /\ fed s (gs ++ [g]) v /\ saw_final (sequence v) = false.
Proof.
  intros Hf Hs Hg Hmax. unfold feed_group. unfold GROUP_SIZE in Hg.
  destruct (feed_next_ok s gs (verifier st) g Hf Hs ltac:(unfold GROUP_SIZE; lia) Hmax) as (v & -> & Hv & Hfin).
  exists v. split_and!; try done. rewrite Hfin. apply Z.ltb_ge. unfold GROUP_SIZE. lia.
Qed.

Lemma feed_groups_ok s groups : forall gs st, fed s gs (verifier st) -> saw_final (sequence (verifier st)) = false ->
  Forall (fun g => zlen g = GROUP_SIZE) groups -> zlen gs + zlen groups < 2 ^ 62 ->
  exists v, feed_groups groups st = (Ok tt, set_verifier st v) /\ fed s (gs ++ groups) v /\ saw_final (sequence v) = false.
Proof.
  induction groups as [|g groups IH]; intros gs st Hf Hs Hg Hmax.
  - exists (verifier st). rewrite app_nil_r. split_and!; try done. by destruct st.
  - apply Forall_cons in Hg as [Hg1 Hg]. rewrite zlen_cons in Hmax. pose proof (zlen_nonneg groups). cbn [feed_groups].
    destruct (feed_group_ok s gs st g Hf Hs Hg1 ltac:(lia)) as (v & Hv & Hf' & Hs').
    rewrite (bind_ok _ _ _ _ _ Hv). destruct (IH (gs ++ [g]) (set_verifier st v) Hf' Hs' Hg) as (v' & Hr & Hf2 & Hs2).
    { rewrite zlen_app. change (zlen [g]) with 1. lia. }
    exists v'. rewrite <- app_assoc in Hf2. done.
Qed.

(** Cutting off the whole groups. *)
Lemma whole_groups (bytes : list Z) : exists m, 0 <= m /\ m * GROUP_SIZE <= zlen bytes /\ zlen bytes < m * GROUP_SIZE + GROUP_SIZE /\
  chunks_exact GROUP_SIZE bytes = chunks GROUP_SIZE (ztake (m * GROUP_SIZE) bytes) /\
  chunks_remainder GROUP_SIZE bytes = zdrop (m * GROUP_SIZE) bytes.
Proof.
  exists (zlen bytes / GROUP_SIZE). pose proof (zlen_nonneg bytes). assert (0 < GROUP_SIZE) as HG by done.
  pose proof (Z.div_mod (zlen bytes) GROUP_SIZE ltac:(lia)). pose proof (Z.mod_pos_bound (zlen bytes) GROUP_SIZE HG).
  split_and!; try done; try lia. by apply Z.div_pos.
Qed.

Lemma chunks_whole m (bytes : list Z) : zlen bytes = m * GROUP_SIZE -> 0 <= m ->
  Forall (fun g => zlen g = GROUP_SIZE) (chunks GROUP_SIZE bytes) /\ zlen (chunks GROUP_SIZE bytes) = m.
Proof.
  intros Hz Hm. assert (0 < GROUP_SIZE) as HG by done. split.
  - apply Forall_forall. intros g [i Hi]%list_elem_of_lookup. apply (chunks_lookup _ HG) in Hi as [Hlt ->].
    assert (Z.of_nat i < m) by nia. rewrite zlen_slice by nia. nia.
  - rewrite zlen_chunks, Hz by done. unfold div_ceil. symmetry. apply Z.div_unique with (GROUP_SIZE - 1); lia.
Qed.

(** The last two steps of [update]: whole groups, then the remainder. *)
Lemma update_rest s st whole m bytes : stream_suite st = s -> saw_final (sequence (verifier st)) = false -> pending st = [] ->
  zlen whole = m * GROUP_SIZE -> 0 <= m -> fed s (chunks GROUP_SIZE whole) (verifier st) -> zlen (whole ++ bytes) <= i64_max ->
  exists v, feed_groups (chunks_exact GROUP_SIZE bytes) st = (Ok tt, set_verifier st v) /\ saw_final (sequence v) = false /\
    exists whole' m', whole ++ bytes = whole' ++ chunks_remainder GROUP_SIZE bytes /\ zlen whole' = m' * GROUP_SIZE /\ 0 <= m' /\
      zlen (chunks_remainder GROUP_SIZE bytes) < GROUP_SIZE /\ fed s (chunks GROUP_SIZE whole') v.
Proof.
  intros Hs Hfin Hpend Hw Hm Hf Hmax. assert (0 < GROUP_SIZE) as HG by done.
  destruct (whole_groups bytes) as (k & Hk & Hle & Hlt & -> & ->). rewrite zlen_app in Hmax.
  set (cut := ztake (k * GROUP_SIZE) bytes). assert (zlen cut = k * GROUP_SIZE) as Hcut by (apply zlen_ztake; lia).
  destruct (chunks_whole k cut Hcut Hk) as [Hfull Hcount]. destruct (chunks_whole m whole Hw Hm) as [_ Hcw].
  destruct (feed_groups_ok s (chunks GROUP_SIZE cut) (chunks GROUP_SIZE whole) st Hf Hfin Hfull) as (v & Hv & Hf' & Hs').
  { rewrite Hcount, Hcw. unfold GROUP_SIZE in *. mlia. }
  exists v. split; [done|]. split; [done|]. exists (whole ++ cut), (m + k). rewrite <- app_assoc. unfold cut at 1. rewrite ztake_zdrop.
  split_and!; [done|rewrite zlen_app; lia|lia|rewrite zlen_zdrop; lia|]. by rewrite (chunks_app_multiple _ HG whole cut m).
Qed.

Lemma update_ok s data st bytes : streamed s data st -> zlen (data ++ bytes) <= i64_max ->
  exists st', update bytes st = (Ok tt, st') /\ streamed s (data ++ bytes) st'.
Proof.
  intros (Hs & Hlen & Hfin & whole & m & Hdata & Hw & Hm & Hp & Hf) Hmax.
  assert (0 < GROUP_SIZE) as HG by done. pose proof (zlen_nonneg bytes) as Hb. pose proof (zlen_nonneg (pending st)) as Hpn.
  assert (checked_add (length_ st) (zlen bytes) = Some (zlen (data ++ bytes))) as Hadd.
  { apply checked_add_Some. rewrite Hlen, zlen_app in *. split; [done|mlia]. }
  unfold update. destruct (bool_decide_reflect (pending st = [])) as [He|Hne].
  - destruct (update_rest s st whole m bytes) as (v & Hv & Hfin' & whole' & m' & E & Hw' & Hm' & Hr & Hf'); try done.
    { rewrite He, app_nil_r in Hdata. by subst. }
    unfold bind at 1. rewrite bool_decide_eq_true_2 by done. unfold bind at 1. rewrite bool_decide_eq_true_2 by done.
    rewrite (bind_ok _ _ _ _ _ Hv). unfold ret. cbn [length_ set_pending set_verifier pending]. rewrite He, app_nil_l, Hadd.
    eexists. split; [reflexivity|]. split_and!; try done. exists whole', m'. cbn [pending set_length set_pending]. split_and!; try done.
    rewrite <- E, Hdata, He. by rewrite app_nil_r.
  - set (consumed := Z.min (GROUP_SIZE - zlen (pending st)) (zlen bytes)).
    assert (0 <= consumed <= zlen bytes) as Hcons by lia.
    set (st1 := set_pending st (pending st ++ ztake consumed bytes)).
    assert (zlen (pending st1) = zlen (pending st) + consumed) as Hp1 by (unfold st1; cbn [pending set_pending]; rewrite zlen_app, zlen_ztake; lia).
    unfold bind at 1. rewrite bool_decide_eq_false_2 by done. fold consumed. cbv zeta. fold st1.
    destruct (Z.eqb_spec (zlen (pending st1)) GROUP_SIZE) as [Hfull|Hpart].
    + destruct (chunks_whole m whole Hw Hm) as [_ Hcw].
      destruct (feed_group_ok s (chunks GROUP_SIZE whole) st1 (pending st1) Hf Hfin Hfull) as (v & Hv & Hf1 & Hfin1).
      { rewrite Hcw. rewrite Hdata, !zlen_app in Hmax. unfold GROUP_SIZE in *. mlia. }
      assert (feed_pending st1 = (Ok tt, set_pending (set_verifier st1 v) [])) as Hfp by (unfold feed_pending; by rewrite Hv).
      rewrite (bind_ok _ _ _ _ _ Hfp). unfold ret at 1. set (st2 := set_pending (set_verifier st1 v) []).
      assert (whole ++ pending st1 ++ zdrop consumed bytes = data ++ bytes) as Ecat.
      { unfold st1. cbn [pending set_pending]. rewrite Hdata, <- !app_assoc. by rewrite ztake_zdrop. }
      assert (fed s (chunks GROUP_SIZE (whole ++ pending st1)) (verifier st2)) as Hf2.
      { rewrite (chunks_app_multiple _ HG whole _ m), (chunks_small _ HG (pending st1)); try done; [|lia]. intros E0. rewrite E0 in Hfull. done. }
      destruct (update_rest s st2 (whole ++ pending st1) (m + 1) (zdrop consumed bytes)) as (v' & Hv' & Hfin' & whole' & m' & E & Hw' & Hm' & Hr & Hf');
        try done; [rewrite zlen_app; lia|lia|by rewrite <- app_assoc, Ecat|].
      unfold bind at 1. rewrite bool_decide_eq_true_2 by done. rewrite (bind_ok _ _ _ _ _ Hv'). unfold ret.
      cbn [length_ set_pending set_verifier pending st2 st1]. rewrite app_nil_l, Hadd. eexists. split; [reflexivity|].
      split_and!; try done. exists whole', m'. cbn [pending set_length set_pending]. split_and!; try done.
      by rewrite <- E, <- app_assoc, Ecat.
    + assert (consumed = zlen bytes) as Hc by lia. rewrite Hc in *.
      assert (zdrop (zlen bytes) bytes = []) as Hd by (unfold zdrop, zlen; rewrite Nat2Z.id; apply drop_all).
      rewrite Hd. unfold bind at 1. rewrite bool_decide_eq_false_2.
      2:{ unfold st1. cbn [pending set_pending]. by intros [? _]%app_eq_nil. }
      rewrite app_nil_r. change (length_ (set_pending st1 (pending st1))) with (length_ st). rewrite Hadd.
      eexists. split; [reflexivity|]. split_and!; try done. exists whole, m. cbn [pending set_length set_pending st1].
      rewrite ztake_all by lia. split_and!; try done; [by rewrite Hdata, <- app_assoc|].
      cbn [pending set_pending st1] in Hp1, Hpart. rewrite ztake_all in Hp1, Hpart by lia. lia.
Qed.

Lemma streamed_new s : streamed s [] (stream_new s).
Proof. destruct (fed_new s) as [Hf Hs]. split_and!; try done. exists [], 0. done. Qed.

Lemma digest_ok s data st : streamed s data st -> zlen data <= i64_max -> stream_digest st = Ok (suite_root s data).
Proof.
  intros (Hs & Hlen & Hfin & whole & m & Hdata & Hw & Hm & Hp & Hf) Hmax. assert (0 < GROUP_SIZE) as HG by done.
  destruct (chunks_whole m whole Hw Hm) as [_ Hcw]. rewrite <- groups_root_chunks. unfold stream_digest.
  pose proof (zlen_nonneg (pending st)) as Hpn. rewrite Hdata, zlen_app in Hmax.
  destruct (bool_decide_reflect (pending st = [])) as [He|Hne].
  - rewrite He, app_nil_r in Hdata. rewrite Hdata. apply verifier_finish_ok; [done|]. rewrite Hcw. unfold GROUP_SIZE in *. mlia.
  - assert (1 <= zlen (pending st)) as H1.
    { destruct (pending st) as [|x l]; [done|]. rewrite zlen_cons. pose proof (zlen_nonneg l). lia. }
    destruct (feed_next_ok s _ (verifier st) (pending st) Hf Hfin ltac:(lia)) as (v & -> & Hf' & _).
    { rewrite Hcw. unfold GROUP_SIZE in *. mlia. }
    rewrite Hdata, (chunks_app_multiple _ HG whole _ m), (chunks_small _ HG (pending st)) by (done || lia).
    apply verifier_finish_ok; [done|]. rewrite zlen_app, Hcw. change (zlen [pending st]) with 1. unfold GROUP_SIZE in *. mlia.
Qed.

(** The updates of a caller, one after another. *)
Fixpoint update_all (parts : list (list Z)) : M StreamVerifier VerifyError unit :=
  match parts with
  | [] => ret tt
  | part :: rest => update part ;! update_all rest
  end.

Lemma update_all_ok s parts : forall data st, streamed s data st -> zlen (data ++ concat parts) <= i64_max ->
  exists st', update_all parts st = (Ok tt, st') /\ streamed s (data ++ concat parts) st'.
Proof.
  induction parts as [|p parts IH]; intros data st Hst Hmax; cbn [concat update_all] in *; [exists st; by rewrite app_nil_r|].
  rewrite app_assoc in *. pose proof (zlen_nonneg (concat parts)). rewrite zlen_app in Hmax.
  destruct (update_ok s data st p Hst ltac:(lia)) as (st1 & H1 & Hst1). rewrite (bind_ok _ _ _ _ _ H1).
  apply IH; [done|]. rewrite zlen_app. lia.
Qed.

Lemma root_ok s data : zlen data <= i64_max -> root s data = Ok (suite_root s data).
Proof.
  intros Hmax. unfold root. destruct (update_ok s [] (stream_new s) data (streamed_new s) Hmax) as (st & -> & Hst). by apply digest_ok.
Qed.

(** C10: Streaming computes the suite's root, however the bytes arrive.  Cut an object of any length below 2^63 into
    updates in any way: every update is accepted, the digest is the root its suite defines for the whole, BLAKE3's
    hash or the BEP 52 tree with its zero padding, and [finish] accepts exactly the identity of the object. *)
Theorem stream_root s parts : zlen (concat parts) <= i64_max ->
  exists st, update_all parts (stream_new s) = (Ok tt, st) /\ stream_digest st = Ok (suite_root s (concat parts)) /\
    forall expected v, stream_finish st expected = Ok v <->
      expected = mkExpected s (suite_root s (concat parts)) (zlen (concat parts)) /\
      v = mkVerifiedObject s (suite_root s (concat parts)) (zlen (concat parts)).
Proof.
  intros Hmax. destruct (update_all_ok s parts [] (stream_new s) (streamed_new s) Hmax) as (st & Hu & Hst).
  rewrite app_nil_l in Hst. exists st. split; [done|]. pose proof (digest_ok s _ st Hst Hmax) as Hd. split; [done|].
  intros [es er el] v. destruct Hst as (Hs & Hl & _). unfold stream_finish. cbn [expected_suite expected_root expected_length].
  rewrite Hs, Hl, Hd. destruct (bool_decide_reflect (s = es)) as [<-|Hn]; cbn [negb]; [|split; [done|by intros [[=] _]]].
  destruct (Z.eqb_spec (zlen (concat parts)) el) as [<-|Hn]; cbn [negb]; [|split; [done|by intros [[=] _]]].
  destruct (bool_decide_reflect (suite_root s (concat parts) = er)) as [<-|Hn]; cbn [negb]; [|split; [done|by intros [[=] _]]].
  split; [by intros [= <-]|by intros [_ ->]].
Qed.
End roots.

#[local] Instance demo_sha256 : Sha256 := toy_sha256.
#[local] Instance demo_blake3 : Blake3 := toy_blake3.

Definition demo_parts : list (list Z) := [[1; 2]; []; repeat 7 70000].

Lemma stream_root_witness :
  exists st, update_all demo_parts (stream_new Sha256Bep52) = (Ok tt, st) /\
    stream_digest st = Ok (suite_root Sha256Bep52 (concat demo_parts)) /\
    forall expected v, stream_finish st expected = Ok v <->
      expected = mkExpected Sha256Bep52 (suite_root Sha256Bep52 (concat demo_parts)) (zlen (concat demo_parts)) /\
      v = mkVerifiedObject Sha256Bep52 (suite_root Sha256Bep52 (concat demo_parts)) (zlen (concat demo_parts)).
Proof. apply (stream_root Sha256Bep52 demo_parts). vm_compute. discriminate. Defined.
