(* ===== verification/ProofSha256.v ===== *)
(** * SHA-256 range proofs ([crates/vot-proof-sha256/src/lib.rs])

    The BEP 52 tree over 64 KiB pieces: proving a range from an object or from
    its piece hashes, and verifying one.  The crate's own [hash], [parent],
    [reduce] and [piece_hash] are those of the verifier crate and are used from
    there.  Lengths and indices are [u64] and [usize], both 64 bits. *)

From S2P Require Import Prelude Digest HashTree Verifier.

Definition PIECE_SIZE : Z := 65536.

Inductive StoreError := SE_Unavailable | SE_Corrupt | SE_Capacity.

Inductive Error :=
| EmptyRange | OutOfBounds | LengthOverflow | MalformedProof | HashMismatch | Storage (e : StoreError).

Record RangeProof := mkRangeProof { rp_covered_offset : Z; rp_data : list Z; rp_proof : list Z }.
Record RangeCover := mkRangeCover { covered_offset : Z; covered_length : Z; proof : list Z }.

(** [u64::is_multiple_of], for a positive divisor. *)
Definition is_multiple_of (a b : Z) : bool := a mod b =? 0.

(** [u64::checked_mul]. *)
Definition checked_mul (a b : Z) : option Z := if a * b <=? u64_max then Some (a * b) else None.

Record RangeGeometry := mkGeometry { g_offset : Z; g_end : Z; g_first : Z; g_past : Z }.

Definition geometry_of (object_len offset length : Z) : result RangeGeometry Error :=
  if length =? 0 then Err EmptyRange else
  let? request_end := ok_or (checked_add offset length) LengthOverflow in
  if object_len <? request_end then Err OutOfBounds else
  let covered_offset := offset / PIECE_SIZE * PIECE_SIZE in
  let? aligned := ok_or (checked_mul (div_ceil request_end PIECE_SIZE) PIECE_SIZE) LengthOverflow in
  let covered_end := Z.min aligned object_len in
  Ok (mkGeometry covered_offset covered_end (covered_offset / PIECE_SIZE) (div_ceil covered_end PIECE_SIZE)).

Definition check_cover (object_len covered_offset data_len : Z) : result (Z * Z) Error :=
  if negb (is_multiple_of covered_offset PIECE_SIZE) || (data_len =? 0) then Err OutOfBounds else
  let? covered_end := ok_or (checked_add covered_offset data_len) LengthOverflow in
  if (object_len <? covered_end) || ((covered_end <? object_len) && negb (is_multiple_of covered_end PIECE_SIZE))
  then Err OutOfBounds else
  Ok (covered_offset / PIECE_SIZE, div_ceil covered_end PIECE_SIZE).

(** The loop of [proof_window]: the width doubles until the window holds the
    range, at most to the width of the tree. *)
Fixpoint window_loop (fuel : nat) (first past width : Z) : Z * Z :=
  let start := first / width * width in
  match fuel with
  | O => (start, width)
  | S fuel => if past <=? start + width then (start, width) else window_loop fuel first past (width * 2)
  end.

Definition proof_window (first past tree_width : Z) : Z * Z :=
  let width := next_power_of_two (past - first) in
  let width := if 1 <? tree_width then Z.max width 2 else width in
  window_loop 64 first past width.

(** The loop of [encode_proof_by] over the levels, which ends at the width of
    the tree. *)
Fixpoint encode_siblings (fuel : nat) (pieces_len tree_width : Z) (hash : Z -> Z -> list Z) (start width : Z) : list Z :=
  match fuel with
  | O => []
  | S fuel =>
      if width =? tree_width then [] else
      let node_index := start / width in
      let sibling := Z.lxor node_index 1 in
      let sibling_start := sibling * width in
      (if sibling_start <? pieces_len then hash sibling_start width else []) ++
      encode_siblings fuel pieces_len tree_width hash (Z.min start sibling_start) (width * 2)
  end.

Definition encode_proof_by (piece_count first past : Z) (hash : Z -> Z -> list Z) : list Z :=
  if piece_count <=? 1 then [] else
  let tree_width := next_power_of_two piece_count in
  let '(window_start, window_width) := proof_window first past tree_width in
  concat (map (fun index => if ((index <? first) || (past <=? index)) && (index <? piece_count) then hash index 1 else [])
            (seqZ window_start window_width)) ++
  encode_siblings 64 piece_count tree_width hash window_start window_width.

Definition read_hash (proof : list Z) : M Z Error (list Z) := fun cursor =>
  match checked_add cursor 32 with
  | None => (Err MalformedProof, cursor)
  | Some e => if e <=? zlen proof then (Ok (slice proof cursor e), e) else (Err MalformedProof, cursor)
  end.

Definition window_capacity (piece_count window_start window_width covered proof_bytes : Z) : result Z Error :=
  let supplied := Z.min window_width (piece_count - window_start) - covered in
  if proof_bytes / 32 <? supplied then Err MalformedProof else Ok window_width.

Section proofs.
Context `{H : Sha256} `{B : Blake3}.

(** [root]: the [expect] holds, the verifier takes any slice. *)
Definition root (data : list Z) : list Z :=
  match Verifier.root Sha256Bep52 data with Ok r => r | Err _ => [] end.

Definition zero_piece : list Z :=
  let zero_parent := parent ZERO_HASH ZERO_HASH in parent zero_parent zero_parent.

(** The loop of [zero_subtree]. *)
Fixpoint zero_loop (fuel : nat) (width : Z) (value : list Z) : list Z :=
  match fuel with
  | O => value
  | S fuel => if 1 <? width then zero_loop fuel (width / 2) (parent value value) else value
  end.
Definition zero_subtree (width : Z) : list Z := zero_loop 64 width zero_piece.

Definition piece_hashes_at (offset : Z) (bytes : list Z) (object_length : Z) : result (list (list Z)) Error :=
  if bool_decide (bytes = []) then Err EmptyRange else
  if negb (is_multiple_of offset PIECE_SIZE) then Err OutOfBounds else
  let? e := ok_or (checked_add offset (zlen bytes)) LengthOverflow in
  if (object_length <? e) || (negb (e =? object_length) && negb (is_multiple_of (zlen bytes) PIECE_SIZE)) then Err OutOfBounds else
  Ok (map piece_hash (chunks PIECE_SIZE bytes)).

Definition piece_layer (data : list Z) : list (list Z) :=
  if bool_decide (data = []) then [] else
  if zlen data <=? PIECE_SIZE then [root data] else map piece_hash (chunks PIECE_SIZE data).

Definition padded_piece_tree (pieces : list (list Z)) : list (list (list Z)) :=
  let width := next_power_of_two (Z.max (zlen pieces) 1) in
  let base := resize_to pieces width zero_piece in
  layers_fuel parent (length base) base.

(** [encode_proof_from]; a node the tree has is indexed. *)
Definition encode_proof_from (layers : list (list (list Z))) (piece_count first past : Z) : list Z :=
  encode_proof_by piece_count first past (fun start width =>
    default [] (layers !! Z.to_nat (trailing_zeros width) ≫= fun layer => layer !! Z.to_nat (start / width))).

Definition encode_proof (pieces : list (list Z)) (first past : Z) : list Z :=
  if zlen pieces <=? 1 then [] else encode_proof_from (padded_piece_tree pieces) (zlen pieces) first past.

(** ** Piece hashes *)

Record PieceHashes := mkPieceHashes {
  hashes : list (list Z); length_ : Z; ended : bool; layers : list (list (list Z)) }.

Definition piece_hashes_new : PieceHashes := mkPieceHashes [] 0 false [].

(** [push]; the length of the pieces taken is the length of an object, so that
    the addition does not overflow. *)
Definition push (piece : list Z) : M PieceHashes Error unit := fun self =>
  if bool_decide (piece = []) || (PIECE_SIZE <? zlen piece) then (Err OutOfBounds, self) else
  if ended self then (Err OutOfBounds, self) else
  (Ok tt, mkPieceHashes (hashes self ++ [piece_hash piece]) (length_ self + zlen piece) (zlen piece <? PIECE_SIZE) []).

Definition seal (self : PieceHashes) : PieceHashes :=
  mkPieceHashes (hashes self) (length_ self) (ended self) (padded_piece_tree (hashes self)).

Definition sealed (self : PieceHashes) : bool := negb (bool_decide (layers self = [])).

Definition from_piece_hashes (hashes : list (list Z)) (length : Z) : result PieceHashes Error :=
  let expected := div_ceil length PIECE_SIZE in
  if (expected <? 2) || negb (zlen hashes =? expected) then Err OutOfBounds else
  Ok (seal (mkPieceHashes hashes length true [])).

Definition piece_tree_root (self : PieceHashes) : option (list Z) :=
  if zlen (hashes self) <? 2 then None else last (layers self) ≫= head.

Definition piece_holds (self : PieceHashes) (index : Z) (piece : list Z) : bool :=
  match zget (hashes self) index with
  | None => false
  | Some hash =>
      if bool_decide (piece = []) || (PIECE_SIZE <? zlen piece) then false else bool_decide (piece_hash piece = hash)
  end.

(** ** Proving *)

Definition prove_with (pieces : PieceHashes) (offset length : Z) : result RangeCover Error :=
  let? g := geometry_of (length_ pieces) offset length in
  Ok (mkRangeCover (g_offset g) (g_end g - g_offset g)
    (if sealed pieces then encode_proof_from (layers pieces) (zlen (hashes pieces)) (g_first g) (g_past g)
     else encode_proof (hashes pieces) (g_first g) (g_past g))).

Definition prove (data : list Z) (offset length : Z) : result RangeProof Error :=
  let? g := geometry_of (zlen data) offset length in
  let proof := encode_proof (piece_layer data) (g_first g) (g_past g) in
  Ok (mkRangeProof (g_offset g) (slice data (g_offset g) (g_end g)) proof).

(** ** Verifying *)

(** The loop of [decode_root] over the window. *)
Fixpoint read_window (piece_count first past : Z) (covered : list (list Z)) (proof : list Z) (indices : list Z) : M Z Error (list (list Z)) :=
  match indices with
  | [] => ret []
  | index :: rest =>
      let! value :=
        if (first <=? index) && (index <? past) then ret (default [] (zget covered (index - first)))
        else if index <? piece_count then read_hash proof
        else ret zero_piece in
      let! values := read_window piece_count first past covered proof rest in
      ret (value :: values)
  end.

(** The loop of [decode_root] over the levels: widths double up to that of the
    tree. *)
Fixpoint read_siblings (fuel : nat) (piece_count tree_width : Z) (proof : list Z) (start width : Z) (value : list Z) : M Z Error (list Z) :=
  match fuel with
  | O => ret value
  | S fuel =>
      if negb (width <? tree_width) then ret value else
      let node_index := start / width in
      let sibling_on_left := Z.land node_index 1 =? 1 in
      let sibling_start := if sibling_on_left then start - width else start + width in
      let! sibling := if sibling_start <? piece_count then read_hash proof else ret (zero_subtree width) in
      let value := if sibling_on_left then parent sibling value else parent value sibling in
      read_siblings fuel piece_count tree_width proof (Z.min start sibling_start) (width * 2) value
  end.

(** [covered[index - first]] is in range: [covered] has [past - first] hashes. *)
Definition decode_root (piece_count first past : Z) (covered : list (list Z)) (proof : list Z) : result (list Z) Error :=
  if piece_count =? 1 then
    if negb (first =? 0) || negb (past =? 1) || negb (zlen covered =? 1) || negb (bool_decide (proof = []))
    then Err MalformedProof else Ok (hd [] covered)
  else
  if negb (zlen covered =? past - first) then Err MalformedProof else
  let tree_width := next_power_of_two piece_count in
  let '(window_start, window_width) := proof_window first past tree_width in
  let? _ := window_capacity piece_count window_start window_width (zlen covered) (zlen proof) in
  let '(r, cursor) :=
    (let! nodes := read_window piece_count first past covered proof (seqZ window_start window_width) in
     read_siblings 64 piece_count tree_width proof window_start window_width (reduce nodes)) 0 in
  let? value := r in
  if negb (cursor =? zlen proof) then Err MalformedProof else Ok value.

Definition verify_hashes (expected_root : list Z) (object_len first past : Z) (hashes : list (list Z)) (proof : list Z) : result unit Error :=
  let? actual := decode_root (div_ceil object_len PIECE_SIZE) first past hashes proof in
  if bool_decide (actual = expected_root) then Ok tt else Err HashMismatch.

Definition verify (expected_root : list Z) (object_len covered_offset : Z) (data proof : list Z) : result unit Error :=
  let? (first, past) := check_cover object_len covered_offset (zlen data) in
  let covered_hashes := if object_len <=? PIECE_SIZE then [root data] else map piece_hash (chunks PIECE_SIZE data) in
  verify_hashes expected_root object_len first past covered_hashes proof.

Definition verify_piece_hashes (expected_root : list Z) (object_len covered_offset covered_length : Z) (hashes : list (list Z))
    (proof : list Z) : result unit Error :=
  let? (first, past) := check_cover object_len covered_offset covered_length in
  if object_len <=? PIECE_SIZE then Err OutOfBounds else
  verify_hashes expected_root object_len first past hashes proof.
End proofs.
