(* ===== verification/ProofSha256Tree.v ===== *)
(** * What a SHA-256 range proof says

    The verifier's two loops are functions of the proof's hashes in order: they
    compute the hash of a pruned piece tree whose tips are those hashes, the
    covered pieces and zero padding.  The encoder writes the tips of the honest
    tree in the same order. *)

From S2P Require Import Prelude Digest HashTree Verifier VerifierRoot ProofSha256.

Lemma pow_pos (k : nat) : 0 < 2 ^ Z.of_nat k.
Proof. apply Z.pow_pos_nonneg; lia. Qed.

Lemma pow_S (k : nat) : 2 ^ Z.of_nat (S k) = 2 * 2 ^ Z.of_nat k.
Proof. rewrite Nat2Z.inj_succ, Z.pow_succ_r by lia. done. Qed.

Lemma pow_le (j k : nat) : (j <= k)%nat -> 2 ^ Z.of_nat j <= 2 ^ Z.of_nat k.
Proof. intros. apply Z.pow_le_mono_r; lia. Qed.

Lemma depth_spec n : 1 <= n -> next_power_of_two n = 2 ^ Z.of_nat (depth n) /\ n <= 2 ^ Z.of_nat (depth n).
Proof.
  intros Hn. pose proof (Z.log2_up_nonneg n). pose proof (next_power_bounds n Hn) as Hb. unfold next_power_of_two, depth in *.
  rewrite Z2Nat.id by lia. split; [done|lia].
Qed.

Lemma depth_le n m : n <= 2 ^ Z.of_nat m -> (depth n <= m)%nat.
Proof.
  intros H. unfold depth. destruct (Z.le_gt_cases n 1).
  - rewrite Z.log2_up_eqn0 by lia. lia.
  - apply Z.log2_up_le_pow2 in H; lia.
Qed.

(** ** The window *)

Section window.
Context (n first past : Z) (Hn : 2 <= n) (Hr : 0 <= first < past) (Hp : past <= n) (Hmax : n <= 2 ^ 62).

Let K := depth n.

Lemma tree_width : next_power_of_two n = 2 ^ Z.of_nat K /\ n <= 2 ^ Z.of_nat K /\ (1 <= K <= 62)%nat.
Proof using Hn Hmax.
  destruct (depth_spec n ltac:(lia)) as [H1 H2]. split_and!; [done|done| |apply depth_le; done].
  destruct (decide (K = 0%nat)) as [E|]; [|lia]. fold K in H2. rewrite E in H2. change (2 ^ Z.of_nat 0) with 1 in H2. lia.
Qed.

Lemma window_loop_ok fuel (j : nat) : (j <= K)%nat -> (K <= fuel + j)%nat ->
  exists (w : nat) a, window_loop fuel first past (2 ^ Z.of_nat j) = (a * 2 ^ Z.of_nat w, 2 ^ Z.of_nat w) /\ (j <= w <= K)%nat /\
    0 <= a /\ a * 2 ^ Z.of_nat w <= first /\ past <= (a + 1) * 2 ^ Z.of_nat w.
Proof using Hn Hr Hp Hmax.
  destruct tree_width as (_ & HK & _). revert j. induction fuel as [|fuel IH]; intros j Hj Hf; cbn [window_loop].
  - replace j with K by lia. exists K, (first / 2 ^ Z.of_nat K). rewrite Z.div_small by lia. split_and!; try done; lia.
  - pose proof (pow_pos j). pose proof (Z.mul_div_le first (2 ^ Z.of_nat j) ltac:(lia)). pose proof (Z.div_pos first (2 ^ Z.of_nat j) ltac:(lia) ltac:(lia)).
    destruct (Z.leb_spec past (first / 2 ^ Z.of_nat j * 2 ^ Z.of_nat j + 2 ^ Z.of_nat j)) as [Hle|Hgt].
    + exists j, (first / 2 ^ Z.of_nat j). split_and!; try done; lia.
    + assert (j < K)%nat as HjK.
      { destruct (decide (j = K)) as [->|]; [|lia]. rewrite Z.div_small in Hgt by lia. lia. }
      replace (2 ^ Z.of_nat j * 2) with (2 ^ Z.of_nat (S j)) by (rewrite pow_S; lia).
      destruct (IH (S j) ltac:(lia) ltac:(lia)) as (w & a & E & Hw & ?). exists w, a. split_and!; try done; try lia; tauto.
Qed.

Lemma window_ok : exists (w : nat) a, proof_window first past (2 ^ Z.of_nat K) = (a * 2 ^ Z.of_nat w, 2 ^ Z.of_nat w) /\
  (1 <= w <= K)%nat /\ 0 <= a /\ a * 2 ^ Z.of_nat w <= first /\ past <= (a + 1) * 2 ^ Z.of_nat w.
Proof using Hn Hr Hp Hmax.
  destruct tree_width as (_ & HK & HK1). unfold proof_window.
  assert (1 < 2 ^ Z.of_nat K) as H1 by (pose proof (pow_le 1 K ltac:(lia)) as Hle; change (2 ^ Z.of_nat 1) with 2 in Hle; lia).
  rewrite (proj2 (Z.ltb_lt _ _)) by done. destruct (depth_spec (past - first) ltac:(lia)) as [-> Hd].
  assert (depth (past - first) <= K)%nat as HdK by (apply depth_le; lia).
  assert (Z.max (2 ^ Z.of_nat (depth (past - first))) 2 = 2 ^ Z.of_nat (Nat.max (depth (past - first)) 1)) as ->.
  { destruct (depth (past - first)) as [|d]; [done|]. rewrite Nat.max_l by lia. pose proof (pow_le 1 (S d) ltac:(lia)) as Hle.
    change (2 ^ Z.of_nat 1) with 2 in Hle. lia. }
  destruct (window_loop_ok 64 (Nat.max (depth (past - first)) 1) ltac:(lia) ltac:(lia)) as (w & a & E & Hw & Ha).
  exists w, a. split_and!; try done; try lia; tauto.
Qed.
End window.

(** ** Reading the proof *)

Section reading.
Context `{H : Sha256} `{B : Blake3}.

Lemma zero_pieces_same : ProofSha256.zero_piece = VerifierRoot.zero_piece.
Proof. reflexivity. Qed.

Lemma zero_loop_iter fuel (l : nat) v : (l <= fuel)%nat ->
  zero_loop fuel (2 ^ Z.of_nat l) v = Nat.iter l (fun value => parent value value) v.
Proof.
  revert l v. induction fuel as [|fuel IH]; intros l v Hl; [by replace l with O by lia|]. cbn [zero_loop].
  destruct l as [|l]; [done|]. pose proof (pow_pos l). rewrite pow_S. rewrite (proj2 (Z.ltb_lt 1 _)) by lia.
  rewrite Z.mul_comm, Z.div_mul by lia. rewrite IH by lia. by rewrite Nat.iter_succ_r.
Qed.

Lemma zero_subtree_node f (l : nat) i : (l <= 62)%nat -> (forall j, i * 2 ^ Z.of_nat l <= j -> f j = VerifierRoot.zero_piece) ->
  ProofSha256.zero_subtree (2 ^ Z.of_nat l) = node parent f l i.
Proof.
  intros Hl Hz. rewrite (node_zero f l i) by (intros j Hj; apply Hz; lia). unfold ProofSha256.zero_subtree, Verifier.zero_subtree.
  rewrite zero_loop_iter, Nat2Z.id, zero_pieces_same by lia. done.
Qed.

Context (n first past : Z) (covered : list (list Z)) (proof : list Z).

(** The hashes of the proof, by their ordinal. *)
Definition ph (c : Z) : list Z := slice proof (32 * c) (32 * c + 32).

(** A loop that reads up to the [c']th hash, or finds the proof too short. *)
Definition reading {A} (m : M Z Error A) (c : Z) (v : A) (c' : Z) : Prop :=
  c <= c' /\ (32 * c' <= zlen proof -> m (32 * c) = (Ok v, 32 * c')) /\
  (32 * c <= zlen proof < 32 * c' -> exists cursor, m (32 * c) = (Err MalformedProof, cursor)).

Lemma reading_ret {A} (v : A) c : reading (ret v) c v c.
Proof. split; [lia|]. split; [done|]. lia. Qed.

Lemma reading_bind {A C} (m : M Z Error A) (k : A -> M Z Error C) c v c' u c'' :
  reading m c v c' -> reading (k v) c' u c'' -> reading (bind m k) c u c''.
Proof.
  intros (Hc & H1 & H2) (Hc' & K1 & K2). split; [lia|]. split.
  - intros Hl. rewrite (bind_ok _ _ _ _ _ (H1 ltac:(lia))). by apply K1.
  - intros Hl. destruct (Z.le_gt_cases (32 * c') (zlen proof)) as [Hle|Hgt].
    + rewrite (bind_ok _ _ _ _ _ (H1 Hle)). apply K2. lia.
    + destruct (H2 ltac:(lia)) as [cursor E]. exists cursor. unfold bind. by rewrite E.
Qed.

Lemma reading_hash c : zlen proof <= i64_max -> 0 <= c -> reading (read_hash proof) c (ph c) (c + 1).
Proof.
  intros Hz Hc. split; [lia|]. replace (32 * (c + 1)) with (32 * c + 32) by lia.
  split; intros Hl; unfold read_hash; rewrite (proj2 (checked_add_Some _ _ (32 * c + 32))) by (split; [done|mlia]).
  - by rewrite (proj2 (Z.leb_le _ _)).
  - rewrite (proj2 (Z.leb_gt _ _)) by lia. eauto.
Qed.

(** *** The window *)

Variable ws : Z.

(** How many hashes the window reads before index [i]. *)
Definition ordinal (i : Z) : Z :=
  if i <=? first then i - ws else if i <=? past then first - ws else first - ws + (Z.min i n - past).

Definition window_leaf (i : Z) : list Z :=
  if (first <=? i) && (i <? past) then default [] (zget covered (i - first))
  else if i <? n then ph (ordinal i) else VerifierRoot.zero_piece.

Lemma reading_window i (m : nat) : zlen proof <= i64_max -> ws <= i -> ws <= first < past -> past <= n ->
  reading (read_window n first past covered proof (seqZ i (Z.of_nat m))) (ordinal i)
    (map window_leaf (seqZ i (Z.of_nat m))) (ordinal (i + Z.of_nat m)).
Proof.
  intros Hz Hi Hr Hp. revert i Hi. induction m as [|m IH]; intros i Hi.
  - rewrite Z.add_0_r. apply reading_ret.
  - rewrite (seqZ_cons i) by lia. replace (Z.pred (Z.of_nat (S m))) with (Z.of_nat m) by lia.
    cbn [map read_window]. replace (i + Z.of_nat (S m)) with (Z.succ i + Z.of_nat m) by lia.
    eapply (reading_bind _ _ _ (window_leaf i) (ordinal (Z.succ i))).
    + unfold window_leaf, ordinal. destruct (Z.leb_spec first i), (Z.ltb_spec i past); cbn [andb].
      * replace (if Z.succ i <=? first then _ else _) with (if i <=? first then i - ws else if i <=? past then first - ws else first - ws + (Z.min i n - past)).
        { apply reading_ret. }
        zcases; lia.
      * destruct (Z.ltb_spec i n).
        -- replace (if Z.succ i <=? first then _ else _) with ((if i <=? first then i - ws else if i <=? past then first - ws else first - ws + (Z.min i n - past)) + 1).
           { apply reading_hash; [done|]. zcases; lia. }
           zcases; lia.
        -- replace (if Z.succ i <=? first then _ else _) with (if i <=? first then i - ws else if i <=? past then first - ws else first - ws + (Z.min i n - past)).
           { rewrite zero_pieces_same. apply reading_ret. }
           zcases; lia.
      * rewrite (proj2 (Z.ltb_lt i n)) by lia.
        replace (if Z.succ i <=? first then _ else _) with ((if i <=? first then i - ws else if i <=? past then first - ws else first - ws + (Z.min i n - past)) + 1).
        { apply reading_hash; [done|]. zcases; lia. }
        zcases; lia.
      * lia.
    + eapply reading_bind; [apply IH; lia|apply reading_ret].
Qed.

(** *** The levels above it *)

(** The tree the climb adds around [t], the node at level [l] and index [i],
    reading from ordinal [c] on; and the ordinal it ends at. *)
Fixpoint climb_tree (m l : nat) (i c : Z) (t : tree (T := list Z)) : tree (T := list Z) * Z :=
  match m with
  | O => (t, c)
  | S m =>
      let sibling := if Z.odd i then i - 1 else i + 1 in
      let read := sibling * 2 ^ Z.of_nat l <? n in
      let s := Tip (if read then ph c else ProofSha256.zero_subtree (2 ^ Z.of_nat l)) in
      climb_tree m (S l) (i / 2) (if read then c + 1 else c) (if Z.odd i then Bin s t else Bin t s)
  end.

Lemma climb_start i (l : nat) : 0 <= i ->
  let sibling := if Z.odd i then i - 1 else i + 1 in
  Z.min (i * 2 ^ Z.of_nat l) (sibling * 2 ^ Z.of_nat l) = i / 2 * 2 ^ Z.of_nat (S l).
Proof.
  intros Hi. cbv zeta. pose proof (pow_pos l). rewrite pow_S. pose proof (Z.div_mod i 2 ltac:(lia)).
  destruct (Z.odd i) eqn:Ho; rewrite Zodd_mod in Ho; [apply Z.eqb_eq in Ho|apply Z.eqb_neq in Ho; pose proof (Z.mod_pos_bound i 2)].
  - rewrite Z.min_r by nia. rewrite Z.mul_assoc. f_equal. lia.
  - rewrite Z.min_l by nia. rewrite Z.mul_assoc. f_equal. lia.
Qed.

Lemma reading_siblings (m : nat) : zlen proof <= i64_max ->
  forall fuel (l : nat) i c t, (m <= fuel)%nat -> 0 <= i -> 0 <= c ->
  reading (read_siblings fuel n (2 ^ Z.of_nat (l + m)) proof (i * 2 ^ Z.of_nat l) (2 ^ Z.of_nat l) (thash parent t)) c
    (thash parent (fst (climb_tree m l i c t))) (snd (climb_tree m l i c t)).
Proof.
  intros Hz. induction m as [|m IH]; intros fuel l i c t Hf Hi Hc.
  - rewrite Nat.add_0_r. destruct fuel as [|fuel]; cbn [read_siblings climb_tree fst snd]; [apply reading_ret|].
    rewrite Z.ltb_irrefl. apply reading_ret.
  - destruct fuel as [|fuel]; [lia|]. cbn [read_siblings climb_tree]. pose proof (pow_pos l).
    rewrite (proj2 (Z.ltb_lt _ _)) by (apply Z.pow_lt_mono_r; lia). cbn [negb]. rewrite Z.div_mul by lia.
    assert ((Z.land i 1 =? 1) = Z.odd i) as ->.
    { change 1 with (Z.ones 1). rewrite Z.land_ones by lia. change (2 ^ 1) with 2. by rewrite Zodd_mod. }
    set (sibling := if Z.odd i then i - 1 else i + 1).
    assert ((if Z.odd i then i * 2 ^ Z.of_nat l - 2 ^ Z.of_nat l else i * 2 ^ Z.of_nat l + 2 ^ Z.of_nat l) = sibling * 2 ^ Z.of_nat l) as ->.
    { unfold sibling. destruct (Z.odd i); lia. }
    pose proof (climb_start i l Hi) as Hst. cbv zeta in Hst. fold sibling in Hst. rewrite Hst. replace (2 ^ Z.of_nat l * 2) with (2 ^ Z.of_nat (S l)) by (rewrite pow_S; lia).
    replace (l + S m)%nat with (S l + m)%nat by lia. pose proof (Z.div_pos i 2 Hi ltac:(lia)).
    assert (forall s, (if Z.odd i then parent s (thash parent t) else parent (thash parent t) s) =
      thash parent (if Z.odd i then Bin (Tip s) t else Bin t (Tip s))) as Hval by (intros s; by destruct (Z.odd i)).
    destruct (sibling * 2 ^ Z.of_nat l <? n).
    + eapply reading_bind; [by apply reading_hash|]. cbv zeta. rewrite Hval. apply IH; lia.
    + eapply reading_bind; [apply reading_ret|]. cbv zeta. rewrite Hval. apply IH; lia.
Qed.

Lemma full_parent (f : Z -> list Z) (l : nat) i : full f (S l) (i / 2) =
  (if Z.odd i then Bin (full f l (i - 1)) (full f l i) else Bin (full f l i) (full f l (i + 1))).
Proof.
  cbn [full]. pose proof (Z.div_mod i 2 ltac:(lia)). destruct (Z.odd i) eqn:Ho; rewrite Zodd_mod in Ho.
  - apply Z.eqb_eq in Ho. do 2 f_equal; lia.
  - apply Z.eqb_neq in Ho. pose proof (Z.mod_pos_bound i 2). do 2 f_equal; lia.
Qed.

Lemma div_pow_S i (m : nat) : i / 2 ^ Z.of_nat (S m) = i / 2 / 2 ^ Z.of_nat m.
Proof. rewrite pow_S. pose proof (pow_pos m). by rewrite Z.div_div by lia. Qed.

Lemma climb_pruned f m : forall l i c t, pruned t (full f l i) ->
  pruned (fst (climb_tree m l i c t)) (full f (l + m) (i / 2 ^ Z.of_nat m)).
Proof.
  induction m as [|m IH]; intros l i c t Ht.
  - change (2 ^ Z.of_nat 0) with 1. by rewrite Nat.add_0_r, Z.div_1_r.
  - cbn [climb_tree]. rewrite div_pow_S. replace (l + S m)%nat with (S l + m)%nat by lia. apply IH. rewrite full_parent.
    destruct (Z.odd i); by repeat constructor.
Qed.

Lemma climb_agrees f m : forall l i c t, agrees parent (fst (climb_tree m l i c t)) (full f (l + m) (i / 2 ^ Z.of_nat m)) ->
  agrees parent t (full f l i).
Proof.
  induction m as [|m IH]; intros l i c t.
  - change (2 ^ Z.of_nat 0) with 1. by rewrite Nat.add_0_r, Z.div_1_r.
  - cbn [climb_tree]. rewrite div_pow_S. replace (l + S m)%nat with (S l + m)%nat by lia. intros Ha%IH. rewrite full_parent in Ha.
    destruct (Z.odd i); by inversion Ha.
Qed.

(** The hash of the climb when it reads the honest siblings. *)
Lemma climb_hash f m : forall l i c t, 0 <= i -> (l + m <= 62)%nat -> (forall j, n <= j -> f j = VerifierRoot.zero_piece) ->
  thash parent t = node parent f l i ->
  (forall k : nat, (k < m)%nat -> let j := i / 2 ^ Z.of_nat k in let sibling := if Z.odd j then j - 1 else j + 1 in
     sibling * 2 ^ Z.of_nat (l + k) < n -> ph (snd (climb_tree k l i c t)) = node parent f (l + k) sibling) ->
  thash parent (fst (climb_tree m l i c t)) = node parent f (l + m) (i / 2 ^ Z.of_nat m).
Proof.
  induction m as [|m IH]; intros l i c t Hi Hl Hz Ht Hs.
  - change (2 ^ Z.of_nat 0) with 1. by rewrite Nat.add_0_r, Z.div_1_r.
  - pose proof (Hs O ltac:(lia)) as H0. cbv zeta in H0. change (2 ^ Z.of_nat 0) with 1 in H0. rewrite Z.div_1_r, Nat.add_0_r in H0.
    cbn [climb_tree] in H0 |- *. cbn [snd] in H0. rewrite div_pow_S. replace (l + S m)%nat with (S l + m)%nat by lia.
    set (sibling := if Z.odd i then i - 1 else i + 1) in *.
    assert ((if sibling * 2 ^ Z.of_nat l <? n then ph c else ProofSha256.zero_subtree (2 ^ Z.of_nat l)) = node parent f l sibling) as E.
    { destruct (Z.ltb_spec (sibling * 2 ^ Z.of_nat l) n); [by apply H0|]. apply zero_subtree_node; [lia|]. intros j Hj. apply Hz. lia. }
    apply IH; [apply Z.div_pos; lia|lia|done| |].
    + unfold node. rewrite full_parent. rewrite E. unfold sibling in *. destruct (Z.odd i); cbn [thash]; by rewrite Ht.
    + intros k Hk. cbv zeta. pose proof (Hs (S k) ltac:(lia)) as HS. cbv zeta in HS. rewrite div_pow_S in HS. cbn [climb_tree] in HS.
      replace (l + S k)%nat with (S l + k)%nat in HS by lia. exact HS.
Qed.
End reading.

Section spec.
Context `{H : Sha256} `{B : Blake3}.

(** The pruned tree a proof describes, and the number of hashes it holds. *)
Definition proof_tree (n first past : Z) (covered : list (list Z)) (proof : list Z) : tree (T := list Z) * Z :=
  let '(ws, ww) := proof_window first past (next_power_of_two n) in
  let w := Z.to_nat (Z.log2 ww) in
  climb_tree n proof (depth n - w) w (ws / ww) (ordinal n first past ws (ws + ww))
    (full (window_leaf n first past covered proof ws) w (ws / ww)).

Lemma proof_tree_shape n first past covered proof : 2 <= n -> 0 <= first < past -> past <= n -> n <= 2 ^ 62 ->
  exists (w : nat) a, proof_window first past (2 ^ Z.of_nat (depth n)) = (a * 2 ^ Z.of_nat w, 2 ^ Z.of_nat w) /\
    (1 <= w <= depth n)%nat /\ 0 <= a /\ a * 2 ^ Z.of_nat w <= first /\ past <= (a + 1) * 2 ^ Z.of_nat w /\
    a / 2 ^ Z.of_nat (depth n - w) = 0 /\
    proof_tree n first past covered proof =
      climb_tree n proof (depth n - w) w a (ordinal n first past (a * 2 ^ Z.of_nat w) ((a + 1) * 2 ^ Z.of_nat w))
        (full (window_leaf n first past covered proof (a * 2 ^ Z.of_nat w)) w a).
Proof.
  intros Hn Hr Hp Hmax. destruct (tree_width n Hn Hmax) as (Ew & HK & HK1).
  destruct (window_ok n first past Hn Hr Hp Hmax) as (w & a & E & Hw & Ha & Hf & Hpast). exists w, a. pose proof (pow_pos w).
  split_and!; try done; try lia.
  - apply Z.div_small. split; [done|]. apply (Z.mul_lt_mono_pos_r (2 ^ Z.of_nat w)); [done|]. rewrite <- Z.pow_add_r by lia.
    replace (Z.of_nat (depth n - w) + Z.of_nat w) with (Z.of_nat (depth n)) by lia. lia.
  - unfold proof_tree. rewrite Ew, E. rewrite Z.log2_pow2, Nat2Z.id, Z.div_mul by lia.
    replace (a * 2 ^ Z.of_nat w + 2 ^ Z.of_nat w) with ((a + 1) * 2 ^ Z.of_nat w) by lia. done.
Qed.

(** The verifier accepts a proof of exactly the right length, and computes the
    hash of the tree it describes. *)
Lemma decode_root_spec n first past covered proof : 2 <= n -> 0 <= first < past -> past <= n -> n <= 2 ^ 62 ->
  zlen covered = past - first -> zlen proof <= i64_max ->
  let t := proof_tree n first past covered proof in
  0 <= snd t /\
  decode_root n first past covered proof =
    (if zlen proof =? 32 * snd t then Ok (thash parent (fst t)) else Err MalformedProof).
Proof.
  intros Hn Hr Hp Hmax Hc Hz. cbv zeta. destruct (tree_width n Hn Hmax) as (Ew & HK & HK1).
  destruct (proof_tree_shape n first past covered proof Hn Hr Hp Hmax) as (w & a & E & Hw & Ha & Hf & Hpast & _ & ->).
  set (ws := a * 2 ^ Z.of_nat w) in *. set (t0 := full (window_leaf n first past covered proof ws) w a).
  set (c := ordinal n first past ws ((a + 1) * 2 ^ Z.of_nat w)). pose proof (pow_pos w) as Hpw.
  assert (ws + 2 ^ Z.of_nat w = (a + 1) * 2 ^ Z.of_nat w) as Ewin by (unfold ws; lia).
  assert (c = Z.min (2 ^ Z.of_nat w) (n - ws) - (past - first)) as Ec by (unfold c, ordinal; zcases; lia).
  assert (0 <= c) as Hc0 by lia.
  pose proof (reading_siblings n proof (depth n - w) Hz 64 w a c t0 ltac:(lia) Ha Hc0) as Hsib.
  replace (w + (depth n - w))%nat with (depth n) in Hsib by lia. fold ws in Hsib.
  pose proof (reading_window n first past covered proof ws ws (Z.to_nat (2 ^ Z.of_nat w)) Hz ltac:(lia) ltac:(lia) Hp) as Hwin.
  rewrite Z2Nat.id, Ewin in Hwin by lia. fold c in Hwin.
  assert (ordinal n first past ws ws = 0) as E0 by (unfold ordinal; zcases; lia). rewrite E0 in Hwin.
  assert (reduce (map (window_leaf n first past covered proof ws) (seqZ ws (2 ^ Z.of_nat w))) = thash parent t0) as Ered.
  { unfold reduce. pose proof (reduce_layer parent (window_leaf n first past covered proof ws) w
      (length (map (window_leaf n first past covered proof ws) (seqZ ws (2 ^ Z.of_nat w)))) 0 a) as Hl.
    change (map (node parent (window_leaf n first past covered proof ws) 0)) with (map (window_leaf n first past covered proof ws)) in Hl.
    fold ws in Hl. rewrite Hl; [by rewrite Nat.add_0_r|]. rewrite length_map, length_seqZ.
    assert (Z.of_nat w < 2 ^ Z.of_nat w) by (apply Z.pow_gt_lin_r; lia). lia. }
  rewrite <- Ered in Hsib. pose proof (reading_bind proof _ (fun nodes => read_siblings 64 n (2 ^ Z.of_nat (depth n)) proof ws (2 ^ Z.of_nat w) (reduce nodes))
    _ _ _ _ _ Hwin Hsib) as (Hle & R1 & R2).
  split; [lia|]. unfold decode_root. rewrite (proj2 (Z.eqb_neq n 1)) by lia. rewrite Hc, Z.eqb_refl. cbn [negb].
  rewrite Ew, E. unfold window_capacity. rewrite <- Ec. change (32 * 0) with 0 in R1, R2.
  pose proof (Z.mul_div_le (zlen proof) 32 ltac:(lia)).
  destruct (Z.ltb_spec (zlen proof / 32) c) as [Hshort|Henough].
  - rewrite (proj2 (Z.eqb_neq _ _)); [done|]. intros Heq.
    destruct Hsib as [Hcs _].
    assert (zlen proof / 32 = snd (climb_tree n proof (depth n - w) w a c t0)) by (rewrite Heq, Z.mul_comm; apply Z.div_mul; lia). lia.
  - destruct (Z.le_gt_cases (32 * snd (climb_tree n proof (depth n - w) w a c t0)) (zlen proof)) as [Hfit|Hnofit].
    + rewrite (R1 Hfit). rewrite Z.eqb_sym. destruct (Z.eqb_spec (zlen proof) (32 * snd (climb_tree n proof (depth n - w) w a c t0))); done.
    + destruct (R2 ltac:(pose proof (zlen_nonneg proof); lia)) as [cursor Er]. rewrite Er. by rewrite (proj2 (Z.eqb_neq _ _)) by lia.
Qed.
End spec.
