(* ===== verification/ProofSha256Complete.v ===== *)
(** * SHA-256 range proofs verify

    What the prover writes, hash by hash, and that the verifier accepts it,
    whether the prover has the object, its piece hashes, or the tree over them. *)

From S2P Require Import Prelude Digest HashTree Verifier VerifierRoot ProofSha256 ProofSha256Tree.

Lemma lxor_one i : Z.lxor i 1 = (if Z.odd i then i - 1 else i + 1).
Proof.
  assert (forall j, Z.odd j = false -> Z.lxor j 1 = j + 1) as He.
  { intros j Ho. symmetry. apply Z.add_nocarry_lxor. change 1 with (Z.ones 1). rewrite Z.land_ones by lia. change (2 ^ 1) with 2.
    rewrite Zodd_mod in Ho. apply Z.eqb_neq in Ho. pose proof (Z.mod_pos_bound j 2). lia. }
  destruct (Z.odd i) eqn:Ho; [|by apply He].
  assert (Z.odd (i - 1) = false) as Ho' by (rewrite Z.odd_sub, Ho; done).
  replace i with (Z.lxor (i - 1) 1) at 1 by (rewrite He by done; lia). rewrite Z.lxor_assoc, Z.lxor_nilpotent, Z.lxor_0_r. done.
Qed.

(** ** The proof, hash by hash *)

Section encoding.
Context `{H : Sha256}.
Context (n first past : Z) (h : Z -> Z -> list Z).

Lemma climb_count proof m : forall l i c t, c <= snd (climb_tree n proof m l i c t) <= c + Z.of_nat m.
Proof.
  induction m as [|m IH]; intros l i c t; [simpl; lia|]. cbn [climb_tree].
  match goal with |- context [climb_tree n proof m ?l ?i ?c ?t] => specialize (IH l i c t) end. revert IH. case_match; lia.
Qed.

Lemma window_length ws i (m : nat) : (forall j, zlen (h j 1) = 32) -> ws <= first < past -> past <= n -> ws <= i ->
  zlen (concat (map (fun index => if ((index <? first) || (past <=? index)) && (index <? n) then h index 1 else []) (seqZ i (Z.of_nat m)))) =
  32 * (ordinal n first past ws (i + Z.of_nat m) - ordinal n first past ws i).
Proof.
  intros Hh Hr Hp. revert i. induction m as [|m IH]; intros i Hi; [rewrite Z.add_0_r, Z.sub_diag; done|].
  rewrite (seqZ_cons i) by lia. replace (Z.pred (Z.of_nat (S m))) with (Z.of_nat m) by lia. cbn [map concat].
  rewrite zlen_app, IH by lia. replace (i + Z.of_nat (S m)) with (Z.succ i + Z.of_nat m) by lia.
  assert (zlen (if ((i <? first) || (past <=? i)) && (i <? n) then h i 1 else []) =
    32 * (ordinal n first past ws (Z.succ i) - ordinal n first past ws i)) as ->; [|lia].
  unfold ordinal. destruct (Z.ltb_spec i first), (Z.leb_spec past i), (Z.ltb_spec i n); cbn [orb andb]; rewrite ?Hh;
    change (zlen (@nil Z)) with 0; zcases; lia.
Qed.

Lemma window_slice ws (m : nat) rest i : (forall j, zlen (h j 1) = 32) -> ws <= first < past -> past <= n ->
  ws <= i < ws + Z.of_nat m -> i < n -> ~ (first <= i < past) ->
  ph (concat (map (fun index => if ((index <? first) || (past <=? index)) && (index <? n) then h index 1 else []) (seqZ ws (Z.of_nat m))) ++ rest)
    (ordinal n first past ws i) = h i 1.
Proof.
  intros Hh Hr Hp Hi Hn Hout. replace (Z.of_nat m) with (Z.of_nat (Z.to_nat (i - ws)) + Z.of_nat (m - Z.to_nat (i - ws))) by lia.
  rewrite seqZ_app by lia. rewrite map_app, concat_app. replace (ws + Z.of_nat (Z.to_nat (i - ws))) with i by lia.
  rewrite (seqZ_cons i) by lia. cbn [map concat].
  assert (((i <? first) || (past <=? i)) && (i <? n) = true) as -> by (zcases; try done; lia).
  pose proof (window_length ws ws (Z.to_nat (i - ws)) Hh Hr Hp ltac:(lia)) as Hl.
  replace (ws + Z.of_nat (Z.to_nat (i - ws))) with i in Hl by lia.
  assert (ordinal n first past ws ws = 0) as E0 by (unfold ordinal; zcases; lia). rewrite E0, Z.sub_0_r in Hl.
  unfold ph. rewrite <- Hl, <- (Hh i), <- !app_assoc. apply slice_app_mid.
Qed.

(** The siblings, from the [c]th hash of the proof on. *)
Lemma siblings_slice : (forall s (l : nat), zlen (h s (2 ^ Z.of_nat l)) = 32) ->
  forall m fuel l i c t pre proof, (m <= fuel)%nat -> 0 <= i -> zlen pre = 32 * c ->
  proof = pre ++ encode_siblings fuel n (2 ^ Z.of_nat (l + m)) h (i * 2 ^ Z.of_nat l) (2 ^ Z.of_nat l) ->
  zlen proof = 32 * snd (climb_tree n proof m l i c t) /\
  forall k : nat, (k < m)%nat -> let j := i / 2 ^ Z.of_nat k in let sibling := if Z.odd j then j - 1 else j + 1 in
    sibling * 2 ^ Z.of_nat (l + k) < n ->
    ph proof (snd (climb_tree n proof k l i c t)) = h (sibling * 2 ^ Z.of_nat (l + k)) (2 ^ Z.of_nat (l + k)).
Proof.
  intros Hh. induction m as [|m IH]; intros fuel l i c t pre proof Hf Hi Hpre Hproof.
  - rewrite Nat.add_0_r in Hproof. assert (encode_siblings fuel n (2 ^ Z.of_nat l) h (i * 2 ^ Z.of_nat l) (2 ^ Z.of_nat l) = []) as E.
    { destruct fuel; cbn [encode_siblings]; [done|]. by rewrite Z.eqb_refl. }
    rewrite E, app_nil_r in Hproof. subst. split; [done|]. lia.
  - destruct fuel as [|fuel]; [lia|]. cbn [encode_siblings] in Hproof. pose proof (pow_pos l) as Hpl.
    rewrite (proj2 (Z.eqb_neq _ _)) in Hproof by (pose proof (Z.pow_lt_mono_r 2 (Z.of_nat l) (Z.of_nat (l + S m)) ltac:(lia) ltac:(lia) ltac:(lia)); lia).
    rewrite Z.div_mul, lxor_one in Hproof by lia. set (sibling := if Z.odd i then i - 1 else i + 1) in *.
    pose proof (climb_start i l Hi) as Hst. cbv zeta in Hst. fold sibling in Hst. rewrite Hst in Hproof.
    replace (2 ^ Z.of_nat l * 2) with (2 ^ Z.of_nat (S l)) in Hproof by (rewrite pow_S; lia).
    replace (l + S m)%nat with (S l + m)%nat in Hproof by lia. rewrite app_assoc in Hproof.
    set (here := if sibling * 2 ^ Z.of_nat l <? n then h (sibling * 2 ^ Z.of_nat l) (2 ^ Z.of_nat l) else []) in *.
    set (c' := if sibling * 2 ^ Z.of_nat l <? n then c + 1 else c).
    assert (zlen (pre ++ here) = 32 * c') as Hpre'.
    { rewrite zlen_app, Hpre. unfold here, c'. destruct (_ <? n); [rewrite Hh; lia|change (zlen (@nil Z)) with 0; lia]. }
    cbn [climb_tree]. fold sibling. fold c'.
    match goal with |- context [climb_tree n proof m (S l) (i / 2) c' ?t'] => set (t1 := t') end.
    destruct (IH fuel (S l) (i / 2) c' t1 (pre ++ here) proof ltac:(lia) ltac:(apply Z.div_pos; lia) Hpre' Hproof) as [Hlen Hs].
    split; [done|]. intros [|k] Hk.
    + cbv zeta. change (2 ^ Z.of_nat 0) with 1. rewrite Z.div_1_r, Nat.add_0_r. fold sibling. intros Hlt. cbn [climb_tree snd].
      unfold ph. rewrite Hproof. unfold here. rewrite (proj2 (Z.ltb_lt _ _)) by done.
      rewrite <- Hpre, <- (Hh (sibling * 2 ^ Z.of_nat l) l), <- app_assoc. apply slice_app_mid.
    + cbv zeta. rewrite div_pow_S. replace (l + S k)%nat with (S l + k)%nat by lia. apply Hs. lia.
Qed.
End encoding.

(** ** The honest tree *)

Section honest.
Context `{H : Sha256} `{B : Blake3} `{!Sha256Ok H}.

Lemma padded_base ps : 1 <= zlen ps ->
  resize_to ps (next_power_of_two (Z.max (zlen ps) 1)) ProofSha256.zero_piece = map (leaf_of ps) (seqZ 0 (2 ^ Z.of_nat (depth (zlen ps)))).
Proof using.
  intros Hn. rewrite Z.max_l by lia. destruct (depth_spec (zlen ps) Hn) as [-> Hle]. rewrite zero_pieces_same. by apply resize_padded.
Qed.

(** Every node of the tree the prover keeps is the node of the piece tree. *)
Lemma padded_node ps (l : nat) i : 1 <= zlen ps -> (l <= depth (zlen ps))%nat -> 0 <= i -> i * 2 ^ Z.of_nat l < zlen ps ->
  default [] (padded_piece_tree ps !! Z.to_nat (trailing_zeros (2 ^ Z.of_nat l)) ≫= fun layer => layer !! Z.to_nat (i * 2 ^ Z.of_nat l / 2 ^ Z.of_nat l)) =
  node parent (leaf_of ps) l i.
Proof using.
  intros Hn Hl Hi Hlt. destruct (depth_spec (zlen ps) Hn) as [_ Hle]. pose proof (pow_pos l) as Hpl.
  rewrite trailing_zeros_pow, Nat2Z.id, Z.div_mul by lia. unfold padded_piece_tree. rewrite padded_base by done.
  change (map (leaf_of ps)) with (map (node parent (leaf_of ps) 0)). set (K := depth (zlen ps)) in *.
  replace (seqZ 0 (2 ^ Z.of_nat K)) with (seqZ (0 * 2 ^ Z.of_nat K) (2 ^ Z.of_nat K)) by done.
  rewrite (layers_nodes parent (leaf_of ps) K _ 0 0) by
    (first [lia | rewrite length_map, length_seqZ; assert (Z.of_nat K < 2 ^ Z.of_nat K) by (apply Z.pow_gt_lin_r; lia); lia]).
  cbn [mbind option_bind]. change (map (node parent (leaf_of ps) (0 + l))) with (fmap (node parent (leaf_of ps) (0 + l)) : list Z -> _).
  rewrite list_lookup_fmap, lookup_seqZ_lt.
  - cbn [fmap option_fmap option_map default]. unfold id. rewrite Nat.add_0_l. f_equal. lia.
  - assert (2 ^ Z.of_nat K = 2 ^ Z.of_nat (K - l) * 2 ^ Z.of_nat l) as E by (rewrite <- Z.pow_add_r by lia; f_equal; lia).
    rewrite E in Hle. assert (i < 2 ^ Z.of_nat (K - l)) by nia. lia.
Qed.

Lemma encode_siblings_ext n h h' K : (forall (l : nat) i, (l <= K)%nat -> 0 <= i -> i * 2 ^ Z.of_nat l < n ->
    h (i * 2 ^ Z.of_nat l) (2 ^ Z.of_nat l) = h' (i * 2 ^ Z.of_nat l) (2 ^ Z.of_nat l)) ->
  forall fuel l i, (l <= K)%nat -> 0 <= i ->
  encode_siblings fuel n (2 ^ Z.of_nat K) h (i * 2 ^ Z.of_nat l) (2 ^ Z.of_nat l) =
  encode_siblings fuel n (2 ^ Z.of_nat K) h' (i * 2 ^ Z.of_nat l) (2 ^ Z.of_nat l).
Proof using.
  intros Hh. induction fuel as [|fuel IH]; intros l i Hl Hi; [done|]. cbn [encode_siblings].
  destruct (Z.eqb_spec (2 ^ Z.of_nat l) (2 ^ Z.of_nat K)) as [|Hne]; [done|]. pose proof (pow_pos l).
  rewrite Z.div_mul, lxor_one by lia. pose proof (climb_start i l Hi) as Hst. cbv zeta in Hst. rewrite Hst.
  replace (2 ^ Z.of_nat l * 2) with (2 ^ Z.of_nat (S l)) by (rewrite pow_S; lia).
  assert (l <> K) by (by intros ->). rewrite IH by (first [lia | apply Z.div_pos; lia]). f_equal.
  destruct (Z.ltb_spec ((if Z.odd i then i - 1 else i + 1) * 2 ^ Z.of_nat l) n); [|done]. apply Hh; [lia| |done].
  destruct (Z.odd i) eqn:Ho; [|lia]. assert (i <> 0) by (by intros ->). lia.
Qed.

Lemma encode_proof_ext n first past h h' : 2 <= n -> 0 <= first < past -> past <= n -> n <= 2 ^ 62 ->
  (forall (l : nat) i, (l <= depth n)%nat -> 0 <= i -> i * 2 ^ Z.of_nat l < n ->
    h (i * 2 ^ Z.of_nat l) (2 ^ Z.of_nat l) = h' (i * 2 ^ Z.of_nat l) (2 ^ Z.of_nat l)) ->
  encode_proof_by n first past h = encode_proof_by n first past h'.
Proof using.
  intros Hn Hr Hp Hmax Hh. unfold encode_proof_by. destruct (tree_width n Hn Hmax) as (-> & _ & _).
  destruct (window_ok n first past Hn Hr Hp Hmax) as (w & a & -> & Hw & Ha & _). rewrite (proj2 (Z.leb_gt n 1)) by lia. apply (f_equal2 app).
  - apply (f_equal (@concat Z)), map_ext_in. intros i Hi%list_elem_of_In%elem_of_seqZ. pose proof (pow_pos w).
    destruct (_ && _) eqn:Hb; [|done]. apply andb_true_iff in Hb as [_ Hb%Z.ltb_lt].
    pose proof (Z.mul_nonneg_nonneg a (2 ^ Z.of_nat w) Ha ltac:(lia)). specialize (Hh O i ltac:(lia) ltac:(lia)). change (2 ^ Z.of_nat 0) with 1 in Hh. rewrite Z.mul_1_r in Hh. by apply Hh.
  - apply (encode_siblings_ext n h h' (depth n) Hh); [lia|done].
Qed.

(** The prover's hashes: nodes of the piece tree. *)
Definition node_at (ps : list (list Z)) (start width : Z) : list Z :=
  node parent (leaf_of ps) (Z.to_nat (trailing_zeros width)) (start / width).

Lemma node_at_pow ps i (l : nat) : node_at ps (i * 2 ^ Z.of_nat l) (2 ^ Z.of_nat l) = node parent (leaf_of ps) l i.
Proof using. unfold node_at. pose proof (pow_pos l). by rewrite trailing_zeros_pow, Nat2Z.id, Z.div_mul by lia. Qed.

Lemma encode_from_nodes ps first past : 2 <= zlen ps -> 0 <= first < past -> past <= zlen ps -> zlen ps <= 2 ^ 62 ->
  encode_proof_from (padded_piece_tree ps) (zlen ps) first past = encode_proof_by (zlen ps) first past (node_at ps).
Proof using.
  intros Hn Hr Hp Hmax. apply encode_proof_ext; try done. intros l i Hl Hi Hlt. rewrite node_at_pow. apply padded_node; try done. lia.
Qed.

Lemma zlen_parent a b : zlen (parent a b) = 32.
Proof using Sha256Ok0. apply sha256_hash. Qed.

Lemma zlen_node ps l i : Forall (fun p => zlen p = 32) ps -> zlen (node parent (leaf_of ps) l i) = 32.
Proof using Sha256Ok0.
  intros Hps. destruct l as [|l]; [|apply zlen_parent]. change (zlen (leaf_of ps i) = 32). unfold leaf_of.
  destruct (ps !! Z.to_nat i) as [p|] eqn:Hp; [|rewrite <- zero_pieces_same; apply zlen_parent]. simpl.
  rewrite Forall_forall in Hps. by apply Hps, list_elem_of_lookup_2 with (Z.to_nat i).
Qed.

(** The verifier computes the root of the piece tree from the honest proof. *)
Lemma decode_encoded_proof ps first past : 2 <= zlen ps -> 0 <= first < past -> past <= zlen ps -> zlen ps <= 2 ^ 48 ->
  Forall (fun p => zlen p = 32) ps ->
  decode_root (zlen ps) first past (slice ps first past) (encode_proof ps first past) = Ok (tree_root ps).
Proof using Sha256Ok0.
  intros Hn Hr Hp Hmax Hps. assert (zlen ps <= 2 ^ 62) as Hmax2 by lia. set (n := zlen ps) in *.
  assert (encode_proof ps first past = encode_proof_by n first past (node_at ps)) as ->.
  { unfold encode_proof. fold n. rewrite (proj2 (Z.leb_gt n 1)) by lia. by apply encode_from_nodes. }
  assert (forall s (l : nat), zlen (node_at ps s (2 ^ Z.of_nat l)) = 32) as Hh by (intros; by apply zlen_node).
  destruct (tree_width n Hn Hmax2) as (Ew & HK & HK1). assert (depth n <= 48)%nat as HK48 by (apply depth_le; done).
  set (proof := encode_proof_by n first past (node_at ps)). set (covered := slice ps first past).
  destruct (proof_tree_shape n first past covered proof Hn Hr Hp Hmax2) as (w & a & E & Hw & Ha & Hf & Hpast & Htop & Et).
  set (ws := a * 2 ^ Z.of_nat w) in *. set (c := ordinal n first past ws ((a + 1) * 2 ^ Z.of_nat w)) in *. pose proof (pow_pos w) as Hpw.
  set (t0 := full (window_leaf n first past covered proof ws) w a) in *.
  set (win := concat (map (fun index => if ((index <? first) || (past <=? index)) && (index <? n) then node_at ps index 1 else [])
    (seqZ ws (2 ^ Z.of_nat w)))).
  assert (proof = win ++ encode_siblings 64 n (2 ^ Z.of_nat (w + (depth n - w))) (node_at ps) (a * 2 ^ Z.of_nat w) (2 ^ Z.of_nat w)) as Eproof.
  { unfold proof, encode_proof_by. rewrite (proj2 (Z.leb_gt n 1)) by lia. rewrite Ew, E. by replace (w + (depth n - w))%nat with (depth n) by lia. }
  assert (zlen win = 32 * c) as Hwin.
  { pose proof (window_length n first past (node_at ps) ws ws (Z.to_nat (2 ^ Z.of_nat w)) (fun j => Hh j O) ltac:(lia) Hp ltac:(lia)) as Hl.
    rewrite Z2Nat.id in Hl by lia. unfold win. rewrite Hl. replace (ws + 2 ^ Z.of_nat w) with ((a + 1) * 2 ^ Z.of_nat w) by (unfold ws; lia).
    fold c. assert (ordinal n first past ws ws = 0) as -> by (unfold ordinal; zcases; lia). by rewrite Z.sub_0_r. }
  destruct (siblings_slice n (node_at ps) Hh (depth n - w) 64 w a c t0 win proof ltac:(lia) Ha Hwin Eproof) as [Hlen Hsib].
  pose proof (climb_count n proof (depth n - w) w a c t0) as Hcount.
  assert (c <= 2 ^ Z.of_nat w) as Hcw by (unfold c, ordinal; zcases; lia).
  pose proof (pow_le w 48 ltac:(lia)) as Hw48. change (2 ^ Z.of_nat 48) with (2 ^ 48) in Hw48.
  destruct (decode_root_spec n first past covered proof Hn Hr Hp Hmax2) as [_ Hspec].
  { unfold covered. rewrite zlen_slice; [done|lia|done]. }
  { rewrite Hlen. mlia. }
  rewrite Et in Hspec. rewrite Hspec, Hlen, Z.eqb_refl. f_equal.
  assert (Hleaf : forall j, ws <= j < ws + 2 ^ Z.of_nat w -> window_leaf n first past covered proof ws j = leaf_of ps j).
  { intros j Hj. unfold window_leaf. destruct (Z.leb_spec first j), (Z.ltb_spec j past); cbn [andb].
    1:{ unfold covered, leaf_of, zget, slice, ztake, zdrop. rewrite (proj2 (Z.leb_le 0 _)) by lia. rewrite lookup_take_lt, lookup_drop by lia.
        replace (Z.to_nat first + Z.to_nat (j - first))%nat with (Z.to_nat j) by lia.
        destruct (lookup_lt_is_Some_2 ps (Z.to_nat j)) as [x ->]; [unfold n, zlen in *; lia|done]. }
    all: destruct (Z.ltb_spec j n); [|symmetry; apply leaf_of_past; done].
    all: rewrite Eproof; unfold win; replace (2 ^ Z.of_nat w) with (Z.of_nat (Z.to_nat (2 ^ Z.of_nat w))) by lia.
    all: rewrite (window_slice n first past (node_at ps) ws) by (first [exact (fun j => Hh j O) | lia]).
    all: pose proof (node_at_pow ps j 0) as En; change (2 ^ Z.of_nat 0) with 1 in En; rewrite Z.mul_1_r in En; by rewrite En. }
  rewrite (climb_hash n proof (leaf_of ps) (depth n - w) w a c t0 Ha ltac:(lia)).
  - rewrite Htop. unfold tree_root. fold n. do 2 f_equal. lia.
  - intros j Hj. by apply leaf_of_past.
  - apply (node_ext parent). intros j Hj. apply Hleaf. unfold ws. lia.
  - intros k Hk. cbv zeta. intros Hlt. rewrite (Hsib k Hk Hlt). apply node_at_pow.
Qed.
End honest.
