(* ===== verification/ProofSha256Range.v ===== *)
(** * SHA-256 range proofs prove ranges

    A range proved from an object, or from the hashes of its pieces, verifies
    against its root; and where no two different inputs hashed share a digest,
    the bytes that verify are the object's. *)

From S2P Require Import Prelude Digest HashTree Verifier VerifierRoot ProofSha256 ProofSha256Tree ProofSha256Complete.

Section range.
Context `{H : Sha256} `{B : Blake3}.

(** ** The cover of a range *)

(** Whole pieces, or up to the end of the object. *)
Definition is_cover (L first e : Z) : Prop := 0 <= first /\ first * PIECE_SIZE < e /\ e <= L /\ (e = L \/ e mod PIECE_SIZE = 0).

Lemma geometry_ok L off len : L <= i64_max -> 0 <= off -> 0 < len -> off + len <= L ->
  exists first e, geometry_of L off len = Ok (mkGeometry (first * PIECE_SIZE) e first (div_ceil e PIECE_SIZE)) /\
    is_cover L first e /\ first * PIECE_SIZE <= off /\ off + len <= e.
Proof.
  intros HL Ho Hl Hend. exists (off / PIECE_SIZE), (Z.min (div_ceil (off + len) PIECE_SIZE * PIECE_SIZE) L).
  pose proof (div_ceil_spec (off + len) PIECE_SIZE ltac:(done)) as Hd. pose proof (Z.mul_div_le off PIECE_SIZE ltac:(done)).
  pose proof (Z.mul_succ_div_gt off PIECE_SIZE ltac:(done)). pose proof (Z.div_pos off PIECE_SIZE ltac:(lia) ltac:(done)).
  unfold geometry_of. rewrite (proj2 (Z.eqb_neq len 0)) by lia.
  assert (checked_add off len = Some (off + len)) as -> by (apply checked_add_Some; split; [done|mlia]). cbn [ok_or].
  rewrite (proj2 (Z.ltb_ge L _)) by lia. unfold checked_mul. rewrite (proj2 (Z.leb_le (_ * _) u64_max)) by (unfold PIECE_SIZE in *; mlia).
  cbn [ok_or]. rewrite Z.div_mul by done. split; [done|]. split; [|lia]. split_and!; try lia.
  destruct (Z.le_gt_cases L (div_ceil (off + len) PIECE_SIZE * PIECE_SIZE)); [left; lia|right].
  rewrite Z.min_l by lia. by apply Z.mod_mul.
Qed.

Lemma check_cover_ok L first e : L <= i64_max -> is_cover L first e ->
  check_cover L (first * PIECE_SIZE) (e - first * PIECE_SIZE) = Ok (first, div_ceil e PIECE_SIZE).
Proof.
  intros HL (Hf & Hlt & He & Hend). unfold check_cover, is_multiple_of. rewrite Z.mod_mul by done. cbn [Z.eqb negb orb].
  rewrite (proj2 (Z.eqb_neq _ 0)) by lia.
  assert (checked_add (first * PIECE_SIZE) (e - first * PIECE_SIZE) = Some e) as -> by (apply checked_add_Some; unfold PIECE_SIZE in *; split; [lia|mlia]).
  cbn [ok_or]. rewrite (proj2 (Z.ltb_ge L e)) by lia. rewrite Z.div_mul by done. cbn [orb].
  destruct Hend as [->| ->]; [rewrite Z.ltb_irrefl; done|]. by rewrite andb_false_r.
Qed.

Lemma check_cover_inv L off len first past : check_cover L off len = Ok (first, past) -> 0 <= off -> 0 <= len ->
  off = first * PIECE_SIZE /\ is_cover L first (off + len) /\ past = div_ceil (off + len) PIECE_SIZE.
Proof.
  intros Hc Ho Hl. unfold check_cover, is_multiple_of in Hc. destruct (Z.eqb_spec (off mod PIECE_SIZE) 0) as [Hm|]; [|done].
  destruct (Z.eqb_spec len 0); [done|]. cbn [negb orb] in Hc.
  destruct (checked_add off len) as [e|] eqn:Ea; [|done]. apply checked_add_Some in Ea as [-> _]. cbn [ok_or] in Hc.
  destruct (Z.ltb_spec L (off + len)); [done|]. cbn [orb] in Hc. assert (off = off / PIECE_SIZE * PIECE_SIZE) as E.
  { rewrite (Z.div_mod off PIECE_SIZE) at 1 by done. lia. }
  destruct ((off + len <? L) && _) eqn:Eb; [done|]. injection Hc as <- <-. split; [done|]. split; [|done].
  split; [by apply Z.div_pos|]. split; [lia|]. split; [done|]. apply andb_false_iff in Eb as [Eb|Eb]; [left; lia|right].
  by apply negb_false_iff, Z.eqb_eq in Eb.
Qed.

(** The pieces of a cover are the object's pieces it covers. *)
Lemma cover_pieces data first e : is_cover (zlen data) first e ->
  map piece_hash (chunks PIECE_SIZE (slice data (first * PIECE_SIZE) e)) = slice (pieces data) first (div_ceil e PIECE_SIZE).
Proof.
  intros (Hf & Hlt & He & Hend). rewrite chunks_slice by done. unfold slice, ztake, zdrop, pieces.
  rewrite <- firstn_map, <- skipn_map. done.
Qed.

Lemma cover_range data first e : is_cover (zlen data) first e ->
  0 <= first < div_ceil e PIECE_SIZE /\ div_ceil e PIECE_SIZE <= zlen (pieces data) /\ zlen (pieces data) = div_ceil (zlen data) PIECE_SIZE.
Proof.
  intros (Hf & Hlt & He & _). pose proof (div_ceil_spec e PIECE_SIZE ltac:(done)). pose proof (div_ceil_spec (zlen data) PIECE_SIZE ltac:(done)).
  assert (zlen (pieces data) = div_ceil (zlen data) PIECE_SIZE) as Hz.
  { unfold pieces. unfold zlen at 1. rewrite length_map. by apply (zlen_chunks GROUP_SIZE). }
  unfold PIECE_SIZE in *. split_and!; try lia.
Qed.

Lemma root_is data : zlen data <= i64_max -> ProofSha256.root data = bep52_root data.
Proof. intros Hd. unfold ProofSha256.root. by rewrite root_ok. Qed.

Lemma root_pieces data : PIECE_SIZE < zlen data <= i64_max -> ProofSha256.root data = tree_root (pieces data).
Proof.
  intros [Hgt Hmax]. rewrite root_is by done. unfold bep52_root. rewrite bool_decide_eq_false_2 by (intros ->; by vm_compute in Hgt).
  by rewrite (proj2 (Z.leb_gt (zlen data) GROUP_SIZE)).
Qed.

(** ** Completeness *)

Fixpoint push_all (ps : list (list Z)) : M PieceHashes Error unit :=
  match ps with [] => ret tt | p :: ps => push p ;! push_all ps end.

Lemma pieces_chunks data : pieces data = map piece_hash (chunks PIECE_SIZE data).
Proof. reflexivity. Qed.

Lemma push_ok piece hs len : 0 < zlen piece <= PIECE_SIZE ->
  push piece (mkPieceHashes hs len false []) =
    (Ok tt, mkPieceHashes (hs ++ [piece_hash piece]) (len + zlen piece) (zlen piece <? PIECE_SIZE) []).
Proof.
  intros Hp. unfold push. rewrite bool_decide_eq_false_2 by (intros ->; change (zlen (@nil Z)) with 0 in Hp; lia).
  by rewrite (proj2 (Z.ltb_ge PIECE_SIZE _)) by lia.
Qed.

Lemma push_all_cons p ps : push_all (p :: ps) = (push p ;! push_all ps).
Proof. done. Qed.

Lemma push_all_ok data : forall hs len, exists en,
  push_all (chunks PIECE_SIZE data) (mkPieceHashes hs len false []) = (Ok tt, mkPieceHashes (hs ++ pieces data) (len + zlen data) en []).
Proof.
  remember (length data) as k eqn:Hk. revert data Hk. induction (lt_wf k) as [k _ IH]. intros data -> hs len.
  rewrite pieces_chunks. destruct (decide (data = [])) as [->|Hne].
  { exists false. change (zlen (@nil Z)) with 0. rewrite chunks_nil. cbn [map push_all]. unfold ret. by rewrite app_nil_r, Z.add_0_r. }
  rewrite chunks_step, map_cons, push_all_cons by done.
  assert (0 < zlen data) as Hpos by (destruct data; [done|]; rewrite zlen_cons; pose proof (zlen_nonneg data); lia).
  assert (zlen (ztake PIECE_SIZE data) = Z.min PIECE_SIZE (zlen data)) as Hz.
  { destruct (Z.le_gt_cases PIECE_SIZE (zlen data)); [rewrite zlen_ztake|rewrite ztake_all]; unfold PIECE_SIZE in *; lia. }
  erewrite bind_ok by (apply push_ok; rewrite Hz; unfold PIECE_SIZE; lia). rewrite Hz.
  destruct (Z.ltb_spec (Z.min PIECE_SIZE (zlen data)) PIECE_SIZE) as [Hs|Hs].
  - exists true. assert (zdrop PIECE_SIZE data = []) as ->. { generalize dependent PIECE_SIZE. intros. unfold zdrop. apply drop_ge. unfold zlen in *. lia. }
    rewrite ztake_all, Z.min_r by lia. rewrite chunks_nil. reflexivity.
  - destruct (IH (length (zdrop PIECE_SIZE data))) with (data := zdrop PIECE_SIZE data) (hs := hs ++ [piece_hash (ztake PIECE_SIZE data)]) (len := len + PIECE_SIZE) as [en E].
    { assert (0 < PIECE_SIZE) by done. generalize dependent PIECE_SIZE. intros. unfold zdrop. rewrite length_drop. unfold zlen in *. lia. } { done. }
    exists en. rewrite Z.min_l by lia. rewrite E, pieces_chunks. rewrite zlen_zdrop by (unfold PIECE_SIZE in *; lia). rewrite <- app_assoc.
    replace (len + PIECE_SIZE + (zlen data - PIECE_SIZE)) with (len + zlen data) by lia. reflexivity.
Qed.

Lemma encode_single first past : forall ps, zlen ps <= 1 -> encode_proof ps first past = [].
Proof. intros ps Hz. unfold encode_proof. by rewrite (proj2 (Z.leb_le _ 1)). Qed.

Lemma zlen_pieces data : zlen (pieces data) = div_ceil (zlen data) PIECE_SIZE.
Proof. unfold pieces. unfold zlen at 1. rewrite length_map. by apply (zlen_chunks GROUP_SIZE). Qed.

Lemma encode_sealed ps first past : encode_proof_from (padded_piece_tree ps) (zlen ps) first past = encode_proof ps first past.
Proof.
  unfold encode_proof. destruct (Z.leb_spec (zlen ps) 1) as [Hle|]; [|done]. unfold encode_proof_from, encode_proof_by.
  by rewrite (proj2 (Z.leb_le _ 1)).
Qed.

Lemma encode_layer data first past : encode_proof (piece_layer data) first past = encode_proof (pieces data) first past.
Proof.
  unfold piece_layer. destruct (bool_decide_reflect (data = [])) as [->|]; [done|]. destruct (Z.leb_spec (zlen data) PIECE_SIZE); [|done].
  rewrite !encode_single; [done| |done]. rewrite zlen_pieces. pose proof (div_ceil_spec (zlen data) PIECE_SIZE ltac:(done)).
  unfold PIECE_SIZE in *. lia.
Qed.

Context `{HO : !Sha256Ok H}.

Lemma piece_hash_node p : zlen p <= PIECE_SIZE -> piece_hash p = node parent (padded ZERO_HASH (leaf_hashes p)) 2 0.
Proof using.
  intros Hp. unfold piece_hash, reduce. change 4 with (2 ^ Z.of_nat 2). apply reduce_padded. unfold leaf_hashes. unfold zlen at 1. rewrite length_map.
  fold (zlen (chunks SHA256_LEAF_SIZE p)). rewrite zlen_chunks by done. change (2 ^ Z.of_nat 2) with 4.
  pose proof (div_ceil_spec (zlen p) SHA256_LEAF_SIZE ltac:(done)). unfold PIECE_SIZE, SHA256_LEAF_SIZE in *. lia.
Qed.

Lemma pieces_hashes data : Forall (fun h => zlen h = 32) (pieces data).
Proof using HO.
  apply Forall_forall. intros h Hh. apply list_elem_of_In, in_map_iff in Hh as (p & <- & Hp%list_elem_of_In).
  apply chunk_bounds in Hp; [|done]. rewrite piece_hash_node by apply Hp. apply zlen_parent.
Qed.

Lemma verify_honest data first e : zlen data <= i64_max -> is_cover (zlen data) first e ->
  verify (ProofSha256.root data) (zlen data) (first * PIECE_SIZE) (slice data (first * PIECE_SIZE) e)
    (encode_proof (pieces data) first (div_ceil e PIECE_SIZE)) = Ok tt.
Proof using HO.
  intros Hmax Hc. pose proof Hc as (Hf & Hlt & He & Hend). destruct (cover_range data first e Hc) as (Hr & Hp & Hz).
  unfold verify. rewrite zlen_slice by (unfold PIECE_SIZE in *; lia). rewrite check_cover_ok by done. cbn beta iota.
  unfold verify_hashes. rewrite <- Hz. pose proof (div_ceil_spec (zlen data) PIECE_SIZE ltac:(done)) as Hd.
  destruct (Z.leb_spec (zlen data) PIECE_SIZE) as [Hle|Hgt].
  - assert (first = 0) as -> by (unfold PIECE_SIZE in *; lia). assert (e = zlen data) as ->.
    { destruct Hend as [->|Hm]; [done|]. apply Z.mod_divide in Hm as [q ->]; [|done]. unfold PIECE_SIZE in *. lia. }
    assert (div_ceil (zlen data) PIECE_SIZE = 1) as Hone by (unfold PIECE_SIZE in *; lia). rewrite Z.mul_0_l, slice_all by done.
    rewrite encode_single by lia. rewrite Hz, Hone. change (decode_root 1 0 1 [ProofSha256.root data] []) with (@Ok _ Error (ProofSha256.root data)). cbn beta iota. by rewrite bool_decide_eq_true_2.
  - rewrite cover_pieces by done. rewrite decode_encoded_proof.
    + rewrite root_pieces by done. by rewrite bool_decide_eq_true_2.
    + rewrite Hz. unfold PIECE_SIZE in *. lia.
    + done.
    + done.
    + rewrite Hz. unfold PIECE_SIZE in *. mlia.
    + apply pieces_hashes.
Qed.

(** C9: SHA-256 range proofs are complete.  Any range of an object below 2^63 bytes can be proved: the prover returns the
    bytes of a cover that contains the range, the object's own, with a proof that verifies against the object's root and
    length; and proving from the hashes of its pieces, pushed one by one, sealed into a tree or not, gives the same cover
    and the same proof. *)
Theorem range_proof_verifies data offset len : zlen data <= i64_max -> 0 <= offset -> 0 < len -> offset + len <= zlen data ->
  exists rp, prove data offset len = Ok rp /\
    rp_covered_offset rp <= offset /\ offset + len <= rp_covered_offset rp + zlen (rp_data rp) /\
    rp_data rp = slice data (rp_covered_offset rp) (rp_covered_offset rp + zlen (rp_data rp)) /\
    verify (ProofSha256.root data) (zlen data) (rp_covered_offset rp) (rp_data rp) (rp_proof rp) = Ok tt /\
    exists st, push_all (chunks PIECE_SIZE data) piece_hashes_new = (Ok tt, st) /\
      prove_with st offset len = Ok (mkRangeCover (rp_covered_offset rp) (zlen (rp_data rp)) (rp_proof rp)) /\
      prove_with (seal st) offset len = prove_with st offset len.
Proof using HO.
  intros Hmax Ho Hl Hend. destruct (geometry_ok (zlen data) offset len Hmax Ho Hl Hend) as (first & e & Hg & Hc & Hlo & Hhi).
  pose proof Hc as (Hf & Hlt & He & _). assert (zlen (slice data (first * PIECE_SIZE) e) = e - first * PIECE_SIZE) as Hz.
  { apply zlen_slice; [unfold PIECE_SIZE in *; lia|done]. }
  eexists. unfold prove. rewrite Hg. split; [reflexivity|]. cbn [rp_covered_offset rp_data rp_proof g_offset g_end g_first g_past].
  rewrite Hz, encode_layer. split; [done|]. split; [lia|]. split; [f_equal; lia|]. split; [by apply verify_honest|].
  destruct (push_all_ok data [] 0) as [en Hp]. eexists. split; [exact Hp|]. unfold prove_with, seal, sealed. cbn [length_ hashes layers].
  rewrite Z.add_0_l, Hg, app_nil_l. cbn [g_offset g_end g_first g_past]. split; [done|]. rewrite encode_sealed. by destruct (negb _).
Qed.

(** ** Soundness *)

(** What computing the hash of a tree hashes. *)
Definition tree_inputs (t : tree (T := list Z)) : list (list Z) := map (fun p => p.1 ++ p.2) (tpairs parent t).

Fixpoint tips (P : list Z -> Prop) (t : tree (T := list Z)) : Prop :=
  match t with Tip h => P h | Bin l r => tips P l /\ tips P r end.

Definition short (h : list Z) : Prop := zlen h <= 32.
Definition whole (h : list Z) : Prop := zlen h = 32.

Lemma tips_pairs (P : list Z -> Prop) t : (forall a b, P (parent a b)) -> tips P t -> P (thash parent t) /\
  forall a b, (a, b) ∈ tpairs parent t -> P a /\ P b.
Proof using.
  intros HP. induction t as [h|l IHl r IHr]; cbn [tips thash tpairs]; intros Ht.
  - split; [done|]. intros a b Hab. by apply elem_of_nil in Hab.
  - destruct Ht as [Hl Hr]. destruct (IHl Hl) as [Hl1 Hl2], (IHr Hr) as [Hr1 Hr2]. split; [apply HP|]. intros a b Hab.
    apply elem_of_cons in Hab as [[= -> ->]|[Hab|Hab]%elem_of_app]; auto.
Qed.

Lemma inputs_apart t u : tips short t -> tips whole u -> no_collision (tree_inputs t) (tree_inputs u) ->
  pairs_apart parent (tpairs parent t) (tpairs parent u).
Proof using HO.
  intros Ht Hu Hn a b c d Hab Hcd E.
  destruct (proj2 (tips_pairs short t ltac:(intros; unfold short; rewrite zlen_parent; lia) Ht) a b Hab) as [Ha Hb].
  destruct (proj2 (tips_pairs whole u ltac:(intros; unfold whole; apply zlen_parent) Hu) c d Hcd) as [Hc Hd].
  apply Hn in E.
  - pose proof (f_equal zlen E) as El. rewrite !zlen_app in El. unfold short, whole in *.
    apply app_inj_1 in E; [done|]. unfold zlen in *. lia.
  - apply list_elem_of_In. apply (in_map (fun p : list Z * list Z => p.1 ++ p.2) _ (a, b)). by apply list_elem_of_In.
  - apply list_elem_of_In. apply (in_map (fun p : list Z * list Z => p.1 ++ p.2) _ (c, d)). by apply list_elem_of_In.
Qed.

Lemma full_tips (P : list Z -> Prop) f : (forall i, P (f i)) -> forall k i, tips P (full f k i).
Proof using. intros Hf k. induction k; intros i; cbn [full tips]; auto. Qed.

(** What hashing a group of up to [2 ^ k] leaves hashes. *)
Definition leaf_tree (k : nat) (p : list Z) : tree := full (padded ZERO_HASH (leaf_hashes p)) k 0.
Definition leaf_inputs (k : nat) (p : list Z) : list (list Z) := chunks SHA256_LEAF_SIZE p ++ tree_inputs (leaf_tree k p).

Lemma leaf_tips k p : tips whole (leaf_tree k p).
Proof using HO.
  apply full_tips. intros i. unfold padded. destruct (leaf_hashes p !! Z.to_nat i) as [h|] eqn:E; [|done]. cbn.
  unfold leaf_hashes in E. change (map sha256) with (fmap sha256 : list (list Z) -> _) in E. rewrite list_lookup_fmap in E.
  destruct (_ !! _); [|done]. injection E as <-. apply sha256_hash.
Qed.

Lemma tips_mono (P Q : list Z -> Prop) t : (forall h, P h -> Q h) -> tips P t -> tips Q t.
Proof using. intros HPQ. induction t; cbn [tips]; [auto|]. intros [??]. auto. Qed.

Lemma whole_short h : whole h -> short h.
Proof using. unfold whole, short. lia. Qed.

(** A group is determined by its root. *)
Lemma leaf_tree_inj k p q : zlen p = zlen q -> zlen p <= SHA256_LEAF_SIZE * 2 ^ Z.of_nat k -> no_collision (leaf_inputs k p) (leaf_inputs k q) ->
  thash parent (leaf_tree k p) = thash parent (leaf_tree k q) -> p = q.
Proof using HO.
  intros Hz Hk Hn E. assert (0 < SHA256_LEAF_SIZE) as HL by done.
  assert (agrees parent (leaf_tree k p) (leaf_tree k q)) as Ha.
  { apply pruned_agrees; [apply full_pruned| |done]. apply inputs_apart; [eapply tips_mono; [apply whole_short|apply leaf_tips]|apply leaf_tips|].
    eapply no_collision_mono; [| |exact Hn]; intros x Hx; apply elem_of_app; by right. }
  pose proof (full_agrees parent _ _ k 0 Ha) as Hleaf. rewrite <- (concat_chunks SHA256_LEAF_SIZE HL p), <- (concat_chunks SHA256_LEAF_SIZE HL q). f_equal.
  pose proof (zlen_chunks SHA256_LEAF_SIZE HL p) as Hp. pose proof (zlen_chunks SHA256_LEAF_SIZE HL q) as Hq.
  pose proof (div_ceil_spec (zlen p) SHA256_LEAF_SIZE HL) as Hd. rewrite <- Hz in Hq.
  apply list_eq_same_length with (n := length (chunks SHA256_LEAF_SIZE p)); [unfold zlen in *; lia|done|].
  intros i x y Hi Hx Hy. apply Hn; [apply elem_of_app; left; by eapply list_elem_of_lookup_2..|].
  specialize (Hleaf (Z.of_nat i)). unfold padded, leaf_hashes in Hleaf. change (map sha256) with (fmap sha256 : list (list Z) -> _) in Hleaf.
  rewrite Nat2Z.id, !list_lookup_fmap, Hx, Hy in Hleaf. apply Hleaf. split; [lia|]. rewrite Z.add_0_l, Z.mul_1_l.
  assert (div_ceil (zlen p) SHA256_LEAF_SIZE <= 2 ^ Z.of_nat k) by nia. unfold zlen in *. lia.
Qed.

Lemma zlen_zero_piece : zlen VerifierRoot.zero_piece = 32.
Proof using HO. unfold VerifierRoot.zero_piece. rewrite piece_hash_node by done. apply zlen_parent. Qed.

Lemma zero_subtree_short (l : nat) : (l <= 62)%nat -> short (ProofSha256.zero_subtree (2 ^ Z.of_nat l)).
Proof using HO.
  intros Hl. rewrite (zero_subtree_node (fun _ => VerifierRoot.zero_piece) l 0) by done. unfold short, node.
  destruct l; cbn [full thash]; [rewrite zlen_zero_piece|rewrite zlen_parent]; lia.
Qed.

Lemma leaf_of_whole ps : Forall whole ps -> forall i, whole (leaf_of ps i).
Proof using HO.
  intros Hps i. unfold leaf_of. destruct (ps !! _) as [h|] eqn:E; [|apply zlen_zero_piece]. by eapply Forall_lookup_1 in Hps.
Qed.

Lemma ph_short proof c : short (ph proof c).
Proof using. unfold ph, short, slice, ztake, zlen. rewrite length_take. lia. Qed.

Lemma window_leaf_short n first past covered proof ws i : Forall short covered -> short (window_leaf n first past covered proof ws i).
Proof using HO.
  intros Hc. unfold window_leaf. case_match; [|case_match; [apply ph_short|unfold short; rewrite zlen_zero_piece; lia]].
  unfold zget. case_match; [|by vm_compute]. destruct (covered !! _) as [h|] eqn:E; [|by vm_compute]. by eapply Forall_lookup_1 in Hc.
Qed.

Lemma climb_short n proof m : forall l i c t, (l + m <= 62)%nat -> tips short t -> tips short (fst (climb_tree n proof m l i c t)).
Proof using HO.
  induction m as [|m IH]; intros l i c t Hl Ht; [done|]. cbn [climb_tree]. apply IH; [lia|].
  assert (short (if (if Z.odd i then i - 1 else i + 1) * 2 ^ Z.of_nat l <? n then ph proof c else ProofSha256.zero_subtree (2 ^ Z.of_nat l))) as Hs.
  { case_match; [apply ph_short|apply zero_subtree_short; lia]. }
  destruct (Z.odd i); by split.
Qed.

(** The hashes of a verified range are the tree's. *)
Lemma decode_root_sound ps first past covered proof : 2 <= zlen ps <= 2 ^ 62 -> 0 <= first < past -> past <= zlen ps ->
  zlen proof <= i64_max -> Forall whole ps -> Forall short covered ->
  no_collision (tree_inputs (fst (proof_tree (zlen ps) first past covered proof))) (tree_inputs (full (leaf_of ps) (depth (zlen ps)) 0)) ->
  decode_root (zlen ps) first past covered proof = Ok (tree_root ps) -> covered = slice ps first past.
Proof using HO.
  intros [Hn Hmax] Hr Hp Hproof Hps Hcov Hnc Hd. set (n := zlen ps) in *.
  assert (zlen covered = past - first) as Hz.
  { unfold decode_root in Hd. rewrite (proj2 (Z.eqb_neq n 1)) in Hd by lia. by destruct (Z.eqb_spec (zlen covered) (past - first)). }
  destruct (decode_root_spec n first past covered proof Hn Hr Hp Hmax Hz Hproof) as [_ Hs]. rewrite Hs in Hd.
  destruct (_ =? _); [|done]. injection Hd as Hd.
  destruct (proof_tree_shape n first past covered proof Hn Hr Hp Hmax) as (w & a & _ & Hw & Ha & Hf & Hpast & Htop & Et). rewrite Et in *.
  destruct (tree_width n Hn Hmax) as (_ & _ & HK).
  match type of Hd with thash _ (fst (climb_tree _ _ _ _ _ ?c ?t)) = _ =>
    pose proof (climb_pruned n proof (leaf_of ps) (depth n - w) w a c t (full_pruned _ _ w a)) as Hpr end.
  rewrite Htop in Hpr. replace (w + (depth n - w))%nat with (depth n) in Hpr by lia.
  apply (pruned_agrees parent) in Hpr; [| |exact Hd].
  - rewrite <- Htop in Hpr. replace (depth n) with (w + (depth n - w))%nat in Hpr at 2 by lia. apply climb_agrees in Hpr.
    pose proof (full_agrees parent _ _ w a Hpr) as Hleaf.
    apply list_eq_same_length with (n := Z.to_nat (past - first)).
    { pose proof (zlen_slice first past ps ltac:(lia) Hp) as Hl. unfold zlen in *. lia. } { unfold zlen in *. lia. }
    intros i x y Hi Hx Hy. apply slice_lookup_Some in Hy as [_ Hy]. specialize (Hleaf (first + Z.of_nat i) ltac:(lia)).
    unfold window_leaf in Hleaf. rewrite (proj2 (Z.leb_le first _)), (proj2 (Z.ltb_lt _ past)) in Hleaf by lia. cbn [andb] in Hleaf.
    unfold zget, leaf_of in Hleaf. rewrite (proj2 (Z.leb_le 0 _)) in Hleaf by lia.
    replace (Z.to_nat (first + Z.of_nat i - first)) with i in Hleaf by lia.
    replace (Z.to_nat (first + Z.of_nat i)) with (Z.to_nat first + i)%nat in Hleaf by lia. rewrite Hx, Hy in Hleaf. done.
  - apply inputs_apart; [|apply full_tips; by apply leaf_of_whole|done].
    apply climb_short; [lia|]. apply full_tips. intros i. by apply window_leaf_short.
Qed.

(** The depth of the tree over the leaves of a single group. *)
Definition leaf_depth (len : Z) : nat := depth (div_ceil len SHA256_LEAF_SIZE).

Lemma zlen_leaf_hashes p : zlen (leaf_hashes p) = div_ceil (zlen p) SHA256_LEAF_SIZE.
Proof using. unfold leaf_hashes. unfold zlen at 1. rewrite length_map. by apply (zlen_chunks SHA256_LEAF_SIZE). Qed.

Lemma single_root_tree p : p <> [] -> single_group_root p = thash parent (leaf_tree (leaf_depth (zlen p)) p) /\
  zlen p <= SHA256_LEAF_SIZE * 2 ^ Z.of_nat (leaf_depth (zlen p)).
Proof using.
  intros Hne. assert (0 < zlen p) by (destruct p; [done|]; rewrite zlen_cons; pose proof (zlen_nonneg p); lia).
  pose proof (div_ceil_spec (zlen p) SHA256_LEAF_SIZE ltac:(done)).
  destruct (depth_spec (div_ceil (zlen p) SHA256_LEAF_SIZE)) as [E Hle]; [unfold SHA256_LEAF_SIZE in *; lia|].
  split; [|unfold leaf_depth, SHA256_LEAF_SIZE in *; lia]. unfold single_group_root, reduce. rewrite zlen_leaf_hashes, E.
  apply reduce_padded. by rewrite zlen_leaf_hashes.
Qed.

(** What computing an object's root hashes. *)
Definition object_inputs (data : list Z) : list (list Z) :=
  if zlen data <=? PIECE_SIZE then leaf_inputs (leaf_depth (zlen data)) data
  else concat (map (leaf_inputs 2) (chunks PIECE_SIZE data)) ++ tree_inputs (full (leaf_of (pieces data)) (depth (zlen (pieces data))) 0).

(** What verifying hashes of pieces hashes, and verifying bytes. *)
Definition hashes_inputs (L offset len : Z) (hs : list (list Z)) (proof : list Z) : list (list Z) :=
  tree_inputs (fst (proof_tree (div_ceil L PIECE_SIZE) (offset / PIECE_SIZE) (div_ceil (offset + len) PIECE_SIZE) hs proof)).
Definition verify_inputs (L offset : Z) (d proof : list Z) : list (list Z) :=
  if L <=? PIECE_SIZE then leaf_inputs (leaf_depth L) d
  else concat (map (leaf_inputs 2) (chunks PIECE_SIZE d)) ++ hashes_inputs L offset (zlen d) (map piece_hash (chunks PIECE_SIZE d)) proof.

Lemma hashes_inputs_part L offset d proof ys : PIECE_SIZE < L -> no_collision (verify_inputs L offset d proof) ys ->
  no_collision (hashes_inputs L offset (zlen d) (map piece_hash (chunks PIECE_SIZE d)) proof) ys.
Proof using.
  intros HL Hn. unfold verify_inputs in Hn. rewrite (proj2 (Z.leb_gt L PIECE_SIZE)) in Hn by done.
  eapply no_collision_mono; [| |exact Hn]; intros x Hx; [apply elem_of_app; by right|done].
Qed.

Lemma verify_hashes_sound data first e hs proof : PIECE_SIZE < zlen data <= i64_max -> is_cover (zlen data) first e -> zlen proof <= i64_max ->
  Forall short hs ->
  no_collision (tree_inputs (fst (proof_tree (zlen (pieces data)) first (div_ceil e PIECE_SIZE) hs proof)))
    (tree_inputs (full (leaf_of (pieces data)) (depth (zlen (pieces data))) 0)) ->
  verify_hashes (ProofSha256.root data) (zlen data) first (div_ceil e PIECE_SIZE) hs proof = Ok tt ->
  hs = slice (pieces data) first (div_ceil e PIECE_SIZE).
Proof using HO.
  intros Hd Hc Hp Hs Hn Hv. destruct (cover_range data first e Hc) as (Hr & Hpast & Hz). unfold verify_hashes in Hv. rewrite <- Hz in Hv.
  destruct (decode_root _ _ _ _ _) as [r|] eqn:E; [|done]. destruct (bool_decide_reflect (r = ProofSha256.root data)) as [->|]; [|done].
  rewrite root_pieces in E by done. pose proof (div_ceil_spec (zlen data) PIECE_SIZE ltac:(done)).
  eapply decode_root_sound; [..|exact Hn|exact E]; try done; [|apply pieces_hashes].
  rewrite Hz. unfold PIECE_SIZE in *. mlia.
Qed.

(** Piece hashes that verify are the object's.  Given a proof for the hashes of pieces, verified against an object's
    root and length, and no two different inputs hashed in verifying and in computing the root that share a digest, the
    hashes are those of the pieces of the object they are said to cover. *)
Theorem verified_hashes_are_the_objects data offset len hs proof : zlen data <= i64_max -> zlen proof <= i64_max -> 0 <= offset -> 0 <= len ->
  Forall (fun h => zlen h = 32) hs ->
  no_collision (hashes_inputs (zlen data) offset len hs proof) (object_inputs data) ->
  verify_piece_hashes (ProofSha256.root data) (zlen data) offset len hs proof = Ok tt ->
  hs = map piece_hash (chunks PIECE_SIZE (slice data offset (offset + len))).
Proof using HO.
  intros Hmax Hp Ho Hl Hh Hn Hv. unfold verify_piece_hashes in Hv. destruct (check_cover _ _ _) as [[first past]|] eqn:Ec; [|done].
  apply check_cover_inv in Ec as (-> & Hc & ->); [|done..]. unfold object_inputs in Hn.
  destruct (Z.leb_spec (zlen data) PIECE_SIZE) as [|Hgt]; [done|]. rewrite cover_pieces by done.
  eapply verify_hashes_sound; try done.
  - eapply Forall_impl; [exact Hh|]. intros h ?. by apply whole_short.
  - unfold hashes_inputs in Hn. rewrite Z.div_mul, <- zlen_pieces in Hn by done. eapply no_collision_mono; [| |exact Hn]; [done|].
    intros x Hx. apply elem_of_app. by right.
Qed.

Lemma elem_of_concat_map {A C} (f : A -> list C) l x z : x ∈ l -> z ∈ f x -> z ∈ concat (map f l).
Proof using.
  intros Hx Hz. apply list_elem_of_In, in_concat. exists (f x). split; [apply in_map|]; by apply list_elem_of_In.
Qed.

(** Equal hashes of the pieces of two ranges of one length: equal ranges. *)
Lemma pieces_inj d d' : zlen d = zlen d' ->
  no_collision (concat (map (leaf_inputs 2) (chunks PIECE_SIZE d))) (concat (map (leaf_inputs 2) (chunks PIECE_SIZE d'))) ->
  map piece_hash (chunks PIECE_SIZE d) = map piece_hash (chunks PIECE_SIZE d') -> d = d'.
Proof using HO.
  intros Hz Hn E. assert (0 < PIECE_SIZE) as HP by done. rewrite <- (concat_chunks PIECE_SIZE HP d), <- (concat_chunks PIECE_SIZE HP d'). f_equal.
  apply list_eq_same_length with (n := length (chunks PIECE_SIZE d)); [|done|].
  { pose proof (f_equal length E) as El. by rewrite !length_map in El. }
  intros i x y Hi Hx Hy. pose proof (f_equal (lookup i) E) as Ei.
  change (map piece_hash) with (fmap piece_hash : list (list Z) -> _) in Ei. rewrite !list_lookup_fmap, Hx, Hy in Ei. injection Ei as Ei.
  pose proof (chunk_bounds PIECE_SIZE HP d x ltac:(by eapply list_elem_of_lookup_2)) as Hbx.
  pose proof (chunk_bounds PIECE_SIZE HP d' y ltac:(by eapply list_elem_of_lookup_2)) as Hby.
  rewrite !piece_hash_node in Ei by lia. apply (leaf_tree_inj 2 x y); [|change (SHA256_LEAF_SIZE * 2 ^ Z.of_nat 2) with PIECE_SIZE; lia| |exact Ei].
  - pose proof Hx as Hx'. pose proof Hy as Hy'. apply chunks_lookup in Hx' as [Hx1 ->], Hy' as [Hy1 ->]; try done. rewrite !zlen_slice by lia. lia.
  - eapply no_collision_mono; [| |exact Hn]; intros z Hin; (eapply elem_of_concat_map; [by eapply list_elem_of_lookup_2|done]).
Qed.

(** C8: SHA-256 range proofs are sound.  Where no two different inputs hashed in verifying and in computing the object's root
    share a digest, bytes that verify at an offset against the root and length of an object are the object's bytes there:
    a proof made by anyone, with any covered offset, cannot pass off other bytes, move them, or leave some out. *)
Theorem verified_range_is_the_objects data offset d proof : zlen data <= i64_max -> zlen proof <= i64_max -> 0 <= offset ->
  no_collision (verify_inputs (zlen data) offset d proof) (object_inputs data) ->
  verify (ProofSha256.root data) (zlen data) offset d proof = Ok tt ->
  d = slice data offset (offset + zlen d) /\ offset + zlen d <= zlen data.
Proof using HO.
  intros Hmax Hp Ho Hn Hv. unfold verify in Hv. destruct (check_cover _ _ _) as [[first past]|] eqn:Ec; [|done].
  apply check_cover_inv in Ec as (-> & Hc & ->); [|done|apply zlen_nonneg]. pose proof Hc as (Hf & Hlt & He & Hend). split; [|done].
  unfold verify_inputs, object_inputs in Hn. destruct (Z.leb_spec (zlen data) PIECE_SIZE) as [Hle|Hgt].
  - assert (first = 0) as -> by (unfold PIECE_SIZE in *; lia). rewrite Z.mul_0_l in *. assert (zlen d = zlen data) as Hz.
    { destruct Hend as [E|Hm]; [lia|]. apply Z.mod_divide in Hm as [q Hq]; [|done]. unfold PIECE_SIZE in *. lia. }
    rewrite Z.add_0_l, Hz, slice_all by done. pose proof (div_ceil_spec (zlen data) PIECE_SIZE ltac:(done)).
    assert (div_ceil (zlen data) PIECE_SIZE = 1) as Hone by (unfold PIECE_SIZE in *; lia).
    unfold verify_hashes in Hv. rewrite Z.add_0_l, Hz, Hone in Hv.
    assert (ProofSha256.root d = ProofSha256.root data) as E.
    { unfold decode_root in Hv. change (zlen [ProofSha256.root d] =? 1) with true in Hv. cbn [Z.eqb Pos.eqb negb orb] in Hv.
      destruct (bool_decide (proof = [])); [|done]. cbn [negb hd] in Hv.
      by destruct (bool_decide_reflect (ProofSha256.root d = ProofSha256.root data)). }
    rewrite !root_is in E by lia. unfold bep52_root in E. change GROUP_SIZE with PIECE_SIZE in E. rewrite Hz, !(proj2 (Z.leb_le (zlen data) _)) in E by done.
    assert (d <> [] /\ data <> []) as [Hd Hdata] by (split; intros ->; change (zlen (@nil Z)) with 0 in *; lia).
    rewrite !bool_decide_eq_false_2 in E by done. destruct (single_root_tree d Hd) as [E1 Hk], (single_root_tree data Hdata) as [E2 _].
    rewrite E1, E2, Hz in E. rewrite Hz in Hk. apply (leaf_tree_inj (leaf_depth (zlen data))); [done|by rewrite Hz|done|done].
  - assert (zlen (slice data (first * PIECE_SIZE) (first * PIECE_SIZE + zlen d)) = zlen d) as Hs.
    { rewrite zlen_slice; [lia| |done]. pose proof (zlen_nonneg d). unfold PIECE_SIZE in *. lia. }
    apply pieces_inj; [done| |].
    + eapply no_collision_mono; [| |exact Hn]; intros x Hx; apply elem_of_app; left; [done|]. rewrite chunks_slice in Hx by done.
      apply list_elem_of_In, in_concat in Hx as (ys & Hys & Hx). apply in_map_iff in Hys as (p & <- & Hp'). eapply elem_of_concat_map; [|by apply list_elem_of_In].
      apply list_elem_of_In, list_elem_of_lookup in Hp' as [i [_ Hi]%slice_lookup_Some]. by eapply list_elem_of_lookup_2.
    + rewrite cover_pieces by done. eapply verify_hashes_sound; try done.
      * apply Forall_forall. intros h Hh. apply list_elem_of_In, in_map_iff in Hh as (p & <- & Hp'%list_elem_of_In).
        apply chunk_bounds in Hp'; [|done]. rewrite piece_hash_node by apply Hp'. unfold short. setoid_rewrite zlen_parent. lia.
      * unfold hashes_inputs in Hn. rewrite Z.div_mul, <- zlen_pieces in Hn by done.
        eapply no_collision_mono; [| |exact Hn]; intros x Hx; apply elem_of_app; by right.
Qed.
End range.

(** ** Witnesses: an object of two pieces and a range of its second *)

(** A cheap digest: a rolling sum of 48 bits. *)
Definition light_sha256 : Sha256 :=
  mkSha256 (fun input => to_be_bytes 32 (foldl (fun acc b => Z.land (acc * 33 + b + 1) (2 ^ 48 - 1)) 7 input)).

Lemma light_sha256_ok : Sha256Ok light_sha256.
Proof. split. intros input. split; [apply zlen_to_be_bytes|apply to_be_bytes_byte_list]. Qed.

#[local] Existing Instance light_sha256.
#[local] Existing Instance toy_blake3.
#[local] Existing Instance light_sha256_ok.

Definition two_pieces : list Z := repeat 5 (Z.to_nat 40000) ++ repeat 9 (Z.to_nat 30000).
Definition second_piece : RangeProof :=
  match prove two_pieces 66000 100 with Ok rp => rp | Err _ => mkRangeProof 0 [] [] end.
Definition second_hashes : list (list Z) := map piece_hash (chunks PIECE_SIZE (rp_data second_piece)).

Lemma two_pieces_small : zlen two_pieces <= i64_max.
Proof. vm_compute. discriminate. Qed.
Lemma two_pieces_reach : 66000 + 100 <= zlen two_pieces.
Proof. vm_compute. discriminate. Qed.
Lemma two_pieces_large : PIECE_SIZE < zlen two_pieces.
Proof. vm_compute. reflexivity. Qed.

Lemma second_piece_bounds : zlen (rp_proof second_piece) <= i64_max /\ 0 <= rp_covered_offset second_piece.
Proof. split; vm_compute; discriminate. Qed.

Lemma second_piece_verifies :
  verify (ProofSha256.root two_pieces) (zlen two_pieces) (rp_covered_offset second_piece) (rp_data second_piece) (rp_proof second_piece) = Ok tt /\
  verify_piece_hashes (ProofSha256.root two_pieces) (zlen two_pieces) (rp_covered_offset second_piece) (zlen (rp_data second_piece))
    second_hashes (rp_proof second_piece) = Ok tt.
Proof. split; vm_compute; reflexivity. Qed.

Lemma second_piece_apart :
  no_collision (verify_inputs (zlen two_pieces) (rp_covered_offset second_piece) (rp_data second_piece) (rp_proof second_piece)) (object_inputs two_pieces).
Proof. apply collision_check_correct. vm_compute. reflexivity. Qed.

Lemma second_hashes_apart :
  no_collision (hashes_inputs (zlen two_pieces) (rp_covered_offset second_piece) (zlen (rp_data second_piece)) second_hashes (rp_proof second_piece))
    (object_inputs two_pieces).
Proof. unfold second_hashes. apply hashes_inputs_part; [exact two_pieces_large|exact second_piece_apart]. Qed.

Lemma second_hashes_whole : Forall (fun h => zlen h = 32) second_hashes.
Proof. unfold second_hashes. rewrite <- pieces_chunks. apply pieces_hashes. Qed.

Lemma range_proof_verifies_witness :
  exists rp, prove two_pieces 66000 100 = Ok rp /\
    rp_covered_offset rp <= 66000 /\ 66000 + 100 <= rp_covered_offset rp + zlen (rp_data rp) /\
    rp_data rp = slice two_pieces (rp_covered_offset rp) (rp_covered_offset rp + zlen (rp_data rp)) /\
    verify (ProofSha256.root two_pieces) (zlen two_pieces) (rp_covered_offset rp) (rp_data rp) (rp_proof rp) = Ok tt /\
    exists st, push_all (chunks PIECE_SIZE two_pieces) piece_hashes_new = (Ok tt, st) /\
      prove_with st 66000 100 = Ok (mkRangeCover (rp_covered_offset rp) (zlen (rp_data rp)) (rp_proof rp)) /\
      prove_with (seal st) 66000 100 = prove_with st 66000 100.
Proof. apply (range_proof_verifies two_pieces 66000 100); [exact two_pieces_small|lia|lia|exact two_pieces_reach]. Defined.

Lemma verified_hashes_are_the_objects_witness :
  second_hashes = map piece_hash (chunks PIECE_SIZE (slice two_pieces (rp_covered_offset second_piece)
    (rp_covered_offset second_piece + zlen (rp_data second_piece)))).
Proof.
  apply (verified_hashes_are_the_objects two_pieces (rp_covered_offset second_piece) (zlen (rp_data second_piece)) second_hashes (rp_proof second_piece)).
  - exact two_pieces_small.
  - exact (proj1 second_piece_bounds).
  - exact (proj2 second_piece_bounds).
  - apply zlen_nonneg.
  - exact second_hashes_whole.
  - exact second_hashes_apart.
  - exact (proj2 second_piece_verifies).
Defined.

Lemma verified_range_is_the_objects_witness :
  rp_data second_piece = slice two_pieces (rp_covered_offset second_piece) (rp_covered_offset second_piece + zlen (rp_data second_piece)) /\
  rp_covered_offset second_piece + zlen (rp_data second_piece) <= zlen two_pieces.
Proof.
  apply (verified_range_is_the_objects two_pieces (rp_covered_offset second_piece) (rp_data second_piece) (rp_proof second_piece)).
  - exact two_pieces_small.
  - exact (proj1 second_piece_bounds).
  - exact (proj2 second_piece_bounds).
  - exact second_piece_apart.
  - exact (proj1 second_piece_verifies).
Defined.
